(* ===== verification/_CoqProject ===== *)
-Q . S2P
Prelude.v
Bytes.v
Database.v
Interfaces.v
BlockIndex.v
ChainState.v
BlockStore.v
ForkChoice.v
UtxoSnapshot.v
UtxoStore.v
Reorg.v
Wire.v
MerkleBlock.v
TxInflight.v
IbdRun.v
IbdMerge.v
IbdIndex.v
IbdRefine.v
Graph.v
TxPolicy.v
Mempool.v
MempoolInv.v
MempoolEvict.v
MempoolLimits.v
MempoolFile.v
MempoolProps.v
CompactBlock.v
Pruning.v
Miner.v
MinerProps.v
