(* ===== verification/Prelude.v ===== *)
(** * A verification library for blvm-node

    This development models the storage layer with its pruning, the coin index of
    the initial download, the fork choice, the reorganisation, the transaction
    pool, the choice of transactions for a block and the relay of compact blocks
    of the Bitcoin node in [src/], and proves what keeps them correct.  It is a
    shallow embedding: every operation of the Rust code is a Rocq function on an
    explicit state, with its guards, its error returns and its writes in the order
    of the source.

    ** The program and the files

    The node keeps its data in a key-value store with named trees
    ([src/storage/database/mod.rs]).  On top of it stand the block index, the
    chain state with the tip and the checkpoint labels, the block store, and the
    coins; a fork choice compares cumulative work and a reorganisation moves the
    coins, the labels and the tip from one branch to another.  The transaction
    pool admits, replaces and evicts unconfirmed transactions against the coins; a
    block template is chosen from it, and a compact block that a peer sends is
    completed from it.  Pruning takes the bodies of old blocks from the store.
    During the initial download the coins live in an index of sorted runs in seven
    ages, which other threads merge while blocks are appended and readers ask at
    the heights they have pinned.

    - [Prelude] (this file): results, the error-state monad [M] whose errors keep
      the writes made before them, machine integers, sums, shared tactics.
    - [Bytes]: byte strings, big- and little-endian integers, slices.
    - [Database]: the trees as one map from tree and key to value, batches,
      keyed commits and the prefixes of a commit that a crash can leave.
    - [Interfaces]: type classes for the code of other crates (row codecs, 256-bit
      work, consensus constants, the rolling set hash), each with its documented
      laws, and instances that satisfy them.
    - [BlockIndex] ([storage/block_index.rs]): rows with sequence ids, batches,
      invalid marks, tips and branch lengths.
    - [ChainState] ([storage/chainstate.rs]): tip, chainwork, watermarks,
      checkpoint labels, invalid blocks.
    - [BlockStore] ([storage/blockstore.rs]): headers, the height index, getheaders
      replies, removal of bodies.
    - [ForkChoice] ([node/chain_selector.rs], [node/reorg_executor.rs]): the
      comparison with the active tip, the walks to the fork point, the height
      index refresh, the missing chainwork of a parent.
    - [UtxoSnapshot] ([node/reorg_executor.rs], [node/sync.rs]): the coin delta
      of connected and disconnected blocks as one batch with a journal and the
      running hash, disconnection in windows, crash recovery.
    - [UtxoStore] ([storage/utxostore.rs]): the coin table and its cache.
    - [Reorg] ([node/reorg_executor.rs]): [try_activate_heavier_fork] as a whole.
    - [Wire]: compact sizes and checked allocation, shared by the two formats below.
    - [MerkleBlock] ([rpc/merkle_block.rs]): inclusion proofs, built, written, read
      and checked.
    - [TxInflight] ([network/tx_inflight.rs]): the transaction requests in flight and
      waiting for each peer.
    - [IbdRun] ([storage/ibd_engine/types.rs], [memory_run.rs]): one run of the coin
      index with its directory and Bloom filter; its lookup and its merge.
    - [IbdMerge]: the proofs on the merge, its clean-up and every run it can build.
    - [IbdIndex] ([storage/ibd_engine/memory_age.rs], [index.rs]): the ages, pins,
      merges in two halves and the batch query over all tiers.
    - [IbdRefine]: the interleavings of these steps, their invariant, and that a
      query answers from the list of appended blocks.
    - [Graph]: the two work-list searches the pool uses, with their exact result.
    - [TxPolicy] ([node/mempool.rs], [network/txhash.rs]): transactions, push
      parsing, standard scripts, dust, witness limits, script checks, weights.
    - [Mempool] ([node/mempool.rs], [config/mempool.rs]): the pool tables and every
      operation on them: admission, replacement, the dry run, packages, limits,
      eviction, expiry, connected blocks, reorganisations, the fee index.
    - [MempoolFile] ([node/core_mempool_dat.rs], [node/mempool.rs]): the pool file,
      its encoding, saving and loading.
    - [MempoolInv], [MempoolEvict], [MempoolLimits], [MempoolProps]: the proofs on
      the pool; the last file holds its theorems and a concrete pool.
    - [CompactBlock] ([network/compact_blocks.rs], [network/wire_dispatch.rs]):
      making a compact block, matching it with the pool, the table of blocks that
      wait for transactions, and the handlers of the three messages.
    - [Pruning] ([storage/pruning.rs], [storage/commitment_store.rs], [node/run_loop.rs]):
      the refusals and the three modes of a prune, coin commitments, the automatic
      prune after a block.
    - [Miner] ([node/miner.rs]): the choice of transactions for a block template;
      [MinerProps]: the proofs on it.

    A Rust value of type [u64] is a [Z]; wrap-around, saturation and range checks
    are written out.  A database handle is the state of [M]; [&self] methods that
    only read are functions of the state into [result].  [HashMap]s and [HashSet]s
    are [gmap]s and [gset]s; where the code iterates one, the model iterates
    [map_to_list] or [elements], and no theorem depends on that order.

    ** What the theorems show

    Each property carries its number in its doc comment.

    - C1, the coin index of the download: under every interleaving of appends,
      dropped pins and merges, a query at a pinned height gives the coins of the
      appended blocks.  [engine_step] is what the engine does in any state;
      [in_order] are the conditions of the theorem, which the code does not check:
      blocks come with rising heights and alternating events, a merge of the first
      age begins with the newest block pinned, and a merge finishes without folding
      the oldest age, without spilling past an older run ([calm_steps] derives this
      from settings that do not change), with its segment written and below 2^32
      entries.  Four lemmas of [IbdRefine.IndexWitness] compute how a spent coin
      comes back, or a coin is lost, otherwise.  C29 and C30 are about one run: the
      lookup equals a linear scan, and every run is well formed.
    - C2 and C13 to C17, the chain state: what a tip update writes, that a crash at any
      point of it leaves the old or the new tip with its rows, cumulative work
      along a chain, batch indexing of new blocks equal to single, and checkpoint
      labels that never pass the tip, when the three writers that do not look at
      the tip are not called above it.
    - C3, C4 and C27, the coins on disk: the batch refines the undo logs on an abstract
      coin map, connect and disconnect are inverse, and a crash at any write of a
      connect is recovered, the tip update being one write.  C28, the coin table.
    - C5, C6, C36, C37, C39 and C40, the transaction pool: the invariant of every
      reachable pool, the outcome of an admission, exact eviction, the caps, a
      dry run that admission agrees with, and the exact ancestor and descendant
      limits.
    - C7, C21 and C23, block templates of every reachable pool: parents come before
      children and nothing is spent twice, every transaction is there because it or
      a descendant pays the fee floor for it, and the limits of a block hold.
    - C8 and C22, compact blocks: a block sent as a compact block arrives whole or is
      requested whole, and the table of waiting blocks keeps its bounds.
    - C9, pruning: exactly the bodies a prune takes, and the trees it can write.
    - C10 to C12, the block index: sequence ids are unique under every operation, a
      batch equals single inserts exactly for new blocks, branch lengths are exact.
    - C18 to C20, the block store: the height search on a contiguous store, height
      claims of a header batch, getheaders replies from the first active locator.
    - C24 and C33, inclusion proofs: a built proof survives the wire and checks, and
      an accepted proof names only transactions of the block.
    - C25 and C26, fork choice: the fork point is the last common block, also on a
      branch of which only headers are stored; how far the height index is
      refreshed, and where rows of the old chain can stay.
    - C31 and C32, transaction requests: the bounds of the tracker, and that a
      waiting hash is requested when the peer keeps being served.
    - C34, C35 and C38, the pool file: its round trip, saving that is all or
      nothing, loading that keeps the pool consistent.

    Further lemmas state the tips of the block index, the round trip of an invalid
    mark, the chainwork filled in for a parent, the strict comparison of the fork
    choice, when a prune is refused, the grammar of standard bare multisig, and
    what a refused fork leaves behind.

    A theorem or lemma that states a defect is proved of the code as it is
    written, and the manifest lists it as a finding.

    ** Fuel

    Loops that are not structural take fuel.  The walks over the block index are
    capped by the source at 10,000 rounds and the fuel is just above that cap.
    The height search doubles and halves a [u64], so 64 and 64 rounds are enough.
    The fork walks take the sum of both heights.  A search of the pool graph takes
    one round per edge and start node ([mark_on_pop_root], [mark_on_push_root]
    prove that this always gives the full reachable set), a script walk one round
    per byte, a package loop one round per transaction, a merge of runs one round
    per entry.  The search for ancestors of a template takes one round more than
    the pool has transactions, the loop over waiting transactions one more than
    there are ([walk_fuel], [ready_loop_fuel] prove that more changes nothing).
    Loops over heights take one round per height.  The theorems about these loops
    state the result, not only that a result would be right.

    ** What is not modelled

    Code of other crates (consensus validation, script execution, serialisation
    of blocks and transactions, hashing) is a parameter with its laws.  Storage
    backends, sockets, threads, RPC, modules, logging, events and locks are I/O or
    concurrency around the modelled components and are left out; operations run
    one after another, as under the locks of the source.  Only in the coin index
    do threads interleave: a merge is two steps, with any others between them.
    The second pushes the merged run and removes its inputs; C1 also covers a reader
    between the two, but no other writer comes there, and a query is one step.  The cold
    tier of that index is the list of spilled runs; its segment files, their
    compaction and the flat output table are not modelled.  Pruning is
    modelled for the default features: commitments on, no compression, no reader
    of Bitcoin Core files.  Of the miner the coinbase, the header and the search
    for a proof of work are left out: they call consensus code.  The rest of the
    download pipeline, the import of Bitcoin Core data, secondary indexes, the
    statistics and recent-header caches of the store, and most peer-to-peer
    policies are not modelled. *)

From Stdlib Require Export ZArith Lia.
From stdpp Require Export countable prelude gmap strings.

(** ** Results and the error-state monad *)

Declare Scope node_scope.
Delimit Scope node_scope with node.
Open Scope node_scope.

(** [anyhow::Result<A>]: a value or an error with its message. *)
Inductive result (A : Type) : Type :=
| Ok (a : A)
| Err (msg : string).
Arguments Ok {A} _.
Arguments Err {A} _%_string.

Definition is_ok {A} (r : result A) : bool :=
  match r with Ok _ => true | Err _ => false end.

(** A fallible computation over a mutable state [St].  As in the Rust code an
    error does not undo the writes that happened before it. *)
Definition M (St A : Type) : Type := St → St * result A.

Definition ret {St A} (a : A) : M St A := fun s => (s, Ok a).
Definition throw {St A} (msg : string) : M St A := fun s => (s, Err msg).
Definition bind {St A B} (m : M St A) (k : A → M St B) : M St B :=
  fun s => match m s with
           | (s', Ok a) => k a s'
           | (s', Err e) => (s', Err e)
           end.
Definition gets {St A} (f : St → A) : M St A := fun s => (s, Ok (f s)).
Definition modify {St} (f : St → St) : M St unit := fun s => (f s, Ok tt).
Definition lift {St A} (r : result A) : M St A := fun s => (s, r).
Definition reads {St A} (f : St → result A) : M St A := fun s => (s, f s).

Notation "'let*' x ':=' m 'in' k" := (bind m (fun x => k))
  (at level 10, x pattern, m at level 100, k at level 200)
  : node_scope.
Notation "m ;; k" := (bind m (fun _ => k))
  (at level 100, k at level 200, right associativity) : node_scope.

(** The same notation for a pure [result]. *)
Definition rbind {A B} (r : result A) (k : A → result B) : result B :=
  match r with Ok a => k a | Err e => Err e end.
Notation "'let+' x ':=' m 'in' k" := (rbind m (fun x => k))
  (at level 10, x pattern, m at level 100, k at level 200)
  : node_scope.

Definition of_option {A} (msg : string) (o : option A) : result A :=
  match o with Some a => Ok a | None => Err msg end.

Section MonadLaws.
Context {St A B : Type}.
Implicit Types (m : M St A) (k : A → M St B) (s : St).

Lemma bind_ok m k s s' a : m s = (s', Ok a) → bind m k s = k a s'.
Proof. unfold bind. by intros ->. Qed.

Lemma bind_err m k s s' e : m s = (s', Err e) → bind m k s = (s', Err e).
Proof. unfold bind. by intros ->. Qed.

Lemma bind_inv_ok m k s s' b :
  bind m k s = (s', Ok b) → ∃ s1 a, m s = (s1, Ok a) ∧ k a s1 = (s', Ok b).
Proof. unfold bind. destruct (m s) as [s1 [a|e]]; naive_solver. Qed.
End MonadLaws.

Lemma rbind_inv_ok {A B} (r : result A) (k : A → result B) b :
  rbind r k = Ok b → ∃ a, r = Ok a ∧ k a = Ok b.
Proof. destruct r; naive_solver. Qed.

(** ** Machine integers: a [uN] is a [Z] with its range written out *)

Definition u8_max : Z := 2 ^ 8 - 1.
Definition u32_max : Z := 2 ^ 32 - 1.
Definition u64_max : Z := 2 ^ 64 - 1.
Definition i64_max : Z := 2 ^ 63 - 1.

Definition is_u32 (z : Z) : Prop := (0 ≤ z < 2 ^ 32)%Z.
Definition is_u64 (z : Z) : Prop := (0 ≤ z < 2 ^ 64)%Z.

(** [u64::saturating_add], [u64::saturating_sub]. *)
Definition sat_add (a b : Z) : Z := Z.min (a + b) u64_max.
Definition sat_sub (a b : Z) : Z := Z.max (a - b) 0.

(** [x as u32], [x as u64] on an integer of any width. *)
Definition as_u32 (z : Z) : Z := z mod 2 ^ 32.
Definition as_u64 (z : Z) : Z := z mod 2 ^ 64.
Definition as_i32 (z : Z) : Z := (z + 2 ^ 31) mod 2 ^ 32 - 2 ^ 31.

Lemma sat_add_u64 a b : is_u64 a → is_u64 b → is_u64 (sat_add a b).
Proof. unfold is_u64, sat_add, u64_max. lia. Qed.
Lemma sat_sub_u64 a b : is_u64 a → is_u64 b → is_u64 (sat_sub a b).
Proof. unfold is_u64, sat_sub. lia. Qed.
Lemma as_u32_small z : is_u32 z → as_u32 z = z.
Proof. unfold is_u32, as_u32. intros. by apply Z.mod_small. Qed.
Lemma as_u32_range z : is_u32 (as_u32 z).
Proof. unfold is_u32, as_u32. apply Z.mod_pos_bound. lia. Qed.
Lemma as_u64_small z : is_u64 z → as_u64 z = z.
Proof. unfold is_u64, as_u64. intros. by apply Z.mod_small. Qed.

Create HintDb node discriminated.
#[export] Hint Resolve sat_add_u64 sat_sub_u64 as_u32_range : node.

(** ** Sums and joins *)

Definition sum_z (l : list Z) : Z := foldr Z.add 0%Z l.

Lemma sum_z_perm (l l' : list Z) : l ≡ₚ l' → sum_z l = sum_z l'.
Proof. unfold sum_z. induction 1; cbn; lia. Qed.
Lemma sum_z_app (l k : list Z) : sum_z (l ++ k) = (sum_z l + sum_z k)%Z.
Proof. unfold sum_z. induction l as [|x l IH]; cbn in *; lia. Qed.
Lemma sum_z_snoc {A} (f : A → Z) l x : sum_z (f <$> l ++ [x]) = (sum_z (f <$> l) + f x)%Z.
Proof. rewrite fmap_app, sum_z_app. unfold sum_z. cbn. lia. Qed.
Lemma sum_z_nonneg (l : list Z) : Forall (λ x, 0 ≤ x)%Z l → (0 ≤ sum_z l)%Z.
Proof. unfold sum_z. induction 1; cbn in *; lia. Qed.

Lemma join_cons {A} (x : list A) xs : mjoin (x :: xs) = x ++ mjoin xs.
Proof. done. Qed.

(** ** Runs of a step relation *)

Lemma rtc_invariant {A} (R : relation A) (P : A → Prop) x y :
  (∀ a b, P a → R a b → P b) → P x → rtc R x y → P y.
Proof. intros Hstep HP. induction 1; eauto. Qed.

(** A run is its final state and its result. *)
Lemma run_eta {St A} (m : M St A) (s : St) (r : result A) :
  (m s).2 = r → m s = ((m s).1, r).
Proof. by destruct (m s) as [s' r']; intros <-. Qed.

(** ** Tactics *)

(** Run the monadic head of a goal or of a hypothesis one step. *)
Ltac inv_ok :=
  repeat match goal with
  | H : bind _ _ _ = (_, Ok _) |- _ =>
      apply bind_inv_ok in H; destruct H as (? & ? & ? & H)
  | H : rbind _ _ = Ok _ |- _ =>
      apply rbind_inv_ok in H; destruct H as (? & ? & H)
  | H : ret _ _ = (_, _) |- _ => unfold ret in H
  | H : gets _ _ = (_, _) |- _ => unfold gets in H
  | H : lift _ _ = (_, _) |- _ => unfold lift in H
  | H : reads _ _ = (_, _) |- _ => unfold reads in H
  | H : modify _ _ = (_, _) |- _ => unfold modify in H
  | H : throw _ _ = (_, Ok _) |- _ => unfold throw in H; discriminate H
  | H : (_, _) = (_, _) |- _ => injection H as H; subst
  | H : Ok _ = Ok _ |- _ => injection H as H; subst
  end.
