(* ===== verification/Bytes.v ===== *)
(** * Bytes: byte strings and the fixed-width integer encodings

    Rust's [to_le_bytes]/[from_le_bytes] and [to_be_bytes]/[from_be_bytes] at
    any width, slices, and the 32-byte hashes every other file keys its maps
    with. *)

From S2P Require Import Prelude.
From coqutil Require Import Byte Word.LittleEndianList.

Abbreviation bytes := (list Byte.byte).

#[export] Instance byte_eq_dec : EqDecision Byte.byte.
Proof. intros x y. destruct (Byte.byte_eq_dec x y); [by left | by right]. Defined.

#[export] Instance byte_countable : Countable Byte.byte.
Proof. exact (inj_countable Byte.to_N Byte.of_N Byte.of_to_N). Defined.

(** [z.to_le_bytes()] of an [n]-byte integer and its inverse. *)
Definition to_le (n : nat) (z : Z) : bytes := le_split n z.
Definition of_le (bs : bytes) : Z := le_combine bs.
(** [z.to_be_bytes()] and [from_be_bytes]. *)
Definition to_be (n : nat) (z : Z) : bytes := reverse (le_split n z).
Definition of_be (bs : bytes) : Z := le_combine (reverse bs).

(** [&data[off..off + len]]; the caller checks the bounds. *)
Definition slice (off len : nat) (bs : bytes) : bytes := take len (drop off bs).

(** A byte as its value, and a value as a byte. *)
Definition b2z (b : Byte.byte) : Z := byte.unsigned b.
Definition z2b (z : Z) : Byte.byte := byte.of_Z z.

(** A byte-string literal [b"..."]. *)
Definition bstr (s : string) : bytes := String.list_byte_of_string s.

(** A block or transaction hash: [[u8; 32]]. *)
Definition is_hash (h : bytes) : Prop := length h = 32.
Definition zero_hash : bytes := replicate 32 Byte.x00.

Lemma length_to_le n z : length (to_le n z) = n.
Proof. apply length_le_split. Qed.
Lemma length_to_be n z : length (to_be n z) = n.
Proof. unfold to_be. by rewrite length_reverse, length_le_split. Qed.
Lemma is_hash_zero : is_hash zero_hash.
Proof. reflexivity. Qed.

Lemma of_to_le n z : (0 ≤ z < 2 ^ (8 * Z.of_nat n))%Z → of_le (to_le n z) = z.
Proof.
  intros Hz. unfold of_le, to_le. rewrite le_combine_split.
  apply Z.mod_small. by rewrite Z.mul_comm.
Qed.

Lemma of_to_be_mod n z : of_be (to_be n z) = (z mod 2 ^ (8 * Z.of_nat n))%Z.
Proof. unfold of_be, to_be. rewrite reverse_involutive, le_combine_split. by rewrite Z.mul_comm. Qed.

Lemma of_to_be n z : (0 ≤ z < 2 ^ (8 * Z.of_nat n))%Z → of_be (to_be n z) = z.
Proof. intros Hz. unfold of_be, to_be. rewrite reverse_involutive. by apply of_to_le. Qed.

Lemma to_of_le bs : to_le (length bs) (of_le bs) = bs.
Proof. apply split_le_combine. Qed.

Lemma to_of_be bs : to_be (length bs) (of_be bs) = bs.
Proof.
  unfold to_be, of_be. rewrite <-(length_reverse bs), split_le_combine.
  apply reverse_involutive.
Qed.

Lemma of_le_range bs : (0 ≤ of_le bs < 2 ^ (8 * Z.of_nat (length bs)))%Z.
Proof. apply le_combine_bound. Qed.
Lemma of_be_range bs : (0 ≤ of_be bs < 2 ^ (8 * Z.of_nat (length bs)))%Z.
Proof. unfold of_be. rewrite <-(length_reverse bs). apply le_combine_bound. Qed.

Lemma of_to_be_u64 z : is_u64 z → of_be (to_be 8 z) = z.
Proof. intros Hz. by apply of_to_be. Qed.
Lemma of_to_le_u32 z : is_u32 z → of_le (to_le 4 z) = z.
Proof. intros Hz. by apply of_to_le. Qed.

Lemma to_be_inj n z1 z2 :
  (0 ≤ z1 < 2 ^ (8 * Z.of_nat n))%Z → (0 ≤ z2 < 2 ^ (8 * Z.of_nat n))%Z →
  to_be n z1 = to_be n z2 → z1 = z2.
Proof. intros H1 H2 E. rewrite <-(of_to_be n z1), <-(of_to_be n z2) by done. by rewrite E. Qed.

Lemma b2z_range b : (0 ≤ b2z b < 256)%Z.
Proof. apply byte.unsigned_range. Qed.
Lemma b2z_z2b z : (0 ≤ z < 256)%Z → b2z (z2b z) = z.
Proof. intros. unfold b2z, z2b. rewrite byte.unsigned_of_Z. by apply Z.mod_small. Qed.
Lemma z2b_b2z b : z2b (b2z b) = b.
Proof. apply byte.of_Z_unsigned. Qed.
Lemma b2z_inj b1 b2 : b2z b1 = b2z b2 → b1 = b2.
Proof. apply byte.unsigned_inj. Qed.

(** Reading a fixed-width field at the front of a byte string. *)
Lemma slice_app_l n (a b : bytes) : length a = n → slice 0 n (a ++ b) = a.
Proof. intros <-. unfold slice. by rewrite drop_0, take_app_length. Qed.
Lemma drop_app_l n (a b : bytes) : length a = n → drop n (a ++ b) = b.
Proof. intros <-. apply drop_app_length. Qed.
Lemma slice_app_r off len (a b : bytes) n :
  length a = n → n ≤ off → slice off len (a ++ b) = slice (off - n) len b.
Proof.
  intros <- Hle. unfold slice. rewrite drop_app_ge by done. done.
Qed.
Lemma slice_all (a : bytes) n : length a = n → slice 0 n a = a.
Proof. intros <-. unfold slice. rewrite drop_0. by apply take_ge. Qed.
Lemma length_slice off len (bs : bytes) :
  off + len ≤ length bs → length (slice off len bs) = len.
Proof. intros. unfold slice. rewrite length_take, length_drop. lia. Qed.

Create Rewrite HintDb bytes.
#[export] Hint Rewrite length_to_le length_to_be @length_app @length_reverse : bytes.
#[export] Hint Resolve b2z_range : node.

#[global] Arguments to_le : simpl never.
#[global] Arguments to_be : simpl never.
#[global] Arguments of_le : simpl never.
#[global] Arguments of_be : simpl never.
