(* ===== verification/Database.v ===== *)
(** * Database: the key-value layer of [src/storage/database/mod.rs]

    A database is a set of named trees of byte strings.  It is modelled as one
    finite map from (tree name, key) to value; [Tree::insert], [get], [remove],
    [contains_key], [clear], [iter], the batch writer and [commit_keyed] are
    the definitions below.  The engines under the trait (LMDB, redb, sled,
    RocksDB) are third-party: what the code relies on is that a batch commit is
    one atomic write, and [commit_keyed] is atomic on heed3 only. *)

From S2P Require Import Prelude Bytes.

Abbreviation database := (gmap (string * bytes) bytes).

(** One row of a batch: [Some] puts, [None] deletes. *)
Abbreviation batch_op := (bytes * option bytes)%type.
(** One row of [commit_keyed]: tree, key, value. *)
Abbreviation keyed_op := (string * bytes * option bytes)%type.

Section Tree.
Implicit Types (db : database) (t : string) (k v : bytes).

Definition tree_get t k db : option bytes := db !! (t, k).
Definition tree_insert t k v db : database := <[(t, k) := v]> db.
Definition tree_remove t k db : database := delete (t, k) db.
Definition tree_contains_key t k db : bool := bool_decide (is_Some (db !! (t, k))).
Definition tree_clear t db : database := filter (λ kv, kv.1.1 ≠ t) db.
(** The (key, value) pairs of a tree.  Order is not part of the model. *)
Definition tree_iter t db : list (bytes * bytes) :=
  (λ kv, (kv.1.2, kv.2)) <$> map_to_list (filter (λ kv, kv.1.1 = t) db).
End Tree.

(** [BatchWriter]: the pending operations, applied in order by [commit]. *)
Definition apply_op (op : keyed_op) (db : database) : database :=
  match op with
  | (t, k, Some v) => tree_insert t k v db
  | (t, k, None) => tree_remove t k db
  end.

(** [commit_keyed]: the operations in order. *)
Definition commit_keyed (ops : list keyed_op) (db : database) : database :=
  foldl (λ d op, apply_op op d) db ops.

Definition batch_commit (t : string) (ops : list batch_op) (db : database) : database :=
  commit_keyed ((λ op, (t, op.1, op.2)) <$> ops) db.

(** Crash points of [commit_keyed].  With every tree on heed3 the operations
    are one LMDB transaction, so a crash leaves either all of them or none.
    Every other backend applies them one commit at a time, so a crash leaves
    any prefix. *)
Inductive Backend := Heed3 | Sequential.

Definition crash_states (b : Backend) (ops : list keyed_op) (db : database)
    : list database :=
  match b with
  | Heed3 => [db; commit_keyed ops db]
  | Sequential => (λ n, commit_keyed (take n ops) db) <$> seq 0 (S (length ops))
  end.

(** ** Lemmas *)

Section TreeLemmas.
Implicit Types (db : database) (t : string) (k v : bytes).

Lemma tree_get_insert t k v t' k' db :
  tree_get t' k' (tree_insert t k v db) =
  if decide ((t, k) = (t', k')) then Some v else tree_get t' k' db.
Proof. unfold tree_get, tree_insert. apply lookup_insert. Qed.

Lemma tree_get_remove t k t' k' db :
  tree_get t' k' (tree_remove t k db) =
  if decide ((t, k) = (t', k')) then None else tree_get t' k' db.
Proof. unfold tree_get, tree_remove. apply lookup_delete. Qed.

Lemma tree_get_empty t k : tree_get t k ∅ = None.
Proof. apply lookup_empty. Qed.

Lemma tree_get_insert_eq t k v db : tree_get t k (tree_insert t k v db) = Some v.
Proof. rewrite tree_get_insert. by rewrite decide_True. Qed.
Lemma tree_get_insert_ne t k v t' k' db :
  (t, k) ≠ (t', k') → tree_get t' k' (tree_insert t k v db) = tree_get t' k' db.
Proof. intros. rewrite tree_get_insert. by rewrite decide_False. Qed.
Lemma tree_get_remove_eq t k db : tree_get t k (tree_remove t k db) = None.
Proof. rewrite tree_get_remove. by rewrite decide_True. Qed.
Lemma tree_get_remove_ne t k t' k' db :
  (t, k) ≠ (t', k') → tree_get t' k' (tree_remove t k db) = tree_get t' k' db.
Proof. intros. rewrite tree_get_remove. by rewrite decide_False. Qed.

Lemma tree_contains_key_spec t k db :
  tree_contains_key t k db = true ↔ is_Some (tree_get t k db).
Proof. unfold tree_contains_key, tree_get. by rewrite bool_decide_eq_true. Qed.

Lemma tree_get_clear t t' k db :
  tree_get t' k (tree_clear t db) =
  if decide (t' = t) then None else tree_get t' k db.
Proof.
  unfold tree_get, tree_clear. case_decide as Heq.
  - apply map_lookup_filter_None. right. intros v _. simpl. naive_solver.
  - destruct (db !! (t', k)) as [v|] eqn:E.
    + apply map_lookup_filter_Some. naive_solver.
    + apply map_lookup_filter_None. by left.
Qed.

Lemma elem_of_tree_iter t k v db :
  (k, v) ∈ tree_iter t db ↔ tree_get t k db = Some v.
Proof.
  unfold tree_iter, tree_get. rewrite list_elem_of_fmap. split.
  - intros ([[t' k'] v'] & Heq & Hin). apply elem_of_map_to_list in Hin. simpl in *. simplify_eq.
    apply map_lookup_filter_Some in Hin. naive_solver.
  - intros Hget. exists (t, k, v). split; [done|].
    apply elem_of_map_to_list, map_lookup_filter_Some. naive_solver.
Qed.
End TreeLemmas.

Lemma commit_keyed_nil db : commit_keyed [] db = db.
Proof. done. Qed.

Lemma commit_keyed_cons op ops db :
  commit_keyed (op :: ops) db = commit_keyed ops (apply_op op db).
Proof. done. Qed.

Lemma commit_keyed_app ops1 ops2 db :
  commit_keyed (ops1 ++ ops2) db = commit_keyed ops2 (commit_keyed ops1 db).
Proof. apply foldl_app. Qed.

(** A key that no operation names keeps its value. *)
Lemma commit_keyed_other ops t k db :
  (t, k) ∉ ops.*1 → tree_get t k (commit_keyed ops db) = tree_get t k db.
Proof.
  revert db. induction ops as [|[[t' k'] [v|]] ops IH]; intros db Hnin; [done| |];
    rewrite commit_keyed_cons; cbn in Hnin; apply not_elem_of_cons in Hnin as [Hne Hnin];
    rewrite IH by done; cbn;
    [apply tree_get_insert_ne | apply tree_get_remove_ne]; congruence.
Qed.

(** The last operation on a key decides its value. *)
Lemma commit_keyed_snoc ops t k v db :
  tree_get t k (commit_keyed (ops ++ [(t, k, v)]) db) = v.
Proof.
  rewrite commit_keyed_app. destruct v; cbn;
    [apply tree_get_insert_eq | apply tree_get_remove_eq].
Qed.

Lemma batch_commit_app t ops1 ops2 db :
  batch_commit t (ops1 ++ ops2) db = batch_commit t ops2 (batch_commit t ops1 db).
Proof. unfold batch_commit. by rewrite fmap_app, commit_keyed_app. Qed.

Lemma batch_commit_other_tree t ops t' k db :
  t ≠ t' → tree_get t' k (batch_commit t ops db) = tree_get t' k db.
Proof.
  intros Hne. apply commit_keyed_other. rewrite <-list_fmap_compose.
  rewrite list_elem_of_fmap. intros (op & Heq & _). naive_solver.
Qed.

Lemma crash_states_heed3 ops db : crash_states Heed3 ops db = [db; commit_keyed ops db].
Proof. done. Qed.

Lemma elem_of_crash_states b ops db db' :
  db' ∈ crash_states b ops db →
  ∃ n, n ≤ length ops ∧ db' = commit_keyed (take n ops) db.
Proof.
  destruct b; simpl.
  - rewrite !elem_of_cons, elem_of_nil. intros [->|[->|[]]].
    + exists 0. split; [lia|done].
    + exists (length ops). split; [lia|]. by rewrite take_ge.
  - intros Hin. apply (list_elem_of_fmap_1 (λ n, commit_keyed (take n ops) db) (seq 0 (S (length ops)))) in Hin.
    destruct Hin as (n & -> & Hn). apply elem_of_seq in Hn. exists n. split; [lia|done].
Qed.

(** A write that a later operation of the same list replaces has no effect. *)
Lemma apply_op_same_key t k v v' db :
  apply_op (t, k, v') (apply_op (t, k, v) db) = apply_op (t, k, v') db.
Proof.
  unfold apply_op, tree_insert, tree_remove. destruct v, v'.
  - apply insert_insert_eq.
  - apply delete_insert_eq.
  - apply insert_delete_eq.
  - apply delete_delete_eq.
Qed.

Lemma apply_op_comm t k v t' k' v' db :
  (t, k) ≠ (t', k') →
  apply_op (t', k', v') (apply_op (t, k, v) db) =
  apply_op (t, k, v) (apply_op (t', k', v') db).
Proof.
  unfold apply_op, tree_insert, tree_remove. intros Hne. destruct v, v'.
  - by apply insert_insert_ne.
  - by rewrite delete_insert_ne.
  - by rewrite <-delete_insert_ne.
  - apply delete_delete.
Qed.

Lemma commit_keyed_overwritten ops t k v db :
  (t, k) ∈ ops.*1 → commit_keyed ops (apply_op (t, k, v) db) = commit_keyed ops db.
Proof.
  revert db. induction ops as [|[[t' k'] v'] ops IH]; intros db Hin; [by apply elem_of_nil in Hin|].
  rewrite !commit_keyed_cons. destruct (decide ((t, k) = (t', k'))) as [Heq|Hne].
  - simplify_eq. by rewrite apply_op_same_key.
  - rewrite apply_op_comm by done. apply IH. cbn in Hin.
    apply elem_of_cons in Hin as [?|?]; [congruence|done].
Qed.

Lemma commit_keyed_apply_comm ops t k v db :
  (t, k) ∉ ops.*1 →
  commit_keyed ops (apply_op (t, k, v) db) = apply_op (t, k, v) (commit_keyed ops db).
Proof.
  revert db. induction ops as [|[[t' k'] v'] ops IH]; intros db Hnin; [done|].
  rewrite !commit_keyed_cons. cbn in Hnin. apply not_elem_of_cons in Hnin as [Hne Hnin].
  rewrite apply_op_comm by done. by apply IH.
Qed.

#[global] Opaque tree_get tree_insert tree_remove.

(** Writes to different keys commute. *)
Lemma commit_keyed_apply_comm_list op ops db :
  op.1 ∉ ops.*1 → commit_keyed ops (apply_op op db) = apply_op op (commit_keyed ops db).
Proof.
  revert db. induction ops as [|[[t' k'] v'] ops IH]; intros db Hnin; [done|].
  cbn in Hnin. apply not_elem_of_cons in Hnin as [Hne Hnin].
  destruct op as [[t k] v]. rewrite !commit_keyed_cons, apply_op_comm by done. by apply IH.
Qed.

Lemma commit_keyed_comm ops1 ops2 db :
  (∀ k, k ∈ ops1.*1 → k ∉ ops2.*1) →
  commit_keyed ops2 (commit_keyed ops1 db) = commit_keyed ops1 (commit_keyed ops2 db).
Proof.
  revert db. induction ops1 as [|op ops1 IH]; intros db Hdis; [done|].
  rewrite !commit_keyed_cons, IH by (intros k Hk; apply Hdis; cbn; by right).
  rewrite commit_keyed_apply_comm_list; [done|]. apply Hdis. cbn. by left.
Qed.

Lemma commit_keyed_comm_trees ops1 ops2 db :
  (∀ op1 op2, op1 ∈ ops1 → op2 ∈ ops2 → op1.1.1 ≠ op2.1.1) →
  commit_keyed ops2 (commit_keyed ops1 db) = commit_keyed ops1 (commit_keyed ops2 db).
Proof.
  intros Hdis. apply commit_keyed_comm. intros k Hk1 Hk2.
  apply list_elem_of_fmap in Hk1 as (op1 & -> & H1). apply list_elem_of_fmap in Hk2 as (op2 & Heq & H2).
  apply (Hdis op1 op2); [done..|]. by rewrite Heq.
Qed.

(** The rows of a tree after a batch with one operation per key. *)
Lemma batch_nodup_get (t : string) (ops : list batch_op) (k : bytes) (db : database) :
  NoDup ops.*1 →
  tree_get t k (batch_commit t ops db) =
  match (list_to_map ops : gmap bytes (option bytes)) !! k with
  | Some v => v
  | None => tree_get t k db
  end.
Proof.
  revert db. induction ops as [|[k' v] ops IH]; intros db Hnd; [done|].
  cbn in Hnd. apply NoDup_cons in Hnd as [Hnin Hnd].
  change (batch_commit t ((k', v) :: ops) db) with (batch_commit t ops (apply_op (t, k', v) db)).
  rewrite IH by done. cbn [list_to_map foldr fst snd]. rewrite lookup_insert. case_decide as Heq.
  - subst k'. rewrite (not_elem_of_list_to_map_1 ops k) by done.
    destruct v; cbn [apply_op]; [apply tree_get_insert_eq|apply tree_get_remove_eq].
  - destruct (list_to_map ops !! k); [done|].
    destruct v; cbn [apply_op]; [apply tree_get_insert_ne|apply tree_get_remove_ne]; congruence.
Qed.

Lemma batch_map_get (t : string) (net : gmap bytes (option bytes)) (extra : list batch_op)
    (k : bytes) (db : database) :
  k ∉ extra.*1 →
  tree_get t k (batch_commit t (map_to_list net ++ extra) db) =
  match net !! k with Some v => v | None => tree_get t k db end.
Proof.
  intros Hnin. rewrite batch_commit_app. unfold batch_commit at 1. rewrite commit_keyed_other.
  2: { rewrite <-list_fmap_compose, list_elem_of_fmap. intros ([k' v] & Heq & Hin).
       apply Hnin, list_elem_of_fmap. exists (k', v). cbn in *. naive_solver. }
  rewrite batch_nodup_get by apply NoDup_fst_map_to_list. by rewrite list_to_map_to_list.
Qed.
