(* ===== verification/Interfaces.v ===== *)
(** * Interfaces: what the node uses of code outside this repository

    [blvm-consensus], [blvm-protocol], [bincode] and the hash functions are
    other crates.  Each is a type class of operations, with a class of laws
    that states the documented behaviour the node relies on.  The definitions
    of the model take the operations as arguments; the theorems take the laws.
    The instances at the end show that the laws can hold together. *)

From S2P Require Import Prelude Bytes.
Open Scope Z_scope.

(** ** Block headers ([blvm_protocol::BlockHeader]) *)

Record BlockHeader := mkHeader {
  version : Z;
  prev_block_hash : bytes;
  merkle_root : bytes;
  timestamp : Z;
  bits : Z;
  nonce : Z;
}.

(** ** Row codecs ([bincode::serialize] / [bincode::deserialize]) *)

Class Codec (A : Type) := {
  encode_row : A → bytes;
  decode_row : bytes → option A;
}.

(** A serialised value reads back as itself, for the values of the Rust type. *)
Class CodecLaws (A : Type) {C : Codec A} (ok : A → Prop) : Prop :=
  decode_encode_row : ∀ a, ok a → decode_row (encode_row a) = Some a.

(** ** 256-bit chainwork ([blvm_consensus::pow::U256]) *)

Class U256Ops := {
  U256 : Type;
  u256_zero : U256;
  u256_saturating_add : U256 → U256 → U256;
  u256_gt : U256 → U256 → bool;
  u256_to_be_bytes : U256 → bytes;
  u256_from_be_bytes : bytes → U256;
  u256_from_u128 : Z → U256;
}.

Definition u256_max : Z := 2 ^ 256 - 1.

Class U256Laws (O : U256Ops) := {
  u256_val : U256 → Z;
  u256_val_range : ∀ a, 0 ≤ u256_val a ≤ u256_max;
  u256_val_zero : u256_val u256_zero = 0;
  u256_val_add : ∀ a b,
    u256_val (u256_saturating_add a b) = Z.min (u256_val a + u256_val b) u256_max;
  u256_gt_spec : ∀ a b, u256_gt a b = (u256_val b <? u256_val a);
  u256_length_be : ∀ a, length (u256_to_be_bytes a) = 32%nat;
  u256_from_to_be : ∀ a, u256_from_be_bytes (u256_to_be_bytes a) = a;
  u256_val_from_u128 : ∀ n, 0 ≤ n < 2 ^ 128 → u256_val (u256_from_u128 n) = n;
}.

(** ** Consensus and hashing functions the storage layer calls *)

Class Consensus {O : U256Ops} := {
  (** [blvm_consensus::pow::get_block_proof]: [None] is its error. *)
  get_block_proof : Z → option U256;
  (** [blvm_protocol::crypto::OptimizedSha256::hash256]. *)
  hash256 : bytes → bytes;
  (** [blvm_protocol::constants]. *)
  HALVING_INTERVAL : Z;
  MAX_MONEY : Z;
  (** [blvm_muhash::MUHASH_RUNNING_STATE_BYTES]. *)
  MUHASH_RUNNING_STATE_BYTES : nat;
}.

Class ConsensusLaws {O : U256Ops} (C : Consensus) : Prop := {
  hash256_length : ∀ bs, is_hash (hash256 bs);
  halving_interval_u64 : is_u64 HALVING_INTERVAL;
}.

(** ** Outpoints and coins ([blvm_protocol::{OutPoint, UTXO}]) *)

Record OutPoint := mkOut { op_hash : bytes; op_index : Z }.
#[export] Instance outpoint_eq_dec : EqDecision OutPoint.
Proof. solve_decision. Defined.
#[export] Program Instance outpoint_countable : Countable OutPoint :=
  inj_countable' (λ o, (op_hash o, op_index o)) (λ p, mkOut p.1 p.2) _.
Next Obligation. by intros []. Qed.

Record UTXO := mkUtxo {
  ut_value : Z;
  ut_script : bytes;
  ut_height : Z;
  ut_coinbase : bool;
}.

(** ** Rolling set hash ([blvm_muhash::MuHash3072]) *)

Class MuHashOps := {
  MuHash : Type;
  muhash_new : MuHash;
  muhash_insert : bytes → MuHash → MuHash;
  muhash_remove : bytes → MuHash → MuHash;
  (** [serialize_running_state]. *)
  muhash_state : MuHash → bytes;
  (** [deserialize_running_state]. *)
  muhash_restore : bytes → MuHash;
  (** [serialize_coin_for_muhash]. *)
  coin_preimage : OutPoint → UTXO → bytes;
}.

(** The digest depends on the set only: elements commute and removal cancels
    insertion.  States are compared by [muhash_equiv] (same digest), since the
    numerator and denominator of a state are not normalised. *)
Class MuHashLaws (H : MuHashOps) := {
  muhash_equiv : relation MuHash;
  muhash_equivalence :: Equivalence muhash_equiv;
  muhash_insert_proper :: ∀ x, Proper (muhash_equiv ==> muhash_equiv) (muhash_insert x);
  muhash_remove_proper :: ∀ x, Proper (muhash_equiv ==> muhash_equiv) (muhash_remove x);
  muhash_insert_comm : ∀ x y m,
    muhash_equiv (muhash_insert x (muhash_insert y m)) (muhash_insert y (muhash_insert x m));
  muhash_remove_insert : ∀ x m, muhash_equiv (muhash_remove x (muhash_insert x m)) m;
  muhash_restore_state : ∀ m, muhash_equiv (muhash_restore (muhash_state m)) m;
}.

(** A serialised state has the width the chain state stores. *)
Class MuHashWidth {O : U256Ops} (K : Consensus) (H : MuHashOps) : Prop :=
  muhash_state_width : ∀ m, length (muhash_state m) = MUHASH_RUNNING_STATE_BYTES.

(** ** Instances: the laws hold together *)

Module SumMuHash.
(** A set hash that adds the elements as integers of 768 bytes. *)
#[global] Instance ops : MuHashOps := {|
  MuHash := Z;
  muhash_new := 0;
  muhash_insert x m := m + of_be x;
  muhash_remove x m := m - of_be x;
  muhash_state m := to_be 768 m;
  muhash_restore bs := of_be bs;
  coin_preimage o u := op_hash o ++ to_be 4 (op_index o) ++ to_be 8 (ut_value u) ++ ut_script u;
|}.
Definition same_sum : relation Z := λ a b, a mod 2 ^ 6144 = b mod 2 ^ 6144.
#[global] Instance same_sum_equivalence : Equivalence same_sum.
Proof. split; unfold same_sum; intros ?; [done|by symmetry|by etrans]. Qed.
Lemma same_sum_shift a b x : same_sum a b → same_sum (a + x) (b + x).
Proof. unfold same_sum. intros E. by rewrite (Z.add_mod a), (Z.add_mod b), E by done. Qed.
#[global] Instance laws : MuHashLaws ops.
Proof.
  refine {| muhash_equiv := (same_sum : relation (@MuHash ops)) |}; cbn.
  - intros x a b E. by apply same_sum_shift.
  - intros x a b E. by apply (same_sum_shift a b (- of_be x)).
  - intros x y m. unfold same_sum. f_equal. lia.
  - intros x m. unfold same_sum. f_equal. lia.
  - intros m. unfold same_sum. rewrite of_to_be_mod. by apply Z.mod_mod.
Defined.
End SumMuHash.

Module IntegerU256.
(** Chainwork as a [Z] clamped to 256 bits. *)
Record t := mk { val : Z; val_ok : bool_decide (0 ≤ val ≤ u256_max) = true }.

Definition clamp (z : Z) : Z := Z.max 0 (Z.min z u256_max).
Lemma clamp_ok z : bool_decide (0 ≤ clamp z ≤ u256_max) = true.
Proof. apply bool_decide_eq_true. unfold clamp, u256_max. lia. Qed.
Definition of_Z (z : Z) : t := mk (clamp z) (clamp_ok z).

#[global] Instance ops : U256Ops := {|
  U256 := t;
  u256_zero := of_Z 0;
  u256_saturating_add a b := of_Z (val a + val b);
  u256_gt a b := val b <? val a;
  u256_to_be_bytes a := to_be 32 (val a);
  u256_from_be_bytes bs := of_Z (of_be bs);
  u256_from_u128 n := of_Z n;
|}.

Lemma t_eq (a b : t) : val a = val b → a = b.
Proof.
  destruct a as [x px], b as [y py]; simpl. intros ->. f_equal.
  apply Eqdep_dec.UIP_dec, bool_eq_dec.
Qed.
Lemma val_range (a : t) : 0 ≤ val a ≤ u256_max.
Proof. apply (bool_decide_eq_true (0 ≤ val a ≤ u256_max)), val_ok. Qed.

#[global] Instance laws : U256Laws ops.
Proof.
  refine {| u256_val := (val : @U256 ops → Z) |}; simpl.
  - apply val_range.
  - done.
  - intros a b. pose proof (val_range a). pose proof (val_range b).
    unfold clamp, u256_max in *. lia.
  - done.
  - intros a. by rewrite ?length_to_be.
  - intros a. apply t_eq. simpl. pose proof (val_range a) as Ha.
    rewrite of_to_be by (unfold u256_max in Ha; simpl; lia).
    unfold clamp. unfold u256_max in *. lia.
  - intros n Hn. unfold clamp, u256_max. lia.
Defined.
End IntegerU256.

Module ToyConsensus.
(** Proof equal to the bits, and a "hash" that pads or cuts to 32 bytes. *)
#[global] Instance consensus : @Consensus IntegerU256.ops := {|
  get_block_proof b := if b =? 0 then None else Some (IntegerU256.of_Z b);
  hash256 bs := take 32 (bs ++ replicate 32 Byte.x00);
  HALVING_INTERVAL := 210000;
  MAX_MONEY := 21000000 * 100000000;
  MUHASH_RUNNING_STATE_BYTES := 768;
|}.

#[global] Instance laws : ConsensusLaws consensus.
Proof.
  split.
  - intros bs. change (length (take 32 (bs ++ replicate 32 Byte.x00)) = 32)%nat.
    rewrite length_take, length_app, length_replicate. lia.
  - cbn. unfold is_u64. lia.
Qed.
#[global] Instance width : MuHashWidth consensus SumMuHash.ops.
Proof. intros m. apply length_to_be. Qed.
End ToyConsensus.
