(* ===== verification/BlockIndex.v ===== *)
(** * BlockIndex: the hash-keyed block tree of [src/storage/block_index.rs]

    Rows of the tree ["block_index"]: one [BlockIndexEntry] per block hash, and
    the sequence counter under the reserved key [[0xff; 32]]. *)

From S2P Require Import Prelude Bytes Database Interfaces.
Open Scope Z_scope.

Inductive BlockIndexStatus := Valid | Invalid.

#[export] Instance BlockIndexStatus_eq_dec : EqDecision BlockIndexStatus.
Proof. solve_decision. Defined.

Record BlockIndexEntry := mkEntry {
  bi_height : Z;
  bi_prev_hash : bytes;
  bi_status : BlockIndexStatus;
  bi_sequence_id : Z;
}.

Definition with_status (s : BlockIndexStatus) (e : BlockIndexEntry) : BlockIndexEntry :=
  mkEntry (bi_height e) (bi_prev_hash e) s (bi_sequence_id e).

(** The values of the Rust struct: [u64] fields and a 32-byte parent hash. *)
Definition entry_ok (e : BlockIndexEntry) : Prop :=
  is_u64 (bi_height e) ∧ is_hash (bi_prev_hash e) ∧ is_u64 (bi_sequence_id e).

Definition SEQUENCE_COUNTER_KEY : bytes := replicate 32 Byte.xff.
Definition index_tree : string := "block_index".

(** Index bytes ready to commit with other trees. *)
Record PreparedIndex := mkPrepared { entry_bytes : bytes; counter_bytes : option bytes }.

Section Index.
Context {C : Codec BlockIndexEntry}.
Implicit Types (db : database) (hash : bytes).

Definition index_get (hash : bytes) (db : database) : result (option BlockIndexEntry) :=
  match tree_get index_tree hash db with
  | Some data =>
      match decode_row data with
      | Some e => Ok (Some e)
      | None => Err "bincode"
      end
  | None => Ok None
  end.

(** The stored counter; a missing or short row counts as 0. *)
Definition read_counter (db : database) : Z :=
  match tree_get index_tree SEQUENCE_COUNTER_KEY db with
  | Some bs => if bool_decide (8 ≤ length bs)%nat then of_be (take 8 bs) else 0
  | None => 0
  end.

Definition peek_next_sequence_id (db : database) : Z := sat_add (read_counter db) 1.

Definition index_reset (db : database) : database := tree_clear index_tree db.

Definition serialized_with_status (hash : bytes) (s : BlockIndexStatus)
    (only_if_different : bool) (db : database) : result (option bytes) :=
  let+ r := index_get hash db in
  match r with
  | None => Ok None
  | Some e =>
      if only_if_different && bool_decide (bi_status e = s) then Ok None
      else Ok (Some (encode_row (with_status s e)))
  end.

Definition index_prepare_insert (hash : bytes) (h : Z) (prev : bytes)
    (s : BlockIndexStatus) (db : database) : result PreparedIndex :=
  let+ r := index_get hash db in
  let '(seq_id, counter) :=
    match r with
    | Some existing => (bi_sequence_id existing, None)
    | None =>
        let next := peek_next_sequence_id db in
        (next, Some (to_be 8 next))
    end in
  Ok (mkPrepared (encode_row (mkEntry h prev s seq_id)) counter).

(** The keyed operations of an insert: the row, then the counter if new. *)
Definition prepared_ops (hash : bytes) (p : PreparedIndex) : list keyed_op :=
  (index_tree, hash, Some (entry_bytes p)) ::
  match counter_bytes p with
  | Some c => [(index_tree, SEQUENCE_COUNTER_KEY, Some c)]
  | None => []
  end.

Definition index_insert (hash : bytes) (h : Z) (prev : bytes) (s : BlockIndexStatus)
    : M database unit :=
  fun db =>
    match index_prepare_insert hash h prev s db with
    | Ok p => (commit_keyed (prepared_ops hash p) db, Ok tt)
    | Err e => (db, Err e)
    end.

(** The rows of [insert_ibd_batch]: entry [i] takes sequence id [base + i + 1]. *)
Fixpoint ibd_batch_rows (base i : Z) (entries : list (bytes * Z * bytes))
    : list batch_op :=
  match entries with
  | [] => []
  | (hash, h, prev) :: rest =>
      (hash, Some (encode_row (mkEntry h prev Valid (sat_add base (i + 1)))))
      :: ibd_batch_rows base (i + 1) rest
  end.

Definition insert_ibd_batch (entries : list (bytes * Z * bytes)) : M database unit :=
  fun db =>
    match entries with
    | [] => (db, Ok tt)
    | _ =>
        let base_seq := read_counter db in
        let next_seq := sat_add base_seq (Z.of_nat (length entries)) in
        (batch_commit index_tree
           (ibd_batch_rows base_seq 0 entries ++
            [(SEQUENCE_COUNTER_KEY, Some (to_be 8 next_seq))]) db, Ok tt)
    end.

Definition index_mark_invalid (hash : bytes) : M database unit :=
  fun db =>
    match index_get hash db with
    | Err e => (db, Err e)
    | Ok None => (db, Ok tt)
    | Ok (Some e) =>
        (tree_insert index_tree hash (encode_row (with_status Invalid e)) db, Ok tt)
    end.

Definition index_clear_invalid_status (hash : bytes) : M database unit :=
  fun db =>
    match index_get hash db with
    | Err e => (db, Err e)
    | Ok None => (db, Ok tt)
    | Ok (Some e) =>
        if bool_decide (bi_status e = Invalid)
        then (tree_insert index_tree hash (encode_row (with_status Valid e)) db, Ok tt)
        else (db, Ok tt)
    end.

(** The scan of [chain_tips]: counter row and odd-length keys are skipped,
    the first undecodable row is an error. *)
Fixpoint scan_rows (rows : list (bytes * bytes)) (all : list (bytes * BlockIndexEntry))
    (referenced : gset bytes) : result (list (bytes * BlockIndexEntry) * gset bytes) :=
  match rows with
  | [] => Ok (all, referenced)
  | (key, data) :: rest =>
      if bool_decide (key = SEQUENCE_COUNTER_KEY) || negb (bool_decide (length key = 32)%nat)
      then scan_rows rest all referenced
      else match decode_row data with
           | Some e => scan_rows rest (all ++ [(key, e)]) ({[bi_prev_hash e]} ∪ referenced)
           | None => Err "bincode"
           end
  end.

Definition index_chain_tips (db : database) : result (list (bytes * BlockIndexEntry)) :=
  let+ r := scan_rows (tree_iter index_tree db) [] ∅ in
  let '(all, referenced) := r in
  Ok (filter (λ he, he.1 ∉ referenced) all).

(** [ancestors_of] and the walk of [branch_length].  Both loops stop on a
    repeated hash, a missing row, or past 10_000 blocks; [walk_fuel] exceeds
    that bound, and the last branch is never taken (see the lemmas). *)
Definition walk_cap : Z := 10000.
Definition walk_fuel : nat := Z.to_nat 10002.

Fixpoint ancestors_loop (fuel : nat) (set : gset bytes) (current : bytes)
    (db : database) : result (gset bytes) :=
  match fuel with
  | O => Err "out of fuel"
  | S fuel' =>
      if bool_decide (current ∈ set) then Ok set else
      let set' := {[current]} ∪ set in
      match index_get current db with
      | Err e => Err e
      | Ok None => Ok set'
      | Ok (Some e) =>
          if bool_decide (walk_cap < Z.of_nat (size set'))%Z then Ok set'
          else ancestors_loop fuel' set' (bi_prev_hash e) db
      end
  end.

Definition index_ancestors_of (tip : bytes) (db : database) : result (gset bytes) :=
  ancestors_loop walk_fuel ∅ tip db.

Fixpoint branch_loop (fuel : nat) (active_chain visited : gset bytes) (len : Z)
    (current : bytes) (db : database) : result Z :=
  match fuel with
  | O => Err "out of fuel"
  | S fuel' =>
      if bool_decide (current ∈ active_chain) then Ok len else
      if bool_decide (current ∈ visited) then Ok len else
      match index_get current db with
      | Err e => Err e
      | Ok None => Ok len
      | Ok (Some e) =>
          if bool_decide (walk_cap < len + 1)%Z then Ok (len + 1)%Z
          else branch_loop fuel' active_chain ({[current]} ∪ visited) (len + 1)
                 (bi_prev_hash e) db
      end
  end.

Definition index_branch_length (tip active_tip : bytes) (db : database) : result Z :=
  if bool_decide (tip = active_tip) then Ok 0%Z else
  let+ active_chain := index_ancestors_of active_tip db in
  branch_loop walk_fuel active_chain ∅ 0 tip db.
End Index.

(** ** Invariant and lemmas *)

(** Every hash row decodes to a well-formed entry whose sequence id was handed
    out by the counter, and no two blocks share a sequence id. *)
Definition index_inv {C : Codec BlockIndexEntry} (db : database) : Prop :=
  (∀ h v, tree_get index_tree h db = Some v → h ≠ SEQUENCE_COUNTER_KEY →
     is_hash h ∧ ∃ e, decode_row v = Some e ∧ entry_ok e ∧
                      1 ≤ bi_sequence_id e ≤ read_counter db) ∧
  (∀ h1 h2 e1 e2, h1 ≠ SEQUENCE_COUNTER_KEY → h2 ≠ SEQUENCE_COUNTER_KEY →
     index_get h1 db = Ok (Some e1) → index_get h2 db = Ok (Some e2) →
     bi_sequence_id e1 = bi_sequence_id e2 → h1 = h2).

Section IndexLemmas.
Context {C : Codec BlockIndexEntry} {CL : CodecLaws BlockIndexEntry entry_ok}.
Implicit Types (db : database) (h : bytes) (e : BlockIndexEntry).

Lemma index_get_put h e h' db :
  entry_ok e →
  index_get h' (tree_insert index_tree h (encode_row e) db) =
  if decide (h = h') then Ok (Some e) else index_get h' db.
Proof.
  intros Hok. unfold index_get. rewrite tree_get_insert. repeat case_decide; simplify_eq.
  - by rewrite decode_encode_row.
  - done.
Qed.

Lemma index_get_frame t k v h db :
  (t, k) ≠ (index_tree, h) → index_get h (tree_insert t k v db) = index_get h db.
Proof. intros Hne. unfold index_get. by rewrite tree_get_insert_ne. Qed.

Lemma index_get_same h db db' :
  tree_get index_tree h db' = tree_get index_tree h db → index_get h db' = index_get h db.
Proof. unfold index_get. by intros ->. Qed.

Lemma read_counter_put n db :
  is_u64 n → read_counter (tree_insert index_tree SEQUENCE_COUNTER_KEY (to_be 8 n) db) = n.
Proof.
  intros Hn. unfold read_counter. rewrite tree_get_insert_eq.
  rewrite bool_decide_eq_true_2 by (rewrite length_to_be; lia).
  rewrite take_ge by (rewrite length_to_be; lia). by apply of_to_be_u64.
Qed.

Lemma read_counter_frame t k v db :
  (t, k) ≠ (index_tree, SEQUENCE_COUNTER_KEY) →
  read_counter (tree_insert t k v db) = read_counter db.
Proof. intros Hne. unfold read_counter. by rewrite tree_get_insert_ne. Qed.

Lemma read_counter_u64 db : is_u64 (read_counter db).
Proof.
  unfold read_counter, is_u64. destruct (tree_get _ _ _) as [bs|]; [|lia].
  case_bool_decide as Hlen; [|lia]. pose proof (of_be_range (take 8 bs)) as Hr.
  rewrite length_take in Hr. replace (8 `min` length bs)%nat with 8%nat in Hr by lia. done.
Qed.

(** Under the invariant a read never fails, and finds a well-formed entry. *)
Lemma index_get_total h db :
  index_inv db → h ≠ SEQUENCE_COUNTER_KEY →
  index_get h db = Ok None ∨
  ∃ e, index_get h db = Ok (Some e) ∧ entry_ok e ∧ is_hash h ∧
       1 ≤ bi_sequence_id e ≤ read_counter db.
Proof.
  intros [Hrows _] Hne. unfold index_get. destruct (tree_get index_tree h db) as [v|] eqn:E; [|by left].
  right. destruct (Hrows h v E Hne) as [Hh (e & -> & Hok & Hseq)]. eauto.
Qed.

Lemma index_get_row h e db :
  index_get h db = Ok (Some e) →
  ∃ v, tree_get index_tree h db = Some v ∧ decode_row v = Some e.
Proof.
  unfold index_get. destruct (tree_get _ _ _) as [v|]; [|naive_solver].
  destruct (decode_row v) eqn:E; naive_solver.
Qed.

(** Writing a row: the invariant survives when the new id is the row's own, or
    is fresh and the counter moves to it. *)
Lemma index_inv_update h e db :
  index_inv db → is_hash h → h ≠ SEQUENCE_COUNTER_KEY → entry_ok e →
  (∃ e0, index_get h db = Ok (Some e0) ∧ bi_sequence_id e0 = bi_sequence_id e) →
  index_inv (tree_insert index_tree h (encode_row e) db).
Proof.
  intros Hinv Hh Hne Hok (e0 & Hget & Hseq).
  assert (read_counter (tree_insert index_tree h (encode_row e) db) = read_counter db) as Hc
    by (apply read_counter_frame; congruence).
  destruct (index_get_total h db Hinv Hne) as [?|(e1 & He1 & _ & _ & Hr)]; [congruence|].
  assert (e1 = e0) as -> by congruence. destruct Hinv as [Hrows Huniq]. split.
  - intros h' v Hv Hne'. rewrite tree_get_insert in Hv. case_decide; simplify_eq.
    + split; [done|]. exists e. rewrite decode_encode_row by done. rewrite Hc.
      split_and!; [done|done|lia|lia].
    + rewrite Hc. by apply Hrows.
  - intros h1 h2 e1' e2'. rewrite !index_get_put by done. intros ??.
    repeat case_decide; simplify_eq; intros; simplify_eq; try done.
    + eapply (Huniq h1 h2); eauto; congruence.
    + eapply (Huniq h1 h2); eauto; congruence.
    + eapply (Huniq h1 h2); eauto.
Qed.

Lemma index_inv_fresh h e db :
  index_inv db → is_hash h → h ≠ SEQUENCE_COUNTER_KEY → entry_ok e →
  read_counter db < u64_max → bi_sequence_id e = read_counter db + 1 →
  index_get h db = Ok None →
  index_inv (tree_insert index_tree SEQUENCE_COUNTER_KEY (to_be 8 (bi_sequence_id e))
               (tree_insert index_tree h (encode_row e) db)).
Proof.
  intros Hinv Hh Hne Hok Hlt Hseq Hnone.
  set (db1 := tree_insert index_tree h (encode_row e) db).
  set (db2 := tree_insert index_tree SEQUENCE_COUNTER_KEY _ db1).
  assert (read_counter db2 = read_counter db + 1) as Hc.
  { unfold db2. rewrite read_counter_put; [done|]. apply Hok. }
  assert (∀ h', h' ≠ SEQUENCE_COUNTER_KEY →
            index_get h' db2 = if decide (h = h') then Ok (Some e) else index_get h' db) as Hget.
  { intros h' Hne'. unfold db2, db1. rewrite index_get_frame by congruence.
    by apply index_get_put. }
  pose proof (read_counter_u64 db) as Hu.
  split.
  - intros h' v Hv Hne'. unfold db2, db1 in Hv.
    rewrite tree_get_insert_ne in Hv by congruence.
    rewrite tree_get_insert in Hv. rewrite Hc. case_decide; simplify_eq.
    + split; [done|]. exists e. rewrite decode_encode_row by done. unfold is_u64 in Hu.
      split_and!; [done|done|lia|lia].
    + destruct (proj1 Hinv h' v Hv Hne') as [? (e' & ? & ? & ?)].
      split; [done|]. exists e'. split_and!; [done|done|lia|lia].
  - assert (∀ h', h' ≠ SEQUENCE_COUNTER_KEY → h ≠ h' → ∀ e', index_get h' db = Ok (Some e') →
              bi_sequence_id e' ≤ read_counter db) as Hbound.
    { intros h' Hne' _ e' He'.
      destruct (index_get_total h' db Hinv Hne') as [?|(e2 & ? & ? & ? & ?)]; [congruence|].
      assert (e2 = e') as -> by congruence. lia. }
    intros h1 h2 e1 e2 H1 H2. rewrite !Hget by done.
    repeat case_decide; simplify_eq; intros; simplify_eq; try done.
    + pose proof (Hbound h2 ltac:(done) ltac:(done) _ ltac:(eassumption)). lia.
    + pose proof (Hbound h1 ltac:(done) ltac:(done) _ ltac:(eassumption)). lia.
    + destruct Hinv as [_ Huniq]. eapply (Huniq h1 h2); eauto.
Qed.

(** What an insert writes: the row with the hash's own or a fresh id. *)
Lemma index_insert_run h hgt prev s db :
  index_inv db → h ≠ SEQUENCE_COUNTER_KEY →
  index_insert h hgt prev s db =
  (match index_get h db with
   | Ok (Some e0) =>
       tree_insert index_tree h (encode_row (mkEntry hgt prev s (bi_sequence_id e0))) db
   | _ =>
       tree_insert index_tree SEQUENCE_COUNTER_KEY (to_be 8 (peek_next_sequence_id db))
         (tree_insert index_tree h
            (encode_row (mkEntry hgt prev s (peek_next_sequence_id db))) db)
   end, Ok tt).
Proof.
  intros Hinv Hne. unfold index_insert, index_prepare_insert.
  destruct (index_get_total h db Hinv Hne) as [->|(e0 & -> & _)]; done.
Qed.

(** Rows of a batch with the counter not saturated. *)
Lemma ibd_batch_rows_shift base i k entries :
  0 ≤ base → 0 ≤ i → 0 ≤ k → base + k + i + Z.of_nat (length entries) ≤ u64_max →
  ibd_batch_rows (base + k) i entries = ibd_batch_rows base (i + k) entries.
Proof.
  revert i. induction entries as [|[[h hgt] prev] entries IH]; intros i Hb Hi Hk Hmax; [done|].
  cbn [ibd_batch_rows length] in *. rewrite IH by lia.
  assert (sat_add (base + k) (i + 1) = sat_add base (i + k + 1)) as -> by (unfold sat_add; lia).
  by replace (i + 1 + k) with (i + k + 1) by lia.
Qed.

Lemma ibd_batch_rows_keys base i entries :
  (ibd_batch_rows base i entries).*1 = (λ x, x.1.1) <$> entries.
Proof.
  revert i. induction entries as [|[[h hgt] prev] entries IH]; intros i; [done|].
  cbn [ibd_batch_rows fmap list_fmap]. by rewrite IH.
Qed.
End IndexLemmas.

(** ** Theorems *)

Section IndexTheorems.
Context {C : Codec BlockIndexEntry} {CL : CodecLaws BlockIndexEntry entry_ok}.

(** Sequence ids are assigned once per hash: an insert never fails, keeps the
    invariant, reads back the new row with the id the hash already had or the
    next counter value, and changes no other block's row. *)
Lemma index_insert_spec (h prev : bytes) (hgt : Z) (s : BlockIndexStatus) (db : database) :
  index_inv db → is_hash h → h ≠ SEQUENCE_COUNTER_KEY →
  is_u64 hgt → is_hash prev → read_counter db < u64_max →
  ∃ db', index_insert h hgt prev s db = (db', Ok tt) ∧ index_inv db' ∧
    index_get h db' = Ok (Some (mkEntry hgt prev s
      (match index_get h db with
       | Ok (Some e0) => bi_sequence_id e0
       | _ => read_counter db + 1
       end))) ∧
    (∀ h', h' ≠ h → h' ≠ SEQUENCE_COUNTER_KEY → index_get h' db' = index_get h' db) ∧
    read_counter db ≤ read_counter db' ≤ read_counter db + 1.
Proof.
  intros Hinv Hh Hne Hhgt Hprev Hlt. rewrite index_insert_run by done.
  pose proof (read_counter_u64 db) as Hu. unfold is_u64, u64_max in Hu, Hlt.
  assert (peek_next_sequence_id db = read_counter db + 1) as Hpeek
    by (unfold peek_next_sequence_id, sat_add, u64_max; lia).
  destruct (index_get_total h db Hinv Hne) as [Hnone|(e0 & Hget & He0 & _ & Hr)].
  - rewrite Hnone, Hpeek. eexists; split; [done|].
    set (e := mkEntry hgt prev s (read_counter db + 1)).
    assert (entry_ok e) as Hok by (unfold e, entry_ok, is_u64; cbn; naive_solver lia).
    split_and!.
    + by apply (index_inv_fresh h e).
    + rewrite index_get_frame by congruence. rewrite index_get_put by done.
      by rewrite decide_True.
    + intros h' Hne1 Hne2. rewrite index_get_frame by congruence.
      rewrite index_get_put by done. by rewrite decide_False.
    + rewrite read_counter_put; [lia|unfold is_u64; lia].
    + rewrite read_counter_put; [lia|unfold is_u64; lia].
  - rewrite Hget. eexists; split; [done|].
    set (e := mkEntry hgt prev s (bi_sequence_id e0)).
    assert (entry_ok e) as Hok by (destruct He0 as (? & ? & ?); done).
    split_and!.
    + apply (index_inv_update h e); eauto.
    + rewrite index_get_put by done. by rewrite decide_True.
    + intros h' Hne1 Hne2. rewrite index_get_put by done. by rewrite decide_False.
    + rewrite read_counter_frame by congruence. lia.
    + rewrite read_counter_frame by congruence. lia.
Qed.

Lemma index_insert_counter (h prev : bytes) (hgt : Z) (s : BlockIndexStatus) (db : database) :
  index_inv db → h ≠ SEQUENCE_COUNTER_KEY → read_counter db < u64_max →
  read_counter (index_insert h hgt prev s db).1
  = match index_get h db with Ok (Some _) => read_counter db | _ => read_counter db + 1 end.
Proof.
  intros Hinv Hne Hlt. pose proof (read_counter_u64 db) as Hu. unfold is_u64 in Hu.
  assert (peek_next_sequence_id db = read_counter db + 1) as Hpeek by (unfold peek_next_sequence_id, sat_add; lia).
  rewrite index_insert_run by done. destruct (index_get_total h db Hinv Hne) as [->|(e0 & -> & _)]; cbn [fst].
  - rewrite Hpeek. apply read_counter_put. unfold is_u64, u64_max in *. lia.
  - apply read_counter_frame. congruence.
Qed.

(** The reference for the batch: one [insert] per block, in order. *)
Fixpoint insert_each (entries : list (bytes * Z * bytes)) : M database unit :=
  match entries with
  | [] => ret tt
  | (h, hgt, prev) :: rest => index_insert h hgt prev Valid ;; insert_each rest
  end.

(** A block that is new to the index, with field values in range. *)
Definition fresh_entry (db : database) (x : bytes * Z * bytes) : Prop :=
  is_hash x.1.1 ∧ x.1.1 ≠ SEQUENCE_COUNTER_KEY ∧ is_u64 x.1.2 ∧ is_hash x.2 ∧
  index_get x.1.1 db = Ok None.

Lemma insert_ibd_batch_each entries db :
  index_inv db → Forall (fresh_entry db) entries → NoDup ((λ x, x.1.1) <$> entries) →
  read_counter db + Z.of_nat (length entries) ≤ u64_max →
  insert_ibd_batch entries db = insert_each entries db ∧
  index_inv (insert_ibd_batch entries db).1.
Proof.
  revert db. induction entries as [|[[h hgt] prev] rest IH]; intros db Hinv Hfresh Hnd Hmax; [done|].
  apply Forall_cons in Hfresh as [(Hh & Hne & Hhgt & Hprev & Hnone) Hfresh].
  cbn [fst snd] in *. cbn [fmap list_fmap fst snd] in Hnd. cbn [length] in Hmax.
  apply NoDup_cons in Hnd as [Hnin Hnd].
  pose proof (read_counter_u64 db) as Hu. unfold is_u64 in Hu.
  assert (peek_next_sequence_id db = read_counter db + 1) as Hpeek
    by (unfold peek_next_sequence_id, sat_add, u64_max in *; lia).
  set (e := mkEntry hgt prev Valid (read_counter db + 1)).
  set (db0 := tree_insert index_tree h (encode_row e) db).
  set (db1 := tree_insert index_tree SEQUENCE_COUNTER_KEY (to_be 8 (read_counter db + 1)) db0).
  assert (entry_ok e) as Hok by (unfold e, entry_ok, is_u64, u64_max in *; cbn; naive_solver lia).
  assert (index_inv db1) as Hinv1 by (apply (index_inv_fresh h e); done || lia).
  assert (read_counter db1 = read_counter db + 1) as Hc1
    by (apply read_counter_put; unfold is_u64, u64_max in *; lia).
  assert (index_insert h hgt prev Valid db = (db1, Ok tt)) as Hrun
    by (rewrite index_insert_run by done; by rewrite Hnone, Hpeek).
  assert (Forall (fresh_entry db1) rest) as Hfresh1.
  { apply Forall_forall. intros [[h' hgt'] prev'] Hin.
    pose proof (proj1 (Forall_forall _ _) Hfresh _ Hin) as (? & ? & ? & ? & Hn).
    cbn [fst snd] in *.
    assert (h ≠ h') by (intros ->; apply Hnin, list_elem_of_fmap; by exists (h', hgt', prev')).
    split_and!; try done. cbn. unfold db1, db0. rewrite index_get_frame by congruence.
    rewrite index_get_put by done. by rewrite decide_False. }
  destruct (IH db1 Hinv1 Hfresh1 Hnd) as [IHeq IHinv]; [lia|].
  assert (insert_ibd_batch ((h, hgt, prev) :: rest) db = insert_ibd_batch rest db1) as Heq.
  { unfold insert_ibd_batch at 1. cbn [ibd_batch_rows].
    replace (sat_add (read_counter db) (0 + 1)) with (read_counter db + 1)
      by (unfold sat_add, u64_max in *; lia).
    change (mkEntry hgt prev Valid (read_counter db + 1)) with e.
    unfold batch_commit. rewrite fmap_app. cbn [fmap list_fmap app].
    rewrite commit_keyed_cons. change (apply_op _ db) with db0.
    destruct rest as [|x rest'].
    - cbn. unfold db1. do 4 f_equal. unfold sat_add, u64_max in *; lia.
    - unfold insert_ibd_batch. rewrite Hc1. unfold batch_commit. rewrite fmap_app.
      change db1 with (apply_op (index_tree, SEQUENCE_COUNTER_KEY,
                         Some (to_be 8 (read_counter db + 1))) db0).
      rewrite commit_keyed_overwritten.
      2: { rewrite fmap_app. apply elem_of_app. right. cbn. by left. }
      rewrite <-(ibd_batch_rows_shift (read_counter db) 0 1) by (cbn [length] in *; lia).
      assert (sat_add (read_counter db) (Z.of_nat (length ((h, hgt, prev) :: x :: rest'))) =
              sat_add (read_counter db + 1) (Z.of_nat (length (x :: rest')))) as ->; [|done].
      cbn [length] in *. unfold sat_add, u64_max in *. lia. }
  rewrite Heq. split; [|done]. cbn [insert_each]. rewrite (bind_ok _ _ _ _ _ Hrun). done.
Qed.

Lemma scan_rows_spec rows all referenced :
  (∀ k v, (k, v) ∈ rows → k ≠ SEQUENCE_COUNTER_KEY → length k = 32%nat →
     is_Some (decode_row v)) →
  ∃ all' ref', scan_rows rows all referenced = Ok (all', ref') ∧
    (∀ k e, (k, e) ∈ all' ↔ (k, e) ∈ all ∨
       ∃ v, (k, v) ∈ rows ∧ k ≠ SEQUENCE_COUNTER_KEY ∧ length k = 32%nat ∧
            decode_row v = Some e) ∧
    (∀ p, p ∈ ref' ↔ p ∈ referenced ∨
       ∃ k v e, (k, v) ∈ rows ∧ k ≠ SEQUENCE_COUNTER_KEY ∧ length k = 32%nat ∧
            decode_row v = Some e ∧ bi_prev_hash e = p).
Proof.
  revert all referenced. induction rows as [|[k v] rows IH]; intros all ref Hdec; cbn [scan_rows].
  { exists all, ref. split_and!; [done| |]; intros; set_solver. }
  assert (∀ k' v', (k', v') ∈ rows → k' ≠ SEQUENCE_COUNTER_KEY → length k' = 32%nat →
            is_Some (decode_row v')) as Hdec' by (intros; eapply Hdec; set_solver).
  case_bool_decide as Hk; cbn [orb].
  { destruct (IH all ref Hdec') as (a & r & -> & Ha & Hr). exists a, r. split_and!; [done| |].
    - intros k' e. rewrite Ha. set_solver.
    - intros p. rewrite Hr. set_solver. }
  case_bool_decide as Hl; cbn [negb].
  2: { destruct (IH all ref Hdec') as (a & r & -> & Ha & Hr). exists a, r. split_and!; [done| |].
    - intros k' e. rewrite Ha. set_solver.
    - intros p. rewrite Hr. set_solver. }
  destruct (Hdec k v) as [e He]; [set_solver|done|done|]. rewrite He.
  destruct (IH (all ++ [(k, e)]) ({[bi_prev_hash e]} ∪ ref) Hdec') as (a & r & -> & Ha & Hr).
  exists a, r. split_and!; [done| |].
  - intros k' e'. rewrite Ha. set_solver.
  - intros p. rewrite Hr. set_solver.
Qed.

(** The tips are exactly the indexed blocks that no indexed block names as
    its parent; the counter row is never one of them. *)
Theorem index_chain_tips_correct (db : database) :
  index_inv db →
  ∃ tips, index_chain_tips db = Ok tips ∧
    ∀ h e, (h, e) ∈ tips ↔
      h ≠ SEQUENCE_COUNTER_KEY ∧ index_get h db = Ok (Some e) ∧
      ¬ ∃ h' e', h' ≠ SEQUENCE_COUNTER_KEY ∧ index_get h' db = Ok (Some e') ∧
                 bi_prev_hash e' = h.
Proof.
  intros [Hrows _]. unfold index_chain_tips.
  destruct (scan_rows_spec (tree_iter index_tree db) [] ∅) as (all & ref & -> & Hall & Href).
  { intros k v Hin%elem_of_tree_iter Hk _. destruct (Hrows k v Hin Hk) as [_ (e & -> & _)]. done. }
  assert (∀ k e, (∃ v, (k, v) ∈ tree_iter index_tree db ∧ k ≠ SEQUENCE_COUNTER_KEY ∧
             length k = 32%nat ∧ decode_row v = Some e) ↔
             k ≠ SEQUENCE_COUNTER_KEY ∧ index_get k db = Ok (Some e)) as Hrow.
  { intros k e. split.
    - intros (v & Hv%elem_of_tree_iter & Hk & _ & He). split; [done|].
      unfold index_get. by rewrite Hv, He.
    - intros [Hk (v & Hv & He)%index_get_row]. exists v.
      rewrite elem_of_tree_iter. destruct (Hrows k v Hv Hk). done. }
  eexists; split; [done|]. intros h e. rewrite list_elem_of_filter. cbn.
  rewrite Hall, Href. specialize (Hrow h e) as Hrow1. rewrite Hrow1.
  split.
  - intros [Hnref [Hin|[Hk Hget]]]; [by apply elem_of_nil in Hin|].
    split_and!; [done|done|]. intros (h' & e' & Hk' & Hget' & Hp). apply Hnref. right.
    destruct (proj2 (Hrow h' e') (conj Hk' Hget')) as (v & ? & ? & ? & ?). by exists h', v, e'.
  - intros (Hk & Hget & Hno). split; [|by right]. intros [Hin|(k' & v' & e' & Hk')]; [set_solver|].
    apply Hno. exists k', e'. destruct Hk' as (? & ? & ? & ? & <-).
    split_and!; [done| |done]. apply Hrow. by exists v'.
Qed.

(** *** Branch length *)

(** The [n]-th ancestor of [h] along the stored parent links. *)
Fixpoint nth_ancestor (db : database) (n : nat) (h : bytes) : option bytes :=
  match n with
  | O => Some h
  | S n' => match index_get h db with
            | Ok (Some e) => nth_ancestor db n' (bi_prev_hash e)
            | _ => None
            end
  end.

(** Heights follow the parent links. *)
Definition index_linked (db : database) : Prop :=
  ∀ h e, h ≠ SEQUENCE_COUNTER_KEY → index_get h db = Ok (Some e) →
    bi_prev_hash e ≠ SEQUENCE_COUNTER_KEY ∧
    ∀ e', index_get (bi_prev_hash e) db = Ok (Some e') → bi_height e = bi_height e' + 1.

(** An executable check of the links, row by row. *)
Definition linkedb (db : database) : bool :=
  forallb (λ kv,
    bool_decide (kv.1 = SEQUENCE_COUNTER_KEY) ||
    match decode_row (A := BlockIndexEntry) kv.2 with
    | Some e =>
        bool_decide (bi_prev_hash e ≠ SEQUENCE_COUNTER_KEY) &&
        match index_get (bi_prev_hash e) db with
        | Ok (Some e') => bool_decide (bi_height e = bi_height e' + 1)
        | _ => true
        end
    | None => true
    end) (tree_iter index_tree db).

Lemma linkedb_sound db : linkedb db = true → index_linked db.
Proof.
  unfold linkedb. intros Hall%Is_true_true. rewrite forallb_True in Hall.
  intros h e Hne (v & Hv & He)%index_get_row.
  apply elem_of_tree_iter in Hv. rewrite Forall_forall in Hall. specialize (Hall _ Hv).
  cbn [fst snd] in Hall. rewrite He, bool_decide_eq_false_2 in Hall by done. cbn [orb] in Hall.
  apply andb_prop_elim in Hall as [Hk Hl]. apply bool_decide_unpack in Hk. split; [done|].
  intros e' He'. rewrite He' in Hl. by apply bool_decide_unpack in Hl.
Qed.

Lemma nth_ancestor_add db n m h h' :
  nth_ancestor db n h = Some h' → nth_ancestor db (n + m) h = nth_ancestor db m h'.
Proof.
  revert h. induction n as [|n IH]; intros h; cbn [nth_ancestor Nat.add]; [congruence|].
  destruct (index_get h db) as [[e|]|]; try done. apply IH.
Qed.

Lemma nth_ancestor_S db n h h' :
  nth_ancestor db n h = Some h' →
  nth_ancestor db (S n) h =
    match index_get h' db with Ok (Some e) => Some (bi_prev_hash e) | _ => None end.
Proof.
  intros Hn. rewrite <-Nat.add_1_r. rewrite (nth_ancestor_add _ _ _ _ _ Hn). done.
Qed.

(** Every node before the last one of a path has a row. *)
Lemma nth_ancestor_lt db i j h h' :
  nth_ancestor db j h = Some h' → (i < j)%nat →
  ∃ a e, nth_ancestor db i h = Some a ∧ index_get a db = Ok (Some e).
Proof.
  revert i h. induction j as [|j IH]; intros i h Hj Hlt; [lia|]. cbn in Hj.
  destruct (index_get h db) as [[e|]|] eqn:E; try done.
  destruct i as [|i]; [by exists h, e|].
  destruct (IH i (bi_prev_hash e) Hj) as (a & ea & ? & ?); [lia|].
  exists a, ea. cbn. by rewrite E.
Qed.

Lemma nth_ancestor_ne_key db n h h' :
  index_linked db → h ≠ SEQUENCE_COUNTER_KEY →
  nth_ancestor db n h = Some h' → h' ≠ SEQUENCE_COUNTER_KEY.
Proof.
  intros Hl. revert h. induction n as [|n IH]; intros h Hh Hn; cbn in Hn; [congruence|].
  destruct (index_get h db) as [[e|]|] eqn:E; try done.
  eapply IH; [|done]. by destruct (Hl h e).
Qed.

Lemma nth_ancestor_height db k h e h' e' :
  index_linked db → h ≠ SEQUENCE_COUNTER_KEY →
  index_get h db = Ok (Some e) → nth_ancestor db k h = Some h' →
  index_get h' db = Ok (Some e') → bi_height e = bi_height e' + Z.of_nat k.
Proof.
  intros Hl. revert h e. induction k as [|k IH]; intros h e Hh He Hk He'; cbn in Hk.
  { simplify_eq. assert (e = e') as -> by congruence. lia. }
  rewrite He in Hk. destruct (Hl h e Hh He) as [Hp Hlink].
  destruct (index_get (bi_prev_hash e) db) as [[ep|]|] eqn:E.
  - rewrite (Hlink ep eq_refl). rewrite (IH _ ep Hp E Hk He'). lia.
  - destruct k as [|k]; cbn in Hk; [congruence|]. by rewrite E in Hk.
  - destruct k as [|k]; cbn in Hk; [congruence|]. by rewrite E in Hk.
Qed.

(** A path never meets itself. *)
Lemma nth_ancestor_inj db i j h a :
  index_linked db → h ≠ SEQUENCE_COUNTER_KEY →
  nth_ancestor db i h = Some a → nth_ancestor db j h = Some a → (i < j)%nat → False.
Proof.
  intros Hl Hh Hi Hj Hlt.
  destruct (nth_ancestor_lt db i j h a Hj Hlt) as (b & e & Hb & He). simplify_eq.
  replace j with (i + (j - i))%nat in Hj by lia. rewrite (nth_ancestor_add _ _ _ _ _ Hi) in Hj.
  pose proof (nth_ancestor_height db (j - i) a e a e Hl) as Hh'.
  ospecialize (Hh' _ He Hj He); [by eapply nth_ancestor_ne_key|]. lia.
Qed.

Lemma ancestors_loop_spec fuel n tip cur set db :
  index_inv db → index_linked db → tip ≠ SEQUENCE_COUNTER_KEY →
  nth_ancestor db n tip = Some cur →
  (∀ h, h ∈ set ↔ ∃ i, (i < n)%nat ∧ nth_ancestor db i tip = Some h) →
  size set = n → Z.of_nat n ≤ walk_cap → walk_cap < Z.of_nat (fuel + n) →
  ∃ anc, ancestors_loop fuel set cur db = Ok anc ∧
    ∀ h, h ∈ anc ↔ ∃ i, Z.of_nat i ≤ walk_cap ∧ nth_ancestor db i tip = Some h.
Proof.
  intros Hinv Hl Htip. revert n cur set.
  induction fuel as [|fuel IH]; intros n cur set Hcur Hset Hsize Hn Hfuel; [lia|].
  cbn [ancestors_loop].
  assert (cur ∉ set) as Hfresh.
  { intros (i & Hi & Hc)%Hset. by eapply (nth_ancestor_inj db i n). }
  rewrite bool_decide_eq_false_2 by done.
  assert (∀ h, h ∈ {[cur]} ∪ set ↔ ∃ i, (i < S n)%nat ∧ nth_ancestor db i tip = Some h) as Hset'.
  { intros h. rewrite elem_of_union, elem_of_singleton, Hset. split.
    - intros [->|(i & ? & ?)]; [exists n; split; [lia|done]|exists i; split; [lia|done]].
    - intros (i & Hi & Hh). destruct (decide (i = n)) as [->|]; [left; congruence|].
      right. exists i. split; [lia|done]. }
  assert (size ({[cur]} ∪ set) = S n) as Hsize'
    by (rewrite size_union, size_singleton by set_solver; lia).
  destruct (index_get_total cur db Hinv) as [Hnone|(e & He & _)];
    [by eapply nth_ancestor_ne_key| |].
  - rewrite Hnone. eexists; split; [done|]. intros h. rewrite Hset'. split.
    + intros (i & Hi & ?). exists i. split; [lia|done].
    + intros (i & Hi & Hh). exists i. split; [|done].
      destruct (decide (i < S n)%nat) as [|Hge]; [done|].
      destruct (nth_ancestor_lt db n i tip h Hh) as (a & ea & ? & ?); [lia|]. congruence.
  - rewrite He. case_bool_decide as Hcap.
    + eexists; split; [done|]. intros h. rewrite Hset'.
      rewrite Hsize' in Hcap. f_equiv. intros i. split; intros [? ?]; (split; [lia|done]).
    + apply (IH (S n)); try done; try lia.
      rewrite (nth_ancestor_S _ _ _ _ Hcur). by rewrite He.
Qed.

Lemma index_ancestors_of_spec tip db :
  index_inv db → index_linked db → tip ≠ SEQUENCE_COUNTER_KEY →
  ∃ anc, index_ancestors_of tip db = Ok anc ∧
    ∀ h, h ∈ anc ↔ ∃ i, Z.of_nat i ≤ walk_cap ∧ nth_ancestor db i tip = Some h.
Proof.
  intros. apply (ancestors_loop_spec walk_fuel 0); try done; unfold walk_cap, walk_fuel; try lia.
  intros h. split; [set_solver|]. intros (i & ? & ?). lia.
Qed.

Lemma branch_loop_spec fuel active n k tip cur f visited db :
  index_inv db → index_linked db → tip ≠ SEQUENCE_COUNTER_KEY →
  nth_ancestor db n tip = Some cur → nth_ancestor db k tip = Some f → f ∈ active →
  (∀ i h, (i < k)%nat → nth_ancestor db i tip = Some h → h ∉ active) →
  (∀ h, h ∈ visited ↔ ∃ i, (i < n)%nat ∧ nth_ancestor db i tip = Some h) →
  (n ≤ k)%nat → Z.of_nat k ≤ walk_cap → (k < fuel + n)%nat →
  branch_loop fuel active visited (Z.of_nat n) cur db = Ok (Z.of_nat k).
Proof.
  intros Hinv Hl Htip. revert n cur visited.
  induction fuel as [|fuel IH]; intros n cur visited Hcur Hf Hfin Hout Hvis Hnk Hcap Hfuel; [lia|].
  cbn [branch_loop]. destruct (decide (n = k)) as [->|Hne].
  { rewrite bool_decide_eq_true_2 by congruence. done. }
  rewrite bool_decide_eq_false_2 by (eapply (Hout n); [lia|done]).
  rewrite bool_decide_eq_false_2.
  2: { intros (i & Hi & Hc)%Hvis. by eapply (nth_ancestor_inj db i n). }
  destruct (nth_ancestor_lt db n k tip f Hf) as (a & e & Ha & He); [lia|].
  assert (a = cur) as -> by congruence. rewrite He.
  rewrite bool_decide_eq_false_2 by lia.
  replace (Z.of_nat n + 1) with (Z.of_nat (S n)) by lia.
  apply IH; try done; try lia.
  - rewrite (nth_ancestor_S _ _ _ _ Hcur). by rewrite He.
  - intros h. rewrite elem_of_union, elem_of_singleton, Hvis. split.
    + intros [->|(i & ? & ?)]; [exists n; split; [lia|done]|exists i; split; [lia|done]].
    + intros (i & Hi & Hh). destruct (decide (i = n)) as [->|]; [left; congruence|].
      right. exists i. split; [lia|done].
Qed.

(** *** The index over a run of the node *)

Lemma index_inv_empty : index_inv ∅.
Proof. split; intros *; unfold index_get; rewrite tree_get_empty; naive_solver. Qed.

Lemma index_inv_rewrite_status h s e db :
  index_inv db → h ≠ SEQUENCE_COUNTER_KEY → index_get h db = Ok (Some e) →
  index_inv (tree_insert index_tree h (encode_row (with_status s e)) db).
Proof.
  intros Hinv Hne He.
  destruct (index_get_total h db Hinv Hne) as [?|(e1 & He1 & Hok & Hh & _)]; [congruence|].
  assert (e1 = e) as -> by congruence. apply index_inv_update; eauto.
Qed.

(** The operations of the index that write, with the arguments they are called
    with: 32-byte hashes, [u64] heights, a counter with room, and for the IBD
    batch blocks that are new. *)
Inductive index_step (db : database) : database → Prop :=
| step_insert h hgt prev s :
    is_hash h → h ≠ SEQUENCE_COUNTER_KEY → is_u64 hgt → is_hash prev →
    read_counter db < u64_max →
    index_step db (index_insert h hgt prev s db).1
| step_batch entries :
    Forall (fresh_entry db) entries → NoDup ((λ x, x.1.1) <$> entries) →
    read_counter db + Z.of_nat (length entries) ≤ u64_max →
    index_step db (insert_ibd_batch entries db).1
| step_mark_invalid h :
    h ≠ SEQUENCE_COUNTER_KEY → index_step db (index_mark_invalid h db).1
| step_clear_invalid h :
    h ≠ SEQUENCE_COUNTER_KEY → index_step db (index_clear_invalid_status h db).1
| step_reset : index_step db (index_reset db).

Lemma index_step_inv db db' : index_inv db → index_step db db' → index_inv db'.
Proof.
  intros Hinv. destruct 1 as [h hgt prev s ?????|entries ???|h Hh|h Hh|].
  - destruct (index_insert_spec h prev hgt s db) as (db' & -> & ? & _); done.
  - by apply insert_ibd_batch_each.
  - unfold index_mark_invalid.
    destruct (index_get_total h db Hinv Hh) as [->|(e & He & _)]; [done|]. rewrite He.
    by apply index_inv_rewrite_status.
  - unfold index_clear_invalid_status.
    destruct (index_get_total h db Hinv Hh) as [->|(e & He & _)]; [done|]. rewrite He.
    case_bool_decide; [by apply index_inv_rewrite_status|done].
  - unfold index_reset. split; intros *; unfold index_get; rewrite !tree_get_clear;
      rewrite ?decide_True by done; naive_solver.
Qed.

(** [C10] Sequence ids over a whole run: in every database reachable from an
    empty one by the index's writing operations, each block row decodes, its
    sequence id lies between 1 and the stored counter, and two different block
    hashes never share a sequence id. *)
Theorem index_sequence_ids_unique (db : database) :
  rtc index_step ∅ db → index_inv db.
Proof.
  apply rtc_invariant; [apply index_step_inv|apply index_inv_empty].
Qed.

(** *** Batches against single inserts *)

(** Field values of a batch entry in range. *)
Definition batch_data (x : bytes * Z * bytes) : Prop :=
  is_hash x.1.1 ∧ x.1.1 ≠ SEQUENCE_COUNTER_KEY ∧ is_u64 x.1.2 ∧ is_hash x.2.

(** Single inserts keep the sequence id of a block that has one. *)
Lemma insert_each_keeps_id entries h e db :
  index_inv db → Forall batch_data entries → h ≠ SEQUENCE_COUNTER_KEY →
  read_counter db + Z.of_nat (length entries) ≤ u64_max → index_get h db = Ok (Some e) →
  ∃ e', index_get h (insert_each entries db).1 = Ok (Some e') ∧ bi_sequence_id e' = bi_sequence_id e.
Proof.
  revert db e. induction entries as [|[[x hgt] prev] rest IH]; intros db e Hinv Hd Hne Hroom Hget; [by exists e|].
  apply Forall_cons in Hd as [(Hx & Hxk & Hhgt & Hprev) Hd]. cbn [fst snd length] in *.
  destruct (index_insert_spec x prev hgt Valid db) as (db1 & Hrun & Hinv1 & Hgx & Hother & Hc); try done; [lia|].
  cbn [insert_each]. rewrite (bind_ok _ _ _ _ _ Hrun).
  destruct (decide (h = x)) as [->|Hhx].
  - rewrite Hget in Hgx. destruct (IH db1 _ Hinv1 Hd Hne ltac:(lia) Hgx) as (e' & He' & Hid). by exists e'.
  - rewrite <-(Hother h) in Hget by done. apply (IH db1); (done || lia).
Qed.
Lemma ibd_batch_rows_lookup base j i entries x :
  entries !! i = Some x →
  ibd_batch_rows base j entries !! i
  = Some (x.1.1, Some (encode_row (mkEntry x.1.2 x.2 Valid (sat_add base (j + Z.of_nat i + 1))))).
Proof.
  revert i j. induction entries as [|[[h hgt] prev] rest IH]; intros [|i] j Hi; [done|done| |].
  - injection Hi as <-. cbn [ibd_batch_rows fst snd]. by replace (j + Z.of_nat 0 + 1) with (j + 1) by lia.
  - cbn [lookup list_lookup] in Hi. cbn [ibd_batch_rows].
    etransitivity; [exact (IH i (j + 1) Hi)|]. by replace (j + Z.of_nat (S i) + 1) with (j + 1 + Z.of_nat i + 1) by lia.
Qed.
Lemma batch_keys_nodup entries (v : option bytes) :
  Forall batch_data entries → NoDup ((λ x, x.1.1) <$> entries) →
  NoDup (((λ x : bytes * Z * bytes, x.1.1) <$> entries) ++ [(SEQUENCE_COUNTER_KEY, v)].*1).
Proof.
  intros Hd Hnd. apply NoDup_app. split_and!; [done| |apply NoDup_singleton].
  intros k (x & -> & Hin)%list_elem_of_fmap Hk. apply list_elem_of_singleton in Hk.
  rewrite Forall_forall in Hd. by destruct (Hd x Hin) as (_ & ? & _).
Qed.
(** A batch numbers all its blocks above the counter. *)
Lemma insert_ibd_batch_id entries i x db :
  Forall batch_data entries → NoDup ((λ x, x.1.1) <$> entries) →
  read_counter db + Z.of_nat (length entries) ≤ u64_max → entries !! i = Some x →
  index_get x.1.1 (insert_ibd_batch entries db).1
  = Ok (Some (mkEntry x.1.2 x.2 Valid (read_counter db + Z.of_nat i + 1))).
Proof.
  intros Hd Hnd Hroom Hi. pose proof (list_elem_of_lookup_2 _ _ _ Hi) as Hin.
  destruct (proj1 (Forall_forall _ _) Hd x Hin) as (Hx & Hxk & Hhgt & Hprev). pose proof (lookup_lt_Some _ _ _ Hi) as Hlt.
  pose proof (read_counter_u64 db) as Hu. unfold is_u64 in Hu.
  set (e := mkEntry x.1.2 x.2 Valid (read_counter db + Z.of_nat i + 1)).
  assert (entry_ok e) as He by (unfold e, entry_ok, is_u64, u64_max in *; cbn; naive_solver lia).
  unfold insert_ibd_batch. destruct entries as [|y rest] eqn:Ee; [done|]. rewrite <-Ee in *. cbn [fst].
  unfold index_get. rewrite batch_nodup_get.
  - rewrite (elem_of_list_to_map_1 _ x.1.1 (Some (encode_row e))).
    + by rewrite decode_encode_row.
    + rewrite fmap_app, ibd_batch_rows_keys. by apply batch_keys_nodup.
    + apply elem_of_app. left. apply list_elem_of_lookup. exists i. rewrite (ibd_batch_rows_lookup _ _ _ _ x) by done.
      unfold e. do 5 f_equal. unfold sat_add, u64_max in *. lia.
  - rewrite fmap_app, ibd_batch_rows_keys. by apply batch_keys_nodup.
Qed.

(** [C11] For a batch of distinct blocks, with room in the counter, writing it in
    one transaction leaves the database that inserting the blocks one by one, in
    order, leaves, exactly when none of them is in the index: a block that is
    keeps its sequence id under an insert and is given a new one by the batch. *)
Theorem insert_ibd_batch_equiv (entries : list (bytes * Z * bytes)) (db : database) :
  index_inv db → Forall batch_data entries → NoDup ((λ x, x.1.1) <$> entries) →
  read_counter db + Z.of_nat (length entries) ≤ u64_max →
  insert_ibd_batch entries db = insert_each entries db ↔ Forall (λ x, index_get x.1.1 db = Ok None) entries.
Proof.
  intros Hinv Hd Hnd Hroom. split.
  - intros Heq. apply Forall_forall. intros x Hin. pose proof Hin as [i Hi]%list_elem_of_lookup.
    destruct (proj1 (Forall_forall _ _) Hd x Hin) as (_ & Hxk & _).
    destruct (index_get_total x.1.1 db Hinv Hxk) as [|(e & Hget & _ & _ & Hle)]; [done|].
    destruct (insert_each_keeps_id entries x.1.1 e db Hinv Hd Hxk Hroom Hget) as (e' & He' & Hid).
    rewrite <-Heq, (insert_ibd_batch_id entries i) in He' by done. injection He' as <-. cbn in Hid. lia.
  - intros Hnew. apply insert_ibd_batch_each; [done| |done|done]. apply Forall_forall. intros x Hin.
    rewrite Forall_forall in Hd, Hnew. destruct (Hd x Hin) as (? & ? & ? & ?). unfold fresh_entry. split_and!; auto.
Qed.


(** [C12] [branch_length]: on an index whose heights follow the parent links, the
    length reported for a tip is its distance [k] to the first ancestor it
    shares with the active tip, when both sides are within the 10_000-block
    walk. *)
Theorem index_branch_length_correct (tip active f : bytes) (k j : nat) (db : database) :
  index_inv db → index_linked db →
  tip ≠ SEQUENCE_COUNTER_KEY → active ≠ SEQUENCE_COUNTER_KEY →
  nth_ancestor db k tip = Some f → nth_ancestor db j active = Some f →
  Z.of_nat k ≤ walk_cap → Z.of_nat j ≤ walk_cap →
  (∀ i m h, (i < k)%nat → nth_ancestor db i tip = Some h → nth_ancestor db m active ≠ Some h) →
  index_branch_length tip active db = Ok (Z.of_nat k).
Proof.
  intros Hinv Hl Ht Ha Hk Hj Hck Hcj Hout. unfold index_branch_length.
  case_bool_decide as Heq.
  { subst. destruct k as [|k]; [done|]. by destruct (Hout 0%nat 0%nat active); [lia|..]. }
  destruct (index_ancestors_of_spec active db Hinv Hl Ha) as (anc & -> & Hanc). cbn [rbind].
  apply (branch_loop_spec walk_fuel anc 0 k tip tip f ∅ db); try done;
    unfold walk_fuel, walk_cap in *; try lia.
  - apply Hanc. by exists j.
  - intros i h Hi Hh (m & _ & Hm)%Hanc. by eapply Hout.
  - intros h. split; [set_solver|]. intros (i & ? & ?). lia.
Qed.
End IndexTheorems.

(** ** A concrete codec and witnesses *)

Module BincodeEntry.
(** Fixed-width little-endian layout of an entry: 8 + 32 + 4 + 8 bytes. *)
#[global] Instance codec : Codec BlockIndexEntry := {|
  encode_row e :=
    to_le 8 (bi_height e) ++ bi_prev_hash e ++
    to_le 4 (match bi_status e with Valid => 0 | Invalid => 1 end) ++
    to_le 8 (bi_sequence_id e);
  decode_row bs :=
    if bool_decide (length bs = 52%nat) then
      let tag := of_le (slice 40 4 bs) in
      if bool_decide (0 ≤ tag ≤ 1) then
        Some (mkEntry (of_le (slice 0 8 bs)) (slice 8 32 bs)
                (if bool_decide (tag = 0) then Valid else Invalid)
                (of_le (slice 44 8 bs)))
      else None
    else None;
|}.

#[global] Instance laws : CodecLaws BlockIndexEntry entry_ok.
Proof.
  intros [h p s q] (Hh & Hp & Hq). cbn in Hh, Hp, Hq.
  cbn [encode_row decode_row codec bi_height bi_prev_hash bi_status bi_sequence_id].
  set (tag := match s with Valid => 0 | Invalid => 1 end).
  assert (0 ≤ tag ≤ 1) as Htag by (unfold tag; destruct s; lia).
  rewrite bool_decide_eq_true_2 by (rewrite !length_app, !length_to_le, Hp; lia).
  rewrite slice_app_l by apply length_to_le.
  rewrite !(slice_app_r _ _ (to_le 8 h) _ 8) by (apply length_to_le || lia).
  rewrite slice_app_l by done.
  rewrite !(slice_app_r _ _ p _ 32) by (done || lia).
  rewrite (slice_app_l 4) by apply length_to_le.
  rewrite (slice_app_r _ _ (to_le 4 tag) _ 4) by (apply length_to_le || lia).
  rewrite slice_all by apply length_to_le.
  rewrite !of_to_le by (unfold is_u64 in *; simpl; lia).
  rewrite bool_decide_eq_true_2 by done. unfold tag. by destruct s.
Qed.
End BincodeEntry.

Module IndexWitness.
(** Four blocks: 1 at height 0, 2 on it, and two children 3 and 4 of 2. *)
Definition hsh (n : Z) : bytes := to_be 32 n.
Definition blocks : list (bytes * Z * bytes) :=
  [(hsh 1, 0, hsh 0); (hsh 2, 1, hsh 1); (hsh 3, 2, hsh 2); (hsh 4, 2, hsh 2)].
Definition db0 : database := (insert_ibd_batch blocks ∅).1.

Lemma fresh_blocks : Forall (fresh_entry ∅) blocks.
Proof.
  repeat (apply Forall_cons; split); [..|apply Forall_nil; exact I];
    (split_and!; [vm_compute; reflexivity | vm_compute; congruence
                 | vm_compute; split; congruence
                 | vm_compute; reflexivity | vm_compute; reflexivity]).
Qed.

Lemma nodup_blocks : NoDup ((λ x : bytes * Z * bytes, x.1.1) <$> blocks).
Proof. apply (bool_decide_unpack _). vm_compute. exact I. Qed.

Lemma room_blocks : read_counter ∅ + Z.of_nat (length blocks) ≤ u64_max.
Proof. vm_compute. congruence. Qed.

Lemma db0_inv : index_inv db0.
Proof.
  exact (proj2 (insert_ibd_batch_each blocks ∅ index_inv_empty fresh_blocks nodup_blocks room_blocks)).
Qed.

Lemma index_sequence_ids_unique_witness : index_inv (index_insert (hsh 1) 0 (hsh 0) Valid ∅).1.
Proof.
  apply index_sequence_ids_unique. apply rtc_once.
  apply (step_insert ∅ (hsh 1) 0 (hsh 0) Valid); vm_compute; try split; congruence.
Defined.

Lemma blocks_data : Forall batch_data blocks.
Proof. eapply Forall_impl; [exact fresh_blocks|]. intros x (? & ? & ? & ? & _). by split_and!. Qed.
(** Written once the batch is as four inserts; written again it is not. *)
Lemma insert_ibd_batch_equiv_witness :
  insert_ibd_batch blocks ∅ = insert_each blocks ∅ ∧ read_counter db0 = 4 ∧
  insert_ibd_batch blocks db0 ≠ insert_each blocks db0.
Proof.
  split_and!; [|vm_compute; reflexivity|].
  - apply (insert_ibd_batch_equiv blocks ∅ index_inv_empty blocks_data nodup_blocks room_blocks).
    repeat (apply Forall_cons; split); [vm_compute; reflexivity..|done].
  - intros Heq%(insert_ibd_batch_equiv blocks db0 db0_inv blocks_data nodup_blocks ltac:(vm_compute; congruence)).
    apply Forall_cons in Heq as [Hx _]. vm_compute in Hx. discriminate Hx.
Defined.

Lemma db0_linked : index_linked db0.
Proof. apply linkedb_sound. vm_compute. reflexivity. Qed.

Lemma db0_disjoint i m h :
  (i < 1)%nat → nth_ancestor db0 i (hsh 4) = Some h → nth_ancestor db0 m (hsh 3) ≠ Some h.
Proof.
  intros Hi Hh. destruct i as [|i]; [|lia]. injection Hh as <-.
  assert (nth_ancestor db0 3 (hsh 3) = Some (hsh 0)) as H3 by (vm_compute; reflexivity).
  destruct (decide (m ≤ 3)%nat) as [Hm|Hm].
  - do 4 (destruct m as [|m]; [vm_compute; congruence|]). lia.
  - replace m with (3 + S (m - 4))%nat by lia. rewrite (nth_ancestor_add _ _ _ _ _ H3).
    cbn [nth_ancestor]. assert (index_get (hsh 0) db0 = Ok None) as -> by (vm_compute; reflexivity).
    congruence.
Qed.

Lemma index_branch_length_correct_witness :
  index_branch_length (hsh 4) (hsh 3) db0 = Ok (Z.of_nat 1).
Proof.
  refine (index_branch_length_correct (hsh 4) (hsh 3) (hsh 2) 1 1 db0 db0_inv db0_linked
            _ _ _ _ _ _ db0_disjoint); vm_compute; congruence.
Defined.

Lemma index_chain_tips_correct_witness :
  ∃ tips, index_chain_tips db0 = Ok tips ∧
    (hsh 4, mkEntry 2 (hsh 2) Valid 4) ∈ tips ∧ (hsh 2, mkEntry 1 (hsh 1) Valid 2) ∉ tips.
Proof.
  destruct (index_chain_tips_correct db0 db0_inv) as (tips & Htips & Hiff).
  exists tips. split; [done|]. rewrite !Hiff. split.
  - split_and!; [vm_compute; congruence | vm_compute; reflexivity |].
    intros (h' & e' & Hne & He' & Hp).
    assert (index_get (hsh 4) db0 = Ok (Some (mkEntry 2 (hsh 2) Valid 4))) as H4
      by (vm_compute; reflexivity).
    assert (∀ kv, kv ∈ tree_iter index_tree db0 →
              match decode_row (A := BlockIndexEntry) kv.2 with
              | Some e => bool_decide (bi_prev_hash e ≠ hsh 4)
              | None => true end = true) as Hall.
    { apply Forall_forall. apply (bool_decide_unpack _). vm_compute. exact I. }
    apply index_get_row in He' as (v & Hv & He').
    apply elem_of_tree_iter in Hv. specialize (Hall _ Hv). cbn [snd] in Hall.
    rewrite He' in Hall. apply bool_decide_eq_true in Hall. by apply Hall.
  - intros (_ & _ & Hno). apply Hno. exists (hsh 4), (mkEntry 2 (hsh 2) Valid 4).
    split_and!; [vm_compute; congruence | vm_compute; reflexivity | reflexivity].
Defined.
End IndexWitness.
