(* ===== verification/ChainState.v ===== *)
(** * ChainState: the chain metadata store of [src/storage/chainstate.rs]

    The active tip, per-block and cumulative work, the IBD watermark and engine
    checkpoint rows, invalid blocks and the block index, all in one database.
    The rows of statistics, hashrate and extra tips are left out. *)

From S2P Require Import Prelude Bytes Database Interfaces BlockIndex.
Open Scope Z_scope.

(** ** Data *)

Record ChainParams := mkParams {
  cp_network : string;
  cp_genesis_hash : bytes;
  cp_max_target : Z;
  cp_subsidy_halving_interval : Z;
}.

Record ChainInfo := mkInfo {
  ci_tip_hash : bytes;
  ci_tip_header : BlockHeader;
  ci_height : Z;
  ci_total_work : Z;
  ci_chain_params : ChainParams;
}.

(** Values of the Rust structs. *)
Definition is_i64 (z : Z) : Prop := - 2 ^ 63 ≤ z < 2 ^ 63.
Definition header_ok (h : BlockHeader) : Prop :=
  is_i64 (version h) ∧ is_hash (prev_block_hash h) ∧ is_hash (merkle_root h) ∧
  is_u64 (timestamp h) ∧ is_u64 (bits h) ∧ is_u64 (nonce h).
Definition params_ok (p : ChainParams) : Prop :=
  is_hash (cp_genesis_hash p) ∧ is_u64 (cp_max_target p) ∧
  is_u64 (cp_subsidy_halving_interval p).
Definition info_ok (i : ChainInfo) : Prop :=
  is_hash (ci_tip_hash i) ∧ header_ok (ci_tip_header i) ∧ is_u64 (ci_height i) ∧
  is_u64 (ci_total_work i) ∧ params_ok (ci_chain_params i).

Definition chain_info_t : string := "chain_info".
Definition work_t : string := "work_cache".
Definition chainwork_t : string := "chainwork_cache".
Definition invalid_t : string := "invalid_blocks".

(** Keys of the ["chain_info"] tree. *)
Definition k_current : bytes := bstr "current".
Definition k_watermark : bytes := bstr "ibd_utxo_watermark".
Definition k_muhash : bytes := bstr "ibd_utxo_muhash_running".
Definition k_validation_tip : bytes := bstr "ibd_engine_validation_tip".
Definition k_export_height : bytes := bstr "ibd_engine_export_height".
Definition k_ckpt_slot : bytes := bstr "ibd_engine_ckpt_slot".
Definition k_canonical_tree : bytes := bstr "ibd_utxo_canonical_tree".
Definition k_ckpt_height (slot : Z) : bytes :=
  if bool_decide (Z.land slot 1 = 0) then bstr "ibd_engine_ckpt_height_0"
  else bstr "ibd_engine_ckpt_height_1".
Definition k_export_wall_secs : bytes := bstr "ibd_engine_export_wall_secs".
Definition k_export_count : bytes := bstr "ibd_engine_export_utxo_count".
Definition k_prev_count : bytes := bstr "ibd_engine_prev_accepted_utxo_count".
Definition k_export_muhash : bytes := bstr "ibd_engine_export_muhash".

(** ** Free functions *)

Section Free.
Context {O : U256Ops} {K : Consensus}.

Definition default_params : ChainParams :=
  mkParams "mainnet" zero_hash 0xffff0000 HALVING_INTERVAL.

(** The 80-byte header; narrowing casts keep the low 32 bits. *)
Definition header_bytes (h : BlockHeader) : bytes :=
  to_le 4 (as_i32 (version h)) ++ prev_block_hash h ++ merkle_root h ++
  to_le 4 (as_u32 (timestamp h)) ++ to_le 4 (as_u32 (bits h)) ++ to_le 4 (as_u32 (nonce h)).

Definition calculate_hash (h : BlockHeader) : bytes := hash256 (header_bytes h).

(** A proof error counts as zero work. *)
Definition calculate_work_from_bits (b : Z) : U256 := default u256_zero (get_block_proof b).

(** 32-byte rows, and the 16- and 8-byte rows of older versions. *)
Definition decode_cached_work (data : bytes) : option U256 :=
  if bool_decide (length data = 32%nat) then Some (u256_from_be_bytes data)
  else if bool_decide (length data = 16%nat) then Some (u256_from_u128 (of_be data))
  else if bool_decide (length data = 8%nat) then Some (u256_from_u128 (of_be data))
  else None.
End Free.

(** ** Operations *)

Section Ops.
Context {O : U256Ops} {K : Consensus} {EC : Codec BlockIndexEntry} {IC : Codec ChainInfo}.
Implicit Types (db : database) (hash : bytes) (hgt : Z).

Definition load_chain_info (db : database) : result (option ChainInfo) :=
  match tree_get chain_info_t k_current db with
  | Some data => match decode_row data with
                 | Some i => Ok (Some i)
                 | None => Err "bincode"
                 end
  | None => Ok None
  end.

Definition store_chain_info (i : ChainInfo) : M database unit :=
  modify (tree_insert chain_info_t k_current (encode_row i)).

Definition get_height (db : database) : result (option Z) :=
  let+ i := load_chain_info db in Ok (ci_height <$> i).
Definition get_tip_hash (db : database) : result (option bytes) :=
  let+ i := load_chain_info db in Ok (ci_tip_hash <$> i).
Definition get_tip_header (db : database) : result (option BlockHeader) :=
  let+ i := load_chain_info db in Ok (ci_tip_header <$> i).
Definition get_tip_hash_and_height (db : database) : result (bytes * Z) :=
  let+ i := load_chain_info db in
  Ok (match i with
      | Some info => (ci_tip_hash info, ci_height info)
      | None => (zero_hash, 0)
      end).

(** *** Work rows *)

Definition get_work (hash : bytes) (db : database) : option U256 :=
  match tree_get work_t hash db with Some d => decode_cached_work d | None => None end.
Definition get_chainwork (hash : bytes) (db : database) : option U256 :=
  match tree_get chainwork_t hash db with Some d => decode_cached_work d | None => None end.
Definition store_work (hash : bytes) (w : U256) : M database unit :=
  modify (tree_insert work_t hash (u256_to_be_bytes w)).
Definition store_chainwork (hash : bytes) (w : U256) : M database unit :=
  modify (tree_insert chainwork_t hash (u256_to_be_bytes w)).

Definition chainwork_for_header (h : BlockHeader) (hgt : Z) (db : database) : result U256 :=
  let block_work := calculate_work_from_bits (bits h) in
  if bool_decide (0 < hgt) then
    match get_chainwork (prev_block_hash h) db with
    | Some prev => Ok (u256_saturating_add prev block_work)
    | None => Err "parent chainwork is absent"
    end
  else Ok (u256_saturating_add u256_zero block_work).

Definition cache_block_chainwork (hash : bytes) (h : BlockHeader) (hgt : Z)
    : M database unit :=
  let* chainwork := reads (chainwork_for_header h hgt) in
  modify (commit_keyed
    [(work_t, hash, Some (u256_to_be_bytes (calculate_work_from_bits (bits h))));
     (chainwork_t, hash, Some (u256_to_be_bytes chainwork))]).

(** *** The tip *)

Definition tip_info (tip_hash : bytes) (tip_header : BlockHeader) (hgt : Z)
    (old : option ChainInfo) : ChainInfo :=
  let i := default (mkInfo tip_hash tip_header hgt 0 default_params) old in
  mkInfo tip_hash tip_header hgt (ci_total_work i) (ci_chain_params i).

(** The write list of [update_tip]: index row, counter if new, work, chainwork,
    and the tip record last. *)
Definition update_tip_ops (tip_hash : bytes) (tip_header : BlockHeader) (hgt : Z)
    (db : database) : result (list keyed_op) :=
  let+ prepared := index_prepare_insert tip_hash hgt (prev_block_hash tip_header) Valid db in
  let+ chainwork := chainwork_for_header tip_header hgt db in
  let+ old := load_chain_info db in
  Ok (prepared_ops tip_hash prepared ++
      [(work_t, tip_hash, Some (u256_to_be_bytes (calculate_work_from_bits (bits tip_header))));
       (chainwork_t, tip_hash, Some (u256_to_be_bytes chainwork));
       (chain_info_t, k_current, Some (encode_row (tip_info tip_hash tip_header hgt old)))]).

Definition update_tip (tip_hash : bytes) (tip_header : BlockHeader) (hgt : Z)
    : M database unit :=
  let* ops := reads (update_tip_ops tip_hash tip_header hgt) in
  modify (commit_keyed ops).

Definition set_snapshot_tip (block_hash : bytes) (hgt : Z) (tip_header : BlockHeader)
    : M database unit :=
  if bool_decide (calculate_hash tip_header ≠ block_hash)
  then throw "snapshot header does not match the snapshot block hash"
  else
    let* old := reads load_chain_info in
    store_chain_info (tip_info block_hash tip_header hgt old).

(** *** IBD watermark, MuHash state and engine checkpoint rows *)

(** A height row: rows shorter than eight bytes read as absent. *)
Definition read_u64_row (key : bytes) (db : database) : option Z :=
  match tree_get chain_info_t key db with
  | Some data => if bool_decide (length data < 8)%nat then None else Some (of_be (take 8 data))
  | None => None
  end.
Definition put_u64_row (key : bytes) (v : Z) : M database unit :=
  modify (tree_insert chain_info_t key (to_be 8 v)).
(** A MuHash row: only rows of the exact width are returned. *)
Definition read_muhash_row (key : bytes) (db : database) : option bytes :=
  match tree_get chain_info_t key db with
  | Some data => if bool_decide (length data = MUHASH_RUNNING_STATE_BYTES) then Some data else None
  | None => None
  end.

Definition get_utxo_watermark : database → option Z := read_u64_row k_watermark.
Definition set_utxo_watermark (hgt : Z) : M database unit :=
  let* db := gets id in
  if bool_decide (default 0 (get_utxo_watermark db) < hgt)
  then put_u64_row k_watermark hgt else ret tt.
Definition force_set_ibd_utxo_watermark (hgt : Z) : M database unit :=
  put_u64_row k_watermark hgt ;;
  (if bool_decide (hgt = 0) then modify (tree_remove chain_info_t k_muhash) else ret tt).

Definition get_ibd_utxo_muhash_running : database → option bytes := read_muhash_row k_muhash.

Definition flush_batch (flush_height : Z) (muhash_running : bytes) (wm tip : Z)
    : list (bytes * option bytes) :=
  if bool_decide (tip < flush_height) then [(k_muhash, Some muhash_running)]
  else (if bool_decide (wm < flush_height) then [(k_watermark, Some (to_be 8 flush_height))] else [])
       ++ [(k_muhash, Some muhash_running)].

Definition persist_ibd_utxo_flush_checkpoint (flush_height : Z) (muhash_running : bytes)
    : M database unit :=
  let* db := gets id in
  let* tip := lift (get_height db) in
  modify (batch_commit chain_info_t
    (flush_batch flush_height muhash_running (default 0 (get_utxo_watermark db)) (default 0 tip))).

Definition persist_ibd_utxo_muhash_running_only (muhash_running : bytes) : M database unit :=
  modify (tree_insert chain_info_t k_muhash muhash_running).

Definition get_engine_validation_tip : database → option Z := read_u64_row k_validation_tip.
Definition persist_engine_validation_tip (hgt : Z) : M database unit :=
  let* db := gets id in
  if bool_decide (default 0 (get_engine_validation_tip db) < hgt)
  then put_u64_row k_validation_tip hgt else ret tt.

Definition get_engine_export_height : database → option Z := read_u64_row k_export_height.
Definition force_set_engine_export_height (hgt : Z) : M database unit :=
  put_u64_row k_export_height hgt.
Definition persist_engine_export_height (hgt : Z) : M database unit :=
  let* db := gets id in
  let* tip := lift (get_height db) in
  if bool_decide (default 0 tip < hgt) then ret tt
  else if bool_decide (default 0 (get_engine_export_height db) < hgt)
  then put_u64_row k_export_height hgt else ret tt.

Definition get_engine_ckpt_slot (db : database) : Z :=
  match tree_get chain_info_t k_ckpt_slot db with
  | Some (b :: _) => Z.land (b2z b) 1
  | _ => 0
  end.
Definition force_set_engine_ckpt_slot (slot : Z) : M database unit :=
  modify (tree_insert chain_info_t k_ckpt_slot [z2b (Z.land slot 1)]).
Definition get_engine_ckpt_slot_height (slot : Z) (db : database) : Z :=
  default 0 (read_u64_row (k_ckpt_height slot) db).
Definition set_engine_ckpt_slot_height (slot hgt : Z) : M database unit :=
  put_u64_row (k_ckpt_height slot) hgt.

Definition is_ibd_utxo_tree_name (name : string) : bool :=
  bool_decide (name = "ibd_utxos" ∨ name = "ibd_utxos_ckpt_a" ∨ name = "ibd_utxos_ckpt_b").

(** Stored names are compared as bytes; the three names are ASCII, so lossy
    UTF-8 decoding of the row yields one of them exactly when the bytes match. *)
Definition get_stored_ibd_utxo_canonical_tree (db : database) : option string :=
  match tree_get chain_info_t k_canonical_tree db with
  | Some (b :: bs) =>
      let s := String.string_of_list_byte (b :: bs) in
      if is_ibd_utxo_tree_name s then Some s else None
  | _ => None
  end.
Definition set_ibd_utxo_canonical_tree (name : string) : M database unit :=
  if is_ibd_utxo_tree_name name
  then modify (tree_insert chain_info_t k_canonical_tree (bstr name))
  else throw "invalid ibd utxo canonical tree name".

Definition get_engine_export_wall_secs : database → option Z := read_u64_row k_export_wall_secs.
Definition get_engine_export_utxo_count : database → option Z := read_u64_row k_export_count.
Definition get_engine_prev_accepted_utxo_count : database → option Z := read_u64_row k_prev_count.
Definition get_engine_export_muhash : database → option bytes := read_muhash_row k_export_muhash.

Definition checkpoint_batch (hgt slot utxo_count wall : Z) (muhash_running : bytes)
    (prev_count wm : Z) : list (bytes * option bytes) :=
  (if bool_decide (0 < prev_count) then [(k_prev_count, Some (to_be 8 prev_count))] else []) ++
  (if bool_decide (wm < hgt) then [(k_watermark, Some (to_be 8 hgt))] else []) ++
  [(k_muhash, Some muhash_running);
   (k_export_height, Some (to_be 8 hgt));
   (k_ckpt_slot, Some [z2b (Z.land slot 1)]);
   (k_ckpt_height slot, Some (to_be 8 hgt));
   (k_export_count, Some (to_be 8 utxo_count));
   (k_export_wall_secs, Some (to_be 8 wall));
   (k_export_muhash, Some muhash_running)].

Definition persist_engine_checkpoint_complete (hgt slot utxo_count wall : Z)
    (muhash_running : bytes) : M database unit :=
  let* db := gets id in
  let current := default 0 (get_engine_export_height db) in
  let* tip := lift (get_height db) in
  if bool_decide (default 0 tip < hgt)
  then persist_ibd_utxo_muhash_running_only muhash_running
  else if bool_decide (hgt ≤ current)
  then persist_ibd_utxo_muhash_running_only muhash_running
  else
    modify (batch_commit chain_info_t
      (checkpoint_batch hgt slot utxo_count wall muhash_running
         (default 0 (get_engine_export_utxo_count db)) (default 0 (get_utxo_watermark db)))).

Definition force_reset_engine_checkpoint_metadata : M database unit :=
  modify (batch_commit chain_info_t
    [(k_export_height, Some (to_be 8 0));
     (k_ckpt_slot, Some [z2b 0]);
     (k_export_count, Some (to_be 8 0));
     (k_prev_count, Some (to_be 8 0));
     (k_export_muhash, None);
     (k_validation_tip, None)]).

(** *** Indexing and invalid blocks *)

Definition is_invalid (hash : bytes) (db : database) : bool := tree_contains_key invalid_t hash db.

Definition record_connected_block (hash : bytes) (hgt : Z) (prev : bytes) : M database unit :=
  let* inv := gets (is_invalid hash) in
  index_insert hash hgt prev (if inv then Invalid else Valid).

Definition index_connected_block (hash : bytes) (h : BlockHeader) (hgt : Z) : M database unit :=
  record_connected_block hash hgt (prev_block_hash h) ;;
  cache_block_chainwork hash h hgt.

(** Per-block and cumulative work of a run of headers. *)
Fixpoint chainwork_rows (prev : U256) (entries : list (bytes * BlockHeader * Z))
    : list (bytes * U256 * U256) :=
  match entries with
  | [] => []
  | (hash, h, _) :: rest =>
      let w := calculate_work_from_bits (bits h) in
      let cw := u256_saturating_add prev w in
      (hash, w, cw) :: chainwork_rows cw rest
  end.

Definition batch_base (h : BlockHeader) (hgt : Z) (db : database) : result U256 :=
  if bool_decide (0 < hgt) then
    match get_chainwork (prev_block_hash h) db with
    | Some prev => Ok prev
    | None => Err "parent chainwork is absent"
    end
  else Ok u256_zero.

Definition index_connected_blocks_batch (entries : list (bytes * BlockHeader * Z))
    : M database unit :=
  match entries with
  | [] => ret tt
  | (_, first_header, first_height) :: _ =>
      let* base := reads (batch_base first_header first_height) in
      let rows := chainwork_rows base entries in
      modify (batch_commit work_t ((λ r, (r.1.1, Some (u256_to_be_bytes r.1.2))) <$> rows)) ;;
      modify (batch_commit chainwork_t ((λ r, (r.1.1, Some (u256_to_be_bytes r.2))) <$> rows)) ;;
      insert_ibd_batch ((λ e, (e.1.1, e.2, prev_block_hash e.1.2)) <$> entries)
  end.

Definition status_ops (hash : bytes) (row : option bytes) : list keyed_op :=
  match row with Some b => [(index_tree, hash, Some b)] | None => [] end.

(** [now] is the wall clock in seconds. *)
Definition mark_invalid (now : Z) (hash : bytes) : M database unit :=
  let* row := reads (serialized_with_status hash Invalid false) in
  modify (commit_keyed ((invalid_t, hash, Some (to_be 8 now)) :: status_ops hash row)).
Definition reconsider (hash : bytes) : M database unit :=
  let* row := reads (serialized_with_status hash Valid true) in
  modify (commit_keyed ((invalid_t, hash, None) :: status_ops hash row)).

End Ops.

(** ** Databases that agree on a tree *)

(** [same_tree t] is the equivalence "tree [t] holds the same rows". *)
Definition same_tree (t : string) (db db' : database) : Prop :=
  ∀ k, tree_get t k db = tree_get t k db'.

#[export] Instance same_tree_equivalence t : Equivalence (same_tree t).
Proof.
  split; [done|by intros ?? H k|]. intros ??? H1 H2 k. by rewrite H1.
Qed.
#[export] Instance tree_get_same t : Proper (eq ==> same_tree t ==> eq) (tree_get t).
Proof. by intros k ? <- db db' Hs. Qed.

Lemma same_tree_insert t t' k v db : t' ≠ t → same_tree t (tree_insert t' k v db) db.
Proof. intros Hne k'. apply tree_get_insert_ne. congruence. Qed.
Lemma same_tree_remove t t' k db : t' ≠ t → same_tree t (tree_remove t' k db) db.
Proof. intros Hne k'. apply tree_get_remove_ne. congruence. Qed.
Lemma same_tree_batch t t' ops db : t' ≠ t → same_tree t (batch_commit t' ops db) db.
Proof. intros Hne k'. by apply batch_commit_other_tree. Qed.
Lemma same_tree_keyed t ops db :
  Forall (λ op, op.1.1 ≠ t) ops → same_tree t (commit_keyed ops db) db.
Proof.
  intros Hall k. apply commit_keyed_other. rewrite list_elem_of_fmap.
  intros ([[t' k'] v] & Heq & Hin). rewrite Forall_forall in Hall.
  specialize (Hall _ Hin). cbn in *. congruence.
Qed.

Section SameIndex.
Context {EC : Codec BlockIndexEntry}.
#[export] Instance index_get_proper : Proper (eq ==> same_tree index_tree ==> eq) index_get.
Proof. intros h ? <- db db' Hs. unfold index_get. by rewrite Hs. Qed.
#[export] Instance read_counter_proper : Proper (same_tree index_tree ==> eq) read_counter.
Proof. intros db db' Hs. unfold read_counter. by rewrite Hs. Qed.
#[export] Instance index_inv_proper : Proper (same_tree index_tree ==> iff) index_inv.
Proof.
  enough (∀ db db', same_tree index_tree db db' → index_inv db → index_inv db') as Himp.
  { intros db db' Hs. split; apply Himp; done. }
  intros db db' Hs [Hrows Huniq]. split.
  - intros h v. rewrite <-(Hs h), <-(read_counter_proper _ _ Hs). apply Hrows.
  - intros h1 h2 e1 e2 ??. rewrite <-!(index_get_proper _ _ eq_refl _ _ Hs). by apply Huniq.
Qed.
End SameIndex.

Ltac tree_ne :=
  let H := fresh in
  intros H; first [ apply (f_equal fst) in H; vm_compute in H; discriminate H
                  | apply (f_equal snd) in H; vm_compute in H; discriminate H
                  | vm_compute in H; discriminate H ].
#[export] Hint Extern 1 (_ ≠ _) => tree_ne : node.
#[export] Hint Resolve same_tree_insert same_tree_remove same_tree_batch : node.

(** ** Lemmas *)

Section Lemmas.
Context {O : U256Ops} {OL : U256Laws O} {K : Consensus} {KL : ConsensusLaws K}.
Context {EC : Codec BlockIndexEntry} {EL : CodecLaws BlockIndexEntry entry_ok}.
Context {IC : Codec ChainInfo} {IL : CodecLaws ChainInfo info_ok}.
Implicit Types (db : database) (hash : bytes) (hgt : Z).

#[export] Instance load_chain_info_proper :
  Proper (same_tree chain_info_t ==> eq) load_chain_info.
Proof. intros db db' Hs. unfold load_chain_info. by rewrite Hs. Qed.
#[export] Instance get_chainwork_proper :
  Proper (eq ==> same_tree chainwork_t ==> eq) get_chainwork.
Proof. intros h ? <- db db' Hs. unfold get_chainwork. by rewrite Hs. Qed.
#[export] Instance get_work_proper : Proper (eq ==> same_tree work_t ==> eq) get_work.
Proof. intros h ? <- db db' Hs. unfold get_work. by rewrite Hs. Qed.

Lemma decode_work_encode w : decode_cached_work (u256_to_be_bytes w) = Some w.
Proof.
  unfold decode_cached_work. rewrite bool_decide_eq_true_2 by apply u256_length_be.
  by rewrite u256_from_to_be.
Qed.
Lemma get_chainwork_put h w h' db :
  get_chainwork h' (tree_insert chainwork_t h (u256_to_be_bytes w) db) =
  if decide (h = h') then Some w else get_chainwork h' db.
Proof.
  unfold get_chainwork. rewrite tree_get_insert.
  repeat case_decide; simplify_eq; [apply decode_work_encode|done].
Qed.
Lemma get_work_put h w h' db :
  get_work h' (tree_insert work_t h (u256_to_be_bytes w) db) =
  if decide (h = h') then Some w else get_work h' db.
Proof.
  unfold get_work. rewrite tree_get_insert.
  repeat case_decide; simplify_eq; [apply decode_work_encode|done].
Qed.
Lemma load_chain_info_put i db :
  info_ok i → load_chain_info (tree_insert chain_info_t k_current (encode_row i) db) = Ok (Some i).
Proof.
  intros Hok. unfold load_chain_info. rewrite tree_get_insert_eq.
  by rewrite decode_encode_row.
Qed.
Lemma load_chain_info_row k v db :
  k ≠ k_current → load_chain_info (tree_insert chain_info_t k v db) = load_chain_info db.
Proof. intros Hne. unfold load_chain_info. rewrite tree_get_insert_ne; congruence. Qed.

Lemma same_tree_op t t' k v db : t' ≠ t → same_tree t (apply_op (t', k, v) db) db.
Proof. destruct v; cbn [apply_op]; auto with node. Qed.
Lemma get_chainwork_op t k v h db :
  t ≠ chainwork_t → get_chainwork h (apply_op (t, k, v) db) = get_chainwork h db.
Proof. intros Hne. by apply get_chainwork_proper, same_tree_op. Qed.
Lemma index_get_op t k v h db :
  t ≠ index_tree → index_get h (apply_op (t, k, v) db) = index_get h db.
Proof. intros Hne. by apply index_get_proper, same_tree_op. Qed.
Lemma load_chain_info_op t k v db :
  t ≠ chain_info_t → load_chain_info (apply_op (t, k, v) db) = load_chain_info db.
Proof. intros Hne. by apply load_chain_info_proper, same_tree_op. Qed.

(** The header layout is the 80-byte wire header. *)
Lemma length_header_bytes h : header_ok h → length (header_bytes h) = 80%nat.
Proof.
  intros (_ & Hp & Hm & _). unfold header_bytes, is_hash in *.
  rewrite !length_app, !length_to_le, Hp, Hm. done.
Qed.

Lemma chainwork_for_header_val h hgt db w :
  chainwork_for_header h hgt db = Ok w →
  u256_val w = Z.min (match (if bool_decide (0 < hgt) then get_chainwork (prev_block_hash h) db
                             else Some u256_zero) with
                      | Some p => u256_val p | None => 0 end
                      + u256_val (calculate_work_from_bits (bits h))) u256_max.
Proof.
  unfold chainwork_for_header. case_bool_decide.
  - destruct (get_chainwork _ db); [|done]. intros [= <-]. apply u256_val_add.
  - intros [= <-]. apply u256_val_add.
Qed.

(** *** The tip invariant *)

(** The recorded tip, when there is one, is well formed, has cumulative work and
    is in the index at the recorded height under the recorded parent. *)
Definition tip_row (i : ChainInfo) (db : database) : Prop :=
  ci_tip_hash i ≠ SEQUENCE_COUNTER_KEY ∧
  is_Some (get_chainwork (ci_tip_hash i) db) ∧
  ∃ e, index_get (ci_tip_hash i) db = Ok (Some e) ∧ bi_height e = ci_height i ∧
       bi_prev_hash e = prev_block_hash (ci_tip_header i).
Definition tip_inv (db : database) : Prop :=
  ∃ oi, load_chain_info db = Ok oi ∧ ∀ i, oi = Some i → info_ok i ∧ tip_row i db.

Lemma default_params_ok : params_ok default_params.
Proof.
  unfold params_ok, default_params, is_u64. cbn [cp_genesis_hash cp_max_target
    cp_subsidy_halving_interval].
  split_and!; [done|lia|lia|apply halving_interval_u64..].
Qed.

Lemma tip_info_ok h hd hgt db oi :
  tip_inv db → load_chain_info db = Ok oi →
  is_hash h → header_ok hd → is_u64 hgt → info_ok (tip_info h hd hgt oi).
Proof.
  intros (oi' & Hl & Hi) Hl' Hh Hhd Hg. assert (oi' = oi) as -> by congruence.
  unfold tip_info. destruct oi as [i|]; cbn.
  - destruct (Hi i eq_refl) as [(_ & _ & _ & Hw & Hp) _]. done.
  - split_and!; try done; by apply default_params_ok.
Qed.

(** The writes of [update_tip] before the tip record. *)
Definition tip_op (h : bytes) (e : BlockIndexEntry) (op : keyed_op) : Prop :=
  op = (index_tree, h, Some (encode_row e)) ∨
  (∃ v, op = (index_tree, SEQUENCE_COUNTER_KEY, Some v)) ∨
  (∃ k v, op = (work_t, k, v)) ∨
  (∃ k w, op = (chainwork_t, k, Some (u256_to_be_bytes w))).

Lemma tip_op_load h e op db :
  tip_op h e op → load_chain_info (apply_op op db) = load_chain_info db.
Proof.
  intros [->|[(v & ->)|[(k & v & ->)|(k & w & ->)]]]; apply load_chain_info_op; auto with node.
Qed.

Lemma tip_op_tip_row h e op i db :
  tip_op h e op → entry_ok e → h ≠ SEQUENCE_COUNTER_KEY →
  (ci_tip_hash i = h → bi_height e = ci_height i ∧
                       bi_prev_hash e = prev_block_hash (ci_tip_header i)) →
  tip_row i db → tip_row i (apply_op op db).
Proof.
  intros Hop He Hne Hagree (Htip & Hcw & e' & Hget & Hh & Hp). unfold tip_row.
  destruct Hop as [->|[(v & ->)|[(k & v & ->)|(k & w & ->)]]]; (split; [done|]).
  - rewrite get_chainwork_op by auto with node. split; [done|].
    cbn [apply_op]. rewrite index_get_put by done. case_decide; [|by eauto].
    destruct (Hagree ltac:(done)). eauto.
  - rewrite get_chainwork_op by auto with node. split; [done|].
    cbn [apply_op]. rewrite index_get_frame by congruence. eauto.
  - rewrite get_chainwork_op, index_get_op by auto with node. eauto.
  - rewrite index_get_op by auto with node. cbn [apply_op]. rewrite get_chainwork_put.
    split; [by case_decide|]. eauto.
Qed.

Lemma tip_ops_inv h e ops db :
  Forall (tip_op h e) ops → entry_ok e → h ≠ SEQUENCE_COUNTER_KEY →
  (∀ i, load_chain_info db = Ok (Some i) → ci_tip_hash i = h →
        bi_height e = ci_height i ∧ bi_prev_hash e = prev_block_hash (ci_tip_header i)) →
  tip_inv db →
  tip_inv (commit_keyed ops db) ∧
  load_chain_info (commit_keyed ops db) = load_chain_info db.
Proof.
  intros Hops He Hne. revert db.
  induction Hops as [|op ops Hop Hops IH]; intros db Hagree Hinv; [done|].
  rewrite commit_keyed_cons. pose proof (tip_op_load h e op db Hop) as Hl.
  rewrite <-Hl. apply IH; [by rewrite Hl|].
  destruct Hinv as (oi & Hoi & Hi). exists oi. rewrite Hl. split; [done|].
  intros i ->. destruct (Hi i eq_refl) as [Hok Hrow]. split; [done|].
  eapply tip_op_tip_row; eauto.
Qed.

(** *** What [update_tip] writes *)

Definition parent_work (h : BlockHeader) (hgt : Z) (db : database) : option U256 :=
  if bool_decide (0 < hgt) then get_chainwork (prev_block_hash h) db else Some u256_zero.

Lemma chainwork_for_header_eq h hgt db :
  chainwork_for_header h hgt db =
  match parent_work h hgt db with
  | Some p => Ok (u256_saturating_add p (calculate_work_from_bits (bits h)))
  | None => Err "parent chainwork is absent"
  end.
Proof. unfold chainwork_for_header, parent_work. by case_bool_decide; [destruct (get_chainwork _ _)|]. Qed.

(** The value written to the index row of a tip. *)
Definition tip_entry (h : bytes) (hd : BlockHeader) (hgt : Z) (db : database) : BlockIndexEntry :=
  mkEntry hgt (prev_block_hash hd) Valid
    (match index_get h db with
     | Ok (Some e0) => bi_sequence_id e0
     | _ => peek_next_sequence_id db
     end).

Lemma tip_entry_ok h hd hgt db :
  index_inv db → h ≠ SEQUENCE_COUNTER_KEY → header_ok hd → is_u64 hgt →
  entry_ok (tip_entry h hd hgt db).
Proof.
  intros Hinv Hne (_ & Hp & _) Hg. unfold tip_entry, entry_ok; cbn. split_and!; [done|done|].
  destruct (index_get_total h db Hinv Hne) as [->|(e0 & -> & (? & ? & ?) & _)]; [|done].
  unfold peek_next_sequence_id, sat_add. pose proof (read_counter_u64 db).
  unfold is_u64, u64_max in *. lia.
Qed.

Lemma update_tip_ops_run h hd hgt db p :
  index_inv db → tip_inv db → h ≠ SEQUENCE_COUNTER_KEY → parent_work hd hgt db = Some p →
  ∃ pi oi, index_prepare_insert h hgt (prev_block_hash hd) Valid db = Ok pi ∧
    load_chain_info db = Ok oi ∧
    update_tip_ops h hd hgt db = Ok ((prepared_ops h pi ++
      [(work_t, h, Some (u256_to_be_bytes (calculate_work_from_bits (bits hd))));
       (chainwork_t, h, Some (u256_to_be_bytes
          (u256_saturating_add p (calculate_work_from_bits (bits hd)))))]) ++
       [(chain_info_t, k_current, Some (encode_row (tip_info h hd hgt oi)))]) ∧
    Forall (tip_op h (tip_entry h hd hgt db)) (prepared_ops h pi ++
      [(work_t, h, Some (u256_to_be_bytes (calculate_work_from_bits (bits hd))));
       (chainwork_t, h, Some (u256_to_be_bytes
          (u256_saturating_add p (calculate_work_from_bits (bits hd)))))]).
Proof.
  intros Hinv (oi & Hoi & _) Hne Hp. unfold update_tip_ops.
  rewrite chainwork_for_header_eq, Hp, Hoi. unfold index_prepare_insert, tip_entry.
  destruct (index_get_total h db Hinv Hne) as [->|(e0 & -> & _)]; cbn [rbind];
    (eexists _, _; split; [done|]; split; [done|]; split; [by rewrite <-app_assoc|]);
    unfold prepared_ops; cbn [entry_bytes counter_bytes];
    rewrite Forall_app, !Forall_cons; unfold tip_op; naive_solver.
Qed.
End Lemmas.

(** ** Theorems *)

Section Theorems.
Context {O : U256Ops} {OL : U256Laws O} {K : Consensus} {KL : ConsensusLaws K}.
Context {EC : Codec BlockIndexEntry} {EL : CodecLaws BlockIndexEntry entry_ok}.
Context {IC : Codec ChainInfo} {IL : CodecLaws ChainInfo info_ok}.

Lemma update_tip_err (h : bytes) (hd : BlockHeader) (hgt : Z) (db : database) :
  index_inv db → h ≠ SEQUENCE_COUNTER_KEY → parent_work hd hgt db = None →
  update_tip h hd hgt db = (db, Err "parent chainwork is absent").
Proof.
  intros Hinv Hne Hp. unfold update_tip, update_tip_ops, bind, reads.
  rewrite chainwork_for_header_eq, Hp. unfold index_prepare_insert.
  by destruct (index_get_total h db Hinv Hne) as [->|(e0 & -> & _)].
Qed.

Lemma update_tip_ok (h : bytes) (hd : BlockHeader) (hgt : Z) (db : database) (p : U256) :
  index_inv db → tip_inv db → is_hash h → h ≠ SEQUENCE_COUNTER_KEY → header_ok hd →
  is_u64 hgt → read_counter db < u64_max → parent_work hd hgt db = Some p →
  ∃ db' i, update_tip h hd hgt db = (db', Ok tt) ∧ index_inv db' ∧ tip_inv db' ∧
    load_chain_info db' = Ok (Some i) ∧ ci_tip_hash i = h ∧ ci_tip_header i = hd ∧
    ci_height i = hgt ∧
    (∀ h', get_chainwork h' db' =
       if decide (h = h') then Some (u256_saturating_add p (calculate_work_from_bits (bits hd)))
       else get_chainwork h' db) ∧
    (∀ h', h' ≠ h → h' ≠ SEQUENCE_COUNTER_KEY → index_get h' db' = index_get h' db) ∧
    read_counter db' ≤ read_counter db + 1 ∧
    index_get h db' = Ok (Some (tip_entry h hd hgt db)) ∧
    (∃ oi, load_chain_info db = Ok oi ∧ i = tip_info h hd hgt oi) ∧
    read_counter db' = match index_get h db with Ok (Some _) => read_counter db | _ => read_counter db + 1 end.
Proof.
  intros Hinv Htip Hh Hne Hhd Hg Hc Hp.
  destruct (update_tip_ops_run h hd hgt db p Hinv Htip Hne Hp)
    as (pi & oi & Hprep & Hoi & Hops & _).
  destruct (index_insert_spec h (prev_block_hash hd) hgt Valid db)
    as (db1 & Hrun & Hinv1 & Hget & Hother & _ & Hc1); try done; [by apply Hhd|].
  assert (read_counter db1 = match index_get h db with Ok (Some _) => read_counter db | _ => read_counter db + 1 end) as Hcnt
    by (rewrite <-(index_insert_counter h (prev_block_hash hd) hgt Valid) by done; by rewrite Hrun).
  unfold index_insert in Hrun. rewrite Hprep in Hrun.
  assert (commit_keyed (prepared_ops h pi) db = db1) as Hdb1 by congruence. clear Hrun.
  unfold update_tip, bind, reads. rewrite Hops. unfold modify.
  rewrite !commit_keyed_app, Hdb1, !commit_keyed_cons, !commit_keyed_nil.
  set (w := calculate_work_from_bits (bits hd)).
  set (cw := u256_saturating_add p w).
  set (i := tip_info h hd hgt oi).
  assert (info_ok i) as Hi by by eapply tip_info_ok.
  set (db2 := apply_op (chain_info_t, _, _) _).
  assert (same_tree index_tree db2 db1) as Hsame.
  { unfold db2. rewrite !same_tree_op by auto with node. done. }
  assert (load_chain_info db2 = Ok (Some i)) as Hl by by apply load_chain_info_put.
  assert (∀ h', get_chainwork h' db2 = if decide (h = h') then Some cw else get_chainwork h' db)
    as Hcw.
  { intros h'. unfold db2. rewrite get_chainwork_op by auto with node. cbn [apply_op].
    rewrite get_chainwork_put. case_decide; [done|].
    transitivity (get_chainwork h' db1); [apply (get_chainwork_op work_t h (Some _)); auto with node|].
    rewrite <-Hdb1. apply get_chainwork_proper; [done|].
    apply same_tree_keyed. unfold prepared_ops. destruct (counter_bytes pi);
      rewrite !Forall_cons; cbn; auto with node. }
  exists db2, i.
  assert (index_get h db2 = Ok (Some (tip_entry h hd hgt db))) as Hrow.
  { rewrite Hsame, Hget. unfold tip_entry. do 3 f_equal. unfold peek_next_sequence_id, sat_add.
    pose proof (read_counter_u64 db). unfold is_u64 in *.
    destruct (index_get h db) as [[]|]; try done; lia. }
  split_and!; try done.
  - by rewrite Hsame.
  - exists (Some i). split; [done|]. intros i' [= <-]. split; [done|].
    split_and!; [done|rewrite Hcw, decide_True by done; by eexists|].
    eexists. split_and!; [exact Hrow|done|done].
  - intros h' ??. rewrite Hsame. by apply Hother.
  - by rewrite Hsame.
  - by exists oi.
  - by rewrite Hsame.
Qed.

(** The rows a tip update may write. *)
Definition tip_rows (h : bytes) : list (string * bytes) :=
  [(index_tree, h); (index_tree, SEQUENCE_COUNTER_KEY); (work_t, h); (chainwork_t, h); (chain_info_t, k_current)].
Lemma update_tip_rows h hd hgt db db' :
  update_tip h hd hgt db = (db', Ok tt) →
  get_work h db' = Some (calculate_work_from_bits (bits hd)) ∧
  ∀ t k, (t, k) ∉ tip_rows h → tree_get t k db' = tree_get t k db.
Proof.
  unfold update_tip, bind, reads, modify. destruct (update_tip_ops h hd hgt db) as [ops|] eqn:Hops; [|done].
  intros [= <-]. unfold update_tip_ops in Hops. apply rbind_inv_ok in Hops as (pi & _ & Hops).
  apply rbind_inv_ok in Hops as (cw & _ & Hops). apply rbind_inv_ok in Hops as (oi & _ & Hops).
  match type of Hops with Ok ?l = _ => assert (ops = l) as -> by congruence end. clear Hops. split.
  - rewrite commit_keyed_app, !commit_keyed_cons, commit_keyed_nil. cbn [apply_op].
    unfold get_work. rewrite !(tree_get_insert_ne _ _ _ work_t) by tree_ne. rewrite tree_get_insert_eq. apply decode_work_encode.
  - intros t k Hk. apply commit_keyed_other. intros Hin. apply Hk. unfold tip_rows. rewrite fmap_app in Hin.
    unfold prepared_ops in Hin. destruct (counter_bytes pi); cbn in Hin; set_solver.
Qed.

(** [C13] [update_tip] on every branch, row by row.  Without the parent's
    chainwork it reports the error and writes nothing.  Otherwise it succeeds and
    the invariants hold again; the tip record names the block, its header and its
    height and keeps the rest of the old record; the index row of the block is
    valid, at that height, under its parent, with the sequence id the block had or
    the next one; the counter moves only for a new block; its work is stored and
    its cumulative work is the parent's plus its own (saturating); and every row
    of every tree other than these five is as before. *)
Theorem update_tip_spec (h : bytes) (hd : BlockHeader) (hgt : Z) (db : database) :
  index_inv db → tip_inv db → is_hash h → h ≠ SEQUENCE_COUNTER_KEY → header_ok hd →
  is_u64 hgt → read_counter db < u64_max →
  match parent_work hd hgt db with
  | None => update_tip h hd hgt db = (db, Err "parent chainwork is absent")
  | Some p =>
      ∃ db' cw, update_tip h hd hgt db = (db', Ok tt) ∧ index_inv db' ∧ tip_inv db' ∧
        (∃ oi, load_chain_info db = Ok oi ∧
           let old := default (mkInfo h hd hgt 0 default_params) oi in
           load_chain_info db' = Ok (Some (mkInfo h hd hgt (ci_total_work old) (ci_chain_params old)))) ∧
        (index_get h db = Ok None ∧
           index_get h db' = Ok (Some (mkEntry hgt (prev_block_hash hd) Valid (read_counter db + 1))) ∧
           read_counter db' = read_counter db + 1 ∨
         ∃ e, index_get h db = Ok (Some e) ∧
           index_get h db' = Ok (Some (mkEntry hgt (prev_block_hash hd) Valid (bi_sequence_id e))) ∧
           read_counter db' = read_counter db) ∧
        get_work h db' = Some (calculate_work_from_bits (bits hd)) ∧ get_chainwork h db' = Some cw ∧
        u256_val cw = Z.min (u256_val p + u256_val (calculate_work_from_bits (bits hd))) u256_max ∧
        (∀ t k, (t, k) ∉ tip_rows h → tree_get t k db' = tree_get t k db)
  end.
Proof.
  intros Hinv Htip Hh Hne Hhd Hg Hc. destruct (parent_work hd hgt db) as [p|] eqn:Hp;
    [|by apply update_tip_err].
  destruct (update_tip_ok h hd hgt db p) as
    (db' & i & Hrun & Hinv' & Htip' & Hl & _ & _ & _ & Hcw & _ & _ & Hrow & (oi & Hoi & ->) & Hcnt); try done.
  destruct (update_tip_rows _ _ _ _ _ Hrun) as [Hw Hframe].
  exists db', (u256_saturating_add p (calculate_work_from_bits (bits hd))).
  split_and!; try done.
  - by exists oi.
  - unfold tip_entry in Hrow. destruct (index_get_total h db Hinv Hne) as [En|(e & Ee & _)].
    + left. rewrite En in *. split_and!; [done| |done]. rewrite Hrow. do 3 f_equal.
      pose proof (read_counter_u64 db). unfold is_u64, peek_next_sequence_id, sat_add in *. lia.
    + right. exists e. by rewrite Ee in *.
  - by rewrite Hcw, decide_True.
  - apply u256_val_add.
Qed.

(** [C2] A crash during [update_tip] leaves a tip that can be resumed from: in
    every state a crash can leave, on either backend, the stored tip is the old
    one or the new one and has its index row and its cumulative work; on heed3
    the block index invariant holds as well. *)
Theorem update_tip_crash_safe (b : Backend) (h : bytes) (hd : BlockHeader) (hgt : Z)
    (db db' : database) (ops : list keyed_op) :
  index_inv db → tip_inv db → is_hash h → h ≠ SEQUENCE_COUNTER_KEY → header_ok hd →
  is_u64 hgt → read_counter db < u64_max →
  (∀ i, load_chain_info db = Ok (Some i) → ci_tip_hash i = h →
        hgt = ci_height i ∧ prev_block_hash hd = prev_block_hash (ci_tip_header i)) →
  update_tip_ops h hd hgt db = Ok ops → db' ∈ crash_states b ops db →
  tip_inv db' ∧
  (get_tip_hash db' = get_tip_hash db ∨ get_tip_hash db' = Ok (Some h)) ∧
  (b = Heed3 → index_inv db').
Proof.
  intros Hinv Htip Hh Hne Hhd Hg Hc Hagree Hops Hin.
  destruct (parent_work hd hgt db) as [p|] eqn:Hp.
  2: { exfalso. pose proof (update_tip_err h hd hgt db Hinv Hne Hp) as He.
       unfold update_tip, bind, reads in He. by rewrite Hops in He. }
  destruct (update_tip_ops_run h hd hgt db p Hinv Htip Hne Hp)
    as (pi & oi & _ & _ & Hops' & Hfront).
  destruct (update_tip_ok h hd hgt db p) as
    (dbf & i & Hrun & Hinvf & Htipf & Hl & Hih & _); try done.
  unfold update_tip, bind, reads in Hrun. rewrite Hops in Hrun. unfold modify in Hrun.
  assert (commit_keyed ops db = dbf) as Hdbf by congruence. clear Hrun.
  assert (get_tip_hash dbf = Ok (Some h)) as Htf
    by (unfold get_tip_hash; rewrite Hl; cbn; by rewrite Hih).
  assert (∀ d, d = db ∨ d = dbf → tip_inv d ∧
    (get_tip_hash d = get_tip_hash db ∨ get_tip_hash d = Ok (Some h)) ∧ index_inv d) as Hends
    by (intros d [-> | ->]; auto).
  destruct b.
  { rewrite crash_states_heed3, Hdbf, !elem_of_cons, elem_of_nil in Hin.
    destruct (Hends db') as (? & ? & ?); tauto. }
  apply elem_of_crash_states in Hin as (n & Hn & ->).
  destruct (decide (n = length ops)) as [->|Hlt].
  { rewrite take_ge, Hdbf by lia. destruct (Hends dbf) as (? & ? & ?); tauto. }
  rewrite Hops in Hops'. match type of Hops' with _ = Ok ?l => assert (ops = l) as -> by congruence end.
  match type of Hfront with Forall _ ?f => set (front := f) in * end.
  rewrite length_app in Hn, Hlt. cbn [length] in Hn, Hlt.
  rewrite take_app_le by lia.
  destruct (tip_ops_inv h (tip_entry h hd hgt db) (take n front) db) as [Hinv' Hload];
    [by apply Forall_take|by apply tip_entry_ok|done|done|done|].
  unfold get_tip_hash. rewrite Hload. split_and!; [done|by left|done].
Qed.

(** Connecting a run of blocks, one [update_tip] each. *)
Fixpoint connect_all (blocks : list (bytes * BlockHeader * Z)) : M database unit :=
  match blocks with
  | [] => ret tt
  | (h, hd, hgt) :: rest => update_tip h hd hgt ;; connect_all rest
  end.

(** Consecutive heights and parent links, from a parent at height [hgt]. *)
Fixpoint linked_run (parent : bytes) (hgt : Z) (blocks : list (bytes * BlockHeader * Z)) : Prop :=
  match blocks with
  | [] => True
  | (h, hd, g) :: rest =>
      prev_block_hash hd = parent ∧ g = hgt + 1 ∧ linked_run h g rest
  end.

Definition block_ok (x : bytes * BlockHeader * Z) : Prop :=
  is_hash x.1.1 ∧ x.1.1 ≠ SEQUENCE_COUNTER_KEY ∧ header_ok x.1.2 ∧ is_u64 x.2.

Definition run_work (blocks : list (bytes * BlockHeader * Z)) : Z :=
  foldr (λ x acc, u256_val (calculate_work_from_bits (bits x.1.2)) + acc) 0 blocks.

Lemma run_work_nonneg blocks : 0 ≤ run_work blocks.
Proof.
  induction blocks as [|x blocks IH]; [done|]. cbn [run_work foldr].
  pose proof (u256_val_range (calculate_work_from_bits (bits x.1.2))). unfold run_work in IH. lia.
Qed.

Lemma last_cons_default {A} (a d : A) l : List.last (a :: l) d = List.last l a.
Proof.
  revert a d. induction l as [|b l IH]; intros a d; [done|].
  change (List.last (b :: l) d = List.last (b :: l) a). by rewrite !IH.
Qed.

(** [C14] Cumulative work is the sum of the block proofs: connecting a linked run
    of blocks on a parent whose work is known succeeds, ends at the last block,
    and records for it the parent's work plus the proofs of the run, saturating
    at 256 bits. *)
Theorem connect_all_chainwork (parent : bytes) (hgt : Z) (pw : U256)
    (blocks : list (bytes * BlockHeader * Z)) (db : database) :
  index_inv db → tip_inv db → 0 ≤ hgt → get_chainwork parent db = Some pw →
  linked_run parent hgt blocks → Forall block_ok blocks →
  read_counter db + Z.of_nat (length blocks) ≤ u64_max →
  ∃ db' w, connect_all blocks db = (db', Ok tt) ∧ index_inv db' ∧ tip_inv db' ∧
    (blocks ≠ [] → get_tip_hash_and_height db' =
       Ok (List.last (blocks.*1.*1) parent, hgt + Z.of_nat (length blocks))) ∧
    get_chainwork (List.last (blocks.*1.*1) parent) db' = Some w ∧
    u256_val w = Z.min (u256_val pw + run_work blocks) u256_max.
Proof.
  revert parent hgt pw db. induction blocks as [|[[h hd] g] rest IH];
    intros parent hgt pw db Hinv Htip Hg Hpw Hlink Hok Hc.
  { exists db, pw. split_and!; try done. pose proof (u256_val_range pw). cbn. lia. }
  destruct Hlink as (Hprev & -> & Hlink). apply Forall_cons in Hok as [(Hh & Hne & Hhd & Hg') Hok].
  cbn [fst snd length] in *.
  assert (parent_work hd (hgt + 1) db = Some pw) as Hp
    by (unfold parent_work; rewrite bool_decide_eq_true_2 by lia; by rewrite Hprev).
  destruct (update_tip_ok h hd (hgt + 1) db pw) as
    (db1 & i & Hrun & Hinv1 & Htip1 & Hl & Hih & _ & Hig & Hcw & _ & Hc1 & _); try done; [lia|].
  destruct (IH h (hgt + 1) (u256_saturating_add pw (calculate_work_from_bits (bits hd))) db1)
    as (db' & w & Hrun' & Hinv' & Htip' & Hend & Hw & Hval); try done; [lia| |lia|].
  { by rewrite Hcw, decide_True. }
  exists db', w. cbn [connect_all fmap list_fmap fst snd]. rewrite last_cons_default.
  split_and!; try done.
  - unfold bind. by rewrite Hrun.
  - intros _. destruct rest as [|x rest].
    + cbn in Hrun'. injection Hrun' as <-. unfold get_tip_hash_and_height. rewrite Hl. cbn.
      by rewrite Hih, Hig.
    + rewrite Hend by done. do 2 f_equal. lia.
  - rewrite Hval, u256_val_add. cbn [run_work foldr fst snd].
    pose proof (run_work_nonneg rest). unfold run_work in *. lia.
Qed.

(** The reference for the batch: one [index_connected_block] per block. *)
Fixpoint index_each (blocks : list (bytes * BlockHeader * Z)) : M database unit :=
  match blocks with
  | [] => ret tt
  | (h, hd, hgt) :: rest => index_connected_block h hd hgt ;; index_each rest
  end.

(** A block that is new to the index and not marked invalid. *)
Definition new_block (db : database) (x : bytes * BlockHeader * Z) : Prop :=
  fresh_entry db (x.1.1, x.2, prev_block_hash x.1.2) ∧ is_invalid x.1.1 db = false.

(** An index insert reads and writes the index tree only. *)
Lemma index_insert_commit h hgt prev s ops db :
  Forall (λ op, op.1.1 ≠ index_tree) ops →
  index_insert h hgt prev s (commit_keyed ops db) =
  (commit_keyed ops (index_insert h hgt prev s db).1, (index_insert h hgt prev s db).2).
Proof.
  intros Hops. pose proof (same_tree_keyed index_tree ops db Hops) as Hs.
  assert (index_prepare_insert h hgt prev s (commit_keyed ops db) =
          index_prepare_insert h hgt prev s db) as Hp.
  { unfold index_prepare_insert, peek_next_sequence_id.
    by rewrite (index_get_proper h h eq_refl _ _ Hs), (read_counter_proper _ _ Hs). }
  unfold index_insert. rewrite Hp. destruct (index_prepare_insert h hgt prev s db) as [p|e]; [|done].
  cbn [fst snd]. f_equal. symmetry. apply commit_keyed_comm_trees. intros op1 op2 H1 H2 Heq.
  rewrite Forall_forall in Hops. apply (Hops op2 H2). rewrite <-Heq.
  unfold prepared_ops in H1. destruct (counter_bytes p);
    rewrite !elem_of_cons, elem_of_nil in H1; destruct_or!; by subst.
Qed.

Lemma index_insert_same t h hgt prev s db :
  t ≠ index_tree → same_tree t (index_insert h hgt prev s db).1 db.
Proof.
  intros Hne. unfold index_insert. destruct (index_prepare_insert h hgt prev s db) as [p|]; [|done].
  cbn [fst]. apply same_tree_keyed. unfold prepared_ops.
  destruct (counter_bytes p); rewrite !Forall_cons, Forall_nil; cbn; auto.
Qed.

Lemma insert_each_commit entries ops db :
  Forall (λ op, op.1.1 ≠ index_tree) ops →
  (insert_each entries (commit_keyed ops db)).1 = commit_keyed ops (insert_each entries db).1 ∧
  (insert_each entries (commit_keyed ops db)).2 = (insert_each entries db).2.
Proof.
  intros Hops. revert db. induction entries as [|[[h hgt] prev] rest IH]; intros db; [done|].
  cbn [insert_each]. unfold bind. rewrite index_insert_commit by done.
  destruct (index_insert h hgt prev Valid db) as [db1 [[]|e]]; cbn [fst snd]; [apply IH|done].
Qed.

Definition work_ops (rows : list (bytes * U256 * U256)) : list keyed_op :=
  (λ r, (work_t, r.1.1, Some (u256_to_be_bytes r.1.2))) <$> rows.
Definition chainwork_ops (rows : list (bytes * U256 * U256)) : list keyed_op :=
  (λ r, (chainwork_t, r.1.1, Some (u256_to_be_bytes r.2))) <$> rows.

Lemma work_ops_trees rows : Forall (λ op : keyed_op, op.1.1 = work_t) (work_ops rows).
Proof. unfold work_ops. apply Forall_fmap, Forall_true. done. Qed.
Lemma chainwork_ops_trees rows : Forall (λ op : keyed_op, op.1.1 = chainwork_t) (chainwork_ops rows).
Proof. unfold chainwork_ops. apply Forall_fmap, Forall_true. done. Qed.

Lemma cache_block_chainwork_run h hd hgt db p :
  parent_work hd hgt db = Some p →
  cache_block_chainwork h hd hgt db =
  (commit_keyed [(work_t, h, Some (u256_to_be_bytes (calculate_work_from_bits (bits hd))));
     (chainwork_t, h, Some (u256_to_be_bytes
        (u256_saturating_add p (calculate_work_from_bits (bits hd)))))] db, Ok tt).
Proof.
  intros Hp. unfold cache_block_chainwork, bind, reads. rewrite chainwork_for_header_eq, Hp. done.
Qed.

(** One block of the reference, written as an index insert and two rows. *)
Lemma index_connected_block_run h hd hgt db db1 p :
  is_invalid h db = false → index_insert h hgt (prev_block_hash hd) Valid db = (db1, Ok tt) →
  parent_work hd hgt db = Some p →
  index_connected_block h hd hgt db =
  (commit_keyed [(work_t, h, Some (u256_to_be_bytes (calculate_work_from_bits (bits hd))));
     (chainwork_t, h, Some (u256_to_be_bytes
        (u256_saturating_add p (calculate_work_from_bits (bits hd)))))] db1, Ok tt).
Proof.
  intros Hv Hrun Hp. unfold index_connected_block, record_connected_block, bind, gets.
  rewrite Hv, Hrun. apply cache_block_chainwork_run. rewrite <-Hp.
  unfold parent_work. case_bool_decide; [|done].
  replace db1 with (index_insert h hgt (prev_block_hash hd) Valid db).1 by by rewrite Hrun.
  apply get_chainwork_proper, index_insert_same; [done|]. auto with node.
Qed.

#[local] Instance is_invalid_proper : Proper (eq ==> same_tree invalid_t ==> eq) is_invalid.
Proof.
  intros h ? <- db db' Hs. unfold is_invalid, tree_contains_key.
  change (db !! (invalid_t, h)) with (tree_get invalid_t h db).
  change (db' !! (invalid_t, h)) with (tree_get invalid_t h db'). by rewrite Hs.
Qed.

(** Connecting one block leaves the others new. *)
Lemma new_block_after h hgt prev ops db x :
  x.1.1 ≠ h →
  (∀ h', h' ≠ h → h' ≠ SEQUENCE_COUNTER_KEY →
         index_get h' (index_insert h hgt prev Valid db).1 = index_get h' db) →
  Forall (λ op, op.1.1 = work_t ∨ op.1.1 = chainwork_t) ops →
  new_block db x → new_block (commit_keyed ops (index_insert h hgt prev Valid db).1) x.
Proof.
  intros Hx Hother Hops ((Hh & Hne & Hg & Hp & Hnone) & Hval). cbn [fst snd] in *.
  assert (∀ t, t ≠ work_t → t ≠ chainwork_t → ∀ db', same_tree t (commit_keyed ops db') db') as Hs.
  { intros t Hw Hc db'. apply same_tree_keyed. eapply Forall_impl; [exact Hops|].
    intros op [-> | ->]; auto. }
  unfold new_block, fresh_entry; cbn [fst snd]. split_and!; try done.
  - rewrite (index_get_proper x.1.1 x.1.1 eq_refl _ _ (Hs index_tree ltac:(tree_ne) ltac:(tree_ne) _)).
    by rewrite Hother.
  - rewrite (is_invalid_proper x.1.1 x.1.1 eq_refl _ _ (Hs invalid_t ltac:(tree_ne) ltac:(tree_ne) _)).
    rewrite (is_invalid_proper x.1.1 x.1.1 eq_refl _ _
               (index_insert_same invalid_t h hgt prev Valid db ltac:(tree_ne))). done.
Qed.

(** The reference, reordered by tree: all work rows, all chainwork rows, then
    the index inserts. *)
Lemma index_each_run parent hgt base blocks db :
  index_inv db → Forall (new_block db) blocks → NoDup (blocks.*1.*1) →
  read_counter db + Z.of_nat (length blocks) ≤ u64_max →
  linked_run parent hgt blocks →
  match blocks with (_, hd, g) :: _ => parent_work hd g db = Some base | [] => True end →
  0 ≤ hgt + 1 →
  index_each blocks db =
  insert_each ((λ e, (e.1.1, e.2, prev_block_hash e.1.2)) <$> blocks)
    (commit_keyed (chainwork_ops (chainwork_rows base blocks))
       (commit_keyed (work_ops (chainwork_rows base blocks)) db)).
Proof.
  revert parent hgt base db. induction blocks as [|[[h hd] g] rest IH];
    intros parent hgt base db Hinv Hnew Hnd Hc Hlink Hbase Hpos; [done|].
  apply Forall_cons in Hnew as [((Hh & Hne & Hg & Hp & Hnone) & Hval) Hnew].
  destruct Hlink as (Hprev & -> & Hlink). cbn [fst snd length fmap list_fmap] in *.
  apply NoDup_cons in Hnd as [Hnin Hnd].
  destruct (index_insert_spec h (prev_block_hash hd) (hgt + 1) Valid db)
    as (db1 & Hrun & Hinv1 & _ & Hother & Hc1); try done; [lia|].
  cbn [index_each chainwork_rows work_ops chainwork_ops fmap list_fmap insert_each fst snd].
  set (w := calculate_work_from_bits (bits hd)). set (cw := u256_saturating_add base w).
  set (wop := (work_t, h, Some (u256_to_be_bytes w)) : keyed_op).
  set (cop := (chainwork_t, h, Some (u256_to_be_bytes cw)) : keyed_op).
  set (W := work_ops (chainwork_rows cw rest)). set (C := chainwork_ops (chainwork_rows cw rest)).
  change (_ <$> chainwork_rows cw rest) with W at 2.
  change (_ <$> chainwork_rows cw rest) with C.
  set (db2 := commit_keyed [wop; cop] db1).
  assert (same_tree index_tree db2 db1) as Hs2
    by (apply same_tree_keyed; rewrite !Forall_cons; cbn; auto with node).
  assert (index_connected_block h hd (hgt + 1) db = (db2, Ok tt)) as Hconn
    by by apply index_connected_block_run.
  unfold bind at 1. rewrite Hconn.
  assert (db1 = (index_insert h (hgt + 1) (prev_block_hash hd) Valid db).1) as Hdb1
    by by rewrite Hrun.
  rewrite (IH h (hgt + 1) cw db2); try done; try lia.
  - unfold bind. rewrite <-(commit_keyed_app (wop :: W) (cop :: C) db), index_insert_commit.
    2: { rewrite Forall_app, !Forall_cons. split_and!; cbn; auto with node;
         (eapply Forall_impl; [apply work_ops_trees || apply chainwork_ops_trees|]);
         intros op ->; auto with node. }
    rewrite Hrun. cbn [fst snd]. f_equal. fold W C.
    rewrite commit_keyed_app. unfold db2. rewrite !commit_keyed_cons, commit_keyed_nil.
    f_equal. apply commit_keyed_apply_comm_list. rewrite list_elem_of_fmap.
    intros (op & Heq & Hin). pose proof (work_ops_trees (chainwork_rows cw rest)) as Hw.
    rewrite Forall_forall in Hw. specialize (Hw op Hin). rewrite <-Heq in Hw.
    by vm_compute in Hw.
  - by rewrite Hs2.
  - apply Forall_forall. intros x Hx. unfold db2. rewrite Hdb1. apply new_block_after.
    + intros Heq. apply Hnin. rewrite <-Heq. by do 2 apply list_elem_of_fmap_2.
    + rewrite <-Hdb1. apply Hother.
    + rewrite !Forall_cons; cbn; auto.
    + by apply (proj1 (Forall_forall _ _) Hnew).
  - rewrite Hs2. lia.
  - destruct rest as [|[[h2 hd2] g2] rest]; [done|]. destruct Hlink as (Hp2 & -> & _).
    unfold parent_work. rewrite bool_decide_eq_true_2 by lia. rewrite Hp2.
    unfold db2. rewrite !commit_keyed_cons. cbn [commit_keyed foldl apply_op cop].
    rewrite get_chainwork_put. by rewrite decide_True.
Qed.

Lemma index_connected_blocks_batch_run h hd g rest base db :
  batch_base hd g db = Ok base →
  let blocks := (h, hd, g) :: rest in
  let rows := chainwork_rows base blocks in
  index_connected_blocks_batch blocks db =
  insert_ibd_batch ((λ e, (e.1.1, e.2, prev_block_hash e.1.2)) <$> blocks)
    (commit_keyed (chainwork_ops rows) (commit_keyed (work_ops rows) db)).
Proof.
  intros Hb blocks rows. unfold index_connected_blocks_batch, bind, reads, modify.
  cbn [blocks]. rewrite Hb. fold blocks rows. unfold batch_commit.
  by rewrite <-!list_fmap_compose.
Qed.

(** [C15] The IBD batch writes exactly what block-by-block indexing writes: for a
    linked run of new, valid blocks on a parent of known work, the batched
    writer and one [index_connected_block] per block end in the same database. *)
Theorem index_connected_blocks_batch_equiv (parent : bytes) (hgt : Z)
    (blocks : list (bytes * BlockHeader * Z)) (db : database) :
  index_inv db → Forall (new_block db) blocks → NoDup (blocks.*1.*1) →
  read_counter db + Z.of_nat (length blocks) ≤ u64_max →
  linked_run parent hgt blocks → 0 ≤ hgt + 1 →
  (0 < hgt + 1 → is_Some (get_chainwork parent db)) →
  index_connected_blocks_batch blocks db = index_each blocks db ∧
  (index_connected_blocks_batch blocks db).2 = Ok tt.
Proof.
  intros Hinv Hnew Hnd Hc Hlink Hpos Hparent.
  destruct blocks as [|[[h hd] g] rest] eqn:Hb; [done|]. rewrite <-Hb in *.
  assert (∃ base, parent_work hd g db = Some base) as [base Hbase].
  { rewrite Hb in Hlink. destruct Hlink as (Hp & -> & _). unfold parent_work. rewrite Hp.
    case_bool_decide; [by apply Hparent|by eexists]. }
  assert (batch_base hd g db = Ok base) as Hbb.
  { unfold batch_base, parent_work in *. case_bool_decide; [|congruence].
    by rewrite Hbase. }
  rewrite (index_each_run parent hgt base) by (try done; by rewrite Hb).
  set (rows := chainwork_rows base blocks).
  set (idx := (λ e, (e.1.1, e.2, prev_block_hash e.1.2)) <$> blocks).
  set (db' := commit_keyed (chainwork_ops rows) (commit_keyed (work_ops rows) db)).
  assert (index_connected_blocks_batch blocks db = insert_ibd_batch idx db') as ->
    by (unfold db', rows, idx; rewrite Hb; by apply index_connected_blocks_batch_run).
  assert (same_tree index_tree db' db) as Hs.
  { unfold db'. transitivity (commit_keyed (work_ops rows) db); apply same_tree_keyed;
      (eapply Forall_impl; [apply work_ops_trees || apply chainwork_ops_trees|]);
      intros op ->; auto with node. }
  destruct (insert_ibd_batch_each idx db') as [Heq _].
  - by rewrite Hs.
  - unfold idx. apply Forall_fmap. eapply Forall_impl; [exact Hnew|].
    intros x [(? & ? & ? & ? & Hget) _]. unfold fresh_entry; cbn in *. by rewrite Hs.
  - unfold idx. rewrite <-list_fmap_compose. by rewrite <-list_fmap_compose in Hnd.
  - unfold idx. rewrite Hs, length_fmap. done.
  - split; [done|]. unfold insert_ibd_batch. by destruct idx.
Qed.

(** *** Checkpoint rows *)

Lemma read_u64_row_put k v k' db :
  is_u64 v →
  read_u64_row k' (tree_insert chain_info_t k (to_be 8 v) db) =
  if decide (k = k') then Some v else read_u64_row k' db.
Proof.
  intros Hv. unfold read_u64_row.
  destruct (decide (k = k')) as [->|Hne]; [|by rewrite tree_get_insert_ne by congruence].
  rewrite tree_get_insert_eq.
  rewrite bool_decide_eq_false_2 by (rewrite length_to_be; lia).
  rewrite take_ge by (rewrite length_to_be; lia). by rewrite of_to_be_u64.
Qed.
Lemma read_u64_row_range k db v : read_u64_row k db = Some v → is_u64 v.
Proof.
  unfold read_u64_row, is_u64. destruct (tree_get _ _ _) as [d|]; [|done].
  case_bool_decide as Hlen; [done|]. intros [= <-]. pose proof (of_be_range (take 8 d)) as Hr.
  rewrite length_take in Hr. replace (8 `min` length d)%nat with 8%nat in Hr by lia. done.
Qed.
Lemma default_row_range k db : is_u64 (default 0 (read_u64_row k db)).
Proof.
  destruct (read_u64_row k db) eqn:E; [|done]. by apply read_u64_row_range in E.
Qed.

(** What the checkpoint functions see of ["chain_info"] after a batch. *)
Lemma chain_batch_cons k v ops db :
  batch_commit chain_info_t ((k, Some v) :: ops) db =
  batch_commit chain_info_t ops (tree_insert chain_info_t k v db).
Proof. done. Qed.
Lemma chain_batch_nil db : batch_commit chain_info_t [] db = db.
Proof. done. Qed.
Lemma get_height_row k v db :
  k ≠ k_current → get_height (tree_insert chain_info_t k v db) = get_height db.
Proof. intros. unfold get_height. by rewrite load_chain_info_row. Qed.

Lemma k_ckpt_height_cases slot :
  k_ckpt_height slot = bstr "ibd_engine_ckpt_height_0" ∨
  k_ckpt_height slot = bstr "ibd_engine_ckpt_height_1".
Proof. unfold k_ckpt_height. case_bool_decide; auto. Qed.
Lemma k_ckpt_height_flip slot : k_ckpt_height slot ≠ k_ckpt_height (slot + 1).
Proof.
  assert (∀ z, Z.land z 1 = z mod 2) as Hl by (intros z; apply (Z.land_ones z 1); lia).
  unfold k_ckpt_height. rewrite !Hl.
  repeat case_bool_decide; auto with node; exfalso; Z.to_euclidean_division_equations; lia.
Qed.
End Theorems.

(** Resolve reads of ["chain_info"] rows through a list of writes. *)
Ltac rows :=
  repeat first
    [ rewrite chain_batch_nil | rewrite chain_batch_cons
    | rewrite tree_get_insert_eq
    | rewrite tree_get_insert_ne by auto with node
    | rewrite load_chain_info_row by auto with node
    | rewrite get_height_row by auto with node
    | rewrite read_u64_row_put by assumption
    | rewrite decide_True by done
    | rewrite decide_False by auto with node ].

Section Checkpoints.
Context {O : U256Ops} {OL : U256Laws O} {K : Consensus} {KL : ConsensusLaws K}.
Context {EC : Codec BlockIndexEntry} {EL : CodecLaws BlockIndexEntry entry_ok}.
Context {IC : Codec ChainInfo} {IL : CodecLaws ChainInfo info_ok}.

Lemma read_muhash_row_eq k db mh :
  tree_get chain_info_t k db = Some mh → length mh = MUHASH_RUNNING_STATE_BYTES →
  read_muhash_row k db = Some mh.
Proof. intros Hg Hl. unfold read_muhash_row. rewrite Hg. by rewrite bool_decide_eq_true_2. Qed.

Lemma ckpt_slot_row slot db :
  tree_get chain_info_t k_ckpt_slot db = Some [z2b (Z.land slot 1)] →
  get_engine_ckpt_slot db = Z.land slot 1.
Proof.
  intros Hg. unfold get_engine_ckpt_slot. rewrite Hg.
  assert (∀ z, Z.land z 1 = z mod 2) as Hl by (intros z; apply (Z.land_ones z 1); lia).
  rewrite !Hl, b2z_z2b by (pose proof (Z.mod_pos_bound slot 2); lia).
  apply Z.mod_mod. lia.
Qed.

(** The rows after the seven unconditional writes of a checkpoint. *)
Lemma checkpoint_rows hgt slot count wall mh db :
  is_u64 hgt → is_u64 count → is_u64 wall → length mh = MUHASH_RUNNING_STATE_BYTES →
  let db' := batch_commit chain_info_t
    [(k_muhash, Some mh); (k_export_height, Some (to_be 8 hgt));
     (k_ckpt_slot, Some [z2b (Z.land slot 1)]); (k_ckpt_height slot, Some (to_be 8 hgt));
     (k_export_count, Some (to_be 8 count)); (k_export_wall_secs, Some (to_be 8 wall));
     (k_export_muhash, Some mh)] db in
  get_height db' = get_height db ∧ get_ibd_utxo_muhash_running db' = Some mh ∧
  get_engine_export_height db' = Some hgt ∧
  get_engine_ckpt_slot db' = Z.land slot 1 ∧
  get_engine_ckpt_slot_height slot db' = hgt ∧
  get_engine_ckpt_slot_height (slot + 1) db' = get_engine_ckpt_slot_height (slot + 1) db ∧
  get_engine_export_utxo_count db' = Some count ∧
  get_engine_export_wall_secs db' = Some wall ∧
  get_engine_export_muhash db' = Some mh ∧
  get_utxo_watermark db' = get_utxo_watermark db ∧
  get_engine_prev_accepted_utxo_count db' = get_engine_prev_accepted_utxo_count db.
Proof.
  intros Hh Hc Hw Hm db'. pose proof (k_ckpt_height_flip slot) as Hflip.
  unfold db', get_engine_ckpt_slot_height, get_engine_export_height, get_engine_export_utxo_count,
    get_engine_export_wall_secs, get_utxo_watermark, get_engine_prev_accepted_utxo_count,
    read_u64_row.
  destruct (k_ckpt_height_cases slot) as [Hs|Hs];
    destruct (k_ckpt_height_cases (slot + 1)) as [Hs1|Hs1]; rewrite ?Hs, ?Hs1 in *; try done;
    split_and!;
    first [ apply read_muhash_row_eq; [by rows|done] | apply ckpt_slot_row; by rows
          | rows; rewrite ?bool_decide_eq_false_2 by (rewrite length_to_be; lia);
            rewrite ?take_ge by (rewrite length_to_be; lia); by rewrite ?of_to_be_u64 ].
Qed.

Lemma checkpoint_complete_run hgt slot count wall mh tip db :
  get_height db = Ok tip →
  persist_engine_checkpoint_complete hgt slot count wall mh db =
  (if bool_decide (default 0 (get_engine_export_height db) < hgt ≤ default 0 tip)
   then batch_commit chain_info_t (checkpoint_batch hgt slot count wall mh
          (default 0 (get_engine_export_utxo_count db)) (default 0 (get_utxo_watermark db))) db
   else tree_insert chain_info_t k_muhash mh db, Ok tt).
Proof.
  intros Htip. unfold persist_engine_checkpoint_complete, bind, gets, lift. cbn [id].
  rewrite Htip. repeat case_bool_decide; try lia; done.
Qed.

(** [C16] [persist_engine_checkpoint_complete] on every branch.  A checkpoint above
    the durable tip, or not above the durable export, refreshes the MuHash row and
    changes no other row.  Otherwise height, slot, slot height, count, duration
    and export MuHash all describe the new checkpoint, the other slot keeps its
    height, the watermark becomes at least the height, and the replaced count is
    kept as the previous accepted count when it was positive. *)
Theorem checkpoint_complete_spec (hgt slot count wall : Z) (mh : bytes) (tip : option Z)
    (db : database) :
  get_height db = Ok tip → is_u64 hgt → is_u64 count → is_u64 wall →
  length mh = MUHASH_RUNNING_STATE_BYTES →
  let r := persist_engine_checkpoint_complete hgt slot count wall mh db in
  let db' := r.1 in
  r.2 = Ok tt ∧ get_height db' = Ok tip ∧ get_ibd_utxo_muhash_running db' = Some mh ∧
  if bool_decide (default 0 (get_engine_export_height db) < hgt ≤ default 0 tip) then
    get_engine_export_height db' = Some hgt ∧
    get_engine_ckpt_slot db' = Z.land slot 1 ∧
    get_engine_ckpt_slot_height slot db' = hgt ∧
    get_engine_ckpt_slot_height (slot + 1) db' = get_engine_ckpt_slot_height (slot + 1) db ∧
    get_engine_export_utxo_count db' = Some count ∧
    get_engine_export_wall_secs db' = Some wall ∧
    get_engine_export_muhash db' = Some mh ∧
    default 0 (get_utxo_watermark db') = Z.max hgt (default 0 (get_utxo_watermark db)) ∧
    get_engine_prev_accepted_utxo_count db' =
      (if bool_decide (0 < default 0 (get_engine_export_utxo_count db))
       then get_engine_export_utxo_count db else get_engine_prev_accepted_utxo_count db)
  else ∀ k, k ≠ k_muhash → tree_get chain_info_t k db' = tree_get chain_info_t k db.
Proof.
  intros Htip Hh Hcnt Hw Hmh r db'.
  pose proof (default_row_range k_watermark db) as Hwm.
  pose proof (default_row_range k_export_count db) as Hpc.
  fold (get_engine_export_utxo_count db) in Hpc.
  subst db' r. rewrite (checkpoint_complete_run _ _ _ _ _ tip) by done. cbn [fst snd].
  case_bool_decide as Hin; (split; [done|]).
  - unfold checkpoint_batch. rewrite !batch_commit_app.
    match goal with |- context [batch_commit _ [_; _; _; _; _; _; _] ?d] =>
      destruct (checkpoint_rows hgt slot count wall mh d)
        as (Eh & Em & Ee & Es & Esh & Esf & Ec & Ew & Ex & Ewm & Ep); try done end.
    split; [rewrite Eh|split; [done|]].
    + do 2 case_bool_decide; by rows.
    + split_and!; try done.
      * rewrite Esf. unfold get_engine_ckpt_slot_height, read_u64_row.
        destruct (k_ckpt_height_cases (slot + 1)) as [-> | ->];
          do 2 case_bool_decide; by rows.
      * rewrite Ewm. unfold get_utxo_watermark in *.
        do 2 case_bool_decide; rows; unfold is_u64 in *; cbn [from_option];
          change (id hgt) with hgt; lia.
      * rewrite Ep. unfold get_engine_prev_accepted_utxo_count.
        do 2 case_bool_decide; rows; try done;
          destruct (get_engine_export_utxo_count db); cbn in *; by try lia.
  - split; [by rows|]. split; [apply read_muhash_row_eq; [by rows|done]|].
    intros k Hk. apply tree_get_insert_ne. congruence.
Qed.

(** *** Labels never pass the tip *)

(** The tip row decodes, and neither the watermark nor the export height is
    above the tip height. *)
Definition labels_ok (db : database) : Prop :=
  ∃ oi, load_chain_info db = Ok oi ∧ (∀ i, oi = Some i → info_ok i) ∧
    default 0 (get_utxo_watermark db) ≤ default 0 (ci_height <$> oi) ∧
    default 0 (get_engine_export_height db) ≤ default 0 (ci_height <$> oi).

(** Rows of ["chain_info"] that are no label. *)
Definition plain_row (k : bytes) : Prop :=
  k ≠ k_current ∧ k ≠ k_watermark ∧ k ≠ k_export_height.

Lemma labels_plain_row k v db :
  plain_row k → labels_ok db → labels_ok (tree_insert chain_info_t k v db).
Proof.
  intros (H1 & H2 & H3) (oi & Hl & Hi & Hw & He). exists oi.
  rewrite load_chain_info_row by done.
  unfold get_utxo_watermark, get_engine_export_height, read_u64_row in *.
  rewrite !tree_get_insert_ne by congruence. done.
Qed.
Lemma labels_plain_remove k db :
  plain_row k → labels_ok db → labels_ok (tree_remove chain_info_t k db).
Proof.
  intros (H1 & H2 & H3) (oi & Hl & Hi & Hw & He). exists oi.
  unfold load_chain_info, get_utxo_watermark, get_engine_export_height, read_u64_row in *.
  rewrite !tree_get_remove_ne by congruence. done.
Qed.
Lemma labels_put_watermark hgt db oi :
  load_chain_info db = Ok oi → hgt ≤ default 0 (ci_height <$> oi) → is_u64 hgt →
  labels_ok db → labels_ok (tree_insert chain_info_t k_watermark (to_be 8 hgt) db).
Proof.
  intros Hl' Hle Hu (oi' & Hl & Hi & Hw & He). assert (oi' = oi) as -> by congruence.
  exists oi. unfold get_utxo_watermark, get_engine_export_height in *. by rows.
Qed.
Lemma labels_put_export hgt db oi :
  load_chain_info db = Ok oi → hgt ≤ default 0 (ci_height <$> oi) → is_u64 hgt →
  labels_ok db → labels_ok (tree_insert chain_info_t k_export_height (to_be 8 hgt) db).
Proof.
  intros Hl' Hle Hu (oi' & Hl & Hi & Hw & He). assert (oi' = oi) as -> by congruence.
  exists oi. unfold get_utxo_watermark, get_engine_export_height in *. by rows.
Qed.

(** A height at or below the durable tip. *)
Definition below_tip (hgt : Z) (db : database) : Prop := ∀ tip, get_height db = Ok tip → hgt ≤ default 0 tip.

(** The operations that write labels, and the tip moving up.  Three of the
    writers do not look at the tip; their callers pass a height at or below it. *)
Inductive label_step (db : database) : database → Prop :=
| ls_watermark hgt : is_u64 hgt → below_tip hgt db → label_step db (set_utxo_watermark hgt db).1
| ls_force_watermark hgt : is_u64 hgt → below_tip hgt db → label_step db (force_set_ibd_utxo_watermark hgt db).1
| ls_force_export hgt : is_u64 hgt → below_tip hgt db → label_step db (force_set_engine_export_height hgt db).1
| ls_flush hgt mh : is_u64 hgt →
    label_step db (persist_ibd_utxo_flush_checkpoint hgt mh db).1
| ls_export hgt : is_u64 hgt → label_step db (persist_engine_export_height hgt db).1
| ls_complete hgt slot count wall mh : is_u64 hgt →
    label_step db (persist_engine_checkpoint_complete hgt slot count wall mh db).1
| ls_muhash mh : label_step db (persist_ibd_utxo_muhash_running_only mh db).1
| ls_validation_tip hgt : label_step db (persist_engine_validation_tip hgt db).1
| ls_slot slot : label_step db (force_set_engine_ckpt_slot slot db).1
| ls_slot_height slot hgt : label_step db (set_engine_ckpt_slot_height slot hgt db).1
| ls_canonical name : label_step db (set_ibd_utxo_canonical_tree name db).1
| ls_reset : label_step db (force_reset_engine_checkpoint_metadata db).1
| ls_update_tip h hd hgt db' :
    is_hash h → header_ok hd → is_u64 hgt →
    (∀ old, get_height db = Ok (Some old) → old ≤ hgt) →
    update_tip h hd hgt db = (db', Ok tt) → label_step db db'
| ls_snapshot_tip h hd hgt db' :
    header_ok hd → is_u64 hgt → (∀ old, get_height db = Ok (Some old) → old ≤ hgt) →
    set_snapshot_tip h hgt hd db = (db', Ok tt) → label_step db db'.

Lemma get_height_load db oi : load_chain_info db = Ok oi → get_height db = Ok (ci_height <$> oi).
Proof. intros Hl. unfold get_height. by rewrite Hl. Qed.

(** A successful [update_tip] writes one row of ["chain_info"]. *)
Lemma update_tip_chain_info h hd hgt db db' :
  update_tip h hd hgt db = (db', Ok tt) →
  ∃ oi, load_chain_info db = Ok oi ∧ ∀ k, tree_get chain_info_t k db' =
    tree_get chain_info_t k
      (tree_insert chain_info_t k_current (encode_row (tip_info h hd hgt oi)) db).
Proof.
  unfold update_tip, bind, reads, modify. destruct (update_tip_ops h hd hgt db) as [ops|] eqn:Hops;
    [|done]. intros [= <-]. unfold update_tip_ops in Hops.
  destruct (index_prepare_insert _ _ _ _ _) as [pi|]; [|done]. cbn [rbind] in Hops.
  destruct (chainwork_for_header _ _ _) as [cw|]; [|done]. cbn [rbind] in Hops.
  destruct (load_chain_info db) as [oi|]; [|done]. cbn [rbind] in Hops.
  match type of Hops with Ok ?l = _ => assert (ops = l) as -> by congruence end.
  exists oi. split; [done|]. intros k.
  rewrite (app_assoc (prepared_ops h pi) [_; _] [_] : prepared_ops h pi ++ [_; _; _] = _).
  rewrite commit_keyed_app, commit_keyed_cons, commit_keyed_nil. cbn [apply_op].
  rewrite !tree_get_insert. case_decide; [done|]. apply same_tree_keyed.
  unfold prepared_ops. destruct (counter_bytes pi);
    rewrite Forall_app, !Forall_cons; cbn; split_and!; auto with node.
Qed.

Ltac plain := unfold plain_row; split_and!; tree_ne.

Lemma labels_new_tip h hd hgt oi db db' :
  is_hash h → header_ok hd → is_u64 hgt →
  (∀ old, get_height db = Ok (Some old) → old ≤ hgt) → load_chain_info db = Ok oi →
  same_tree chain_info_t db' (tree_insert chain_info_t k_current (encode_row (tip_info h hd hgt oi)) db) →
  labels_ok db → labels_ok db'.
Proof.
  intros Hh Hhd Hu Hup Hl Hs (oi' & Hl' & Hi & Hw & He).
  assert (oi' = oi) as -> by congruence.
  assert (info_ok (tip_info h hd hgt oi)) as Hok.
  { unfold tip_info. destruct oi as [i|]; cbn.
    - destruct (Hi i eq_refl) as (_ & _ & _ & ? & ?). done.
    - split_and!; try done; apply default_params_ok. }
  exists (Some (tip_info h hd hgt oi)).
  rewrite (load_chain_info_proper _ _ Hs), load_chain_info_put by done.
  unfold get_utxo_watermark, get_engine_export_height, read_u64_row in *. rewrite !Hs. rows.
  assert (default 0 (ci_height <$> oi) ≤ hgt) as Hle.
  { destruct oi as [i|]; cbn; [|unfold is_u64 in Hu; lia]. apply Hup.
    by rewrite (get_height_load _ _ Hl). }
  split_and!; [done|by intros i [= <-]|..]; cbn [ci_height fmap option_fmap option_map tip_info];
    cbn [from_option] in *; change (id hgt) with hgt; lia.
Qed.
Lemma below_tip_load hgt db oi : below_tip hgt db → load_chain_info db = Ok oi → hgt ≤ default 0 (ci_height <$> oi).
Proof. intros Hb Hl. apply Hb. by apply get_height_load. Qed.

Lemma label_step_ok db db' : label_step db db' → labels_ok db → labels_ok db'.
Proof.
  intros Hstep Hok. pose proof Hok as (oi & Hl & _). pose proof (get_height_load _ _ Hl) as Hgh.
  destruct Hstep as [hgt Hu Hb|hgt Hu Hb|hgt Hu Hb|hgt mh Hu|hgt Hu|hgt slot count wall mh Hu|mh|hgt|slot|slot hgt|name| |h hd hgt db' Hh Hhd Hu Hup Hrun|h hd hgt db' Hhd Hu Hup Hrun].
  - pose proof (below_tip_load _ _ _ Hb Hl). unfold set_utxo_watermark, put_u64_row, bind, gets, modify, ret. cbn [id].
    case_bool_decide; [|done]. by apply (labels_put_watermark _ _ oi).
  - pose proof (below_tip_load _ _ _ Hb Hl). unfold force_set_ibd_utxo_watermark, put_u64_row, bind, modify, ret.
    case_bool_decide; cbn [fst]; [apply labels_plain_remove; [plain|]|]; by apply (labels_put_watermark _ _ oi).
  - pose proof (below_tip_load _ _ _ Hb Hl). by apply (labels_put_export _ _ oi).
  - unfold persist_ibd_utxo_flush_checkpoint, bind, gets, lift, modify, flush_batch. cbn [id].
    rewrite Hgh. cbn [fst].
    repeat case_bool_decide; cbn [app]; rewrite !chain_batch_cons, chain_batch_nil;
      (apply labels_plain_row; [plain|]); try done.
    apply (labels_put_watermark _ _ oi); [done|lia|done|done].
  - unfold persist_engine_export_height, put_u64_row, bind, gets, lift, modify, ret. cbn [id].
    rewrite Hgh. repeat case_bool_decide; try done. cbn [fst].
    apply (labels_put_export _ _ oi); [done|lia|done|done].
  - rewrite (checkpoint_complete_run _ _ _ _ _ _ _ Hgh). cbn [fst].
    case_bool_decide as Hin; [|by apply labels_plain_row; [plain|]].
    unfold checkpoint_batch. repeat case_bool_decide; cbn [app];
      rewrite !chain_batch_cons, chain_batch_nil;
      repeat (apply labels_plain_row;
        [destruct (k_ckpt_height_cases slot) as [-> | ->] || idtac; plain|]);
      (apply (labels_put_export _ _ oi); [by rows|lia|done|]);
      (apply labels_plain_row; [plain|]);
      try (apply (labels_put_watermark _ _ oi); [by rows|lia|done|]);
      try (apply labels_plain_row; [plain|]); done.
  - apply labels_plain_row; [plain|done].
  - unfold persist_engine_validation_tip, put_u64_row, bind, gets, modify, ret. cbn [id].
    case_bool_decide; [apply labels_plain_row; [plain|done]|done].
  - apply labels_plain_row; [plain|done].
  - apply labels_plain_row; [|done]. destruct (k_ckpt_height_cases slot) as [-> | ->]; plain.
  - unfold set_ibd_utxo_canonical_tree. destruct (is_ibd_utxo_tree_name name); [|done].
    apply labels_plain_row; [plain|done].
  - unfold force_reset_engine_checkpoint_metadata, modify. cbn [fst].
    unfold batch_commit. cbn [fmap list_fmap fst snd].
    rewrite !commit_keyed_cons, commit_keyed_nil. cbn [apply_op].
    do 2 (apply labels_plain_remove; [plain|]). do 3 (apply labels_plain_row; [plain|]).
    apply (labels_put_export _ _ oi); [done| |done|done].
    destruct Hok as (oi' & Hl' & Hi & _). assert (oi' = oi) as -> by congruence.
    destruct oi as [i|]; [|done]. destruct (Hi i eq_refl) as (_ & _ & Hh & _). apply Hh.
  - destruct (update_tip_chain_info _ _ _ _ _ Hrun) as (oi' & Hl' & Hs). by eapply (labels_new_tip h hd hgt oi').
  - unfold set_snapshot_tip, bind, reads, store_chain_info, modify in Hrun. case_bool_decide as Hhash; [done|].
    rewrite Hl in Hrun. injection Hrun as <-. eapply (labels_new_tip h hd hgt oi); try done.
    rewrite <-Hhash. apply hash256_length.
Qed.

(** [C17] No label passes the tip: along any sequence of the writes to the rows
    of the download (flushes, exports, checkpoints, slots, resets), of the three
    unguarded label writers at heights at or below the tip, and of tip changes
    that do not lower the height, the UTXO watermark and the engine export height
    stay at or below the durable tip. *)
Theorem labels_never_pass_tip (db db' : database) :
  labels_ok db → rtc label_step db db' → labels_ok db'.
Proof. intros Hok Hsteps. eapply rtc_invariant; eauto using label_step_ok. Qed.
End Checkpoints.

Section Invalid.
Context {O : U256Ops} {OL : U256Laws O} {K : Consensus} {KL : ConsensusLaws K}.
Context {EC : Codec BlockIndexEntry} {EL : CodecLaws BlockIndexEntry entry_ok}.
Context {IC : Codec ChainInfo} {IL : CodecLaws ChainInfo info_ok}.

Lemma is_invalid_get h db : is_invalid h db = bool_decide (is_Some (tree_get invalid_t h db)).
Proof. done. Qed.

(** The two status writers, as writes of the invalid row and of the index row. *)
Lemma status_write_run (h : bytes) (row : option bytes) (s : BlockIndexStatus) (only : bool)
    (db : database) :
  index_inv db → h ≠ SEQUENCE_COUNTER_KEY →
  ∃ r db', serialized_with_status h s only db = Ok r ∧
    commit_keyed ((invalid_t, h, row) :: status_ops h r) db = db' ∧
    index_inv db' ∧
    index_get h db' = Ok (match index_get h db with
                          | Ok (Some e) => Some (with_status s e)
                          | _ => None
                          end) ∧
    (∀ h', h' ≠ h → index_get h' db' = index_get h' db) ∧
    (∀ h', is_invalid h' db' =
       if decide (h = h') then bool_decide (is_Some row) else is_invalid h' db) ∧
    (∀ t, t ≠ invalid_t → t ≠ index_tree → same_tree t db' db).
Proof.
  intros Hinv Hne. set (db1 := apply_op (invalid_t, h, row) db).
  assert (same_tree index_tree db1 db) as Hs1 by (apply same_tree_op; auto with node).
  assert (∀ h', is_invalid h' db1 =
            if decide (h = h') then bool_decide (is_Some row) else is_invalid h' db) as Hiv1.
  { intros h'. rewrite !is_invalid_get. unfold db1. destruct row; cbn [apply_op];
      rewrite ?tree_get_insert, ?tree_get_remove; repeat case_decide; simplify_eq; done. }
  assert (∀ t, t ≠ invalid_t → same_tree t db1 db) as Ht1 by (intros; by apply same_tree_op).
  assert (index_inv db1) as Hinv1 by by rewrite Hs1.
  assert (∀ h', index_get h' db1 = index_get h' db) as Hg1 by (intros h'; by rewrite Hs1).
  unfold serialized_with_status.
  destruct (index_get_total h db Hinv Hne) as [Hn|(e & Hg & He & Hh & _)].
  - rewrite Hn. exists None, db1.
    split_and!; auto. by rewrite Hg1.
  - rewrite Hg. cbn [rbind].
    assert (entry_ok (with_status s e)) as He' by by destruct He as (? & ? & ?).
    destruct (only && bool_decide (bi_status e = s)) eqn:Hsame.
    + exists None, db1. apply andb_prop in Hsame as [_ Hst%bool_decide_eq_true].
      assert (with_status s e = e) as -> by (destruct e; cbn in *; by subst).
      split_and!; auto. by rewrite Hg1.
    + exists (Some (encode_row (with_status s e))),
        (tree_insert index_tree h (encode_row (with_status s e)) db1).
      split_and!; [done|done|..].
      * apply index_inv_update; try done. exists e. by rewrite Hg1.
      * rewrite index_get_put by done. by rewrite decide_True.
      * intros h' Hh'. rewrite index_get_put by done. by rewrite decide_False, Hg1 by done.
      * intros h'. rewrite <-Hiv1, !is_invalid_get.
        by rewrite tree_get_insert_ne by auto with node.
      * intros t ? ? k. rewrite tree_get_insert_ne by congruence. by apply Ht1.
Qed.

(** Invalidating and reconsidering a block undo each other: [mark_invalid]
    succeeds, marks the block and its index row, and touches no other block;
    [reconsider] after it succeeds, unmarks the block, sets its row to [Valid],
    and for a block that was valid and unmarked leaves every index read, every
    mark and every other tree as before. *)
Theorem mark_reconsider_roundtrip (now : Z) (h : bytes) (db : database) :
  index_inv db → h ≠ SEQUENCE_COUNTER_KEY →
  ∃ db1 db2,
    mark_invalid now h db = (db1, Ok tt) ∧ index_inv db1 ∧ is_invalid h db1 = true ∧
    (∀ e, index_get h db = Ok (Some e) → index_get h db1 = Ok (Some (with_status Invalid e))) ∧
    (∀ h', h' ≠ h → index_get h' db1 = index_get h' db ∧ is_invalid h' db1 = is_invalid h' db) ∧
    reconsider h db1 = (db2, Ok tt) ∧ index_inv db2 ∧ is_invalid h db2 = false ∧
    (∀ e, index_get h db = Ok (Some e) → index_get h db2 = Ok (Some (with_status Valid e))) ∧
    (∀ h', h' ≠ h → index_get h' db2 = index_get h' db ∧ is_invalid h' db2 = is_invalid h' db) ∧
    (∀ t, t ≠ invalid_t → t ≠ index_tree → same_tree t db2 db).
Proof.
  intros Hinv Hne.
  destruct (status_write_run h (Some (to_be 8 now)) Invalid false db Hinv Hne)
    as (r1 & db1 & Hr1 & Hc1 & Hinv1 & Hg1 & Ho1 & Hi1 & Ht1).
  destruct (status_write_run h None Valid true db1 Hinv1 Hne)
    as (r2 & db2 & Hr2 & Hc2 & Hinv2 & Hg2 & Ho2 & Hi2 & Ht2).
  exists db1, db2.
  assert (∀ h', h' ≠ h → is_invalid h' db1 = is_invalid h' db) as Hi1'
    by (intros h' ?; by rewrite Hi1, decide_False).
  assert (∀ e, index_get h db = Ok (Some e) → index_get h db1 = Ok (Some (with_status Invalid e)))
    as Hg1' by (intros e He; by rewrite Hg1, He).
  split_and!; try done.
  - unfold mark_invalid, bind, reads, modify. by rewrite Hr1, Hc1.
  - by rewrite Hi1, decide_True.
  - intros h' Hh'. split; auto.
  - unfold reconsider, bind, reads, modify. by rewrite Hr2, Hc2.
  - by rewrite Hi2, decide_True.
  - intros e He. rewrite Hg2, (Hg1' e He). done.
  - intros h' Hh'. split; [by rewrite Ho2, Ho1|]. rewrite Hi2, decide_False by done. by apply Hi1'.
  - intros t ? ? k. by rewrite (Ht2 t), (Ht1 t) by done.
Qed.

(** A snapshot tip cannot be extended: [set_snapshot_tip] writes neither an
    index row nor chainwork, so when the snapshot block's chainwork is not
    already stored, both writers of the connect path refuse every child of the
    new tip. *)
Theorem snapshot_tip_not_extendable (h : bytes) (hgt : Z) (hd : BlockHeader) (db db' : database)
    (child : bytes) (child_hd : BlockHeader) :
  set_snapshot_tip h hgt hd db = (db', Ok tt) →
  get_chainwork h db = None → is_u64 hgt → header_ok hd →
  index_inv db → tip_inv db → child ≠ SEQUENCE_COUNTER_KEY → prev_block_hash child_hd = h →
  get_tip_hash_and_height db' = Ok (h, hgt) ∧
  cache_block_chainwork child child_hd (hgt + 1) db' = (db', Err "parent chainwork is absent") ∧
  update_tip child child_hd (hgt + 1) db' = (db', Err "parent chainwork is absent").
Proof.
  intros Hrun Hcw Hg Hhd Hinv Htip Hne Hp. unfold set_snapshot_tip, bind, reads in Hrun.
  case_bool_decide as Hhash; [done|].
  destruct (load_chain_info db) as [oi|] eqn:Hl; [|done].
  unfold store_chain_info, modify in Hrun. injection Hrun as <-.
  assert (info_ok (tip_info h hd hgt oi)) as Hok.
  { eapply tip_info_ok; eauto. rewrite <-Hhash. apply hash256_length. }
  set (db' := tree_insert _ _ _ db).
  assert (parent_work child_hd (hgt + 1) db' = None) as Hpw.
  { unfold parent_work, is_u64 in *. rewrite bool_decide_eq_true_2 by lia. rewrite Hp.
    rewrite <-Hcw. apply (get_chainwork_op chain_info_t k_current (Some _)). auto with node. }
  split_and!.
  - unfold get_tip_hash_and_height. unfold db'. by rewrite load_chain_info_put.
  - unfold cache_block_chainwork, bind, reads. by rewrite chainwork_for_header_eq, Hpw.
  - apply update_tip_err; [|done|done].
    assert (same_tree index_tree db' db) as -> by (apply same_tree_insert; auto with node). done.
Qed.
End Invalid.

(** ** A row codec for [ChainInfo]: fixed-width fields, then the network name *)

Module InfoCodec.
Definition field (n : nat) (bs : bytes) : bytes * bytes := (take n bs, drop n bs).

Definition to_i64 (z : Z) : Z := if bool_decide (z < 2 ^ 63) then z else z - 2 ^ 64.

Definition encode (i : ChainInfo) : bytes :=
  let h := ci_tip_header i in let p := ci_chain_params i in
  ci_tip_hash i ++ to_le 8 (as_u64 (version h)) ++ prev_block_hash h ++ merkle_root h ++
  to_le 8 (timestamp h) ++ to_le 8 (bits h) ++ to_le 8 (nonce h) ++
  to_le 8 (ci_height i) ++ to_le 8 (ci_total_work i) ++
  cp_genesis_hash p ++ to_le 8 (cp_max_target p) ++ to_le 8 (cp_subsidy_halving_interval p) ++
  bstr (cp_network p).

Definition decode (bs : bytes) : option ChainInfo :=
  if bool_decide (length bs < 192)%nat then None else
  let '(tip, bs) := field 32 bs in let '(ver, bs) := field 8 bs in
  let '(prev, bs) := field 32 bs in let '(root, bs) := field 32 bs in
  let '(ts, bs) := field 8 bs in let '(bi, bs) := field 8 bs in
  let '(no, bs) := field 8 bs in let '(hg, bs) := field 8 bs in
  let '(wk, bs) := field 8 bs in let '(gen, bs) := field 32 bs in
  let '(mt, bs) := field 8 bs in let '(hv, bs) := field 8 bs in
  Some (mkInfo tip (mkHeader (to_i64 (of_le ver)) prev root (of_le ts) (of_le bi) (of_le no))
          (of_le hg) (of_le wk)
          (mkParams (String.string_of_list_byte bs) gen (of_le mt) (of_le hv))).

#[global] Instance codec : Codec ChainInfo := {| encode_row := encode; decode_row := decode |}.

Lemma field_app n a b : length a = n → field n (a ++ b) = (a, b).
Proof. intros <-. unfold field. by rewrite take_app_length, drop_app_length. Qed.

Lemma of_to_le_u64 z : is_u64 z → of_le (to_le 8 z) = z.
Proof. intros Hz. apply of_to_le. unfold is_u64 in Hz. lia. Qed.

Lemma to_i64_as_u64 z : is_i64 z → to_i64 (as_u64 z) = z.
Proof.
  unfold is_i64, to_i64, as_u64. intros Hz. case_bool_decide;
    Z.to_euclidean_division_equations; lia.
Qed.

#[global] Instance laws : CodecLaws ChainInfo info_ok.
Proof.
  intros i (Htip & (Hv & Hp & Hm & Ht & Hb & Hn) & Hh & Hw & (Hg & Hmt & Hhv)).
  cbn [decode_row encode_row codec]. unfold decode.
  rewrite bool_decide_eq_false_2.
  2: { unfold encode. rewrite !length_app, !length_to_le. unfold is_hash in *. lia. }
  unfold encode. rewrite !field_app by (done || apply length_to_le).
  rewrite !of_to_le_u64 by (done || (unfold is_u64, as_u64; apply Z.mod_pos_bound; lia)).
  unfold bstr. rewrite String.string_of_list_byte_of_string, to_i64_as_u64 by done.
  by destruct i as [? [] ? ? []].
Qed.
End InfoCodec.

(** ** Witnesses *)

Module ChainWitness.
Import IndexWitness.
(** A chain of blocks 1, 2, 3 at heights 0, 1, 2 with proof 7 each. *)
Definition hdr (n : Z) : BlockHeader := mkHeader 1 (hsh (n - 1)) (hsh 0) 100 7 0.
Definition db1 : database := (update_tip (hsh 1) (hdr 1) 0 ∅).1.
Definition run : list (bytes * BlockHeader * Z) := [(hsh 2, hdr 2, 1); (hsh 3, hdr 3, 2)].
Definition db3 : database := (connect_all run db1).1.
Definition muhash0 : bytes := replicate 768 Byte.x00.

Lemma tip_inv_empty : tip_inv ∅.
Proof. exists None. split; [vm_compute; reflexivity|done]. Qed.
Lemma hsh_ok n : is_hash (hsh n).
Proof. apply length_to_be. Qed.
Lemma hdr_ok n : header_ok (hdr n).
Proof. unfold header_ok, hdr, is_i64, is_u64; cbn. split_and!; try apply hsh_ok; lia. Qed.
Lemma key_ne n : 0 ≤ n < 100 → hsh n ≠ SEQUENCE_COUNTER_KEY.
Proof.
  intros Hn H. apply (f_equal of_be) in H. unfold hsh in H.
  rewrite of_to_be in H by (simpl; lia). vm_compute in H. lia.
Qed.

Lemma db1_inv : index_inv db1 ∧ tip_inv db1.
Proof.
  destruct (update_tip_ok (hsh 1) (hdr 1) 0 ∅ u256_zero) as (db' & i & Hrun & Hi & Ht & _);
    [apply index_inv_empty|apply tip_inv_empty|apply hsh_ok|by apply key_ne|apply hdr_ok
    |done|vm_compute; reflexivity|done|].
  unfold db1. by rewrite Hrun.
Qed.

Lemma update_tip_spec_witness :
  get_tip_hash_and_height (update_tip (hsh 1) (hdr 1) 0 ∅).1 = Ok (hsh 1, 0).
Proof.
  pose proof (update_tip_spec (hsh 1) (hdr 1) 0 ∅ index_inv_empty tip_inv_empty (hsh_ok 1)
    (key_ne 1 ltac:(lia)) (hdr_ok 1) ltac:(done) ltac:(vm_compute; reflexivity)) as H.
  replace (parent_work (hdr 1) 0 ∅) with (Some u256_zero) in H by done.
  destruct H as (db' & cw & Hrun & _ & _ & (oi & _ & Htip) & _). rewrite Hrun. cbn [fst].
  unfold get_tip_hash_and_height. by rewrite Htip.
Defined.

Definition tip2_ops : list keyed_op :=
  match update_tip_ops (hsh 2) (hdr 2) 1 db1 with Ok ops => ops | Err _ => [] end.

Lemma db1_tip i : load_chain_info db1 = Ok (Some i) → ci_tip_hash i = hsh 2 →
  1 = ci_height i ∧ prev_block_hash (hdr 2) = prev_block_hash (ci_tip_header i).
Proof. intros Hl. vm_compute in Hl. injection Hl as <-. intros H. vm_compute in H. discriminate H. Qed.

Lemma update_tip_crash_safe_witness :
  tip_inv (commit_keyed (take 3 tip2_ops) db1).
Proof.
  refine (proj1 (update_tip_crash_safe Sequential (hsh 2) (hdr 2) 1 db1 _ tip2_ops
    (proj1 db1_inv) (proj2 db1_inv) (hsh_ok 2) (key_ne 2 ltac:(lia)) (hdr_ok 2) _ _
    db1_tip _ _)).
  - vm_compute. split; congruence.
  - vm_compute. reflexivity.
  - vm_compute. reflexivity.
  - apply (list_elem_of_fmap_2 (λ n, commit_keyed (take n tip2_ops) db1)).
    apply elem_of_seq. vm_compute. lia.
Defined.

Lemma run_ok : Forall block_ok run.
Proof.
  unfold run. rewrite !Forall_cons. split_and!; try done;
    (split_and!; [apply hsh_ok|by apply key_ne|apply hdr_ok|vm_compute; split; congruence]).
Qed.
Lemma db1_parent : is_Some (get_chainwork (hsh 1) db1).
Proof. eexists. vm_compute. reflexivity. Qed.

Lemma connect_all_chainwork_witness :
  ∃ w, get_chainwork (hsh 3) db3 = Some w ∧ u256_val w = 21.
Proof.
  destruct db1_parent as [pw Hpw].
  destruct (connect_all_chainwork (hsh 1) 0 pw run db1 (proj1 db1_inv) (proj2 db1_inv))
    as (db' & w & Hrun & _ & _ & _ & Hw & Hv);
    [done|done|by split_and!|apply run_ok|vm_compute; congruence|].
  exists w. unfold db3. rewrite Hrun. split; [exact Hw|]. rewrite Hv.
  vm_compute in Hpw. injection Hpw as <-. vm_compute. reflexivity.
Defined.

Lemma run_new : Forall (new_block db1) run.
Proof.
  unfold run. rewrite !Forall_cons. split_and!; [..|apply Forall_nil; exact I];
    (split; [split_and!; [apply hsh_ok|by apply key_ne|vm_compute; split; congruence
                         |apply hsh_ok|vm_compute; reflexivity]|vm_compute; reflexivity]).
Qed.

Lemma index_connected_blocks_batch_equiv_witness :
  index_connected_blocks_batch run db1 = index_each run db1.
Proof.
  apply (index_connected_blocks_batch_equiv (hsh 1) 0 run db1 (proj1 db1_inv) run_new).
  - apply (bool_decide_unpack _). vm_compute. exact I.
  - vm_compute. congruence.
  - by split_and!.
  - done.
  - intros _. exact db1_parent.
Defined.

Lemma checkpoint_complete_spec_witness :
  get_engine_export_height (persist_engine_checkpoint_complete 2 1 10 5 muhash0 db3).1 = Some 2.
Proof.
  assert (get_height db3 = Ok (Some 2)) as Hh by (vm_compute; reflexivity).
  assert (default 0 (get_engine_export_height db3) < 2 ≤ 2) as He by (vm_compute; split; congruence).
  revert Hh He. generalize db3 as d. intros d Hh He.
  destruct (checkpoint_complete_spec 2 1 10 5 muhash0 (Some 2) d Hh) as (_ & _ & _ & H);
    [done|done|done|apply length_replicate|].
  rewrite bool_decide_eq_true_2 in H by done. exact (proj1 H).
Defined.

Lemma labels_ok_empty : labels_ok ∅.
Proof. exists None. split_and!; [vm_compute; reflexivity|done|vm_compute; congruence..]. Qed.

Lemma labels_never_pass_tip_witness :
  labels_ok (persist_ibd_utxo_flush_checkpoint 5 muhash0 db1).1.
Proof.
  apply (labels_never_pass_tip ∅ _ labels_ok_empty).
  apply (rtc_l _ _ db1).
  - apply (ls_update_tip ∅ (hsh 1) (hdr 1) 0 db1 (hsh_ok 1) (hdr_ok 1)); [done| |].
    + intros old Hold. vm_compute in Hold. discriminate Hold.
    + apply run_eta. vm_compute. reflexivity.
  - apply rtc_once. by apply ls_flush.
Defined.

Lemma mark_reconsider_roundtrip_witness :
  is_invalid (hsh 1) (mark_invalid 9 (hsh 1) db1).1 = true.
Proof.
  destruct (mark_reconsider_roundtrip 9 (hsh 1) db1 (proj1 db1_inv) (key_ne 1 ltac:(lia)))
    as (d1 & d2 & Hrun & _ & Hinv & _). by rewrite Hrun.
Defined.

Definition snap_hash : bytes := calculate_hash (hdr 50).
Lemma snapshot_tip_not_extendable_witness :
  (update_tip (hsh 52) (mkHeader 1 snap_hash (hsh 0) 100 7 0) 51
     (set_snapshot_tip snap_hash 50 (hdr 50) ∅).1).2 = Err "parent chainwork is absent".
Proof.
  refine (f_equal snd (proj2 (proj2 (snapshot_tip_not_extendable snap_hash 50 (hdr 50) ∅
    (set_snapshot_tip snap_hash 50 (hdr 50) ∅).1 (hsh 52) (mkHeader 1 snap_hash (hsh 0) 100 7 0)
    _ _ _ (hdr_ok 50) index_inv_empty tip_inv_empty (key_ne 52 ltac:(lia)) eq_refl)))).
  - apply run_eta. vm_compute. reflexivity.
  - vm_compute. reflexivity.
  - vm_compute. split; congruence.
Defined.
End ChainWitness.
