(* ===== verification/BlockStore.v ===== *)
(** * BlockStore: headers and heights of [src/storage/blockstore.rs]

    The height index, the reverse hash index, the header rows, the removal of
    bodies and the [getheaders] reply.  Block and witness bodies are opaque rows
    here; [Pruning] reads them. *)

From S2P Require Import Prelude Bytes Database Interfaces BlockIndex ChainState.
Open Scope Z_scope.

Definition blocks_t : string := "blocks".
Definition headers_t : string := "headers".
Definition height_t : string := "height_index".
Definition hash_height_t : string := "hash_to_height".
Definition witnesses_t : string := "witnesses".

(** [height_be (8) ++ hash (32)]. *)
Definition block_height_row_key (hgt : Z) (hash : bytes) : bytes := to_be 8 hgt ++ hash.

Section Store.
Context {HC : Codec BlockHeader}.
Implicit Types (db : database) (hash : bytes) (hgt : Z).

(** ** Height and hash rows *)

Definition get_hash_by_height (hgt : Z) (db : database) : result (option bytes) :=
  match tree_get height_t (to_be 8 hgt) db with
  | Some data => if bool_decide (length data = 32%nat) then Ok (Some data)
                 else Err "height index row width"
  | None => Ok None
  end.

Definition get_height_by_hash (hash : bytes) (db : database) : result (option Z) :=
  match tree_get hash_height_t hash db with
  | Some data => if bool_decide (length data = 8%nat) then Ok (Some (of_be data))
                 else Err "hash-to-height row width"
  | None => Ok None
  end.

Definition store_height (hgt : Z) (hash : bytes) : M database unit :=
  modify (commit_keyed [(height_t, to_be 8 hgt, Some hash); (hash_height_t, hash, Some (to_be 8 hgt))]).
Definition clear_height_index (hgt : Z) : M database unit :=
  modify (tree_remove height_t (to_be 8 hgt)).

(** ** Headers *)

Definition decode_header_row (data : bytes) : result (option BlockHeader) :=
  match decode_row data with Some h => Ok (Some h) | None => Err "bincode" end.

(** The row under the height key first, then the row under the bare hash. *)
Definition get_header (hash : bytes) (db : database) : result (option BlockHeader) :=
  let+ at_height := get_height_by_hash hash db in
  let by_hash :=
    match tree_get headers_t hash db with
    | Some data => decode_header_row data
    | None => Ok None
    end in
  match at_height with
  | Some h =>
      match tree_get headers_t (block_height_row_key h hash) db with
      | Some data => decode_header_row data
      | None => by_hash
      end
  | None => by_hash
  end.

Definition get_header_at_height (hgt : Z) (db : database) : result (option BlockHeader) :=
  let+ r := get_hash_by_height hgt db in
  match r with
  | Some hash => get_header hash db
  | None => Ok None
  end.

(** Which height rows a header batch claims: a height that is already claimed,
    in the store or earlier in the batch, keeps its hash. *)
Fixpoint claim_loop (entries : list (bytes * BlockHeader * Z)) (claimed : gmap Z bytes)
    (db : database) : result (list batch_op) :=
  match entries with
  | [] => Ok []
  | (hash, _, hgt) :: rest =>
      let+ active := match claimed !! hgt with
                     | Some h => Ok (Some h)
                     | None => get_hash_by_height hgt db
                     end in
      if bool_decide (active = None ∨ active = Some hash)
      then
        let+ ops := claim_loop rest (<[hgt := hash]> claimed) db in
        Ok ((to_be 8 hgt, Some hash) :: ops)
      else claim_loop rest claimed db
  end.

Definition store_headers_batch (entries : list (bytes * BlockHeader * Z)) : M database unit :=
  match entries with
  | [] => ret tt
  | _ =>
      let* height_ops := reads (claim_loop entries ∅) in
      modify (λ db,
        batch_commit hash_height_t ((λ e, (e.1.1, Some (to_be 8 e.2))) <$> entries)
          (batch_commit height_t height_ops
            (batch_commit headers_t ((λ e, (e.1.1, Some (encode_row e.1.2))) <$> entries) db)))
  end.

(** ** Height searches.  Every loop runs at most 64 times: the probe doubles up
    to 2,000,000,000 and the bracket halves.  Running out of fuel is an error,
    and the theorems show that it does not happen. *)

Definition height_bound : Z := 2000000000.
Definition search_fuel : nat := 64.

Fixpoint grow_loop (fuel : nat) (lo hi : Z) (db : database) : result (Z * Z) :=
  match fuel with
  | O => Err "fuel"
  | S fuel' =>
      let+ r := get_hash_by_height hi db in
      match r with
      | None => Ok (lo, hi)
      | Some _ =>
          let hi' := Z.min (hi * 2) u64_max in
          if bool_decide (height_bound < hi') then Ok (hi, hi')
          else grow_loop fuel' hi hi' db
      end
  end.

Fixpoint bisect_loop (fuel : nat) (lo hi : Z) (db : database) : result Z :=
  match fuel with
  | O => Err "fuel"
  | S fuel' =>
      if bool_decide (lo + 1 < hi) then
        let mid := lo + (hi - lo) / 2 in
        let+ r := get_hash_by_height mid db in
        match r with
        | Some _ => bisect_loop fuel' mid hi db
        | None => bisect_loop fuel' lo mid db
        end
      else Ok lo
  end.

Definition highest_stored_height (db : database) : result (option Z) :=
  let+ r0 := get_hash_by_height 0 db in
  match r0 with
  | None => Ok None
  | Some _ =>
      let+ p := grow_loop search_fuel 0 1 db in
      let+ r := get_hash_by_height p.2 db in
      match r with
      | Some _ => Ok (Some p.2)
      | None => let+ lo := bisect_loop search_fuel p.1 p.2 db in Ok (Some lo)
      end
  end.

(** Probe at doubling distances for any stored height. *)
Fixpoint probe_loop (fuel : nat) (probe step : Z) (db : database) : result bool :=
  match fuel with
  | O => Err "fuel"
  | S fuel' =>
      if bool_decide (probe < height_bound) then
        let+ r := get_hash_by_height probe db in
        match r with
        | Some _ => Ok true
        | None => probe_loop fuel' (sat_add probe step) (Z.min (step * 2) u64_max) db
        end
      else Ok false
  end.

Definition stored_height_gap (db : database) : result (option Z) :=
  let+ top := highest_stored_height db in
  match top with
  | None => let+ found := probe_loop search_fuel 1 1 db in
            Ok (if found then Some 0 else None)
  | Some contiguous =>
      let+ found := probe_loop search_fuel (sat_add contiguous 1) 1 db in
      Ok (if found then Some (sat_add contiguous 1) else None)
  end.

(** ** The [getheaders] reply *)

Definition all_zero (hash : bytes) : bool := forallb (λ b, bool_decide (b = Byte.x00)) hash.

(** The first locator hash that the height index has at its own height. *)
Fixpoint locate_fork (locator : list bytes) (db : database) : result (option Z) :=
  match locator with
  | [] => Ok None
  | hash :: rest =>
      let+ h := get_height_by_hash hash db in
      match h with
      | Some hgt =>
          let+ at_hgt := get_hash_by_height hgt db in
          if bool_decide (at_hgt = Some hash) then Ok (Some hgt) else locate_fork rest db
      | None => locate_fork rest db
      end
  end.

(** Headers at [hgt], [hgt + 1], ... while they exist and extend [expect]; [n]
    bounds the heights and [room] the number of headers. *)
Fixpoint reply_loop (n room : nat) (hgt : Z) (expect : option bytes) (hash_stop : bytes)
    (db : database) : result (list BlockHeader) :=
  match n, room with
  | O, _ | _, O => Ok []
  | S n', S room' =>
      let+ r := get_hash_by_height hgt db in
      match r with
      | None => Ok []
      | Some hash =>
          let+ rh := get_header hash db in
          match rh with
          | None => Ok []
          | Some hdr =>
              if match expect with Some prev => bool_decide (prev_block_hash hdr ≠ prev) | None => false end
              then Ok []
              else if negb (all_zero hash_stop) && bool_decide (hash = hash_stop) then Ok [hdr]
              else let+ rest := reply_loop n' room' (hgt + 1) (Some hash) hash_stop db in
                   Ok (hdr :: rest)
          end
      end
  end.

Definition build_headers_response (locator : list bytes) (hash_stop : bytes) (max_headers : nat)
    (db : database) : result (list BlockHeader) :=
  let+ top := highest_stored_height db in
  match top with
  | None => Ok []
  | Some tip_h =>
      match locator with
      | [] =>
          if all_zero hash_stop then Ok []
          else
            let+ h := get_height_by_hash hash_stop db in
            match h with
            | None => Ok []
            | Some hgt =>
                let+ at_hgt := get_hash_by_height hgt db in
                if bool_decide (at_hgt = Some hash_stop)
                then let+ r := get_header hash_stop db in Ok (option_list r)
                else Ok []
            end
      | _ =>
          let+ fork := locate_fork locator db in
          match fork with
          | None => Ok []
          | Some f =>
              let start := sat_add f 1 in
              if bool_decide (tip_h < start) then Ok []
              else
                let+ expect := if bool_decide (start = 0) then Ok None
                               else get_hash_by_height (start - 1) db in
                reply_loop (Z.to_nat (tip_h - start + 1)) (max max_headers 1) start expect hash_stop db
          end
      end
  end.

(** ** Bodies *)

Definition remove_row_at (t : string) (hash : bytes) : M database unit :=
  let* h := reads (get_height_by_hash hash) in
  (match h with
   | Some hgt => modify (tree_remove t (block_height_row_key hgt hash))
   | None => ret tt
   end) ;;
  modify (tree_remove t hash).
Definition remove_block_body (hash : bytes) : M database unit := remove_row_at blocks_t hash.
Definition remove_witness (hash : bytes) : M database unit := remove_row_at witnesses_t hash.
End Store.

(** ** Lemmas *)

(** Every height row holds a hash and every reverse row a height. *)
Definition height_rows_ok (db : database) : Prop :=
  (∀ k v, tree_get height_t k db = Some v → is_hash v) ∧
  (∀ k v, tree_get hash_height_t k db = Some v → length v = 8%nat).

Definition stored (h : Z) (db : database) : Prop := is_Some (tree_get height_t (to_be 8 h) db).

Section StoreLemmas.
Context {HC : Codec BlockHeader} {HL : CodecLaws BlockHeader header_ok}.
Implicit Types (db : database) (hash : bytes) (hgt : Z).

Lemma get_hash_total hgt db :
  height_rows_ok db → get_hash_by_height hgt db = Ok (tree_get height_t (to_be 8 hgt) db).
Proof.
  intros [Hok _]. unfold get_hash_by_height. destruct (tree_get _ _ _) as [v|] eqn:E; [|done].
  by rewrite bool_decide_eq_true_2 by by eapply Hok.
Qed.
Lemma get_height_total hash db :
  height_rows_ok db → get_height_by_hash hash db = Ok (of_be <$> tree_get hash_height_t hash db).
Proof.
  intros [_ Hok]. unfold get_height_by_hash. destruct (tree_get _ _ _) as [v|] eqn:E; [|done].
  by rewrite bool_decide_eq_true_2 by by eapply Hok.
Qed.

(** *** The height searches *)

Lemma grow_loop_spec fuel lo hi db :
  height_rows_ok db → stored lo db → 1 ≤ hi ≤ height_bound → 0 ≤ lo < hi → hi ≤ 2 * lo + 1 →
  height_bound < hi * 2 ^ Z.of_nat fuel →
  ∃ lo' hi', grow_loop fuel lo hi db = Ok (lo', hi') ∧ stored lo' db ∧
    0 ≤ lo' < hi' ∧ hi' ≤ 2 * height_bound ∧ (¬ stored hi' db ∨ height_bound < hi').
Proof.
  intros Hok. revert lo hi. induction fuel as [|fuel IH]; intros lo hi Hlo Hhi Hlt Hle Hf.
  { change (2 ^ Z.of_nat 0) with 1 in Hf. lia. }
  cbn [grow_loop]. rewrite get_hash_total by done. cbn [rbind].
  destruct (tree_get height_t (to_be 8 hi) db) as [v|] eqn:E.
  - assert (stored hi db) as Hst by by exists v.
    unfold height_bound, u64_max in *. rewrite Z.min_l by lia.
    case_bool_decide as Hb.
    + exists hi, (hi * 2). split_and!; auto; lia.
    + apply IH; try done; try lia.
      replace (Z.of_nat (S fuel)) with (Z.of_nat fuel + 1) in Hf by lia.
      rewrite Z.pow_add_r in Hf by lia. nia.
  - exists lo, hi. split_and!; auto; try lia. left. intros [v Hv]. congruence.
Qed.

Lemma bisect_loop_spec fuel lo hi db :
  height_rows_ok db → stored lo db → ¬ stored hi db → 0 ≤ lo < hi →
  hi - lo - 1 < 2 ^ (Z.of_nat fuel - 1) →
  ∃ h, bisect_loop fuel lo hi db = Ok h ∧ lo ≤ h < hi ∧ stored h db ∧ ¬ stored (h + 1) db.
Proof.
  intros Hok. revert lo hi. induction fuel as [|fuel IH]; intros lo hi Hlo Hhi Hlt Hf.
  { change (2 ^ (Z.of_nat 0 - 1)) with 0 in Hf. lia. }
  cbn [bisect_loop]. replace (Z.of_nat (S fuel) - 1) with (Z.of_nat fuel) in Hf by lia.
  case_bool_decide as Hb.
  - rewrite get_hash_total by done. cbn [rbind]. set (mid := lo + (hi - lo) / 2).
    assert (2 ^ Z.of_nat fuel = 2 * 2 ^ (Z.of_nat fuel - 1)) as Hp.
    { destruct fuel; [change (2 ^ Z.of_nat 0) with 1 in Hf; lia|].
      rewrite <-Z.pow_succ_r by lia. f_equal. lia. }
    assert (lo < mid < hi ∧ 2 * (mid - lo) ≤ hi - lo ∧ 2 * (hi - mid) ≤ hi - lo + 1) as (Hm & Hm1 & Hm2)
      by (unfold mid; Z.to_euclidean_division_equations; lia).
    destruct (tree_get height_t (to_be 8 mid) db) as [v|] eqn:E.
    + destruct (IH mid hi) as (h & Hr & ? & ? & ?); [by exists v|done|lia|lia|].
      exists h. split_and!; auto; lia.
    + destruct (IH lo mid) as (h & Hr & ? & ? & ?); [done| |lia|lia|].
      * intros [v Hv]. congruence.
      * exists h. split_and!; auto; lia.
  - exists lo. split_and!; auto; try lia. by replace (lo + 1) with hi by lia.
Qed.

(** The search always returns, at a stored height whose successor is not stored
    (or at the end of the probed range). *)
Lemma highest_stored_height_boundary db :
  height_rows_ok db → stored 0 db →
  ∃ h, highest_stored_height db = Ok (Some h) ∧ 0 ≤ h ≤ 2 * height_bound ∧ stored h db ∧
       (¬ stored (h + 1) db ∨ height_bound < h).
Proof.
  intros Hok [v0 H0]. unfold highest_stored_height. rewrite get_hash_total by done. cbn [rbind].
  rewrite H0.
  destruct (grow_loop_spec search_fuel 0 1 db) as (lo & hi & Hrun & Hlo & Hlt & Hmax & Hhi);
    try done; [by exists v0|].
  rewrite Hrun. cbn [rbind fst snd]. rewrite get_hash_total by done. cbn [rbind].
  destruct (tree_get height_t (to_be 8 hi) db) as [v|] eqn:E.
  - exists hi. split_and!; [done|lia|lia|by exists v|]. right.
    destruct Hhi as [Hn|?]; [|done]. destruct Hn. by exists v.
  - destruct (bisect_loop_spec search_fuel lo hi db) as (h & Hb & Hr & Hs & Hn); try done.
    + intros [v Hv]. congruence.
    + change (2 ^ (Z.of_nat search_fuel - 1)) with 9223372036854775808. unfold height_bound in *. lia.
    + exists h. rewrite Hb. cbn [rbind]. split_and!; auto; lia.
Qed.

Lemma highest_stored_height_max db h :
  height_rows_ok db → highest_stored_height db = Ok (Some h) → 0 ≤ h ≤ 2 * height_bound.
Proof.
  intros Hok Hrun. destruct (highest_stored_height_boundary db Hok) as (h' & Hrun' & Hr & _).
  - unfold highest_stored_height in Hrun. rewrite get_hash_total in Hrun by done. cbn [rbind] in Hrun.
    destruct (tree_get height_t (to_be 8 0) db) as [v|] eqn:E; [by exists v|done].
  - congruence.
Qed.
End StoreLemmas.

(** ** Theorems *)

Section StoreTheorems.
Context {HC : Codec BlockHeader} {HL : CodecLaws BlockHeader header_ok}.
Implicit Types (db : database) (hash : bytes) (hgt : Z).

(** [C18] The logarithmic search finds the tip of a contiguous index: when the
    stored heights are exactly 0 to [n], with [n] at most 2,000,000,000, the
    search returns [n], using at most 64 probes per phase. *)
Theorem highest_stored_height_correct (n : Z) (db : database) :
  height_rows_ok db → 0 ≤ n ≤ height_bound →
  (∀ h, 0 ≤ h < 2 ^ 64 → stored h db ↔ h ≤ n) →
  highest_stored_height db = Ok (Some n).
Proof.
  intros Hok Hn Hcont.
  destruct (highest_stored_height_boundary db Hok) as (h & -> & Hh & Hs & Hb).
  { apply Hcont; lia. }
  do 2 f_equal. unfold height_bound in *.
  apply Hcont in Hs; [|lia]. destruct Hb as [Hn1|?]; [|lia].
  rewrite Hcont in Hn1 by lia. lia.
Qed.

(** *** Header batches *)

(** The hash a batch leaves at a height: the one already there, else the first
    of the batch at that height. *)
Fixpoint claim (g : Z) (entries : list (bytes * BlockHeader * Z)) (cur : option bytes)
    : option bytes :=
  match cur, entries with
  | Some x, _ => Some x
  | None, [] => None
  | None, (hash, _, hgt) :: rest => claim g rest (if decide (hgt = g) then Some hash else None)
  end.
Lemma claim_Some g entries x : claim g entries (Some x) = Some x.
Proof. by destruct entries as [|[[] ]]. Qed.

Definition entry_fields_ok (e : bytes * BlockHeader * Z) : Prop :=
  is_hash e.1.1 ∧ header_ok e.1.2 ∧ is_u64 e.2.

Lemma height_key_inj a b : is_u64 a → is_u64 b → to_be 8 a = to_be 8 b → a = b.
Proof. intros Ha Hb. apply to_be_inj; unfold is_u64 in *; simpl; lia. Qed.

Lemma height_row_ne (t : string) a b :
  is_u64 a → is_u64 b → a ≠ b → (t, to_be 8 a) ≠ (t, to_be 8 b).
Proof.
  intros Ha Hb Hne H. apply (f_equal snd) in H. cbn [snd] in H. by apply Hne, height_key_inj.
Qed.

(** [d] is the store [db] overlaid with the heights claimed so far. *)
Lemma claim_loop_spec entries claimed db d :
  height_rows_ok db → Forall entry_fields_ok entries →
  (∀ g, is_u64 g → tree_get height_t (to_be 8 g) d =
        match claimed !! g with Some x => Some x | None => tree_get height_t (to_be 8 g) db end) →
  ∃ ops, claim_loop entries claimed db = Ok ops ∧
    ∀ g, is_u64 g → tree_get height_t (to_be 8 g) (batch_commit height_t ops d) =
                    claim g entries (tree_get height_t (to_be 8 g) d).
Proof.
  intros Hok. revert claimed d.
  induction entries as [|[[hash hd] hgt] rest IH]; intros claimed d Hall Hd.
  { exists []. split; [done|]. intros g _.
    change (batch_commit height_t [] d) with d. by destruct (tree_get height_t _ d). }
  apply Forall_cons in Hall as [(Hh & _ & Hg) Hall]. cbn [fst snd] in *.
  cbn [claim_loop]. rewrite get_hash_total by done.
  assert (match claimed !! hgt with Some h => Ok (Some h)
          | None => Ok (tree_get height_t (to_be 8 hgt) db) end =
          Ok (tree_get height_t (to_be 8 hgt) d)) as -> by (rewrite Hd by done; by destruct (claimed !! hgt)).
  cbn [rbind]. case_bool_decide as Hact.
  - set (d' := tree_insert height_t (to_be 8 hgt) hash d).
    destruct (IH (<[hgt := hash]> claimed) d' Hall) as (ops & Hrun & Hops).
    { intros g Hg'. unfold d'. destruct (decide (g = hgt)) as [->|Hne].
      - by rewrite tree_get_insert_eq, lookup_insert_eq.
      - rewrite lookup_insert_ne by done. rewrite tree_get_insert_ne; [by apply Hd|].
        by apply height_row_ne. }
    exists ((to_be 8 hgt, Some hash) :: ops). rewrite Hrun. split; [done|]. intros g Hg'.
    change (batch_commit height_t (_ :: ops) d) with (batch_commit height_t ops d').
    rewrite Hops by done. unfold d'. destruct (decide (g = hgt)) as [->|Hne].
    + rewrite tree_get_insert_eq, claim_Some.
      destruct Hact as [-> | ->]; cbn [claim]; [by rewrite decide_True, claim_Some by done|done].
    + rewrite tree_get_insert_ne by by apply height_row_ne.
      destruct (tree_get height_t (to_be 8 g) d); cbn [claim]; [by rewrite claim_Some|].
      by rewrite decide_False by done.
  - destruct (IH claimed d Hall Hd) as (ops & Hrun & Hops). exists ops. split; [done|].
    intros g Hg'. rewrite Hops by done.
    destruct (tree_get height_t (to_be 8 g) d) eqn:E; cbn [claim]; [by rewrite claim_Some|].
    case_decide; [|done]. subst. naive_solver.
Qed.

(** The rows of one tree after a batch of puts under distinct keys. *)
Lemma batch_puts_get {A} (key val : A → bytes) t (xs : list A) x db :
  NoDup (key <$> xs) → x ∈ xs →
  tree_get t (key x) (batch_commit t ((λ y, (key y, Some (val y))) <$> xs) db) = Some (val x).
Proof.
  revert db. induction xs as [|y xs IH]; intros db Hnd Hin; [by apply elem_of_nil in Hin|].
  cbn [fmap list_fmap] in Hnd. apply NoDup_cons in Hnd as [Hnin Hnd].
  change (batch_commit t (_ <$> y :: xs) db) with
    (batch_commit t ((λ y, (key y, Some (val y))) <$> xs) (tree_insert t (key y) (val y) db)).
  apply elem_of_cons in Hin as [->|Hin]; [|by apply IH].
  unfold batch_commit. rewrite commit_keyed_other; [apply tree_get_insert_eq|].
  rewrite <-!list_fmap_compose, list_elem_of_fmap. intros (z & Heq & Hz). apply Hnin.
  apply list_elem_of_fmap. exists z. cbn in Heq. naive_solver.
Qed.

(** [C19] A header batch never moves an active height.  Storing a batch of headers
    with distinct hashes succeeds; a height that had a hash keeps it, a free
    height takes the first hash of the batch at it and nothing else changes in
    the height index; every header of the batch is stored under its hash with
    its height. *)
Theorem store_headers_batch_spec (entries : list (bytes * BlockHeader * Z)) (db : database) :
  height_rows_ok db → Forall entry_fields_ok entries → NoDup (entries.*1.*1) →
  ∃ db', store_headers_batch entries db = (db', Ok tt) ∧
    (∀ g, is_u64 g → tree_get height_t (to_be 8 g) db' =
                     claim g entries (tree_get height_t (to_be 8 g) db)) ∧
    (∀ e, e ∈ entries → get_height_by_hash e.1.1 db' = Ok (Some e.2) ∧
                        tree_get headers_t e.1.1 db' = Some (encode_row e.1.2)).
Proof.
  intros Hok Hall Hnd. destruct entries as [|e0 rest] eqn:Hent.
  { exists db. split_and!; [done| |by intros ? ?%elem_of_nil].
    intros g _. by destruct (tree_get height_t _ db). }
  rewrite <-Hent in *.
  set (d1 := batch_commit headers_t ((λ e, (e.1.1, Some (encode_row e.1.2))) <$> entries) db).
  assert (same_tree height_t d1 db) as Hs1 by (apply same_tree_batch; auto with node).
  destruct (claim_loop_spec entries ∅ db d1) as (ops & Hrun & Hops); [done|done| |].
  { intros g _. by rewrite lookup_empty, Hs1. }
  set (d2 := batch_commit height_t ops d1).
  set (d3 := batch_commit hash_height_t ((λ e, (e.1.1, Some (to_be 8 e.2))) <$> entries) d2).
  assert (store_headers_batch entries db = (d3, Ok tt)) as Hst
    by (unfold d3, d2, d1; rewrite Hent in *; unfold store_headers_batch, bind, reads, modify;
        by rewrite Hrun).
  assert (NoDup ((λ e : bytes * BlockHeader * Z, e.1.1) <$> entries)) as Hnd'
    by by rewrite <-list_fmap_compose in Hnd.
  exists d3. split_and!; [done| |].
  - intros g Hg. unfold d3. rewrite batch_commit_other_tree by auto with node.
    unfold d2. by rewrite Hops, Hs1.
  - intros e He. split.
    + unfold get_height_by_hash, d3.
      rewrite (batch_puts_get (λ e, e.1.1) (λ e, to_be 8 e.2)) by done.
      rewrite bool_decide_eq_true_2 by apply length_to_be.
      rewrite of_to_be_u64; [done|]. by apply (proj1 (Forall_forall _ _) Hall).
    + unfold d3. rewrite batch_commit_other_tree by auto with node. unfold d2.
      rewrite batch_commit_other_tree by auto with node.
      apply (batch_puts_get (λ e, e.1.1) (λ e, encode_row e.1.2)); done.
Qed.

(** *** The [getheaders] reply *)

(** [hd] is stored for the active hash at [g], and its parent is the active
    hash one below. *)
Definition active_link (db : database) (g : Z) (hd : BlockHeader) : Prop :=
  ∃ hash prev, get_hash_by_height g db = Ok (Some hash) ∧ get_header hash db = Ok (Some hd) ∧
    get_hash_by_height (g - 1) db = Ok (Some prev) ∧ prev_block_hash hd = prev.
(** A run of headers at consecutive heights from [hgt]. *)
Definition active_run (db : database) (hgt : Z) (out : list BlockHeader) : Prop :=
  ∀ i hd, out !! i = Some hd → active_link db (hgt + Z.of_nat i) hd.
(** The active hash at [g] is the one the request stops at. *)
Definition stops_at (db : database) (hash_stop : bytes) (g : Z) : Prop :=
  all_zero hash_stop = false ∧ get_hash_by_height g db = Ok (Some hash_stop).
(** The run has [room] headers, or [n] of them, or ends with the stop hash, or
    cannot go on; and it does not pass the stop hash. *)
Definition run_complete (db : database) (hash_stop : bytes) (n room : nat) (hgt : Z) (out : list BlockHeader) : Prop :=
  (length out ≤ room)%nat ∧
  (length out = room ∨ length out = n ∨ stops_at db hash_stop (hgt + Z.of_nat (length out) - 1) ∨
   ∀ hd, ¬ active_link db (hgt + Z.of_nat (length out)) hd) ∧
  ∀ i, (S i < length out)%nat → ¬ stops_at db hash_stop (hgt + Z.of_nat i).

Lemma active_run_cons db hgt hd rest : active_link db hgt hd → active_run db (hgt + 1) rest → active_run db hgt (hd :: rest).
Proof.
  intros Hhd Hrest [|i] x Hi.
  - injection Hi as <-. by replace (hgt + Z.of_nat 0) with hgt by lia.
  - replace (hgt + Z.of_nat (S i)) with (hgt + 1 + Z.of_nat i) by lia. by apply Hrest.
Qed.
Lemma run_complete_cons db hash_stop n room hgt hd rest :
  ¬ stops_at db hash_stop hgt → run_complete db hash_stop n room (hgt + 1) rest →
  run_complete db hash_stop (S n) (S room) hgt (hd :: rest).
Proof.
  intros Hstop (Hlen & Hend & Hpass). unfold run_complete. cbn [length].
  replace (hgt + Z.of_nat (S (length rest))) with (hgt + 1 + Z.of_nat (length rest)) by lia.
  split_and!; [lia|destruct Hend as [->|[->|[?|?]]]; auto|]. intros [|i] Hi.
  - by replace (hgt + Z.of_nat 0) with hgt by lia.
  - replace (hgt + Z.of_nat (S i)) with (hgt + 1 + Z.of_nat i) by lia. apply Hpass. lia.
Qed.
Lemma run_complete_nil db hash_stop n room hgt :
  (∀ hd, ¬ active_link db hgt hd) ∨ room = 0%nat ∨ n = 0%nat → run_complete db hash_stop n room hgt [].
Proof.
  intros Hend. split_and!; [cbn; lia| |cbn; lia]. cbn [length]. replace (hgt + Z.of_nat 0) with hgt by lia.
  destruct Hend as [?|[->| ->]]; auto.
Qed.

Lemma reply_loop_spec n room hgt prev hash_stop db out :
  get_hash_by_height (hgt - 1) db = Ok (Some prev) →
  reply_loop n room hgt (Some prev) hash_stop db = Ok out →
  active_run db hgt out ∧ run_complete db hash_stop n room hgt out.
Proof.
  revert room hgt prev out. induction n as [|n IH]; intros room hgt prev out Hprev Hrun.
  { destruct room; injection Hrun as <-; (split; [by intros i hd Hi|apply run_complete_nil; auto]). }
  destruct room as [|room]; [injection Hrun as <-; split; [by intros i hd Hi|apply run_complete_nil; auto]|].
  cbn [reply_loop] in Hrun.
  destruct (get_hash_by_height hgt db) as [[hash|]|] eqn:Eh; cbn [rbind] in Hrun; [| |done].
  2: { injection Hrun as <-. split; [by intros i hd Hi|apply run_complete_nil; left]. intros hd (? & ? & ? & _). congruence. }
  destruct (get_header hash db) as [[hdr|]|] eqn:Ehd; cbn [rbind] in Hrun; [| |done].
  2: { injection Hrun as <-. split; [by intros i hd Hi|apply run_complete_nil; left].
       intros hd (x & p & Hx & Hd & _). rewrite Eh in Hx. injection Hx as <-. congruence. }
  case_bool_decide as Hp.
  { injection Hrun as <-. split; [by intros i hd Hi|apply run_complete_nil; left].
    intros hd (x & p & Hx & Hd & Hpp & Hl). rewrite Eh in Hx. injection Hx as <-. congruence. }
  assert (active_link db hgt hdr) as Hlink by (exists hash, prev; done).
  destruct (negb (all_zero hash_stop) && bool_decide (hash = hash_stop)) eqn:Es.
  { injection Hrun as <-. apply andb_true_iff in Es as [Hz%negb_true_iff ->%bool_decide_eq_true].
    split; [apply active_run_cons; [done|by intros i hd Hi]|]. split_and!; [cbn; lia| |cbn; lia].
    right. right. left. cbn [length]. split; [done|]. by replace (hgt + Z.of_nat 1 - 1) with hgt by lia. }
  destruct (reply_loop n room (hgt + 1) (Some hash) hash_stop db) as [rest|] eqn:Er; [|done].
  injection Hrun as <-. apply IH in Er as [Hact Hcomp]; [|by replace (hgt + 1 - 1) with hgt by lia].
  split; [by apply active_run_cons|]. apply run_complete_cons; [|done].
  intros [Hz Hs]. rewrite Eh in Hs. injection Hs as ->. by rewrite Hz, bool_decide_eq_true_2 in Es.
Qed.

(** A block the height index has at its own height. *)
Definition on_active_chain (db : database) (hash : bytes) (f : Z) : Prop :=
  get_height_by_hash hash db = Ok (Some f) ∧ get_hash_by_height f db = Ok (Some hash).

Lemma locate_fork_spec locator db r :
  locate_fork locator db = Ok r →
  match r with
  | Some f => ∃ before hash after, locator = before ++ hash :: after ∧ 0 ≤ f ∧ on_active_chain db hash f ∧
                Forall (λ x, ∀ g, ¬ on_active_chain db x g) before
  | None => Forall (λ x, ∀ g, ¬ on_active_chain db x g) locator
  end.
Proof.
  induction locator as [|hash rest IH]; [by intros [= <-]|]. cbn [locate_fork].
  assert (locate_fork rest db = Ok r → (∀ g, ¬ on_active_chain db hash g) →
    match r with
    | Some f => ∃ before x after, hash :: rest = before ++ x :: after ∧ 0 ≤ f ∧ on_active_chain db x f ∧
                  Forall (λ x, ∀ g, ¬ on_active_chain db x g) before
    | None => Forall (λ x, ∀ g, ¬ on_active_chain db x g) (hash :: rest)
    end) as Hskip.
  { intros Hr Hno. specialize (IH Hr). destruct r as [f|]; [|by constructor].
    destruct IH as (before & x & after & -> & ? & ? & ?). exists (hash :: before), x, after. split_and!; [done..|by constructor]. }
  destruct (get_height_by_hash hash db) as [[g|]|] eqn:Ehg; cbn [rbind]; [| |done].
  - destruct (get_hash_by_height g db) as [o|] eqn:Eg; cbn [rbind]; [|done]. case_bool_decide as Hr.
    + intros [= <-]. exists [], hash, rest. split_and!; [done| |split; [done|by rewrite Eg, Hr]|constructor].
      unfold get_height_by_hash in Ehg. destruct (tree_get _ _ _) as [d|]; [|done].
      case_bool_decide; [|done]. injection Ehg as <-. apply of_be_range.
    + intros H. apply (Hskip H). intros g' [Hg Hh]. rewrite Ehg in Hg. injection Hg as <-. congruence.
  - intros H. apply (Hskip H). intros g' [Hg _]. congruence.
Qed.

(** [C20] A [getheaders] reply for a locator: when none of its hashes is active
    the reply is empty; otherwise it starts right above the first one that is,
    every header is the one stored for the active hash at its height and links to
    the active hash below, it has at most [max_headers] entries (at least one is
    allowed), never passes the stop hash, and ends only there, at that number, at
    the highest stored height, or where the next header is missing or does not
    link.  Without a locator it is at most the active header of the stop hash. *)
Theorem build_headers_response_linked (locator : list bytes) (hash_stop : bytes)
    (max_headers : nat) (db : database) (tip : Z) (out : list BlockHeader) :
  height_rows_ok db → highest_stored_height db = Ok (Some tip) →
  build_headers_response locator hash_stop max_headers db = Ok out →
  match locator with
  | [] => out = [] ∨ ∃ g hd, on_active_chain db hash_stop g ∧ get_header hash_stop db = Ok (Some hd) ∧ out = [hd]
  | _ =>
      Forall (λ x, ∀ g, ¬ on_active_chain db x g) locator ∧ out = [] ∨
      ∃ before hash after f, locator = before ++ hash :: after ∧ on_active_chain db hash f ∧
        Forall (λ x, ∀ g, ¬ on_active_chain db x g) before ∧ active_run db (f + 1) out ∧
        run_complete db hash_stop (Z.to_nat (tip - f)) (max max_headers 1) (f + 1) out
  end.
Proof.
  intros Hok Etip Hrun. unfold build_headers_response in Hrun. rewrite Etip in Hrun. cbn [rbind] in Hrun.
  apply highest_stored_height_max in Etip; [|done]. destruct locator as [|l0 locator'].
  { destruct (all_zero hash_stop); [left; congruence|]. apply rbind_inv_ok in Hrun as ([g|] & Hg & Hrun); [|left; congruence].
    apply rbind_inv_ok in Hrun as (h & Hh & Hrun). case_bool_decide as Hs; [subst h|left; congruence].
    apply rbind_inv_ok in Hrun as ([hd|] & Hd & [= <-]); [right|by left]. by exists g, hd. }
  apply rbind_inv_ok in Hrun as (r & Hr & Hrun). pose proof (locate_fork_spec _ _ _ Hr) as Hf.
  destruct r as [f|]; [right|left; split; [done|congruence]].
  destruct Hf as (before & hash & after & Hloc & Hf & Hact & Hbef). exists before, hash, after, f.
  do 3 (split; [done|]). case_bool_decide as Htip.
  { injection Hrun as <-. split; [by intros i hd Hi|]. apply run_complete_nil. right. right. unfold sat_add in Htip. lia. }
  assert (sat_add f 1 = f + 1) as Hs by (unfold sat_add, u64_max, height_bound in *; lia).
  rewrite Hs in *. rewrite bool_decide_eq_false_2 in Hrun by lia.
  replace (f + 1 - 1) with f in Hrun by lia. rewrite (proj2 Hact) in Hrun. cbn [rbind] in Hrun.
  apply reply_loop_spec in Hrun as [Ha Hc]; [|by replace (f + 1 - 1) with f by lia; apply Hact].
  split; [done|]. by replace (tip - f) with (tip - (f + 1) + 1) by lia.
Qed.
End StoreTheorems.

(** ** Witnesses and the gap example *)

Module StoreWitness.
Import IndexWitness ChainWitness.
(** A fixed-width header row, fields as in [ChainState.InfoCodec]. *)
#[global] Instance header_codec : Codec BlockHeader := {|
  encode_row h :=
    to_le 8 (as_u64 (version h)) ++ prev_block_hash h ++ merkle_root h ++
    to_le 8 (timestamp h) ++ to_le 8 (bits h) ++ to_le 8 (nonce h);
  decode_row bs :=
    if bool_decide (length bs = 96%nat) then
      let '(ver, bs) := InfoCodec.field 8 bs in let '(prev, bs) := InfoCodec.field 32 bs in
      let '(root, bs) := InfoCodec.field 32 bs in let '(ts, bs) := InfoCodec.field 8 bs in
      let '(bi, no) := InfoCodec.field 8 bs in
      Some (mkHeader (InfoCodec.to_i64 (of_le ver)) prev root (of_le ts) (of_le bi) (of_le no))
    else None |}.

#[global] Instance header_laws : CodecLaws BlockHeader header_ok.
Proof.
  intros h (Hv & Hp & Hm & Ht & Hb & Hn). cbn [decode_row encode_row header_codec].
  rewrite bool_decide_eq_true_2
    by (rewrite !length_app, !length_to_le; unfold is_hash in *; lia).
  rewrite !InfoCodec.field_app by (done || apply length_to_le).
  rewrite !InfoCodec.of_to_le_u64
    by (done || (unfold is_u64, as_u64; apply Z.mod_pos_bound; lia)).
  rewrite InfoCodec.to_i64_as_u64 by done. by destruct h.
Qed.

(** Blocks 1 to 4 at the heights of a list, linked by [hdr]. *)
Definition at_heights (hs : list Z) : database :=
  (store_headers_batch ((λ h, (hsh (h + 1), hdr (h + 1), h)) <$> hs) ∅).1.

(** A store with heights 0, 1, 2 and 4. *)
Definition gap_db : database := at_heights [0; 1; 2; 4].
End StoreWitness.

Section Gap.
Import StoreWitness.
(** A gap can go unseen: in a store that has heights 0, 1, 2 and 4 but not
    3, the doubling search jumps over the missing height, so
    [highest_stored_height] answers 4 instead of the contiguous 2, and
    [stored_height_gap] reports no gap. *)
Theorem stored_height_gap_misses :
  get_hash_by_height 3 gap_db = Ok None ∧
  get_hash_by_height 4 gap_db = Ok (Some (IndexWitness.hsh 5)) ∧
  highest_stored_height gap_db = Ok (Some 4) ∧
  stored_height_gap gap_db = Ok None.
Proof. vm_compute. done. Qed.
End Gap.

Module StoreWitnesses.
Import IndexWitness ChainWitness StoreWitness.

Definition height_rows_okb (db : database) : bool :=
  forallb (λ kv, bool_decide (length kv.2 = 32%nat)) (tree_iter height_t db) &&
  forallb (λ kv, bool_decide (length kv.2 = 8%nat)) (tree_iter hash_height_t db).
Lemma height_rows_okb_sound db : height_rows_okb db = true → height_rows_ok db.
Proof.
  unfold height_rows_okb. rewrite andb_true_iff, !forallb_forall. intros [H1 H2].
  split; intros k v Hv; apply elem_of_tree_iter, list_elem_of_In in Hv;
    [apply H1 in Hv|apply H2 in Hv]; by apply bool_decide_eq_true in Hv.
Qed.

(** Heights 0, 1 and 2 of the height index. *)
Definition three : database :=
  tree_insert height_t (to_be 8 2) (hsh 3)
    (tree_insert height_t (to_be 8 1) (hsh 2) (tree_insert height_t (to_be 8 0) (hsh 1) ∅)).

Lemma three_stored h : 0 ≤ h < 2 ^ 64 → stored h three ↔ h ≤ 2.
Proof.
  intros Hh. assert (is_u64 h) by (unfold is_u64; lia). unfold stored, three.
  destruct (decide (h = 2)) as [->|H2]; [rewrite tree_get_insert_eq; split; [lia|by eexists]|].
  rewrite tree_get_insert_ne by (apply height_row_ne; try done; congruence).
  destruct (decide (h = 1)) as [->|H1]; [rewrite tree_get_insert_eq; split; [lia|by eexists]|].
  rewrite tree_get_insert_ne by (apply height_row_ne; try done; congruence).
  destruct (decide (h = 0)) as [->|H0]; [rewrite tree_get_insert_eq; split; [lia|by eexists]|].
  rewrite tree_get_insert_ne by (apply height_row_ne; try done; congruence).
  rewrite tree_get_empty. split; [by intros [? ?]|lia].
Qed.

Lemma highest_stored_height_correct_witness : highest_stored_height three = Ok (Some 2).
Proof.
  apply (highest_stored_height_correct 2 three).
  - apply height_rows_okb_sound. vm_compute. reflexivity.
  - vm_compute. split; congruence.
  - exact three_stored.
Defined.

Definition three_headers : list (bytes * BlockHeader * Z) :=
  [(hsh 1, hdr 1, 0); (hsh 2, hdr 2, 1); (hsh 3, hdr 3, 2)].

Lemma store_headers_batch_spec_witness :
  get_height_by_hash (hsh 2) (store_headers_batch three_headers ∅).1 = Ok (Some 1).
Proof.
  destruct (store_headers_batch_spec three_headers ∅) as (db' & Hrun & _ & Hrows).
  - apply height_rows_okb_sound. vm_compute. reflexivity.
  - unfold three_headers. rewrite !Forall_cons. split_and!; try done; (split_and!; [apply hsh_ok|apply hdr_ok|done..]).
  - apply (bool_decide_unpack _). vm_compute. exact I.
  - rewrite Hrun. apply (Hrows (hsh 2, hdr 2, 1)). unfold three_headers. rewrite !elem_of_cons. auto.
Defined.

Definition three_db : database := (store_headers_batch three_headers ∅).1.
(** A locator whose first hash is unknown: the reply starts above the second. *)
Lemma build_headers_response_linked_witness :
  ∃ f, get_hash_by_height f three_db = Ok (Some (hsh 1)) ∧ active_run three_db (f + 1) [hdr 2; hdr 3].
Proof.
  destruct (build_headers_response_linked [hsh 9; hsh 1] zero_hash 10 three_db 2 [hdr 2; hdr 3])
    as [[_ H]|(before & hash & after & f & Hloc & [_ Hf] & Hbef & Hrun & _)].
  - apply height_rows_okb_sound. vm_compute. reflexivity.
  - vm_compute. reflexivity.
  - vm_compute. reflexivity.
  - discriminate H.
  - exists f. split; [|exact Hrun]. rewrite Hf. f_equal. f_equal.
    assert (get_hash_by_height f three_db ≠ Ok (Some (hsh 9))) as H9.
    { rewrite get_hash_total by (apply height_rows_okb_sound; vm_compute; reflexivity). intros [= Hrow].
      apply elem_of_tree_iter in Hrow.
      assert (Forall (λ kv, kv.2 ≠ hsh 9) (tree_iter height_t three_db)) as Hall by (apply (bool_decide_unpack _); vm_compute; exact I).
      rewrite Forall_forall in Hall. by apply Hall in Hrow. }
    destruct before as [|b [|b' before]]; cbn in Hloc; [injection Hloc as <- _|injection Hloc as _ <- _; done|].
    2: { apply (f_equal length) in Hloc. cbn in Hloc. rewrite length_app in Hloc. cbn in Hloc. lia. }
    by destruct H9.
Defined.
End StoreWitnesses.
