(* ===== verification/ForkChoice.v ===== *)
(** * ForkChoice: choosing and walking forks

    [src/node/chain_selector.rs], the fork walks and the height-index refresh of
    [src/node/reorg_executor.rs], and the chainwork bridge of
    [src/storage/mod.rs]. *)

From S2P Require Import Prelude Bytes Database Interfaces BlockIndex ChainState BlockStore.
Open Scope Z_scope.

Section Fork.
Context {U : U256Ops} {K : Consensus}.
Context {EC : Codec BlockIndexEntry} {IC : Codec ChainInfo} {HC : Codec BlockHeader}.
Implicit Types (db : database) (hash : bytes).

(** ** Fork choice *)

Definition chainwork_at (hash : bytes) (db : database) : U256 :=
  default u256_zero (get_chainwork hash db).

Definition should_activate_over_active_tip (candidate : bytes) (db : database) : result bool :=
  let+ tip := get_tip_hash_and_height db in
  if bool_decide (candidate = tip.1) then Ok false
  else Ok (u256_gt (chainwork_at candidate db) (chainwork_at tip.1 db)).

Definition heavier_than_active_tip (candidate : bytes) (db : database) : result bool :=
  let+ tip := get_tip_hash_and_height db in
  if bool_decide (candidate = tip.1) then Ok false
  else Ok (u256_gt (chainwork_at candidate db) (chainwork_at tip.1 db)).

(** ** Walking two branches to their common ancestor *)

Definition with_context {A} (msg : string) (m : M database A) : M database A :=
  fun db => match m db with
            | (db', Ok a) => (db', Ok a)
            | (db', Err _) => (db', Err msg)
            end.

(** Height and parent of a block; a side block that only has a header row is
    recorded in the index on the way. *)
Definition fork_link (hash : bytes) : M database (Z * bytes) :=
  let* r := reads (index_get hash) in
  match r with
  | Some e => ret (bi_height e, bi_prev_hash e)
  | None =>
      let* ohd := reads (get_header hash) in
      let* hd := lift (of_option "missing index entry" ohd) in
      let* oh := reads (get_height_by_hash hash) in
      let* hgt := lift (of_option "missing index entry" oh) in
      record_connected_block hash hgt (prev_block_hash hd) ;;
      ret (hgt, prev_block_hash hd)
  end.

(** [n] steps down from [hash]; the visited hashes are kept oldest first, which
    is the order of the pushed vector after its reverse. *)
Fixpoint climb (n : nat) (hash : bytes) (above : list bytes) : M database (bytes * list bytes) :=
  match n with
  | O => ret (hash, above)
  | S n' =>
      let* l := fork_link hash in
      climb n' l.2 (hash :: above)
  end.

(** Both branches down in step from height [h] until the hashes agree. *)
Fixpoint meet (h : nat) (active candidate : bytes) (active_fork candidate_fork : list bytes)
    : M database (list bytes * list bytes) :=
  if bool_decide (active = candidate)
  then ret (active :: active_fork, active :: candidate_fork)
  else
    match h with
    | O => throw "chains do not share a common ancestor"
    | S h' =>
        let* la := fork_link active in
        let* lc := fork_link candidate in
        meet h' la.2 lc.2 (active :: active_fork) (candidate :: candidate_fork)
    end.

Definition fork_hash_chains (active_tip candidate_tip : bytes)
    : M database (list bytes * list bytes) :=
  let* la := with_context "active tip missing from block index" (fork_link active_tip) in
  let* lc := with_context "candidate tip missing from block index" (fork_link candidate_tip) in
  let* a := climb (Z.to_nat (la.1 - lc.1)) active_tip [] in
  let* c := climb (Z.to_nat (lc.1 - la.1)) candidate_tip [] in
  let* f := meet (Z.to_nat (Z.min la.1 lc.1)) a.1 c.1 [] [] in
  ret (f.1 ++ a.2, f.2 ++ c.2).

(** The same walk with the bodies loaded on the way. *)
Section Bodies.
Context {Blk : Type} (load_reorg_block : bytes → database → result Blk).

Fixpoint climb_blocks (n : nat) (hash : bytes) (above : list Blk) : M database (bytes * list Blk) :=
  match n with
  | O => ret (hash, above)
  | S n' =>
      let* b := reads (load_reorg_block hash) in
      let* l := fork_link hash in
      climb_blocks n' l.2 (b :: above)
  end.

Fixpoint meet_blocks (h : nat) (active candidate : bytes) (active_fork candidate_fork : list Blk)
    : M database (list Blk * list Blk) :=
  if bool_decide (active = candidate)
  then
    let* ancestor := reads (load_reorg_block active) in
    ret (ancestor :: active_fork, ancestor :: candidate_fork)
  else
    let* ba := reads (load_reorg_block active) in
    let* bc := reads (load_reorg_block candidate) in
    match h with
    | O => throw "chains do not share a common ancestor"
    | S h' =>
        let* la := fork_link active in
        let* lc := fork_link candidate in
        meet_blocks h' la.2 lc.2 (ba :: active_fork) (bc :: candidate_fork)
    end.

Definition collect_fork_chains (active_tip candidate_tip : bytes)
    : M database (list Blk * list Blk) :=
  let* la := with_context "active tip missing from block index" (fork_link active_tip) in
  let* lc := with_context "candidate tip missing from block index" (fork_link candidate_tip) in
  let* a := climb_blocks (Z.to_nat (la.1 - lc.1)) active_tip [] in
  let* c := climb_blocks (Z.to_nat (lc.1 - la.1)) candidate_tip [] in
  let* f := meet_blocks (Z.to_nat (Z.min la.1 lc.1)) a.1 c.1 [] [] in
  ret (f.1 ++ a.2, f.2 ++ c.2).
End Bodies.

(** ** The height index after a tip change *)

(** [fuel] bounds the walk; a chain of height [h] needs [h + 1] rounds. *)
Fixpoint refresh_loop (fuel : nat) (current : bytes) (seen : gset bytes) : M database unit :=
  match fuel with
  | O => throw "fuel"
  | S fuel' =>
      if bool_decide (current ∈ seen) then ret tt
      else
        let* r := reads (index_get current) in
        match r with
        | None => ret tt
        | Some e =>
            let* at_h := reads (get_hash_by_height (bi_height e)) in
            if bool_decide (at_h = Some current) then ret tt
            else
              store_height (bi_height e) current ;;
              (if bool_decide (bi_height e = 0) then ret tt
               else refresh_loop fuel' (bi_prev_hash e) ({[current]} ∪ seen))
        end
  end.
Definition refresh_active_height_index (fuel : nat) (tip : bytes) : M database unit :=
  refresh_loop fuel tip ∅.

(** ** Bridging missing chainwork *)

(** Sum from height [n] down; [above] is the work above and [own] the proof of
    the first header visited. *)
Fixpoint cumulative_loop (n : nat) (expected : bytes) (above : U256) (own : option U256) (walked : Z)
    (db : database) : result (U256 * U256 * Z) :=
  let+ r := get_header_at_height (Z.of_nat n) db in
  match r with
  | None => Err "header missing while summing chainwork"
  | Some header =>
      if bool_decide (calculate_hash header ≠ expected)
      then Err "header hash does not match the previous link"
      else
        let proof := calculate_work_from_bits (bits header) in
        let own' := default proof own in
        let walked' := walked + 1 in
        match n with
        | O => Ok (u256_saturating_add above proof, own', walked')
        | S n' =>
            match get_chainwork (prev_block_hash header) db with
            | Some prev =>
                Ok (u256_saturating_add (u256_saturating_add prev proof) above, own', walked')
            | None =>
                cumulative_loop n' (prev_block_hash header) (u256_saturating_add above proof)
                  (Some own') walked' db
            end
        end
  end.
Definition cumulative_chainwork_at (hgt : Z) (expected : bytes) (db : database)
    : result (U256 * U256 * Z) :=
  cumulative_loop (Z.to_nat hgt) expected u256_zero None 0 db.

Definition ensure_parent_chainwork (header : BlockHeader) (hgt : Z) : M database unit :=
  if bool_decide (hgt = 0) then ret tt
  else
    let* known := gets (get_chainwork (prev_block_hash header)) in
    match known with
    | Some _ => ret tt
    | None =>
        let* r := reads (cumulative_chainwork_at (hgt - 1) (prev_block_hash header)) in
        store_work (prev_block_hash header) r.1.2 ;;
        store_chainwork (prev_block_hash header) r.1.1
    end.
End Fork.

(** ** Lemmas *)

Section ForkLemmas.
Context {U : U256Ops} {UL : U256Laws U} {K : Consensus} {KL : ConsensusLaws K}.
Context {EC : Codec BlockIndexEntry} {EL : CodecLaws BlockIndexEntry entry_ok}.
Context {IC : Codec ChainInfo} {IL : CodecLaws ChainInfo info_ok}.
Context {HC : Codec BlockHeader} {HL : CodecLaws BlockHeader header_ok}.
Implicit Types (db : database) (hash : bytes).

Lemma fork_link_indexed h e db :
  index_get h db = Ok (Some e) → fork_link h db = (db, Ok (bi_height e, bi_prev_hash e)).
Proof. intros He. unfold fork_link, bind, reads. by rewrite He. Qed.

(** *** Trees of parent links *)

(** [L] gives the height and the parent of a block. *)
Section Links.
Context (L : bytes → option (Z * bytes)).

(** Every known block above height 0 has its parent known one below. *)
Definition tree_complete : Prop :=
  ∀ h n p, L h = Some (n, p) → 0 ≤ n ∧ (0 < n → ∃ q, L p = Some (n - 1, q)).

(** [x :: l] is a path of parent links that ends at [tip]. *)
Fixpoint branch (x : bytes) (l : list bytes) (tip : bytes) : Prop :=
  match l with
  | [] => x = tip
  | y :: l' => (∃ n, L y = Some (n, x) ∧ 0 < n) ∧ branch y l' tip
  end.
Definition at_height (h : bytes) (n : Z) : Prop := ∃ p, L h = Some (n, p).

Fixpoint nth_link (n : nat) (h : bytes) : option bytes :=
  match n with
  | O => Some h
  | S n' => match L h with Some (_, p) => nth_link n' p | None => None end
  end.

Lemma at_height_fun h n m : at_height h n → at_height h m → n = m.
Proof. intros (p & Hp) (q & Hq). congruence. Qed.
Lemma parent_at_height h n p : tree_complete → L h = Some (n, p) → 0 < n → at_height p (n - 1).
Proof. intros Hc Hh Hpos. destruct (Hc h n p Hh) as [_ Hp]. by apply Hp. Qed.
Lemma nth_link_S n h y : nth_link n h = Some y → nth_link (S n) h = snd <$> L y.
Proof.
  revert h. induction n as [|n IH]; intros h Hn.
  - injection Hn as <-. cbn. by destruct (L h) as [[]|].
  - cbn [nth_link] in Hn. change (nth_link (S (S n)) h) with (match L h with Some (_, p) => nth_link (S n) p | None => None end).
    destruct (L h) as [[m p]|]; [|done]. by apply IH.
Qed.

(** Consecutive elements are parent and child. *)
Lemma branch_prev x l tip i w :
  branch x l tip → l !! i = Some w → ∃ n p, L w = Some (n, p) ∧ 0 < n ∧ (x :: l) !! i = Some p.
Proof.
  revert x i. induction l as [|y l IH]; intros x i Hb Hi; [done|].
  destruct Hb as [(n & Hn & Hpos) Hb]. destruct i as [|i].
  - injection Hi as <-. by exists n, x.
  - by apply (IH y i).
Qed.

(** The element at index [i] of a path sits [i] heights above its start. *)
Lemma branch_height x l tip n i w :
  tree_complete → branch x l tip → at_height x n → (x :: l) !! i = Some w → at_height w (n + Z.of_nat i).
Proof.
  intros Hc Hb Hx. revert w. induction i as [|i IH]; intros w Hi.
  { injection Hi as <-. by replace (n + Z.of_nat 0) with n by lia. }
  destruct (branch_prev x l tip i w Hb Hi) as (k & p & Hk & Hpos & Hp).
  pose proof (parent_at_height w k p Hc Hk Hpos) as Hpar.
  pose proof (at_height_fun _ _ _ Hpar (IH _ Hp)). exists p. rewrite Hk. do 2 f_equal. lia.
Qed.



(** Two paths to the same tip: the one that starts lower contains the other's
    start. *)
Lemma branch_nth x l tip i :
  branch x l tip → (i ≤ length l)%nat →
  ∃ y, nth_link i tip = Some y ∧ (x :: l) !! (length l - i)%nat = Some y.
Proof.
  revert x i. induction l as [|z l IH]; intros x i Hb Hi.
  { cbn in *. subst. exists tip. by replace i with 0%nat by lia. }
  destruct Hb as [(n & Hn & _) Hb]. cbn [length] in *.
  destruct (decide (i = S (length l))) as [->|Hne].
  - destruct (IH z (length l) Hb) as (y & Hy & Hz); [lia|].
    rewrite Nat.sub_diag in Hz. injection Hz as <-. exists x. rewrite (nth_link_S _ _ _ Hy), Hn.
    split; [done|]. by rewrite Nat.sub_diag.
  - destruct (IH z i Hb) as (y & Hy & Hz); [lia|]. exists y. split; [done|].
    by replace (S (length l) - i)%nat with (S (length l - i)) by lia.
Qed.

Lemma branch_tip_height x l tip n :
  tree_complete → branch x l tip → at_height x n → at_height tip (n + Z.of_nat (length l)).
Proof.
  intros Hc Hb Hx. destruct (branch_nth x l tip 0 Hb) as (y & Hn & Hy); [lia|].
  injection Hn as <-. rewrite Nat.sub_0_r in Hy. by eapply branch_height.
Qed.

Lemma branch_contains x l y k tip n m :
  tree_complete → branch x l tip → branch y k tip →
  at_height x n → at_height y m → n ≤ m → y ∈ x :: l.
Proof.
  intros Hc Hb Hb' Hx Hy Hle.
  pose proof (branch_tip_height _ _ _ _ Hc Hb Hx) as H1.
  pose proof (branch_tip_height _ _ _ _ Hc Hb' Hy) as H2.
  pose proof (at_height_fun _ _ _ H1 H2) as Hlen.
  destruct (branch_nth x l tip (length k) Hb) as (z & Hn & Hz); [lia|].
  destruct (branch_nth y k tip (length k) Hb') as (z' & Hn' & Hz'); [lia|].
  rewrite Nat.sub_diag in Hz'. injection Hz' as <-. assert (z = y) as -> by congruence.
  by eapply list_elem_of_lookup_2.
Qed.

(** A path through a block of another path to the same tip reaches that block. *)
Lemma branch_below x l y k tip n m :
  tree_complete → branch x l tip → branch y k tip → at_height x n → at_height y m → n ≤ m → ∃ l', branch x l' y.
Proof.
  intros Hc Hb Hb' Hx Hy Hle. pose proof (branch_contains x l y k tip n m Hc Hb Hb' Hx Hy Hle) as Hin. clear -Hb Hin.
  revert x Hb Hin. induction l as [|z l IH]; intros x Hb Hin.
  - apply list_elem_of_singleton in Hin as ->. by exists [].
  - apply elem_of_cons in Hin as [->|Hin]; [by exists []|]. destruct Hb as [Hz Hb].
    destruct (IH z Hb Hin) as [l' Hl']. by exists (z :: l').
Qed.
(** A path ends at its tip, or runs through the tip's parent. *)
Lemma branch_last x l cur n p :
  branch x l cur → L cur = Some (n, p) → x = cur ∨ ∃ l', branch x l' p.
Proof.
  revert x. induction l as [|y l IH]; intros x Hb Hcur; [by left|].
  destruct Hb as [(k & Hy & Hpos) Hb]. right. destruct (IH y Hb Hcur) as [->|[l' Hl']].
  - exists []. cbn. congruence.
  - exists (y :: l'). split; [by exists k|done].
Qed.
Lemma branch_snoc x l p cur n : branch x l p → L cur = Some (n, p) → 0 < n → branch x (l ++ [cur]) cur.
Proof.
  intros Hb Hcur Hpos. revert x Hb. induction l as [|y l IH]; intros x Hb.
  - cbn in Hb. subst. split; [by exists n|done].
  - destruct Hb as [Hy Hb]. split; [done|by apply IH].
Qed.
(** A path to [cur] starts at a height between 0 and that of [cur]. *)
Lemma branch_range x l cur m k :
  tree_complete → branch x l cur → at_height x m → at_height cur k → is_u64 k →
  0 ≤ m ≤ k ∧ is_u64 m ∧ (m = k → x = cur).
Proof.
  intros Hc Hb Hx Hcur Hu. pose proof (branch_tip_height _ _ _ _ Hc Hb Hx) as Ht.
  pose proof (at_height_fun _ _ _ Hcur Ht).
  assert (0 ≤ m) by (destruct Hx as (p & Hp); by destruct (Hc x m p Hp)).
  unfold is_u64 in *. split_and!; try lia. intros ->. destruct l; [done|]. cbn in *. lia.
Qed.
End Links.

(** *** The links the walks see *)

(** The row of the index, or for a block without one its header and height rows. *)
Definition index_links (db : database) (h : bytes) : option (Z * bytes) :=
  match index_get h db with Ok (Some e) => Some (bi_height e, bi_prev_hash e) | _ => None end.
Definition fork_links (db : database) (h : bytes) : option (Z * bytes) :=
  if bool_decide (h = SEQUENCE_COUNTER_KEY) then None
  else match index_get h db with
       | Ok (Some e) => Some (bi_height e, bi_prev_hash e)
       | Ok None =>
           match get_header h db, get_height_by_hash h db with
           | Ok (Some hd), Ok (Some g) => Some (g, prev_block_hash hd)
           | _, _ => None
           end
       | Err _ => None
       end.
(** Stored headers have 32-byte parents. *)
Definition header_links_ok (db : database) : Prop :=
  ∀ h hd, get_header h db = Ok (Some hd) → is_hash (prev_block_hash hd).
(** One block without an index row is given the row of its header. *)
Definition records (db db' : database) : Prop :=
  ∃ h hd g, h ≠ SEQUENCE_COUNTER_KEY ∧ index_get h db = Ok None ∧ get_header h db = Ok (Some hd) ∧
    get_height_by_hash h db = Ok (Some g) ∧ db' = (record_connected_block h g (prev_block_hash hd) db).1.

#[export] Instance get_height_by_hash_proper : Proper (eq ==> same_tree hash_height_t ==> eq) get_height_by_hash.
Proof. intros h ? <- d d' Hs. unfold get_height_by_hash. by rewrite Hs. Qed.
Lemma get_header_same h d d' :
  same_tree hash_height_t d d' → same_tree headers_t d d' → get_header h d = get_header h d'.
Proof. intros H1 H2. unfold get_header. rewrite H1. destruct (get_height_by_hash h d') as [[g|]|]; cbn; by rewrite ?H2. Qed.

Lemma record_new_run h g p db :
  h ≠ SEQUENCE_COUNTER_KEY → is_u64 g → is_hash p → index_get h db = Ok None →
  ∃ db' e, record_connected_block h g p db = (db', Ok tt) ∧ bi_height e = g ∧ bi_prev_hash e = p ∧
    (∀ x, x ≠ SEQUENCE_COUNTER_KEY → index_get x db' = if decide (h = x) then Ok (Some e) else index_get x db) ∧
    ∀ t, t ≠ index_tree → same_tree t db' db.
Proof.
  intros Hne Hg Hp Hn. set (s := if is_invalid h db then Invalid else Valid).
  set (e := mkEntry g p s (peek_next_sequence_id db)).
  assert (entry_ok e) as He.
  { split_and!; [done..|]. unfold e, peek_next_sequence_id. cbn. apply sat_add_u64; [apply read_counter_u64|unfold is_u64; lia]. }
  eexists _, e. split_and!.
  - unfold record_connected_block, bind, gets, index_insert, index_prepare_insert. rewrite Hn. cbn [rbind]. fold s e. reflexivity.
  - done.
  - done.
  - intros x Hx. unfold prepared_ops. cbn [entry_bytes counter_bytes]. rewrite !commit_keyed_cons, commit_keyed_nil. cbn [apply_op].
    rewrite index_get_frame by congruence. by rewrite index_get_put.
  - intros t Ht. unfold prepared_ops. apply same_tree_keyed. rewrite !Forall_cons. cbn. auto.
Qed.
Lemma records_links db db' : header_links_ok db → records db db' → header_links_ok db' ∧ ∀ x, fork_links db' x = fork_links db x.
Proof.
  intros Hok (h & hd & g & Hne & Hn & Hhd & Hg & ->).
  assert (is_u64 g) as Hu.
  { unfold get_height_by_hash in Hg. destruct (tree_get _ _ _) as [v|]; [|done]. case_bool_decide as Hl; [|done].
    injection Hg as <-. pose proof (of_be_range v) as Hr. rewrite Hl in Hr. exact Hr. }
  destruct (record_new_run h g (prev_block_hash hd) db Hne Hu (Hok _ _ Hhd) Hn) as (db' & e & Hrun & He & Hp & Hget & Hs).
  rewrite Hrun. cbn [fst].
  assert (∀ x, get_header x db' = get_header x db) as Hh by (intros x; apply get_header_same; apply Hs; tree_ne).
  split; [intros x y; rewrite Hh; apply Hok|]. intros x. unfold fork_links. case_bool_decide as Hx; [done|].
  rewrite Hget, Hh, (get_height_by_hash_proper x x eq_refl _ _ (Hs hash_height_t ltac:(tree_ne))) by done.
  case_decide as Hhx; [|done]. subst x. by rewrite Hn, Hhd, Hg, He, Hp.
Qed.

(** [db] is reached by such records and still shows the links [L]. *)
Definition sees (L : bytes → option (Z * bytes)) (db : database) : Prop :=
  header_links_ok db ∧ ∀ x, fork_links db x = L x.
Lemma sees_records L db db' : sees L db → rtc records db db' → sees L db'.
Proof.
  intros Hs Hr. induction Hr as [|d d1 d2 Hd _ IH]; [done|]. apply IH. destruct Hs as [Hok Hsee].
  destruct (records_links d d1 Hok Hd) as [Hok1 Hsee1]. split; [done|]. intros x. by rewrite Hsee1.
Qed.
Lemma fork_link_run L h n p db :
  sees L db → L h = Some (n, p) → ∃ db', fork_link h db = (db', Ok (n, p)) ∧ rtc records db db'.
Proof.
  intros [Hok Hsee] Hh. rewrite <-Hsee in Hh. unfold fork_links in Hh. case_bool_decide as Hne; [done|].
  destruct (index_get h db) as [[e|]|] eqn:Ei; [| |done].
  - injection Hh as <- <-. exists db. by rewrite (fork_link_indexed h e db Ei).
  - destruct (get_header h db) as [[hd|]|] eqn:Ehd; [|done..].
    destruct (get_height_by_hash h db) as [[g|]|] eqn:Eg; [|done..]. injection Hh as <- <-.
    exists (record_connected_block h g (prev_block_hash hd) db).1. split; [|apply rtc_once; exists h, hd, g; by split_and!].
    unfold fork_link, bind, reads, lift. rewrite Ei, Ehd. cbn [of_option]. rewrite Eg. cbn [of_option].
    assert ((record_connected_block h g (prev_block_hash hd) db).2 = Ok tt) as Hr.
    { unfold record_connected_block, bind, gets, index_insert, index_prepare_insert. by rewrite Ei. }
    destruct (record_connected_block h g (prev_block_hash hd) db) as [d r]. cbn in Hr. by subst r.
Qed.

(** *** The loops *)

Lemma climb_spec L n h acc db tip m :
  sees L db → tree_complete L → at_height L h m → Z.of_nat n ≤ m → branch L h acc tip →
  ∃ db' h' acc', climb n h acc db = (db', Ok (h', acc')) ∧ rtc records db db' ∧
    at_height L h' (m - Z.of_nat n) ∧ branch L h' acc' tip ∧ (n = 0%nat → acc' = acc).
Proof.
  intros Hs Hc. revert h acc m db Hs. induction n as [|n IH]; intros h acc m db Hs Hh Hn Hb.
  { exists db, h, acc. split_and!; try done. by replace (m - Z.of_nat 0) with m by lia. }
  destruct Hh as (p & Hp). cbn [climb]. unfold bind.
  destruct (fork_link_run L h m p db Hs Hp) as (db1 & -> & Hr1). cbn [snd].
  destruct (IH p (h :: acc) (m - 1) db1) as (db' & h' & acc' & Hrun & Hr & Hh' & Hb' & _).
  - by eapply sees_records.
  - apply (parent_at_height L h m p); [done|done|lia].
  - lia.
  - cbn [branch]. split; [|done]. exists m. split; [done|lia].
  - exists db', h', acc'. split_and!; try done; [by etransitivity|].
    by replace (m - Z.of_nat (S n)) with (m - 1 - Z.of_nat n) by lia.
Qed.


End ForkLemmas.

(** ** Theorems *)

Section ForkTheorems.
Context {U : U256Ops} {UL : U256Laws U} {K : Consensus} {KL : ConsensusLaws K}.
Context {EC : Codec BlockIndexEntry} {EL : CodecLaws BlockIndexEntry entry_ok}.
Context {IC : Codec ChainInfo} {IL : CodecLaws ChainInfo info_ok}.
Context {HC : Codec BlockHeader} {HL : CodecLaws BlockHeader header_ok}.


(** *** Bodies *)

Section Load.
Context {Blk : Type} (load : bytes → database → result Blk) (body : bytes → Blk) (db0 : database).
Context (L : bytes → option (Z * bytes)) (Hs0 : sees L db0) (Hc : tree_complete L).
(** Bodies load, also after the walk has recorded blocks. *)
Context (Hload : ∀ h n d, rtc records db0 d → at_height L h n → load h d = Ok (body h)).

Lemma climb_blocks_map n h acc m db :
  rtc records db0 db → at_height L h m → Z.of_nat n ≤ m →
  climb_blocks load n h (body <$> acc) db =
  match climb n h acc db with
  | (db', Ok r) => (db', Ok (r.1, body <$> r.2))
  | (db', Err e) => (db', Err e)
  end.
Proof.
  revert h acc m db. induction n as [|n IH]; intros h acc m db Hr Hh Hn; [done|].
  cbn [climb climb_blocks]. unfold bind, reads. rewrite (Hload h m db Hr Hh). destruct Hh as (p & Hp).
  pose proof (sees_records _ _ _ Hs0 Hr) as Hs.
  destruct (fork_link_run L h m p db Hs Hp) as (d1 & -> & R1).
  cbn [snd]. change (body h :: (body <$> acc)) with (body <$> h :: acc).
  apply (IH _ _ (m - 1)); [by etransitivity| |lia]. apply (parent_at_height L h m p); [done..|lia].
Qed.

Lemma meet_blocks_map h a c fa fc db :
  rtc records db0 db → at_height L a (Z.of_nat h) → at_height L c (Z.of_nat h) →
  meet_blocks load h a c (body <$> fa) (body <$> fc) db =
  match meet h a c fa fc db with
  | (db', Ok r) => (db', Ok (body <$> r.1, body <$> r.2))
  | (db', Err e) => (db', Err e)
  end.
Proof.
  revert a c fa fc db. induction h as [|h IH]; intros a c fa fc db Hr Ha Hcc;
    cbn [meet meet_blocks]; unfold bind, reads; case_bool_decide; try subst c;
    rewrite ?(Hload a _ db Hr Ha), ?(Hload c _ db Hr Hcc); try done.
  pose proof (sees_records _ _ _ Hs0 Hr) as Hs.
  destruct Ha as (pa & Hpa), Hcc as (pc & Hpc).
  destruct (fork_link_run L a _ pa db Hs Hpa) as (d1 & -> & R1). pose proof (sees_records _ _ _ Hs R1) as S1.
  destruct (fork_link_run L c _ pc d1 S1 Hpc) as (d2 & -> & R2). cbn [snd].
  change (body a :: (body <$> fa)) with (body <$> a :: fa).
  change (body c :: (body <$> fc)) with (body <$> c :: fc). apply IH; [by do 2 (etransitivity; [done|])|..].
  - replace (Z.of_nat h) with (Z.of_nat (S h) - 1) by lia. apply (parent_at_height L a _ pa); [done..|lia].
  - replace (Z.of_nat h) with (Z.of_nat (S h) - 1) by lia. apply (parent_at_height L c _ pc); [done..|lia].
Qed.
End Load.

(** The body walk and the hash walk agree: when the body of every linked block
    loads, [collect_fork_chains] returns the bodies of exactly the hashes that
    [fork_hash_chains] returns, or the same error. *)
Theorem collect_fork_chains_equiv {Blk} (load : bytes → database → result Blk)
    (body : bytes → Blk) (active candidate : bytes) (n m : Z) (db : database) :
  let L := fork_links db in
  header_links_ok db → tree_complete L → at_height L active n → at_height L candidate m →
  (∀ h n d, rtc records db d → at_height L h n → load h d = Ok (body h)) →
  collect_fork_chains load active candidate db =
  match fork_hash_chains active candidate db with
  | (db', Ok r) => (db', Ok (body <$> r.1, body <$> r.2))
  | (db', Err e) => (db', Err e)
  end.
Proof.
  intros L Hok Hc Ha Hcd Hload. pose proof Ha as (pa & Hpa). pose proof Hcd as (pc & Hpc).
  destruct (Hc active n pa Hpa) as [Hn0 _]. destruct (Hc candidate m pc Hpc) as [Hm0 _].
  assert (sees L db) as Hs by done.
  destruct (fork_link_run L active n pa db Hs Hpa) as (d1 & E1 & R1). pose proof (sees_records _ _ _ Hs R1) as S1.
  destruct (fork_link_run L candidate m pc d1 S1 Hpc) as (d2 & E2 & R2). pose proof (sees_records _ _ _ S1 R2) as S2.
  destruct (climb_spec L (Z.to_nat (n - m)) active [] d2 active n) as (d3 & a' & aa & E3 & R3 & Ha' & _);
    [done|done|done|lia|done|]. pose proof (sees_records _ _ _ S2 R3) as S3.
  destruct (climb_spec L (Z.to_nat (m - n)) candidate [] d3 candidate m)
    as (d4 & c' & ac & E4 & R4 & Hc' & _); [done|done|done|lia|done|]. pose proof (sees_records _ _ _ S3 R4) as S4.
  unfold collect_fork_chains, fork_hash_chains, with_context, bind. rewrite E1, E2. cbn [fst snd].
  assert (rtc records db d2) as T2 by by etransitivity.
  assert (rtc records db d3) as T3 by by etransitivity. assert (rtc records db d4) as T4 by by etransitivity.
  rewrite (climb_blocks_map load body db L Hs Hc Hload _ active [] n), E3 by (done || lia). cbn [fst snd].
  rewrite (climb_blocks_map load body db L Hs Hc Hload _ candidate [] m), E4 by (done || lia). cbn [fst snd].
  rewrite (meet_blocks_map load body db L Hs Hc Hload _ a' c' [] []).
  - destruct (meet _ a' c' [] [] d4) as [db' [r|e]]; [|done]. cbn. by rewrite !fmap_app.
  - done.
  - by replace (Z.of_nat _) with (n - Z.of_nat (Z.to_nat (n - m))) by lia.
  - by replace (Z.of_nat _) with (m - Z.of_nat (Z.to_nat (m - n))) by lia.
Qed.

(** Fork choice is strict and does not flip back: a candidate is activated
    exactly when it is another block with strictly more recorded work (an unknown
    block counts as zero), and once the tip has moved to it, with the work rows
    unchanged, the old tip is not activated over it. *)
Theorem fork_choice_strict (candidate tip : bytes) (hgt hgt' : Z) (db db' : database) :
  get_tip_hash_and_height db = Ok (tip, hgt) →
  (should_activate_over_active_tip candidate db = Ok true ↔
     candidate ≠ tip ∧
     u256_val (chainwork_at tip db) < u256_val (chainwork_at candidate db)) ∧
  heavier_than_active_tip candidate db = should_activate_over_active_tip candidate db ∧
  (should_activate_over_active_tip candidate db = Ok true →
   get_tip_hash_and_height db' = Ok (candidate, hgt') → same_tree chainwork_t db' db →
   should_activate_over_active_tip tip db' = Ok false).
Proof.
  intros Htip.
  assert (should_activate_over_active_tip candidate db = Ok true ↔
     candidate ≠ tip ∧
     u256_val (chainwork_at tip db) < u256_val (chainwork_at candidate db)) as Hiff.
  { unfold should_activate_over_active_tip. rewrite Htip. cbn [rbind fst].
    case_bool_decide; [naive_solver|]. rewrite u256_gt_spec.
    split; [intros [= Hlt%Z.ltb_lt]; done|]. intros [_ Hlt]. f_equal. by apply Z.ltb_lt. }
  split; [done|]. split; [done|]. intros [Hne Hlt]%Hiff Htip' Hs.
  unfold should_activate_over_active_tip. rewrite Htip'. cbn [rbind fst].
  rewrite bool_decide_eq_false_2 by done. f_equal. rewrite u256_gt_spec.
  unfold chainwork_at in *. rewrite !Hs. apply Z.ltb_ge. lia.
Qed.

(** *** The height index *)

Definition height_row (m : Z) (db : database) : option bytes := tree_get height_t (to_be 8 m) db.

(** Index rows are keyed by hashes and hold [u64] heights. *)
Definition index_rows_ok (db : database) : Prop :=
  ∀ h e, index_get h db = Ok (Some e) → is_hash h ∧ is_u64 (bi_height e).

(** Below an active block its parent is active. *)
Definition active_closed (db : database) : Prop :=
  ∀ x n p, index_links db x = Some (n, p) → 0 < n → height_row n db = Some x → height_row (n - 1) db = Some p.

Lemma active_closed_branch db x l cur m k :
  tree_complete (index_links db) → active_closed db → branch (index_links db) x l cur →
  at_height (index_links db) x m → at_height (index_links db) cur k → height_row k db = Some cur → height_row m db = Some x.
Proof.
  intros Hc Hcl. revert x m. induction l as [|y l IH]; intros x m Hb Hx Hcur Hrow.
  { cbn in Hb. subst. by rewrite (at_height_fun _ _ _ _ Hx Hcur). }
  destruct Hb as [(n & Hn & Hpos) Hb].
  pose proof (parent_at_height _ y n x Hc Hn Hpos) as Hp.
  rewrite (at_height_fun _ _ _ _ Hx Hp).
  apply (Hcl y n x Hn Hpos), (IH y); try done. by exists x.
Qed.

Lemma height_row_store m h d m' :
  is_u64 m → is_u64 m' →
  height_row m' (store_height m h d).1 = if decide (m = m') then Some h else height_row m' d.
Proof.
  intros Hm Hm'. unfold store_height, modify, height_row. cbn [fst].
  rewrite !commit_keyed_cons, commit_keyed_nil. cbn [apply_op].
  rewrite (tree_get_insert_ne hash_height_t) by tree_ne. case_decide as Heq.
  - subst. apply tree_get_insert_eq.
  - apply tree_get_insert_ne. by apply height_row_ne.
Qed.

Lemma store_height_ok m h d :
  height_rows_ok d → is_hash h → height_rows_ok (store_height m h d).1.
Proof.
  intros [H1 H2] Hh. unfold store_height, modify. cbn [fst].
  rewrite !commit_keyed_cons, commit_keyed_nil. cbn [apply_op].
  split; intros k v; rewrite !tree_get_insert; repeat case_decide; simplify_eq;
    intros Hv; simplify_eq; eauto using length_to_be.
Qed.

Lemma store_height_same t m h d :
  t ≠ height_t → t ≠ hash_height_t → same_tree t (store_height m h d).1 d.
Proof. intros H1 H2. apply same_tree_keyed. rewrite !Forall_cons. cbn. auto. Qed.

(** What storing one height gives the rest of the walk. *)
Lemma refresh_store k cur d db d1 r1 :
  store_height k cur d = (d1, r1) → height_rows_ok d → is_hash cur → is_u64 k →
  same_tree index_tree d db →
  r1 = Ok tt ∧ height_rows_ok d1 ∧ same_tree index_tree d1 db ∧
  ∀ m, is_u64 m → height_row m d1 = if decide (k = m) then Some cur else height_row m d.
Proof.
  intros Hst Hok Hh Hu Hs. assert (d1 = (store_height k cur d).1) as -> by by rewrite Hst.
  split_and!.
  - unfold store_height, modify in Hst. congruence.
  - by apply store_height_ok.
  - etransitivity; [apply store_height_same; tree_ne|done].
  - intros m Hm. by apply height_row_store.
Qed.

(** The height below which the refresh stops: the first block of the branch that
    is active already, or the one at height 0. *)
Lemma refresh_loop_spec fuel cur seen k d db :
  let L := index_links db in
  tree_complete L → index_rows_ok db → height_rows_ok d →
  same_tree index_tree d db → (∀ m, 0 ≤ m ≤ k → is_u64 m → height_row m d = height_row m db) →
  at_height L cur k → k < Z.of_nat fuel → (∀ x, x ∈ seen → ∃ m, k < m ∧ at_height L x m) →
  ∃ d' stop l0 j, refresh_loop fuel cur seen d = (d', Ok tt) ∧ same_tree index_tree d' db ∧
    branch L stop l0 cur ∧ at_height L stop j ∧ (j = 0 ∨ height_row j db = Some stop) ∧
    (∀ x l m, branch L x l cur → at_height L x m → j < m → height_row m db ≠ Some x) ∧
    (∀ x l m, branch L x l cur → at_height L x m → j ≤ m → height_row m d' = Some x) ∧
    (∀ m, m < j ∨ k < m → is_u64 m → height_row m d' = height_row m d).
Proof.
  intros L Hc Hix. revert cur seen k d.
  induction fuel as [|fuel IH]; intros cur seen k d Hok Hs Hlow Hcur Hf Hseen;
    pose proof Hcur as (p & Hp); destruct (Hc cur k p Hp) as [H0 _]; [lia|].
  assert (∃ e, index_get cur db = Ok (Some e) ∧ bi_height e = k ∧ bi_prev_hash e = p) as (e & He & Hk & Hpe).
  { unfold L, index_links in Hp. destruct (index_get cur db) as [[e|]|]; [|done..]. injection Hp as <- <-. by exists e. }
  destruct (Hix cur e He) as [Hhash Hu]. rewrite Hk in Hu.
  assert (cur ∉ seen) as Hfresh.
  { intros Hin. destruct (Hseen cur Hin) as (m & ? & Hm). pose proof (at_height_fun _ _ _ _ Hcur Hm). lia. }
  assert (∀ x l m, branch L x l cur → at_height L x m → k ≤ m → m = k ∧ x = cur) as Htop.
  { intros x l m Hb Hx Hm. destruct (branch_range _ _ _ _ _ _ Hc Hb Hx Hcur Hu) as (? & _ & Heq).
    assert (m = k) as -> by lia. auto. }
  cbn [refresh_loop]. rewrite bool_decide_eq_false_2 by done.
  unfold bind at 1, reads at 1. rewrite (index_get_proper cur cur eq_refl _ _ Hs), He.
  unfold bind at 1, reads at 1. rewrite get_hash_total by done.
  rewrite Hk. case_bool_decide as Hrow; fold (height_row k d) in Hrow.
  { exists d, cur, [], k. split_and!; try done.
    - right. by rewrite <-Hlow by (done || lia).
    - intros x l m Hb Hx Hm. destruct (Htop x l m Hb Hx ltac:(lia)). lia.
    - intros x l m Hb Hx Hm. by destruct (Htop x l m Hb Hx Hm) as [-> ->]. }
  assert (height_row k db ≠ Some cur) as Hnot by (rewrite <-Hlow by (done || lia); intros Hr; by rewrite Hr in Hrow).
  unfold bind. destruct (store_height k cur d) as [d1 r1] eqn:Est.
  destruct (refresh_store _ _ _ _ _ _ Est Hok Hhash Hu Hs) as (-> & Hok1 & Hs1 & Hrow1).
  case_bool_decide as Hz.
  { exists d1, cur, [], k. split_and!; try done; [by left|..].
    - intros x l m Hb Hx Hm. destruct (Htop x l m Hb Hx ltac:(lia)). lia.
    - intros x l m Hb Hx Hm. destruct (Htop x l m Hb Hx Hm) as [-> ->]. rewrite Hrow1 by done. by rewrite decide_True.
    - intros m Hm Hmu. rewrite Hrow1 by done. by rewrite decide_False by lia. }
  rewrite Hpe. assert (0 < k) as Hpos by lia.
  destruct (IH p ({[cur]} ∪ seen) (k - 1) d1) as (d' & stop & l0 & j & Hrun & Hs' & Hb0 & Hj & Hstop & Hmin & Hpath & Hout); try done.
  - intros m Hm Hmu. rewrite Hrow1 by done. rewrite decide_False by lia. apply Hlow; [lia|done].
  - by apply (parent_at_height L cur k p).
  - lia.
  - intros x [->%elem_of_singleton|Hx]%elem_of_union; [by exists k; split; [lia|]|].
    destruct (Hseen x Hx) as (m & ? & ?). exists m. split; [lia|done].
  - assert (0 ≤ j ≤ k - 1) as Hjk.
    { destruct (branch_range _ _ _ _ _ _ Hc Hb0 Hj (parent_at_height L cur k p Hc Hp Hpos)) as (? & _); [unfold is_u64 in *; lia|done]. }
    exists d', stop, (l0 ++ [cur]), j. split_and!; try done.
    + by eapply branch_snoc.
    + intros x l m Hb Hx Hm. destruct (branch_last L x l cur k p Hb Hp) as [->|[l' Hl']]; [|by eapply Hmin].
      by rewrite (at_height_fun _ _ _ _ Hx Hcur).
    + intros x l m Hb Hx Hm. destruct (branch_last L x l cur k p Hb Hp) as [->|[l' Hl']]; [|by eapply Hpath].
      rewrite (at_height_fun _ _ _ _ Hx Hcur). rewrite Hout by (done || lia). rewrite Hrow1 by done. by rewrite decide_True.
    + intros m Hm Hmu. rewrite Hout by (done || lia). rewrite Hrow1 by done. by rewrite decide_False by lia.
Qed.

(** [C26] After a tip change the refresh walks down the new branch and returns
    (fuel above the tip height is enough): it stops at the first block of the
    branch that was already the active hash at its height, or at height 0.  From
    there up to the tip every block of the branch is then the active hash at its
    height, and no row below that block or above the tip changes.  So the rows
    below are those of the new chain when they agreed with the blocks above them
    before ([active_closed]); after a switch to a shorter chain they need not,
    since the rows of the old chain above its tip stay. *)
Theorem refresh_active_height_index_correct (fuel : nat) (tip : bytes) (n : Z) (db : database) :
  let L := index_links db in
  tree_complete L → index_rows_ok db → height_rows_ok db → at_height L tip n → n < Z.of_nat fuel →
  ∃ db' stop l0 j, refresh_active_height_index fuel tip db = (db', Ok tt) ∧
    branch L stop l0 tip ∧ at_height L stop j ∧ (j = 0 ∨ height_row j db = Some stop) ∧
    (∀ x l m, branch L x l tip → at_height L x m → j < m → height_row m db ≠ Some x) ∧
    (∀ x l m, branch L x l tip → at_height L x m → j ≤ m ∨ active_closed db → height_row m db' = Some x) ∧
    (∀ m, m < j ∨ n < m → is_u64 m → height_row m db' = height_row m db).
Proof.
  intros L Hc Hix Hok Htip Hf.
  destruct (refresh_loop_spec fuel tip ∅ n db db) as (db' & stop & l0 & j & Hrun & _ & Hb0 & Hj & Hstop & Hmin & Hpath & Hout); try done.
  exists db', stop, l0, j. split_and!; try done. intros x l m Hb Hx Hm.
  destruct (Z.le_gt_cases j m) as [|Hlt]; [by eapply Hpath|]. destruct Hm as [|Hcl]; [lia|].
  assert (is_u64 n) as Hu.
  { destruct Htip as (p & Hp). unfold L, index_links in Hp. destruct (index_get tip db) as [[e|]|] eqn:He; [|done..].
    injection Hp as <- _. by apply (Hix tip e). }
  destruct (branch_range _ _ _ _ _ _ Hc Hb Hx Htip Hu) as (? & Hmu & _). rewrite Hout by (done || lia).
  destruct Hstop as [->|Hrow]; [lia|].
  destruct (branch_below L x l stop l0 tip m j Hc Hb Hb0 Hx Hj ltac:(lia)) as [l' Hl']. by eapply active_closed_branch.
Qed.

(** *** Bridging missing chainwork *)

(** The headers from height [n] downwards whose work has to be summed: each is
    the active header at its height and hashes to the link above it; the last
    one is genesis or sits on a block whose work [base] is stored. *)
Fixpoint gap_run (db : database) (n : nat) (expected : bytes) (hs : list BlockHeader) (base : Z)
    {struct hs} : Prop :=
  match hs with
  | [] => False
  | hd :: rest =>
      get_header_at_height (Z.of_nat n) db = Ok (Some hd) ∧ calculate_hash hd = expected ∧
      match n, rest with
      | O, [] => base = 0
      | O, _ => False
      | S _, [] => ∃ p, get_chainwork (prev_block_hash hd) db = Some p ∧ u256_val p = base
      | S n', _ => get_chainwork (prev_block_hash hd) db = None ∧
                   gap_run db n' (prev_block_hash hd) rest base
      end
  end.

Definition headers_work (hs : list BlockHeader) : Z :=
  foldr (λ h acc, u256_val (calculate_work_from_bits (bits h)) + acc) 0 hs.

Lemma headers_work_nonneg hs : 0 ≤ headers_work hs.
Proof.
  induction hs as [|h hs IH]; [done|]. cbn [headers_work foldr]. unfold headers_work in IH.
  pose proof (u256_val_range (calculate_work_from_bits (bits h))). lia.
Qed.
Lemma gap_run_base db n ex hs base : gap_run db n ex hs base → 0 ≤ base.
Proof.
  revert n ex. induction hs as [|hd rest IH]; intros n ex; [done|]. cbn [gap_run].
  intros (_ & _ & H). destruct n as [|n], rest as [|r rest]; try done; [lia| |].
  - destruct H as (p & _ & <-). apply u256_val_range.
  - destruct H as [_ H]. by eapply IH.
Qed.

Lemma cumulative_loop_spec db n ex hs base above own walked :
  gap_run db n ex hs base →
  ∃ cw o, cumulative_loop n ex above own walked db = Ok (cw, o, walked + Z.of_nat (length hs)) ∧
    u256_val cw = Z.min (base + headers_work hs + u256_val above) u256_max.
Proof.
  revert n ex above own walked. induction hs as [|hd rest IH]; intros n ex above own walked Hrun; [done|].
  pose proof (gap_run_base _ _ _ _ _ Hrun) as Hb. destruct Hrun as (Hhd & Hhash & Hrest).
  set (w := calculate_work_from_bits (bits hd)).
  pose proof (u256_val_range w). pose proof (u256_val_range above).
  pose proof (headers_work_nonneg rest) as Hnn.
  cbn [headers_work foldr length]. fold (headers_work rest) w.
  destruct n as [|n]; cbn [cumulative_loop]; rewrite Hhd; cbn [rbind];
    rewrite bool_decide_eq_false_2 by tauto; fold w.
  - destruct rest; [|done]. subst base. eexists _, _. split; [done|]. rewrite u256_val_add.
    change (headers_work []) with 0. lia.
  - destruct rest as [|r rest].
    + destruct Hrest as (p & -> & <-). eexists _, _. split; [done|]. rewrite !u256_val_add.
      pose proof (u256_val_range p). change (headers_work []) with 0. lia.
    + destruct Hrest as [-> Hrest].
      destruct (IH n (prev_block_hash hd) (u256_saturating_add above w) (Some (default w own))
                  (walked + 1) Hrest) as (cw & o & -> & Hv).
      exists cw, o. split.
      { by replace (walked + Z.of_nat (S (length (r :: rest))))
          with (walked + 1 + Z.of_nat (length (r :: rest))) by lia. }
      rewrite Hv, u256_val_add.
      set (r' := headers_work (r :: rest)) in *. lia.
Qed.

Lemma tip_inv_put_work h w1 w2 db :
  tip_inv db →
  tip_inv (tree_insert chainwork_t h (u256_to_be_bytes w2) (tree_insert work_t h w1 db)).
Proof.
  intros (oi & Hl & Hi). exists oi.
  assert (same_tree chain_info_t (tree_insert chainwork_t h (u256_to_be_bytes w2)
            (tree_insert work_t h w1 db)) db) as Hs by (rewrite !same_tree_insert by tree_ne; done).
  split; [by rewrite Hs|]. intros i Hoi. destruct (Hi i Hoi) as [Hok (Hne & Hcw & e & He & Hr)].
  split; [done|]. split_and!; [done| |].
  - rewrite get_chainwork_put. case_decide; [by eexists|].
    by rewrite same_tree_insert by tree_ne.
  - exists e. by rewrite !same_tree_insert by tree_ne.
Qed.

(** Missing chainwork is bridged exactly: when the parent of a block has no
    stored work but the header chain below it reaches genesis or a block of known
    work, [ensure_parent_chainwork] stores for the parent the sum of the proofs in
    between, [update_tip] then succeeds, and the block's cumulative work is that
    of the whole run. *)
Theorem ensure_parent_then_update_tip (h : bytes) (hd : BlockHeader) (hgt base : Z)
    (hs : list BlockHeader) (db : database) :
  index_inv db → tip_inv db → is_hash h → h ≠ SEQUENCE_COUNTER_KEY → header_ok hd →
  is_u64 hgt → 0 < hgt → read_counter db < u64_max →
  get_chainwork (prev_block_hash hd) db = None →
  gap_run db (Z.to_nat (hgt - 1)) (prev_block_hash hd) hs base →
  ∃ db1 db2 pw cw,
    ensure_parent_chainwork hd hgt db = (db1, Ok tt) ∧
    get_chainwork (prev_block_hash hd) db1 = Some pw ∧
    u256_val pw = Z.min (base + headers_work hs) u256_max ∧
    update_tip h hd hgt db1 = (db2, Ok tt) ∧ tip_inv db2 ∧
    get_chainwork h db2 = Some cw ∧
    u256_val cw = Z.min (base + headers_work (hd :: hs)) u256_max.
Proof.
  intros Hinv Htip Hh Hne Hhd Hu Hpos Hc Hnone Hrun.
  destruct (cumulative_loop_spec db _ _ hs base u256_zero None 0 Hrun) as (pw & o & Hcum & Hpw).
  rewrite u256_val_zero in Hpw.
  set (p := prev_block_hash hd) in *.
  set (db1 := tree_insert chainwork_t p (u256_to_be_bytes pw)
                (tree_insert work_t p (u256_to_be_bytes o) db)).
  assert (ensure_parent_chainwork hd hgt db = (db1, Ok tt)) as Hens.
  { unfold ensure_parent_chainwork. rewrite bool_decide_eq_false_2 by lia.
    unfold bind, gets, reads, cumulative_chainwork_at. fold p. by rewrite Hnone, Hcum. }
  assert (get_chainwork p db1 = Some pw) as Hg
    by (unfold db1; rewrite get_chainwork_put; by rewrite decide_True).
  assert (same_tree index_tree db1 db) as Hs by (unfold db1; rewrite !same_tree_insert by tree_ne; done).
  destruct (update_tip_ok h hd hgt db1 pw) as
    (db2 & i & Hup & _ & Htip2 & _ & _ & _ & _ & Hcw & _); try done.
  - by rewrite Hs.
  - by apply tip_inv_put_work.
  - by rewrite Hs.
  - unfold parent_work. by rewrite bool_decide_eq_true_2.
  - exists db1, db2, pw, (u256_saturating_add pw (calculate_work_from_bits (bits hd))).
    split_and!; try done.
    + rewrite Hpw. f_equal. lia.
    + by rewrite Hcw, decide_True.
    + rewrite u256_val_add, Hpw. cbn [headers_work foldr]. fold (headers_work hs).
      pose proof (u256_val_range (calculate_work_from_bits (bits hd))).
      pose proof (headers_work_nonneg hs). pose proof (gap_run_base _ _ _ _ _ Hrun). lia.
Qed.
End ForkTheorems.

(** ** Witnesses *)

Module ForkWitness.
Import IndexWitness ChainWitness StoreWitness StoreWitnesses.

(** The block tree of [IndexWitness]: 1 and 2 in a row, 3 and 4 on 2; here also
    the header of 5 on 4, with no index row. *)
Definition fork_db : database := (store_headers_batch [(hsh 5, hdr 5, 3)] db0).1.
Definition active_db : database := (store_headers_batch three_headers db0).1.

Definition completeb (L : bytes → option (Z * bytes)) (keys : list bytes) : bool :=
  forallb (λ h, match L h with
                | Some (n, p) =>
                    bool_decide (0 ≤ n) &&
                    (bool_decide (n = 0) ||
                     match L p with Some (k, _) => bool_decide (k = n - 1) | None => false end)
                | None => true
                end) keys.
Lemma completeb_sound L keys :
  (∀ h n p, L h = Some (n, p) → h ∈ keys) → completeb L keys = true → tree_complete L.
Proof.
  unfold completeb. rewrite forallb_forall. intros Hkeys Hall h n p Hh.
  pose proof (Hkeys h n p Hh) as Hin%list_elem_of_In. specialize (Hall _ Hin). rewrite Hh in Hall.
  apply andb_prop in Hall as [H0%bool_decide_eq_true Hp]. split; [done|].
  intros Hpos. apply orb_prop in Hp as [Hz%bool_decide_eq_true|Hp]; [lia|].
  destruct (L p) as [[k q]|]; [|done]. apply bool_decide_eq_true in Hp as ->. by exists q.
Qed.
Definition tree_keys (t : string) (db : database) : list bytes := (tree_iter t db).*1.
Lemma elem_of_tree_keys t k v db : tree_get t k db = Some v → k ∈ tree_keys t db.
Proof. intros Hv. apply (list_elem_of_fmap_2 fst (tree_iter t db) (k, v)). by apply elem_of_tree_iter. Qed.
Lemma index_links_key db h n p : index_links db h = Some (n, p) → h ∈ tree_keys index_tree db.
Proof.
  unfold index_links. destruct (index_get h db) as [[e|]|] eqn:He; [|done..]. intros _.
  destruct (index_get_row h e db He) as (v & Hv & _). by eapply elem_of_tree_keys.
Qed.
Lemma fork_links_key db h n p :
  fork_links db h = Some (n, p) → h ∈ tree_keys index_tree db ++ tree_keys hash_height_t db.
Proof.
  unfold fork_links. case_bool_decide; [done|]. intros Hl. apply elem_of_app.
  destruct (index_get h db) as [[e|]|] eqn:He; [left|right|done].
  - destruct (index_get_row h e db He) as (v & Hv & _). by eapply elem_of_tree_keys.
  - unfold get_height_by_hash in Hl. destruct (tree_get hash_height_t h db) as [v|] eqn:Hv.
    + by eapply elem_of_tree_keys.
    + by destruct (get_header h db) as [[]|].
Qed.
Definition header_links_okb (db : database) : bool :=
  forallb (λ kv, match decode_header_row kv.2 with
                 | Ok (Some hd) => bool_decide (length (prev_block_hash hd) = 32%nat)
                 | _ => true
                 end) (tree_iter headers_t db).
Lemma header_links_okb_sound db : header_links_okb db = true → header_links_ok db.
Proof.
  unfold header_links_okb. rewrite forallb_forall. intros Hall h hd Hh.
  assert (∃ k v, tree_get headers_t k db = Some v ∧ decode_header_row v = Ok (Some hd)) as (k & v & Hv & Hd).
  { unfold get_header in Hh. destruct (get_height_by_hash h db) as [[g|]|]; [| |done]; cbn [rbind] in Hh.
    - destruct (tree_get headers_t (block_height_row_key g h) db) as [v|] eqn:Hv; [by eauto|].
      destruct (tree_get headers_t h db) as [v|] eqn:Hv'; [by eauto|done].
    - destruct (tree_get headers_t h db) as [v|] eqn:Hv; [by eauto|done]. }
  apply elem_of_tree_iter, list_elem_of_In in Hv. specialize (Hall _ Hv). cbn [snd] in Hall.
  rewrite Hd in Hall. by apply bool_decide_eq_true in Hall.
Qed.

Lemma fork_db_ok : header_links_ok fork_db ∧ tree_complete (fork_links fork_db).
Proof.
  split; [apply header_links_okb_sound; vm_compute; reflexivity|].
  apply (completeb_sound _ _ (fork_links_key fork_db)). vm_compute. reflexivity.
Qed.
Lemma fork_db_at3 : at_height (fork_links fork_db) (hsh 3) 2.
Proof. exists (hsh 2). vm_compute. reflexivity. Qed.
Lemma fork_db_at5 : at_height (fork_links fork_db) (hsh 5) 3.
Proof. exists (hsh 4). vm_compute. reflexivity. Qed.

Lemma header_only_block_recorded :
  index_get (hsh 5) fork_db = Ok None ∧
  bi_height <$> match index_get (hsh 5) (fork_hash_chains (hsh 3) (hsh 5) fork_db).1 with Ok e => e | Err _ => None end
    = Some 3.
Proof. split; vm_compute; reflexivity. Qed.

Lemma collect_fork_chains_equiv_witness :
  (collect_fork_chains (λ h _, Ok h) (hsh 3) (hsh 5) fork_db).2 =
  Ok ([hsh 2; hsh 3], [hsh 2; hsh 4; hsh 5]).
Proof.
  rewrite (collect_fork_chains_equiv (λ h _, Ok h) id (hsh 3) (hsh 5) 2 3 fork_db (proj1 fork_db_ok)
             (proj2 fork_db_ok) fork_db_at3 fork_db_at5 (λ _ _ _ _ _, eq_refl)).
  vm_compute. reflexivity.
Defined.

Definition rival : database := tree_insert chainwork_t (hsh 9) (to_be 32 30) db3.
Lemma fork_choice_strict_witness : should_activate_over_active_tip (hsh 9) rival = Ok true.
Proof.
  assert (get_tip_hash_and_height rival = Ok (hsh 3, 2)) as Htip by (vm_compute; reflexivity).
  destruct (fork_choice_strict (hsh 9) (hsh 3) 2 3 rival rival Htip) as [[_ H] _].
  apply H. split; [vm_compute; congruence|vm_compute; reflexivity].
Defined.

Lemma active_db_rows_ok : index_rows_ok active_db.
Proof.
  assert (index_inv active_db) as Hinv.
  { assert (same_tree index_tree active_db db0) as Hs; [|rewrite Hs; exact db0_inv].
    unfold active_db. cbn [store_headers_batch three_headers]. unfold bind, reads, modify.
    destruct (claim_loop _ _ _) as [ops|]; [|done]. cbn [fst]. rewrite !same_tree_batch by tree_ne. done. }
  intros h e He. destruct (decide (h = SEQUENCE_COUNTER_KEY)) as [->|Hne].
  - exfalso. vm_compute in He. discriminate He.
  - destruct (index_get_total h active_db Hinv Hne) as [Hn|(e' & He' & Hok & Hh & _)]; [congruence|].
    assert (e' = e) as -> by congruence. split; [done|apply Hok].
Qed.
Lemma active_db_complete : tree_complete (index_links active_db).
Proof. apply (completeb_sound _ _ (index_links_key active_db)). vm_compute. reflexivity. Qed.

(** Blocks 1, 2, 3 are active; the refresh to 4 stops at 2 and replaces 3. *)
Lemma refresh_active_height_index_correct_witness :
  height_row 2 active_db = Some (hsh 3) ∧
  ∃ db', refresh_active_height_index 3 (hsh 4) active_db = (db', Ok tt) ∧ height_row 2 db' = Some (hsh 4).
Proof.
  split; [vm_compute; reflexivity|].
  assert (at_height (index_links active_db) (hsh 4) 2) as H4 by (exists (hsh 2); vm_compute; reflexivity).
  destruct (refresh_active_height_index_correct 3 (hsh 4) 2 active_db active_db_complete active_db_rows_ok)
    as (db' & stop & l0 & j & Hrun & Hb & Hj & _ & _ & Hpath & _).
  - apply height_rows_okb_sound. vm_compute. reflexivity.
  - exact H4.
  - done.
  - exists db'. split; [exact Hrun|]. apply (Hpath (hsh 4) [] 2); [done|exact H4|]. left.
    by destruct (branch_range _ _ _ _ _ _ active_db_complete Hb Hj H4) as [[_ H] _].
Defined.

(** A header batch claims every vacant height, so the tip of a longer side branch
    can be active at its height before the switch.  The refresh then stops at
    once: after 1, 2 and the headers of 5, 6 on 1, the switch to 6 leaves block 2
    at height 1. *)
Definition side_db : database :=
  let rows := (insert_ibd_batch [(hsh 1, 0, hsh 0); (hsh 2, 1, hsh 1); (hsh 5, 1, hsh 1); (hsh 6, 2, hsh 5)] ∅).1 in
  let active := (store_headers_batch [(hsh 1, hdr 1, 0); (hsh 2, hdr 2, 1)] rows).1 in
  (store_headers_batch [(hsh 5, mkHeader 1 (hsh 1) (hsh 0) 100 7 0, 1); (hsh 6, hdr 6, 2)] active).1.
Lemma claimed_tip_stops_refresh :
  let db' := (refresh_active_height_index 3 (hsh 6) side_db).1 in
  (height_row 0 db', height_row 1 db', height_row 2 db') = (Some (hsh 1), Some (hsh 2), Some (hsh 6)) ∧
  index_links db' (hsh 6) = Some (2, hsh 5).
Proof. split; vm_compute; reflexivity. Qed.

(** Two stored headers without work rows, and their child. *)
Definition g0 : BlockHeader := hdr 1.
Definition g1 : BlockHeader := mkHeader 1 (calculate_hash g0) (hsh 0) 100 7 0.
Definition g2 : BlockHeader := mkHeader 1 (calculate_hash g1) (hsh 0) 100 7 0.
Lemma child_ok p : is_hash p → header_ok (mkHeader 1 p (hsh 0) 100 7 0).
Proof.
  intros Hp. unfold header_ok, is_i64, is_u64. cbn. split_and!; try done; apply hsh_ok || lia.
Qed.
Definition header_db : database :=
  (store_headers_batch [(calculate_hash g0, g0, 0); (calculate_hash g1, g1, 1)] ∅).1.

Lemma header_db_same t : t ≠ headers_t → t ≠ height_t → t ≠ hash_height_t → same_tree t header_db ∅.
Proof.
  intros. unfold header_db. cbn [store_headers_batch].
  unfold bind, reads, modify. destruct (claim_loop _ _ _) as [ops|]; [|done]. cbn [fst].
  rewrite !same_tree_batch by done. done.
Qed.

Lemma ensure_parent_then_update_tip_witness :
  ∃ db1 db2 cw, ensure_parent_chainwork g2 2 header_db = (db1, Ok tt) ∧
    update_tip (hsh 7) g2 2 db1 = (db2, Ok tt) ∧ get_chainwork (hsh 7) db2 = Some cw ∧
    u256_val cw = 21.
Proof.
  destruct (ensure_parent_then_update_tip (hsh 7) g2 2 0 [g1; g0] header_db)
    as (db1 & db2 & pw & cw & Hens & _ & _ & Hup & _ & Hcw & Hv).
  - rewrite header_db_same by tree_ne. apply index_inv_empty.
  - exists None. split; [vm_compute; reflexivity|done].
  - apply hsh_ok.
  - by apply key_ne.
  - apply child_ok, hash256_length.
  - done.
  - done.
  - vm_compute. reflexivity.
  - vm_compute. reflexivity.
  - change (Z.to_nat (2 - 1)) with 1%nat. cbn [gap_run]. split_and!; vm_compute; reflexivity.
  - exists db1, db2, cw. split_and!; done.
Defined.
End ForkWitness.
