(* ===== verification/UtxoSnapshot.v ===== *)
(** * UtxoSnapshot: coins on disk during a reorganisation

    Outpoint keys ([src/storage/disk_utxo.rs]), the choice of the snapshot tree
    ([src/storage/mod.rs]), and the coin delta, disconnect windows, journal and
    crash recovery of [src/node/reorg_executor.rs].

    The coin rows refine an abstract map from outpoints to coins: a delta is the
    blocks' undo logs applied one entry at a time, and the rolling MuHash follows
    the map. *)

From S2P Require Import Prelude Bytes Database Interfaces BlockIndex ChainState BlockStore ForkChoice.
Open Scope Z_scope.

(** ** Outpoint keys *)

Definition outpoint_to_key (o : OutPoint) : bytes := op_hash o ++ to_be 8 (op_index o).
Definition key_to_outpoint (key : bytes) : OutPoint :=
  mkOut (take 32 key) (as_u32 (of_be (slice 32 8 key))).

Definition out_ok (o : OutPoint) : Prop := is_hash (op_hash o) ∧ is_u32 (op_index o).

(** ** Undo logs ([blvm_consensus::reorganization]) *)

Record UndoEntry := mkUndo {
  ue_outpoint : OutPoint;
  ue_previous : option UTXO;
  ue_new : option UTXO;
}.
Abbreviation BlockUndoLog := (list UndoEntry).

Definition SNAPSHOT_REORG_JOURNAL_KEY : bytes := bstr "blvm-reorg-journal".
Definition SNAPSHOT_MUHASH_KEY : bytes := bstr "blvm-muhash-running".
Abbreviation DISCONNECT_BODY_WINDOW := 8%nat (only parsing).

Definition encode_reorg_journal (hgt : Z) (tip : bytes) : bytes := to_be 8 hgt ++ tip.
Definition parse_reorg_journal (bs : bytes) : option (Z * bytes) :=
  if bool_decide (length bs = 40%nat) then Some (of_be (take 8 bs), drop 8 bs) else None.

(** ** Where coins are read from *)

Inductive DiskUtxoSource := Snapshot | ChainTable | MissingSnapshot.
Definition disk_utxo_source (snapshot_open export_height_set : bool) : DiskUtxoSource :=
  if snapshot_open then Snapshot
  else if export_height_set then MissingSnapshot else ChainTable.

Definition ckpt_tree_for_slot (slot : Z) : string :=
  if bool_decide (Z.land slot 1 = 0) then "ibd_utxos_ckpt_a" else "ibd_utxos_ckpt_b".

Definition engine_resume_snapshot_name (slot_ckpt : string) (slot_has_rows : bool)
    (stored_canonical : option string) (canonical_has_rows : bool) : option string :=
  if slot_has_rows then Some slot_ckpt
  else match stored_canonical with
       | Some name => if canonical_has_rows && bool_decide (name ≠ slot_ckpt) then Some name else None
       | None => None
       end.

Definition has_rows (t : string) (db : database) : bool :=
  match tree_iter t db with [] => false | _ => true end.

Definition open_engine_resume_snapshot (db : database) : option string :=
  let slot_name := ckpt_tree_for_slot (get_engine_ckpt_slot db) in
  let stored := get_stored_ibd_utxo_canonical_tree db in
  let canonical_has_rows :=
    match stored with
    | Some name => if bool_decide (name ≠ slot_name) then has_rows name db else false
    | None => false
    end in
  engine_resume_snapshot_name slot_name (has_rows slot_name db) stored canonical_has_rows.

(** ** The coin delta *)

Section Delta.
Context {UC : Codec UTXO} {H : MuHashOps}.

Abbreviation net_map := (gmap bytes (option bytes)).

(** Undoing an entry: the created coin goes, the spent coin comes back. *)
Definition net_disconnect (net : net_map) (e : UndoEntry) : net_map :=
  let key := outpoint_to_key (ue_outpoint e) in
  let net1 := match ue_new e with Some _ => <[key := None]> net | None => net end in
  match ue_previous e with
  | Some previous => <[key := Some (encode_row previous)]> net1
  | None => net1
  end.
Definition net_connect (net : net_map) (e : UndoEntry) : net_map :=
  let key := outpoint_to_key (ue_outpoint e) in
  let net1 := match ue_previous e with Some _ => <[key := None]> net | None => net end in
  match ue_new e with
  | Some created => <[key := Some (encode_row created)]> net1
  | None => net1
  end.

Definition net_of (disconnect_tip_first connect_low_to_high : list BlockUndoLog) : net_map :=
  let net := foldl (λ net undo, foldl net_disconnect net undo) ∅ disconnect_tip_first in
  foldl (λ net undo, foldl net_connect net (reverse undo)) net connect_low_to_high.

Definition apply_snapshot_coin (mh : MuHash) (o : OutPoint) (u : UTXO) (insert : bool) : MuHash :=
  if insert then muhash_insert (coin_preimage o u) mh else muhash_remove (coin_preimage o u) mh.

Definition decode_coin (bs : bytes) : result UTXO := of_option "decode UTXO" (decode_row bs).

(** Fold the net rows into the running hash: the old row of the tree out, the
    new row in. *)
Fixpoint net_muhash (t : string) (rows : list (bytes * option bytes)) (mh : MuHash) (db : database)
    : result MuHash :=
  match rows with
  | [] => Ok mh
  | (key, value) :: rest =>
      let o := key_to_outpoint key in
      let+ mh1 := match tree_get t key db with
                  | Some old => let+ u := decode_coin old in Ok (apply_snapshot_coin mh o u false)
                  | None => Ok mh
                  end in
      let+ mh2 := match value with
                  | Some bs => let+ u := decode_coin bs in Ok (apply_snapshot_coin mh1 o u true)
                  | None => Ok mh1
                  end in
      net_muhash t rest mh2 db
  end.

Definition delta_batch (net : net_map) (journal_tip : option (Z * bytes)) (muhash : option MuHash)
    : list batch_op :=
  map_to_list net ++
  match journal_tip with
  | Some (hgt, tip) => [(SNAPSHOT_REORG_JOURNAL_KEY, Some (encode_reorg_journal hgt tip))]
  | None => []
  end ++
  match muhash with
  | Some mh => [(SNAPSHOT_MUHASH_KEY, Some (muhash_state mh))]
  | None => []
  end.

(** One batch: coins, journal and MuHash bytes.  The result is the row count
    and the updated running hash. *)
Definition commit_utxo_snapshot_delta (t : string)
    (disconnect_tip_first connect_low_to_high : list BlockUndoLog)
    (journal_tip : option (Z * bytes)) (muhash : option MuHash)
    : M database (nat * option MuHash) :=
  let net := net_of disconnect_tip_first connect_low_to_high in
  let* muhash' := reads (λ db,
    match muhash with
    | Some mh => let+ mh' := net_muhash t (map_to_list net) mh db in Ok (Some mh')
    | None => Ok None
    end) in
  modify (batch_commit t (delta_batch net journal_tip muhash')) ;;
  ret (size net, muhash').

(** ** Disconnecting in windows *)

Fixpoint windows_fuel {A} (fuel : nat) (l : list A) : list (list A) :=
  match fuel, l with
  | O, _ | _, [] => []
  | S fuel', _ => take DISCONNECT_BODY_WINDOW l :: windows_fuel fuel' (drop DISCONNECT_BODY_WINDOW l)
  end.
(** [slice::chunks]: the length of the list is enough fuel. *)
Definition disconnect_body_windows {A} (tip_first : list A) : list (list A) :=
  windows_fuel (length tip_first) tip_first.

Section Windows.
(** [load_reorg_block] and [get_undo_log] of the block store. *)
Context {Blk : Type} (load_reorg_block : bytes → database → result Blk)
        (get_undo_log : bytes → database → result (option BlockUndoLog)).

Fixpoint load_undos (hashes : list bytes) (db : database) : result (list BlockUndoLog) :=
  match hashes with
  | [] => Ok []
  | h :: rest =>
      let+ _body := load_reorg_block h db in
      let+ o := get_undo_log h db in
      let+ undo := of_option "missing undo for disconnected" o in
      let+ undos := load_undos rest db in
      Ok (undo :: undos)
  end.

Definition apply_disconnect_window (t : string) (hashes_tip_first : list bytes)
    (muhash : option MuHash) : M database (option MuHash) :=
  match hashes_tip_first with
  | [] => ret muhash
  | _ =>
      if bool_decide (DISCONNECT_BODY_WINDOW < length hashes_tip_first)%nat
      then throw "disconnect window holds too many bodies"
      else
        let* undos := reads (load_undos hashes_tip_first) in
        let* r := commit_utxo_snapshot_delta t undos [] None muhash in
        ret r.2
  end.

(** The loop of [try_activate_heavier_fork] over the windows. *)
Fixpoint disconnect_windows (t : string) (windows : list (list bytes)) (muhash : option MuHash)
    : M database (option MuHash) :=
  match windows with
  | [] => ret muhash
  | w :: rest =>
      let* mh := apply_disconnect_window t w muhash in
      disconnect_windows t rest mh
  end.
End Windows.
End Delta.

(** ** Snapshot heights, connecting, recovery and reorganisation *)

Section Flow.
Context {U : U256Ops} {K : Consensus} {H : MuHashOps}.
Context {EC : Codec BlockIndexEntry} {IC : Codec ChainInfo} {HC : Codec BlockHeader} {UC : Codec UTXO}.

Definition note_snapshot_height (hgt : Z) : M database unit :=
  set_utxo_watermark hgt ;; persist_engine_export_height hgt.
Definition rewind_snapshot_height (hgt : Z) : M database unit :=
  force_set_ibd_utxo_watermark hgt ;; force_set_engine_export_height hgt.

(** Persist the running hash when there is one. *)
Definition persist_muhash (muhash : option MuHash) : M database unit :=
  match muhash with
  | Some mh => persist_ibd_utxo_muhash_running_only (muhash_state mh)
  | None => ret tt
  end.

(** The running hash of chain state, if a row of the right width is there. *)
Definition running_muhash (db : database) : option MuHash :=
  muhash_restore <$> get_ibd_utxo_muhash_running db.

(** The snapshot branch of [process_block_with_fork_choice] after validation:
    coins and journal first, then the tip, the labels, and the journal out. *)
Definition connect_on_snapshot (t : string) (undo_log : BlockUndoLog) (hash : bytes)
    (header : BlockHeader) (hgt : Z) : M database unit :=
  let* muhash := gets running_muhash in
  let* r := commit_utxo_snapshot_delta t [] [undo_log] (Some (hgt, hash)) muhash in
  update_tip hash header hgt ;;
  note_snapshot_height hgt ;;
  persist_muhash r.2 ;;
  modify (tree_remove t SNAPSHOT_REORG_JOURNAL_KEY) ;;
  modify (tree_remove t SNAPSHOT_MUHASH_KEY).

(** The MuHash row of the snapshot is moved into chain state. *)
Definition recover_muhash (t : string) : M database unit :=
  let* row := gets (tree_get t SNAPSHOT_MUHASH_KEY) in
  match row with
  | None => ret tt
  | Some bs =>
      (if bool_decide (length bs = MUHASH_RUNNING_STATE_BYTES)
       then persist_ibd_utxo_muhash_running_only bs else ret tt) ;;
      modify (tree_remove t SNAPSHOT_MUHASH_KEY)
  end.

(** Finish the tip move that a journal records. *)
Definition recover_tip (fuel : nat) (hgt : Z) (hash : bytes) : M database unit :=
  let* tip := gets get_tip_hash_and_height in
  if bool_decide ((match tip with Ok p => Some p.1 | Err _ => None end) = Some hash) then ret tt
  else
    let* oh := reads (get_header hash) in
    let* hd := lift (of_option "reorg journal tip has no header" oh) in
    update_tip hash hd hgt ;; refresh_active_height_index fuel hash.

Definition recover_snapshot_commit (fuel : nat) : M database unit :=
  let* snapshot := gets open_engine_resume_snapshot in
  match snapshot with
  | None => ret tt
  | Some t =>
      recover_muhash t ;;
      let* raw := gets (tree_get t SNAPSHOT_REORG_JOURNAL_KEY) in
      match raw with
      | None => ret tt
      | Some bs =>
          match parse_reorg_journal bs with
          | None => modify (tree_remove t SNAPSHOT_REORG_JOURNAL_KEY)
          | Some (hgt, hash) =>
              recover_tip fuel hgt hash ;;
              rewind_snapshot_height hgt ;;
              modify (tree_remove t SNAPSHOT_REORG_JOURNAL_KEY)
          end
      end
  end.

End Flow.

(** ** Lemmas on keys *)

Lemma length_outpoint_key o : is_hash (op_hash o) → length (outpoint_to_key o) = 40%nat.
Proof. intros Hh. unfold outpoint_to_key. rewrite length_app, length_to_be. unfold is_hash in Hh. lia. Qed.

Lemma key_to_outpoint_to_key o : out_ok o → key_to_outpoint (outpoint_to_key o) = o.
Proof.
  intros [Hh Hi]. unfold key_to_outpoint, outpoint_to_key. destruct o as [h i]; cbn [op_hash op_index] in *.
  rewrite take_app_length' by done.
  rewrite (slice_app_r 32 8 h (to_be 8 i) 32) by (done || lia).
  rewrite slice_all by apply length_to_be.
  rewrite of_to_be_u64 by (unfold is_u64, is_u32 in *; lia).
  unfold as_u32. rewrite Z.mod_small by (unfold is_u32 in Hi; lia). done.
Qed.

Lemma outpoint_key_inj o o' : out_ok o → out_ok o' → outpoint_to_key o = outpoint_to_key o' → o = o'.
Proof.
  intros Ho Ho' Heq. rewrite <-(key_to_outpoint_to_key o), <-(key_to_outpoint_to_key o') by done.
  by rewrite Heq.
Qed.

(** A journal row reads back, and is not a coin row. *)
Lemma journal_roundtrip hgt tip :
  is_u64 hgt → is_hash tip → parse_reorg_journal (encode_reorg_journal hgt tip) = Some (hgt, tip).
Proof.
  intros Hg Ht. unfold parse_reorg_journal, encode_reorg_journal.
  rewrite bool_decide_eq_true_2 by (rewrite length_app, length_to_be; unfold is_hash in Ht; lia).
  rewrite take_app_length', drop_app_length' by by rewrite length_to_be. by rewrite of_to_be_u64.
Qed.

Definition plain_key (k : bytes) : Prop :=
  k ≠ SNAPSHOT_REORG_JOURNAL_KEY ∧ k ≠ SNAPSHOT_MUHASH_KEY.
Lemma outpoint_key_plain o : is_hash (op_hash o) → plain_key (outpoint_to_key o).
Proof.
  intros Hh. pose proof (length_outpoint_key o Hh) as Hl.
  split; intros Heq; rewrite Heq in Hl; by vm_compute in Hl.
Qed.

(** ** The abstract coin map *)

Abbreviation coin_map := (gmap OutPoint UTXO).

(** Undoing and applying one entry of an undo log. *)
Definition coin_disconnect (coins : coin_map) (e : UndoEntry) : coin_map :=
  match ue_previous e, ue_new e with
  | Some p, _ => <[ue_outpoint e := p]> coins
  | None, Some _ => delete (ue_outpoint e) coins
  | None, None => coins
  end.
Definition coin_connect (coins : coin_map) (e : UndoEntry) : coin_map :=
  match ue_new e, ue_previous e with
  | Some c, _ => <[ue_outpoint e := c]> coins
  | None, Some _ => delete (ue_outpoint e) coins
  | None, None => coins
  end.
Definition disconnect_block (coins : coin_map) (undo : BlockUndoLog) : coin_map :=
  foldl coin_disconnect coins undo.
Definition connect_block (coins : coin_map) (undo : BlockUndoLog) : coin_map :=
  foldl coin_connect coins (reverse undo).

Definition utxo_ok (u : UTXO) : Prop := is_i64 (ut_value u) ∧ is_u64 (ut_height u).
Definition undo_ok (e : UndoEntry) : Prop :=
  out_ok (ue_outpoint e) ∧ (∀ u, ue_previous e = Some u → utxo_ok u) ∧
  (∀ u, ue_new e = Some u → utxo_ok u).
Definition coins_ok (coins : coin_map) : Prop := ∀ o u, coins !! o = Some u → out_ok o ∧ utxo_ok u.

Section Refinement.
Context {UC : Codec UTXO} {UL : CodecLaws UTXO utxo_ok} {H : MuHashOps} {HL : MuHashLaws H}.
Implicit Types (db : database) (coins : coin_map).

(** Tree [t] holds exactly the coins, under their keys. *)
Definition coins_rep (t : string) (db : database) (coins : coin_map) : Prop :=
  coins_ok coins ∧ ∀ o, out_ok o → tree_get t (outpoint_to_key o) db = encode_row <$> coins !! o.

(** A net map is a pending update from [c0] to [c]. *)
Definition net_rep (net : gmap bytes (option bytes)) (c0 c : coin_map) : Prop :=
  coins_ok c ∧
  (∀ o, out_ok o →
     (match net !! outpoint_to_key o with Some v => v | None => encode_row <$> c0 !! o end) =
     encode_row <$> c !! o) ∧
  (∀ k v, net !! k = Some v → ∃ o, out_ok o ∧ k = outpoint_to_key o ∧
     ∀ bs, v = Some bs → ∃ u, utxo_ok u ∧ bs = encode_row u).

Lemma net_rep_put net c0 c o u :
  net_rep net c0 c → out_ok o → utxo_ok u →
  net_rep (<[outpoint_to_key o := Some (encode_row u)]> net) c0 (<[o := u]> c).
Proof.
  intros (Hc & Hnet & Hkeys) Ho Hu. split_and!.
  - intros o' u'. rewrite lookup_insert. case_decide; [naive_solver|apply Hc].
  - intros o' Ho'. destruct (decide (o = o')) as [->|Hne]; [by rewrite !lookup_insert_eq|].
    rewrite !lookup_insert_ne; [by apply Hnet|done|]. intros Heq. by apply Hne, outpoint_key_inj.
  - intros k v. rewrite lookup_insert. case_decide; [|apply Hkeys]. intros [= <-]. subst k.
    exists o. split_and!; try done. intros bs [= <-]. by exists u.
Qed.
Lemma net_rep_del net c0 c o :
  net_rep net c0 c → out_ok o → net_rep (<[outpoint_to_key o := None]> net) c0 (delete o c).
Proof.
  intros (Hc & Hnet & Hkeys) Ho. split_and!.
  - intros o' u'. rewrite lookup_delete. case_decide; [done|apply Hc].
  - intros o' Ho'. destruct (decide (o = o')) as [->|Hne];
      [by rewrite lookup_insert_eq, lookup_delete_eq|].
    rewrite lookup_insert_ne, lookup_delete_ne; [by apply Hnet|done|].
    intros Heq. by apply Hne, outpoint_key_inj.
  - intros k v. rewrite lookup_insert. case_decide; [|apply Hkeys]. intros [= <-]. subst k.
    exists o. split_and!; done.
Qed.

Lemma net_rep_disconnect net c0 c e :
  net_rep net c0 c → undo_ok e → net_rep (net_disconnect net e) c0 (coin_disconnect c e).
Proof.
  intros Hn (Ho & Hp & Hc). unfold net_disconnect, coin_disconnect.
  destruct (ue_previous e) as [p|], (ue_new e) as [u|]; [| |by apply net_rep_del|done].
  - rewrite insert_insert_eq. apply net_rep_put; auto.
  - apply net_rep_put; auto.
Qed.
Lemma net_rep_connect net c0 c e :
  net_rep net c0 c → undo_ok e → net_rep (net_connect net e) c0 (coin_connect c e).
Proof.
  intros Hn (Ho & Hp & Hc). unfold net_connect, coin_connect.
  destruct (ue_new e) as [u|], (ue_previous e) as [p|]; [| |by apply net_rep_del|done].
  - rewrite insert_insert_eq. apply net_rep_put; auto.
  - apply net_rep_put; auto.
Qed.

Lemma net_rep_foldl (f : gmap bytes (option bytes) → UndoEntry → gmap bytes (option bytes))
    (g : coin_map → UndoEntry → coin_map) net c0 c es :
  (∀ net c e, net_rep net c0 c → undo_ok e → net_rep (f net e) c0 (g c e)) →
  net_rep net c0 c → Forall undo_ok es → net_rep (foldl f net es) c0 (foldl g c es).
Proof.
  intros Hstep Hn Hes. revert net c Hn.
  induction Hes as [|e es He Hes IH]; intros net c Hn; [done|]. cbn. apply IH. by apply Hstep.
Qed.

Definition after_blocks (c0 : coin_map) (disconnects connects : list BlockUndoLog) : coin_map :=
  foldl connect_block (foldl disconnect_block c0 disconnects) connects.

Lemma net_of_rep c0 disc conn :
  coins_ok c0 → Forall (Forall undo_ok) disc → Forall (Forall undo_ok) conn →
  net_rep (net_of disc conn) c0 (after_blocks c0 disc conn).
Proof.
  intros Hc Hd Hcn. unfold net_of, after_blocks.
  set (net0 := foldl _ ∅ disc). set (c1 := foldl disconnect_block c0 disc).
  assert (net_rep net0 c0 c1) as Hn0.
  { unfold net0, c1. assert (net_rep ∅ c0 c0) as Hn.
    { split_and!; [done|intros o _; by rewrite lookup_empty|intros k v; by rewrite lookup_empty]. }
    clear net0 c1 Hcn. revert Hn. generalize (∅ : gmap bytes (option bytes)) as net.
    generalize c0 at 2 4 as c. induction Hd as [|u disc Hu Hd IH]; intros c net Hn; [done|]. cbn.
    apply IH. apply (net_rep_foldl net_disconnect coin_disconnect); [intros; by apply net_rep_disconnect|done..]. }
  clearbody net0 c1. revert net0 c1 Hn0.
  induction Hcn as [|u conn Hu Hcn IH]; intros net c Hn; [done|]. cbn.
  apply IH. apply (net_rep_foldl net_connect coin_connect); [intros; by apply net_rep_connect|done|].
  by apply Forall_reverse.
Qed.

Lemma encode_opt_inj (a b : option UTXO) :
  (∀ u, a = Some u → utxo_ok u) → (∀ u, b = Some u → utxo_ok u) →
  encode_row <$> a = encode_row <$> b → a = b.
Proof.
  intros Ha Hb Heq. destruct a as [x|], b as [y|]; try done. cbn in Heq.
  injection Heq as Heq. f_equal. apply (f_equal decode_row) in Heq.
  rewrite !decode_encode_row in Heq by eauto. congruence.
Qed.

(** *** The running hash *)

Definition muhash_of (coins : coin_map) : MuHash :=
  map_fold (λ o u m, muhash_insert (coin_preimage o u) m) muhash_new coins.

Lemma muhash_of_insert o u coins :
  coins !! o = None →
  muhash_equiv (muhash_of (<[o := u]> coins)) (muhash_insert (coin_preimage o u) (muhash_of coins)).
Proof.
  intros Hn. unfold muhash_of.
  apply (map_fold_insert muhash_equiv (λ o u m, muhash_insert (coin_preimage o u) m)); [| |done].
  - intros j z. apply muhash_insert_proper.
  - intros. apply muhash_insert_comm.
Qed.
Lemma muhash_of_delete o u coins :
  coins !! o = Some u →
  muhash_equiv (muhash_remove (coin_preimage o u) (muhash_of coins)) (muhash_of (delete o coins)).
Proof.
  intros Hs. rewrite <-(insert_delete_id coins o u) at 1 by done.
  rewrite muhash_of_insert by apply lookup_delete_eq. apply muhash_remove_insert.
Qed.

(** One net row on the coin map. *)
Definition apply_row (c : coin_map) (kv : bytes * option bytes) : coin_map :=
  match kv.2 with
  | Some bs => match decode_row bs with
               | Some u => <[key_to_outpoint kv.1 := u]> c
               | None => c
               end
  | None => delete (key_to_outpoint kv.1) c
  end.

Definition row_ok (kv : bytes * option bytes) : Prop :=
  ∃ o, out_ok o ∧ kv.1 = outpoint_to_key o ∧ ∀ bs, kv.2 = Some bs → ∃ u, utxo_ok u ∧ bs = encode_row u.

Lemma net_muhash_spec t rows c m db :
  NoDup rows.*1 → Forall row_ok rows → coins_ok c →
  (∀ o, out_ok o → outpoint_to_key o ∈ rows.*1 →
        tree_get t (outpoint_to_key o) db = encode_row <$> c !! o) →
  muhash_equiv m (muhash_of c) →
  ∃ m', net_muhash t rows m db = Ok m' ∧ muhash_equiv m' (muhash_of (foldl apply_row c rows)).
Proof.
  revert c m. induction rows as [|[k v] rows IH]; intros c m Hnd Hall Hc Hrep Hm; [by exists m|].
  cbn in Hnd. apply NoDup_cons in Hnd as [Hnin Hnd].
  apply Forall_cons in Hall as [(o & Ho & Hk & Hv) Hall]. cbn [fst snd] in *. subst k.
  cbn [net_muhash foldl]. unfold apply_row at 2. cbn [fst snd].
  rewrite key_to_outpoint_to_key by done. rewrite (Hrep o Ho) by (cbn; by left).
  set (r1 := match encode_row <$> c !! o with Some old => _ | None => _ end).
  assert (∃ m1, r1 = Ok m1 ∧ muhash_equiv m1 (muhash_of (delete o c))) as (m1 & -> & Hm1).
  { unfold r1. destruct (c !! o) as [u|] eqn:E; cbn [fmap option_fmap option_map].
    - unfold decode_coin. rewrite decode_encode_row by by eapply Hc. cbn [of_option rbind].
      eexists. split; [done|]. cbn. rewrite Hm. by apply muhash_of_delete.
    - exists m. rewrite delete_id by done. done. }
  cbn [rbind].
  set (c' := match v with Some bs => _ | None => delete o c end).
  set (r2 := match v with Some bs => _ | None => Ok m1 end).
  assert (∃ m2, r2 = Ok m2 ∧ muhash_equiv m2 (muhash_of c') ∧ coins_ok c' ∧
            ∀ o', o' ≠ o → c' !! o' = c !! o') as (m2 & -> & Hm2 & Hc' & Hother).
  { unfold r2, c'. destruct v as [bs|].
    - destruct (Hv bs eq_refl) as (u & Hu & ->). unfold decode_coin. rewrite decode_encode_row by done.
      cbn [of_option rbind]. eexists. split; [done|]. split_and!.
      + cbn. rewrite Hm1, <-muhash_of_insert by apply lookup_delete_eq. by rewrite insert_delete_eq.
      + intros o' u'. rewrite lookup_insert. case_decide; [naive_solver|apply Hc].
      + intros o' Hne. by rewrite lookup_insert_ne.
    - exists m1. split_and!; try done; [|intros o' Hne; by rewrite lookup_delete_ne].
      intros o' u'. rewrite lookup_delete. case_decide; [done|apply Hc]. }
  cbn [rbind]. apply IH; try done. intros o' Ho' Hin.
  rewrite Hother by (intros ->; done). apply Hrep; [done|]. cbn. by right.
Qed.

Lemma apply_rows_lookup rows c o :
  NoDup rows.*1 → Forall row_ok rows → out_ok o →
  foldl apply_row c rows !! o =
  match (list_to_map rows : gmap bytes (option bytes)) !! outpoint_to_key o with
  | Some (Some bs) => decode_row bs
  | Some None => None
  | None => c !! o
  end.
Proof.
  intros Hnd Hall Ho. revert c. induction rows as [|[k v] rows IH]; intros c; [done|].
  cbn in Hnd. apply NoDup_cons in Hnd as [Hnin Hnd].
  apply Forall_cons in Hall as [(o' & Ho' & Hk & Hv) Hall]. cbn [fst snd] in *. subst k.
  cbn [foldl list_to_map foldr fst snd]. rewrite IH by done. rewrite lookup_insert.
  unfold apply_row. cbn [fst snd]. rewrite key_to_outpoint_to_key by done. case_decide as Heq.
  - apply outpoint_key_inj in Heq as <-; [|done..].
    rewrite (not_elem_of_list_to_map_1 rows) by done.
    destruct v as [bs|]; [|by rewrite lookup_delete_eq].
    destruct (Hv bs eq_refl) as (u & Hu & ->). rewrite decode_encode_row by done.
    by rewrite lookup_insert_eq.
  - destruct (list_to_map rows !! outpoint_to_key o); [done|].
    assert (o' ≠ o) by (intros ->; done).
    destruct v as [bs|]; [|by rewrite lookup_delete_ne].
    destruct (decode_row bs); [by rewrite lookup_insert_ne|done].
Qed.

Lemma apply_rows_ok rows c : Forall row_ok rows → coins_ok c → coins_ok (foldl apply_row c rows).
Proof.
  intros Hall. revert c. induction Hall as [|[k v] rows (o & Ho & Hk & Hv) Hall IH]; intros c Hc; [done|].
  cbn [foldl fst snd] in *. apply IH. subst k. unfold apply_row. cbn [fst snd].
  rewrite key_to_outpoint_to_key by done. destruct v as [bs|].
  - destruct (Hv bs eq_refl) as (u & Hu & ->). rewrite decode_encode_row by done.
    intros o' u'. rewrite lookup_insert. case_decide; [naive_solver|apply Hc].
  - intros o' u'. rewrite lookup_delete. case_decide; [done|apply Hc].
Qed.

(** The net rows take the old coins to the new ones. *)
Lemma net_rows_apply net c0 c :
  coins_ok c0 → net_rep net c0 c →
  Forall row_ok (map_to_list net) ∧ foldl apply_row c0 (map_to_list net) = c.
Proof.
  intros Hc0 (Hc & Hnet & Hkeys).
  assert (Forall row_ok (map_to_list net)) as Hall.
  { apply Forall_forall. intros [k v] Hin. apply elem_of_map_to_list in Hin. by apply Hkeys. }
  split; [done|]. apply map_eq. intros o.
  destruct (decide (is_hash (op_hash o) ∧ is_u32 (op_index o))) as [Ho|Hno].
  - rewrite apply_rows_lookup by (done || apply NoDup_fst_map_to_list).
    rewrite list_to_map_to_list. specialize (Hnet o Ho).
    destruct (net !! outpoint_to_key o) as [v|].
    + rewrite Hnet. destruct (c !! o) as [u|] eqn:E; [|done]. cbn.
      apply decode_encode_row. by eapply Hc.
    + apply encode_opt_inj; [intros u; apply Hc0|intros u; apply Hc|done].
  - assert (∀ c', coins_ok c' → c' !! o = None) as Hnone.
    { intros c' Hc'. destruct (c' !! o) eqn:E; [|done]. destruct Hno. by eapply Hc'. }
    rewrite !Hnone; [done|done|]. by apply apply_rows_ok.
Qed.
End Refinement.

(** ** Theorems: the delta *)

Section DeltaTheorems.
Context {UC : Codec UTXO} {UL : CodecLaws UTXO utxo_ok} {H : MuHashOps} {HL : MuHashLaws H}.

(** The running hash, when there is one, is the hash of the coins. *)
Definition tracks (mh : option MuHash) (coins : coin_map) : Prop :=
  ∀ m, mh = Some m → muhash_equiv m (muhash_of coins).

Lemma tracks_self coins : tracks (Some (muhash_of coins)) coins.
Proof. intros m Hm. assert (m = muhash_of coins) as -> by congruence. reflexivity. Qed.

Lemma delta_extra_keys journal (mh : option MuHash) k :
  plain_key k →
  k ∉ (match journal with
       | Some (hgt, tip) => [(SNAPSHOT_REORG_JOURNAL_KEY, Some (encode_reorg_journal hgt tip))]
       | None => []
       end ++ match mh with Some m => [(SNAPSHOT_MUHASH_KEY, Some (muhash_state m))] | None => [] end).*1.
Proof.
  intros [H1 H2] Hin. destruct journal as [[]|], mh; cbn in Hin;
    rewrite ?elem_of_cons, ?elem_of_nil in Hin; naive_solver.
Qed.

Lemma commit_delta_run t disc conn journal mh coins db :
  coins_rep t db coins → Forall (Forall undo_ok) disc → Forall (Forall undo_ok) conn →
  tracks mh coins →
  ∃ mh' db', commit_utxo_snapshot_delta t disc conn journal mh db =
      (db', Ok (size (net_of disc conn), mh')) ∧
    coins_rep t db' (after_blocks coins disc conn) ∧ tracks mh' (after_blocks coins disc conn) ∧
    (is_Some mh' ↔ is_Some mh) ∧
    (∀ k, plain_key k → (∀ o, out_ok o → k ≠ outpoint_to_key o) → tree_get t k db' = tree_get t k db) ∧
    (∀ t', t' ≠ t → same_tree t' db' db) ∧
    (∀ hgt tip, journal = Some (hgt, tip) →
       tree_get t SNAPSHOT_REORG_JOURNAL_KEY db' = Some (encode_reorg_journal hgt tip)) ∧
    (∀ m', mh' = Some m' → tree_get t SNAPSHOT_MUHASH_KEY db' = Some (muhash_state m')) ∧
    (mh' = None → tree_get t SNAPSHOT_MUHASH_KEY db' = tree_get t SNAPSHOT_MUHASH_KEY db) ∧
    (journal = None →
       tree_get t SNAPSHOT_REORG_JOURNAL_KEY db' = tree_get t SNAPSHOT_REORG_JOURNAL_KEY db).
Proof.
  intros [Hc Hrep] Hd Hcn Hm. set (net := net_of disc conn).
  pose proof (net_of_rep coins disc conn Hc Hd Hcn) as Hnet. fold net in Hnet.
  set (coins' := after_blocks coins disc conn) in *.
  destruct (net_rows_apply net coins coins' Hc Hnet) as [Hrows Happly].
  set (step := λ d, match mh with
    | Some m => let+ m' := net_muhash t (map_to_list net) m d in Ok (Some m')
    | None => Ok None end).
  assert (∃ mh', step db = Ok mh' ∧ tracks mh' coins' ∧ (is_Some mh' ↔ is_Some mh))
    as (mh' & Hstep & Htr & Hiff).
  { unfold step. destruct mh as [m|]; [|by exists None].
    destruct (net_muhash_spec t (map_to_list net) coins m db) as (m' & -> & Hm');
      [apply NoDup_fst_map_to_list|done|done|by intros; apply Hrep|by apply Hm|].
    exists (Some m'). rewrite Happly in Hm'. split_and!; [done|by intros ? [= <-]|done]. }
  set (db' := batch_commit t (delta_batch net journal mh') db).
  exists mh', db'. split.
  { unfold commit_utxo_snapshot_delta, bind, reads, modify, ret. fold net.
    unfold step in Hstep. by rewrite Hstep. }
  assert (∀ k, plain_key k → tree_get t k db' = match net !! k with Some v => v | None => tree_get t k db end)
    as Hget by (intros k Hk; apply batch_map_get; by apply delta_extra_keys).
  destruct Hnet as (Hc' & Hval & Hkeys).
  assert (∀ k, length k ≠ 40%nat → net !! k = None) as Hshort.
  { intros k Hk. apply eq_None_not_Some. intros [v E]. destruct (Hkeys k v E) as (o & [Ho _] & -> & _).
    by apply Hk, length_outpoint_key. }
  split; [split; [done|]|split; [done|split; [done|split; [|split; [|split; [|split; [|split]]]]]]].
  - intros o Ho. rewrite Hget by apply outpoint_key_plain, Ho. rewrite <-Hval by done.
    destruct (net !! outpoint_to_key o); [done|]. by apply Hrep.
  - intros k Hk Hno. rewrite Hget by done. destruct (net !! k) as [v|] eqn:E; [|done].
    destruct (Hkeys k v E) as (o & Ho & -> & _). by destruct (Hno o Ho).
  - intros t' Ht'. by apply same_tree_batch.
  - intros hgt tip ->. unfold db', delta_batch. rewrite batch_commit_app.
    destruct mh' as [m'|]; cbn [app]; unfold batch_commit; cbn [fmap list_fmap fst snd];
      rewrite !commit_keyed_cons, commit_keyed_nil; cbn [apply_op];
      [rewrite tree_get_insert_ne by tree_ne|]; apply tree_get_insert_eq.
  - intros m' ->. unfold db', delta_batch. rewrite app_assoc, batch_commit_app.
    apply (commit_keyed_snoc []).
  - intros ->. unfold db', delta_batch. rewrite batch_map_get.
    + by rewrite (Hshort SNAPSHOT_MUHASH_KEY) by by vm_compute.
    + destruct journal as [[hgt tip]|]; [|apply not_elem_of_nil]. cbn.
      rewrite list_elem_of_singleton. by vm_compute.
  - intros ->. unfold db', delta_batch. rewrite batch_map_get.
    + by rewrite (Hshort SNAPSHOT_REORG_JOURNAL_KEY) by by vm_compute.
    + destruct mh' as [m'|]; [|apply not_elem_of_nil]. cbn.
      rewrite list_elem_of_singleton. by vm_compute.
Qed.

(** [C4] The disk delta refines the undo logs: on a tree that holds a coin map,
    committing a disconnect and connect list succeeds and leaves the tree holding
    exactly the map obtained by undoing the disconnected blocks (tip first) and
    applying the connected ones (oldest first), entry by entry; the running hash
    is then the hash of that map, the journal and hash rows are in the same
    batch, and no other tree changes. *)
Theorem snapshot_delta_refines (t : string) (disc conn : list BlockUndoLog)
    (journal : option (Z * bytes)) (mh : option MuHash) (coins : coin_map) (db : database) :
  coins_rep t db coins → Forall (Forall undo_ok) disc → Forall (Forall undo_ok) conn →
  tracks mh coins →
  ∃ n mh' db', commit_utxo_snapshot_delta t disc conn journal mh db = (db', Ok (n, mh')) ∧
    coins_rep t db' (after_blocks coins disc conn) ∧ tracks mh' (after_blocks coins disc conn) ∧
    (∀ hgt tip, journal = Some (hgt, tip) →
       tree_get t SNAPSHOT_REORG_JOURNAL_KEY db' = Some (encode_reorg_journal hgt tip)) ∧
    (∀ m', mh' = Some m' → tree_get t SNAPSHOT_MUHASH_KEY db' = Some (muhash_state m')) ∧
    (∀ t', t' ≠ t → same_tree t' db' db).
Proof.
  intros Hrep Hd Hcn Hm.
  destruct (commit_delta_run t disc conn journal mh coins db) as
    (mh' & db' & Hrun & Hrep' & Htr & _ & _ & Hother & Hj & Hmr & _); try done.
  exists (size (net_of disc conn)), mh', db'. split_and!; done.
Qed.

(** *** Disconnecting undoes connecting *)

(** Each entry, in the order it is applied, records the coin it finds. *)
Fixpoint records (coins : coin_map) (entries : list UndoEntry) : Prop :=
  match entries with
  | [] => True
  | e :: rest => coins !! ue_outpoint e = ue_previous e ∧ records (coin_connect coins e) rest
  end.
Fixpoint records_blocks (coins : coin_map) (blocks : list BlockUndoLog) : Prop :=
  match blocks with
  | [] => True
  | b :: rest => records coins (reverse b) ∧ records_blocks (connect_block coins b) rest
  end.

Lemma coin_connect_disconnect coins e :
  coins !! ue_outpoint e = ue_previous e → coin_disconnect (coin_connect coins e) e = coins.
Proof.
  intros Hrec. unfold coin_disconnect, coin_connect.
  destruct (ue_previous e) as [p|], (ue_new e) as [u|]; [| | |done].
  - by rewrite insert_insert_eq, insert_id.
  - by rewrite insert_delete_eq, insert_id.
  - by rewrite delete_insert_id.
Qed.
Lemma entries_undo coins es :
  records coins es → foldl coin_disconnect (foldl coin_connect coins es) (reverse es) = coins.
Proof.
  revert coins. induction es as [|e es IH]; intros coins Hrec; [done|].
  destruct Hrec as [He Hrec]. rewrite reverse_cons, foldl_app. cbn [foldl].
  rewrite IH by done. by apply coin_connect_disconnect.
Qed.
Lemma blocks_undo coins blocks :
  records_blocks coins blocks →
  foldl disconnect_block (foldl connect_block coins blocks) (reverse blocks) = coins.
Proof.
  revert coins. induction blocks as [|b blocks IH]; intros coins Hrec; [done|].
  destruct Hrec as [Hb Hrec]. rewrite reverse_cons, foldl_app. cbn [foldl].
  rewrite IH by done. unfold disconnect_block, connect_block.
  rewrite <-(reverse_involutive b) at 2. by apply entries_undo.
Qed.

(** [C27] Disconnecting undoes connecting on disk: after a run of blocks has been
    connected, with undo logs that record the coins they found, disconnecting the
    same blocks tip first restores the tree to the original coins and the running
    hash to their hash. *)
Theorem connect_then_disconnect (t : string) (blocks : list BlockUndoLog)
    (j1 j2 : option (Z * bytes)) (mh : option MuHash) (coins : coin_map) (db : database) :
  coins_rep t db coins → Forall (Forall undo_ok) blocks → records_blocks coins blocks →
  tracks mh coins →
  ∃ n1 n2 mh1 mh2 db1 db2,
    commit_utxo_snapshot_delta t [] blocks j1 mh db = (db1, Ok (n1, mh1)) ∧
    commit_utxo_snapshot_delta t (reverse blocks) [] j2 mh1 db1 = (db2, Ok (n2, mh2)) ∧
    coins_rep t db2 coins ∧ tracks mh2 coins.
Proof.
  intros Hrep Hok Hrec Hm.
  destruct (commit_delta_run t [] blocks j1 mh coins db) as (mh1 & db1 & Hrun1 & Hrep1 & Htr1 & _); try done.
  destruct (commit_delta_run t (reverse blocks) [] j2 mh1 (after_blocks coins [] blocks) db1)
    as (mh2 & db2 & Hrun2 & Hrep2 & Htr2 & _); try done; [by apply Forall_reverse|].
  assert (after_blocks (after_blocks coins [] blocks) (reverse blocks) [] = coins) as Heq
    by (unfold after_blocks; cbn [foldl]; by apply blocks_undo).
  rewrite Heq in *. eauto 10.
Qed.

(** *** Windows *)

Lemma windows_concat {A} fuel (l : list A) :
  (length l ≤ fuel)%nat →
  concat (windows_fuel fuel l) = l ∧
  Forall (λ w, w ≠ [] ∧ (length w ≤ DISCONNECT_BODY_WINDOW)%nat) (windows_fuel fuel l).
Proof.
  revert l. induction fuel as [|fuel IH]; intros l Hlen.
  { destruct l; [done|cbn in Hlen; lia]. }
  destruct l as [|x l]; [done|]. cbn [windows_fuel concat].
  destruct (IH (drop DISCONNECT_BODY_WINDOW (x :: l))) as [Hcat Hall].
  { rewrite length_drop. cbn [length] in *. lia. }
  rewrite Hcat, take_drop. split; [done|]. constructor; [|done]. split.
  - done.
  - rewrite length_take. lia.
Qed.

Section WindowTheorem.
Context {Blk : Type} (load_reorg_block : bytes → database → result Blk)
        (get_undo_log : bytes → database → result (option BlockUndoLog)).
Variable t : string.
(** The block store is not in the coin tree. *)
Hypothesis load_other : ∀ h db db', (∀ t', t' ≠ t → same_tree t' db' db) →
  load_reorg_block h db' = load_reorg_block h db ∧ get_undo_log h db' = get_undo_log h db.

Lemma load_undos_other hashes db db' :
  (∀ t', t' ≠ t → same_tree t' db' db) →
  load_undos load_reorg_block get_undo_log hashes db' = load_undos load_reorg_block get_undo_log hashes db.
Proof.
  intros Hs. induction hashes as [|h rest IH]; [done|]. cbn [load_undos].
  destruct (load_other h db db' Hs) as [-> ->]. by rewrite IH.
Qed.

Lemma load_undos_app l k db undos :
  load_undos load_reorg_block get_undo_log (l ++ k) db = Ok undos →
  ∃ u1 u2, undos = u1 ++ u2 ∧ load_undos load_reorg_block get_undo_log l db = Ok u1 ∧
           load_undos load_reorg_block get_undo_log k db = Ok u2.
Proof.
  revert undos. induction l as [|h l IH]; intros undos Hrun; [by exists [], undos|].
  cbn [load_undos app] in *. destruct (load_reorg_block h db); [|done]. cbn [rbind] in *.
  destruct (get_undo_log h db) as [o|]; [|done]. cbn [rbind] in *.
  destruct (of_option _ o) as [u|]; [|done]. cbn [rbind] in *.
  destruct (load_undos _ _ (l ++ k) db) as [us|]; [|done]. injection Hrun as <-.
  destruct (IH us eq_refl) as (u1 & u2 & -> & -> & ?). by exists (u :: u1), u2.
Qed.

Lemma disconnect_windows_spec windows mh coins db undos :
  coins_rep t db coins → tracks mh coins →
  Forall (λ w : list bytes, w ≠ [] ∧ (length w ≤ DISCONNECT_BODY_WINDOW)%nat) windows →
  load_undos load_reorg_block get_undo_log (concat windows) db = Ok undos →
  Forall (Forall undo_ok) undos →
  ∃ mh' db', disconnect_windows load_reorg_block get_undo_log t windows mh db = (db', Ok mh') ∧
    coins_rep t db' (after_blocks coins undos []) ∧ tracks mh' (after_blocks coins undos []) ∧
    (∀ t', t' ≠ t → same_tree t' db' db) ∧ (is_Some mh' ↔ is_Some mh) ∧
    tree_get t SNAPSHOT_REORG_JOURNAL_KEY db' = tree_get t SNAPSHOT_REORG_JOURNAL_KEY db ∧
    ((mh' = mh ∧ tree_get t SNAPSHOT_MUHASH_KEY db' = tree_get t SNAPSHOT_MUHASH_KEY db) ∨
     ∃ m', mh' = Some m' ∧ tree_get t SNAPSHOT_MUHASH_KEY db' = Some (muhash_state m')).
Proof.
  revert mh coins db undos. induction windows as [|w ws IH];
    intros mh coins db undos Hrep Hm Hall Hload Hok.
  { injection Hload as <-. exists mh, db. split; [done|]. split; [exact Hrep|]. split; [exact Hm|]. split_and!; try done. by left. }
  apply Forall_cons in Hall as [[Hne Hlen] Hall]. cbn [concat] in Hload.
  destruct (load_undos_app _ _ _ _ Hload) as (u1 & u2 & -> & Hu1 & Hu2).
  apply Forall_app in Hok as [Hok1 Hok2].
  destruct (commit_delta_run t u1 [] None mh coins db) as
    (mh1 & db1 & Hrun & Hrep1 & Htr1 & Hi1 & _ & Hother & _ & Hm1 & Hn1 & Hj1); try done.
  assert (apply_disconnect_window load_reorg_block get_undo_log t w mh db = (db1, Ok mh1)) as Hw.
  { unfold apply_disconnect_window. destruct w as [|x w]; [done|].
    rewrite bool_decide_eq_false_2 by lia. unfold bind, reads. by rewrite Hu1, Hrun. }
  destruct (IH mh1 (after_blocks coins u1 []) db1 u2) as
    (mh2 & db2 & Hrun2 & Hrep2 & Htr2 & Hother2 & Hi2 & Hj2 & Hmr2);
    try done; [by rewrite (load_undos_other _ db db1)|].
  assert (after_blocks coins (u1 ++ u2) [] = after_blocks (after_blocks coins u1 []) u2 []) as ->
    by (unfold after_blocks; cbn [foldl]; apply foldl_app).
  exists mh2, db2. split; [|split; [exact Hrep2|split; [exact Htr2|split; [|split; [|split]]]]].
  - cbn [disconnect_windows]. unfold bind. by rewrite Hw.
  - intros t' Ht'. rewrite (Hother2 t' Ht'). by apply Hother.
  - by rewrite Hi2.
  - by rewrite Hj2, Hj1.
  - destruct Hmr2 as [[-> E]|?]; [|by right]. rewrite E. destruct mh1 as [m1|] eqn:E1.
    + right. exists m1. split; [done|]. by apply Hm1.
    + left. split; [|by apply Hn1]. destruct mh as [m|]; [|done].
      destruct (proj2 Hi1 (mk_is_Some _ _ eq_refl)) as [? [=]].
Qed.
End WindowTheorem.

(** Windows do not change the result: disconnecting hashes tip first in
    windows of at most eight bodies succeeds and leaves the tree holding the coins
    of one disconnect of all of them, with the running hash of those coins, for
    any number of hashes. *)
Theorem disconnect_in_windows {Blk} (load_reorg_block : bytes → database → result Blk)
    (get_undo_log : bytes → database → result (option BlockUndoLog)) (t : string)
    (tip_first : list bytes) (undos : list BlockUndoLog) (mh : option MuHash) (coins : coin_map)
    (db : database) :
  (∀ h d d', (∀ t', t' ≠ t → same_tree t' d' d) →
     load_reorg_block h d' = load_reorg_block h d ∧ get_undo_log h d' = get_undo_log h d) →
  coins_rep t db coins → tracks mh coins →
  load_undos load_reorg_block get_undo_log tip_first db = Ok undos → Forall (Forall undo_ok) undos →
  ∃ mh' db', disconnect_windows load_reorg_block get_undo_log t (disconnect_body_windows tip_first) mh db
      = (db', Ok mh') ∧
    coins_rep t db' (after_blocks coins undos []) ∧ tracks mh' (after_blocks coins undos []) ∧
    (∀ t', t' ≠ t → same_tree t' db' db).
Proof.
  intros Hother Hrep Hm Hload Hok.
  destruct (windows_concat (length tip_first) tip_first) as [Hcat Hall]; [done|].
  destruct (disconnect_windows_spec load_reorg_block get_undo_log t Hother
    (disconnect_body_windows tip_first) mh coins db undos) as (mh' & db' & ? & ? & ? & ? & _); try done.
  { unfold disconnect_body_windows. by rewrite Hcat. }
  exists mh', db'. split; [done|]. split; [done|]. by split.
Qed.
End DeltaTheorems.

(** ** Crash recovery *)

(** Trees the chain metadata and the block store use. *)
Definition meta_trees : list string :=
  [chain_info_t; work_t; chainwork_t; index_tree; headers_t; height_t; hash_height_t].

Lemma ckpt_tree_other slot t' : t' ∈ meta_trees → ckpt_tree_for_slot slot ≠ t'.
Proof.
  intros Hin. unfold ckpt_tree_for_slot, meta_trees in *.
  repeat (apply elem_of_cons in Hin as [->|Hin]; [case_bool_decide; tree_ne|]).
  by apply elem_of_nil in Hin.
Qed.

Section Recovery.
Context {U : U256Ops} {UL : U256Laws U} {K : Consensus} {KL : ConsensusLaws K} {H : MuHashOps} {HM : MuHashLaws H}.
Context {EC : Codec BlockIndexEntry} {EL : CodecLaws BlockIndexEntry entry_ok}.
Context {IC : Codec ChainInfo} {IL : CodecLaws ChainInfo info_ok} {HC : Codec BlockHeader}.
Context {UC : Codec UTXO} {CL : CodecLaws UTXO utxo_ok}.
Variable t : string.
Hypothesis t_other : ∀ t', t' ∈ meta_trees → t ≠ t'.

Definition tip_of (db : database) : result (bytes * Z) := get_tip_hash_and_height db.

Lemma tip_of_same db db' :
  tree_get chain_info_t k_current db' = tree_get chain_info_t k_current db → tip_of db' = tip_of db.
Proof. intros Hs. unfold tip_of, get_tip_hash_and_height, load_chain_info. by rewrite Hs. Qed.

Lemma coins_rep_rows db db' coins :
  (∀ k, length k = 40%nat → tree_get t k db' = tree_get t k db) →
  coins_rep t db coins → coins_rep t db' coins.
Proof.
  intros Hs [Hc Hrep]. split; [done|]. intros o Ho.
  rewrite Hs by apply length_outpoint_key, Ho. by apply Hrep.
Qed.

Lemma meta_ne t' : t' ∈ meta_trees → t' ≠ t.
Proof. intros Hin ->. by apply (t_other t). Qed.

(** The running hash the node has after a restart. *)
Definition pending_muhash (db : database) : option bytes :=
  match tree_get t SNAPSHOT_MUHASH_KEY db with
  | Some bs => if bool_decide (length bs = MUHASH_RUNNING_STATE_BYTES) then Some bs
               else get_ibd_utxo_muhash_running db
  | None => get_ibd_utxo_muhash_running db
  end.

Lemma get_running_same db db' :
  tree_get chain_info_t k_muhash db' = tree_get chain_info_t k_muhash db →
  get_ibd_utxo_muhash_running db' = get_ibd_utxo_muhash_running db.
Proof. intros Hs. unfold get_ibd_utxo_muhash_running, read_muhash_row. by rewrite Hs. Qed.

(** Moving the MuHash row touches that row and one row of chain state. *)
Lemma recover_muhash_spec db :
  ∃ db', recover_muhash t db = (db', Ok tt) ∧ tree_get t SNAPSHOT_MUHASH_KEY db' = None ∧
    (∀ k, k ≠ SNAPSHOT_MUHASH_KEY → tree_get t k db' = tree_get t k db) ∧
    (∀ k, k ≠ k_muhash → tree_get chain_info_t k db' = tree_get chain_info_t k db) ∧
    (∀ t', t' ≠ t → t' ≠ chain_info_t → same_tree t' db' db) ∧
    get_ibd_utxo_muhash_running db' = pending_muhash db.
Proof.
  assert (t ≠ chain_info_t) as Hne by (apply t_other; unfold meta_trees; by left).
  unfold recover_muhash, pending_muhash, bind, gets.
  destruct (tree_get t SNAPSHOT_MUHASH_KEY db) as [bs|] eqn:E; [|by exists db].
  set (db1 := if bool_decide (length bs = MUHASH_RUNNING_STATE_BYTES)
              then tree_insert chain_info_t k_muhash bs db else db).
  exists (tree_remove t SNAPSHOT_MUHASH_KEY db1). split_and!.
  - unfold db1. by case_bool_decide.
  - apply tree_get_remove_eq.
  - intros k Hk. rewrite tree_get_remove_ne by congruence. unfold db1.
    case_bool_decide; [rewrite tree_get_insert_ne by congruence|]; done.
  - intros k Hk. rewrite tree_get_remove_ne by congruence. unfold db1.
    case_bool_decide; [rewrite tree_get_insert_ne by congruence|]; done.
  - intros t' Ht' Hc k. rewrite tree_get_remove_ne by congruence. unfold db1.
    case_bool_decide; [rewrite tree_get_insert_ne by congruence|]; done.
  - unfold get_ibd_utxo_muhash_running, read_muhash_row. rewrite tree_get_remove_ne by congruence.
    unfold db1. case_bool_decide as Hl; [|done]. rewrite tree_get_insert_eq.
    by rewrite bool_decide_eq_true_2.
Qed.

(** Rewinding the labels and dropping the journal. *)
Lemma recover_end hgt db :
  is_u64 hgt →
  ∃ db', (rewind_snapshot_height hgt ;; modify (tree_remove t SNAPSHOT_REORG_JOURNAL_KEY)) db = (db', Ok tt) ∧
    get_utxo_watermark db' = Some hgt ∧ get_engine_export_height db' = Some hgt ∧
    tree_get t SNAPSHOT_REORG_JOURNAL_KEY db' = None ∧ tip_of db' = tip_of db ∧
    (∀ k, k ≠ SNAPSHOT_REORG_JOURNAL_KEY → tree_get t k db' = tree_get t k db) ∧
    (get_ibd_utxo_muhash_running db' = None ∨
     get_ibd_utxo_muhash_running db' = get_ibd_utxo_muhash_running db).
Proof.
  intros Hu. assert (t ≠ chain_info_t) as Hne by (apply t_other; unfold meta_trees; by left).
  set (db1 := tree_insert chain_info_t k_watermark (to_be 8 hgt) db).
  set (db2 := if bool_decide (hgt = 0) then tree_remove chain_info_t k_muhash db1 else db1).
  set (db3 := tree_insert chain_info_t k_export_height (to_be 8 hgt) db2).
  exists (tree_remove t SNAPSHOT_REORG_JOURNAL_KEY db3). split.
  { unfold rewind_snapshot_height, force_set_ibd_utxo_watermark, force_set_engine_export_height,
      put_u64_row, bind, modify, ret. fold db1. unfold db3, db2. by case_bool_decide. }
  assert (∀ k, tree_get chain_info_t k (tree_remove t SNAPSHOT_REORG_JOURNAL_KEY db3) =
               tree_get chain_info_t k db3) as Hci by (intros k; apply tree_get_remove_ne; congruence).
  assert (∀ k, k ≠ k_export_height → k ≠ k_muhash → tree_get chain_info_t k db3 = tree_get chain_info_t k db1)
    as H3.
  { intros k H1 H2. unfold db3. rewrite tree_get_insert_ne by congruence. unfold db2.
    case_bool_decide; [apply tree_get_remove_ne; congruence|done]. }
  split_and!.
  - unfold get_utxo_watermark, read_u64_row. rewrite Hci, H3 by tree_ne.
    change (read_u64_row k_watermark db1 = Some hgt). unfold db1. rewrite read_u64_row_put by done.
    by rewrite decide_True.
  - unfold get_engine_export_height, read_u64_row. rewrite Hci.
    change (read_u64_row k_export_height db3 = Some hgt). unfold db3. rewrite read_u64_row_put by done.
    by rewrite decide_True.
  - apply tree_get_remove_eq.
  - apply tip_of_same. rewrite Hci, H3 by tree_ne. unfold db1. apply tree_get_insert_ne. tree_ne.
  - intros k Hk. rewrite tree_get_remove_ne by congruence.
    unfold db3. rewrite tree_get_insert_ne by congruence. unfold db2, db1.
    case_bool_decide; rewrite ?tree_get_remove_ne, ?tree_get_insert_ne by congruence; done.
  - unfold get_ibd_utxo_muhash_running, read_muhash_row. rewrite Hci. unfold db3.
    rewrite tree_get_insert_ne by tree_ne. unfold db2. case_bool_decide.
    + left. by rewrite tree_get_remove_eq.
    + right. unfold db1. by rewrite tree_get_insert_ne by tree_ne.
Qed.

(** [update_tip] writes four trees only. *)
Lemma update_tip_same t' h hd hgt db :
  t' ∉ [index_tree; work_t; chainwork_t; chain_info_t] → same_tree t' (update_tip h hd hgt db).1 db.
Proof.
  rewrite !not_elem_of_cons. intros (H1 & H2 & H3 & H4 & _).
  unfold update_tip, bind, reads, modify.
  destruct (update_tip_ops h hd hgt db) as [ops|] eqn:E; [|done]. cbn [fst].
  apply same_tree_keyed. unfold update_tip_ops in E.
  destruct (index_prepare_insert _ _ _ _ _) as [p|]; [|done]. cbn [rbind] in E.
  destruct (chainwork_for_header _ _ _); [|done]. cbn [rbind] in E.
  destruct (load_chain_info db); [|done]. cbn [rbind] in E.
  match type of E with Ok ?l = _ => assert (ops = l) as -> by congruence end.
  rewrite Forall_app. split; [unfold prepared_ops; destruct (counter_bytes p)|];
    rewrite !Forall_cons, Forall_nil; cbn; auto.
Qed.

(** What a state has to offer for the journalled block to become the tip. *)
Definition can_finish (hash : bytes) (hd : BlockHeader) (hgt : Z) (db : database) : Prop :=
  index_inv db ∧ tip_inv db ∧ is_hash hash ∧ hash ≠ SEQUENCE_COUNTER_KEY ∧ header_ok hd ∧
  is_u64 hgt ∧ read_counter db < u64_max ∧ is_Some (parent_work hd hgt db) ∧
  get_header hash db = Ok (Some hd) ∧ get_hash_by_height hgt db = Ok (Some hash).

Lemma recover_tip_spec fuel hash hd hgt db :
  tip_of db = Ok (hash, hgt) ∨ ((∀ g, tip_of db ≠ Ok (hash, g)) ∧ can_finish hash hd hgt db) →
  ∃ db', recover_tip (S fuel) hgt hash db = (db', Ok tt) ∧ tip_of db' = Ok (hash, hgt) ∧
    same_tree t db' db ∧ get_ibd_utxo_muhash_running db' = get_ibd_utxo_muhash_running db.
Proof.
  unfold recover_tip, bind, gets. fold (tip_of db). intros [Htip|[Hne Hfin]].
  { exists db. rewrite Htip. by rewrite bool_decide_eq_true_2. }
  destruct Hfin as (Hinv & Hti & Hh & Hk & Hhd & Hu & Hc & [p Hp] & Hget & Hrow).
  rewrite bool_decide_eq_false_2.
  2: { intros Heq. destruct (tip_of db) as [[x g]|] eqn:E; [|done]. injection Heq as ->.
       by apply (Hne g). }
  unfold reads, lift. rewrite Hget. cbn [of_option].
  destruct (update_tip_ok hash hd hgt db p) as
    (db1 & i & Hrun & _ & Htip1 & Hl & Hih & _ & Hig & _); try done.
  assert (db1 = (update_tip hash hd hgt db).1) as Hdb1 by by rewrite Hrun.
  rewrite Hrun. exists db1. split_and!.
  - destruct Htip1 as (oi & Hoi & Hrow1). assert (oi = Some i) as -> by congruence.
    destruct (Hrow1 i eq_refl) as [_ (_ & _ & e & He & Hhe & _)]. rewrite Hih in He.
    unfold refresh_active_height_index. cbn [refresh_loop].
    rewrite bool_decide_eq_false_2 by apply not_elem_of_empty.
    unfold bind, reads. rewrite He, Hhe, Hig.
    assert (get_hash_by_height hgt db1 = Ok (Some hash)) as ->.
    { rewrite <-Hrow. unfold get_hash_by_height.
      assert (same_tree height_t db1 db) as Hs; [|by rewrite Hs].
      rewrite Hdb1. apply update_tip_same. rewrite !not_elem_of_cons, elem_of_nil. split_and!; try tree_ne. tauto. }
    by rewrite bool_decide_eq_true_2.
  - unfold tip_of, get_tip_hash_and_height. rewrite Hl. cbn. by rewrite Hih, Hig.
  - rewrite Hdb1. apply update_tip_same. rewrite !not_elem_of_cons, elem_of_nil. unfold meta_trees in *.
    split_and!; try (apply t_other; unfold meta_trees; rewrite !elem_of_cons; by auto 10). tauto.
  - destruct (update_tip_chain_info _ _ _ _ _ Hrun) as (oi & _ & Hci). apply get_running_same.
    rewrite Hci. apply tree_get_insert_ne. tree_ne.
Qed.

(** [can_finish] and the tip do not depend on the coin tree or the MuHash row. *)
Lemma can_finish_frame hash hd hgt db db' :
  (∀ k, k ≠ k_muhash → tree_get chain_info_t k db' = tree_get chain_info_t k db) →
  (∀ t', t' ∈ meta_trees → t' ≠ chain_info_t → same_tree t' db' db) →
  can_finish hash hd hgt db → can_finish hash hd hgt db'.
Proof.
  intros Hci Hs (Hinv & (oi & Hl & Hi) & Hh & Hk & Hhd & Hu & Hc & Hp & Hget & Hrow).
  assert (same_tree index_tree db' db) as Hsi by (apply Hs; [unfold meta_trees; rewrite !elem_of_cons; auto 10|tree_ne]).
  assert (same_tree chainwork_t db' db) as Hsc by (apply Hs; [unfold meta_trees; rewrite !elem_of_cons; auto 10|tree_ne]).
  assert (same_tree headers_t db' db) as Hsh by (apply Hs; [unfold meta_trees; rewrite !elem_of_cons; auto 10|tree_ne]).
  assert (same_tree height_t db' db) as Hst by (apply Hs; [unfold meta_trees; rewrite !elem_of_cons; auto 10|tree_ne]).
  assert (same_tree hash_height_t db' db) as Hsr by (apply Hs; [unfold meta_trees; rewrite !elem_of_cons; auto 10|tree_ne]).
  unfold can_finish. split; [by rewrite Hsi|]. split.
  { exists oi. split; [unfold load_chain_info in *; by rewrite Hci by tree_ne|].
    intros i Hoi. destruct (Hi i Hoi) as [Hok (H1 & H2 & e & H3 & H4)]. split; [done|].
    split; [done|]. split; [by rewrite Hsc|]. exists e. by rewrite Hsi. }
  split_and!; try done.
  - by rewrite Hsi.
  - unfold parent_work in *. by case_bool_decide; [rewrite Hsc|].
  - unfold get_header, get_height_by_hash in *. rewrite !(Hsr hash).
    destruct (tree_get hash_height_t hash db); [case_bool_decide|]; cbn [rbind] in *; rewrite ?Hsh; done.
  - unfold get_hash_by_height in *. by rewrite Hst.
Qed.

Lemma recover_with_journal fuel hash hd hgt db :
  open_engine_resume_snapshot db = Some t →
  tree_get t SNAPSHOT_REORG_JOURNAL_KEY db = Some (encode_reorg_journal hgt hash) →
  is_u64 hgt → is_hash hash →
  tip_of db = Ok (hash, hgt) ∨ ((∀ g, tip_of db ≠ Ok (hash, g)) ∧ can_finish hash hd hgt db) →
  ∃ db', recover_snapshot_commit (S fuel) db = (db', Ok tt) ∧ tip_of db' = Ok (hash, hgt) ∧
    get_utxo_watermark db' = Some hgt ∧ get_engine_export_height db' = Some hgt ∧
    tree_get t SNAPSHOT_REORG_JOURNAL_KEY db' = None ∧ tree_get t SNAPSHOT_MUHASH_KEY db' = None ∧
    (∀ k, plain_key k → tree_get t k db' = tree_get t k db) ∧
    (get_ibd_utxo_muhash_running db' = None ∨ get_ibd_utxo_muhash_running db' = pending_muhash db).
Proof.
  intros Hopen Hj Hu Hh Hcase.
  destruct (recover_muhash_spec db) as (d1 & Hr1 & Hm1 & Hk1 & Hc1 & Ht1 & Hrun1).
  assert (tip_of d1 = tip_of db) as Htip1 by (apply tip_of_same, Hc1; tree_ne).
  destruct (recover_tip_spec fuel hash hd hgt d1) as (d2 & Hr2 & Htip2 & Hs2 & Hrun2).
  { rewrite Htip1. destruct Hcase as [?|[? Hfin]]; [by left|]. right. split; [done|].
    apply (can_finish_frame _ _ _ db); [done| |done]. intros t' Hin Hne. by apply Ht1; [apply meta_ne|]. }
  destruct (recover_end hgt d2 Hu) as (d3 & Hr3 & Hw & He & Hj3 & Htip3 & Hk3 & Hrun3).
  exists d3. split_and!; try done.
  - unfold recover_snapshot_commit, bind, gets. rewrite Hopen, Hr1.
    rewrite Hk1, Hj by (intros Heq; by vm_compute in Heq). rewrite journal_roundtrip by done.
    rewrite Hr2. exact Hr3.
  - by rewrite Htip3.
  - rewrite Hk3 by (intros Heq; by vm_compute in Heq). by rewrite (Hs2 _).
  - intros k [Hk Hk']. rewrite Hk3 by done. rewrite (Hs2 k). by apply Hk1.
  - rewrite <-Hrun1, <-Hrun2. exact Hrun3.
Qed.

(** *** Every crash point of a connect *)

(** The states between the writes of [connect_on_snapshot].  The tip update is
    one write here, as its transaction is on the default heed3 backend; the states
    inside it on the other backends are treated in [ChainState]. *)
Definition connect_crash_points (undo : BlockUndoLog) (hash : bytes) (hd : BlockHeader) (hgt : Z)
    (db : database) : list database :=
  let r := commit_utxo_snapshot_delta t [] [undo] (Some (hgt, hash)) (running_muhash db) db in
  let s1 := r.1 in
  let s2 := (update_tip hash hd hgt s1).1 in
  let s3 := (set_utxo_watermark hgt s2).1 in
  let s4 := (persist_engine_export_height hgt s3).1 in
  let s5 := (persist_muhash (match r.2 with Ok x => x.2 | Err _ => None end) s4).1 in
  let s6 := tree_remove t SNAPSHOT_REORG_JOURNAL_KEY s5 in
  let s7 := tree_remove t SNAPSHOT_MUHASH_KEY s6 in
  [db; s1; s2; s3; s4; s5; s6; s7].

(** A state whose snapshot tree is [t], unless [t] is empty. *)
Definition snapshot_is (db : database) : Prop :=
  ckpt_tree_for_slot (get_engine_ckpt_slot db) = t ∧
  (get_stored_ibd_utxo_canonical_tree db = None ∨ get_stored_ibd_utxo_canonical_tree db = Some t).

Lemma open_snapshot db :
  snapshot_is db → open_engine_resume_snapshot db = if has_rows t db then Some t else None.
Proof.
  intros [Hs Hst]. unfold open_engine_resume_snapshot. rewrite Hs.
  unfold engine_resume_snapshot_name. destruct (has_rows t db); [done|].
  destruct Hst as [-> | ->]; [done|]. by rewrite !(bool_decide_eq_false_2 (t ≠ t)) by auto.
Qed.
Lemma has_rows_get k v db : tree_get t k db = Some v → has_rows t db = true.
Proof.
  intros Hg. apply elem_of_tree_iter in Hg. unfold has_rows.
  destruct (tree_iter t db); [by apply elem_of_nil in Hg|done].
Qed.
Lemma snapshot_is_frame db db' :
  tree_get chain_info_t k_ckpt_slot db' = tree_get chain_info_t k_ckpt_slot db →
  tree_get chain_info_t k_canonical_tree db' = tree_get chain_info_t k_canonical_tree db →
  snapshot_is db → snapshot_is db'.
Proof.
  intros H1 H2. unfold snapshot_is, get_engine_ckpt_slot, get_stored_ibd_utxo_canonical_tree.
  by rewrite H1, H2.
Qed.

(** A label write, or none. *)
Definition label_put (db db' : database) : Prop :=
  db' = db ∨ ∃ k v, (k = k_watermark ∨ k = k_export_height ∨ k = k_muhash) ∧
                    db' = tree_insert chain_info_t k v db.
Lemma label_put_frame db db' :
  label_put db db' →
  tip_of db' = tip_of db ∧ same_tree t db' db ∧ (snapshot_is db → snapshot_is db').
Proof.
  intros [->|(k & v & Hk & ->)]; [done|]. split_and!.
  - apply tip_of_same. destruct Hk as [->|[-> | ->]]; apply tree_get_insert_ne; tree_ne.
  - apply same_tree_insert. intros <-. by apply (t_other chain_info_t); [unfold meta_trees; left|].
  - apply snapshot_is_frame; destruct Hk as [->|[-> | ->]]; apply tree_get_insert_ne; tree_ne.
Qed.
Lemma set_utxo_watermark_put hgt db : label_put db (set_utxo_watermark hgt db).1.
Proof.
  unfold set_utxo_watermark, put_u64_row, bind, gets, modify, ret. case_bool_decide; [|by left].
  right. eauto.
Qed.
Lemma persist_export_put hgt db : label_put db (persist_engine_export_height hgt db).1.
Proof.
  unfold persist_engine_export_height, put_u64_row, bind, gets, lift, modify, ret.
  destruct (get_height _); [|by left]. repeat case_bool_decide; try by left. right. eauto 6.
Qed.
Lemma persist_muhash_put mh db : label_put db (persist_muhash mh db).1.
Proof.
  destruct mh; [|by left]. right.
  unfold persist_muhash, persist_ibd_utxo_muhash_running_only, modify. eauto 6.
Qed.

Lemma recover_without_journal fuel db :
  snapshot_is db → tree_get t SNAPSHOT_REORG_JOURNAL_KEY db = None →
  ∃ db', recover_snapshot_commit fuel db = (db', Ok tt) ∧ tip_of db' = tip_of db ∧
    tree_get t SNAPSHOT_REORG_JOURNAL_KEY db' = None ∧ tree_get t SNAPSHOT_MUHASH_KEY db' = None ∧
    (∀ k, plain_key k → tree_get t k db' = tree_get t k db) ∧
    get_ibd_utxo_muhash_running db' = pending_muhash db.
Proof.
  intros Hsnap Hj. unfold recover_snapshot_commit, bind, gets. rewrite open_snapshot by done.
  destruct (has_rows t db) eqn:Hrows.
  2: { assert (tree_get t SNAPSHOT_MUHASH_KEY db = None) as Hm.
       { destruct (tree_get t SNAPSHOT_MUHASH_KEY db) eqn:E; [|done].
         by rewrite (has_rows_get _ _ _ E) in Hrows. }
       exists db. unfold pending_muhash. by rewrite Hm. }
  destruct (recover_muhash_spec db) as (d1 & Hr1 & Hm1 & Hk1 & Hc1 & Ht1 & Hrun1). rewrite Hr1.
  rewrite Hk1, Hj by (intros Heq; by vm_compute in Heq). exists d1. split_and!; [done|..].
  - apply tip_of_same, Hc1. tree_ne.
  - by rewrite Hk1 by (intros Heq; by vm_compute in Heq).
  - done.
  - intros k [_ Hk]. by apply Hk1.
  - done.
Qed.

(** A state a restart brings to [tip] with [coins]: either nothing is pending, or
    the journal names [tip] and the tip move is done or can be done. *)
Definition restartable (tip : bytes * Z) (coins : coin_map) (db : database) : Prop :=
  snapshot_is db ∧ coins_rep t db coins ∧ tracks (muhash_restore <$> pending_muhash db) coins ∧
  ((tree_get t SNAPSHOT_REORG_JOURNAL_KEY db = None ∧ tip_of db = Ok tip) ∨
   (tree_get t SNAPSHOT_REORG_JOURNAL_KEY db = Some (encode_reorg_journal tip.2 tip.1) ∧
    is_u64 tip.2 ∧ is_hash tip.1 ∧
    (tip_of db = Ok tip ∨
     ((∀ g, tip_of db ≠ Ok (tip.1, g)) ∧ ∃ hd, can_finish tip.1 hd tip.2 db)))).

(** What a restart has to establish. *)
Definition recovered (tip : bytes * Z) (coins : coin_map) (db : database) : Prop :=
  tip_of db = Ok tip ∧ coins_rep t db coins ∧ tracks (running_muhash db) coins ∧
  tree_get t SNAPSHOT_REORG_JOURNAL_KEY db = None ∧ tree_get t SNAPSHOT_MUHASH_KEY db = None.

Lemma coin_rows_plain db db' coins :
  (∀ k, plain_key k → tree_get t k db' = tree_get t k db) → coins_rep t db coins → coins_rep t db' coins.
Proof.
  intros Hs. apply coins_rep_rows. intros k Hk. apply Hs.
  split; intros ->; by vm_compute in Hk.
Qed.

Lemma restart_recovers fuel tip coins db :
  restartable tip coins db →
  ∃ db', recover_snapshot_commit (S fuel) db = (db', Ok tt) ∧ recovered tip coins db'.
Proof.
  intros (Hsnap & Hrep & Htr & [[Hj Htip]|(Hj & Hu & Hh & Hcase)]).
  - destruct (recover_without_journal (S fuel) db) as (db' & Hrun & Ht & Hj' & Hm' & Hk & Hr); try done.
    exists db'. split; [done|]. split; [by rewrite Ht|]. split; [by apply (coin_rows_plain db)|].
    split; [|done]. unfold running_muhash. by rewrite Hr.
  - destruct tip as [hash hgt]; cbn [fst snd] in *.
    assert (∃ hd, tip_of db = Ok (hash, hgt) ∨
      (∀ g, tip_of db ≠ Ok (hash, g)) ∧ can_finish hash hd hgt db) as [hd Hcase'].
    { destruct Hcase as [?|[? [hd ?]]]; [exists (mkHeader 0 [] [] 0 0 0); by left|exists hd; by right]. }
    destruct (recover_with_journal fuel hash hd hgt db) as (db' & Hrun & Ht & _ & _ & Hj' & Hm' & Hk & Hr);
      try done.
    { rewrite open_snapshot by done. by rewrite (has_rows_get _ _ _ Hj). }
    exists db'. split; [done|]. split; [done|]. split; [by apply (coin_rows_plain db)|].
    split; [|done]. unfold running_muhash. by destruct Hr as [-> | ->].
Qed.

Lemma pending_same db db' :
  same_tree t db' db →
  (∃ bs, tree_get t SNAPSHOT_MUHASH_KEY db = Some bs ∧ length bs = MUHASH_RUNNING_STATE_BYTES) ∨
  tree_get chain_info_t k_muhash db' = tree_get chain_info_t k_muhash db →
  pending_muhash db' = pending_muhash db.
Proof.
  intros Hs Hcase. unfold pending_muhash. rewrite (Hs _). destruct Hcase as [(bs & -> & Hl)|Hr].
  - by rewrite bool_decide_eq_true_2.
  - by rewrite (get_running_same _ _ Hr).
Qed.

Lemma set_utxo_watermark_muhash hgt db :
  tree_get chain_info_t k_muhash (set_utxo_watermark hgt db).1 = tree_get chain_info_t k_muhash db.
Proof.
  unfold set_utxo_watermark, put_u64_row, bind, gets, modify, ret. case_bool_decide; [|done].
  apply tree_get_insert_ne. tree_ne.
Qed.
Lemma persist_export_muhash hgt db :
  tree_get chain_info_t k_muhash (persist_engine_export_height hgt db).1 = tree_get chain_info_t k_muhash db.
Proof.
  unfold persist_engine_export_height, put_u64_row, bind, gets, lift, modify, ret.
  destruct (get_height _); [|done]. repeat case_bool_decide; try done. apply tree_get_insert_ne. tree_ne.
Qed.

(** The tip has moved and the journal is still there. *)
Definition moved (tip : bytes * Z) (coins : coin_map) (db : database) : Prop :=
  snapshot_is db ∧ coins_rep t db coins ∧ tracks (muhash_restore <$> pending_muhash db) coins ∧
  tree_get t SNAPSHOT_REORG_JOURNAL_KEY db = Some (encode_reorg_journal tip.2 tip.1) ∧
  is_u64 tip.2 ∧ is_hash tip.1 ∧ tip_of db = Ok tip.

Lemma moved_restartable tip coins db : moved tip coins db → restartable tip coins db.
Proof. intros (? & Hrep & Hm & ? & ? & ? & ?). split; [done|]. split; [exact Hrep|]. split; [exact Hm|]. right. auto. Qed.

Lemma moved_label tip coins db db' :
  label_put db db' → pending_muhash db' = pending_muhash db → moved tip coins db → moved tip coins db'.
Proof.
  intros Hput Hp (Hsn & Hrep & Hm & Hj & Hu & Hh & Htip).
  destruct (label_put_frame db db' Hput) as (Ht & Hs & Hsn').
  split; [by apply Hsn'|]. split; [apply (coins_rep_rows db); [intros k _; apply Hs|exact Hrep]|].
  split; [by rewrite Hp|]. split; [by rewrite (Hs _)|]. split; [done|]. split; [done|]. by rewrite Ht.
Qed.

(** The state between connects: nothing pending, the labels and rows describing
    one tip and one coin map. *)
Definition settled (tip : bytes * Z) (coins : coin_map) (db : database) : Prop :=
  snapshot_is db ∧ recovered tip coins db.

Lemma settled_restartable tip coins db : settled tip coins db → restartable tip coins db.
Proof.
  intros (Hsn & Htip & Hrep & Htr & Hj & Hm). split; [done|]. split; [exact Hrep|]. split; [|by left].
  unfold pending_muhash. rewrite Hm. exact Htr.
Qed.

Context {HW : MuHashWidth K H}.

(** The snapshot row of a commit is the running hash a restart will use. *)
Lemma pending_after_commit mh' coins db :
  tracks mh' coins →
  (∀ m', mh' = Some m' → tree_get t SNAPSHOT_MUHASH_KEY db = Some (muhash_state m')) →
  (mh' = None → tree_get t SNAPSHOT_MUHASH_KEY db = None ∧ get_ibd_utxo_muhash_running db = None) →
  tracks (muhash_restore <$> pending_muhash db) coins.
Proof.
  intros Htr Hs Hn. unfold pending_muhash. destruct mh' as [m'|].
  - rewrite (Hs m' eq_refl), bool_decide_eq_true_2 by apply muhash_state_width.
    intros m [= <-]. rewrite muhash_restore_state. by apply Htr.
  - destruct (Hn eq_refl) as [-> ->]. done.
Qed.

(** The first write of a connect, the coin batch: a restart finishes the block. *)
Lemma connect_commit undo hash hd hgt old coins db :
  settled old coins db → old.1 ≠ hash → can_finish hash hd hgt db → Forall undo_ok undo →
  ∃ n mh' s1,
    commit_utxo_snapshot_delta t [] [undo] (Some (hgt, hash)) (running_muhash db) db = (s1, Ok (n, mh')) ∧
    restartable (hash, hgt) (connect_block coins undo) s1 ∧ can_finish hash hd hgt s1 ∧
    tree_get t SNAPSHOT_REORG_JOURNAL_KEY s1 = Some (encode_reorg_journal hgt hash) ∧
    tracks mh' (connect_block coins undo) ∧
    (∀ m', mh' = Some m' → tree_get t SNAPSHOT_MUHASH_KEY s1 = Some (muhash_state m')) ∧
    (mh' = None → tree_get t SNAPSHOT_MUHASH_KEY s1 = None ∧ get_ibd_utxo_muhash_running s1 = None).
Proof.
  intros (Hsn & Htip & Hrep & Htr & Hj & Hm) Hne Hfin Hok.
  destruct (commit_delta_run t [] [undo] (Some (hgt, hash)) (running_muhash db) coins db) as
    (mh' & s1 & Hrun & Hrep1 & Htr1 & Hiff & _ & Hother & Hj1 & Hm1 & Hn1 & _); try done; [by constructor|].
  specialize (Hj1 _ _ eq_refl).
  assert (∀ k, tree_get chain_info_t k s1 = tree_get chain_info_t k db) as Hci
    by (apply Hother, meta_ne; unfold meta_trees; left).
  assert (can_finish hash hd hgt s1) as Hfin1.
  { apply (can_finish_frame _ _ _ db); [by intros; apply Hci| |done]. intros. by apply Hother, meta_ne. }
  assert (mh' = None → tree_get t SNAPSHOT_MUHASH_KEY s1 = None ∧ get_ibd_utxo_muhash_running s1 = None) as Hno.
  { intros E. rewrite Hn1 by done. split; [done|]. rewrite (get_running_same db) by apply Hci.
    assert (¬ is_Some (running_muhash db)) as Hns by (rewrite <-Hiff, E; by intros []).
    unfold running_muhash in Hns. destruct (get_ibd_utxo_muhash_running db); [|done]. cbn in Hns. by destruct Hns. }
  exists (size (net_of [] [undo])), mh', s1. split; [done|]. split; [|by split_and!].
  split; [by apply (snapshot_is_frame db)|]. split; [exact Hrep1|].
  split; [by apply (pending_after_commit mh')|]. right. cbn [fst snd].
  pose proof Hfin as (_ & _ & Hh & _ & _ & Hu & _). split_and!; try done. right. split; [|by exists hd].
  intros g. rewrite (tip_of_same db s1) by apply Hci. rewrite Htip. intros [= ->]. by apply Hne.
Qed.

(** The second write, the tip. *)
Lemma connect_tip hash hd hgt coins s1 :
  restartable (hash, hgt) coins s1 → can_finish hash hd hgt s1 →
  tree_get t SNAPSHOT_REORG_JOURNAL_KEY s1 = Some (encode_reorg_journal hgt hash) →
  ∃ s2, update_tip hash hd hgt s1 = (s2, Ok tt) ∧ moved (hash, hgt) coins s2 ∧ same_tree t s2 s1 ∧
    tree_get chain_info_t k_muhash s2 = tree_get chain_info_t k_muhash s1.
Proof.
  intros (Hsn & Hrep & Hp1 & _) (Hinv & Hti & Hh & Hk & Hhd & Hu & Hc & [p Hp] & Hget & Hrow) Hj.
  destruct (update_tip_ok hash hd hgt s1 p) as (s2 & i & Hrun2 & _ & _ & Hl & Hih & _ & Hig & _); try done.
  assert (same_tree t s2 s1) as Hs2.
  { assert (s2 = (update_tip hash hd hgt s1).1) as -> by by rewrite Hrun2. apply update_tip_same.
    rewrite !not_elem_of_cons. split_and!; try (apply t_other; unfold meta_trees; rewrite !elem_of_cons; by auto 10).
    apply not_elem_of_nil. }
  destruct (update_tip_chain_info _ _ _ _ _ Hrun2) as (oi & _ & Hci2).
  assert (∀ k, k ≠ k_current → tree_get chain_info_t k s2 = tree_get chain_info_t k s1) as Hci
    by (intros k Hkc; rewrite Hci2; apply tree_get_insert_ne; congruence).
  exists s2. split; [done|]. split; [|split; [done|apply Hci; tree_ne]].
  split; [apply (snapshot_is_frame s1); [apply Hci; tree_ne..|done]|].
  split; [apply (coins_rep_rows s1); [intros k _; apply Hs2|exact Hrep]|].
  split; [rewrite (pending_same s1); [done|done|right; apply Hci; tree_ne]|].
  split; [by rewrite (Hs2 _)|]. split; [done|]. split; [done|].
  unfold tip_of, get_tip_hash_and_height. rewrite Hl. cbn. by rewrite Hih, Hig.
Qed.

Lemma set_utxo_watermark_ok hgt db : (set_utxo_watermark hgt db).2 = Ok tt.
Proof. unfold set_utxo_watermark, put_u64_row, bind, gets, modify, ret. by case_bool_decide. Qed.
Lemma persist_export_ok hgt tip db : tip_of db = Ok tip → (persist_engine_export_height hgt db).2 = Ok tt.
Proof.
  unfold tip_of, get_tip_hash_and_height, persist_engine_export_height, get_height, put_u64_row,
    bind, gets, lift, modify, ret, id. destruct (load_chain_info db); [|done]. intros _. cbn [rbind].
  repeat case_bool_decide; done.
Qed.
Lemma persist_muhash_ok (mh : option MuHash) db : (persist_muhash mh db).2 = Ok tt.
Proof. by destruct mh. Qed.

(** The labels and the running hash. *)
Lemma connect_labels hgt mh' tip coins s2 :
  moved tip coins s2 →
  (∀ m', mh' = Some m' → tree_get t SNAPSHOT_MUHASH_KEY s2 = Some (muhash_state m')) →
  let s3 := (set_utxo_watermark hgt s2).1 in
  let s4 := (persist_engine_export_height hgt s3).1 in
  let s5 := (persist_muhash mh' s4).1 in
  moved tip coins s3 ∧ moved tip coins s4 ∧ moved tip coins s5 ∧ same_tree t s5 s2 ∧
  (mh' = None → tree_get chain_info_t k_muhash s5 = tree_get chain_info_t k_muhash s2) ∧
  (∀ m', mh' = Some m' → tree_get chain_info_t k_muhash s5 = Some (muhash_state m')).
Proof.
  intros Hm Hs s3 s4 s5.
  pose proof (set_utxo_watermark_put hgt s2) as P3. fold s3 in P3.
  pose proof (persist_export_put hgt s3) as P4. fold s4 in P4.
  pose proof (persist_muhash_put mh' s4) as P5. fold s5 in P5.
  destruct (label_put_frame _ _ P3) as (_ & T3 & _), (label_put_frame _ _ P4) as (_ & T4 & _),
    (label_put_frame _ _ P5) as (_ & T5 & _).
  assert (tree_get chain_info_t k_muhash s4 = tree_get chain_info_t k_muhash s2) as Hmu.
  { unfold s4. rewrite persist_export_muhash. apply set_utxo_watermark_muhash. }
  assert (moved tip coins s3) as M3.
  { apply (moved_label _ _ s2); [done| |done]. apply pending_same; [done|]. right. apply set_utxo_watermark_muhash. }
  assert (moved tip coins s4) as M4.
  { apply (moved_label _ _ s3); [done| |done]. apply pending_same; [done|]. right. apply persist_export_muhash. }
  split; [done|]. split; [done|]. split.
  { apply (moved_label _ _ s4); [done| |done]. apply pending_same; [done|].
    destruct mh' as [m'|]; [left|by right]. exists (muhash_state m').
    rewrite (T4 _), (T3 _), (Hs m' eq_refl). split; [done|]. apply muhash_state_width. }
  split; [intros k; by rewrite (T5 k), (T4 k), (T3 k)|]. split.
  - intros ->. exact Hmu.
  - intros m' ->. apply tree_get_insert_eq.
Qed.

(** Dropping the journal and the MuHash row. *)
Lemma connect_cleanup mh' tip coins s5 :
  moved tip coins s5 → tracks mh' coins →
  (mh' = None → get_ibd_utxo_muhash_running s5 = None) →
  (∀ m', mh' = Some m' → tree_get chain_info_t k_muhash s5 = Some (muhash_state m')) →
  let s6 := tree_remove t SNAPSHOT_REORG_JOURNAL_KEY s5 in
  let s7 := tree_remove t SNAPSHOT_MUHASH_KEY s6 in
  restartable tip coins s6 ∧ settled tip coins s7.
Proof.
  intros (Hsn & Hrep & Hp & Hj & Hu & Hh & Htip) Htr Hn Hs s6 s7.
  assert (chain_info_t ≠ t) as Hne by (apply meta_ne; unfold meta_trees; left).
  assert (∀ k, tree_get chain_info_t k s6 = tree_get chain_info_t k s5) as C6
    by (intros; apply tree_get_remove_ne; congruence).
  assert (∀ k, tree_get chain_info_t k s7 = tree_get chain_info_t k s5) as C7
    by (intros; unfold s7; rewrite tree_get_remove_ne by congruence; apply C6).
  assert (∀ k, k ≠ SNAPSHOT_REORG_JOURNAL_KEY → tree_get t k s6 = tree_get t k s5) as T6
    by (intros; apply tree_get_remove_ne; congruence).
  assert (SNAPSHOT_MUHASH_KEY ≠ SNAPSHOT_REORG_JOURNAL_KEY) as Hk by (intros Heq; by vm_compute in Heq).
  assert (tree_get t SNAPSHOT_REORG_JOURNAL_KEY s6 = None) as J6 by apply tree_get_remove_eq.
  split.
  - split; [by apply (snapshot_is_frame s5)|]. split; [apply (coin_rows_plain s5); [intros k [? ?]; by apply T6|exact Hrep]|].
    split; [|left; split; [done|by rewrite (tip_of_same s5)]].
    unfold pending_muhash in *. rewrite T6 by done. by rewrite (get_running_same s5).
  - split; [by apply (snapshot_is_frame s5)|]. split; [by rewrite (tip_of_same s5)|].
    split; [|split; [|split; [unfold s7; rewrite tree_get_remove_ne by congruence; done|apply tree_get_remove_eq]]].
    + apply (coin_rows_plain s5); [intros k [? ?]|exact Hrep].
      unfold s7. rewrite tree_get_remove_ne by congruence. by apply T6.
    + unfold running_muhash. rewrite (get_running_same s5) by apply C7.
      destruct mh' as [m'|]; [|by rewrite Hn].
      unfold get_ibd_utxo_muhash_running, read_muhash_row. rewrite (Hs m' eq_refl).
      rewrite bool_decide_eq_true_2 by apply muhash_state_width.
      intros m [= <-]. rewrite muhash_restore_state. by apply Htr.
Qed.
End Recovery.

Section ConnectCrash.
Context {U : U256Ops} {UL : U256Laws U} {K : Consensus} {KL : ConsensusLaws K} {H : MuHashOps} {HM : MuHashLaws H}.
Context {HW : MuHashWidth K H}.
Context {EC : Codec BlockIndexEntry} {EL : CodecLaws BlockIndexEntry entry_ok}.
Context {IC : Codec ChainInfo} {IL : CodecLaws ChainInfo info_ok} {HC : Codec BlockHeader}.
Context {UC : Codec UTXO} {CL : CodecLaws UTXO utxo_ok}.

(** [C3] Connecting a block to the snapshot is crash safe.  From a settled state
    the connect succeeds and ends settled on the new block with its coins; and if
    the node stops between any two of its writes (coin batch, tip, watermark,
    export height, running hash, journal, hash row; the tip update is one of them,
    as on the default heed3 backend), the recovery at the next start
    succeeds and leaves tip, coins and running hash agreeing: on the old block when
    the coin batch had not been written, on the new block otherwise. *)
Theorem connect_crash_safe (t : string) (undo : BlockUndoLog) (hash : bytes) (hd : BlockHeader)
    (hgt : Z) (old : bytes * Z) (coins : coin_map) (db : database) (fuel : nat) :
  settled t old coins db → old.1 ≠ hash → can_finish hash hd hgt db → Forall undo_ok undo →
  (∃ db', connect_on_snapshot t undo hash hd hgt db = (db', Ok tt) ∧
     last (connect_crash_points t undo hash hd hgt db) = Some db' ∧
     settled t (hash, hgt) (connect_block coins undo) db') ∧
  ∀ s, s ∈ connect_crash_points t undo hash hd hgt db →
    ∃ r, recover_snapshot_commit (S fuel) s = (r, Ok tt) ∧
      if decide (s = db) then recovered t old coins r
      else recovered t (hash, hgt) (connect_block coins undo) r.
Proof.
  intros Hset Hne Hfin Hok.
  assert (∀ t', t' ∈ meta_trees → t ≠ t') as Hot.
  { destruct Hset as [[<- _] _]. intros t'. apply ckpt_tree_other. }
  destruct (connect_commit t Hot undo hash hd hgt old coins db) as
    (n & mh' & s1 & Hrun1 & R1 & F1 & J1 & Tr & Hs1 & Hn1); try done.
  destruct (connect_tip t Hot hash hd hgt (connect_block coins undo) s1) as (s2 & Hrun2 & M2 & T2 & C2); try done.
  destruct (connect_labels t Hot hgt mh' (hash, hgt) (connect_block coins undo) s2) as
    (M3 & M4 & M5 & T5 & C5 & C5'); [done|intros m' ->; rewrite (T2 _); by apply Hs1|].
  set (s3 := (set_utxo_watermark hgt s2).1) in *.
  set (s4 := (persist_engine_export_height hgt s3).1) in *.
  set (s5 := (persist_muhash mh' s4).1) in *.
  destruct (connect_cleanup t Hot mh' (hash, hgt) (connect_block coins undo) s5) as [R6 S7]; try done.
  { intros E. destruct (Hn1 E) as [_ Hg]. rewrite <-Hg. apply get_running_same. by rewrite C5, C2. }
  set (s6 := tree_remove t SNAPSHOT_REORG_JOURNAL_KEY s5) in *.
  set (s7 := tree_remove t SNAPSHOT_MUHASH_KEY s6) in *.
  assert (connect_crash_points t undo hash hd hgt db = [db; s1; s2; s3; s4; s5; s6; s7]) as Hpts.
  { unfold connect_crash_points. rewrite Hrun1. cbn [fst snd]. rewrite Hrun2. done. }
  rewrite Hpts. split.
  - exists s7. split; [|done]. unfold connect_on_snapshot, note_snapshot_height, bind, gets.
    rewrite Hrun1, Hrun2. rewrite (run_eta _ _ _ (set_utxo_watermark_ok hgt s2)). fold s3.
    rewrite (run_eta _ _ _ (persist_export_ok hgt (hash, hgt) s3 (proj2 (proj2 (proj2 (proj2 (proj2 (proj2 M3)))))))).
    fold s4. cbn [snd]. by rewrite (run_eta _ _ _ (persist_muhash_ok mh' s4)).
  - intros s Hin. case_decide as Hdb.
    + subst s. apply restart_recovers; [done|]. by apply settled_restartable.
    + apply restart_recovers; [done|]. rewrite !elem_of_cons, elem_of_nil in Hin.
      destruct Hin as [?|[->|[->|[->|[->|[->|[->|[->|[]]]]]]]]]; eauto using moved_restartable, settled_restartable.
      by destruct Hdb.
Qed.
End ConnectCrash.

(** ** Witnesses *)

Module SnapshotWitness.
Import IndexWitness ChainWitness StoreWitness ForkWitness.

(** A coin row: value, height, coinbase flag, script. *)
#[global] Instance coin_codec : Codec UTXO := {|
  encode_row u :=
    to_le 8 (as_u64 (ut_value u)) ++ to_le 8 (ut_height u) ++
    (if ut_coinbase u then [Byte.x01] else [Byte.x00]) ++ ut_script u;
  decode_row bs :=
    let '(v, bs) := InfoCodec.field 8 bs in
    let '(h, bs) := InfoCodec.field 8 bs in
    match bs with
    | c :: script => Some (mkUtxo (InfoCodec.to_i64 (of_le v)) script (of_le h) (bool_decide (c = Byte.x01)))
    | [] => None
    end |}.
#[global] Instance coin_laws : CodecLaws UTXO utxo_ok.
Proof.
  intros u [Hv Hh]. cbn [decode_row encode_row coin_codec].
  rewrite !InfoCodec.field_app by apply length_to_le.
  rewrite !InfoCodec.of_to_le_u64 by (done || (unfold is_u64, as_u64; apply Z.mod_pos_bound; lia)).
  rewrite InfoCodec.to_i64_as_u64 by done. by destruct u as [v s h []].
Qed.

Definition o1 : OutPoint := mkOut (hsh 21) 0.
Definition o2 : OutPoint := mkOut (hsh 22) 1.
Definition u1 : UTXO := mkUtxo 50 [Byte.x51] 0 true.
Definition u2 : UTXO := mkUtxo 49 [Byte.x52] 1 false.
Definition coins1 : coin_map := {[ o1 := u1 ]}.
(** Block 2 spends the first coin and creates the second. *)
Definition undo2 : BlockUndoLog := [mkUndo o1 (Some u1) None; mkUndo o2 None (Some u2)].
Definition ckpt : string := "ibd_utxos_ckpt_a".

(** Tip at block 1, the header of block 2 stored, one coin in the snapshot. *)
Definition base : database := (store_headers_batch [(hsh 2, hdr 2, 1)] db1).1.
Definition snap : database := tree_insert ckpt (outpoint_to_key o1) (encode_row u1) base.

Lemma o1_ok : out_ok o1.
Proof. split; [apply hsh_ok|]. unfold is_u32; cbn; lia. Qed.
Lemma o2_ok : out_ok o2.
Proof. split; [apply hsh_ok|]. unfold is_u32; cbn; lia. Qed.
Lemma u1_ok : utxo_ok u1.
Proof. unfold utxo_ok, is_i64, is_u64; cbn; lia. Qed.
Lemma u2_ok : utxo_ok u2.
Proof. unfold utxo_ok, is_i64, is_u64; cbn; lia. Qed.
Lemma undo2_ok : Forall undo_ok undo2.
Proof.
  unfold undo2. rewrite !Forall_cons, Forall_nil. unfold undo_ok; cbn.
  split_and!; try done; try apply o1_ok; try apply o2_ok; intros u [= <-]; apply u1_ok || apply u2_ok.
Qed.

Lemma base_same t : t ≠ headers_t → t ≠ height_t → t ≠ hash_height_t → same_tree t base db1.
Proof.
  intros. unfold base. cbn [store_headers_batch]. unfold bind, reads, modify.
  destruct (claim_loop _ _ _) as [ops|]; [|done]. cbn [fst]. by rewrite !same_tree_batch by done.
Qed.
Lemma snap_same t : t ≠ ckpt → same_tree t snap base.
Proof. intros. by apply same_tree_insert. Qed.

Lemma coins1_rep : coins_rep ckpt snap coins1.
Proof.
  split.
  { intros o u Hl. unfold coins1 in Hl. apply lookup_singleton_Some in Hl as [<- <-].
    split; [apply o1_ok|apply u1_ok]. }
  intros o Ho. unfold snap. rewrite tree_get_insert. unfold coins1. rewrite lookup_singleton.
  destruct (decide (o1 = o)) as [<-|Hne]; [by rewrite decide_True|]. rewrite decide_False.
  2: { intros Hk. apply (f_equal snd) in Hk; cbn [snd] in Hk. apply Hne. by apply outpoint_key_inj; [apply o1_ok|done|]. }
  rewrite (base_same ckpt) by tree_ne. unfold db1. rewrite (update_tip_same ckpt); [apply tree_get_empty|].
  rewrite !not_elem_of_cons, elem_of_nil. split_and!; tree_ne || tauto.
Qed.

Lemma tracks1 : tracks (Some (muhash_of coins1)) coins1.
Proof. apply tracks_self. Qed.
Lemma undos2_ok : Forall (Forall undo_ok) [undo2].
Proof. apply Forall_singleton, undo2_ok. Qed.
Lemma undo2_records : records_blocks coins1 [undo2].
Proof. by split_and!. Qed.

Lemma snapshot_delta_refines_witness :
  ∃ n mh' db', commit_utxo_snapshot_delta ckpt [] [undo2] (Some (1, hsh 2)) (Some (muhash_of coins1)) snap
    = (db', Ok (n, mh')) ∧ coins_rep ckpt db' (connect_block coins1 undo2).
Proof.
  destruct (snapshot_delta_refines ckpt [] [undo2] (Some (1, hsh 2)) (Some (muhash_of coins1)) coins1 snap
    coins1_rep (Forall_nil_2 _) undos2_ok tracks1) as (n & mh' & db' & Hrun & Hrep & _).
  exists n, mh', db'. split; [exact Hrun|exact Hrep].
Defined.

Lemma connect_then_disconnect_witness :
  ∃ n1 n2 mh1 mh2 d1 d2,
    commit_utxo_snapshot_delta ckpt [] [undo2] None None snap = (d1, Ok (n1, mh1)) ∧
    commit_utxo_snapshot_delta ckpt [undo2] [] None mh1 d1 = (d2, Ok (n2, mh2)) ∧ coins_rep ckpt d2 coins1.
Proof.
  destruct (connect_then_disconnect ckpt [undo2] None None None coins1 snap coins1_rep undos2_ok undo2_records)
    as (n1 & n2 & mh1 & mh2 & d1 & d2 & H1 & H2 & H3 & _); [done|].
  exists n1, n2, mh1, mh2, d1, d2. split; [exact H1|]. split; [exact H2|exact H3].
Defined.

(** Bodies are the hashes themselves; every block has the undo log of block 2. *)
Lemma disconnect_in_windows_witness :
  ∃ mh' db', disconnect_windows (λ h _, Ok h) (λ _ _, Ok (Some [])) ckpt
      (disconnect_body_windows (hsh <$> [9; 8; 7; 6; 5; 4; 3; 2; 1])) None snap = (db', Ok mh') ∧
    coins_rep ckpt db' coins1.
Proof.
  destruct (disconnect_in_windows (λ h _, Ok h) (λ _ _, Ok (Some [])) ckpt
    (hsh <$> [9; 8; 7; 6; 5; 4; 3; 2; 1]) (replicate 9 []) None coins1 snap) as (mh' & db' & Hrun & Hrep & _);
    [done|apply coins1_rep|done|reflexivity|repeat constructor|].
  exists mh', db'. split; [exact Hrun|exact Hrep].
Defined.

Lemma snap_tip : tip_of snap = Ok (hsh 1, 0).
Proof. vm_compute. reflexivity. Qed.
Lemma snap_settled : settled ckpt (hsh 1, 0) coins1 snap.
Proof.
  split; [split; [vm_compute; reflexivity|left; vm_compute; reflexivity]|].
  split; [apply snap_tip|]. split; [apply coins1_rep|]. split; [|split; vm_compute; reflexivity].
  replace (running_muhash snap) with (@None MuHash) by (vm_compute; reflexivity). done.
Qed.

Lemma can_finish2 : can_finish (hsh 2) (hdr 2) 1 snap.
Proof.
  assert (∀ t, t ≠ ckpt → t ≠ headers_t → t ≠ height_t → t ≠ hash_height_t → same_tree t snap db1) as Hs.
  { intros. rewrite snap_same by done. by apply base_same. }
  split; [rewrite (Hs index_tree) by tree_ne; apply db1_inv|]. split.
  { destruct (proj2 db1_inv) as (oi & Hl & Hi). exists oi.
    split; [by rewrite (Hs chain_info_t) by tree_ne|]. intros i Hoi. destruct (Hi i Hoi) as [Hok (H1 & H2 & e & H3 & H4)].
    split; [done|]. split; [done|]. split; [by rewrite (Hs chainwork_t) by tree_ne|].
    exists e. by rewrite (Hs index_tree) by tree_ne. }
  split; [apply hsh_ok|]. split; [by apply key_ne|]. split; [apply hdr_ok|]. split; [unfold is_u64; lia|].
  split; [vm_compute; reflexivity|]. split; [eexists; vm_compute; reflexivity|].
  split; vm_compute; reflexivity.
Qed.

(** A stop between the coin batch and the tip. *)
Definition stopped : database :=
  (commit_utxo_snapshot_delta ckpt [] [undo2] (Some (1, hsh 2)) (running_muhash snap) snap).1.
Lemma connect_crash_safe_witness :
  ∃ r, recover_snapshot_commit 1 stopped = (r, Ok tt) ∧ tip_of r = Ok (hsh 2, 1) ∧
    coins_rep ckpt r (connect_block coins1 undo2).
Proof.
  destruct (connect_crash_safe ckpt undo2 (hsh 2) (hdr 2) 1 (hsh 1, 0) coins1 snap 0
    snap_settled ltac:(vm_compute; congruence) can_finish2 undo2_ok) as [_ Hall].
  destruct (Hall stopped) as (r & Hrec & Hr).
  { unfold connect_crash_points. right. left. }
  rewrite decide_False in Hr.
  2: { intros Heq. apply (f_equal (tree_get ckpt SNAPSHOT_REORG_JOURNAL_KEY)) in Heq.
       vm_compute in Heq. discriminate Heq. }
  destruct Hr as (Ht & Hrep & _). exists r. split; [exact Hrec|]. split; [exact Ht|exact Hrep].
Defined.
End SnapshotWitness.
