(* ===== verification/UtxoStore.v ===== *)
(** * UtxoStore: the chain table of coins

    [src/storage/utxostore.rs]: the tree [utxos] with its 40-byte keys and the
    36-byte keys it still reads, and the write-behind [CachedUtxoStore].  Values
    go through the row codec of [src/storage/utxo_value_codec.rs]; the
    [utxo-compression] feature, which is off by default, is left out.  The cache
    is the crate [lru], used through its interface. *)

From S2P Require Import Prelude Bytes Database Interfaces BlockIndex ChainState BlockStore ForkChoice UtxoSnapshot.
Open Scope Z_scope.

Definition utxos_t : string := "utxos".

(** ** The store *)

Section Store.
Context {UC : Codec UTXO}.

Definition outpoint_key (o : OutPoint) : bytes := op_hash o ++ to_be 8 (op_index o).
Definition legacy_outpoint_key (o : OutPoint) : bytes := op_hash o ++ to_be 4 (op_index o).
Definition outpoint_from_key (key : bytes) : result OutPoint :=
  if bool_decide (length key < 36)%nat then Err "Invalid outpoint key length"
  else Ok (mkOut (take 32 key)
                 (if bool_decide (40 ≤ length key)%nat then as_u32 (of_be (slice 32 8 key))
                  else of_be (slice 32 4 key))).

Definition store_utxo_set (utxo_set : coin_map) : M database unit :=
  modify (tree_clear utxos_t) ;;
  modify (batch_commit utxos_t
    ((λ p : OutPoint * UTXO, (outpoint_key p.1, Some (encode_row p.2))) <$> map_to_list utxo_set)).

(** [load_utxo_set] over the rows in the order the tree returns them. *)
Fixpoint load_rows (rows : list (bytes * bytes)) (utxo_set : coin_map) : result coin_map :=
  match rows with
  | [] => Ok utxo_set
  | (key, value) :: rest =>
      let+ o := outpoint_from_key key in
      let+ u := decode_coin value in
      load_rows rest (<[o := u]> utxo_set)
  end.
Definition load_utxo_set (db : database) : result coin_map := load_rows (tree_iter utxos_t db) ∅.

Definition add_utxo (o : OutPoint) (u : UTXO) : M database unit :=
  modify (tree_insert utxos_t (outpoint_key o) (encode_row u)).
Definition remove_utxo (o : OutPoint) : M database unit :=
  modify (commit_keyed [(utxos_t, outpoint_key o, None); (utxos_t, legacy_outpoint_key o, None)]).
Definition get_utxo (o : OutPoint) (db : database) : result (option UTXO) :=
  match tree_get utxos_t (outpoint_key o) db with
  | Some data => let+ u := decode_coin data in Ok (Some u)
  | None =>
      match tree_get utxos_t (legacy_outpoint_key o) db with
      | Some data => let+ u := decode_coin data in Ok (Some u)
      | None => Ok None
      end
  end.
Definition has_utxo (o : OutPoint) (db : database) : bool :=
  tree_contains_key utxos_t (outpoint_key o) db.
Definition utxo_count (db : database) : nat := length (tree_iter utxos_t db).

End Store.

(** ** The cached store *)

(** The crate [lru]: a bounded map that may evict entries when one is added. *)
Class LruOps := {
  Lru : Type;
  lru_new : nat → Lru;
  lru_get : OutPoint → Lru → option UTXO * Lru;
  lru_put : OutPoint → UTXO → Lru → Lru;
  lru_pop : OutPoint → Lru → option UTXO * Lru;
}.
(** Its contents: lookups do not change them, an added entry is there, a popped
    one is not, and eviction only removes. *)
Class LruLaws (C : LruOps) := {
  lru_map : Lru → coin_map;
  lru_new_map : ∀ n, lru_map (lru_new n) = ∅;
  lru_get_spec : ∀ o c, (lru_get o c).1 = lru_map c !! o ∧ lru_map (lru_get o c).2 = lru_map c;
  lru_put_spec : ∀ o u c, lru_map (lru_put o u c) !! o = Some u ∧
                          lru_map (lru_put o u c) ⊆ <[o := u]> (lru_map c);
  lru_pop_spec : ∀ o c, (lru_pop o c).1 = lru_map c !! o ∧
                        lru_map (lru_pop o c).2 = delete o (lru_map c);
}.

Section Cached.
Context {UC : Codec UTXO} {C : LruOps}.

Record CachedUtxoStore := mkCached {
  inner : database;
  cache : Lru;
  pending : list (OutPoint * option UTXO);
  stats : Z;
}.

(** A zero size becomes 100,000; the hit counter wraps. *)
Definition cached_new (db : database) (cache_size : nat) : CachedUtxoStore :=
  mkCached db (lru_new (match cache_size with O => Z.to_nat 100000 | _ => cache_size end)) [] 0.

Definition cached_get (o : OutPoint) : M CachedUtxoStore (option UTXO) := λ s,
  match lru_get o (cache s) with
  | (Some u, c) => (mkCached (inner s) c (pending s) (as_u64 (stats s + 1)), Ok (Some u))
  | (None, c) =>
      let s1 := mkCached (inner s) c (pending s) (stats s) in
      match get_utxo o (inner s) with
      | Err e => (s1, Err e)
      | Ok (Some u) => (mkCached (inner s) (lru_put o u c) (pending s) (stats s), Ok (Some u))
      | Ok None => (s1, Ok None)
      end
  end.

Definition cached_spend (o : OutPoint) : M CachedUtxoStore (option UTXO) := λ s,
  let '(popped, c) := lru_pop o (cache s) in
  match match popped with Some u => Ok (Some u) | None => get_utxo o (inner s) end with
  | Err e => (mkCached (inner s) c (pending s) (stats s), Err e)
  | Ok u => (mkCached (inner s) c (pending s ++ [(o, None)]) (stats s), Ok u)
  end.

(** The helper of the cached store: [index] is a [u32], so the key has 36 bytes. *)
Definition cached_outpoint_to_key (o : OutPoint) : bytes := op_hash o ++ to_be 4 (op_index o).

Definition cached_flush : M CachedUtxoStore nat := λ s,
  match pending s with
  | [] => (s, Ok 0%nat)
  | ops =>
      (mkCached (batch_commit utxos_t
                   ((λ p : OutPoint * option UTXO, (cached_outpoint_to_key p.1, encode_row <$> p.2)) <$> ops) (inner s))
                (cache s) [] (stats s),
       Ok (length ops))
  end.
End Cached.

(** ** Keys *)

Lemma outpoint_key_eq o : outpoint_key o = outpoint_to_key o.
Proof. done. Qed.
Lemma length_legacy_key o : is_hash (op_hash o) → length (legacy_outpoint_key o) = 36%nat.
Proof. intros Hh. unfold legacy_outpoint_key. rewrite length_app, length_to_be. unfold is_hash in Hh. lia. Qed.
Lemma outpoint_from_outpoint_key o : out_ok o → outpoint_from_key (outpoint_key o) = Ok o.
Proof.
  intros Ho. unfold outpoint_from_key. rewrite outpoint_key_eq.
  pose proof (length_outpoint_key o (proj1 Ho)) as Hl.
  rewrite bool_decide_eq_false_2, bool_decide_eq_true_2 by lia. f_equal. by apply key_to_outpoint_to_key.
Qed.
Lemma legacy_key_inj o o' :
  out_ok o → out_ok o' → legacy_outpoint_key o = legacy_outpoint_key o' → o = o'.
Proof.
  intros [Hh Hi] [Hh' Hi'] Heq. apply app_inj_1 in Heq as [E1 E2]; [|by rewrite Hh, Hh'].
  apply to_be_inj in E2; [|unfold is_u32 in *; cbn; lia..]. destruct o, o'; cbn in *; congruence.
Qed.
Lemma outpoint_key_ne_legacy o o' : out_ok o → out_ok o' → outpoint_key o ≠ legacy_outpoint_key o'.
Proof.
  intros [Hh _] [Hh' _] Heq. pose proof (length_outpoint_key o Hh) as Hl. rewrite outpoint_key_eq in Heq.
  rewrite Heq, length_legacy_key in Hl by done. lia.
Qed.

Section StoreTheorems.
Context {UC : Codec UTXO} {UL : CodecLaws UTXO utxo_ok}.
Implicit Types (db : database) (coins : coin_map).

Lemma decode_encode_coin u : utxo_ok u → decode_coin (encode_row u) = Ok u.
Proof. intros Hu. unfold decode_coin. by rewrite decode_encode_row. Qed.

(** Reading rows that all belong to a coin map collects exactly those coins. *)
Lemma load_rows_spec coins rows acc :
  coins_ok coins → acc ⊆ coins →
  Forall (λ kv, ∃ o u, coins !! o = Some u ∧ kv = (outpoint_key o, encode_row u)) rows →
  ∃ m, load_rows rows acc = Ok m ∧ acc ⊆ m ∧ m ⊆ coins ∧
    ∀ o u, coins !! o = Some u → (outpoint_key o, encode_row u) ∈ rows → m !! o = Some u.
Proof.
  intros Hok. revert acc. induction rows as [|[k v] rows IH]; intros acc Hacc Hall.
  { exists acc. split_and!; try done. intros o u _ Hin. by apply elem_of_nil in Hin. }
  apply Forall_cons in Hall as [(o & u & Hou & [= -> ->]) Hall]. destruct (Hok o u Hou) as [Ho Hu].
  cbn [load_rows]. rewrite outpoint_from_outpoint_key by done. cbn [rbind].
  rewrite decode_encode_coin by done. cbn [rbind].
  destruct (IH (<[o := u]> acc)) as (m & -> & H1 & H2 & H3); [|done|].
  { apply map_subseteq_spec. intros o' u'. rewrite lookup_insert. case_decide as E.
    - subst o'. by intros [= <-].
    - intros Hl. by eapply lookup_weaken. }
  assert (m !! o = Some u) as Hm by (eapply lookup_weaken; [apply lookup_insert_eq|done]).
  exists m. split_and!; [done| |done|].
  - apply map_subseteq_spec. intros o' u' Hl. destruct (decide (o = o')) as [<-|Hne].
    + assert (coins !! o = Some u') by (by eapply lookup_weaken). congruence.
    + eapply lookup_weaken; [|exact H1]. by rewrite lookup_insert_ne.
  - intros o' u' Ho' Hin. apply elem_of_cons in Hin as [Heq|Hin]; [|by apply H3].
    destruct (Hok o' u' Ho') as [Hok' _]. injection Heq as Hk _.
    assert (o' = o) as -> by (by apply outpoint_key_inj). congruence.
Qed.

(** Storing the set replaces the table: the rows are those of the map. *)
Lemma store_rows coins db k v :
  coins_ok coins →
  tree_get utxos_t k (store_utxo_set coins db).1 = Some v ↔
  ∃ o u, coins !! o = Some u ∧ k = outpoint_key o ∧ v = encode_row u.
Proof.
  intros Hok. unfold store_utxo_set, bind, modify. cbn [fst].
  set (ops := (λ p : OutPoint * UTXO, (outpoint_key p.1, Some (encode_row p.2))) <$> map_to_list coins).
  assert (NoDup ops.*1) as Hnd.
  { unfold ops. rewrite <-list_fmap_compose. apply NoDup_fmap_2_strong; [|apply NoDup_map_to_list].
    intros [o u] [o' u'] Hin Hin' Hk. rewrite elem_of_map_to_list in Hin, Hin'. cbn in Hk.
    apply outpoint_key_inj in Hk as ->; [congruence|by eapply Hok..]. }
  rewrite batch_nodup_get, tree_get_clear, decide_True by done.
  assert (∀ w, (list_to_map ops : gmap bytes (option bytes)) !! k = Some w ↔
    ∃ o u, coins !! o = Some u ∧ k = outpoint_key o ∧ w = Some (encode_row u)) as Hl.
  { intros w. rewrite <-elem_of_list_to_map by done. unfold ops. rewrite list_elem_of_fmap. split.
    - intros ([o u] & [= -> ->] & Hin%elem_of_map_to_list). eauto 6.
    - intros (o & u & Hou & -> & ->). exists (o, u). split; [done|]. by apply elem_of_map_to_list. }
  destruct (list_to_map ops !! k) as [w|] eqn:E.
  - destruct (proj1 (Hl w) eq_refl) as (o & u & Hou & -> & ->). split; [intros [= <-]; eauto 6|].
    intros (o' & u' & Hou' & Hk & ->). apply outpoint_key_inj in Hk; [|by eapply Hok..]. congruence.
  - split; [done|]. intros (o & u & Hou & -> & ->).
    assert (None = Some (Some (encode_row u))) as [=] by (apply Hl; eauto 6).
Qed.

(** [C28] Storing and loading the coin set are inverse: whatever the table held,
    after [store_utxo_set] the set loads back unchanged, and a lookup of any
    outpoint returns exactly the coin of the set. *)
Theorem utxo_set_roundtrip (coins : coin_map) (db : database) :
  coins_ok coins →
  ∃ db', store_utxo_set coins db = (db', Ok tt) ∧ load_utxo_set db' = Ok coins ∧
    (∀ o, out_ok o → get_utxo o db' = Ok (coins !! o) ∧ has_utxo o db' = bool_decide (is_Some (coins !! o))) ∧
    (∀ t, t ≠ utxos_t → ∀ k, tree_get t k db' = tree_get t k db).
Proof.
  intros Hok. pose proof (λ k v, store_rows coins db k v Hok) as Hrows.
  assert (∀ t, t ≠ utxos_t → ∀ k, tree_get t k (store_utxo_set coins db).1 = tree_get t k db) as Hother.
  { intros t Ht k. unfold store_utxo_set, bind, modify. cbn [fst].
    rewrite batch_commit_other_tree by done. rewrite tree_get_clear. by rewrite decide_False. }
  exists (store_utxo_set coins db).1. split; [done|]. revert Hrows Hother.
  generalize (store_utxo_set coins db).1 as db'. intros db' Hrows Hother. split; [|split; [|done]].
  - unfold load_utxo_set. destruct (load_rows_spec coins (tree_iter utxos_t db') ∅)
      as (m & -> & _ & Hsub & Hall); [done|apply map_empty_subseteq| |].
    { apply Forall_forall. intros [k v] Hin. apply elem_of_tree_iter, Hrows in Hin.
      destruct Hin as (o & u & ? & -> & ->). eauto. }
    f_equal. apply (anti_symm (⊆)); [done|]. apply map_subseteq_spec. intros o u Hou. apply Hall; [done|].
    apply elem_of_tree_iter, Hrows; eauto.
  - intros o Ho. unfold get_utxo, has_utxo, tree_contains_key.
    assert (tree_get utxos_t (outpoint_key o) db' = encode_row <$> coins !! o) as Hrow.
    { apply option_eq. intros v. rewrite Hrows. destruct (coins !! o) as [u|] eqn:E; cbn.
      - split; [|intros [= <-]; eauto]. intros (o' & u' & Ho' & Hk & ->).
        apply outpoint_key_inj in Hk as <-; [congruence|done|by eapply Hok].
      - split; [|done]. intros (o' & u' & Ho' & Hk & ->).
        apply outpoint_key_inj in Hk as <-; [congruence|done|by eapply Hok]. }
    change (db' !! (utxos_t, outpoint_key o)) with (tree_get utxos_t (outpoint_key o) db').
    rewrite Hrow. destruct (coins !! o) as [u|] eqn:E.
    + split; [cbn; by rewrite decode_encode_coin by by eapply Hok|done].
    + split; [|done]. cbn. assert (tree_get utxos_t (legacy_outpoint_key o) db' = None) as ->; [|done].
      apply eq_None_not_Some. intros [v Hv%Hrows]. destruct Hv as (o' & u' & Ho' & Hk & _).
      by apply (outpoint_key_ne_legacy o' o); [by eapply Hok|done|].
Qed.

(** Adding and removing act on one outpoint: after [add_utxo] that outpoint
    reads back the coin, after [remove_utxo] it reads back nothing, even when a row
    was written under the older 36-byte key, and every other outpoint reads as
    before. *)
Theorem utxo_store_update (o : OutPoint) (u : UTXO) (db : database) :
  out_ok o → utxo_ok u → ∀ o', out_ok o' →
  get_utxo o' (add_utxo o u db).1 = (if decide (o = o') then Ok (Some u) else get_utxo o' db) ∧
  get_utxo o' (remove_utxo o db).1 = (if decide (o = o') then Ok None else get_utxo o' db).
Proof.
  intros Ho Hu o' Ho'. unfold add_utxo, remove_utxo, modify. cbn [fst].
  rewrite !commit_keyed_cons, commit_keyed_nil. cbn [apply_op]. unfold get_utxo.
  case_decide as Heq.
  - subst o'. rewrite tree_get_insert_eq, decode_encode_coin by done. split; [done|].
    rewrite tree_get_remove_ne by (intros [= E]; by apply (outpoint_key_ne_legacy o o)).
    by rewrite !tree_get_remove_eq.
  - assert (outpoint_key o ≠ outpoint_key o') by (by intros E%outpoint_key_inj).
    assert (legacy_outpoint_key o ≠ legacy_outpoint_key o') by (by intros E%legacy_key_inj).
    pose proof (outpoint_key_ne_legacy o o' Ho Ho'). pose proof (outpoint_key_ne_legacy o' o Ho' Ho).
    rewrite !tree_get_insert_ne, !tree_get_remove_ne by congruence. done.
Qed.

(** A row whose key is too short makes the whole set unreadable. *)
Lemma short_key_breaks_load db k v :
  (length k < 36)%nat → tree_get utxos_t k db = Some v → is_ok (load_utxo_set db) = false.
Proof.
  intros Hk Hg. apply elem_of_tree_iter in Hg. unfold load_utxo_set. generalize (∅ : coin_map).
  induction (tree_iter utxos_t db) as [|[k' v'] rows IH]; intros acc; [by apply elem_of_nil in Hg|].
  cbn [load_rows]. apply elem_of_cons in Hg as [[= <- <-]|Hin].
  - unfold outpoint_from_key. by rewrite bool_decide_eq_true_2.
  - destruct (outpoint_from_key k'); [|done]. cbn [rbind]. destruct (decode_coin v'); [|done]. by apply IH.
Qed.
End StoreTheorems.

(** ** The cache: an instance of the laws *)

Module ListLru.
(** A capacity and the entries, most recent first. *)
Definition drop_key (o : OutPoint) (l : list (OutPoint * UTXO)) : list (OutPoint * UTXO) :=
  filter (λ kv, kv.1 ≠ o) l.
Definition to_map (l : list (OutPoint * UTXO)) : coin_map := list_to_map l.

Lemma to_map_drop o l : to_map (drop_key o l) = delete o (to_map l).
Proof.
  unfold to_map, drop_key. induction l as [|[k v] l IH]; [symmetry; apply delete_empty|].
  cbn [list_to_map foldr fst snd]. rewrite filter_cons. cbn [fst]. case_decide as Hk; cbn.
  - rewrite delete_insert_ne by congruence. by rewrite <-IH.
  - assert (k = o) as -> by (destruct (decide (k = o)); [done|by destruct Hk]). by rewrite delete_insert_eq, IH.
Qed.
Lemma to_map_front o u l : to_map l !! o = Some u → to_map ((o, u) :: drop_key o l) = to_map l.
Proof.
  intros Hl. change (<[o := u]> (to_map (drop_key o l)) = to_map l).
  by rewrite to_map_drop, insert_delete_eq, insert_id.
Qed.

#[global] Instance ops : LruOps := {|
  Lru := nat * list (OutPoint * UTXO);
  lru_new n := (n, []);
  lru_get o c := match to_map c.2 !! o with
                 | Some u => (Some u, (c.1, (o, u) :: drop_key o c.2))
                 | None => (None, c)
                 end;
  lru_put o u c := (c.1, (o, u) :: take (pred c.1) (drop_key o c.2));
  lru_pop o c := (to_map c.2 !! o, (c.1, drop_key o c.2));
|}.
#[global] Instance laws : LruLaws ops.
Proof.
  refine {| lru_map := (λ c, to_map c.2) : @Lru ops → coin_map |}; cbn [Lru lru_new lru_get lru_put lru_pop ops].
  - done.
  - intros o [n l]; cbn [fst snd]. destruct (to_map l !! o) as [u|] eqn:E; cbn [fst snd]; [|done].
    split; [done|]. by apply to_map_front.
  - intros o u [n l]; cbn [fst snd]. split; [apply lookup_insert_eq|].
    change (to_map (?x :: ?k)) with (<[x.1 := x.2]> (to_map k)). cbn [fst snd].
    rewrite <-(insert_delete_eq (to_map l)), <-to_map_drop. apply insert_mono. unfold to_map.
    rewrite <-(take_drop (pred n) (drop_key o l)) at 2. rewrite list_to_map_app. apply map_union_subseteq_l.
  - intros o [n l]; cbn [fst snd]. split; [done|]. apply to_map_drop.
Defined.
End ListLru.

Section CachedTheorem.
Context {UC : Codec UTXO} {UL : CodecLaws UTXO utxo_ok} {C : LruOps} {CL : LruLaws C}.

(** A spend through the cached store does not last.  For a coin stored in
    the table and any cache size, [spend] returns the coin, a following [get]
    returns it again, and after [flush] (which deletes under the 36-byte key) the
    coin is still in the table. *)
Theorem cached_spend_does_not_last (o : OutPoint) (u : UTXO) (db : database) (size : nat) :
  out_ok o → utxo_ok u →
  ∃ s1 s2, let stored := (add_utxo o u db).1 in
    cached_spend o (cached_new stored size) = (s1, Ok (Some u)) ∧
    (cached_get o s1).2 = Ok (Some u) ∧
    cached_flush s1 = (s2, Ok 1%nat) ∧
    get_utxo o (inner s2) = Ok (Some u) ∧ has_utxo o (inner s2) = true.
Proof.
  intros Ho Hu. cbn [add_utxo modify fst].
  set (stored := tree_insert utxos_t (outpoint_key o) (encode_row u) db).
  assert (∀ d, tree_get utxos_t (outpoint_key o) d = Some (encode_row u) → get_utxo o d = Ok (Some u)) as Hget.
  { intros d Hd. unfold get_utxo. by rewrite Hd, decode_encode_coin. }
  assert (tree_get utxos_t (outpoint_key o) stored = Some (encode_row u)) as Hst by apply tree_get_insert_eq.
  unfold cached_spend, cached_new. cbn [cache inner pending stats].
  set (c0 := lru_new _). destruct (lru_pop o c0) as [popped c1] eqn:Hpop.
  destruct (lru_pop_spec o c0) as [H1 H2]. rewrite Hpop in H1, H2. cbn [fst snd] in H1, H2.
  assert (popped = None) as -> by (subst c0; by rewrite H1, lru_new_map).
  rewrite (Hget _ Hst). eexists _, _. split; [reflexivity|]. split; [|split; [reflexivity|]].
  - unfold cached_get. cbn [cache inner]. destruct (lru_get o c1) as [r c2] eqn:Hg.
    destruct (lru_get_spec o c1) as [H3 _]. rewrite Hg in H3. cbn [fst] in H3.
    assert (r = None) as -> by (rewrite H3, H2; apply lookup_delete_eq). by rewrite (Hget _ Hst).
  - cbn [inner pending app fmap list_fmap fst snd]. unfold batch_commit. cbn [fmap list_fmap fst snd].
    rewrite commit_keyed_cons, commit_keyed_nil. cbn [apply_op option_fmap option_map].
    assert (tree_get utxos_t (outpoint_key o) (tree_remove utxos_t (cached_outpoint_to_key o) stored)
            = Some (encode_row u)) as Hafter.
    { rewrite tree_get_remove_ne; [done|]. intros [= E]. by apply (outpoint_key_ne_legacy o o). }
    split; [by apply Hget|]. unfold has_utxo. by apply tree_contains_key_spec.
Qed.
End CachedTheorem.

(** ** Witnesses *)

Module TableWitness.
Import SnapshotWitness.

Lemma coins1_ok : coins_ok coins1.
Proof. apply coins1_rep. Qed.

Lemma utxo_set_roundtrip_witness :
  ∃ db', store_utxo_set coins1 snap = (db', Ok tt) ∧ load_utxo_set db' = Ok coins1.
Proof.
  destruct (utxo_set_roundtrip coins1 snap coins1_ok) as (db' & Hrun & Hload & _).
  exists db'. split; [exact Hrun|exact Hload].
Defined.

Lemma utxo_store_update_witness :
  get_utxo o1 (add_utxo o1 u1 ∅).1 = Ok (Some u1) ∧ get_utxo o1 (remove_utxo o1 ∅).1 = Ok None.
Proof.
  destruct (utxo_store_update o1 u1 ∅ o1_ok u1_ok o1 o1_ok) as [H1 H2].
  rewrite decide_True in H1, H2 by reflexivity. split; [exact H1|exact H2].
Defined.

Lemma cached_spend_does_not_last_witness :
  ∃ s1, cached_spend o1 (cached_new (add_utxo o1 u1 ∅).1 4) = (s1, Ok (Some u1)) ∧
    (cached_get o1 s1).2 = Ok (Some u1).
Proof.
  destruct (cached_spend_does_not_last (C := ListLru.ops) o1 u1 ∅ 4 o1_ok u1_ok) as (s1 & s2 & H1 & H2 & _).
  exists s1. split; [exact H1|exact H2].
Defined.
End TableWitness.
