(* ===== verification/Reorg.v ===== *)
(** * Reorg: activating a heavier fork

    [try_activate_heavier_fork] of [src/node/reorg_executor.rs], on the database
    and the in-memory coin set it is given, with the helpers it calls.  The
    consensus call [reorganize_chain_with_witnesses], the block bodies and the
    module pipeline are parameters; mempool and event notifications, which come
    after every write, are left out. *)

From S2P Require Import Prelude Bytes Database Interfaces BlockIndex ChainState BlockStore ForkChoice UtxoSnapshot UtxoStore.
Open Scope Z_scope.

(** The tree of undo logs of the block store. *)
Definition undo_t : string := "block_undo".

(** ** Node state *)

(** The storage and the coin set the run loop passes by reference. *)
Record Node := mkNode { node_db : database; utxo_set : coin_map }.

Definition on_db {A} (m : M database A) : M Node A := λ s,
  let '(db', r) := m (node_db s) in (mkNode db' (utxo_set s), r).
Definition put_utxo_set (coins : coin_map) : M Node unit := modify (λ s, mkNode (node_db s) coins).

Section Activate.
Context {U : U256Ops} {K : Consensus} {H : MuHashOps}.
Context {EC : Codec BlockIndexEntry} {IC : Codec ChainInfo} {HC : Codec BlockHeader} {UC : Codec UTXO}.
(** Blocks: their header, and for each transaction whether it is a coinbase and
    the outpoints it spends. *)
Context {Blk Wit : Type} (block_header : Blk → BlockHeader) (block_inputs : Blk → list (bool * list OutPoint)).
(** Block store reads: bodies, undo logs and witnesses. *)
Context (load_reorg_block : bytes → database → result Blk)
        (get_undo_log : bytes → database → result (option BlockUndoLog))
        (load_witnesses : Blk → Z → database → result Wit).
(** The module pipeline and the assume-valid height. *)
Context (rehydrate : Z → bytes → Blk → Wit → Blk * Wit) (assume_valid_height : Z).

(** What [reorganize_chain_with_witnesses] returns, and the call: it can store
    undo logs. *)
Record ReorgResult := mkReorg {
  rr_new_utxo_set : coin_map;
  rr_connected : list Blk;
  rr_undo_logs : gmap bytes BlockUndoLog;
  rr_new_height : Z;
}.
Context (reorganize : list Blk → list Wit → list Blk → coin_map → Z → M database ReorgResult).

Definition get_block_hash (b : Blk) : bytes := hash256 (header_bytes (block_header b)).

(** ** Inputs of the branch to connect *)

Fixpoint read_inputs (t : string) (prevouts : list OutPoint) (coins : coin_map) (loaded : nat) (db : database)
    : coin_map * result nat :=
  match prevouts with
  | [] => (coins, Ok loaded)
  | o :: rest =>
      if bool_decide (is_Some (coins !! o)) then read_inputs t rest coins loaded db
      else match tree_get t (outpoint_to_key o) db with
           | None => read_inputs t rest coins loaded db
           | Some bs => match decode_coin bs with
                        | Err e => (coins, Err e)
                        | Ok u => read_inputs t rest (<[o := u]> coins) (S loaded) db
                        end
           end
  end.
Definition spent_by (blocks : list Blk) : list OutPoint :=
  mjoin ((λ b, mjoin ((λ tx : bool * list OutPoint, if tx.1 then [] else tx.2) <$> block_inputs b)) <$> blocks).
Definition read_snapshot_inputs (t : string) (blocks : list Blk) : M Node nat := λ s,
  let '(coins, r) := read_inputs t (spent_by blocks) (utxo_set s) 0 (node_db s) in
  (mkNode (node_db s) coins, r).

(** ** Bodies and witnesses of a branch *)

Fixpoint load_blocks (hashes : list bytes) (db : database) : result (list Blk) :=
  match hashes with
  | [] => Ok []
  | h :: rest =>
      let+ b := load_reorg_block h db in
      let+ bs := load_blocks rest db in
      Ok (b :: bs)
  end.

Fixpoint witnesses_for_chain (chain : list Blk) (db : database) : result (list Wit) :=
  match chain with
  | [] => Ok []
  | b :: rest =>
      let+ oe := index_get (get_block_hash b) db in
      let+ w := load_witnesses b (default 0 (bi_height <$> oe)) db in
      let+ ws := witnesses_for_chain rest db in
      Ok (w :: ws)
  end.

(** An index error counts as height 0. *)
Definition block_height_in_index (b : Blk) (db : database) : Z :=
  match index_get (get_block_hash b) db with
  | Ok (Some e) => bi_height e
  | _ => 0
  end.
Definition rehydrate_chain (chain : list Blk) (ws : list Wit) (db : database) : list (Blk * Wit) :=
  zip_with (λ b w, rehydrate (block_height_in_index b db) (get_block_hash b) b w) chain ws.

(** Undo logs of the connected blocks, in order. *)
Fixpoint connect_undos (connected : list Blk) (logs : gmap bytes BlockUndoLog) : result (list BlockUndoLog) :=
  match connected with
  | [] => Ok []
  | b :: rest =>
      let+ u := of_option "missing undo for connected" (logs !! get_block_hash b) in
      let+ us := connect_undos rest logs in
      Ok (u :: us)
  end.

(** ** The switch *)

(** Undo the active branch on the live tree, in windows, and load the other
    branch.  The result is the current chain, the new chain, the height the
    consensus call starts from, and the running hash. *)
Definition disconnect_on_disk (t : string) (active_tip candidate_tip : bytes) (muhash : option MuHash)
    : M Node (list Blk * list Blk * Z * option MuHash) :=
  let* chains := on_db (fork_hash_chains active_tip candidate_tip) in
  let '(active, candidate) := chains in
  let* _disconnected := on_db (reads (load_blocks (tail active))) in
  let* ancestor := lift (of_option "reorg fork has no ancestor" (head active)) in
  let* mh := on_db (disconnect_windows load_reorg_block get_undo_log t
                      (disconnect_body_windows (reverse (tail active))) muhash) in
  on_db (persist_muhash mh) ;;
  let* new_chain := on_db (reads (load_blocks candidate)) in
  let* ancestor_block := lift (of_option "reorg fork has no ancestor" (head new_chain)) in
  let* oe := on_db (reads (index_get ancestor)) in
  let* e := lift (of_option "ancestor missing from block index" oe) in
  read_snapshot_inputs t (tail new_chain) ;;
  ret ([ancestor_block], new_chain, bi_height e, mh).

(** The consensus call takes the coin set; an error gives it back as it was. *)
Definition run_reorganize (new_chain : list Blk) (ws : list Wit) (current_chain : list Blk) (hgt : Z)
    : M Node ReorgResult := λ s,
  match reorganize new_chain ws current_chain (utxo_set s) hgt (node_db s) with
  | (db', Ok r) => (mkNode db' (rr_new_utxo_set r), Ok r)
  | (db', Err e) => (mkNode db' (utxo_set s), Err e)
  end.

(** Validate the new branch and commit it: coins, running hash, tip, heights. *)
Definition connect_branch (fuel : nat) (live_tree snapshot : option string)
    (current_chain new_chain0 : list Blk) (consensus_height : Z) (muhash : option MuHash) : M Node bool :=
  match current_chain, new_chain0 with
  | [], _ | _, [] => ret false
  | _, _ =>
    let* ws0 := on_db (reads (witnesses_for_chain new_chain0)) in
    let* pairs := gets (λ s, rehydrate_chain new_chain0 ws0 (node_db s)) in
    let new_chain := pairs.*1 in
    (match snapshot with
     | Some t => let* _n := read_snapshot_inputs t (tail new_chain) in ret tt
     | None => ret tt
     end) ;;
    let* result := run_reorganize new_chain pairs.*2 current_chain consensus_height in
    let* new_tip_block := lift (of_option "reorg produced no connected blocks"
                                  (match last (rr_connected result) with
                                   | Some b => Some b | None => last new_chain end)) in
    let new_tip := get_block_hash new_tip_block in
    let new_height := rr_new_height result in
    (match live_tree with
     | Some t =>
         let* undos := lift (connect_undos (rr_connected result) (rr_undo_logs result)) in
         let* c := on_db (commit_utxo_snapshot_delta t [] undos (Some (new_height, new_tip)) muhash) in
         on_db (persist_muhash c.2)
     | None => ret tt
     end) ;;
    on_db (update_tip new_tip (block_header new_tip_block) new_height) ;;
    on_db (refresh_active_height_index fuel new_tip) ;;
    (if bool_decide (new_height < assume_valid_height)
     then on_db (clear_height_index assume_valid_height) else ret tt) ;;
    (match live_tree with
     | Some _ =>
         (match snapshot with
          | Some t => on_db (rewind_snapshot_height new_height) ;;
                      on_db (modify (tree_remove t SNAPSHOT_REORG_JOURNAL_KEY)) ;;
                      on_db (modify (tree_remove t SNAPSHOT_MUHASH_KEY))
          | None => ret tt
          end) ;;
         put_utxo_set ∅
     | None => let* coins := gets utxo_set in on_db (store_utxo_set coins)
     end) ;;
    ret true
  end.

Definition try_activate_heavier_fork (fuel : nat) (candidate_tip : bytes) : M Node bool :=
  let* heavier := on_db (reads (should_activate_over_active_tip candidate_tip)) in
  if negb heavier then ret false
  else
    let* in_memory := gets (λ s, bool_decide (utxo_set s ≠ ∅)) in
    let* snapshot := gets (λ s, if in_memory then None else open_engine_resume_snapshot (node_db s)) in
    let* exported := gets (λ s, bool_decide (0 < default 0 (get_engine_export_height (node_db s)))) in
    let source := disk_utxo_source (bool_decide (is_Some snapshot)) exported in
    match in_memory, source with
    | false, MissingSnapshot => throw "reorg refused: IBD UTXO snapshot is empty"
    | _, _ =>
      let* tip := on_db (reads get_tip_hash_and_height) in
      let live_tree := if in_memory then None
                       else match source with
                            | Snapshot => snapshot
                            | ChainTable => Some utxos_t
                            | MissingSnapshot => None
                            end in
      let* live_muhash := gets (λ s, match live_tree, snapshot with
                                     | Some _, Some _ => running_muhash (node_db s)
                                     | _, _ => None
                                     end) in
      let* chains := match live_tree with
                     | Some t => disconnect_on_disk t tip.1 candidate_tip live_muhash
                     | None =>
                         let* c := on_db (collect_fork_chains load_reorg_block tip.1 candidate_tip) in
                         ret (c.1, c.2, tip.2, live_muhash)
                     end in
      let '(current_chain, new_chain, consensus_height, muhash) := chains in
      connect_branch fuel live_tree snapshot current_chain new_chain consensus_height muhash
    end.
End Activate.

(** ** A failed switch *)

Section Failure.
Context {U : U256Ops} {UL : U256Laws U} {K : Consensus} {KL : ConsensusLaws K} {H : MuHashOps} {HM : MuHashLaws H}.
Context {HW : MuHashWidth K H}.
Context {EC : Codec BlockIndexEntry} {EL : CodecLaws BlockIndexEntry entry_ok}.
Context {IC : Codec ChainInfo} {IL : CodecLaws ChainInfo info_ok} {HC : Codec BlockHeader}.
Context {UC : Codec UTXO} {CL : CodecLaws UTXO utxo_ok}.
Context {Blk Wit : Type} (block_header : Blk → BlockHeader) (block_inputs : Blk → list (bool * list OutPoint)).
Context (load_reorg_block : bytes → database → result Blk)
        (get_undo_log : bytes → database → result (option BlockUndoLog))
        (load_witnesses : Blk → Z → database → result Wit).
Context (rehydrate : Z → bytes → Blk → Wit → Blk * Wit) (assume_valid_height : Z).
Context (reorganize : list Blk → list Wit → list Blk → coin_map → Z → M database (@ReorgResult Blk)).

(** The new branch is refused; storing undo logs is all the call may have done. *)
Definition refuses : Prop := ∀ new ws cur coins hgt db, ∃ db' e,
  reorganize new ws cur coins hgt db = (db', Err e) ∧ ∀ t, t ≠ undo_t → same_tree t db' db.

Lemma connect_branch_refused fuel live snap cur new hgt mh s :
  refuses → cur ≠ [] → new ≠ [] →
  ∃ s' e, connect_branch block_header block_inputs load_witnesses rehydrate assume_valid_height reorganize
            fuel live snap cur new hgt mh s = (s', Err e) ∧
    ∀ t, t ≠ undo_t → same_tree t (node_db s') (node_db s).
Proof.
  intros Href Hcur Hnew. destruct s as [db u0]. unfold connect_branch. destruct cur as [|c cur]; [done|]. destruct new as [|n new]; [done|].
  set (chain := n :: new). clearbody chain. unfold bind at 1. unfold on_db at 1. unfold reads at 1. cbn [node_db utxo_set].
  destruct (witnesses_for_chain _ _ chain db) as [ws0|e]; [|by eexists _, _].
  unfold bind at 1. unfold gets at 1. cbn [node_db utxo_set].
  set (pairs := rehydrate_chain block_header rehydrate chain ws0 db). clearbody pairs.
  assert (∀ s1, node_db s1 = db → ∃ s' e, run_reorganize reorganize pairs.*1 pairs.*2 (c :: cur) hgt s1 = (s', Err e) ∧
    ∀ t, t ≠ undo_t → same_tree t (node_db s') db) as Hrun.
  { intros s1 Hs1. unfold run_reorganize.
    destruct (Href pairs.*1 pairs.*2 (c :: cur) (utxo_set s1) hgt (node_db s1)) as (db' & e & -> & Hs).
    eexists _, e. split; [reflexivity|]. cbn. by rewrite <-Hs1. }
  destruct snap as [t|].
  - unfold bind, read_snapshot_inputs. cbn [node_db utxo_set]. destruct (read_inputs _ _ _ _ _) as [coins [k|e]].
    + unfold ret. destruct (Hrun (mkNode db coins) eq_refl) as (s' & e & -> & Hs'). by exists s', e.
    + by eexists _, _.
  - unfold bind, ret. destruct (Hrun (mkNode db u0) eq_refl) as (s' & e & -> & Hs'). by exists s', e.
Qed.

(** No journal: a restart only moves the running hash. *)
Definition quiet (t : string) (tip : bytes * Z) (coins : coin_map) (db : database) : Prop :=
  snapshot_is t db ∧ coins_rep t db coins ∧ tracks (muhash_restore <$> pending_muhash t db) coins ∧
  tree_get t SNAPSHOT_REORG_JOURNAL_KEY db = None ∧ tip_of db = Ok tip.

Lemma quiet_restartable t tip coins db : quiet t tip coins db → restartable t tip coins db.
Proof. intros (? & Hrep & Hm & ? & ?). split; [done|]. split; [exact Hrep|]. split; [exact Hm|]. by left. Qed.

Lemma quiet_frame t tip coins db db' :
  same_tree t db' db → same_tree chain_info_t db' db → quiet t tip coins db → quiet t tip coins db'.
Proof.
  intros Ht Hc (Hsn & Hrep & Hm & Hj & Htip). split; [by apply (snapshot_is_frame t db)|].
  split; [apply (coins_rep_rows t db); [intros k _; apply Ht|exact Hrep]|].
  split; [rewrite (pending_same t db); [exact Hm|done|by right]|].
  split; [by rewrite (Ht _)|]. by rewrite (tip_of_same db).
Qed.

(** Disconnecting windows and saving the running hash writes nothing else. *)
Lemma disconnect_quiet t windows tip coins db undos :
  settled t tip coins db →
  (∀ h d d', (∀ t', t' ≠ t → same_tree t' d' d) →
     load_reorg_block h d' = load_reorg_block h d ∧ get_undo_log h d' = get_undo_log h d) →
  Forall (λ w : list bytes, w ≠ [] ∧ (length w ≤ DISCONNECT_BODY_WINDOW)%nat) windows →
  load_undos load_reorg_block get_undo_log (concat windows) db = Ok undos → Forall (Forall undo_ok) undos →
  ∃ mh db1, disconnect_windows load_reorg_block get_undo_log t windows (running_muhash db) db = (db1, Ok mh) ∧
    quiet t tip (after_blocks coins undos []) (persist_muhash mh db1).1.
Proof.
  intros (Hsn & Htip & Hrep & Htr & Hj & Hm) Hload Hw Hu Hok.
  assert (∀ t', t' ∈ meta_trees → t ≠ t') as Hot by (destruct Hsn as [<- _]; intros t'; apply ckpt_tree_other).
  assert (chain_info_t ≠ t) as Hci by (intros <-; by apply (Hot chain_info_t); [unfold meta_trees; left|]).
  destruct (disconnect_windows_spec load_reorg_block get_undo_log t Hload windows (running_muhash db) coins db undos)
    as (mh & d1 & Hrun & Hrep1 & Htr1 & Hother & Hiff & Hj1 & Hmr); try done.
  exists mh, d1. split; [done|]. set (d2 := (persist_muhash mh d1).1).
  destruct (label_put_frame t Hot d1 d2) as (Ht2 & Hs2 & Hsn2); [apply persist_muhash_put|].
  split; [apply Hsn2; by apply (snapshot_is_frame t db); [apply Hother..|]|].
  split; [apply (coins_rep_rows t d1); [intros k _; apply Hs2|exact Hrep1]|].
  split; [|split; [by rewrite (Hs2 _), Hj1|rewrite Ht2, (tip_of_same db); [done|by apply Hother]]].
  unfold pending_muhash. rewrite (Hs2 _). destruct mh as [m|].
  - assert (get_ibd_utxo_muhash_running d2 = Some (muhash_state m)) as Hr.
    { unfold get_ibd_utxo_muhash_running, read_muhash_row, d2. cbn [persist_muhash fst].
      unfold persist_ibd_utxo_muhash_running_only, modify. cbn [fst]. rewrite tree_get_insert_eq.
      by rewrite bool_decide_eq_true_2 by apply muhash_state_width. }
    assert (muhash_equiv (muhash_restore (muhash_state m)) (muhash_of (after_blocks coins undos []))) as He
      by (rewrite muhash_restore_state; by apply Htr1).
    destruct Hmr as [[_ E]|(m' & [= <-] & E)]; rewrite E.
    + rewrite Hm, Hr. by intros ? [= <-].
    + rewrite bool_decide_eq_true_2 by apply muhash_state_width. by intros ? [= <-].
  - destruct Hmr as [[E0 E]|(m' & [=] & _)]. rewrite E, Hm. change d2 with d1.
    rewrite (get_running_same db) by by apply Hother. fold (running_muhash db). by rewrite <-E0.
Qed.

Variable t : string.
(** The block store does not read the coin tree. *)
Hypothesis load_other : ∀ h d d', (∀ t', t' ≠ t → same_tree t' d' d) →
  load_reorg_block h d' = load_reorg_block h d ∧ get_undo_log h d' = get_undo_log h d.

(** Whether or not the rest of the disk path succeeds, the active branch is
    already undone on disk. *)
Lemma disconnect_on_disk_quiet tip candidate a active cand coins undos bodies db u0 :
  settled t tip coins db →
  fork_hash_chains tip.1 candidate db = (db, Ok (a :: active, cand)) →
  load_blocks load_reorg_block active db = Ok bodies →
  load_undos load_reorg_block get_undo_log (reverse active) db = Ok undos → Forall (Forall undo_ok) undos →
  ∃ s' r, disconnect_on_disk block_inputs load_reorg_block get_undo_log t tip.1 candidate (running_muhash db)
            (mkNode db u0) = (s', r) ∧
    quiet t tip (after_blocks coins undos []) (node_db s') ∧
    ∀ cur new h mh, r = Ok (cur, new, h, mh) → cur ≠ [] ∧ new ≠ [].
Proof.
  intros Hset Hchains Hbodies Hu Hok.
  destruct (windows_concat (length (reverse active)) (reverse active)) as [Hcat Hall]; [done|].
  destruct (disconnect_quiet t (disconnect_body_windows (reverse active)) tip coins db undos) as (mh & d1 & Hrun & Hq);
    try done; [unfold disconnect_body_windows; by rewrite Hcat|].
  unfold disconnect_on_disk. unfold bind at 1, on_db at 1. cbn [node_db utxo_set]. rewrite Hchains.
  unfold bind at 1, on_db at 1, reads at 1. cbn [node_db utxo_set tail]. rewrite Hbodies.
  unfold bind at 1, lift at 1. cbn [head of_option].
  unfold bind at 1, on_db at 1. cbn [node_db utxo_set]. rewrite Hrun.
  unfold bind at 1, on_db at 1. cbn [node_db utxo_set].
  rewrite (run_eta _ _ _ (persist_muhash_ok mh d1)). set (d2 := (persist_muhash mh d1).1) in *. clearbody d2.
  unfold bind at 1, on_db at 1, reads at 1. cbn [node_db utxo_set].
  destruct (load_blocks load_reorg_block cand d2) as [[|b new]|e]; [..|by eexists _, _]; [by eexists _, _|].
  unfold bind at 1, lift at 1. cbn [head of_option].
  unfold bind at 1, on_db at 1, reads at 1. cbn [node_db utxo_set].
  destruct (index_get a d2) as [[e|]|e]; [|by eexists _, _..].
  unfold bind at 1, lift at 1. cbn [of_option]. unfold bind, read_snapshot_inputs. cbn [node_db utxo_set].
  destruct (read_inputs _ _ _ _ _) as [coins' [n|e']]; [|by eexists _, _].
  eexists _, _. split; [reflexivity|]. split; [done|]. by intros cur new' h mh' [= <- <- <- <-].
Qed.
End Failure.

Section ReorgTheorems.
Context {U : U256Ops} {UL : U256Laws U} {K : Consensus} {KL : ConsensusLaws K} {H : MuHashOps} {HM : MuHashLaws H}.
Context {HW : MuHashWidth K H}.
Context {EC : Codec BlockIndexEntry} {EL : CodecLaws BlockIndexEntry entry_ok}.
Context {IC : Codec ChainInfo} {IL : CodecLaws ChainInfo info_ok} {HC : Codec BlockHeader}.
Context {UC : Codec UTXO} {CL : CodecLaws UTXO utxo_ok}.
Context {Blk Wit : Type} (block_header : Blk → BlockHeader) (block_inputs : Blk → list (bool * list OutPoint)).
Context (load_reorg_block : bytes → database → result Blk)
        (get_undo_log : bytes → database → result (option BlockUndoLog))
        (load_witnesses : Blk → Z → database → result Wit).
Context (rehydrate : Z → bytes → Blk → Wit → Blk * Wit) (assume_valid_height : Z).
Context (reorganize : list Blk → list Wit → list Blk → coin_map → Z → M database (@ReorgResult Blk)).

(** A refused fork leaves the coins disconnected.  On the snapshot, when the
    candidate has more work but its blocks do not validate, the call returns an
    error with the active branch already undone on disk and the tip unchanged; a
    restart, whose journal is empty, keeps that state.  The tip then names a block
    whose coins are not in the set. *)
Theorem refused_fork_leaves_coins_disconnected (t : string) (tip : bytes * Z) (candidate a : bytes)
    (active cand : list bytes) (coins : coin_map) (undos : list BlockUndoLog) (bodies : list Blk)
    (fuel : nat) (db : database) :
  settled t tip coins db → open_engine_resume_snapshot db = Some t →
  (∀ h d d', (∀ t', t' ≠ t → same_tree t' d' d) →
     load_reorg_block h d' = load_reorg_block h d ∧ get_undo_log h d' = get_undo_log h d) →
  refuses reorganize →
  should_activate_over_active_tip candidate db = Ok true →
  fork_hash_chains tip.1 candidate db = (db, Ok (a :: active, cand)) →
  load_blocks load_reorg_block active db = Ok bodies →
  load_undos load_reorg_block get_undo_log (reverse active) db = Ok undos → Forall (Forall undo_ok) undos →
  ∃ s' e r,
    try_activate_heavier_fork block_header block_inputs load_reorg_block get_undo_log load_witnesses rehydrate
      assume_valid_height reorganize fuel candidate (mkNode db ∅) = (s', Err e) ∧
    recover_snapshot_commit (S fuel) (node_db s') = (r, Ok tt) ∧
    tip_of (node_db s') = Ok tip ∧ coins_rep t (node_db s') (after_blocks coins undos []) ∧
    tip_of r = Ok tip ∧ coins_rep t r (after_blocks coins undos []).
Proof.
  intros Hset Hopen Hother Href Hheavy Hchains Hbodies Hu Hok.
  destruct (disconnect_on_disk_quiet block_inputs load_reorg_block get_undo_log t Hother tip candidate a active cand
    coins undos bodies db ∅) as (s1 & r1 & Hrun & Hq & Hne); try done.
  assert (∃ s' e, try_activate_heavier_fork block_header block_inputs load_reorg_block get_undo_log load_witnesses
    rehydrate assume_valid_height reorganize fuel candidate (mkNode db ∅) = (s', Err e) ∧
    quiet t tip (after_blocks coins undos []) (node_db s')) as (s' & e & Hact & Hq').
  { unfold try_activate_heavier_fork. unfold bind at 1, on_db at 1, reads at 1. cbn [node_db utxo_set].
    rewrite Hheavy. cbn [negb]. unfold bind at 1, gets at 1. cbn [utxo_set].
    rewrite bool_decide_eq_false_2 by (by intros []). unfold bind at 1, gets at 1. cbn [node_db].
    rewrite Hopen. unfold bind at 1, gets at 1. cbn [node_db].
    rewrite (bool_decide_eq_true_2 (is_Some (Some t))) by done. cbn [disk_utxo_source].
    unfold bind at 1, on_db at 1, reads at 1. cbn [node_db utxo_set].
    pose proof Hset as (_ & Htip & _). unfold tip_of in Htip. rewrite Htip.
    unfold bind at 1, gets at 1. cbn [node_db]. unfold bind at 1. rewrite Hrun.
    destruct r1 as [[[[cur new] h] mh]|e]; [|by exists s1, e].
    destruct (Hne _ _ _ _ eq_refl) as [Hcur Hnew].
    destruct (connect_branch_refused block_header block_inputs load_witnesses rehydrate assume_valid_height reorganize
      fuel (Some t) (Some t) cur new h mh s1) as (s' & e & -> & Hs); try done.
    exists s', e. split; [done|]. apply (quiet_frame t tip _ (node_db s1)); [apply Hs..|done].
    - destruct Hset as ((<- & _) & _). unfold ckpt_tree_for_slot. case_bool_decide; by vm_compute.
    - by vm_compute. }
  destruct (restart_recovers t) with (fuel := fuel) (tip := tip) (coins := after_blocks coins undos []) (db := node_db s')
    as (r & Hrec & Htip & Hrep & _).
  { destruct Hset as ((<- & _) & _). intros t'. apply ckpt_tree_other. }
  { by apply quiet_restartable. }
  destruct Hq' as (_ & Hrep' & _ & _ & Htip'). exists s', e, r. split; [done|]. split; [done|]. split; [done|].
  split; [exact Hrep'|]. split; [done|exact Hrep].
Qed.

(** *** The journal of a chain-table switch *)

Lemma commit_journal_row t disc conn hgt tip mh db db' r :
  commit_utxo_snapshot_delta t disc conn (Some (hgt, tip)) mh db = (db', Ok r) →
  tree_get t SNAPSHOT_REORG_JOURNAL_KEY db' = Some (encode_reorg_journal hgt tip).
Proof.
  unfold commit_utxo_snapshot_delta. intros (d1 & mh' & Hr & Hk)%bind_inv_ok.
  injection Hr as <- Hr. injection Hk as <- _. unfold delta_batch. rewrite batch_commit_app.
  destruct mh' as [m'|]; cbn [app]; unfold batch_commit; cbn [fmap list_fmap fst snd];
    rewrite !commit_keyed_cons, commit_keyed_nil; cbn [apply_op];
    [rewrite tree_get_insert_ne by tree_ne|]; apply tree_get_insert_eq.
Qed.

Lemma refresh_loop_same t fuel cur seen db :
  t ≠ height_t → t ≠ hash_height_t → same_tree t (refresh_loop fuel cur seen db).1 db.
Proof.
  intros H1 H2. revert cur seen db. induction fuel as [|fuel IH]; intros cur seen db; [done|].
  cbn [refresh_loop]. case_bool_decide; [done|]. unfold bind at 1, reads at 1.
  destruct (index_get cur db) as [[e|]|]; [|done..]. unfold bind at 1, reads at 1.
  destruct (get_hash_by_height (bi_height e) db) as [o|]; [|done]. case_bool_decide; [done|].
  unfold bind at 1, store_height, modify.
  assert (same_tree t (commit_keyed [(height_t, to_be 8 (bi_height e), Some cur);
    (hash_height_t, cur, Some (to_be 8 (bi_height e)))] db) db) as Hs.
  { apply same_tree_keyed. rewrite !Forall_cons, Forall_nil. cbn. auto. }
  case_bool_decide; [exact Hs|]. etrans; [apply IH|exact Hs].
Qed.

(** What the last writes of [connect_branch] keep of a tree. *)
Lemma on_db_inv {A} (m : M database A) s s' a :
  on_db m s = (s', Ok a) → m (node_db s) = (node_db s', Ok a).
Proof. unfold on_db. destruct (m (node_db s)) as [d r] eqn:E. by intros [= <- ->]. Qed.

Lemma connect_branch_journal fuel t cur new hgt mh s s' :
  t ∉ [index_tree; work_t; chainwork_t; chain_info_t; height_t; hash_height_t] →
  cur ≠ [] → new ≠ [] →
  connect_branch block_header block_inputs load_witnesses rehydrate assume_valid_height reorganize
    fuel (Some t) None cur new hgt mh s = (s', Ok true) →
  is_Some (tree_get t SNAPSHOT_REORG_JOURNAL_KEY (node_db s')).
Proof.
  rewrite !not_elem_of_cons. intros (N1 & N2 & N3 & N4 & N5 & N6 & _) Hcur Hnew. unfold connect_branch.
  destruct cur as [|c cur]; [done|]. destruct new as [|n new]; [done|]. generalize (n :: new) as chain. intros chain.
  intros (s1 & ws0 & _ & Hk)%bind_inv_ok. apply bind_inv_ok in Hk as (s2 & pairs & _ & Hk).
  apply bind_inv_ok in Hk as (s3 & [] & _ & Hk). apply bind_inv_ok in Hk as (s4 & res & _ & Hk).
  apply bind_inv_ok in Hk as (s5 & blk & _ & Hk). apply bind_inv_ok in Hk as (s6 & [] & Hc & Hk).
  apply bind_inv_ok in Hc as (s7 & undos & _ & Hc). apply bind_inv_ok in Hc as (s8 & c8 & Hcommit%on_db_inv & Hp%on_db_inv).
  apply bind_inv_ok in Hk as (s9 & [] & Hu%on_db_inv & Hk). apply bind_inv_ok in Hk as (s10 & [] & Hr%on_db_inv & Hk).
  apply bind_inv_ok in Hk as (s11 & [] & Hcl & Hk). apply bind_inv_ok in Hk as (s12 & [] & Hl & Hk).
  injection Hk as <-. apply bind_inv_ok in Hl as (s13 & [] & [= <-] & [= <-]). cbn [node_db].
  apply commit_journal_row in Hcommit.
  assert (same_tree t (node_db s11) (node_db s8)) as Hs; [|rewrite (Hs _), Hcommit; eauto].
  assert (same_tree t (node_db s6) (node_db s8)) as S6.
  { replace (node_db s6) with (persist_muhash c8.2 (node_db s8)).1 by by rewrite Hp.
    destruct c8.2; [|done]. apply same_tree_insert. congruence. }
  assert (same_tree t (node_db s9) (node_db s6)) as S9.
  { match type of Hu with ?m ?d = _ => replace (node_db s9) with (m d).1 by by rewrite Hu end.
    apply update_tip_same. rewrite !not_elem_of_cons, elem_of_nil. tauto. }
  assert (same_tree t (node_db s10) (node_db s9)) as S10.
  { match type of Hr with ?m ?d = _ => replace (node_db s10) with (m d).1 by by rewrite Hr end.
    by apply refresh_loop_same. }
  assert (same_tree t (node_db s11) (node_db s10)) as S11.
  { case_bool_decide; [|by injection Hcl as <-]. apply on_db_inv in Hcl. injection Hcl as <-.
    apply same_tree_remove. congruence. }
  by rewrite S11, S10, S9.
Qed.

Lemma disconnect_on_disk_nonempty t tip cand mh0 s s' cur new hgt mh :
  disconnect_on_disk block_inputs load_reorg_block get_undo_log t tip cand mh0 s = (s', Ok (cur, new, hgt, mh)) →
  cur ≠ [] ∧ new ≠ [].
Proof.
  unfold disconnect_on_disk. intros (s1 & [active candidate] & _ & Hk)%bind_inv_ok.
  apply bind_inv_ok in Hk as (s2 & ? & _ & Hk). apply bind_inv_ok in Hk as (s3 & ? & _ & Hk).
  apply bind_inv_ok in Hk as (s4 & mh1 & _ & Hk). apply bind_inv_ok in Hk as (s5 & [] & _ & Hk).
  apply bind_inv_ok in Hk as (s6 & chain & _ & Hk). apply bind_inv_ok in Hk as (s7 & b & Hb & Hk).
  apply bind_inv_ok in Hk as (s8 & oe & _ & Hk). apply bind_inv_ok in Hk as (s9 & e & _ & Hk).
  apply bind_inv_ok in Hk as (s10 & n & _ & Hk). injection Hk as _ <- <- _ _.
  split; [done|]. by destruct chain.
Qed.

(** A switch on the chain table makes the table unreadable.  When the
    coins are in the chain table (no snapshot, no export) and a heavier fork is
    activated, the journal row written with the coins is never removed, and from
    then on [load_utxo_set] fails on it. *)
Theorem chain_table_switch_breaks_load (fuel : nat) (candidate : bytes) (db : database) (s' : Node) :
  open_engine_resume_snapshot db = None → default 0 (get_engine_export_height db) ≤ 0 →
  try_activate_heavier_fork block_header block_inputs load_reorg_block get_undo_log load_witnesses rehydrate
    assume_valid_height reorganize fuel candidate (mkNode db ∅) = (s', Ok true) →
  is_ok (load_utxo_set (node_db s')) = false.
Proof.
  intros Hopen Hexp. unfold try_activate_heavier_fork. intros (s1 & heavier & Hh & Hk)%bind_inv_ok.
  injection Hh as <- Hh. cbn [node_db utxo_set] in *. destruct heavier; [|by injection Hk]. cbn [negb] in Hk.
  apply bind_inv_ok in Hk as (s2 & mem & [= <- <-] & Hk). cbn [utxo_set] in Hk.
  rewrite bool_decide_eq_false_2 in Hk by (by intros []).
  apply bind_inv_ok in Hk as (s3 & snap & [= <- <-] & Hk). cbn [node_db] in Hk. rewrite Hopen in Hk.
  apply bind_inv_ok in Hk as (s4 & ex & [= <- <-] & Hk). cbn [node_db] in Hk.
  rewrite (bool_decide_eq_false_2 (0 < _)) in Hk by lia.
  rewrite (bool_decide_eq_false_2 (is_Some None)) in Hk by (by intros []). cbn [disk_utxo_source] in Hk.
  apply bind_inv_ok in Hk as (s5 & tip & _ & Hk). apply bind_inv_ok in Hk as (s6 & mh & _ & Hk).
  apply bind_inv_ok in Hk as (s7 & [[[cur new] hgt] mh'] & Hd & Hk).
  apply disconnect_on_disk_nonempty in Hd as [Hcur Hnew].
  apply connect_branch_journal in Hk as [v Hv]; [|rewrite !not_elem_of_cons, elem_of_nil; split_and!; (tree_ne || tauto)|done..].
  eapply short_key_breaks_load; [|exact Hv]. by apply Nat.ltb_lt.
Qed.
End ReorgTheorems.

(** ** Witnesses *)

Module ReorgWitness.
Import IndexWitness ChainWitness StoreWitness SnapshotWitness.

(** Bodies are hashes with the header of block 2; every block has its undo log. *)
Definition header_of (_ : bytes) : BlockHeader := hdr 2.
Definition inputs_of (_ : bytes) : list (bool * list OutPoint) := [(true, []); (false, [o1])].
Definition body (h : bytes) (_ : database) : result bytes := Ok h.
Definition undo_of (_ : bytes) (_ : database) : result (option BlockUndoLog) := Ok (Some undo2).
Definition no_witness (_ : bytes) (_ : Z) (_ : database) : result unit := Ok tt.
Definition keep (_ : Z) (_ : bytes) (b : bytes) (w : unit) : bytes * unit := (b, w).
Definition refuse (_ : list bytes) (_ : list unit) (_ : list bytes) (_ : coin_map) (_ : Z)
    : M database (@ReorgResult bytes) := throw "bad block".
Definition accept (new : list bytes) (_ : list unit) (_ : list bytes) (_ : coin_map) (_ : Z)
    : M database (@ReorgResult bytes) :=
  ret (mkReorg ∅ (tail new) {[ get_block_hash header_of (hsh 4) := undo2 ]} 1).

(** Blocks 2 and 4 on block 1; 2 is the tip and 4 has more work. *)
Definition fork_on (db : database) : database :=
  tree_insert chainwork_t (hsh 4) (to_be 32 30)
    (index_insert (hsh 4) 1 (hsh 1) Valid (update_tip (hsh 2) (hdr 2) 1 db).1).1.
Definition forked : database := fork_on snap.

Lemma forked_coins : coins_rep ckpt forked coins1.
Proof.
  apply (coins_rep_rows ckpt snap); [|apply coins1_rep]. intros k _. unfold forked, fork_on.
  rewrite tree_get_insert_ne by tree_ne. transitivity (tree_get ckpt k (update_tip (hsh 2) (hdr 2) 1 snap).1).
  - unfold index_insert. destruct (index_prepare_insert _ _ _ _ _) as [p|]; [|done]. cbn [fst].
    apply same_tree_keyed. unfold prepared_ops. destruct (counter_bytes p);
      rewrite !Forall_cons, Forall_nil; cbn; split_and!; (tree_ne || done).
  - apply update_tip_same. rewrite !not_elem_of_cons, elem_of_nil. split_and!; tree_ne || tauto.
Qed.
Lemma forked_tip : tip_of forked = Ok (hsh 2, 1).
Proof. vm_compute. reflexivity. Qed.
Lemma forked_settled : settled ckpt (hsh 2, 1) coins1 forked.
Proof.
  split; [split; [vm_compute; reflexivity|left; vm_compute; reflexivity]|].
  split; [apply forked_tip|]. split; [apply forked_coins|]. split; [|split; vm_compute; reflexivity].
  replace (running_muhash forked) with (@None MuHash) by (vm_compute; reflexivity). done.
Qed.
Lemma forked_chains : fork_hash_chains (hsh 2) (hsh 4) forked = (forked, Ok ([hsh 1; hsh 2], [hsh 1; hsh 4])).
Proof.
  assert (∃ e2 e4, index_get (hsh 2) forked = Ok (Some e2) ∧ index_get (hsh 4) forked = Ok (Some e4) ∧
    bi_height e2 = 1 ∧ bi_height e4 = 1 ∧ bi_prev_hash e2 = hsh 1 ∧ bi_prev_hash e4 = hsh 1) as
    (e2 & e4 & H2 & H4 & G2 & G4 & P2 & P4).
  { eexists _, _. split; [vm_compute; reflexivity|]. split; [vm_compute; reflexivity|].
    split_and!; vm_compute; reflexivity. }
  revert H2 H4. generalize forked as d. intros d H2 H4. unfold fork_hash_chains, with_context, bind.
  rewrite (fork_link_indexed _ _ _ H2), (fork_link_indexed _ _ _ H4). cbn [fst snd].
  rewrite G2, G4. change (Z.to_nat (1 - 1)) with 0%nat. change (Z.to_nat (1 `min` 1)) with 1%nat.
  cbn [climb ret fst snd meet]. unfold ret. cbn [fst snd].
  rewrite (bool_decide_eq_false_2 (hsh 2 = hsh 4)) by (intros Heq; by vm_compute in Heq).
  unfold bind. rewrite (fork_link_indexed _ _ _ H2), (fork_link_indexed _ _ _ H4). cbn [fst snd].
  rewrite P2, P4. by rewrite bool_decide_eq_true_2.
Qed.

Lemma refused_fork_leaves_coins_disconnected_witness :
  ∃ s' e, try_activate_heavier_fork header_of inputs_of body undo_of no_witness keep 0 refuse 3 (hsh 4)
            (mkNode forked ∅) = (s', Err e) ∧ tip_of (node_db s') = Ok (hsh 2, 1) ∧
    coins_rep ckpt (node_db s') (after_blocks coins1 [undo2] []).
Proof.
  destruct (refused_fork_leaves_coins_disconnected header_of inputs_of body undo_of no_witness keep 0 refuse
    ckpt (hsh 2, 1) (hsh 4) (hsh 1) [hsh 2] [hsh 1; hsh 4] coins1 [undo2] [hsh 2] 3 forked forked_settled)
    as (s' & e & r & Hrun & _ & Htip & Hrep & _).
  - vm_compute. reflexivity.
  - done.
  - intros new ws cur cs h d. exists d, "bad block"%string. done.
  - vm_compute. reflexivity.
  - exact forked_chains.
  - reflexivity.
  - reflexivity.
  - exact undos2_ok.
  - exists s', e. split; [exact Hrun|]. split; [exact Htip|exact Hrep].
Defined.

(** The same fork without a snapshot. *)
Definition table : database := fork_on base.
Definition switched : Node * result bool :=
  try_activate_heavier_fork header_of inputs_of body undo_of no_witness keep 0 accept 3 (hsh 4) (mkNode table ∅).
Lemma switched_ok : switched.2 = Ok true.
Proof. vm_compute. reflexivity. Qed.

Lemma chain_table_switch_breaks_load_witness :
  ∃ s', switched = (s', Ok true) ∧ is_ok (load_utxo_set (node_db s')) = false.
Proof.
  assert (switched = (switched.1, Ok true)) as Hs
    by (rewrite <-switched_ok; generalize switched; by intros []).
  exists switched.1. split; [exact Hs|].
  apply (chain_table_switch_breaks_load header_of inputs_of body undo_of no_witness keep 0 accept 3 (hsh 4) table).
  - vm_compute. reflexivity.
  - vm_compute. congruence.
  - exact Hs.
Defined.
End ReorgWitness.
