(* ===== verification/Wire.v ===== *)
(** * Wire: variable-length integers

    The interface of [blvm_protocol::serialization::varint], and the compact
    sizes of [src/node/core_mempool_dat.rs], which satisfy it; the allocation
    both decoders make from a count they read. *)

From S2P Require Import Prelude Bytes.
Open Scope Z_scope.

(** ** Variable-length integers *)

(** [varint::encode_varint] and [varint::decode_varint]: the value and the
    number of bytes read. *)
Class Varint := {
  encode_varint : Z → bytes;
  decode_varint : bytes → option (Z * nat);
}.
Class VarintLaws (V : Varint) : Prop := {
  decode_encode_varint : ∀ n rest, is_u64 n →
    decode_varint (encode_varint n ++ rest) = Some (n, length (encode_varint n));
  encode_varint_length : ∀ n, (length (encode_varint n) ≤ 9)%nat;
  decode_varint_reads : ∀ bs n k, decode_varint bs = Some (n, k) → (k ≤ 9)%nat;
}.

(** [push_compact] and [read_compact] of the mempool file. *)
Definition push_compact (n : Z) : bytes :=
  if bool_decide (n < 253) then [z2b n]
  else if bool_decide (n ≤ 65535) then z2b 253 :: to_le 2 n
  else if bool_decide (n ≤ u32_max) then z2b 254 :: to_le 4 n
  else z2b 255 :: to_le 8 n.
Definition read_fixed (n : nat) (data : bytes) : option (Z * nat) :=
  if bool_decide (n ≤ length data)%nat then Some (of_le (take n data), S n) else None.
Definition read_compact (data : bytes) : option (Z * nat) :=
  match data with
  | [] => None
  | first :: rest =>
      if bool_decide (b2z first < 253) then Some (b2z first, 1%nat)
      else if bool_decide (b2z first = 253) then read_fixed 2 rest
      else if bool_decide (b2z first = 254) then read_fixed 4 rest
      else read_fixed 8 rest
  end.

(** [Vec::with_capacity] of [count] elements of [size] bytes panics beyond
    [isize::MAX] bytes. *)
Definition PANIC_CAPACITY : string := "panic: capacity overflow".
Definition with_capacity (count size : Z) : result unit :=
  if bool_decide (count * size < 2 ^ 63) then Ok tt else Err PANIC_CAPACITY.

(** ** Compact sizes *)

#[export] Instance compact_varint : Varint := {| encode_varint := push_compact; decode_varint := read_compact |}.

Lemma read_fixed_to_le k n (rest : bytes) :
  0 ≤ n < 2 ^ (8 * Z.of_nat k) → read_fixed k (to_le k n ++ rest) = Some (n, S k).
Proof.
  intros Hn. unfold read_fixed. rewrite bool_decide_eq_true_2 by (rewrite length_app, length_to_le; lia).
  rewrite take_app_le by (rewrite length_to_le; lia). rewrite take_ge by (rewrite length_to_le; lia). by rewrite of_to_le.
Qed.
(** A compact size reads back, whatever follows it. *)
#[export] Instance compact_laws : VarintLaws compact_varint.
Proof.
  split; intros n; cbn [encode_varint decode_varint compact_varint]; unfold push_compact, u32_max.
  - intros rest Hn. unfold is_u64 in Hn. repeat case_bool_decide; cbn [app read_compact length]; rewrite ?length_to_le;
      rewrite b2z_z2b by lia; repeat case_bool_decide; try lia; try done; apply read_fixed_to_le; lia.
  - repeat case_bool_decide; cbn [length]; rewrite ?length_to_le; lia.
  - intros v k. destruct n as [|b bs]; [done|]. unfold read_compact, read_fixed.
    repeat case_bool_decide; intros [=]; subst; lia.
Qed.
