(* ===== verification/MerkleBlock.v ===== *)
(** * MerkleBlock: inclusion proofs

    [src/rpc/merkle_block.rs]: building, serialising and checking the partial
    Merkle tree behind [gettxoutproof] and [verifytxoutproof]. *)

From S2P Require Import Prelude Bytes Interfaces Wire.
Open Scope Z_scope.

(** ** The header *)

(** The block header on the wire: 80 bytes. *)
Class HeaderWire := {
  serialize_block_header : BlockHeader → bytes;
  deserialize_block_header : bytes → option BlockHeader;
}.
Class HeaderWireLaws (W : HeaderWire) (ok : BlockHeader → Prop) : Prop := {
  header_wire_length : ∀ h, ok h → length (serialize_block_header h) = 80%nat;
  header_wire_roundtrip : ∀ h, ok h → deserialize_block_header (serialize_block_header h) = Some h;
}.

(** ** The tree *)

Record PartialMerkleTree := mkTree {
  n_transactions : Z;
  v_bits : list bool;
  v_hash : list bytes;
  tree_bad : bool;
}.
Definition set_bad (t : PartialMerkleTree) (b : bool) : PartialMerkleTree :=
  mkTree (n_transactions t) (v_bits t) (v_hash t) b.

Section Tree.
Context {U : U256Ops} {K : Consensus}.

Definition calc_tree_width (n : Z) (height : nat) : Z :=
  Z.shiftr (as_u32 (n + Z.shiftl 1 (Z.of_nat height) - 1)) (Z.of_nat height).
Definition merge_merkle_node (left right : bytes) : bytes := hash256 (left ++ right).

(** The right child exists when its position is within the level. *)
Definition has_right (n : Z) (height : nat) (pos : Z) : bool :=
  bool_decide (pos * 2 + 1 < calc_tree_width n height).

Fixpoint calc_hash (height : nat) (pos : Z) (txids : list bytes) (n : Z) : bytes :=
  match height with
  | 0%nat => default [] (txids !! Z.to_nat pos)
  | S h =>
      let left := calc_hash h (pos * 2) txids n in
      let right := if has_right n h pos then calc_hash h (pos * 2 + 1) txids n else left in
      merge_merkle_node left right
  end.

(** Positions [pos << height] up to [(pos + 1) << height], cut at [n]. *)
Definition leaves (height : nat) (pos n : Z) : list nat :=
  let lo := Z.shiftl pos (Z.of_nat height) in
  let hi := Z.min (Z.shiftl (pos + 1) (Z.of_nat height)) n in
  seq (Z.to_nat lo) (Z.to_nat (hi - lo)).
Definition parent_of_match (height : nat) (pos n : Z) (v_match : list bool) : bool :=
  existsb (λ p, default false (v_match !! p)) (leaves height pos n).

(** The bits and hashes a call appends. *)
Fixpoint traverse_and_build (height : nat) (pos : Z) (txids : list bytes) (v_match : list bool) (n : Z)
    : list bool * list bytes :=
  let m := parent_of_match height pos n v_match in
  match height with
  | 0%nat => ([m], [calc_hash 0 pos txids n])
  | S h =>
      if negb m then ([m], [calc_hash (S h) pos txids n])
      else
        let l := traverse_and_build h (pos * 2) txids v_match n in
        let r := if has_right n h pos then traverse_and_build h (pos * 2 + 1) txids v_match n else ([], []) in
        (m :: l.1 ++ r.1, l.2 ++ r.2)
  end.

(** The cursor of the extraction: bits and hashes used, matches, and failure. *)
Record Cursor := mkCursor { bits_used : nat; hash_used : nat; found : list bytes; bad : bool }.

Fixpoint traverse_and_extract (height : nat) (pos n : Z) (bits : list bool) (hashes : list bytes) (c : Cursor)
    : Cursor * bytes :=
  match bits !! bits_used c with
  | None => (mkCursor (bits_used c) (hash_used c) (found c) true, zero_hash)
  | Some m =>
      let c1 := mkCursor (S (bits_used c)) (hash_used c) (found c) (bad c) in
      let leaf is_leaf :=
        match hashes !! hash_used c1 with
        | None => (mkCursor (bits_used c1) (hash_used c1) (found c1) true, zero_hash)
        | Some hash =>
            (mkCursor (bits_used c1) (S (hash_used c1)) (if is_leaf && m then found c1 ++ [hash] else found c1) (bad c1),
             hash)
        end in
      match height with
      | 0%nat => leaf true
      | S h =>
          if negb m then leaf false
          else
            let '(c2, lh) := traverse_and_extract h (pos * 2) n bits hashes c1 in
            let '(c3, rh) := if has_right n h pos then traverse_and_extract h (pos * 2 + 1) n bits hashes c2
                                else (c2, lh) in
            (mkCursor (bits_used c3) (hash_used c3) (found c3) (bad c3 || bool_decide (rh = lh)),
             merge_merkle_node lh rh)
      end
  end.

(** The least height with a single node; 32 rounds are enough for a [u32]. *)
Fixpoint tree_height_loop (fuel : nat) (n : Z) (height : nat) : nat :=
  match fuel with
  | 0%nat => height
  | S fuel' => if bool_decide (1 < calc_tree_width n height) then tree_height_loop fuel' n (S height) else height
  end.
Definition tree_height (n : Z) : nat := tree_height_loop 32 n 0.

Definition tree_new (txids : list bytes) (v_match : list bool) : result PartialMerkleTree :=
  if bool_decide (txids = []) then Err "block has no transactions"
  else if negb (bool_decide (length txids = length v_match)) then Err "txid/match length mismatch"
  else
    let n := as_u32 (Z.of_nat (length txids)) in
    let '(bits, hashes) := traverse_and_build (tree_height n) 0 txids v_match n in
    Ok (mkTree n bits hashes false).

(** [usize::div_ceil(8)]. *)
Definition div_ceil8 (n : nat) : nat := (n + 7) / 8.

(** The tree keeps the failure flag between calls. *)
Definition extract_matches (t : PartialMerkleTree) : PartialMerkleTree * (bytes * list bytes) :=
  let n := n_transactions t in
  let rejected := (set_bad t true, (zero_hash, [])) in
  if bool_decide (n = 0) then (t, (zero_hash, []))
  else if bool_decide (n < Z.of_nat (length (v_hash t))) then rejected
  else if bool_decide (length (v_bits t) < length (v_hash t))%nat then rejected
  else
    let '(c, root) := traverse_and_extract (tree_height n) 0 n (v_bits t) (v_hash t) (mkCursor 0 0 [] (tree_bad t)) in
    if bad c then rejected
    else if negb (bool_decide (div_ceil8 (bits_used c) = div_ceil8 (length (v_bits t)))) then rejected
    else if negb (bool_decide (hash_used c = length (v_hash t))) then rejected
    else (t, (root, found c)).

(** ** The wire format *)

Definition set_bit (out : bytes) (p : nat) : bytes :=
  alter (λ b, z2b (Z.lor (b2z b) (Z.shiftl 1 (Z.of_nat (p mod 8))))) (p / 8)%nat out.
Definition bits_to_bytes (bits : list bool) : bytes :=
  foldl (λ out (q : nat * bool), if q.2 then set_bit out q.1 else out)
        (replicate (div_ceil8 (length bits)) Byte.x00) (imap pair bits).
Definition bytes_to_bits (bs : bytes) : list bool :=
  (λ p, negb (bool_decide (Z.land (b2z (default Byte.x00 (bs !! (p / 8)%nat)))
                                  (Z.shiftl 1 (Z.of_nat (p mod 8))) = 0))) <$> seq 0 (length bs * 8).

Context {V : Varint}.
Definition tree_serialize (t : PartialMerkleTree) : bytes :=
  let flag_bytes := bits_to_bytes (v_bits t) in
  to_le 4 (n_transactions t) ++ encode_varint (Z.of_nat (length (v_hash t))) ++ mjoin (v_hash t) ++
  encode_varint (Z.of_nat (length flag_bytes)) ++ flag_bytes.

Definition split_hashes (count : nat) (data : bytes) : list bytes := (λ i, slice (i * 32) 32 data) <$> seq 0 count.
(** The sizes are sums and products of a 64-bit [usize] without a range test:
    they wrap around. A slice whose end is before its start panics. *)
Definition PANIC_SLICE : string := "panic: slice index starts beyond its end".
Definition tree_deserialize (data : bytes) : result PartialMerkleTree :=
  if bool_decide (length data < 4)%nat then Err "partial merkle tree too short"
  else
    let n := of_le (take 4 data) in
    let+ r := of_option "hash count varint" (decode_varint (drop 4 data)) in
    let '(hash_count, consumed) := r in
    let offset := (4 + consumed)%nat in
    if bool_decide (Z.of_nat (length data) < as_u64 (Z.of_nat offset + as_u64 (hash_count * 32)))
    then Err "truncated hash list"
    else
      let+ _ := with_capacity hash_count 32 in
      let count := Z.to_nat hash_count in
      let hashes := split_hashes count (drop offset data) in
      let offset1 := (offset + count * 32)%nat in
      let+ r' := of_option "flag length varint" (decode_varint (drop offset1 data)) in
      let '(flag_len, consumed') := r' in
      let offset2 := (offset1 + consumed')%nat in
      let end_ := as_u64 (Z.of_nat offset2 + flag_len) in
      if bool_decide (Z.of_nat (length data) < end_) then Err "truncated flag bytes"
      else if bool_decide (end_ < Z.of_nat offset2) then Err PANIC_SLICE
      else Ok (mkTree n (bytes_to_bits (take (Z.to_nat end_ - offset2) (drop offset2 data))) hashes false).

Context {W : HeaderWire}.
Definition merkle_block_serialize (header : BlockHeader) (t : PartialMerkleTree) : bytes :=
  serialize_block_header header ++ tree_serialize t.
Definition merkle_block_deserialize (data : bytes) : result (BlockHeader * PartialMerkleTree) :=
  if bool_decide (length data < 80)%nat then Err "merkle block too short for header"
  else
    let+ header := of_option "header" (deserialize_block_header (take 80 data)) in
    let+ t := tree_deserialize (drop 80 data) in
    Ok (header, t).
End Tree.

(** ** Widths and leaves *)

Section TreeShape.
Context {U : U256Ops} {K : Consensus}.
Context (n : Z).
Hypothesis n_range : 1 ≤ n ≤ 2 ^ 31.

Lemma width_eq (h : nat) : (h ≤ 31)%nat → calc_tree_width n h = (n + 2 ^ Z.of_nat h - 1) / 2 ^ Z.of_nat h.
Proof.
  intros Hh. unfold calc_tree_width. rewrite Z.shiftl_1_l, Z.shiftr_div_pow2 by lia.
  assert (2 ^ Z.of_nat h ≤ 2 ^ 31) by (apply Z.pow_le_mono_r; lia).
  assert (0 < 2 ^ Z.of_nat h) by (apply Z.pow_pos_nonneg; lia).
  rewrite as_u32_small; [done|]. unfold is_u32. lia.
Qed.
(** A position is in a level exactly when its first leaf is. *)
Lemma width_lt (h : nat) (pos : Z) : (h ≤ 31)%nat → pos < calc_tree_width n h ↔ pos * 2 ^ Z.of_nat h < n.
Proof.
  intros Hh. rewrite width_eq by done. assert (0 < 2 ^ Z.of_nat h) as Hp by (apply Z.pow_pos_nonneg; lia).
  set (w := 2 ^ Z.of_nat h) in *. split; intros H.
  - assert (pos + 1 ≤ (n + w - 1) / w) as H1 by lia. apply (Z.mul_le_mono_nonneg_r _ _ w) in H1; [|lia].
    pose proof (Z.mul_div_le (n + w - 1) w Hp). lia.
  - assert (pos + 1 ≤ (n + w - 1) / w); [|lia]. apply Z.div_le_lower_bound; lia.
Qed.
Lemma has_right_spec (h : nat) (pos : Z) : (h ≤ 31)%nat → has_right n h pos = true ↔ (pos * 2 + 1) * 2 ^ Z.of_nat h < n.
Proof. intros Hh. unfold has_right. rewrite bool_decide_eq_true. by apply width_lt. Qed.

Lemma tree_height_loop_spec fuel h :
  (h ≤ 31)%nat → (32 ≤ h + fuel)%nat →
  let H := tree_height_loop fuel n h in (H ≤ 31)%nat ∧ calc_tree_width n H ≤ 1.
Proof.
  revert h. induction fuel as [|fuel IH]; intros h Hh Hf; [lia|]. cbn. case_bool_decide as Hw; [|split; [done|lia]].
  destruct (decide (h = 31%nat)) as [->|Hne]; [|apply IH; lia]. exfalso.
  rewrite width_lt in Hw by lia. lia.
Qed.
Lemma tree_height_spec : (tree_height n ≤ 31)%nat ∧ calc_tree_width n (tree_height n) ≤ 1.
Proof. apply tree_height_loop_spec; lia. Qed.

Lemma leaves_eq (h : nat) (pos : Z) :
  leaves h pos n = seq (Z.to_nat (pos * 2 ^ Z.of_nat h))
                       (Z.to_nat (Z.min ((pos + 1) * 2 ^ Z.of_nat h) n - pos * 2 ^ Z.of_nat h)).
Proof. unfold leaves. by rewrite !Z.shiftl_mul_pow2 by lia. Qed.
Lemma leaves_split (h : nat) (pos : Z) :
  0 ≤ pos → leaves (S h) pos n = leaves h (pos * 2) n ++ leaves h (pos * 2 + 1) n.
Proof.
  intros Hpos. rewrite !leaves_eq. rewrite Nat2Z.inj_succ, Z.pow_succ_r by lia.
  assert (0 < 2 ^ Z.of_nat h) as Hp by (apply Z.pow_pos_nonneg; lia). set (w := 2 ^ Z.of_nat h) in *.
  destruct (decide ((pos * 2 + 1) * w ≤ n)) as [Hle|Hgt].
  - replace (Z.to_nat ((pos * 2 + 1) * w)) with (Z.to_nat (pos * 2 * w) + Z.to_nat w)%nat by nia.
    replace (Z.to_nat (Z.min ((pos * 2 + 1) * w) n - pos * 2 * w)) with (Z.to_nat w) by nia.
    rewrite <-seq_app. f_equal; nia.
  - replace (Z.to_nat (Z.min ((pos * 2 + 1 + 1) * w) n - (pos * 2 + 1) * w)) with 0%nat by nia.
    rewrite app_nil_r. f_equal; nia.
Qed.
Lemma leaves_no_right (h : nat) (pos : Z) :
  (h ≤ 31)%nat → 0 ≤ pos → has_right n h pos = false → leaves h (pos * 2 + 1) n = [].
Proof.
  intros Hh Hpos Hr. rewrite leaves_eq. assert (¬ (pos * 2 + 1) * 2 ^ Z.of_nat h < n) as Hge.
  { intros Hlt. apply (has_right_spec h pos Hh) in Hlt. congruence. }
  set (w := 2 ^ Z.of_nat h) in *. by replace (Z.to_nat (Z.min ((pos * 2 + 1 + 1) * w) n - (pos * 2 + 1) * w)) with 0%nat by lia.
Qed.
Lemma leaves_ne (h : nat) (pos : Z) : pos * 2 ^ Z.of_nat h < n → (1 ≤ length (leaves h pos n))%nat.
Proof.
  intros Hlt. rewrite leaves_eq, length_seq. assert (0 < 2 ^ Z.of_nat h) by (apply Z.pow_pos_nonneg; lia). nia.
Qed.
Lemma leaves_root : leaves (tree_height n) 0 n = seq 0 (Z.to_nat n).
Proof.
  destruct tree_height_spec as [Hh Hw]. rewrite leaves_eq. assert (¬ 1 < calc_tree_width n (tree_height n)) as Hn by lia.
  rewrite width_lt in Hn by done. f_equal; lia.
Qed.
Lemma elem_of_leaves (h : nat) (pos : Z) (p : nat) :
  0 ≤ pos → p ∈ leaves h pos n ↔ pos * 2 ^ Z.of_nat h ≤ Z.of_nat p < Z.min ((pos + 1) * 2 ^ Z.of_nat h) n.
Proof.
  intros Hpos. rewrite leaves_eq, elem_of_seq. assert (0 < 2 ^ Z.of_nat h) by (apply Z.pow_pos_nonneg; lia). nia.
Qed.
End TreeShape.

(** ** Checking a proof that was built *)

Section BuildExtract.
Context {U : U256Ops} {K : Consensus}.
Context (txids : list bytes) (v_match : list bool).
Let n : Z := Z.of_nat (length txids).

(** The matched ids below a node, in order. *)
Definition matched_leaves (h : nat) (pos : Z) : list bytes :=
  (λ p, default [] (txids !! p)) <$> filter (λ p, default false (v_match !! p) = true) (leaves h pos n).
(** A node the proof opens has two equal children. *)
Fixpoint twin (h : nat) (pos : Z) : bool :=
  match h with
  | 0%nat => false
  | S h' =>
      let lh := calc_hash h' (pos * 2) txids n in
      let rh := if has_right n h' pos then calc_hash h' (pos * 2 + 1) txids n else lh in
      parent_of_match (S h') pos n v_match &&
      (twin h' (pos * 2) || (has_right n h' pos && twin h' (pos * 2 + 1)) || bool_decide (rh = lh))
  end.

Hypothesis n_range : 1 ≤ n ≤ 2 ^ 31.

Lemma matched_split (h : nat) (pos : Z) :
  0 ≤ pos → matched_leaves (S h) pos = matched_leaves h (pos * 2) ++ matched_leaves h (pos * 2 + 1).
Proof. intros Hpos. unfold matched_leaves. by rewrite leaves_split, filter_app, fmap_app by lia. Qed.
Lemma matched_no_right (h : nat) (pos : Z) :
  (h ≤ 31)%nat → 0 ≤ pos → has_right n h pos = false → matched_leaves h (pos * 2 + 1) = [].
Proof. intros Hh Hpos Hr. unfold matched_leaves. by rewrite leaves_no_right by done. Qed.
Lemma matched_none (h : nat) (pos : Z) : parent_of_match h pos n v_match = false → matched_leaves h pos = [].
Proof.
  intros Hm. unfold matched_leaves, parent_of_match in *. induction (leaves h pos n) as [|p l IH]; [done|]. cbn in Hm.
  apply orb_false_iff in Hm as [Hp Hl]. rewrite filter_cons_False by (by rewrite Hp). by apply IH.
Qed.
Lemma matched_leaf (pos : Z) :
  0 ≤ pos → parent_of_match 0 pos n v_match = true → matched_leaves 0 pos = [calc_hash 0 pos txids n].
Proof.
  intros Hpos Hm. unfold parent_of_match, matched_leaves in *. rewrite leaves_eq in *. rewrite Z.pow_0_r, !Z.mul_1_r in *.
  destruct (decide (pos < n)) as [Hlt|Hge].
  - replace (Z.to_nat (Z.min (pos + 1) n - pos)) with 1%nat in * by lia. cbn [seq existsb] in *. rewrite orb_false_r in Hm.
    rewrite filter_cons_True by done. done.
  - replace (Z.to_nat (Z.min (pos + 1) n - pos)) with 0%nat in * by lia. done.
Qed.

Lemma lookup_mid {A} (a : list A) (x : A) (b : list A) : (a ++ x :: b) !! length a = Some x.
Proof. by rewrite lookup_app_r, Nat.sub_diag by lia. Qed.

(** Extraction runs through what was built: it uses exactly those bits and
    hashes, returns the node's hash, finds the matched ids below the node, and
    fails exactly when an opened node has two equal children. *)
Lemma extract_build h pos b0 b1 h0 h1 f e :
  (h ≤ 31)%nat → 0 ≤ pos →
  let B := traverse_and_build h pos txids v_match n in
  traverse_and_extract h pos n (b0 ++ B.1 ++ b1) (h0 ++ B.2 ++ h1) (mkCursor (length b0) (length h0) f e) =
  (mkCursor (length b0 + length B.1) (length h0 + length B.2) (f ++ matched_leaves h pos) (e || twin h pos),
   calc_hash h pos txids n).
Proof.
  revert pos b0 b1 h0 h1 f e. induction h as [|h IH]; intros pos b0 b1 h0 h1 f e Hh Hpos; cbn [traverse_and_build].
  { destruct (parent_of_match 0 pos n v_match) eqn:Hm; cbn [traverse_and_extract fst snd app bits_used hash_used found bad];
      rewrite !lookup_mid; cbn; rewrite !Nat.add_1_r, orb_false_r.
    - by rewrite matched_leaf.
    - by rewrite matched_none, app_nil_r. }
  destruct (parent_of_match (S h) pos n v_match) eqn:Hm; cbn [negb]; last first.
  { cbn [traverse_and_extract fst snd app bits_used hash_used found bad]. rewrite !lookup_mid. cbn [negb andb].
    cbn [length]. rewrite !Nat.add_1_r, matched_none, app_nil_r by done. cbn [twin]. rewrite Hm. cbn [andb].
    by rewrite orb_false_r. }
  set (L := traverse_and_build h (pos * 2) txids v_match n).
  set (R := if has_right n h pos then traverse_and_build h (pos * 2 + 1) txids v_match n else ([], [])).
  cbn [traverse_and_extract fst snd bits_used hash_used found bad app]. rewrite lookup_mid. cbn [negb].
  replace (b0 ++ true :: (L.1 ++ R.1) ++ b1) with ((b0 ++ [true]) ++ L.1 ++ (R.1 ++ b1)) by (by rewrite <-!(assoc_L (++))).
  replace (h0 ++ (L.2 ++ R.2) ++ h1) with (h0 ++ L.2 ++ (R.2 ++ h1)) by (by rewrite <-!(assoc_L (++))).
  replace (S (length b0)) with (length (b0 ++ [true])) by (rewrite length_app; cbn; lia).
  rewrite (IH (pos * 2)) by lia. fold L.
  rewrite matched_split by done. cbn [twin calc_hash length]. rewrite Hm. cbn [andb].
  destruct (has_right n h pos) eqn:Hr.
  - replace ((b0 ++ [true]) ++ L.1 ++ R.1 ++ b1) with (((b0 ++ [true]) ++ L.1) ++ R.1 ++ b1) by (by rewrite <-!(assoc_L (++))).
    replace (h0 ++ L.2 ++ R.2 ++ h1) with ((h0 ++ L.2) ++ R.2 ++ h1) by (by rewrite <-!(assoc_L (++))).
    rewrite <-!length_app. subst R. rewrite (IH (pos * 2 + 1)) by lia. cbn [bits_used hash_used found bad andb].
    f_equal. f_equal; [|by rewrite !length_app, ?(assoc_L (++)); lia|by rewrite (assoc_L (++))|by rewrite !orb_assoc].
    rewrite !length_app. cbn. lia.
  - subst R. cbn [bits_used hash_used found bad andb fst snd]. rewrite !app_nil_r, (matched_no_right h pos), app_nil_r by (done || lia).
    f_equal. f_equal; [|by rewrite orb_false_r, orb_assoc]. rewrite !length_app. cbn. lia.
Qed.

(** One bit at least per hash, one hash at most per leaf. *)
Lemma build_counts h pos :
  (h ≤ 31)%nat → 0 ≤ pos → pos * 2 ^ Z.of_nat h < n →
  let B := traverse_and_build h pos txids v_match n in
  (length B.2 ≤ length (leaves h pos n) ∧ length B.2 ≤ length B.1 ∧
   length B.1 ≤ (2 * h + 1) * length (leaves h pos n))%nat.
Proof.
  revert pos. induction h as [|h IH]; intros pos Hh Hpos Hlt; pose proof (leaves_ne n _ _ Hlt) as Hne;
    cbn [traverse_and_build]; [cbn; lia|].
  destruct (parent_of_match (S h) pos n v_match) eqn:Hm; cbn [negb fst snd]; [|cbn; lia].
  rewrite leaves_split in * by lia. rewrite length_app in *. rewrite Nat2Z.inj_succ, Z.pow_succ_r in Hlt by lia.
  destruct (IH (pos * 2)) as (Ha & Hb & Hc); [lia..|].
  destruct (has_right n h pos) eqn:Hr.
  - apply has_right_spec in Hr; [|lia..]. destruct (IH (pos * 2 + 1)) as (Ha' & Hb' & Hc'); [lia..|].
    cbn [length]. rewrite !length_app. lia.
  - rewrite leaves_no_right in * by (done || lia). cbn [fst snd length] in *. rewrite !app_nil_r. lia.
Qed.
Context `{!ConsensusLaws K}.
Lemma build_hashes h pos :
  (h ≤ 31)%nat → 0 ≤ pos → pos * 2 ^ Z.of_nat h < n → Forall is_hash txids →
  Forall is_hash (traverse_and_build h pos txids v_match n).2.
Proof.
  revert pos. induction h as [|h IH]; intros pos Hh Hpos Hlt Htx; cbn [traverse_and_build].
  - constructor; [|done]. cbn. destruct (lookup_lt_is_Some_2 txids (Z.to_nat pos)) as [x Hx]; [lia|].
    rewrite Hx. by eapply Forall_lookup_1.
  - rewrite Nat2Z.inj_succ, Z.pow_succ_r in Hlt by lia.
    destruct (parent_of_match (S h) pos n v_match); cbn [negb snd].
    + apply Forall_app; split; [apply IH; lia || done|]. destruct (has_right n h pos) eqn:Hr; [|constructor].
      apply has_right_spec in Hr; [|lia..]. apply IH; lia || done.
    + constructor; [|done]. apply hash256_length.
Qed.
End BuildExtract.

(** ** The flag bytes *)

Definition bit_of (bs : bytes) (p : nat) : bool :=
  Z.testbit (b2z (default Byte.x00 (bs !! (p / 8)%nat))) (Z.of_nat (p mod 8)).

Lemma land_bit z k : 0 ≤ k → negb (bool_decide (Z.land z (Z.shiftl 1 k) = 0)) = Z.testbit z k.
Proof.
  intros Hk. rewrite Z.shiftl_1_l. case_bool_decide as H; cbn.
  - apply (f_equal (λ v, Z.testbit v k)) in H. rewrite Z.land_spec, Z.pow2_bits_true, andb_true_r, Z.bits_0 in H by done. done.
  - destruct (Z.testbit z k) eqn:E; [done|]. destruct H. apply Z.bits_inj'. intros j Hj.
    rewrite Z.land_spec, Z.bits_0. destruct (decide (k = j)) as [->|]; [by rewrite E|].
    by rewrite Z.pow2_bits_false, andb_false_r.
Qed.
Lemma bytes_to_bits_eq bs : bytes_to_bits bs = bit_of bs <$> seq 0 (length bs * 8).
Proof. unfold bytes_to_bits. apply list_fmap_ext. intros ? p _. apply land_bit. lia. Qed.
Lemma div_mod_8_inj p q : (p / 8 = q / 8 → p mod 8 = q mod 8 → p = q)%nat.
Proof. intros H1 H2. rewrite (Nat.div_mod_eq p 8), (Nat.div_mod_eq q 8). lia. Qed.
Lemma byte_or_bit b k : 0 ≤ b < 256 → 0 ≤ k < 8 → 0 ≤ Z.lor b (Z.shiftl 1 k) < 256.
Proof.
  intros Hb Hk. rewrite Z.shiftl_1_l. assert (0 ≤ Z.lor b (2 ^ k)) by (apply Z.lor_nonneg; split; [lia|apply Z.pow_nonneg; lia]).
  split; [done|]. apply (Z.bounded_iff_bits_nonneg 8); [lia..|]. intros l Hl.
  rewrite Z.lor_spec, Z.pow2_bits_false, orb_false_r by lia. by apply (Z.bounded_iff_bits_nonneg 8); try lia.
Qed.
Lemma bit_of_set_bit (out : bytes) (p q : nat) :
  (p / 8 < length out)%nat → bit_of (set_bit out p) q = bit_of out q || bool_decide (p = q).
Proof.
  intros Hp. unfold bit_of, set_bit. destruct (lookup_lt_is_Some_2 out _ Hp) as [b Hb].
  pose proof (Nat.mod_upper_bound p 8). pose proof (Nat.mod_upper_bound q 8). pose proof (b2z_range b).
  destruct (decide (p / 8 = q / 8)%nat) as [He|He].
  - rewrite <-He, list_lookup_alter_eq, Hb. cbn [fmap option_fmap option_map default from_option id].
    rewrite b2z_z2b, Z.lor_spec, Z.shiftl_1_l, Z.pow2_bits_eqb by (apply byte_or_bit || lia; lia).
    f_equal. apply eq_true_iff_eq. rewrite Z.eqb_eq, bool_decide_eq_true. split; [|by intros ->].
    intros Hm. apply div_mod_8_inj; [done|lia].
  - rewrite list_lookup_alter_ne by done. rewrite bool_decide_eq_false_2, orb_false_r; [done|by intros ->].
Qed.

Lemma length_set_bits l (out : bytes) :
  length (foldl (λ out (q : nat * bool), if q.2 then set_bit out q.1 else out) out l) = length out.
Proof.
  revert out. induction l as [|[p []] l IH]; intros out; cbn; [done|rewrite IH|by rewrite IH].
  unfold set_bit. apply length_alter.
Qed.
Lemma length_bits_to_bytes bits : length (bits_to_bytes bits) = div_ceil8 (length bits).
Proof. unfold bits_to_bytes. by rewrite length_set_bits, length_replicate. Qed.
Lemma div_ceil8_spec n : (n ≤ div_ceil8 n * 8 < n + 8)%nat.
Proof. unfold div_ceil8. pose proof (Nat.div_mod_eq (n + 7) 8). pose proof (Nat.mod_upper_bound (n + 7) 8). lia. Qed.
Lemma bit_of_set_bits bits (out : bytes) q :
  (length bits ≤ length out * 8)%nat →
  bit_of (foldl (λ out (q : nat * bool), if q.2 then set_bit out q.1 else out) out (imap pair bits)) q =
  bit_of out q || default false (bits !! q).
Proof.
  induction bits as [|b bits IH] using rev_ind; intros Hl; [by rewrite lookup_nil, orb_false_r|].
  rewrite length_app in Hl. cbn in Hl. rewrite imap_app, foldl_app. cbn -[set_bit bit_of]. rewrite Nat.add_0_r.
  assert (default false ((bits ++ [b]) !! q) = default false (bits !! q) || (b && bool_decide (length bits = q))) as ->.
  { destruct (decide (q < length bits)%nat).
    - rewrite lookup_app_l, bool_decide_eq_false_2, andb_false_r, orb_false_r by lia. done.
    - rewrite lookup_app_r, (lookup_ge_None_2 bits) by lia. cbn. case_bool_decide as Hq.
      + by rewrite <-Hq, Nat.sub_diag, andb_true_r.
      + rewrite andb_false_r. by rewrite lookup_ge_None_2 by (cbn; lia). }
  destruct b; cbn [andb]; [|rewrite orb_false_r; apply IH; lia].
  rewrite bit_of_set_bit, IH, orb_assoc by (rewrite ?length_set_bits; apply Nat.Div0.div_lt_upper_bound || lia; lia). done.
Qed.
(** The bits read back, padded with clear bits to whole bytes. *)
Lemma flag_bits_roundtrip bits :
  bytes_to_bits (bits_to_bytes bits) = bits ++ replicate (div_ceil8 (length bits) * 8 - length bits) false.
Proof.
  pose proof (div_ceil8_spec (length bits)). rewrite bytes_to_bits_eq, length_bits_to_bytes.
  apply list_eq. intros q. rewrite list_lookup_fmap. destruct (decide (q < div_ceil8 (length bits) * 8)%nat) as [Hq|Hq].
  - rewrite lookup_seq_lt by done. cbn [fmap option_fmap option_map]. rewrite Nat.add_0_l. unfold bits_to_bytes at 1. rewrite bit_of_set_bits by (rewrite length_replicate; lia).
    assert (bit_of (replicate (div_ceil8 (length bits)) Byte.x00) q = false) as ->.
    { assert (q / 8 < div_ceil8 (length bits))%nat by (apply Nat.Div0.div_lt_upper_bound; lia).
      unfold bit_of. rewrite lookup_replicate_2 by done. apply Z.bits_0. }
    cbn [orb]. destruct (decide (q < length bits)%nat) as [Hb|Hb].
    + rewrite lookup_app_l by done. destruct (lookup_lt_is_Some_2 bits q Hb) as [b Hl]. by rewrite Hl.
    + by rewrite lookup_app_r, (lookup_ge_None_2 bits q), lookup_replicate_2 by lia.
  - rewrite lookup_seq_ge by lia. symmetry. apply lookup_ge_None_2. rewrite length_app, length_replicate. lia.
Qed.

(** ** The wire *)

Section Wire.
Context {V : Varint} `{!VarintLaws V}.

Lemma length_mjoin_hashes hs : Forall is_hash hs → length (mjoin hs : bytes) = (length hs * 32)%nat.
Proof. induction 1 as [|h hs Hh _ IH]; [done|]. change (mjoin (h :: hs)) with (h ++ mjoin hs).
  rewrite length_app, IH, Hh. cbn. lia. Qed.
Lemma split_hashes_join hs rest : Forall is_hash hs → split_hashes (length hs) (mjoin hs ++ rest) = hs.
Proof.
  intros Hhs. unfold split_hashes. revert rest. induction Hhs as [|h hs Hh _ IH]; intros rest; [done|].
  change (mjoin (h :: hs)) with (h ++ mjoin hs). cbn [length seq fmap list_fmap]. f_equal; [by rewrite <-app_assoc, Nat.mul_0_l, slice_app_l|].
  etransitivity; [|apply (IH rest)]. rewrite <-seq_shift, <-list_fmap_compose. apply list_fmap_ext. intros ? i _. cbn -[Nat.mul].
  unfold slice. rewrite <-app_assoc. rewrite drop_app_ge by (rewrite Hh; lia). rewrite Hh.
  f_equal. f_equal. lia.
Qed.

(** A tree of reasonable size reads back from its bytes, with padding bits. *)
Lemma tree_wire_roundtrip t :
  is_u32 (n_transactions t) → Forall is_hash (v_hash t) →
  Z.of_nat (length (v_hash t)) ≤ 2 ^ 40 → Z.of_nat (length (v_bits t)) ≤ 2 ^ 40 →
  tree_deserialize (tree_serialize t) =
  Ok (mkTree (n_transactions t)
             (v_bits t ++ replicate (div_ceil8 (length (v_bits t)) * 8 - length (v_bits t)) false) (v_hash t) false).
Proof.
  destruct t as [n bits hs b]. unfold tree_deserialize, tree_serialize. cbn [n_transactions v_bits v_hash]. intros Hn Hhs Hh Hb.
  rewrite <-flag_bits_roundtrip. pose proof (length_bits_to_bytes bits) as Hf. pose proof (div_ceil8_spec (length bits)).
  set (F := bits_to_bytes bits) in *. set (c := Z.of_nat (length hs)) in *. set (f := Z.of_nat (length F)) in *.
  set (data := _ ++ _). pose proof (encode_varint_length c). pose proof (encode_varint_length f).
  assert (length data = 4 + length (encode_varint c) + length hs * 32 + length (encode_varint f) + length F)%nat as Hl.
  { subst data. rewrite !length_app, length_to_le, length_mjoin_hashes by done. lia. }
  rewrite bool_decide_eq_false_2 by lia.
  assert (take 4 data = to_le 4 n) as -> by (apply take_app_length'; by rewrite length_to_le).
  rewrite of_to_le by (unfold is_u32 in Hn; lia).
  assert (drop 4 data = encode_varint c ++ mjoin hs ++ encode_varint f ++ F) as ->
    by (apply drop_app_l, length_to_le).
  rewrite decode_encode_varint by (unfold is_u64; lia). cbn [of_option rbind].
  rewrite !as_u64_small by (unfold is_u64; rewrite ?as_u64_small; unfold is_u64; lia).
  rewrite bool_decide_eq_false_2 by lia. unfold with_capacity. rewrite bool_decide_eq_true_2 by lia. cbn [rbind].
  assert (drop (4 + length (encode_varint c)) data = mjoin hs ++ encode_varint f ++ F) as ->.
  { subst data. rewrite app_assoc. apply drop_app_l. rewrite length_app, length_to_le. done. }
  assert (Z.to_nat c = length hs) as -> by (subst c; by rewrite Nat2Z.id). rewrite split_hashes_join by done.
  assert (drop (4 + length (encode_varint c) + length hs * 32) data = encode_varint f ++ F) as ->.
  { subst data. rewrite !app_assoc, <-app_assoc. apply drop_app_l.
    rewrite !length_app, length_to_le, length_mjoin_hashes by done. done. }
  rewrite decode_encode_varint by (unfold is_u64; lia). cbn [of_option rbind].
  rewrite !as_u64_small by (unfold is_u64; lia). rewrite !bool_decide_eq_false_2 by lia.
  do 3 f_equal. rewrite take_ge by (rewrite length_drop; lia).
  subst data. rewrite !app_assoc. apply drop_app_l. rewrite !length_app, length_to_le, length_mjoin_hashes by done. lia.
Qed.
End Wire.

(** ** The root, level by level *)

Section Levels.
Context {U : U256Ops} {K : Consensus}.

(** One level from the one below: pairs are hashed, an odd last node with itself. *)
Fixpoint pair_level (l : list bytes) : list bytes :=
  match l with
  | a :: b :: l' => merge_merkle_node a b :: pair_level l'
  | [a] => [merge_merkle_node a a]
  | [] => []
  end.

Lemma pair_level_lookup l i :
  pair_level l !! i = (λ a, merge_merkle_node a (default a (l !! (2 * i + 1)%nat))) <$> l !! (2 * i)%nat.
Proof.
  revert l. induction i as [|i IH]; intros [|a [|b l]]; try done.
  cbn [pair_level]. change ((merge_merkle_node a b :: pair_level l) !! S i) with (pair_level l !! i). rewrite IH.
  replace (2 * S i)%nat with (S (S (2 * i))) by lia. done.
Qed.

Context (txids : list bytes).
Let n : Z := Z.of_nat (length txids).
Hypothesis n_range : 1 ≤ n ≤ 2 ^ 31.

(** The recursive hash of a node is the entry of its level. *)
Lemma level_calc_hash h (p : nat) :
  (h ≤ 31)%nat →
  Nat.iter h pair_level txids !! p =
  (if bool_decide (Z.of_nat p * 2 ^ Z.of_nat h < n) then Some (calc_hash h (Z.of_nat p) txids n) else None).
Proof.
  revert p. induction h as [|h IH]; intros p Hh.
  - cbn. rewrite Nat2Z.id, Z.mul_1_r. case_bool_decide as Hp; [|apply lookup_ge_None_2; lia].
    destruct (lookup_lt_is_Some_2 txids p) as [x Hx]; [lia|]. by rewrite Hx.
  - rewrite Nat.iter_succ, pair_level_lookup, !IH by lia. rewrite Nat2Z.inj_succ, Z.pow_succ_r by lia. cbn [calc_hash].
    replace (Z.of_nat (2 * p + 1)) with (Z.of_nat p * 2 + 1) by lia. replace (Z.of_nat (2 * p)) with (Z.of_nat p * 2) by lia.
    rewrite Z.mul_assoc. destruct (bool_decide (Z.of_nat p * 2 * 2 ^ Z.of_nat h < n)); [|done].
    cbn [fmap option_fmap option_map].
    do 2 f_equal. destruct (has_right n h (Z.of_nat p)) eqn:Hr.
    + apply has_right_spec in Hr; [|lia..]. by rewrite bool_decide_eq_true_2.
    + rewrite bool_decide_eq_false_2; [done|]. intros Hlt. apply (has_right_spec n n_range h) in Hlt; [|lia]. congruence.
Qed.
(** The level at the tree's height is the root alone. *)
Lemma level_root : Nat.iter (tree_height n) pair_level txids = [calc_hash (tree_height n) 0 txids n].
Proof.
  destruct (tree_height_spec n n_range) as [Hh Hw]. assert (¬ 1 < calc_tree_width n (tree_height n)) as Hn by lia.
  rewrite (width_lt n n_range) in Hn by done. apply list_eq. intros p. rewrite level_calc_hash by done.
  destruct p as [|p]; [by rewrite bool_decide_eq_true_2 by lia|].
  rewrite bool_decide_eq_false_2; [done|]. nia.
Qed.
End Levels.

(** ** What a checked proof says *)

Section Soundness.
Context {U : U256Ops} {K : Consensus} `{!ConsensusLaws K}.
Context (txids : list bytes).
Let n : Z := Z.of_nat (length txids).
Hypothesis n_range : 1 ≤ n ≤ 2 ^ 31.
Hypothesis txid_hash : Forall is_hash txids.

Definition leaf_ids (h : nat) (pos : Z) : list bytes := (λ p, default [] (txids !! p)) <$> leaves h pos n.

(** The strings hashed for the nodes of the tree. *)
Fixpoint tree_preimages (h : nat) (pos : Z) : list bytes :=
  match h with
  | 0%nat => []
  | S h' =>
      let lh := calc_hash h' (pos * 2) txids n in
      let rh := if has_right n h' pos then calc_hash h' (pos * 2 + 1) txids n else lh in
      (lh ++ rh) :: tree_preimages h' (pos * 2) ++ (if has_right n h' pos then tree_preimages h' (pos * 2 + 1) else [])
  end.

Context (bits : list bool) (hashes : list bytes).
Hypothesis hashes_hash : Forall is_hash hashes.

(** The strings hashed when a proof is checked. *)
Fixpoint extract_preimages (h : nat) (pos : Z) (c : Cursor) : list bytes :=
  match h, bits !! bits_used c with
  | S h', Some true =>
      let c1 := mkCursor (S (bits_used c)) (hash_used c) (found c) (bad c) in
      let '(c2, lh) := traverse_and_extract h' (pos * 2) n bits hashes c1 in
      let '(c3, rh) := if has_right n h' pos then traverse_and_extract h' (pos * 2 + 1) n bits hashes c2 else (c2, lh) in
      (lh ++ rh) :: extract_preimages h' (pos * 2) c1 ++
      (if has_right n h' pos then extract_preimages h' (pos * 2 + 1) c2 else [])
  | _, _ => []
  end.
(** No string of one list has the hash of a different string of the other. *)
Definition collision_free (A B : list bytes) : Prop := ∀ a b, a ∈ A → b ∈ B → hash256 a = hash256 b → a = b.

Lemma collision_free_mono A B A' B' : A' ⊆ A → B' ⊆ B → collision_free A B → collision_free A' B'.
Proof. intros HA HB Hc a b Ha Hb. apply Hc; auto. Qed.
Lemma calc_is_hash h pos : (h ≤ 31)%nat → 0 ≤ pos → pos * 2 ^ Z.of_nat h < n → is_hash (calc_hash h pos txids n).
Proof.
  intros Hh Hpos Hlt. destruct h as [|h]; [|apply hash256_length]. cbn [calc_hash].
  destruct (lookup_lt_is_Some_2 txids (Z.to_nat pos)) as [x Hx]; [lia|]. rewrite Hx. exact (Forall_lookup_1 _ _ _ _ txid_hash Hx).
Qed.
Lemma extract_is_hash h pos c : is_hash (traverse_and_extract h pos n bits hashes c).2.
Proof.
  assert (∀ i, is_hash (default zero_hash (hashes !! i))) as Hd.
  { intros i. destruct (hashes !! i) eqn:E; [exact (Forall_lookup_1 _ _ _ _ hashes_hash E)|apply is_hash_zero]. }
  destruct h as [|h]; cbn [traverse_and_extract]; destruct (bits !! bits_used c) as [m|]; try apply is_hash_zero.
  - specialize (Hd (hash_used c)). cbn. by destruct (hashes !! hash_used c).
  - destruct m; cbn [negb].
    + destruct (traverse_and_extract h (pos * 2) n bits hashes _) as [c2 lh].
      destruct (has_right n h pos); [destruct (traverse_and_extract h (pos * 2 + 1) n bits hashes c2)|]; apply hash256_length.
    + specialize (Hd (hash_used c)). cbn. by destruct (hashes !! hash_used c).
Qed.
Lemma extract_bad h pos c : bad c = true → bad (traverse_and_extract h pos n bits hashes c).1 = true.
Proof.
  revert pos c. induction h as [|h IH]; intros pos c Hc; cbn [traverse_and_extract]; destruct (bits !! bits_used c) as [m|]; try done.
  - cbn. by destruct (hashes !! hash_used c).
  - destruct m; cbn [negb]; [|cbn; by destruct (hashes !! hash_used c)].
    set (c1 := mkCursor _ _ _ _). specialize (IH (pos * 2) c1 Hc) as H1.
    destruct (traverse_and_extract h (pos * 2) n bits hashes c1) as [c2 lh].
    destruct (has_right n h pos); [|cbn in *; by rewrite H1]. specialize (IH (pos * 2 + 1) c2 H1) as H2.
    destruct (traverse_and_extract h (pos * 2 + 1) n bits hashes c2) as [c3 rh]. cbn in *. by rewrite H2.
Qed.
Lemma merge_inj lh rh lh' rh' :
  is_hash lh → is_hash lh' → lh ++ rh = lh' ++ rh' → lh = lh' ∧ rh = rh'.
Proof. intros Hl Hl' He. apply app_inj_1 in He; [done|]. unfold is_hash in *. congruence. Qed.
Lemma leaf_ids_split h pos : 0 ≤ pos → leaf_ids (S h) pos = leaf_ids h (pos * 2) ++ leaf_ids h (pos * 2 + 1).
Proof. intros Hpos. unfold leaf_ids. by rewrite leaves_split, fmap_app by lia. Qed.
Lemma leaf_ids_leaf pos : 0 ≤ pos < n → leaf_ids 0 pos = [calc_hash 0 pos txids n].
Proof.
  intros Hpos. unfold leaf_ids. rewrite leaves_eq. rewrite Z.pow_0_r, !Z.mul_1_r.
  by replace (Z.to_nat (Z.min (pos + 1) n - pos)) with 1%nat by lia.
Qed.

(** A run that ends in the hash of a node found ids below that node, in order. *)
Lemma extract_sound h pos c c' :
  (h ≤ 31)%nat → 0 ≤ pos → pos * 2 ^ Z.of_nat h < n →
  collision_free (extract_preimages h pos c) (tree_preimages h pos) →
  traverse_and_extract h pos n bits hashes c = (c', calc_hash h pos txids n) → bad c' = false →
  ∃ l, found c' = found c ++ l ∧ l `sublist_of` leaf_ids h pos.
Proof.
  revert pos c c'. induction h as [|h IH]; intros pos c c' Hh Hpos Hlt Hfree; cbn [traverse_and_extract extract_preimages tree_preimages] in *;
    destruct (bits !! bits_used c) as [m|]; try (intros [= <- _]; done); cbn [hash_used].
  { destruct (hashes !! hash_used c) as [hash|]; [|intros [= <- _]; done]. intros [= <- ->] _. cbn.
    destruct m; [|exists []; rewrite app_nil_r; split; [done|apply sublist_nil_l]].
    eexists; split; [done|]. rewrite leaf_ids_leaf by (cbn in Hlt; lia). done. }
  destruct m; cbn [negb]; last first.
  { destruct (hashes !! hash_used c) as [hash|]; [|intros [= <- _]; done]. intros [= <- _] _.
    exists []. rewrite app_nil_r. split; [done|apply sublist_nil_l]. }
  rewrite Nat2Z.inj_succ, Z.pow_succ_r in Hlt by lia. cbn [calc_hash]. set (c1 := mkCursor _ _ _ _) in *.
  pose proof (extract_is_hash h (pos * 2) c1) as Hl. pose proof (IH (pos * 2) c1) as IH1.
  revert Hfree Hl IH1. destruct (traverse_and_extract h (pos * 2) n bits hashes c1) as [c2 lh]. intros Hfree Hl IH1. cbn [snd] in Hl.
  pose proof (calc_is_hash h (pos * 2) ltac:(lia) ltac:(lia) ltac:(lia)) as HL. rewrite leaf_ids_split by done.
  revert Hfree. destruct (has_right n h pos) eqn:Hr; intros Hfree.
  - apply (has_right_spec n n_range) in Hr; [|lia]. pose proof (IH (pos * 2 + 1) c2) as IH2. pose proof (extract_bad h (pos * 2 + 1) c2) as Hb.
    revert Hfree IH2 Hb. destruct (traverse_and_extract h (pos * 2 + 1) n bits hashes c2) as [c3 rh]. intros Hfree IH2 Hb [= <- He] [Hbad _]%orb_false_iff.
    apply Hfree in He; [|apply elem_of_cons; by left..]. apply merge_inj in He as [-> ->]; [|done..].
    edestruct IH1 as (l1 & Hf1 & Hs1); [lia..| |done| |]; [eapply collision_free_mono, Hfree; set_solver| |].
    { destruct (bad c2) eqn:E; [|done]. specialize (Hb eq_refl). cbn in Hb. congruence. }
    edestruct IH2 as (l2 & Hf2 & Hs2); [lia..| |done|done|]; [eapply collision_free_mono, Hfree; set_solver|].
    exists (l1 ++ l2). cbn. rewrite Hf2, Hf1, app_assoc. split; [done|by apply sublist_app].
  - intros [= <- He] [Hbad _]%orb_false_iff. apply Hfree in He; [|apply elem_of_cons; by left..].
    apply merge_inj in He as [-> _]; [|done..].
    edestruct IH1 as (l1 & Hf1 & Hs1); [lia..| |done|done|]; [eapply collision_free_mono, Hfree; set_solver|].
    exists l1. cbn. split; [done|]. by apply sublist_inserts_r.
Qed.
End Soundness.

(** ** Proofs over the wire *)

Section Proofs.
Context {U : U256Ops} {K : Consensus} `{!ConsensusLaws K} {V : Varint} `{!VarintLaws V}.
Context {W : HeaderWire} (ok : BlockHeader → Prop) `{!HeaderWireLaws W ok}.

(** The ids whose flag is set. *)
Definition selected (txids : list bytes) (v_match : list bool) : list bytes :=
  (filter (λ q : bytes * bool, q.2 = true) (zip txids v_match)).*1.

Lemma selected_positions (l0 l : list bytes) (m0 m : list bool) :
  length l0 = length m0 → length l = length m →
  (λ p, default [] ((l0 ++ l) !! p)) <$> filter (λ p, default false ((m0 ++ m) !! p) = true) (seq (length l0) (length l)) =
  selected l m.
Proof.
  unfold selected. revert l0 m0 m. induction l as [|x l IH]; intros l0 m0 [|b m] Hl0 Hl; try done.
  specialize (IH (l0 ++ [x]) (m0 ++ [b]) m). rewrite !length_app, <-!app_assoc in IH. cbn [length app] in IH.
  replace (length l0 + 1)%nat with (S (length l0)) in IH by lia. injection Hl as Hl.
  assert (default false ((m0 ++ b :: m) !! length l0) = b) as Hb by (by rewrite Hl0, lookup_mid).
  cbn [length seq zip zip_with]. destruct b.
  - rewrite !filter_cons_True by done. cbn [fmap list_fmap]. rewrite <-IH by lia. by rewrite lookup_mid.
  - rewrite !filter_cons_False by (done || by rewrite Hb). apply IH; lia.
Qed.
Lemma matched_root txids v_match :
  1 ≤ Z.of_nat (length txids) ≤ 2 ^ 31 → length txids = length v_match →
  matched_leaves txids v_match (tree_height (Z.of_nat (length txids))) 0 = selected txids v_match.
Proof.
  intros Hn Hl. unfold matched_leaves. rewrite leaves_root, Nat2Z.id by done. by apply (selected_positions [] txids [] v_match).
Qed.

Lemma tree_new_ok txids v_match :
  1 ≤ Z.of_nat (length txids) ≤ 2 ^ 31 → length txids = length v_match →
  tree_new txids v_match =
  let n := Z.of_nat (length txids) in
  let B := traverse_and_build (tree_height n) 0 txids v_match n in Ok (mkTree n B.1 B.2 false).
Proof.
  intros Hn Hl. unfold tree_new. rewrite bool_decide_eq_false_2 by (intros ->; cbn in Hn; lia).
  rewrite bool_decide_eq_true_2 by done. cbn [negb]. rewrite as_u32_small by (unfold is_u32; lia).
  by destruct (traverse_and_build _ _ _ _ _).
Qed.
(** Checking the tree that was built, with the padding bits of the wire. *)
Lemma extract_built txids v_match pad :
  let n := Z.of_nat (length txids) in
  let B := traverse_and_build (tree_height n) 0 txids v_match n in
  1 ≤ n ≤ 2 ^ 31 → length txids = length v_match →
  div_ceil8 (length (B.1 ++ pad)) = div_ceil8 (length B.1) →
  (extract_matches (mkTree n (B.1 ++ pad) B.2 false)).2 =
  if twin txids v_match (tree_height n) 0 then (zero_hash, [])
  else (calc_hash (tree_height n) 0 txids n, selected txids v_match).
Proof.
  intros n B Hn Hl Hpad. destruct (tree_height_spec n Hn) as [Hh _].
  destruct (build_counts txids v_match Hn (tree_height n) 0) as (H1 & H2 & H3); [lia..|].
  fold n B in H1, H2, H3. rewrite leaves_root, length_seq in H1 by done.
  unfold extract_matches. cbn [n_transactions v_hash v_bits tree_bad].
  rewrite !bool_decide_eq_false_2 by (rewrite ?length_app; lia).
  pose proof (extract_build txids v_match Hn (tree_height n) 0 [] pad [] [] [] false Hh ltac:(lia)) as He.
  cbn [app length] in He. rewrite app_nil_r in He. fold n B in He. rewrite He. clear He.
  cbn [bad orb bits_used hash_used found]. rewrite !Nat.add_0_l.
  destruct (twin txids v_match (tree_height n) 0); [done|]. rewrite Hpad, !bool_decide_eq_true_2 by done. cbn [negb snd].
  by rewrite matched_root.
Qed.
Lemma div_ceil8_pad (bits : list bool) :
  div_ceil8 (length (bits ++ replicate (div_ceil8 (length bits) * 8 - length bits) false)) = div_ceil8 (length bits).
Proof.
  rewrite length_app, length_replicate. pose proof (div_ceil8_spec (length bits)).
  replace (length bits + (div_ceil8 (length bits) * 8 - length bits))%nat with (div_ceil8 (length bits) * 8)%nat by lia.
  unfold div_ceil8 at 1. rewrite Nat.div_add_l by lia. change (7 / 8)%nat with 0%nat. lia.
Qed.
Lemma merkle_block_wire header t t' :
  ok header → tree_deserialize (tree_serialize t) = Ok t' →
  merkle_block_deserialize (merkle_block_serialize header t) = Ok (header, t').
Proof.
  intros Hok Ht. unfold merkle_block_deserialize, merkle_block_serialize. pose proof (header_wire_length header Hok) as Hlen.
  rewrite bool_decide_eq_false_2 by (rewrite length_app; lia). rewrite take_app_length', drop_app_length' by done.
  rewrite header_wire_roundtrip by done. cbn [of_option rbind]. by rewrite Ht.
Qed.
(** Hashes of a tree read from bytes have 32 bytes. *)
Lemma tree_deserialize_hashes data t : tree_deserialize data = Ok t → Forall is_hash (v_hash t).
Proof.
  unfold tree_deserialize. case_bool_decide as Hl; [done|]. destruct (decode_varint (drop 4 data)) as [[count consumed]|] eqn:Hd; [|done].
  cbn [of_option rbind]. case_bool_decide as Hs; [done|]. unfold with_capacity. case_bool_decide as Hc; [|done]. cbn [rbind].
  destruct (decode_varint (drop (_ + _) _)) as [[flen consumed']|]; [|done]. cbn [of_option rbind]. do 2 (case_bool_decide; [done|]).
  intros [= <-]. cbn [v_hash]. unfold split_hashes. apply Forall_fmap, Forall_forall. intros i Hi%elem_of_seq.
  pose proof (decode_varint_reads _ _ _ Hd). rewrite (as_u64_small (count * 32)) in Hs by (unfold is_u64; lia).
  rewrite as_u64_small in Hs by (unfold is_u64; lia). unfold compose, is_hash.
  apply length_slice. rewrite length_drop. lia.
Qed.
Lemma tree_deserialize_bad data t : tree_deserialize data = Ok t → tree_bad t = false.
Proof.
  unfold tree_deserialize. case_bool_decide; [done|]. destruct (decode_varint (drop 4 data)) as [[count consumed]|]; [|done].
  cbn [of_option rbind]. case_bool_decide; [done|]. unfold with_capacity. case_bool_decide; [|done]. cbn [rbind].
  destruct (decode_varint _) as [[flen consumed']|]; [|done]. cbn [of_option rbind]. do 2 (case_bool_decide; [done|]).
  by intros [= <-].
Qed.
Lemma fmap_lookup_seq (l : list bytes) : (λ p, default [] (l !! p)) <$> seq 0 (length l) = l.
Proof.
  apply list_eq. intros i. rewrite list_lookup_fmap. destruct (decide (i < length l)%nat).
  - rewrite lookup_seq_lt by done. cbn. destruct (lookup_lt_is_Some_2 l i) as [x Hx]; [done|]. by rewrite Hx.
  - rewrite lookup_seq_ge by lia. symmetry. apply lookup_ge_None_2. lia.
Qed.

(** [C24] An inclusion proof survives the wire: building a proof for the flagged
    transactions of a block, writing it with its header and reading it back
    gives the header and a tree whose check returns the block's Merkle root,
    computed level by level, and exactly the flagged ids in block order; unless
    a node the proof opens has two equal children, and then the check fails. *)
Theorem merkle_proof_roundtrip header txids v_match :
  ok header → Forall is_hash txids → length txids = length v_match → 1 ≤ Z.of_nat (length txids) ≤ 2 ^ 31 →
  ∃ t t' root,
    tree_new txids v_match = Ok t ∧
    merkle_block_deserialize (merkle_block_serialize header t) = Ok (header, t') ∧
    n_transactions t' = Z.of_nat (length txids) ∧
    Nat.iter (tree_height (n_transactions t')) pair_level txids = [root] ∧
    (extract_matches t').2 =
      if twin txids v_match (tree_height (n_transactions t')) 0 then (zero_hash, [])
      else (root, selected txids v_match).
Proof.
  intros Hok Htx Hl Hn. destruct (tree_height_spec _ Hn) as [Hh _].
  destruct (build_counts txids v_match Hn (tree_height (Z.of_nat (length txids))) 0) as (H1 & H2 & H3); [lia..|].
  rewrite leaves_root, length_seq in H1, H3 by done.
  eexists _, _, _. split; [by apply tree_new_ok|]. split.
  { apply merkle_block_wire; [done|]. apply tree_wire_roundtrip; cbn [n_transactions v_hash v_bits]; [unfold is_u32; lia| |lia|nia].
    apply build_hashes; [done..|lia|done]. }
  cbn [n_transactions v_hash v_bits]. split; [done|]. split; [by apply level_root|].
  apply extract_built; [done..|]. apply div_ceil8_pad.
Qed.

(** [C33] An accepted proof is sound: when the check of a proof read from any
    bytes returns the root of a block with the announced number of
    transactions, the ids it returns are ids of the block, in block order,
    unless two different strings, one hashed by the check and one hashed for
    the block's tree, have the same hash. *)
Theorem accepted_proof_sound data header t root txids :
  merkle_block_deserialize data = Ok (header, t) →
  n_transactions t = Z.of_nat (length txids) → 1 ≤ n_transactions t ≤ 2 ^ 31 → Forall is_hash txids →
  Nat.iter (tree_height (n_transactions t)) pair_level txids = [root] →
  (extract_matches t).2.1 = root →
  collision_free (extract_preimages txids (v_bits t) (v_hash t) (tree_height (n_transactions t)) 0 (mkCursor 0 0 [] false))
                 (tree_preimages txids (tree_height (n_transactions t)) 0) →
  (extract_matches t).2.2 `sublist_of` txids.
Proof.
  intros Hd Hnt Hn Htx Hroot Hx Hfree. assert (Forall is_hash (v_hash t) ∧ tree_bad t = false) as [Hh Hb].
  { unfold merkle_block_deserialize in Hd. case_bool_decide; [done|]. destruct (deserialize_block_header _); [|done].
    cbn [of_option rbind] in Hd. destruct (tree_deserialize (drop 80 data)) as [t1|] eqn:Ht; [|done].
    injection Hd as _ <-. split; [by eapply tree_deserialize_hashes|by eapply tree_deserialize_bad]. }
  rewrite Hnt in *. destruct (tree_height_spec _ Hn) as [Hht _]. rewrite level_root in Hroot by done. injection Hroot as <-.
  unfold extract_matches in *. rewrite Hnt, Hb in *.
  do 3 (case_bool_decide; [apply sublist_nil_l|]).
  destruct (traverse_and_extract _ _ _ _ _ _) as [c r] eqn:He.
  destruct (bad c) eqn:Hbc; [apply sublist_nil_l|]. do 2 (case_bool_decide; [|apply sublist_nil_l]). cbn [negb fst snd] in Hx |- *. subst r.
  eapply extract_sound in He as (l & Hf & Hs); [|done..|lia|lia|done|done]. cbn [found app] in Hf. rewrite Hf.
  unfold leaf_ids in Hs. by rewrite leaves_root, Nat2Z.id, fmap_lookup_seq in Hs.
Qed.
End Proofs.

(** ** Proofs the check refuses *)

Section Refused.
Context {U : U256Ops} {K : Consensus}.
Context (txids : list bytes) (v_match : list bool).
Let n : Z := Z.of_nat (length txids).
Hypothesis n_range : 1 ≤ n ≤ 2 ^ 31.
Hypothesis odd : Z.odd n = true.
Hypothesis last_matched : v_match !! (length txids - 1)%nat = Some true.

Let last_at (h : nat) : Z := (n - 1) / 2 ^ Z.of_nat h.

Lemma last_at_bounds h : 0 ≤ last_at h ∧ last_at h * 2 ^ Z.of_nat h ≤ n - 1 < (last_at h + 1) * 2 ^ Z.of_nat h.
Proof.
  unfold last_at. assert (0 < 2 ^ Z.of_nat h) as Hp by (apply Z.pow_pos_nonneg; lia). split; [apply Z.div_pos; lia|].
  pose proof (Z.mul_div_le (n - 1) _ Hp). pose proof (Z.mul_succ_div_gt (n - 1) _ Hp). lia.
Qed.
Lemma last_at_half h : last_at (S h) = last_at h / 2.
Proof. unfold last_at. rewrite Nat2Z.inj_succ, Z.pow_succ_r, (Z.mul_comm 2) by lia. by rewrite Z.div_div by lia. Qed.
Lemma last_opened h : parent_of_match h (last_at h) n v_match = true.
Proof.
  unfold parent_of_match. apply existsb_exists. exists (length txids - 1)%nat. rewrite last_matched. split; [|done].
  apply list_elem_of_In. destruct (last_at_bounds h). apply elem_of_leaves; lia.
Qed.
(** Every node above the last transaction of an odd block is opened, and the
    lowest has its only child twice. *)
Lemma twin_last h : (h ≤ 30)%nat → twin txids v_match (S h) (last_at (S h)) = true.
Proof.
  induction h as [|h IH]; intros Hh.
  - cbn [twin]. fold n. rewrite last_opened. cbn [andb]. destruct (has_right n 0 (last_at 1)) eqn:Hr.
    + exfalso. apply (has_right_spec n n_range) in Hr; [|lia]. rewrite last_at_half in Hr. unfold last_at in Hr.
      cbn in Hr. rewrite Z.div_1_r in Hr. pose proof (Zdiv2_odd_eqn n) as He. rewrite odd, Z.div2_div in He.
      replace (n - 1) with (n / 2 * 2) in Hr by lia. rewrite Z.div_mul in Hr by lia. lia.
    + rewrite bool_decide_eq_true_2 by done. by rewrite orb_true_r.
  - specialize (IH ltac:(lia)). remember (S h) as h1 eqn:Hh1. cbn [twin]. fold n. rewrite last_opened. cbn [andb].
    destruct (last_at_bounds h1) as [Hp Hb]. pose proof (last_at_half h1) as Hq.
    pose proof (Z.div_mod (last_at h1) 2 ltac:(lia)) as Hdm. rewrite <-Hq in Hdm.
    destruct (Z.mod_pos_bound (last_at h1) 2 ltac:(lia)).
    destruct (decide (last_at h1 mod 2 = 0)) as [Hm|Hm].
    + replace (last_at (S h1) * 2) with (last_at h1) by lia. by rewrite IH.
    + replace (last_at (S h1) * 2 + 1) with (last_at h1) by lia.
      assert (has_right n h1 (last_at (S h1)) = true) as -> by (apply has_right_spec; [done|lia|]; nia).
      rewrite IH. cbn [andb]. by rewrite orb_true_r.
Qed.
(** The check refuses the proof that was built for the last transaction of a
    block with an odd number of transactions, the coinbase-only block apart. *)
Theorem odd_block_last_refused t :
  1 < n → length txids = length v_match → tree_new txids v_match = Ok t → (extract_matches t).2 = (zero_hash, []).
Proof.
  intros H1 Hl Ht. rewrite tree_new_ok in Ht by done. cbv zeta in Ht. injection Ht as <-.
  pose proof (extract_built txids v_match [] n_range Hl) as He. rewrite app_nil_r in He. rewrite He by done.
  destruct (tree_height_spec n n_range) as [Hh Hw]. fold n. destruct (tree_height n) as [|h] eqn:E.
  - rewrite width_eq in Hw by (done || lia). cbn in Hw. rewrite Z.div_1_r in Hw. lia.
  - assert (last_at (S h) = 0) as H0; [|rewrite <-H0, twin_last by lia; done].
    destruct (last_at_bounds (S h)) as [Hp Hb]. assert (¬ 1 < calc_tree_width n (S h)) as Hn by lia.
    rewrite (width_lt n n_range) in Hn by done. nia.
Qed.
End Refused.

(** A hash count of 2^59 wraps the size test to zero and asks for an
    allocation that panics, whatever follows. *)
Theorem huge_hash_count_panics {V : Varint} `{!VarintLaws V} n rest :
  tree_deserialize (to_le 4 n ++ encode_varint (2 ^ 59) ++ rest) = Err PANIC_CAPACITY.
Proof.
  unfold tree_deserialize. rewrite bool_decide_eq_false_2 by (rewrite length_app, length_to_le; lia).
  rewrite drop_app_l by apply length_to_le. rewrite decode_encode_varint by (unfold is_u64; lia). cbn [of_option rbind].
  change (as_u64 (2 ^ 59 * 32)) with 0. pose proof (encode_varint_length (2 ^ 59)).
  rewrite as_u64_small by (unfold is_u64; lia). rewrite bool_decide_eq_false_2 by (rewrite !length_app, length_to_le; lia).
  unfold with_capacity. by rewrite bool_decide_eq_false_2 by lia.
Qed.

(** ** A header on the wire and a two-transaction block *)

Module MerkleWitness.
#[local] Existing Instance IntegerU256.ops.
#[local] Existing Instance ToyConsensus.consensus.

Ltac wire_field :=
  repeat first [ rewrite slice_app_l by first [done | apply length_to_le]
               | rewrite (slice_app_r _ _ _ _ 4) by first [apply length_to_le | lia]; cbn [Nat.sub]
               | rewrite (slice_app_r _ _ _ _ 32) by first [done | lia]; cbn [Nat.sub]
               | rewrite slice_all by apply length_to_le ].
Definition header_ok (h : BlockHeader) : Prop :=
  is_u32 (version h) ∧ is_hash (prev_block_hash h) ∧ is_hash (merkle_root h) ∧ is_u32 (timestamp h) ∧ is_u32 (bits h) ∧ is_u32 (nonce h).
#[local] Instance wire : HeaderWire := {|
  serialize_block_header h :=
    to_le 4 (version h) ++ prev_block_hash h ++ merkle_root h ++ to_le 4 (timestamp h) ++ to_le 4 (bits h) ++ to_le 4 (nonce h);
  deserialize_block_header bs :=
    Some (mkHeader (of_le (slice 0 4 bs)) (slice 4 32 bs) (slice 36 32 bs) (of_le (slice 68 4 bs)) (of_le (slice 72 4 bs))
                   (of_le (slice 76 4 bs)));
|}.
#[local] Instance wire_laws : HeaderWireLaws wire header_ok.
Proof.
  split; intros h (Hv & Hp & Hm & Ht & Hb & Hn); cbn [serialize_block_header deserialize_block_header wire].
  - rewrite !length_app, !length_to_le, Hp, Hm. done.
  - destruct h as [v p m t b n]. cbn [version prev_block_hash merkle_root timestamp bits nonce] in *.
    unfold is_hash, is_u32 in *. do 2 f_equal; wire_field; try done; apply of_to_le; lia.
Qed.

Definition tx1 : bytes := replicate 32 Byte.x01.
Definition tx2 : bytes := replicate 32 Byte.x02.
Definition header : BlockHeader := mkHeader 1 zero_hash tx1 1 545259519 0.
Definition proof_bytes : bytes :=
  match tree_new [tx1; tx2] [false; true] with Ok t => merkle_block_serialize header t | Err _ => [] end.

Lemma header_is_ok : header_ok header.
Proof. repeat split; cbn; unfold is_u32, is_hash; done || lia. Qed.

(** The proof for the second of two transactions, there and back. *)
Lemma merkle_proof_roundtrip_witness :
  ∃ t t' root,
    tree_new [tx1; tx2] [false; true] = Ok t ∧
    merkle_block_deserialize (merkle_block_serialize header t) = Ok (header, t') ∧
    (extract_matches t').2 = (root, [tx2]).
Proof.
  destruct (merkle_proof_roundtrip header_ok header [tx1; tx2] [false; true]) as (t & t' & root & H1 & H2 & H3 & H4 & H5).
  - apply header_is_ok.
  - repeat constructor.
  - done.
  - cbn. lia.
  - exists t, t', root. split; [done|]. split; [done|]. rewrite H5, H3. reflexivity.
Defined.

(** The bytes of that proof, read by a party that has only them. *)
Lemma accepted_proof_sound_witness :
  ∃ t, merkle_block_deserialize proof_bytes = Ok (header, t) ∧ (extract_matches t).2.2 `sublist_of` [tx1; tx2].
Proof.
  eexists (mkTree 2 [true; false; true; false; false; false; false; false] [tx1; tx2] false). split; [by vm_compute|].
  eapply (accepted_proof_sound proof_bytes header _ tx1 [tx1; tx2]).
  - by vm_compute.
  - done.
  - cbn. lia.
  - repeat constructor.
  - by vm_compute.
  - by vm_compute.
  - intros a b Ha Hb _. change (a ∈ [tx1 ++ tx2]) in Ha. change (b ∈ [tx1 ++ tx2]) in Hb.
    by rewrite list_elem_of_singleton in Ha, Hb; subst.
Defined.
End MerkleWitness.
