(* ===== verification/TxInflight.v ===== *)
(** * TxInflight: outstanding transaction requests of each peer

    [network/tx_inflight.rs]: at most 100 requested hashes per peer wait for an
    answer, and at most 5,000 announced hashes wait for one of these places.
    The file models the tracker, proves its invariant for every run, and that
    a waiting hash is requested when the peer keeps being served. *)

From S2P Require Import Prelude Bytes.
Open Scope Z_scope.

Abbreviation MAX_PEER_IN_FLIGHT := 100%nat (only parsing).
Abbreviation MAX_PEER_ANNOUNCEMENTS := 5000%nat (only parsing).
(** Time in nanoseconds. *)
Abbreviation REQUEST_LIFETIME := (60 * 10 ^ 9)%Z (only parsing).

Abbreviation Hash := bytes.
Abbreviation Instant := Z.

Record PeerTxRequests := mkRequests {
  in_flight : gmap Hash Instant;
  waiting : list Hash;
  waiting_set : gset Hash;
}.
Definition no_requests : PeerTxRequests := mkRequests ∅ [] ∅.

(** [requested_at] is not older than the lifetime at [now]. *)
Definition alive (now requested_at : Instant) : bool := sat_sub now requested_at <=? REQUEST_LIFETIME.

(** The loop of [promote], on the waiting hashes; the second component is what
    it appends to [request]. *)
Fixpoint promote_loop (now : Instant) (queue : list Hash) (fl : gmap Hash Instant) (ws : gset Hash)
  : PeerTxRequests * list Hash :=
  match queue with
  | [] => (mkRequests fl [] ws, [])
  | hash :: queue' =>
      if (size fl <? MAX_PEER_IN_FLIGHT)%nat then
        if bool_decide (is_Some (fl !! hash)) then promote_loop now queue' fl (ws ∖ {[hash]})
        else let '(state, request) := promote_loop now queue' (<[hash := now]> fl) (ws ∖ {[hash]}) in
             (state, hash :: request)
      else (mkRequests fl queue ws, [])
  end.

Definition promote (state : PeerTxRequests) (now : Instant) : PeerTxRequests * list Hash :=
  promote_loop now (waiting state) (filter (λ kv, alive now kv.2) (in_flight state)) (waiting_set state).

(** One announced hash of [admit]. *)
Definition admit_one (now : Instant) (acc : PeerTxRequests * list Hash) (hash : Hash) : PeerTxRequests * list Hash :=
  let '(state, request) := acc in
  if bool_decide (is_Some (in_flight state !! hash)) || bool_decide (hash ∈ waiting_set state) then acc
  else if (size (in_flight state) <? MAX_PEER_IN_FLIGHT)%nat then
    (mkRequests (<[hash := now]> (in_flight state)) (waiting state) (waiting_set state), request ++ [hash])
  else if (length (waiting state) <? MAX_PEER_ANNOUNCEMENTS)%nat then
    (mkRequests (in_flight state) (waiting state ++ [hash]) ({[hash]} ∪ waiting_set state), request)
  else acc.

Definition is_idle (state : PeerTxRequests) : bool :=
  (size (in_flight state) =? 0)%nat && (length (waiting state) =? 0)%nat.

Section Tracker.
Context {Addr : Type} `{Countable Addr}.

Abbreviation TxRequestTracker := (gmap Addr PeerTxRequests).

(** The entry is kept, or removed when nothing is left in it. *)
Definition put_peer (peer : Addr) (state : PeerTxRequests) (peers : TxRequestTracker) : TxRequestTracker :=
  if is_idle state then delete peer peers else <[peer := state]> peers.

Definition admit_announced (peer : Addr) (hashes : list Hash) (now : Instant) (peers : TxRequestTracker)
  : TxRequestTracker * list Hash :=
  let '(state, request) :=
    foldl (admit_one now) (promote (default no_requests (peers !! peer)) now) hashes in
  (put_peer peer state peers, request).

Definition complete (peer : Addr) (hash : Hash) (now : Instant) (peers : TxRequestTracker)
  : TxRequestTracker * list Hash :=
  match peers !! peer with
  | None => (peers, [])
  | Some state =>
      let '(state', request) :=
        promote (mkRequests (delete hash (in_flight state)) (waiting state) (waiting_set state)) now in
      (put_peer peer state' peers, request)
  end.

Definition forget_peer (peer : Addr) (peers : TxRequestTracker) : TxRequestTracker := delete peer peers.

Definition waiting_len (peer : Addr) (peers : TxRequestTracker) : nat :=
  from_option (λ state, length (waiting state)) 0%nat (peers !! peer).
Definition contains (peer : Addr) (hash : Hash) (peers : TxRequestTracker) : bool :=
  from_option (λ state, bool_decide (is_Some (in_flight state !! hash))) false (peers !! peer).

(** A call on the tracker, with its time. *)
Inductive call :=
| Announced (peer : Addr) (hashes : list Hash) (now : Instant)
| Completed (peer : Addr) (hash : Hash) (now : Instant)
| Forgotten (peer : Addr) (now : Instant).

Definition do_call (c : call) (peers : TxRequestTracker) : TxRequestTracker * list Hash :=
  match c with
  | Announced peer hashes now => admit_announced peer hashes now peers
  | Completed peer hash now => complete peer hash now peers
  | Forgotten peer _ => (forget_peer peer peers, [])
  end.
Definition call_peer (c : call) : Addr :=
  match c with Announced peer _ _ | Completed peer _ _ | Forgotten peer _ => peer end.
Definition call_time (c : call) : Instant :=
  match c with Announced _ _ now | Completed _ _ now | Forgotten _ now => now end.
End Tracker.

(** ** The state of one peer *)

(** [hs] requested at [now]. *)
Definition fill (now : Instant) (hs : list Hash) (fl : gmap Hash Instant) : gmap Hash Instant :=
  foldl (λ m h, <[h := now]> m) fl hs.

Record queue_ok (st : PeerTxRequests) : Prop := mkQueueOk {
  q_flight : (size (in_flight st) ≤ MAX_PEER_IN_FLIGHT)%nat;
  q_length : (length (waiting st) ≤ MAX_PEER_ANNOUNCEMENTS)%nat;
  q_nodup : NoDup (waiting st);
  q_set : waiting_set st = list_to_set (waiting st);
  q_disjoint : ∀ h, h ∈ waiting st → in_flight st !! h = None;
}.
(** A hash waits only while every place is taken. *)
Definition full (st : PeerTxRequests) : Prop := waiting st ≠ [] → size (in_flight st) = MAX_PEER_IN_FLIGHT.
Definition peer_ok (st : PeerTxRequests) : Prop := queue_ok st ∧ full st.

Lemma fill_lookup now hs fl h :
  fill now hs fl !! h = if bool_decide (h ∈ hs) then Some now else fl !! h.
Proof.
  revert fl. induction hs as [|x hs IH]; intros fl; [done|]. unfold fill in *. cbn [foldl]. rewrite IH.
  destruct (decide (x = h)) as [->|Hne].
  - rewrite lookup_insert_eq, (bool_decide_eq_true_2 (h ∈ h :: hs)) by left. by case_bool_decide.
  - rewrite lookup_insert_ne by done. repeat case_bool_decide; set_solver.
Qed.
Lemma fill_size now hs fl :
  NoDup hs → (∀ h, h ∈ hs → fl !! h = None) → size (fill now hs fl) = (size fl + length hs)%nat.
Proof.
  revert fl. induction hs as [|x hs IH]; intros fl Hnd Hno; [cbn; lia|].
  apply NoDup_cons in Hnd as [Hx Hnd]. unfold fill in *. cbn [foldl length].
  rewrite IH; [|done|].
  - rewrite map_size_insert_None by (apply Hno; left). lia.
  - intros h Hh. rewrite lookup_insert_ne by (intros ->; done). apply Hno. by right.
Qed.

(** What the loop does when the waiting hashes are distinct and not in flight:
    it requests a prefix of them, in order, and stops when the places are taken. *)
Lemma promote_loop_spec now queue fl :
  (size fl ≤ MAX_PEER_IN_FLIGHT)%nat → NoDup queue → (∀ h, h ∈ queue → fl !! h = None) →
  let n := (MAX_PEER_IN_FLIGHT - size fl)%nat in
  promote_loop now queue fl (list_to_set queue)
  = (mkRequests (fill now (take n queue) fl) (drop n queue) (list_to_set (drop n queue)), take n queue).
Proof.
  revert fl. induction queue as [|x queue IH]; intros fl Hs Hnd Hno n.
  { by rewrite take_nil, drop_nil. }
  apply NoDup_cons in Hnd as [Hx Hnd]. cbn [promote_loop].
  destruct (Nat.ltb_spec (size fl) MAX_PEER_IN_FLIGHT) as [Hlt|Hge].
  2: { by replace n with 0%nat by lia. }
  rewrite bool_decide_eq_false_2 by (rewrite (Hno x) by left; by intros [? ?]).
  assert (Hset : list_to_set (x :: queue) ∖ {[x]} =@{gset Hash} list_to_set queue) by set_solver.
  rewrite Hset, IH; [|rewrite map_size_insert_None by (apply Hno; left); lia|done|].
  - rewrite map_size_insert_None by (apply Hno; left).
    replace n with (S (MAX_PEER_IN_FLIGHT - S (size fl)))%nat by lia. done.
  - intros h Hh. rewrite lookup_insert_ne by (intros ->; done). apply Hno. by right.
Qed.

Lemma promote_spec st now :
  queue_ok st →
  let fl := filter (λ kv, alive now kv.2) (in_flight st) in
  let n := (MAX_PEER_IN_FLIGHT - size fl)%nat in
  promote st now = (mkRequests (fill now (take n (waiting st)) fl) (drop n (waiting st))
                      (list_to_set (drop n (waiting st))), take n (waiting st)) ∧
  (size fl ≤ MAX_PEER_IN_FLIGHT)%nat ∧ (∀ h, h ∈ waiting st → fl !! h = None).
Proof.
  intros [Hf Hl Hn Hs Hd] fl n.
  assert (fl ⊆ in_flight st) as Hsub by apply map_filter_subseteq.
  assert (∀ h, h ∈ waiting st → fl !! h = None) as Hno.
  { intros h Hh. eapply lookup_weaken_None; [by apply Hd|done]. }
  assert (size fl ≤ MAX_PEER_IN_FLIGHT)%nat as Hsz by (etrans; [by apply map_subseteq_size|done]).
  split; [|done]. unfold promote. rewrite Hs. by apply promote_loop_spec.
Qed.

Lemma elem_of_split {A} n (x : A) (l : list A) : x ∈ take n l ∨ x ∈ drop n l → x ∈ l.
Proof. rewrite <-elem_of_app. by rewrite take_drop. Qed.
Lemma NoDup_split {A} n (l : list A) :
  NoDup l → NoDup (take n l) ∧ (∀ x, x ∈ take n l → x ∉ drop n l) ∧ NoDup (drop n l).
Proof. intros Hn. rewrite <-(take_drop n l) in Hn. by apply NoDup_app in Hn. Qed.

Lemma promote_ok st now : queue_ok st → peer_ok (promote st now).1.
Proof.
  intros Hq. destruct (promote_spec st now Hq) as (-> & Hsz & Hno). destruct Hq as [Hf Hl Hn Hs Hd].
  set (fl := filter _ _) in *. set (n := (_ - size fl)%nat). cbn [fst].
  pose proof Hn as (Hn1 & Hn2 & Hn3)%(NoDup_split n).
  assert (size (fill now (take n (waiting st)) fl) = size fl + length (take n (waiting st)))%nat as Hsize.
  { apply fill_size; [done|]. intros h Hh. by apply Hno, (elem_of_split n); left. }
  rewrite length_take in Hsize. split; [split|]; cbn [in_flight waiting waiting_set].
  - rewrite Hsize. lia.
  - rewrite length_drop. lia.
  - done.
  - done.
  - intros h Hh. rewrite fill_lookup, bool_decide_eq_false_2; [|].
    { by apply Hno, (elem_of_split n); right. }
    intros Hh'. by apply (Hn2 h).
  - unfold full. cbn [in_flight waiting]. intros Hne. rewrite Hsize.
    assert (n < length (waiting st))%nat; [|lia].
    apply Nat.lt_nge. intros Hge. by apply Hne, drop_ge.
Qed.

Lemma admit_one_ok now st req h : peer_ok st → peer_ok (admit_one now (st, req) h).1.
Proof.
  intros [[Hf Hl Hn Hs Hd] Hfull]. unfold admit_one.
  destruct (_ || _) eqn:E; [by repeat split|]. apply orb_false_iff in E as [E1%bool_decide_eq_false E2%bool_decide_eq_false].
  apply eq_None_not_Some in E1. rewrite Hs, elem_of_list_to_set in E2.
  destruct (Nat.ltb_spec (size (in_flight st)) MAX_PEER_IN_FLIGHT) as [Hlt|Hge].
  - assert (waiting st = []) as Hw. { destruct (waiting st) eqn:Ew; [done|]. unfold full in Hfull. rewrite Ew in Hfull. specialize (Hfull ltac:(done)). lia. }
    split; [split|]; unfold full; cbn [fst in_flight waiting waiting_set]; rewrite ?Hs, ?Hw; try done.
    + rewrite map_size_insert_None by done. lia.
    + cbn [length]. lia.
    + apply NoDup_nil_2.
    + set_solver.
  - destruct (Nat.ltb_spec (length (waiting st)) MAX_PEER_ANNOUNCEMENTS); [|by repeat split].
    split; [split|]; unfold full; cbn [fst in_flight waiting waiting_set]; try done.
    + rewrite length_app. cbn [length]. lia.
    + apply NoDup_app. split; [done|]. split; [set_solver|]. apply NoDup_singleton.
    + rewrite Hs. set_solver.
    + intros x [Hx|Hx]%elem_of_app; [by apply Hd|]. by apply list_elem_of_singleton in Hx as ->.
    + intros _. lia.
Qed.
Lemma admit_all_ok now hs acc : peer_ok acc.1 → peer_ok (foldl (admit_one now) acc hs).1.
Proof.
  revert acc. induction hs as [|h hs IH]; intros [st req] Hok; [done|]. cbn [foldl]. apply IH. by apply admit_one_ok.
Qed.

Lemma queue_ok_delete st h :
  queue_ok st → queue_ok (mkRequests (delete h (in_flight st)) (waiting st) (waiting_set st)).
Proof.
  intros [Hf Hl Hn Hs Hd]. split; cbn [in_flight waiting waiting_set]; try done.
  - etrans; [|exact Hf]. apply map_subseteq_size, delete_subseteq.
  - intros x Hx. apply lookup_delete_None. right. by apply Hd.
Qed.
Lemma no_requests_ok : peer_ok no_requests.
Proof.
  split; [split|by intros Hne]; cbn [no_requests in_flight waiting waiting_set length].
  - rewrite map_size_empty. lia.
  - lia.
  - apply NoDup_nil_2.
  - done.
  - by intros h ?%elem_of_nil.
Qed.

(** ** Progress of one waiting hash *)

(** Requests younger than [last]. *)
Definition fresh (last : Instant) (st : PeerTxRequests) : nat :=
  size (filter (λ kv, last < kv.2) (in_flight st)).
Definition not_after (now : Instant) (st : PeerTxRequests) : Prop :=
  ∀ h t, in_flight st !! h = Some t → t ≤ now.

Lemma fresh_none now st : not_after now st → fresh now st = 0%nat.
Proof.
  intros Hle. unfold fresh. apply map_size_empty_iff, map_empty. intros h.
  apply map_lookup_filter_None. right. intros t Ht%Hle. cbn [snd]. lia.
Qed.
Lemma fresh_insert now last h fl ws w :
  (fresh last (mkRequests (<[h := now]> fl) w ws) ≤ S (fresh last (mkRequests fl w ws)))%nat.
Proof.
  unfold fresh. cbn [in_flight]. destruct (decide (last < now)) as [Hlt|Hge].
  - rewrite map_filter_insert_True by done. rewrite map_size_insert. case_match; unfold id; lia.
  - rewrite map_filter_insert_False by done.
    apply Nat.le_le_succ_r, map_subseteq_size, map_filter_subseteq_mono, delete_subseteq.
Qed.
Lemma fresh_fill now last hs fl ws w :
  (fresh last (mkRequests (fill now hs fl) w ws) ≤ fresh last (mkRequests fl w ws) + length hs)%nat.
Proof.
  revert fl. induction hs as [|h hs IH]; intros fl; [cbn [length]; unfold fill; cbn [foldl]; lia|].
  specialize (IH (<[h := now]> fl)). pose proof (fresh_insert now last h fl ws w).
  unfold fill in *. cbn [foldl length]. lia.
Qed.

(** The queue position of a waiting hash, and the fresh requests ahead of it,
    never grow together; after more than a lifetime they shrink by 100. *)
Lemma promote_progress st now last h k st' req :
  queue_ok st → waiting st !! k = Some h → promote st now = (st', req) →
  h ∈ req ∨ ∃ k', waiting st' !! k' = Some h ∧ (k' + fresh last st' ≤ k + fresh last st)%nat ∧
                  ((last + REQUEST_LIFETIME < now)%Z → k' + MAX_PEER_IN_FLIGHT ≤ k + fresh last st)%nat.
Proof.
  intros Hq Hk Hp. destruct (promote_spec st now Hq) as (E & Hsz & _). rewrite E in Hp. clear E.
  set (fl := filter _ (in_flight st)) in *. set (n := (_ - size fl)%nat) in *. injection Hp as <- <-.
  destruct (decide (k < n)%nat) as [Hkn|Hkn]; [left|right].
  { apply list_elem_of_lookup_2 with k. by rewrite lookup_take_lt. }
  exists (k - n)%nat. assert (k < length (waiting st))%nat by by eapply lookup_lt_Some.
  split; [|split].
  - cbn [waiting]. rewrite lookup_drop. by replace (n + (k - n))%nat with k by lia.
  - pose proof (fresh_fill now last (take n (waiting st)) fl (list_to_set (drop n (waiting st))) (drop n (waiting st))) as Hf.
    rewrite length_take in Hf. set (ws := list_to_set _) in *.
    assert (fresh last (mkRequests fl (drop n (waiting st)) ws) ≤ fresh last st)%nat; [|lia].
    apply map_subseteq_size, map_filter_subseteq_mono, map_filter_subseteq.
  - intros Hold. assert (size fl ≤ fresh last st)%nat; [|lia].
    apply map_subseteq_size, map_filter_subseteq_ext. intros x t _ Ht%Is_true_true%Z.leb_le.
    unfold sat_sub in Ht. cbn [snd] in *. lia.
Qed.

Lemma promote_not_after st now last st' req :
  queue_ok st → now ≤ last → not_after last st → promote st now = (st', req) → not_after last st'.
Proof.
  intros Hq Hlast Hle. destruct (promote_spec st now Hq) as (-> & _). intros [= <- <-] h t. cbn [in_flight].
  rewrite fill_lookup. case_bool_decide; [by intros [= <-]|]. intros [Ht _]%map_lookup_filter_Some. by eapply Hle.
Qed.

(** New announcements do not overtake a hash that still waits. *)
Lemma admit_all_waiting now hs st req k h :
  full st → waiting st !! k = Some h →
  let acc := foldl (admit_one now) (st, req) hs in
  waiting acc.1 !! k = Some h ∧ in_flight acc.1 = in_flight st ∧ acc.2 = req.
Proof.
  revert st. induction hs as [|x hs IH]; intros st Hfull Hk acc; [done|]. subst acc. cbn [foldl].
  assert (waiting st ≠ []) as Hne by (intros E; by rewrite E in Hk).
  unfold admit_one at 2 4 6. rewrite (proj2 (Nat.ltb_ge _ _)) by (by rewrite Hfull).
  destruct (_ || _); [by apply IH|]. destruct (_ <? _)%nat; [|by apply IH].
  edestruct (IH (mkRequests (in_flight st) (waiting st ++ [x]) ({[x]} ∪ waiting_set st))) as (Hw & Hf & Hr).
  - intros _. by apply Hfull.
  - cbn [waiting]. by apply lookup_app_l_Some.
  - done.
Qed.
Lemma admit_all_not_after now last hs acc :
  now ≤ last → not_after last acc.1 → not_after last (foldl (admit_one now) acc hs).1.
Proof.
  intros Hlast. revert acc. induction hs as [|h hs IH]; intros [st req] Hle; [done|]. cbn [foldl]. apply IH. unfold admit_one.
  destruct (_ || _); [done|]. destruct (_ <? _)%nat; [|by destruct (_ <? _)%nat].
  intros x t. cbn [fst in_flight]. rewrite lookup_insert. case_decide; [by intros [= <-]|]. apply Hle.
Qed.

Lemma admit_all_requests now hs acc h : h ∈ acc.2 → h ∈ (foldl (admit_one now) acc hs).2.
Proof.
  revert acc. induction hs as [|x hs IH]; intros [st req] Hh; [done|]. cbn [foldl]. apply IH. unfold admit_one.
  destruct (_ || _); [done|]. destruct (_ <? _)%nat; [set_solver|]. by destruct (_ <? _)%nat.
Qed.

(** What an admission has achieved so far, against the requests [fl] that were
    still alive when it began. *)
Definition requested_once (now : Instant) (fl : gmap Hash Instant) (acc : PeerTxRequests * list Hash) : Prop :=
  fl ⊆ in_flight acc.1 ∧ NoDup acc.2 ∧ ∀ h, h ∈ acc.2 → in_flight acc.1 !! h = Some now ∧ fl !! h = None.
Definition settled (st : PeerTxRequests) (h : Hash) : Prop :=
  is_Some (in_flight st !! h) ∨ h ∈ waiting st ∨ length (waiting st) = MAX_PEER_ANNOUNCEMENTS.

Lemma promote_requests st now :
  queue_ok st → requested_once now (filter (λ kv, alive now kv.2) (in_flight st)) (promote st now).
Proof.
  intros Hq. destruct (promote_spec st now Hq) as (-> & _ & Hno). set (fl := filter _ _) in *. set (n := (_ - _)%nat).
  pose proof (q_nodup _ Hq) as (Hn & _ & _)%(NoDup_split n). split; [|split; [done|]].
  - apply map_subseteq_spec. intros x t Hx. cbn [fst in_flight]. rewrite fill_lookup, bool_decide_eq_false_2; [done|].
    intros Hx'. rewrite Hno in Hx; [done|]. by apply (elem_of_split n); left.
  - intros h Hh. cbn [fst in_flight]. rewrite fill_lookup, bool_decide_eq_true_2 by done. split; [done|].
    by apply Hno, (elem_of_split n); left.
Qed.
Lemma admit_one_requests now fl acc x :
  peer_ok acc.1 → requested_once now fl acc →
  let acc' := admit_one now acc x in
  requested_once now fl acc' ∧ settled acc'.1 x ∧ ∀ h, settled acc.1 h → settled acc'.1 h.
Proof.
  destruct acc as [st req]. intros [[_ Hlen _ Hset _] _] (Hsub & Hnd & Hin). cbn [fst snd] in *. unfold admit_one.
  destruct (_ || _) eqn:E.
  { split; [by split|split; [|done]]. apply orb_true_iff in E as [E%bool_decide_eq_true|E%bool_decide_eq_true]; [by left|].
    right; left. by rewrite Hset, elem_of_list_to_set in E. }
  apply orb_false_iff in E as [E%bool_decide_eq_false _]. apply eq_None_not_Some in E.
  destruct (_ <? _)%nat; [|destruct (Nat.ltb_spec (length (waiting st)) MAX_PEER_ANNOUNCEMENTS)].
  - split; [split; [|split]|split]; cbn [fst snd in_flight].
    + by apply insert_subseteq_r; [eapply lookup_weaken_None|].
    + apply NoDup_app. split; [done|]. split; [|apply NoDup_singleton].
      intros h Hh Heq%list_elem_of_singleton. subst h. apply Hin in Hh as [Hh _]. by rewrite E in Hh.
    + intros h [Hh|Hh%list_elem_of_singleton]%elem_of_app; [|subst h].
      * destruct (Hin h Hh) as [Hf Hn]. split; [|done]. rewrite lookup_insert. by case_decide.
      * rewrite lookup_insert_eq. split; [done|]. by eapply lookup_weaken_None.
    + left. cbn [fst in_flight]. by rewrite lookup_insert_eq.
    + intros h [Hh|Hh]; [left|by right]. cbn [fst in_flight]. rewrite lookup_insert. by case_decide.
  - split; [by split|]. unfold settled. cbn [fst in_flight waiting]. split; [right; left; set_solver|].
    intros h [Hh|[Hh|Hh]]; [by left|right; left; set_solver|lia].
  - split; [by split|]. split; [right; right; cbn [fst]; lia|done].
Qed.
Lemma admit_all_settled now fl hs acc :
  peer_ok acc.1 → requested_once now fl acc →
  let acc' := foldl (admit_one now) acc hs in
  requested_once now fl acc' ∧ (∀ h, h ∈ hs → settled acc'.1 h) ∧ ∀ h, settled acc.1 h → settled acc'.1 h.
Proof.
  revert acc. induction hs as [|x hs IH]; intros acc Hok Hr; cbn [foldl]; [by split; [|split; [by intros ? ?%elem_of_nil|]]|].
  destruct (admit_one_requests now fl acc x Hok Hr) as (Hr' & Hx & Hs).
  assert (peer_ok (admit_one now acc x).1) as Hok' by (destruct acc; by apply admit_one_ok).
  destruct (IH _ Hok' Hr') as (? & Ha & Hm). split_and!; [done| |by auto].
  intros h [->|Hh]%elem_of_cons; auto.
Qed.

(** ** The tracker *)

Section Runs.
Context {Addr : Type} `{Countable Addr}.
Abbreviation TxRequestTracker := (gmap Addr PeerTxRequests).

Definition tracker_ok (peers : TxRequestTracker) : Prop :=
  ∀ peer st, peers !! peer = Some st → peer_ok st ∧ in_flight st ≠ ∅.

(** The tracker after some calls, and what the calls for [peer] returned. *)
Fixpoint run_calls (tr : list call) (peers : TxRequestTracker) : TxRequestTracker :=
  match tr with [] => peers | c :: tr' => run_calls tr' (do_call c peers).1 end.
Fixpoint requests (peer : Addr) (tr : list call) (peers : TxRequestTracker) : list Hash :=
  match tr with
  | [] => []
  | c :: tr' => (if decide (call_peer c = peer) then (do_call c peers).2 else []) ++ requests peer tr' (do_call c peers).1
  end.

Lemma is_idle_spec st : is_idle st = true ↔ in_flight st = ∅ ∧ waiting st = [].
Proof.
  unfold is_idle. rewrite andb_true_iff, !Nat.eqb_eq, map_size_empty_iff.
  by rewrite length_zero_iff_nil.
Qed.
Lemma put_peer_ok peer st (peers : TxRequestTracker) :
  tracker_ok peers → peer_ok st → tracker_ok (put_peer peer st peers).
Proof.
  intros Hok Hst q st'. unfold put_peer. destruct (is_idle st) eqn:E.
  - rewrite lookup_delete_Some. intros [_ Hq]. by eapply Hok.
  - rewrite lookup_insert. case_decide; [|by apply Hok]. intros [= <-]. split; [done|]. intros Hf.
    destruct Hst as [_ Hfull]. apply not_true_iff_false in E. apply E, is_idle_spec. split; [done|].
    destruct (waiting st) eqn:Ew; [done|]. unfold full in Hfull. rewrite Ew, Hf, map_size_empty in Hfull.
    by specialize (Hfull ltac:(done)).
Qed.
Lemma lookup_put_peer_ne peer q st (peers : TxRequestTracker) :
  peer ≠ q → put_peer peer st peers !! q = peers !! q.
Proof. intros. unfold put_peer. case_match; by simplify_map_eq. Qed.

Lemma do_call_ok c (peers : TxRequestTracker) : tracker_ok peers → tracker_ok (do_call c peers).1.
Proof.
  intros Hok. destruct c as [peer hashes now|peer hash now|peer now]; cbn [do_call].
  - unfold admit_announced. destruct (foldl _ _ _) as [st req] eqn:E. apply put_peer_ok; [done|].
    change st with (st, req).1. rewrite <-E. apply admit_all_ok, promote_ok.
    destruct (peers !! peer) as [st0|] eqn:Ep; [by apply (Hok peer)|apply no_requests_ok].
  - unfold complete. destruct (peers !! peer) as [st0|] eqn:Ep; [|done].
    destruct (promote _ now) as [st req] eqn:E. apply put_peer_ok; [done|].
    change st with (st, req).1. rewrite <-E. apply promote_ok, queue_ok_delete. by apply (Hok peer).
  - intros q st. unfold forget_peer. cbn [fst]. rewrite lookup_delete_Some. intros [_ Hq]. by eapply Hok.
Qed.
Lemma run_calls_ok tr (peers : TxRequestTracker) : tracker_ok peers → tracker_ok (run_calls tr peers).
Proof. revert peers. induction tr as [|c tr IH]; intros peers Hok; [done|]. by apply IH, do_call_ok. Qed.

Definition is_forget (c : call (Addr := Addr)) : bool := match c with Forgotten _ _ => true | _ => false end.

Lemma lookup_put_peer_waiting peer st k h (peers : TxRequestTracker) :
  waiting st !! k = Some h → put_peer peer st peers !! peer = Some st.
Proof.
  intros Hk. unfold put_peer. destruct (is_idle st) eqn:E; [|by simplify_map_eq].
  apply is_idle_spec in E as [_ E]. by rewrite E in Hk.
Qed.

(** One call for the peer of a waiting hash. *)
Lemma call_progress c (peers : TxRequestTracker) st h k last :
  tracker_ok peers → peers !! call_peer c = Some st → waiting st !! k = Some h → is_forget c = false →
  not_after (call_time c) st →
  h ∈ (do_call c peers).2 ∨
  ∃ st' k', (do_call c peers).1 !! call_peer c = Some st' ∧ waiting st' !! k' = Some h ∧
            not_after (call_time c) st' ∧ (k' + fresh last st' ≤ k + fresh last st)%nat ∧
            ((last + REQUEST_LIFETIME < call_time c)%Z → k' + MAX_PEER_IN_FLIGHT ≤ k + fresh last st)%nat.
Proof.
  intros Hok Hst Hk Hc Hle. destruct (Hok _ _ Hst) as [[Hq _] _].
  destruct c as [peer hashes now|peer hash now|]; [| |done]; cbn [call_peer call_time do_call] in *.
  - unfold admit_announced. rewrite Hst. change (default no_requests (Some st)) with st.
    destruct (promote st now) as [st1 req1] eqn:Ep.
    pose proof (admit_all_not_after now now hashes (st1, req1) (Z.le_refl _) (promote_not_after _ _ _ _ _ Hq (Z.le_refl _) Hle Ep)) as Hle'.
    pose proof (promote_ok st now Hq) as [_ Hfull]. rewrite Ep in Hfull. cbn [fst] in Hfull.
    destruct (promote_progress st now last h k st1 req1 Hq Hk Ep) as [Hin|(k' & Hk' & H1 & H2)].
    + left. pose proof (admit_all_requests now hashes (st1, req1)) as Hr. by destruct (foldl _ _ _); apply Hr.
    + right. destruct (admit_all_waiting now hashes st1 req1 k' h Hfull Hk') as (Hw & Hf & Hr).
      destruct (foldl _ _ _) as [st' req']. cbn [fst snd] in *. exists st', k'.
      rewrite (lookup_put_peer_waiting _ _ k' h) by done. unfold fresh in *. rewrite Hf. naive_solver.
  - unfold complete. rewrite Hst. apply (queue_ok_delete _ hash) in Hq. set (st0 := mkRequests _ _ _) in *.
    destruct (promote st0 now) as [st1 req1] eqn:Ep. cbn [fst snd].
    assert (in_flight st0 ⊆ in_flight st) as Hsub by apply delete_subseteq.
    assert (not_after now st0) as Hle0. { intros x t Ht. eapply Hle, lookup_weaken; done. }
    assert (fresh last st0 ≤ fresh last st)%nat by by apply map_subseteq_size, map_filter_subseteq_mono.
    destruct (promote_progress st0 now last h k st1 req1 Hq Hk Ep) as [Hin|(k' & Hk' & H1 & H2)]; [by left|right].
    exists st1, k'. rewrite (lookup_put_peer_waiting _ _ k' h) by done.
    split_and!; [done|done|by eapply promote_not_after; [exact Hq| |exact Hle0|exact Ep]|lia|]. intros Hold%H2. lia.
Qed.
Lemma call_other c q (peers : TxRequestTracker) : call_peer c ≠ q → (do_call c peers).1 !! q = peers !! q.
Proof.
  intros Hne. destruct c as [peer hashes now|peer hash now|peer now]; cbn [call_peer do_call] in *.
  - unfold admit_announced. destruct (foldl _ _ _). by apply lookup_put_peer_ne.
  - unfold complete. destruct (peers !! peer); [|done]. destruct (promote _ _). by apply lookup_put_peer_ne.
  - by apply lookup_delete_ne.
Qed.

(** The times of the calls do not go back. *)
Fixpoint timely (now : Instant) (tr : list (call (Addr := Addr))) : Prop :=
  match tr with [] => True | c :: tr' => now ≤ call_time c ∧ timely (call_time c) tr' end.
(** How often the peer is called more than a lifetime after the last time this
    was counted. *)
Fixpoint rounds (peer : Addr) (last : Instant) (tr : list call) : nat :=
  match tr with
  | [] => 0
  | c :: tr' =>
      if decide (call_peer c = peer ∧ last + REQUEST_LIFETIME < call_time c)
      then S (rounds peer (call_time c) tr') else rounds peer last tr'
  end.

Lemma waiting_is_requested peer tr now last (peers : TxRequestTracker) st h k :
  tracker_ok peers → peers !! peer = Some st → waiting st !! k = Some h → not_after now st →
  timely now tr → Forall (λ c, call_peer c = peer → is_forget c = false) tr →
  (k + fresh last st < MAX_PEER_IN_FLIGHT * rounds peer last tr)%nat →
  h ∈ requests peer tr peers.
Proof.
  revert now last peers st k. induction tr as [|c tr IH]; intros now last peers st k Hok Hst Hk Hle Ht Hf Hlt; [cbn in Hlt; lia|].
  destruct Ht as [Hnow Ht]. apply Forall_cons in Hf as [Hc Hf]. cbn [rounds requests] in *. apply elem_of_app.
  pose proof (do_call_ok c peers Hok) as Hok'.
  assert (not_after (call_time c) st) as Hle' by (intros x t Hx%Hle; lia).
  destruct (decide (call_peer c = peer)) as [Heq|Hne].
  - rewrite <-Heq in Hst. destruct (call_progress c peers st h k last) as [Hin|(st' & k' & Hst' & Hk' & Hle2 & H1 & H2)]; auto.
    right. rewrite Heq in Hst'. destruct (decide _) as [[_ Hold]|Hno].
    + eapply (IH (call_time c) (call_time c)); eauto. rewrite (fresh_none _ _ Hle2). specialize (H2 Hold). lia.
    + eapply (IH (call_time c) last); eauto. lia.
  - right. rewrite decide_False in Hlt by tauto.
    eapply (IH (call_time c) last); eauto. by rewrite call_other.
Qed.

Lemma do_call_not_after last c (peers : TxRequestTracker) :
  tracker_ok peers → call_time c ≤ last → map_Forall (λ _, not_after last) peers →
  map_Forall (λ _, not_after last) (do_call c peers).1.
Proof.
  intros Hok Hc Hall. destruct (decide (is_forget c = true)) as [Hf|Hf].
  { destruct c; try done. cbn [do_call fst]. by apply map_Forall_delete. }
  assert (∀ peer st, not_after last st → map_Forall (λ _, not_after last) (put_peer peer st peers)) as Hput.
  { intros peer st Hst. unfold put_peer. destruct (is_idle st); [by apply map_Forall_delete|by apply map_Forall_insert_2]. }
  destruct c as [peer hashes now|peer hash now|]; [| |done]; cbn [call_time do_call] in *.
  - unfold admit_announced. destruct (promote _ now) as [st1 req1] eqn:Ep.
    pose proof (admit_all_not_after now last hashes (st1, req1) Hc) as Ha. destruct (foldl _ _ _). apply Hput, Ha.
    destruct (peers !! peer) as [st|] eqn:E; eapply promote_not_after; eauto.
    + by apply (Hok peer).
    + apply no_requests_ok.
    + intros h t Ht. change (in_flight (default no_requests None)) with (∅ : gmap Hash Instant) in Ht.
      by rewrite lookup_empty in Ht.
  - unfold complete. destruct (peers !! peer) as [st|] eqn:E; [|done]. destruct (promote _ now) as [st1 req1] eqn:Ep.
    apply Hput. eapply promote_not_after; [|exact Hc| |exact Ep].
    + apply queue_ok_delete. by apply (Hok peer).
    + intros h t. cbn [in_flight]. intros [_ Ht]%lookup_delete_Some. by eapply (Hall _ _ E).
Qed.
Lemma run_calls_not_after last tr (peers : TxRequestTracker) :
  tracker_ok peers → Forall (λ c, call_time c ≤ last) tr → map_Forall (λ _, not_after last) peers →
  map_Forall (λ _, not_after last) (run_calls tr peers).
Proof.
  revert peers. induction tr as [|c tr IH]; intros peers Hok Htr Hall; [done|].
  apply Forall_cons in Htr as [Hc Htr]. apply IH; [by apply do_call_ok|done|by apply do_call_not_after].
Qed.
Lemma tracker_ok_empty : tracker_ok ∅.
Proof. intros peer st Hst. by rewrite lookup_empty in Hst. Qed.

(** [C31] The tracker is well formed after every sequence of calls: no peer
    has more than 100 requests in flight or 5,000 hashes waiting, the waiting
    hashes are distinct, are the waiting set and are not in flight, a hash
    waits only while all 100 places are taken, and no idle peer is kept. *)
Theorem tracker_well_formed tr peer st :
  run_calls tr ∅ !! peer = Some st → peer_ok st ∧ in_flight st ≠ ∅.
Proof. apply run_calls_ok, tracker_ok_empty. Qed.

(** [C32] A waiting hash is requested.  Whatever calls come for whatever
    peers, once its own peer, not forgotten, has been called more often than
    its position divided by 100, each time more than a lifetime after the time
    before, one of the calls has returned it. *)
Theorem waiting_hash_requested tr1 tr2 peer last st h k :
  run_calls tr1 ∅ !! peer = Some st → waiting st !! k = Some h →
  Forall (λ c, call_time c ≤ last) tr1 → timely last tr2 →
  Forall (λ c, call_peer c = peer → is_forget c = false) tr2 →
  (k < MAX_PEER_IN_FLIGHT * rounds peer last tr2)%nat →
  h ∈ requests peer tr2 (run_calls tr1 ∅).
Proof.
  intros Hst Hk H1 H2 Hf Hlt.
  assert (not_after last st) as Hle.
  { by apply (run_calls_not_after last tr1 ∅ tracker_ok_empty H1 (map_Forall_empty _) peer st). }
  eapply (waiting_is_requested peer tr2 last last); eauto; [by apply run_calls_ok, tracker_ok_empty|].
  by rewrite (fresh_none _ _ Hle), Nat.add_0_r.
Qed.

(** The outcome of an announcement: every announced hash is in flight
    or waits, unless 5,000 hashes wait; the hashes to request are distinct, are
    in flight since this call, and none of them was in flight and alive. *)
Theorem announced_outcome tr peer hashes now peers' req :
  let peers := run_calls tr ∅ in
  admit_announced peer hashes now peers = (peers', req) →
  NoDup req ∧
  (∀ h, h ∈ hashes → contains peer h peers' = true ∨ h ∈ from_option waiting [] (peers' !! peer) ∨
                     waiting_len peer peers' = MAX_PEER_ANNOUNCEMENTS) ∧
  (∀ h, h ∈ req → contains peer h peers' = true ∧
                  ∀ st t, peers !! peer = Some st → in_flight st !! h = Some t → alive now t = false).
Proof.
  intros peers. set (st0 := default no_requests (peers !! peer)).
  assert (queue_ok st0) as Hq.
  { subst st0. destruct (peers !! peer) as [st|] eqn:E; [|apply no_requests_ok].
    by apply (run_calls_ok tr ∅ tracker_ok_empty peer st E). }
  unfold admit_announced. fold st0.
  destruct (admit_all_settled now _ hashes _ (promote_ok st0 now Hq) (promote_requests st0 now Hq)) as ((_ & Hnd & Hin) & Hs & _).
  destruct (foldl _ _ _) as [st req'] eqn:E. cbn [fst snd] in *. intros [= <- <-].
  assert (∀ h, settled st h → put_peer peer st peers !! peer = Some st) as Hput.
  { intros h Hh. unfold put_peer. destruct (is_idle st) eqn:Ei; [exfalso|by rewrite lookup_insert_eq].
    apply is_idle_spec in Ei as [Ei Ew]. unfold settled in Hh. rewrite Ei, Ew, lookup_empty in Hh.
    destruct Hh as [[? ?]|[?%elem_of_nil|?]]; done. }
  split; [done|]. split.
  - intros h Hh%Hs. unfold contains, waiting_len. rewrite (Hput h Hh). cbn [from_option].
    destruct Hh as [Hh|Hh]; [left; by apply bool_decide_eq_true|by right].
  - intros h Hh. destruct (Hin h Hh) as [Hf Hn]. assert (settled st h) as Hh' by (left; by rewrite Hf).
    unfold contains. rewrite (Hput h Hh'). cbn [from_option]. rewrite Hf. split; [done|].
    intros st1 t Hst1 Ht. subst st0. rewrite Hst1 in Hn. apply map_lookup_filter_None in Hn as [Hn|Hn].
    + by rewrite (Hn : in_flight st1 !! h = None) in Ht.
    + specialize (Hn t Ht). cbn [snd] in Hn. by destruct (alive now t).
Qed.
End Runs.

(** ** A concrete peer *)

Module TrackerWitness.
Definition hash_at (n : nat) : Hash := to_be 32 (Z.of_nat n).
Definition announced : list Hash := hash_at <$> seq 0 102.
Definition later : list (call (Addr := nat)) :=
  [Announced 2%nat [] 5; Completed 1%nat (hash_at 200) (REQUEST_LIFETIME + 1)].
Abbreviation tracker := (run_calls [Announced 1%nat announced 0] ∅).

(** What the calls lead to, computed once. *)
Lemma tracker_lookup :
  ∃ st, tracker !! 1%nat = Some st ∧ size (in_flight st) = 100%nat ∧ waiting st !! 1%nat = Some (hash_at 101).
Proof.
  assert (from_option (λ st, (size (in_flight st) =? 100)%nat && bool_decide (waiting st !! 1%nat = Some (hash_at 101)))
            false (tracker !! 1%nat) = true) as Hs by by vm_compute.
  revert Hs. generalize (tracker !! 1%nat). intros [st|] Hs; [|done]. cbn [from_option] in Hs.
  apply andb_true_iff in Hs as [H1%Nat.eqb_eq H2%bool_decide_eq_true]. by exists st.
Qed.
Lemma tracker_well_formed_witness : ∃ st, size (in_flight st) = 100%nat ∧ peer_ok st.
Proof.
  destruct tracker_lookup as (st & Hst & Hsz & _). exists st. split; [done|].
  apply (tracker_well_formed [Announced 1%nat announced 0] 1%nat st Hst).
Defined.
Lemma waiting_hash_requested_witness : hash_at 101 ∈ requests 1%nat later tracker.
Proof.
  destruct tracker_lookup as (st & Hst & _ & Hk).
  apply (waiting_hash_requested [Announced 1%nat announced 0] later 1%nat 0 st (hash_at 101) 1 Hst Hk).
  - apply Forall_singleton. apply Z.le_refl.
  - split; [apply Z.leb_le; by vm_compute|]. split; [apply Z.leb_le; by vm_compute|done].
  - by apply Forall_cons; split; [|apply Forall_singleton].
  - apply Nat.ltb_lt. by vm_compute.
Defined.
Lemma announced_outcome_witness :
  contains 1%nat (hash_at 7) (admit_announced 1%nat [hash_at 7] 1 tracker).1 = true ∧
  NoDup (admit_announced 1%nat [hash_at 7] 1 tracker).2.
Proof.
  split; [by vm_compute|].
  apply (announced_outcome [Announced 1%nat announced 0] 1%nat [hash_at 7] 1 _ _ (surjective_pairing _)).
Defined.
End TrackerWitness.
