(* ===== verification/IbdRun.v ===== *)
(** * IbdRun: sorted runs of coin events

    [storage/ibd_engine/types.rs] and [memory_run.rs]: while the node downloads
    blocks, the creation and the spending of every coin is an event in a sorted
    run.  A frozen run carries a Bloom filter and a prefix directory in front of
    a binary search; runs are merged, and a merge drops the events of coins
    that were spent.  The file models runs with their accelerators and their
    merge, and proves the accelerated lookup equal to a linear scan. *)

From S2P Require Import Prelude Bytes.
From stdpp Require Import sorting.
Open Scope Z_scope.

(** ** Entries and their order *)

(** [op] is 0 for an added and -1 for a deleted coin. *)
Record OutputKV := mkKV { key : bytes; kv_height : Z; op : Z; id : Z }.
#[export] Instance kv_eq_dec : EqDecision OutputKV.
Proof. solve_decision. Defined.

Definition is_add (e : OutputKV) : bool := op e =? 0.
Definition is_delete (e : OutputKV) : bool := op e =? -1.

(** Byte arrays compare lexicographically. *)
Fixpoint bytes_cmp (a b : bytes) : comparison :=
  match a, b with
  | [], [] => Eq
  | [], _ => Lt
  | _, [] => Gt
  | x :: a', y :: b' => match b2z x ?= b2z y with Eq => bytes_cmp a' b' | c => c end
  end.
Definition kv_cmp (a b : OutputKV) : comparison :=
  match bytes_cmp (key a) (key b) with
  | Eq => match kv_height b ?= kv_height a with Eq => op b ?= op a | c => c end
  | c => c
  end.
Definition kv_le (a b : OutputKV) : Prop := kv_cmp a b ≠ Gt.
#[export] Instance kv_le_dec : RelDecision kv_le.
Proof. intros a b. unfold kv_le. apply _. Defined.

(** [OutputId::MAX] and the marker of a coin that a run reports as spent. *)
Definition OUTPUT_ID_MAX : Z := 2 ^ 64 - 1.
Definition OUTPUT_ID_DELETED : Z := OUTPUT_ID_MAX - 1.

(** An item of the merge heap: the entry, its run and its index there. *)
Record HeapItem := mkItem { entry : OutputKV; run_idx : nat; entry_idx : nat }.

(** Functions of the standard library whose result is only specified up to the
    order of equal entries: sorting, the binary search for the first entry that
    fails a predicate, and taking a greatest item from a heap, kept as a list. *)
Class SliceOps := {
  sort_unstable : list OutputKV → list OutputKV;
  partition_point : (OutputKV → bool) → list OutputKV → nat;
  heap_pop : list HeapItem → option (HeapItem * list HeapItem);
}.
Class SliceLaws (SO : SliceOps) := {
  sort_perm : ∀ l, sort_unstable l ≡ₚ l;
  sort_sorted : ∀ l, StronglySorted kv_le (sort_unstable l);
  partition_point_spec : ∀ p l1 l2,
    Forall (λ e, p e = true) l1 → Forall (λ e, p e = false) l2 → partition_point p (l1 ++ l2) = length l1;
  heap_pop_none : ∀ h, heap_pop h = None → h = [];
  heap_pop_some : ∀ h i h', heap_pop h = Some (i, h') →
    h ≡ₚ i :: h' ∧ Forall (λ j, kv_le (entry i) (entry j)) h';
}.

Definition PANIC_INDEX : string := "index out of bounds".

(** ** The directory *)

Definition key_prefix (k : bytes) (bits : Z) : Z := Z.shiftr (of_be (take 4 k)) (32 - bits).

(** [limit] is the ceiling read from the environment, between 4 and 28. *)
Definition directory_prefix_bits (limit entry_count : Z) : Z :=
  if entry_count <=? 128 then 4
  else Z.min (Z.max (Z.log2 (Z.max (entry_count / 85) 1) + 1) 4) limit.

Record Directory := mkDirectory { buckets : list Z; prefix_bits : Z }.

(** The second scan of [build]; the first one fills a vector nobody reads.
    [cur] buckets have their start, [i] entries are behind. *)
Fixpoint bucket_starts (bits : Z) (entries : list OutputKV) (i cur : nat) : list Z :=
  match entries with
  | [] => replicate (S (Z.to_nat (2 ^ bits)) - cur) (as_u32 (Z.of_nat i))
  | kv :: rest =>
      let prefix := Z.to_nat (key_prefix (key kv) bits) in
      replicate (S prefix - cur) (as_u32 (Z.of_nat i)) ++ bucket_starts bits rest (S i) (Nat.max cur (S prefix))
  end.
Definition directory_build (limit : Z) (entries : list OutputKV) : Directory :=
  match entries with
  | [] => mkDirectory [0; 0] 1
  | _ => let bits := directory_prefix_bits limit (Z.of_nat (length entries)) in
         mkDirectory (bucket_starts bits entries 0 0) bits
  end.
Definition lookup_range (d : Directory) (k : bytes) : result (nat * nat) :=
  let prefix := Z.to_nat (key_prefix k (prefix_bits d)) in
  let+ lo := of_option PANIC_INDEX (buckets d !! prefix) in
  let+ hi := of_option PANIC_INDEX (buckets d !! S prefix) in
  Ok (Z.to_nat lo, Z.to_nat hi).

(** ** The Bloom filter *)

Record BloomFilter := mkBloom { data : list Z; num_blocks : Z }.
(** Eight words per block; the golden ratio as a 64-bit fraction. *)
Abbreviation BLOOM_WORDS_PER_BLOCK := 8 (only parsing).
Abbreviation GOLDEN_RATIO_64 := 0x9e3779b97f4a7c15 (only parsing).

(** [u64::rotate_left]; a right rotation by [n] is a left one by [64 - n]. *)
Definition rotate_left (x n : Z) : Z := Z.lor (as_u64 (Z.shiftl x n)) (Z.shiftr x (64 - n)).

Definition fmix (x : Z) : Z :=
  let x := Z.lxor x (Z.shiftr x 33) in
  let x := as_u64 (x * 0xff51afd7ed558ccd) in
  let x := Z.lxor x (Z.shiftr x 33) in
  let x := as_u64 (x * 0xc4ceb9fe1a85ec53) in
  Z.lxor x (Z.shiftr x 33).
Definition hash_key (k : bytes) (blocks : Z) : Z * Z :=
  let r0 := of_le (slice 0 8 k) in
  let r1 := of_le (slice 8 8 k) in
  let r2 := of_le (slice 16 8 k) in
  let r3 := of_le (slice 24 8 k) in
  let r4 := of_le (slice 32 4 k) in
  let acc := as_u64 (r0 + rotate_left r1 17) in
  let acc := as_u64 (acc + rotate_left r2 53) in
  let acc := as_u64 (acc + rotate_left r3 29) in
  let acc := as_u64 (acc + as_u64 (r4 * GOLDEN_RATIO_64)) in
  (fmix acc mod blocks, fmix (as_u64 (acc + GOLDEN_RATIO_64))).

(** The word and the bit in it of one probe. *)
Definition probe_at (block_idx word_bits probe : Z) : nat * Z :=
  let bit := Z.land (Z.shiftr word_bits (probe * 9)) 0x1FF in
  (Z.to_nat (block_idx * BLOOM_WORDS_PER_BLOCK + (bit / 64) mod BLOOM_WORDS_PER_BLOCK), bit mod 64).
Abbreviation probes := [0; 1; 2; 3; 4; 5; 6].

Definition bloom_insert (blocks : Z) (words : list Z) (k : bytes) : list Z :=
  let '(block_idx, word_bits) := hash_key k blocks in
  foldl (λ words at_, alter (λ w, Z.lor w (Z.shiftl 1 at_.2)) at_.1 words) words
    (probe_at block_idx word_bits <$> probes).
Definition bloom_build (entries : list OutputKV) : BloomFilter :=
  match entries with
  | [] => mkBloom (replicate 8 0) 1
  | _ => let blocks := Z.max ((Z.of_nat (length entries) * 12 + 511) / 512) 1 in
         mkBloom (foldl (λ words kv, bloom_insert blocks words (key kv))
                    (replicate (Z.to_nat (blocks * BLOOM_WORDS_PER_BLOCK)) 0) entries) blocks
  end.
Fixpoint probes_set (words : list Z) (block_idx word_bits : Z) (ps : list Z) : result bool :=
  match ps with
  | [] => Ok true
  | probe :: ps' =>
      let '(i, shift) := probe_at block_idx word_bits probe in
      let+ w := of_option PANIC_INDEX (words !! i) in
      if Z.land w (Z.shiftl 1 shift) =? 0 then Ok false else probes_set words block_idx word_bits ps'
  end.
Definition may_contain (f : BloomFilter) (k : bytes) : result bool :=
  let '(block_idx, word_bits) := hash_key k (num_blocks f) in probes_set (data f) block_idx word_bits probes.

(** ** Runs *)

(** The scratch vectors of the source are spare capacity, cleared before each
    use, and are left out. *)
Record MemoryRun := mkRun {
  entries : list OutputKV;
  height_range : Z * Z;
  directory : Directory;
  bloom : BloomFilter;
  is_mutable : bool;
}.

Definition I32_MIN : Z := - 2 ^ 31.
Definition I32_MAX : Z := 2 ^ 31 - 1.

Definition height_range_of (es : list OutputKV) : Z * Z :=
  match es with
  | [] => (I32_MAX, I32_MIN)
  | e :: rest => (foldl Z.min (kv_height e) (kv_height <$> rest), foldl Z.max (kv_height e) (kv_height <$> rest))
  end.

(** The merge loop of [merge_sorted_output_kvs] with its two tails. *)
Fixpoint merge_two (base : list OutputKV) : list OutputKV → list OutputKV :=
  fix go (batch : list OutputKV) :=
    match base, batch with
    | [], _ => batch
    | _, [] => base
    | b :: base', n :: batch' => if decide (kv_le b n) then b :: merge_two base' batch else n :: go batch'
    end.

(** [lookup_key] after the binary search: the entries of the key, newest first. *)
Fixpoint scan (k : bytes) (since before : Z) (es : list OutputKV) : option Z :=
  match es with
  | [] => None
  | e :: rest =>
      if negb (bool_decide (key e = k)) then None
      else if (kv_height e <? since) || (before <=? kv_height e) then scan k since before rest
      else if is_add e then
        match rest with
        | n :: rest' =>
            if bool_decide (key n = k) && (kv_height n =? kv_height e) && is_delete n
            then scan k since before rest' else Some (id e)
        | [] => Some (id e)
        end
      else if is_delete e then Some OUTPUT_ID_DELETED
      else scan k since before rest
  end.

(** The clean-up pass of [merge] on one entry: [gc] is the output so far, last
    entry first, [pending] the deletion that waits for its addition.  The fence
    is an atomic that is read anew for every pair: [fence d] is the value found
    when the deletion [d] meets its addition. *)
Definition gc_step (fence : OutputKV → Z) (st : list OutputKV * option OutputKV) (e : OutputKV) : list OutputKV * option OutputKV :=
  let '(gc, pending) := st in
  let '(gc, pending) :=
    match pending with
    | Some d => if bool_decide (key d = key e) then (gc, Some d) else (d :: gc, None)
    | None => (gc, None)
    end in
  if is_delete e then
    match gc with
    | last :: gc' =>
        if bool_decide (key last = key e) && (kv_height last =? kv_height e) && is_add last
        then (gc', pending) else (gc, Some e)
    | [] => (gc, Some e)
    end
  else
    match pending with
    | Some d =>
        if bool_decide (key d = key e) && (kv_height e <? kv_height d)
        then if kv_height d <=? fence d then (gc, None) else (e :: d :: gc, None)
        else (e :: d :: gc, None)
    | None => (e :: gc, None)
    end.
Definition gc_pass (fence : OutputKV → Z) (merged : list OutputKV) : list OutputKV :=
  let '(gc, pending) := foldl (gc_step fence) ([], None) merged in
  reverse gc ++ match pending with Some d => [d] | None => [] end.

Section Run.
Context {SO : SliceOps}.
(** The ceiling on the prefix bits. *)
Context (limit : Z).

Definition build_presorted (es : list OutputKV) : MemoryRun :=
  mkRun es (height_range_of es) (directory_build limit es) (bloom_build es) false.
Definition run_build (es : list OutputKV) : MemoryRun := build_presorted (sort_unstable es).
Definition new_mutable : MemoryRun := mkRun [] (I32_MAX, I32_MIN) (directory_build limit []) (bloom_build []) true.

Definition append_and_rebuild (new_entries : list OutputKV) (r : MemoryRun) : MemoryRun :=
  match new_entries with
  | [] => r
  | _ =>
      let es := match entries r with
                | [] => sort_unstable new_entries
                | base => merge_two base (sort_unstable new_entries)
                end in
      mkRun es (height_range_of es) (directory r) (bloom r) (is_mutable r)
  end.
Definition freeze (r : MemoryRun) : MemoryRun :=
  mkRun (entries r) (height_range r) (directory_build limit (entries r)) (bloom_build (entries r)) false.
Definition run_erase_since (since : Z) (r : MemoryRun) : MemoryRun :=
  let es := filter (λ e, kv_height e < since) (entries r) in
  mkRun es (height_range_of es) (directory_build limit es) (bloom_build es) (is_mutable r).

(** [&entries[lo..hi]] *)
Definition sub_slice (lo hi : nat) (es : list OutputKV) : result (list OutputKV) :=
  if (hi <=? length es)%nat then Ok (take (hi - lo) (drop lo es)) else Err PANIC_INDEX.

Definition search (k : bytes) (since before : Z) (es : list OutputKV) : option Z :=
  scan k since before
    (drop (partition_point (λ e, match bytes_cmp (key e) k with Lt => true | _ => false end) es) es).

Definition lookup_key (r : MemoryRun) (k : bytes) (since before : Z) : result (option Z) :=
  if ((height_range r).2 <? since) || (before <=? (height_range r).1) then Ok None
  else if is_mutable r then Ok (search k since before (entries r))
  else
    let+ maybe := may_contain (bloom r) k in
    if negb maybe then Ok None
    else
      let+ range := lookup_range (directory r) k in
      let '(lo, hi) := range in
      if (hi <=? lo)%nat then Ok None
      else let+ es := sub_slice lo hi (entries r) in Ok (search k since before es).

(** [batch_lookup]: only keys still at [MAX] are looked up. *)
Fixpoint batch_lookup (r : MemoryRun) (keys : list bytes) (ids : list Z) (since before : Z) : result (list Z) :=
  match keys, ids with
  | k :: keys', i :: ids' =>
      let+ i' := (if i =? OUTPUT_ID_MAX
                  then let+ found := lookup_key r k since before in Ok (default i found) else Ok i) in
      let+ rest := batch_lookup r keys' ids' since before in Ok (i' :: rest)
  | _, _ => Ok ids
  end.

(** The merge of all runs through the heap; one round per entry. *)
Fixpoint merge_loop (inputs : list MemoryRun) (fuel : nat) (heap : list HeapItem) : list OutputKV :=
  match fuel with
  | O => []
  | S fuel' =>
      match heap_pop heap with
      | None => []
      | Some (item, heap') =>
          let next := S (entry_idx item) in
          let pushed := match inputs !! run_idx item ≫= λ r, entries r !! next with
                        | Some e => [mkItem e (run_idx item) next]
                        | None => []
                        end in
          entry item :: merge_loop inputs fuel' (pushed ++ heap')
      end
  end.
Fixpoint heads (ri : nat) (runs : list MemoryRun) : list HeapItem :=
  match runs with
  | [] => []
  | r :: runs' => match entries r with e :: _ => [mkItem e ri 0] | [] => [] end ++ heads (S ri) runs'
  end.
Definition run_merge (fence : OutputKV → Z) (inputs : list MemoryRun) : MemoryRun :=
  match inputs with
  | [] => run_build []
  | _ => build_presorted (gc_pass fence (merge_loop inputs (sum_list (length ∘ entries <$> inputs)) (heads 0 inputs)))
  end.
End Run.

(** ** The order *)

Lemma bytes_cmp_eq a b : bytes_cmp a b = Eq ↔ a = b.
Proof.
  revert b. induction a as [|x a IH]; intros [|y b]; try done. cbn [bytes_cmp].
  destruct (Z.compare_spec (b2z x) (b2z y)) as [E|E|E].
  - rewrite IH. apply b2z_inj in E as ->. naive_solver.
  - split; [done|]. intros [= -> ->]. lia.
  - split; [done|]. intros [= -> ->]. lia.
Qed.
Lemma bytes_cmp_refl a : bytes_cmp a a = Eq.
Proof. by apply bytes_cmp_eq. Qed.
Lemma bytes_cmp_opp a b : bytes_cmp b a = CompOpp (bytes_cmp a b).
Proof.
  revert b. induction a as [|x a IH]; intros [|y b]; try done. cbn [bytes_cmp].
  rewrite (Z.compare_antisym (b2z x) (b2z y)). destruct (b2z x ?= b2z y); [apply IH|done..].
Qed.
Lemma bytes_cmp_lt_trans a b c : bytes_cmp a b = Lt → bytes_cmp b c = Lt → bytes_cmp a c = Lt.
Proof.
  revert b c. induction a as [|x a IH]; intros [|y b] [|z c]; try done. cbn [bytes_cmp].
  destruct (Z.compare_spec (b2z x) (b2z y)), (Z.compare_spec (b2z y) (b2z z)),
    (Z.compare_spec (b2z x) (b2z z)); try done; try lia. eauto.
Qed.
Lemma bytes_cmp_take n a b : bytes_cmp a b ≠ Gt → bytes_cmp (take n a) (take n b) ≠ Gt.
Proof.
  revert a b. induction n as [|n IH]; intros [|x a] [|y b]; try done. cbn [bytes_cmp take].
  destruct (b2z x ?= b2z y); [apply IH|done..].
Qed.

Lemma lor_shiftl_add a b n : 0 ≤ n → 0 ≤ a < 2 ^ n → Z.lor a (Z.shiftl b n) = a + b * 2 ^ n.
Proof.
  intros Hn Ha. rewrite <-Z.shiftl_mul_pow2 by done. rewrite <-(Z.add_lor_land a).
  enough (Z.land a (Z.shiftl b n) = 0) as -> by lia. apply Z.bits_inj'. intros i Hi.
  rewrite Z.land_spec, Z.bits_0. destruct (Z.lt_ge_cases i n).
  - by rewrite (Z.shiftl_spec_low _ _ i), andb_false_r.
  - by rewrite <-(Z.mod_small a (2 ^ n)), Z.mod_pow2_bits_high.
Qed.
Lemma of_be_cons x a : of_be (x :: a) = b2z x * 2 ^ (8 * Z.of_nat (length a)) + of_be a.
Proof.
  pose proof (of_be_range a). unfold of_be, b2z in *. rewrite reverse_cons, LittleEndianList.le_combine_app.
  rewrite LittleEndianList.le_combine_1, (Z.mul_comm _ 8), length_reverse, lor_shiftl_add; lia.
Qed.
Lemma of_be_mono a b : length a = length b → bytes_cmp a b ≠ Gt → of_be a ≤ of_be b.
Proof.
  revert b. induction a as [|x a IH]; intros [|y b] Hl Hc; try done. injection Hl as Hl. cbn [bytes_cmp] in Hc.
  rewrite !of_be_cons, Hl. pose proof (of_be_range a) as Ha. pose proof (of_be_range b). rewrite Hl in Ha.
  destruct (Z.compare_spec (b2z x) (b2z y)) as [->|E|E]; [|nia|done]. specialize (IH b Hl Hc). lia.
Qed.
Lemma key_prefix_mono a b bits :
  length a = length b → bits ≤ 32 → bytes_cmp a b ≠ Gt → key_prefix a bits ≤ key_prefix b bits.
Proof.
  intros Hl Hb Hc. unfold key_prefix. rewrite !Z.shiftr_div_pow2 by lia. apply Z.div_le_mono; [lia|].
  apply of_be_mono; [by rewrite !length_take, Hl|by apply bytes_cmp_take].
Qed.
Lemma key_prefix_range k bits : length k = 36%nat → 0 ≤ bits ≤ 32 → 0 ≤ key_prefix k bits < 2 ^ bits.
Proof.
  intros Hk Hb. unfold key_prefix. pose proof (of_be_range (take 4 k)) as Hr. rewrite length_take, Hk in Hr.
  rewrite Z.shiftr_div_pow2 by lia. split; [apply Z.div_pos; lia|].
  apply Z.div_lt_upper_bound; [lia|]. rewrite <-Z.pow_add_r by lia.
  replace (32 - bits + bits) with 32 by lia. exact (proj2 Hr).
Qed.

Lemma kv_cmp_opp a b : kv_cmp b a = CompOpp (kv_cmp a b).
Proof.
  unfold kv_cmp. rewrite (bytes_cmp_opp (key a)). destruct (bytes_cmp (key a) (key b)); [|done..]. cbn [CompOpp].
  rewrite (Z.compare_antisym (kv_height b) (kv_height a)). destruct (kv_height b ?= kv_height a); [|done..].
  apply Z.compare_antisym.
Qed.
#[export] Instance kv_le_total : Total kv_le.
Proof. intros a b. unfold kv_le. rewrite (kv_cmp_opp a b). destruct (kv_cmp a b); naive_solver. Qed.

(** The order written out. *)
Lemma kv_le_spec a b :
  kv_le a b ↔ bytes_cmp (key a) (key b) = Lt ∨
              key a = key b ∧ (kv_height b < kv_height a ∨ kv_height a = kv_height b ∧ op b ≤ op a).
Proof.
  unfold kv_le, kv_cmp. rewrite <-bytes_cmp_eq. destruct (bytes_cmp _ _); [|naive_solver..].
  destruct (Z.compare_spec (kv_height b) (kv_height a)); [|naive_solver lia..].
  destruct (Z.compare_spec (op b) (op a)); naive_solver lia.
Qed.
#[export] Instance kv_le_preorder : PreOrder kv_le.
Proof.
  split.
  - intros a. apply kv_le_spec. right. split; [done|]. lia.
  - intros a b c. rewrite !kv_le_spec. intros [H1|[H1 H2]] [H3|[H3 H4]].
    + left. by eapply bytes_cmp_lt_trans.
    + left. by rewrite <-H3.
    + left. by rewrite H1.
    + right. split; [by rewrite H1|]. lia.
Qed.
Lemma kv_le_key a b : kv_le a b → bytes_cmp (key a) (key b) ≠ Gt.
Proof. rewrite kv_le_spec. intros [->|[-> _]]; [done|]. by rewrite bytes_cmp_refl. Qed.

(** ** Searching a sorted slice *)

Abbreviation of_key k := (filter (λ e, key e = k)).

(** A list sorted by a monotone measure splits at a value of the measure. *)
Lemma sorted_split {A} (R : relation A) (f : A → Z) (v : Z) (l : list A) :
  (∀ a b, a ∈ l → b ∈ l → R a b → f a ≤ f b) → StronglySorted R l →
  ∃ l1 l2 l3, l = l1 ++ l2 ++ l3 ∧ Forall (λ e, f e < v) l1 ∧ Forall (λ e, f e = v) l2 ∧ Forall (λ e, v < f e) l3.
Proof.
  intros Hmono. induction 1 as [|a l Hs IH Ha]; [by exists [], [], []|].
  destruct IH as (l1 & l2 & l3 & -> & H1 & H2 & H3). { intros x y Hx Hy. apply Hmono; by right. }
  assert (∀ e, e ∈ l1 ++ l2 ++ l3 → f a ≤ f e) as Hle.
  { intros e He. apply Hmono; [left|by right|]. rewrite Forall_forall in Ha. by apply Ha. }
  destruct (Z.lt_trichotomy (f a) v) as [Hlt|[Heq|Hgt]].
  - exists (a :: l1), l2, l3. split_and!; [done|by constructor|done..].
  - assert (l1 = []) as ->.
    { destruct l1 as [|x l1]; [done|]. apply Forall_cons in H1 as [H1 _]. specialize (Hle x ltac:(left)). lia. }
    exists [], (a :: l2), l3. split_and!; [done..|by constructor|done].
  - assert (l1 = [] ∧ l2 = []) as [-> ->].
    { split.
      - destruct l1 as [|x l1]; [done|]. apply Forall_cons in H1 as [H1 _]. specialize (Hle x ltac:(left)). lia.
      - destruct l2 as [|x l2]; [done|]. apply Forall_cons in H2 as [H2 _].
        specialize (Hle x ltac:(apply elem_of_app; right; left)). lia. }
    exists [], [], (a :: l3). split_and!; [done..|by constructor].
Qed.

(** The position of a key relative to [k], as a number. *)
Definition side (k : bytes) (e : OutputKV) : Z := match bytes_cmp (key e) k with Lt => -1 | Eq => 0 | Gt => 1 end.
Lemma side_mono k a b : kv_le a b → side k a ≤ side k b.
Proof.
  intros Hle%kv_le_key. unfold side.
  destruct (bytes_cmp (key a) k) eqn:Ea, (bytes_cmp (key b) k) eqn:Eb; try lia; exfalso; apply Hle.
  - apply bytes_cmp_eq in Ea. rewrite Ea, bytes_cmp_opp, Eb. done.
  - apply bytes_cmp_eq in Eb. by rewrite Eb.
  - rewrite bytes_cmp_opp, (bytes_cmp_lt_trans (key b) k (key a)); [done|done|]. rewrite bytes_cmp_opp, Ea. done.
Qed.
Lemma side_eq k e : side k e = 0 ↔ key e = k.
Proof. unfold side. rewrite <-bytes_cmp_eq. by destruct (bytes_cmp _ _). Qed.

Lemma scan_stop k since before l1 l2 :
  Forall (λ e, key e = k) l1 → (∀ e, head l2 = Some e → key e ≠ k) →
  scan k since before (l1 ++ l2) = scan k since before l1.
Proof.
  intros H1 H2. assert (scan k since before l2 = None) as Hnone.
  { destruct l2 as [|e l2]; [done|]. cbn [scan]. by rewrite bool_decide_eq_false_2 by (by apply H2). }
  remember (length l1) as n eqn:Hn. revert l1 H1 Hn. induction (lt_wf n) as [n _ IH]. intros l1 H1 Hn.
  destruct l1 as [|e l1]; [done|]. apply Forall_cons in H1 as [He H1]. cbn [app scan].
  rewrite He, bool_decide_eq_true_2 by done. cbn [negb length] in *.
  assert (scan k since before (l1 ++ l2) = scan k since before l1) as IH1 by (eapply (IH (length l1)); [lia|done|done]).
  rewrite IH1. destruct (_ || _); [done|]. destruct (is_add e); [|done].
  destruct l1 as [|n1 l1]; cbn [app].
  - destruct l2 as [|e2 l2]; [done|]. rewrite bool_decide_eq_false_2 by (by apply H2). done.
  - apply Forall_cons in H1 as [_ H1]. cbn [length] in *.
    by rewrite (IH (length l1)) by (lia || done).
Qed.

Lemma filter_none {A} (P : A → Prop) `{!∀ x, Decision (P x)} (l : list A) : Forall (λ x, ¬ P x) l → filter P l = [].
Proof. induction 1 as [|x l Hx _ IH]; [done|]. by rewrite filter_cons_False. Qed.
Lemma filter_all {A} (P : A → Prop) `{!∀ x, Decision (P x)} (l : list A) : Forall P l → filter P l = l.
Proof. induction 1 as [|x l Hx _ IH]; [done|]. by rewrite filter_cons_True, IH. Qed.

Section Lookup.
Context {SO : SliceOps} `{!SliceLaws SO}.

Lemma search_spec k since before es :
  StronglySorted kv_le es → search k since before es = scan k since before (of_key k es).
Proof.
  intros Hs. destruct (sorted_split kv_le (side k) 0 es) as (l1 & l2 & l3 & -> & H1 & H2 & H3); [|done|].
  { intros a b _ _. apply side_mono. }
  unfold search. rewrite partition_point_spec, drop_app_length.
  - rewrite !filter_app, (filter_none _ l1), (filter_all _ l2), (filter_none _ l3), app_nil_r; cycle 1.
    + eapply Forall_impl; [exact H3|]. intros e; cbn beta; intros He Hk%side_eq; lia.
    + eapply Forall_impl; [exact H2|]. intros e. apply side_eq.
    + eapply Forall_impl; [exact H1|]. intros e; cbn beta; intros He Hk%side_eq; lia.
    + apply scan_stop; [eapply Forall_impl; [exact H2|]; intros e; apply side_eq|].
      intros e He Hk%side_eq. destruct l3; [done|]. injection He as ->. apply Forall_cons in H3 as [H3 _]. lia.
  - eapply Forall_impl; [exact H1|]. unfold side. intros e. cbn beta. by destruct (bytes_cmp _ _).
  - apply Forall_app. split; [eapply Forall_impl; [exact H2|]|eapply Forall_impl; [exact H3|]];
      unfold side; intros e; cbn beta; by destruct (bytes_cmp _ _).
Qed.
End Lookup.

(** ** The directory is exact *)

Section DirectoryFacts.
Context (bits : Z) (Hbits : 0 ≤ bits ≤ 32).

Abbreviation prefix_of e := (key_prefix (key e) bits).
Definition below (b : nat) (es : list OutputKV) : nat := length (filter (λ e, prefix_of e < Z.of_nat b) es).

Lemma bucket_starts_lookup es i cur b :
  Forall (λ e, 0 ≤ prefix_of e < 2 ^ bits ∧ (cur ≤ S (Z.to_nat (prefix_of e)))%nat) es →
  StronglySorted (λ a b, prefix_of a ≤ prefix_of b) es → (cur ≤ b ≤ Z.to_nat (2 ^ bits))%nat →
  bucket_starts bits es i cur !! (b - cur)%nat = Some (as_u32 (Z.of_nat (i + below b es))).
Proof.
  revert i cur. induction es as [|e es IH]; intros i cur Hall Hs Hb; cbn [bucket_starts].
  { rewrite lookup_replicate_2 by lia. unfold below. cbn. by rewrite Nat.add_0_r. }
  apply Forall_cons in Hall as [[He Hcur] Hall]. apply StronglySorted_inv in Hs as [Hs Hle].
  set (p := Z.to_nat (prefix_of e)) in *. rewrite (Nat.max_r cur (S p)) by lia.
  destruct (decide (b ≤ p)%nat) as [Hbp|Hbp].
  - rewrite lookup_app_l, lookup_replicate_2 by (rewrite ?length_replicate; lia).
    assert (below b (e :: es) = 0%nat) as ->; [|by rewrite Nat.add_0_r].
    unfold below. rewrite filter_none; [done|]. apply Forall_cons. split; [lia|].
    eapply Forall_impl; [exact Hle|]. cbn beta. lia.
  - rewrite lookup_app_r, length_replicate by (rewrite ?length_replicate; lia).
    replace (b - cur - (S p - cur))%nat with (b - S p)%nat by lia. rewrite IH; [|..].
    + f_equal. f_equal. f_equal. unfold below. rewrite filter_cons_True by lia. cbn [length]. lia.
    + apply Forall_forall. intros x Hx. rewrite Forall_forall in Hall, Hle.
      specialize (Hall x Hx). specialize (Hle x Hx). cbn beta in *. lia.
    + done.
    + lia.
Qed.

Lemma below_split p l1 l2 l3 :
  0 ≤ p → Forall (λ e, prefix_of e < p) l1 → Forall (λ e, prefix_of e = p) l2 → Forall (λ e, p < prefix_of e) l3 →
  below (Z.to_nat p) (l1 ++ l2 ++ l3) = length l1 ∧ below (S (Z.to_nat p)) (l1 ++ l2 ++ l3) = (length l1 + length l2)%nat.
Proof.
  intros Hp H1 H2 H3. unfold below. rewrite !filter_app, !length_app.
  split.
  - rewrite (filter_all _ l1), (filter_none _ l2), (filter_none _ l3); [cbn; lia|..];
      (eapply Forall_impl; [eassumption|]); cbn beta; lia.
  - rewrite (filter_all _ l1), (filter_all _ l2), (filter_none _ l3); [cbn; lia|..];
      (eapply Forall_impl; [eassumption|]); cbn beta; lia.
Qed.
End DirectoryFacts.

Definition kvs_ok (es : list OutputKV) : Prop :=
  StronglySorted kv_le es ∧ Forall (λ e, length (key e) = 36%nat) es ∧ Z.of_nat (length es) < 2 ^ 32.

Lemma directory_bits limit n : 4 ≤ limit ≤ 28 → 4 ≤ directory_prefix_bits limit n ≤ 28.
Proof. intros Hl. unfold directory_prefix_bits. destruct (_ <=? _); lia. Qed.

Lemma StronglySorted_weaken {A} (R Q : relation A) (P : A → Prop) l :
  (∀ a b, P a → P b → R a b → Q a b) → Forall P l → StronglySorted R l → StronglySorted Q l.
Proof.
  intros Hrq Hp. induction 1 as [|a l Hs IH Ha]; [constructor|]. apply Forall_cons in Hp as [Hpa Hp].
  constructor; [by apply IH|]. rewrite Forall_forall in Ha, Hp |- *. intros x Hx. auto.
Qed.
Lemma StronglySorted_app_mid {A} (R : relation A) l1 l2 l3 : StronglySorted R (l1 ++ l2 ++ l3) → StronglySorted R l2.
Proof.
  intros Hs. by eapply StronglySorted_app_1_l, StronglySorted_app_1_r.
Qed.

(** The slice the directory hands out is in bounds and holds every entry of the
    key. *)
Lemma directory_lookup limit es k :
  4 ≤ limit ≤ 28 → kvs_ok es → es ≠ [] → length k = 36%nat →
  ∃ lo hi, lookup_range (directory_build limit es) k = Ok (lo, hi) ∧ (lo ≤ hi ≤ length es)%nat ∧
           StronglySorted kv_le (take (hi - lo) (drop lo es)) ∧ of_key k (take (hi - lo) (drop lo es)) = of_key k es.
Proof.
  intros Hlim (Hs & Hk & Hlen) Hne Hkey.
  destruct (directory_build limit es) as [bs bits] eqn:E. unfold directory_build in E. destruct es as [|e0 es0]; [done|].
  set (es := e0 :: es0) in *. injection E as <- <-.
  pose proof (directory_bits limit (Z.of_nat (length es)) Hlim) as Hb. set (bits := directory_prefix_bits _ _) in *.
  pose proof (key_prefix_range k bits Hkey ltac:(lia)) as Hp. set (p := key_prefix k bits) in *.
  assert (StronglySorted (λ a b, key_prefix (key a) bits ≤ key_prefix (key b) bits) es) as Hsp.
  { eapply StronglySorted_weaken; [|exact Hk|exact Hs]. cbn beta. intros a b Ha Hb' Hab%kv_le_key.
    apply key_prefix_mono; [congruence|lia|done]. }
  assert (∀ b, (b ≤ Z.to_nat (2 ^ bits))%nat →
    bucket_starts bits es 0 0 !! b = Some (Z.of_nat (below bits b es))) as Hlook.
  { intros b Hle. pose proof (bucket_starts_lookup bits ltac:(lia) es 0 0 b) as Hl. rewrite Nat.sub_0_r in Hl.
    rewrite Hl, Nat.add_0_l, as_u32_small; [done| |by eapply Forall_impl; [exact Hk|]; intros e He; split; [apply key_prefix_range; [done|lia]|lia]|done|lia].
    pose proof (length_filter (λ e, key_prefix (key e) bits < Z.of_nat b) es). unfold is_u32, below. lia. }
  destruct (sorted_split _ (λ e, key_prefix (key e) bits) p es (λ a b _ _ H, H) Hsp) as (l1 & l2 & l3 & El & H1 & H2 & H3).
  destruct (below_split bits p l1 l2 l3 ltac:(lia) H1 H2 H3) as [B1 B2]. rewrite <-El in B1, B2.
  exists (length l1), (length l1 + length l2)%nat. unfold lookup_range. cbn [prefix_bits buckets]. fold p.
  rewrite !Hlook, B1, B2 by lia. cbn [of_option rbind]. rewrite !Nat2Z.id. split; [done|].
  split; [rewrite El, !length_app; lia|].
  replace (length l1 + length l2 - length l1)%nat with (length l2) by lia.
  rewrite El, drop_app_length, take_app_length. rewrite El in Hs. split; [by eapply StronglySorted_app_mid|].
  rewrite !filter_app, (filter_none _ l1), (filter_none _ l3), app_nil_r; [done|..];
    (eapply Forall_impl; [eassumption|]); cbn beta; intros e He Hek; subst k; unfold p in He; lia.
Qed.

(** ** The Bloom filter has no false negatives *)

Lemma probe_index blocks k probe :
  0 < blocks → let '(block_idx, word_bits) := hash_key k blocks in
  ((probe_at block_idx word_bits probe).1 < Z.to_nat (blocks * BLOOM_WORDS_PER_BLOCK))%nat ∧ 0 ≤ (probe_at block_idx word_bits probe).2.
Proof.
  intros Hb. unfold hash_key, probe_at. cbn [fst snd].
  set (h := fmix _). pose proof (Z.mod_pos_bound h blocks Hb).
  set (bit := Z.land _ _). pose proof (Z.mod_pos_bound (bit / 64) 8 ltac:(lia)). pose proof (Z.mod_pos_bound bit 64 ltac:(lia)).
  nia.
Qed.
Lemma test_bit w s : 0 ≤ s → (Z.land w (Z.shiftl 1 s) =? 0) = negb (Z.testbit w s).
Proof.
  intros Hs. destruct (Z.testbit w s) eqn:E; cbn [negb].
  - apply Z.eqb_neq. intros H0. assert (Z.testbit (Z.land w (Z.shiftl 1 s)) s = true) as Ht; [|by rewrite H0, Z.bits_0 in Ht].
    rewrite Z.land_spec, E, Z.shiftl_spec, Z.sub_diag by done. done.
  - apply Z.eqb_eq, Z.bits_inj'. intros i Hi. rewrite Z.land_spec, Z.bits_0, Z.shiftl_spec by done.
    destruct (decide (i = s)) as [->|Hne]; [by rewrite E|]. apply andb_false_iff. right.
    destruct (Z.lt_ge_cases i s); [apply Z.testbit_neg_r; lia|]. apply Z.bits_above_log2; cbn; lia.
Qed.

(** The bit [s] of word [i] is set. *)
Definition bit_set (words : list Z) (at_ : nat * Z) : Prop :=
  ∃ w, words !! at_.1 = Some w ∧ Z.testbit w at_.2 = true.
Definition probe_list (k : bytes) (blocks : Z) : list (nat * Z) :=
  let '(block_idx, word_bits) := hash_key k blocks in probe_at block_idx word_bits <$> probes.

Lemma set_bits_spec (ats : list (nat * Z)) words :
  Forall (λ a, (a.1 < length words)%nat ∧ 0 ≤ a.2) ats →
  let words' := foldl (λ ws a, alter (λ w, Z.lor w (Z.shiftl 1 a.2)) a.1 ws) words ats in
  length words' = length words ∧ (∀ a, bit_set words a → bit_set words' a) ∧ Forall (bit_set words') ats.
Proof.
  revert words. induction ats as [|a ats IH]; intros words Hok; [done|].
  apply Forall_cons in Hok as [[Hi Hs] Hok]. cbn [foldl].
  set (words1 := alter _ _ words) in *. assert (length words1 = length words) as Hl by apply length_alter.
  destruct (IH words1) as (Hl' & Hmono & Hats). { by rewrite Hl. }
  assert (∀ b, bit_set words b → bit_set words1 b) as Hm1.
  { intros b (w & Hw & Hbit). destruct (decide (a.1 = b.1)) as [Eb|Nb].
    - exists (Z.lor w (Z.shiftl 1 a.2)). unfold words1. rewrite Eb, list_lookup_alter_eq, Hw. split; [done|].
      by rewrite Z.lor_spec, Hbit.
    - exists w. unfold words1. by rewrite list_lookup_alter_ne. }
  split; [by rewrite Hl'|]. split; [by auto|]. apply Forall_cons. split; [|done]. apply Hmono.
  destruct (lookup_lt_is_Some_2 words a.1 Hi) as [w Hw].
  exists (Z.lor w (Z.shiftl 1 a.2)). unfold words1. rewrite list_lookup_alter_eq, Hw. split; [done|].
  rewrite Z.lor_spec, Z.shiftl_spec, Z.sub_diag by done. apply orb_true_r.
Qed.

Lemma bloom_insert_spec blocks words k :
  0 < blocks → length words = Z.to_nat (blocks * BLOOM_WORDS_PER_BLOCK) →
  length (bloom_insert blocks words k) = length words ∧
  (∀ a, bit_set words a → bit_set (bloom_insert blocks words k) a) ∧
  Forall (bit_set (bloom_insert blocks words k)) (probe_list k blocks).
Proof.
  intros Hb Hl. unfold bloom_insert, probe_list. pose proof (λ p, probe_index blocks k p Hb) as Hp.
  destruct (hash_key k blocks) as [bi wb]. apply set_bits_spec. rewrite Hl. apply Forall_fmap, Forall_true. exact Hp.
Qed.

Lemma bloom_fold_spec blocks es words :
  0 < blocks → length words = Z.to_nat (blocks * BLOOM_WORDS_PER_BLOCK) →
  let words' := foldl (λ ws kv, bloom_insert blocks ws (key kv)) words es in
  length words' = length words ∧ (∀ a, bit_set words a → bit_set words' a) ∧
  ∀ e, e ∈ es → Forall (bit_set words') (probe_list (key e) blocks).
Proof.
  intros Hb. revert words. induction es as [|x es IH]; intros words Hl; cbn [foldl].
  { split_and!; [done..|]. by intros e ?%elem_of_nil. }
  destruct (bloom_insert_spec blocks words (key x) Hb Hl) as (Hl1 & Hm1 & Hx).
  destruct (IH (bloom_insert blocks words (key x))) as (Hl2 & Hm2 & Hes); [congruence|].
  split_and!; [congruence|by auto|]. intros e [->|He]%elem_of_cons; [|by apply Hes].
  eapply Forall_impl; [exact Hx|]. exact Hm2.
Qed.

Definition bloom_blocks (n : nat) : Z := Z.max ((Z.of_nat n * 12 + 511) / 512) 1.
Lemma bloom_build_eq es :
  bloom_build es = mkBloom (foldl (λ ws kv, bloom_insert (bloom_blocks (length es)) ws (key kv))
    (replicate (Z.to_nat (bloom_blocks (length es) * BLOOM_WORDS_PER_BLOCK)) 0) es) (bloom_blocks (length es)).
Proof. by destruct es. Qed.

Lemma probes_set_ok words bi wb ps :
  Forall (λ p, ((probe_at bi wb p).1 < length words)%nat ∧ 0 ≤ (probe_at bi wb p).2) ps →
  ∃ b, probes_set words bi wb ps = Ok b ∧ (Forall (bit_set words) (probe_at bi wb <$> ps) → b = true).
Proof.
  induction 1 as [|p ps [Hi Hs] Hps (b & Hb & Hall)]; [by exists true|]. cbn [probes_set fmap list_fmap].
  destruct (probe_at bi wb p) as [i s] eqn:E. cbn [fst snd] in *.
  destruct (lookup_lt_is_Some_2 words i Hi) as [w Hw]. rewrite Hw. cbn [of_option rbind]. rewrite test_bit by done.
  destruct (Z.testbit w s) eqn:Ebit; cbn [negb].
  - exists b. split; [done|]. intros [_ Hf]%Forall_cons. by apply Hall.
  - exists false. split; [done|]. intros [(w' & Hw' & Hbit) _]%Forall_cons. cbn [fst snd] in *. congruence.
Qed.

(** A query of a built filter stays in bounds, and answers yes for every key
    that was put in. *)
Lemma may_contain_spec es k :
  ∃ b, may_contain (bloom_build es) k = Ok b ∧ (∀ e, e ∈ es → key e = k → b = true).
Proof.
  rewrite bloom_build_eq. set (blocks := bloom_blocks (length es)).
  assert (0 < blocks) as Hb by (unfold blocks, bloom_blocks; lia).
  destruct (bloom_fold_spec blocks es (replicate (Z.to_nat (blocks * BLOOM_WORDS_PER_BLOCK)) 0) Hb) as (Hl & _ & Hin);
    [apply length_replicate|]. rewrite length_replicate in Hl.
  set (words := foldl _ _ _) in *. unfold may_contain. cbn [data num_blocks].
  pose proof (λ p, probe_index blocks k p Hb) as Hp. unfold probe_list in Hin.
  destruct (hash_key k blocks) as [bi wb] eqn:E.
  destruct (probes_set_ok words bi wb probes) as (b & Hset & Hall).
  { apply Forall_true. intros p. rewrite Hl. apply Hp. }
  exists b. split; [done|]. intros e He Hk. apply Hall. specialize (Hin e He). rewrite Hk in Hin. by rewrite E in Hin.
Qed.
Lemma may_contain_nil k : may_contain (bloom_build []) k = Ok false.
Proof.
  unfold may_contain. cbn [bloom_build data num_blocks]. pose proof (probe_index 1 k 0 ltac:(lia)) as Hp.
  destruct (hash_key k 1) as [bi wb]. cbn [probes_set].
  destruct (probe_at bi wb 0) as [i s]. cbn [fst snd] in Hp. rewrite lookup_replicate_2 by apply Hp. done.
Qed.

(** ** The lookup of a run *)

Lemma scan_window k since before es :
  Forall (λ e, kv_height e < since ∨ before ≤ kv_height e) es → scan k since before es = None.
Proof.
  induction 1 as [|e es He _ IH]; [done|]. cbn [scan]. destruct (bool_decide _); [|done]. cbn [negb].
  replace ((kv_height e <? since) || (before <=? kv_height e)) with true by lia. done.
Qed.
Lemma foldl_min_le x l : foldl Z.min x l ≤ x ∧ ∀ y, y ∈ l → foldl Z.min x l ≤ y.
Proof.
  revert x. induction l as [|z l IH]; intros x; cbn [foldl]; [split; [lia|by intros y ?%elem_of_nil]|].
  destruct (IH (Z.min x z)) as [H1 H2]. split; [lia|]. intros y [->|Hy]%elem_of_cons; [lia|by apply H2].
Qed.
Lemma foldl_max_ge x l : x ≤ foldl Z.max x l ∧ ∀ y, y ∈ l → y ≤ foldl Z.max x l.
Proof.
  revert x. induction l as [|z l IH]; intros x; cbn [foldl]; [split; [lia|by intros y ?%elem_of_nil]|].
  destruct (IH (Z.max x z)) as [H1 H2]. split; [lia|]. intros y [->|Hy]%elem_of_cons; [lia|by apply H2].
Qed.
Lemma height_range_bounds es e :
  e ∈ es → (height_range_of es).1 ≤ kv_height e ≤ (height_range_of es).2.
Proof.
  destruct es as [|x es]; [by intros ?%elem_of_nil|]. cbn [height_range_of fst snd].
  destruct (foldl_min_le (kv_height x) (kv_height <$> es)) as [H1 H2].
  destruct (foldl_max_ge (kv_height x) (kv_height <$> es)) as [H3 H4].
  intros [->|He]%elem_of_cons; [done|]. split; [apply H2|apply H4]; by apply list_elem_of_fmap_2.
Qed.

Section RunFacts.
Context {SO : SliceOps} `{!SliceLaws SO} (limit : Z) (Hlimit : 4 ≤ limit ≤ 28).

(** The accelerators of a frozen run are those of its entries. *)
Record run_ok (r : MemoryRun) : Prop := mkRunOk {
  run_kvs : kvs_ok (entries r);
  run_range : height_range r = height_range_of (entries r);
  run_frozen : is_mutable r = false →
    directory r = directory_build limit (entries r) ∧ bloom r = bloom_build (entries r);
}.

(** The linear reference: the entries of the key, in the order of the run. *)
Definition reference (es : list OutputKV) (k : bytes) (since before : Z) : option Z :=
  scan k since before (of_key k es).

Lemma frozen_search es k since before :
  kvs_ok es → length k = 36%nat →
  (let+ maybe := may_contain (bloom_build es) k in
   if negb maybe then Ok None
   else let+ range := lookup_range (directory_build limit es) k in
        let '(lo, hi) := range in
        if (hi <=? lo)%nat then Ok None
        else let+ sub := sub_slice lo hi es in Ok (search k since before sub))
  = Ok (reference es k since before).
Proof.
  intros Hok Hk. destruct (decide (es = [])) as [->|Hne]; [by rewrite may_contain_nil|].
  destruct (may_contain_spec es k) as (b & -> & Hin). cbn [rbind]. unfold reference.
  assert (b = false → of_key k es = []) as Hb.
  { intros ->. apply filter_none, Forall_forall. intros e He Hek. by specialize (Hin e He Hek). }
  destruct b; cbn [negb]; [|by rewrite Hb].
  destruct (directory_lookup limit es k Hlimit Hok Hne Hk) as (lo & hi & -> & Hle & Hs & Hf). cbn [rbind].
  destruct (Nat.leb_spec hi lo) as [Hlo|Hlo].
  - replace (hi - lo)%nat with 0%nat in Hf by lia. by rewrite <-Hf.
  - unfold sub_slice. replace (hi <=? length es)%nat with true by (symmetry; apply Nat.leb_le; lia).
    cbn [rbind]. by rewrite search_spec, Hf.
Qed.

Lemma lookup_key_reference r k since before :
  run_ok r → length k = 36%nat → lookup_key r k since before = Ok (reference (entries r) k since before).
Proof.
  intros [Hok Hr Hf] Hk. unfold lookup_key. rewrite Hr.
  destruct (_ || _) eqn:Ew.
  - f_equal. symmetry. apply scan_window. apply Forall_forall. intros e [_ He]%list_elem_of_filter.
    pose proof (height_range_bounds _ _ He). lia.
  - destruct (is_mutable r) eqn:Em.
    + f_equal. by apply search_spec, Hok.
    + destruct (Hf eq_refl) as [-> ->]. by apply frozen_search.
Qed.

(** *** Every operation keeps a run well formed *)

Lemma merge_two_eq b n : merge_two b n = list_merge kv_le b n.
Proof.
  revert n. induction b as [|x b IHb]; intros n; [by destruct n|].
  induction n as [|y n IHn]; [done|]. rewrite list_merge_cons, <-IHb, <-IHn. done.
Qed.
Lemma merge_two_spec b n :
  StronglySorted kv_le b → StronglySorted kv_le n → StronglySorted kv_le (merge_two b n) ∧ merge_two b n ≡ₚ b ++ n.
Proof.
  intros Hb Hn. rewrite merge_two_eq. split; [|apply merge_Permutation].
  apply Sorted_StronglySorted; [apply _|]. apply Sorted_list_merge; [apply _|by apply StronglySorted_Sorted..].
Qed.
Lemma append_entries new_entries r :
  run_ok r → let r' := append_and_rebuild new_entries r in
  StronglySorted kv_le (entries r') ∧ entries r' ≡ₚ entries r ++ new_entries.
Proof.
  intros [(Hs & _ & _) _ _]. unfold append_and_rebuild. destruct new_entries as [|n ns]; [by rewrite app_nil_r|].
  cbn [entries]. destruct (entries r) as [|b bs] eqn:E.
  - split; [apply sort_sorted|]. cbn [app]. apply sort_perm.
  - destruct (merge_two_spec (b :: bs) (sort_unstable (n :: ns)) Hs (sort_sorted _)) as [H1 H2].
    split; [done|]. by rewrite H2, sort_perm.
Qed.
Lemma append_ok new_entries r :
  run_ok r → is_mutable r = true → Forall (λ e, length (key e) = 36%nat) new_entries →
  Z.of_nat (length (entries r) + length new_entries) < 2 ^ 32 →
  run_ok (append_and_rebuild new_entries r) ∧ is_mutable (append_and_rebuild new_entries r) = true.
Proof.
  intros Hok Hm Hk Hl. destruct (append_entries new_entries r Hok) as [Hs Hp]. cbn zeta in *.
  assert (kvs_ok (entries (append_and_rebuild new_entries r))) as Hkvs.
  { split; [done|]. rewrite Hp, length_app. split; [|done]. apply Forall_app. by split; [apply Hok|]. }
  unfold append_and_rebuild in *. destruct new_entries; [done|]. cbn [is_mutable]. split; [split|]; try done.
  cbn [is_mutable]. by rewrite Hm.
Qed.
Lemma build_presorted_ok es : kvs_ok es → run_ok (build_presorted limit es).
Proof. by intros Hok. Qed.
Lemma freeze_ok r : run_ok r → run_ok (freeze limit r).
Proof. by intros [Hk Hr _]. Qed.
Lemma new_mutable_ok : run_ok (new_mutable limit).
Proof. split; [|done..]. split; [constructor|]. split; [constructor|]. cbn. lia. Qed.

Lemma forall_filter {A} (Q P : A → Prop) `{!∀ x, Decision (P x)} l : Forall Q l → Forall Q (filter P l).
Proof. rewrite !Forall_forall. intros Hq x [_ Hx]%list_elem_of_filter. by apply Hq. Qed.
Lemma sorted_filter {A} (R : relation A) (P : A → Prop) `{!∀ x, Decision (P x)} l :
  StronglySorted R l → StronglySorted R (filter P l).
Proof.
  induction 1 as [|a l Hs IH Ha]; [constructor|]. destruct (decide (P a)).
  - rewrite filter_cons_True by done. constructor; [done|]. by apply forall_filter.
  - by rewrite filter_cons_False.
Qed.
Lemma kvs_ok_filter (P : OutputKV → Prop) `{!∀ x, Decision (P x)} es : kvs_ok es → kvs_ok (filter P es).
Proof.
  intros (Hs & Hk & Hl). split; [by apply sorted_filter|]. split; [by apply forall_filter|].
  pose proof (length_filter P es). lia.
Qed.
Lemma run_erase_since_ok since r : run_ok r → run_ok (run_erase_since limit since r).
Proof. intros [Hk _ _]. split; [by apply kvs_ok_filter|done..]. Qed.
End RunFacts.
