(* ===== verification/IbdMerge.v ===== *)
(** * IbdMerge: merging runs

    The proofs on [MemoryRun::merge] ([storage/ibd_engine/memory_run.rs]): the heap
    delivers every entry in order, the clean-up pass treats each key on its own,
    and on the history of a coin it drops exactly the pairs of a deletion below
    the fence and the addition it spends.  Readers above the dropped deletions
    see no difference.  The file ends with the runs the engine can build, and
    the exact lookup on each of them. *)

From S2P Require Import Prelude Bytes IbdRun.
From stdpp Require Import sorting.
Open Scope Z_scope.

(** ** The merge *)

Section Merge.
Context {SO : SliceOps} `{!SliceLaws SO} (inputs : list MemoryRun).

(** What a heap item still has to deliver. *)
Definition rest_of (i : HeapItem) : list OutputKV :=
  from_option (λ r, drop (entry_idx i) (entries r)) [] (inputs !! run_idx i).
Definition item_ok (i : HeapItem) : Prop := head (rest_of i) = Some (entry i).
Definition pushed_of (i : HeapItem) : list HeapItem :=
  match inputs !! run_idx i ≫= λ r, entries r !! S (entry_idx i) with
  | Some e => [mkItem e (run_idx i) (S (entry_idx i))]
  | None => []
  end.

Lemma rest_pushed i : item_ok i → rest_of i = entry i :: mjoin (rest_of <$> pushed_of i) ∧ Forall item_ok (pushed_of i).
Proof.
  unfold item_ok, pushed_of. unfold rest_of at 1 2. destruct (inputs !! run_idx i) as [r|] eqn:E; [|done]. cbn [from_option mbind option_bind].
  destruct (drop (entry_idx i) (entries r)) as [|e tl] eqn:Ed; [done|]. intros [= ->].
  assert (drop (S (entry_idx i)) (entries r) = tl) as Htl.
  { rewrite <-Nat.add_1_r, <-drop_drop, Ed. done. }
  assert (entries r !! S (entry_idx i) = head tl) as ->.
  { rewrite <-Htl, head_lookup, lookup_drop. f_equal. lia. }
  destruct tl as [|e' tl]; cbn [head]; [done|]. unfold item_ok, rest_of. cbn [fmap list_fmap mjoin list_join run_idx entry_idx entry].
  rewrite E. cbn [from_option]. rewrite Htl, app_nil_r. split; [done|]. apply Forall_singleton. cbn [run_idx entry_idx entry]. by rewrite E; cbn [from_option]; rewrite Htl.
Qed.

Context (Hsorted : Forall (λ r, StronglySorted kv_le (entries r)) inputs).

Lemma rest_sorted i : StronglySorted kv_le (rest_of i).
Proof.
  unfold rest_of. destruct (inputs !! run_idx i) as [r|] eqn:E; [|constructor]. cbn [from_option].
  rewrite Forall_forall in Hsorted. specialize (Hsorted r (list_elem_of_lookup_2 _ _ _ E)).
  rewrite <-(take_drop (entry_idx i)) in Hsorted. by eapply StronglySorted_app_1_r.
Qed.
Lemma rest_above i : item_ok i → Forall (kv_le (entry i)) (rest_of i).
Proof.
  intros Hi. pose proof (rest_sorted i) as Hs. unfold item_ok in Hi. destruct (rest_of i) as [|e l]; [done|].
  injection Hi as ->. apply StronglySorted_inv in Hs as [_ Hs]. by constructor; [reflexivity|].
Qed.

Lemma merge_loop_spec fuel heap :
  (length (mjoin (rest_of <$> heap)) ≤ fuel)%nat → Forall item_ok heap →
  merge_loop inputs fuel heap ≡ₚ mjoin (rest_of <$> heap) ∧ StronglySorted kv_le (merge_loop inputs fuel heap).
Proof.
  revert heap. induction fuel as [|fuel IH]; intros heap Hf Hok; cbn [merge_loop].
  { destruct (mjoin (rest_of <$> heap)); [by split; [|constructor]|cbn in Hf; lia]. }
  destruct (heap_pop heap) as [[item heap']|] eqn:E.
  2: { apply heap_pop_none in E as ->. by split; [|constructor]. }
  apply heap_pop_some in E as [Hp Hmin].
  assert (Forall item_ok (item :: heap')) as Hok' by by rewrite <-Hp. apply Forall_cons in Hok' as [Hi Hok'].
  destruct (rest_pushed item Hi) as [Hr Hpush]. fold (pushed_of item).
  assert (mjoin (rest_of <$> heap) ≡ₚ entry item :: mjoin (rest_of <$> (pushed_of item ++ heap'))) as Hall.
  { rewrite Hp. cbn [fmap list_fmap mjoin list_join]. rewrite Hr, fmap_app. cbn [app]. by rewrite join_app. }
  destruct (IH (pushed_of item ++ heap')) as [Hperm Hs].
  { rewrite Hall in Hf. cbn [length] in Hf. lia. }
  { by apply Forall_app. }
  split; [by rewrite Hall, Hperm|]. constructor; [done|]. rewrite Hperm. apply Forall_forall. intros x Hx.
  apply list_elem_of_join in Hx as (l & Hx & Hl). apply list_elem_of_fmap in Hl as (j & -> & Hj).
  apply elem_of_app in Hj as [Hj|Hj].
  - assert (x ∈ rest_of item) as Hxi.
    { rewrite Hr. right. apply list_elem_of_join. exists (rest_of j). split; [done|]. by apply list_elem_of_fmap_2. }
    pose proof (rest_above item Hi) as Ha. rewrite Forall_forall in Ha. by apply Ha.
  - rewrite Forall_forall in Hmin, Hok'. etrans; [by apply Hmin|].
    pose proof (rest_above j (Hok' j Hj)) as Ha. rewrite Forall_forall in Ha. by apply Ha.
Qed.
End Merge.

(** The heap starts with the first entry of every run that has one. *)
Lemma heads_spec pre suf :
  Forall (item_ok (pre ++ suf)) (heads (length pre) suf) ∧
  mjoin (rest_of (pre ++ suf) <$> heads (length pre) suf) = mjoin (entries <$> suf).
Proof.
  revert pre. induction suf as [|r suf IH]; intros pre; [done|]. cbn [heads].
  specialize (IH (pre ++ [r])). rewrite <-(assoc_L (++)), length_app, Nat.add_1_r in IH. cbn [app] in IH.
  destruct IH as [IH1 IH2]. rewrite fmap_app, join_app, IH2, Forall_app. cbn [fmap list_fmap mjoin list_join].
  assert ((pre ++ r :: suf) !! length pre = Some r) as Hr by by rewrite lookup_app_r, Nat.sub_diag.
  destruct (entries r) as [|e es] eqn:E; [done|]. rewrite Forall_singleton.
  cbn [fmap list_fmap mjoin list_join]. unfold item_ok at 1, rest_of at 1 2. cbn [run_idx entry_idx entry].
  rewrite Hr. cbn [from_option]. rewrite E, drop_0, app_nil_r. done.
Qed.

Lemma length_join_entries inputs : sum_list (length ∘ entries <$> inputs) = length (mjoin (entries <$> inputs)).
Proof. induction inputs as [|r rs IH]; [done|]. cbn [fmap list_fmap sum_list mjoin list_join compose]. by rewrite length_app, IH. Qed.

(** The heap delivers every entry of the inputs once, in order. *)
Lemma merge_all_spec {SO : SliceOps} `{!SliceLaws SO} inputs :
  Forall (λ r, StronglySorted kv_le (entries r)) inputs →
  let merged := merge_loop inputs (sum_list (length ∘ entries <$> inputs)) (heads 0 inputs) in
  merged ≡ₚ mjoin (entries <$> inputs) ∧ StronglySorted kv_le merged.
Proof.
  intros Hs. destruct (heads_spec [] inputs) as [Hok Hr]. cbn [app length] in *.
  pose proof (merge_loop_spec inputs Hs (sum_list (length ∘ entries <$> inputs)) (heads 0 inputs)) as Hm.
  rewrite Hr in Hm. apply Hm; [by rewrite length_join_entries|done].
Qed.

(** ** The clean-up pass *)

Abbreviation opt_list p := (match p with Some d => [d] | None => [] end).

(** What the pass would deliver if it stopped here. *)
Definition gc_out (st : list OutputKV * option OutputKV) : list OutputKV :=
  reverse st.1 ++ opt_list st.2.

Lemma gc_pass_out fence l : gc_pass fence l = gc_out (foldl (gc_step fence) ([], None) l).
Proof. unfold gc_pass, gc_out. by destruct (foldl _ _ _). Qed.

Lemma gc_step_sublist fence st e : gc_out (gc_step fence st e) `sublist_of` gc_out st ++ [e].
Proof.
  destruct st as [gc pending]. unfold gc_step.
  assert (∃ gc1 p1, (match pending with Some d => if bool_decide (key d = key e) then (gc, Some d) else (d :: gc, None)
                     | None => (gc, None) end) = (gc1, p1) ∧ gc_out (gc, pending) = gc_out (gc1, p1)) as (gc1 & p1 & -> & ->).
  { destruct pending as [d|]; [|by exists gc, None]. destruct (bool_decide _); [by exists gc, (Some d)|].
    exists (d :: gc), None. split; [done|]. unfold gc_out. cbn [fst snd]. by rewrite reverse_cons, app_nil_r. }
  unfold gc_out. cbn [fst snd]. destruct (is_delete e).
  - destruct gc1 as [|last gc1]; [|destruct (_ && _)]; cbn [fst snd].
    + rewrite <-(assoc_L (++)). apply sublist_app; [done|]. by apply sublist_inserts_l.
    + rewrite reverse_cons, <-!(assoc_L (++)). apply sublist_app; [done|]. apply sublist_inserts_l, sublist_inserts_r. done.
    + rewrite <-(assoc_L (++)). apply sublist_app; [done|]. by apply sublist_inserts_l.
  - destruct p1 as [d|]; [destruct (_ && _); [destruct (_ <=? _)|]|]; cbn [fst snd];
      rewrite ?app_nil_r, ?reverse_cons, <-?(assoc_L (++)); try done. by apply sublist_inserts_r.
Qed.
Lemma gc_fold_sublist fence l st : gc_out (foldl (gc_step fence) st l) `sublist_of` gc_out st ++ l.
Proof.
  revert st. induction l as [|e l IH]; intros st; cbn [foldl]; [by rewrite app_nil_r|].
  etrans; [apply IH|]. rewrite (cons_middle e (gc_out st) l). rewrite (assoc_L (++)).
  apply sublist_app; [apply gc_step_sublist|done].
Qed.
Lemma gc_pass_sublist fence l : gc_pass fence l `sublist_of` l.
Proof. rewrite gc_pass_out. apply (gc_fold_sublist fence l ([], None)). Qed.

(** Output of other keys below does not matter. *)
Lemma gc_step_frame fence base g p e :
  (∀ b, head base = Some b → key b ≠ key e) →
  gc_step fence (g ++ base, p) e = ((gc_step fence (g, p) e).1 ++ base, (gc_step fence (g, p) e).2).
Proof.
  intros Hb. unfold gc_step.
  assert (∃ g1 p1, (match p with Some d => if bool_decide (key d = key e) then (g, Some d) else (d :: g, None)
                     | None => (g, None) end) = (g1, p1) ∧
                   (match p with Some d => if bool_decide (key d = key e) then (g ++ base, Some d) else (d :: g ++ base, None)
                     | None => (g ++ base, None) end) = (g1 ++ base, p1)) as (g1 & p1 & -> & ->).
  { destruct p as [d|]; [|by exists g, None]. destruct (bool_decide _); [by exists g, (Some d)|by exists (d :: g), None]. }
  destruct (is_delete e).
  - destruct g1 as [|x g1]; cbn [app]; [|by destruct (_ && _ && _)].
    destruct base as [|b base]; [done|]. by rewrite (bool_decide_eq_false_2 (key b = key e)) by by apply Hb.
  - destruct p1 as [d|]; [|done]. destruct (_ && _); [|done]. by destruct (_ <=? _).
Qed.
Lemma gc_fold_frame fence base l g p :
  (∀ b e, head base = Some b → e ∈ l → key b ≠ key e) →
  foldl (gc_step fence) (g ++ base, p) l
  = ((foldl (gc_step fence) (g, p) l).1 ++ base, (foldl (gc_step fence) (g, p) l).2).
Proof.
  revert g p. induction l as [|e l IH]; intros g p Hb; cbn [foldl]; [done|].
  rewrite gc_step_frame by (intros b Hb'; apply (Hb b e Hb'); left).
  destruct (gc_step fence (g, p) e) as [g1 p1]. cbn [fst snd]. apply IH. intros b x Hb' Hx. apply (Hb b x Hb'). by right.
Qed.
Lemma gc_step_flush fence g d e : key d ≠ key e → gc_step fence (g, Some d) e = gc_step fence (d :: g, None) e.
Proof. intros Hne. unfold gc_step. by rewrite !(bool_decide_eq_false_2 (key d = key e)). Qed.

(** Entries of different keys are cleaned up independently. *)
Lemma gc_pass_app fence l1 l2 :
  (∀ e1 e2, e1 ∈ l1 → e2 ∈ l2 → key e1 ≠ key e2) → gc_pass fence (l1 ++ l2) = gc_pass fence l1 ++ gc_pass fence l2.
Proof.
  intros Hne. pose proof (gc_pass_sublist fence l1) as Hsub. rewrite !gc_pass_out in *. rewrite foldl_app.
  destruct (foldl (gc_step fence) ([], None) l1) as [g1 p1].
  destruct l2 as [|e l2]; [by rewrite app_nil_r|]. set (base := opt_list p1 ++ g1).
  assert (∀ x, x ∈ base → x ∈ l1) as Hin.
  { intros x Hx. eapply elem_of_sublist; [|exact Hsub]. unfold gc_out. cbn [fst snd].
    rewrite elem_of_app, elem_of_reverse. unfold base in Hx. apply elem_of_app in Hx. tauto. }
  assert (foldl (gc_step fence) (g1, p1) (e :: l2) = foldl (gc_step fence) ([] ++ base, None) (e :: l2)) as ->.
  { cbn [foldl app]. f_equal. unfold base in *. destruct p1 as [d|]; [|done]. apply gc_step_flush.
    apply Hne; [apply Hin|]; left. }
  rewrite gc_fold_frame.
  - unfold gc_out at 1. cbn [fst snd]. unfold gc_out, base. cbn [fst snd].
    rewrite !reverse_app, <-!(assoc_L (++)). f_equal. by destruct p1.
  - intros b x Hb Hx. apply Hne; [|done]. apply Hin. destruct base; [done|]. injection Hb as ->. left.
Qed.

(** The clean-up of one key is the clean-up of its entries. *)
Lemma gc_pass_key fence k l :
  StronglySorted kv_le l → of_key k (gc_pass fence l) = gc_pass fence (of_key k l).
Proof.
  intros Hs. destruct (sorted_split kv_le (side k) 0 l) as (l1 & l2 & l3 & -> & H1 & H2 & H3); [|done|].
  { intros a b _ _. apply side_mono. }
  rewrite Forall_forall in H1, H2, H3.
  assert (∀ e, side k e ≠ 0 → key e ≠ k) as Hside by (intros e He Hk%side_eq; done).
  assert (∀ a b, side k a ≠ side k b → key a ≠ key b) as Hdiff
    by (intros a b Hs' Hk; apply Hs'; unfold side; by rewrite Hk).
  rewrite (gc_pass_app fence l1 (l2 ++ l3)), (gc_pass_app fence l2 l3).
  2: { intros a b Ha%H2 Hb%H3. apply Hdiff. lia. }
  2: { intros a b Ha%H1 [Hb%H2|Hb%H3]%elem_of_app; apply Hdiff; lia. }
  rewrite !filter_app. rewrite (filter_none _ (gc_pass fence l1)), (filter_none _ (gc_pass fence l3)), (filter_none _ l1), (filter_none _ l3).
  - rewrite !app_nil_r. cbn [app]. rewrite (filter_all _ l2), filter_all; [done|..]; apply Forall_forall; intros e He;
      apply side_eq, H2; [|done]. eapply elem_of_sublist; [exact He|apply gc_pass_sublist].
  - apply Forall_forall. intros e He%H3. apply Hside. lia.
  - apply Forall_forall. intros e He%H1. apply Hside. lia.
  - apply Forall_forall. intros e He. apply Hside. assert (e ∈ l3) as Hi%H3; [|lia].
    eapply elem_of_sublist; [exact He|apply gc_pass_sublist].
  - apply Forall_forall. intros e He. apply Hside. assert (e ∈ l1) as Hi%H1; [|lia].
    eapply elem_of_sublist; [exact He|apply gc_pass_sublist].
Qed.

(** ** Histories of one coin *)

(** The events of one key, newest first: heights fall, additions and deletions
    alternate. *)
Fixpoint alternating (l : list OutputKV) : Prop :=
  match l with
  | e1 :: r => match r with
               | e2 :: _ => kv_height e2 < kv_height e1 ∧ is_add e1 = negb (is_add e2)
               | [] => True
               end ∧ alternating r
  | [] => True
  end.
Definition history (l : list OutputKV) : Prop := Forall (λ e, op e = 0 ∨ op e = -1) l ∧ alternating l.

(** The event that decides what a reader below [before] sees, and its verdict. *)
Definition newest (before : Z) (l : list OutputKV) : option OutputKV := head (filter (λ e, kv_height e < before) l).
Definition verdict (e : OutputKV) : Z := if is_add e then id e else OUTPUT_ID_DELETED.
Definition visible (o : option Z) : option Z := o ≫= λ i, if i =? OUTPUT_ID_DELETED then None else Some i.

(** The pairs a clean-up drops, on an alternating history. *)
Fixpoint gc_ref (fence : OutputKV → Z) (l : list OutputKV) : list OutputKV :=
  match l with
  | [] => []
  | d :: r => match r with
              | a :: rest => if is_delete d && (kv_height d <=? fence d) then gc_ref fence rest else d :: gc_ref fence r
              | [] => [d]
              end
  end.

Lemma is_delete_add e : op e = 0 ∨ op e = -1 → is_delete e = negb (is_add e).
Proof. unfold is_delete, is_add. intros [-> | ->]; done. Qed.
Lemma history_tail e l : history (e :: l) → history l.
Proof. intros [[_ Ho]%Forall_cons [_ Ha]]. done. Qed.
Lemma history_app_r l1 l2 : history (l1 ++ l2) → history l2.
Proof. induction l1 as [|e l1 IH]; [done|]. intros Hh. by eapply IH, history_tail. Qed.
Lemma history_cons e l :
  history (e :: l) ↔ (op e = 0 ∨ op e = -1) ∧
    (∀ x, head l = Some x → kv_height x < kv_height e ∧ is_add e = negb (is_add x)) ∧ history l.
Proof.
  unfold history. rewrite Forall_cons. cbn [alternating]. destruct l as [|x l]; cbn [head]; naive_solver.
Qed.
Lemma history_sorted l : history l → StronglySorted (λ a b, kv_height b < kv_height a) l.
Proof.
  intros Hh. apply Sorted_StronglySorted; [intros a b c; lia|].
  induction l as [|e l IH]; [constructor|]. apply history_cons in Hh as (_ & Hx & Hl). constructor; [by apply IH|].
  destruct l as [|x l]; constructor. by apply Hx.
Qed.

Lemma scan_history k since before l :
  history l → Forall (λ e, key e = k) l → Forall (λ e, since ≤ kv_height e) l →
  scan k since before l = verdict <$> newest before l.
Proof.
  intros Hh Hk Hs. induction l as [|e l IH]; [done|]. pose proof Hh as (Ho & Hx & Hl)%history_cons.
  apply Forall_cons in Hk as [Hek Hk]. apply Forall_cons in Hs as [Hes Hs]. cbn [scan].
  rewrite bool_decide_eq_true_2 by done. cbn [negb]. replace (kv_height e <? since) with false by lia. cbn [orb].
  unfold newest. destruct (Z.leb_spec before (kv_height e)) as [Hb|Hb].
  { rewrite filter_cons_False by lia. by apply IH. }
  rewrite filter_cons_True by done. cbn [head fmap option_fmap option_map verdict]. unfold verdict.
  destruct (is_add e) eqn:Ea; [|by rewrite is_delete_add, Ea].
  destruct l as [|n l]; [done|]. destruct (Hx n eq_refl) as [Hn _].
  replace (kv_height n =? kv_height e) with false by lia. by rewrite andb_false_r.
Qed.

Lemma newest_cons before e l :
  newest before (e :: l) = if decide (kv_height e < before) then Some e else newest before l.
Proof. unfold newest. rewrite filter_cons. by case_decide. Qed.
Lemma newest_spent before l : (∀ x, head l = Some x → is_add x = false ∧ kv_height x < before) → visible (verdict <$> newest before l) = None.
Proof.
  destruct l as [|x l]; [done|]. intros Hx. destruct (Hx x eq_refl) as [Ha Hb].
  rewrite newest_cons, decide_True by done. cbn. unfold verdict. by rewrite Ha.
Qed.

(** Dropping pairs keeps the history alternating; its newest event keeps its
    kind and does not become younger. *)
Lemma gc_ref_history fence h older :
  history (h ++ older) →
  history (gc_ref fence h ++ older) ∧
  ∀ x, head (gc_ref fence h ++ older) = Some x →
       ∃ y, head (h ++ older) = Some y ∧ is_add x = is_add y ∧ kv_height x ≤ kv_height y.
Proof.
  remember (length h) as n eqn:Hn. revert h Hn. induction (lt_wf n) as [n _ IH]. intros h Hn Hh.
  destruct h as [|d h]; cbn [gc_ref]; [split; [done|]; intros x Hx; by exists x|].
  cbn [app length] in *. pose proof Hh as (Ho & Hd & Hr)%history_cons.
  destruct h as [|a rest]; [split; [done|]; intros x Hx; by exists x|].
  destruct (is_delete d && (kv_height d <=? fence d)) eqn:Ec.
  - apply andb_true_iff in Ec as [Edel _]. rewrite (is_delete_add d Ho) in Edel. apply negb_true_iff in Edel.
    pose proof Hr as (_ & Ha & Hrest)%history_cons. destruct (Hd a eq_refl) as [Hda Hop].
    destruct (IH (length rest) ltac:(cbn [length] in *; lia) rest eq_refl Hrest) as [H1 H2]. split; [done|].
    intros x (y & Hy & Hxy & Hle)%H2. exists d. split; [done|]. destruct (Ha y Hy) as [Hay Hopa].
    destruct (is_add d), (is_add a), (is_add y); try done; (split; [congruence|lia]).
  - destruct (IH (length (a :: rest)) ltac:(cbn [length] in *; lia) (a :: rest) eq_refl Hr) as [H1 H2].
    split; [|intros x [= <-]; by exists d]. cbn [app]. apply history_cons. split; [done|]. split; [|done].
    intros x (y & Hy & Hxy & Hle)%H2. destruct (Hd y Hy) as [Hdy Hop]. rewrite Hxy. split; [lia|done].
Qed.

(** A reader above the dropped deletions sees no difference. *)
Lemma gc_ref_visible fence before h older :
  history (h ++ older) → Forall (λ e, kv_height e ≤ fence e → kv_height e < before) h →
  visible (verdict <$> newest before (gc_ref fence h ++ older)) = visible (verdict <$> newest before (h ++ older)).
Proof.
  remember (length h) as n eqn:Hn. revert h Hn. induction (lt_wf n) as [n _ IH]. intros h Hn Hh Hf.
  destruct h as [|d h]; cbn [gc_ref]; [done|]. cbn [app length] in *. pose proof Hh as (Ho & Hd & Hr)%history_cons.
  apply Forall_cons in Hf as [Hfd Hf]. destruct h as [|a rest]; [done|].
  destruct (is_delete d && (kv_height d <=? fence d)) eqn:Ec.
  - apply andb_true_iff in Ec as [Edel Efe%Z.leb_le]. rewrite (is_delete_add d Ho) in Edel. apply negb_true_iff in Edel.
    pose proof Hr as (_ & Ha & Hrest)%history_cons. destruct (Hd a eq_refl) as [Hda Hop]. specialize (Hfd Efe).
    destruct (gc_ref_history fence rest older Hrest) as [_ H2].
    rewrite (newest_spent before (d :: _)); [|intros x [= <-]; by split].
    apply newest_spent. intros x (y & Hy & Hxy & Hle)%H2. destruct (Ha y Hy) as [Hay Hopa].
    destruct (is_add d), (is_add a), (is_add y); try done; (split; [congruence|lia]).
  - cbn [app]. rewrite !(newest_cons before d). case_decide; [done|].
    by apply (IH (length (a :: rest)) ltac:(cbn [length] in *; lia) (a :: rest) eq_refl).
Qed.

(** The pass over an alternating history, with and without a pending deletion. *)
Lemma gc_fold_history fence k h :
  Forall (λ e, key e = k) h →
  (∀ g, history h → (∀ l x, head g = Some l → head h = Some x → kv_height x < kv_height l) →
        gc_out (foldl (gc_step fence) (g, None) h) = reverse g ++ gc_ref fence h) ∧
  (∀ g d, key d = k → is_add d = false → history (d :: h) → (∀ l, head g = Some l → kv_height d < kv_height l) →
          gc_out (foldl (gc_step fence) (g, Some d) h) = reverse g ++ gc_ref fence (d :: h)).
Proof.
  intros Hk. induction Hk as [|e h He Hk [IH1 IH2]]; [split; intros; reflexivity|].
  split.
  - intros g Hall Hg. pose proof Hall as (Ho & Hx & Hh)%history_cons. cbn [foldl]. unfold gc_step at 2.
    rewrite is_delete_add by done.
    destruct (is_add e) eqn:Ea; cbn [negb].
    + rewrite IH1; [|done|intros l x [= <-] Hl; by apply Hx].
      rewrite reverse_cons, <-(assoc_L (++)). f_equal. cbn [gc_ref app]. rewrite is_delete_add, Ea by done. by destruct h.
    + assert (match g with [] => (g, Some e) | last :: gc' =>
        if bool_decide (key last = key e) && (kv_height last =? kv_height e) && is_add last then (gc', None) else (g, Some e) end
        = (g, Some e)) as ->.
      { destruct g as [|l g]; [done|]. specialize (Hg l e eq_refl eq_refl).
        replace (kv_height l =? kv_height e) with false by lia. by rewrite andb_false_r. }
      apply IH2; [exact He|exact Ea|exact Hall|]. intros l Hl. by apply (Hg l e Hl).
  - intros g d Hd Ha (Ho & Hx & Hh)%history_cons Hg. cbn [foldl]. unfold gc_step at 2.
    rewrite !(bool_decide_eq_true_2 (key d = key e)) by congruence. destruct (Hx e eq_refl) as [Hlt Hop].
    rewrite Ha in Hop. symmetry in Hop. apply negb_false_iff in Hop. pose proof Hh as (Hoe & Hxe & Hh')%history_cons.
    rewrite (is_delete_add e), Hop by done. cbn [negb]. replace (kv_height e <? kv_height d) with true by lia. cbn [andb].
    cbn [gc_ref]. rewrite (is_delete_add d), Ha by done. cbn [negb andb].
    destruct (kv_height d <=? fence d).
    + apply IH1; [done|]. intros l x Hl Hxh. specialize (Hg l Hl). destruct (Hxe x Hxh). lia.
    + rewrite IH1; [|done|intros l x [= <-] Hl; by apply Hxe].
      rewrite !reverse_cons, <-!(assoc_L (++)). do 2 f_equal. cbn [gc_ref app]. rewrite is_delete_add, Hop by done. by destruct h.
Qed.
Lemma gc_pass_history fence k h : Forall (λ e, key e = k) h → history h → gc_pass fence h = gc_ref fence h.
Proof. intros Hk Hh. rewrite gc_pass_out. by apply (gc_fold_history fence k h Hk). Qed.

(** ** Merged runs *)

(** The events of a key in runs listed from the newest to the oldest. *)
Definition hist (k : bytes) (rs : list MemoryRun) : list OutputKV := of_key k (mjoin (entries <$> rs)).

Lemma hist_app k rs1 rs2 : hist k (rs1 ++ rs2) = hist k rs1 ++ hist k rs2.
Proof. unfold hist. by rewrite fmap_app, join_app, filter_app. Qed.
Lemma hist_cons k r rs : hist k (r :: rs) = of_key k (entries r) ++ hist k rs.
Proof. unfold hist. cbn [fmap list_fmap mjoin list_join]. by rewrite filter_app. Qed.
Lemma hist_keys k rs : Forall (λ e, key e = k) (hist k rs).
Proof. apply Forall_forall. by intros e [He _]%list_elem_of_filter. Qed.

Lemma history_kv_sorted k l : history l → Forall (λ e, key e = k) l → StronglySorted kv_le l.
Proof.
  intros Hh Hk. eapply StronglySorted_weaken; [|exact Hk|by apply history_sorted].
  cbn beta. intros a b Ha Hb Hlt. apply kv_le_spec. right. split; [congruence|]. by left.
Qed.
Lemma history_inj l a b : history l → a ∈ l → b ∈ l → kv_height a = kv_height b → a = b.
Proof.
  intros Hs%history_sorted Ha Hb Heq. induction Hs as [|x l Hs IH Hx]; [by apply elem_of_nil in Ha|].
  rewrite Forall_forall in Hx. apply elem_of_cons in Ha as [->|Ha], Hb as [->|Hb]; [done|..|by apply IH].
  - specialize (Hx b Hb). lia.
  - specialize (Hx a Ha). lia.
Qed.

Lemma sorted_sublist {A} (R : relation A) l1 l2 : l1 `sublist_of` l2 → StronglySorted R l2 → StronglySorted R l1.
Proof.
  intros Hsub. induction Hsub as [|x l1 l2 Hsub IH|x l1 l2 Hsub IH]; intros Hs; [constructor|..].
  - apply StronglySorted_inv in Hs as [Hs Hx]. constructor; [by apply IH|]. rewrite Forall_forall in Hx |- *.
    intros y Hy. apply Hx. by eapply elem_of_sublist.
  - apply StronglySorted_inv in Hs as [Hs _]. by apply IH.
Qed.

Section MergeFacts.
Context {SO : SliceOps} `{!SliceLaws SO} (limit : Z).

Lemma run_merge_spec fence inputs :
  Forall (run_ok limit) inputs →
  ∃ merged, entries (run_merge limit fence inputs) = gc_pass fence merged ∧
            merged ≡ₚ mjoin (entries <$> inputs) ∧ StronglySorted kv_le merged.
Proof.
  intros Hok. destruct inputs as [|r rs]; cbn [run_merge].
  { exists []. split; [|split; [done|constructor]]. unfold run_build, build_presorted. cbn [entries].
    apply Permutation_nil_r, sort_perm. }
  eexists. split; [reflexivity|]. apply merge_all_spec. eapply Forall_impl; [exact Hok|]. intros x Hx. apply Hx.
Qed.

(** A merge of runs, whatever their order in the vector, drops exactly the
    pairs of the history they hold together. *)
Lemma run_merge_hist fence inputs rs k :
  Forall (run_ok limit) inputs → inputs ≡ₚ rs → history (hist k rs) →
  of_key k (entries (run_merge limit fence inputs)) = gc_ref fence (hist k rs).
Proof.
  intros Hok Hperm Hh. destruct (run_merge_spec fence inputs Hok) as (merged & -> & Hp & Hs).
  rewrite gc_pass_key by done. rewrite <-(gc_pass_history fence k) by (done || apply hist_keys). f_equal.
  apply (StronglySorted_unique_strong kv_le).
  - intros a b Ha Hb Hab Hba. eapply (history_inj (hist k rs)); [done| |done|].
    + unfold hist. rewrite <-Hperm. rewrite list_elem_of_filter in Ha |- *. by rewrite <-Hp.
    + apply kv_le_spec in Hab, Hba. apply list_elem_of_filter in Ha as [Ha _]. apply list_elem_of_filter in Hb as [Hb _].
      rewrite Ha, Hb, bytes_cmp_refl in Hab, Hba. naive_solver lia.
  - by apply sorted_filter.
  - eapply history_kv_sorted; [done|apply hist_keys].
  - unfold hist. by rewrite Hp, Hperm.
Qed.

Lemma run_merge_ok fence inputs :
  Forall (run_ok limit) inputs → Z.of_nat (length (mjoin (entries <$> inputs))) < 2 ^ 32 →
  run_ok limit (run_merge limit fence inputs) ∧ is_mutable (run_merge limit fence inputs) = false.
Proof.
  intros Hok Hl. split; [|by destruct inputs].
  assert (kvs_ok (entries (run_merge limit fence inputs))) as Hkvs.
  { destruct (run_merge_spec fence inputs Hok) as (merged & -> & Hp & Hs).
    pose proof (gc_pass_sublist fence merged) as Hsub.
    split; [|split].
    - by eapply sorted_sublist.
    - apply Forall_forall. intros e He. apply elem_of_sublist with (l2 := merged) in He; [|done].
      rewrite Hp in He. apply list_elem_of_join in He as (l & He & Hin). apply list_elem_of_fmap in Hin as (r & -> & Hr).
      rewrite Forall_forall in Hok. destruct (Hok r Hr) as [(_ & Hk & _) _ _]. rewrite Forall_forall in Hk. by apply Hk.
    - apply sublist_length in Hsub. apply Permutation_length in Hp. lia. }
  destruct inputs as [|r rs]; by apply build_presorted_ok.
Qed.
End MergeFacts.

(** ** Every run the engine can hold *)

Section Built.
Context {SO : SliceOps} `{!SliceLaws SO} (limit : Z) (Hlimit : 4 ≤ limit ≤ 28).

Inductive built : MemoryRun → Prop :=
| built_new : built (new_mutable limit)
| built_append r es :
    built r → is_mutable r = true → Forall (λ e, length (key e) = 36%nat) es →
    Z.of_nat (length (entries r) + length es) < 2 ^ 32 → built (append_and_rebuild es r)
| built_freeze r : built r → built (freeze limit r)
| built_erase since r : built r → is_mutable r = true → built (run_erase_since limit since r)
| built_merge fence rs :
    (∀ r, r ∈ rs → built r) → Z.of_nat (length (mjoin (entries <$> rs))) < 2 ^ 32 → built (run_merge limit fence rs).

Lemma built_ok r : built r → run_ok limit r.
Proof.
  induction 1 as [|r es _ IH Hm Hk Hl|r _ IH|since r _ IH Hm|fence rs _ IH Hl].
  - apply new_mutable_ok.
  - by apply append_ok.
  - by apply freeze_ok.
  - by apply run_erase_since_ok.
  - apply run_merge_ok; [|done]. by apply Forall_forall.
Qed.

(** [C30] Every run is well formed: entries sorted by key, newest first, its
    height range exact, and the directory and the filter of a frozen run those
    of its entries. *)
Theorem built_run_well_formed r :
  built r →
  StronglySorted kv_le (entries r) ∧ height_range r = height_range_of (entries r) ∧
  (is_mutable r = false → directory r = directory_build limit (entries r) ∧ bloom r = bloom_build (entries r)).
Proof. by intros [(Hs & _) Hr Hf]%built_ok. Qed.

(** [C29] A lookup through filter, directory and binary search never leaves
    its vectors, and returns what a linear scan of the entries of the key
    returns, for every run, key and window of heights. *)
Theorem lookup_key_exact r k since before :
  built r → length k = 36%nat → lookup_key r k since before = Ok (reference (entries r) k since before).
Proof. intros Hb%built_ok. by apply (lookup_key_reference limit Hlimit). Qed.
End Built.

(** ** Concrete slice operations and a concrete run *)

Module RunWitness.
Fixpoint count_while (p : OutputKV → bool) (l : list OutputKV) : nat :=
  match l with e :: l' => if p e then S (count_while p l') else O | [] => O end.
Fixpoint pop_min (h : list HeapItem) : option (HeapItem * list HeapItem) :=
  match h with
  | [] => None
  | i :: h' => match pop_min h' with
               | None => Some (i, h')
               | Some (j, r) => if decide (kv_le (entry i) (entry j)) then Some (i, j :: r) else Some (j, i :: r)
               end
  end.
#[export] Instance slices : SliceOps := {|
  sort_unstable := merge_sort kv_le; partition_point := count_while; heap_pop := pop_min |}.
Lemma pop_min_none h : pop_min h = None → h = [].
Proof. destruct h as [|i h]; [done|]. cbn [pop_min]. destruct (pop_min h) as [[j r]|]; [by case_decide|done]. Qed.
Lemma pop_min_some h i h' :
  pop_min h = Some (i, h') → h ≡ₚ i :: h' ∧ Forall (λ j, kv_le (entry i) (entry j)) h'.
Proof.
  revert i h'. induction h as [|x h IH]; intros i h' E; [done|]. cbn [pop_min] in E.
  destruct (pop_min h) as [[j r]|] eqn:Ep.
  - destruct (IH j r eq_refl) as [Hp Hf]. case_decide as Hle; injection E as <- <-.
    + split; [by rewrite Hp|]. constructor; [done|]. eapply Forall_impl; [exact Hf|]. intros y Hy. by etrans.
    + split; [rewrite Hp; apply perm_swap|]. constructor; [|done]. by destruct (kv_le_total (entry x) (entry j)).
  - apply pop_min_none in Ep as ->. injection E as <- <-. by split; [|constructor].
Qed.
#[export] Instance slices_ok : SliceLaws slices.
Proof.
  split; cbn.
  - intros l. apply merge_sort_Permutation.
  - intros l. apply StronglySorted_merge_sort; apply _.
  - intros p l1 l2 H1 H2. induction H1 as [|e l1 He _ IH]; cbn [app count_while length].
    + destruct H2 as [|e l2 He _]; [done|]. cbn [count_while]. by rewrite He.
    + by rewrite He, IH.
  - exact pop_min_none.
  - exact pop_min_some.
Qed.

Definition coin (n : Z) : bytes := to_be 36 (n * 2 ^ 256).
Definition add n hgt := mkKV (coin n) hgt 0 (n * 1000 + hgt).
Definition del n hgt := mkKV (coin n) hgt (-1) 0.
Definition run1 : MemoryRun := freeze 20 (append_and_rebuild [del 1 7; add 3 7] (append_and_rebuild [add 2 5; add 1 5] (new_mutable 20))).

Lemma run1_built : built 20 run1.
Proof.
  apply built_freeze, built_append; [apply built_append; [apply built_new|..]|..];
    try done; repeat constructor.
Qed.
Lemma built_run_well_formed_witness : directory run1 = directory_build 20 (entries run1).
Proof. by apply (built_run_well_formed 20 run1 run1_built). Defined.
Lemma lookup_key_exact_witness :
  lookup_key run1 (coin 2) 0 100 = Ok (Some 2005) ∧ lookup_key run1 (coin 1) 0 100 = Ok (Some OUTPUT_ID_DELETED).
Proof.
  split.
  - rewrite (lookup_key_exact 20 ltac:(lia) run1 (coin 2) 0 100 run1_built (length_to_be 36 _)). by vm_compute.
  - rewrite (lookup_key_exact 20 ltac:(lia) run1 (coin 1) 0 100 run1_built (length_to_be 36 _)). by vm_compute.
Defined.
End RunWitness.
