(* ===== verification/IbdIndex.v ===== *)
(** * IbdIndex: the tiers of the coin index

    [storage/ibd_engine/memory_age.rs], [index.rs] and the query of
    [disk_index.rs]: seven ages of runs, each merged into the next, with the cold
    tier behind them.  Blocks are appended to the first age while compacter
    threads merge older runs; a pin keeps the heights a reader still needs.  The
    file models the ages with the identity of their shared runs, appending,
    taking runs for a merge, finishing it, and the batch query; the proofs are in
    [IbdRefine]. *)

From S2P Require Import Prelude Bytes IbdRun IbdMerge.
From stdpp Require Import sorting.
Open Scope Z_scope.

Definition K_AGES : nat := 7.
Abbreviation K_MUTABLE_AGES := 3%nat (only parsing).

(** [Arc<MemoryRun>]: the run with its address. *)
Record Arc := mkArc { ptr : nat; run : MemoryRun }.

(** The runs from the oldest to the newest. *)
Record MemoryAge := mkAge {
  runs : list Arc;
  merge_fan_in : nat;
  spill_early_take : nat;
  pins : gset Z;
  merged_to : Z;
  is_merging : bool;
}.
Definition with_runs (rs : list Arc) (a : MemoryAge) : MemoryAge :=
  mkAge rs (merge_fan_in a) (spill_early_take a) (pins a) (merged_to a) (is_merging a).
Definition with_pins (ps : gset Z) (a : MemoryAge) : MemoryAge :=
  mkAge (runs a) (merge_fan_in a) (spill_early_take a) ps (merged_to a) (is_merging a).

(** ** Taking runs for a merge *)

(** [pins.iter().next()] of the ordered set. *)
Definition min_pin_height (ps : gset Z) : option Z :=
  match elements ps with [] => None | x :: l => Some (foldl Z.min x l) end.

Fixpoint runs_below (pin : Z) (rs : list Arc) : nat :=
  match rs with
  | r :: rs' => if (height_range (run r)).2 <? pin then S (runs_below pin rs') else O
  | [] => O
  end.
Definition mergeable_prefix_len (rs : list Arc) (min_pin : option Z) : nat :=
  match min_pin with None => length rs | Some pin => runs_below pin rs end.

(** [MIN_PARTIAL_MERGE] is 1. *)
Definition merge_take_count (run_count mergeable fan_in spill_early : nat) : option nat :=
  if (mergeable =? 0)%nat then None
  else if (0 <? spill_early)%nat && (spill_early <=? mergeable)%nat then
    Some (Nat.min (Nat.min mergeable spill_early) fan_in)
  else if (fan_in * 2 <=? run_count)%nat && (1 <=? mergeable)%nat then
    Some (Nat.min (Nat.min mergeable 2) fan_in)
  else if (fan_in <=? mergeable)%nat then Some fan_in
  else if (fan_in <=? run_count)%nat && (1 <=? mergeable)%nat then Some (Nat.min mergeable fan_in)
  else None.

(** The runs stay in the age; the flag keeps other threads away. *)
Definition take_for_merge (a : MemoryAge) : option (list Arc * MemoryAge) :=
  if is_merging a then None
  else
    match merge_take_count (length (runs a)) (mergeable_prefix_len (runs a) (min_pin_height (pins a)))
            (merge_fan_in a) (spill_early_take a) with
    | None => None
    | Some take_n =>
        Some (take take_n (runs a),
              mkAge (runs a) (merge_fan_in a) (spill_early_take a) (pins a) (merged_to a) true)
    end.

(** The taken runs are removed by address. *)
Definition complete_merge (merged_height : Z) (taken : list Arc) (a : MemoryAge) : MemoryAge :=
  mkAge (filter (λ r, ptr r ∉ (ptr <$> taken)) (runs a)) (merge_fan_in a) (spill_early_take a) (pins a)
    (Z.max (merged_to a) merged_height) false.
Definition push_frozen_run (r : Arc) (a : MemoryAge) : MemoryAge := with_runs (runs a ++ [r]) a.

(** ** The index *)

(** [cold] holds what was spilled, from the oldest to the newest: the segments
    and pending spills of the cold tier as runs. *)
Record UtxoIndex := mkIndex {
  ages : list MemoryAge;
  cold : list MemoryRun;
  contiguous_length : Z;
  next_ptr : nat;
}.

(** The settings a merge reads. *)
Record MergeSettings := mkSettings { eviction_age : nat; tip_resident : bool; oldest_accumulate : bool; size_cap : bool }.

Section Engine.
Context {SO : SliceOps} (limit : Z) (max_entries : nat).

(** ** Appending a block *)

Definition set_tip (rs : list Arc) (tip : Arc) : list Arc := take (length rs - 1) rs ++ [tip].

(** [shared]: the vector or the tip has another holder. *)
Definition try_append_in_place (shared : bool) (es : list OutputKV) (a : MemoryAge) : option MemoryAge :=
  match last (runs a) with
  | None => None
  | Some tip =>
      if shared || negb (is_mutable (run tip)) || (max_entries <? length (entries (run tip)) + length es)%nat then None
      else Some (with_runs (set_tip (runs a) (mkArc (ptr tip) (append_and_rebuild es (run tip)))) a)
  end.
Definition append_slow_path (next : nat) (es : list OutputKV) (a : MemoryAge) : MemoryAge :=
  let new_run := append_and_rebuild es (new_mutable limit) in
  match last (runs a) with
  | Some tip =>
      if is_mutable (run tip) then
        if (length (entries (run tip)) + length es <=? max_entries)%nat then with_runs (set_tip (runs a) (mkArc next (append_and_rebuild es (run tip)))) a
        else with_runs (set_tip (runs a) (mkArc next (freeze limit (run tip))) ++ [mkArc (S next) new_run]) a
      else with_runs (runs a ++ [mkArc next new_run]) a
  | None => with_runs (runs a ++ [mkArc next new_run]) a
  end.
(** A batch that could not be appended in place is staged, tried again, and
    then goes the slow way; the staging is empty afterwards. *)
Definition age_append (shared shared' : bool) (next : nat) (es : list OutputKV) (a : MemoryAge) : MemoryAge :=
  match try_append_in_place shared es a with
  | Some a' => a'
  | None =>
      match try_append_in_place shared' es a with
      | Some a' => a'
      | None => append_slow_path next es a
      end
  end.
Definition index_append (shared shared' : bool) (es : list OutputKV) (hgt : Z) (ix : UtxoIndex) : UtxoIndex :=
  mkIndex (alter (λ a, age_append shared shared' (next_ptr ix) es (with_pins ({[hgt]} ∪ pins a) a)) 0%nat (ages ix))
    (cold ix) (Z.max (contiguous_length ix) hgt) (next_ptr ix + 2).
(** [Pin::drop] *)
Definition unpin (hgt : Z) (ix : UtxoIndex) : UtxoIndex :=
  mkIndex (alter (λ a, with_pins (pins a ∖ {[hgt]}) a) 0%nat (ages ix)) (cold ix) (contiguous_length ix) (next_ptr ix).

(** ** A merge, in the two halves between which other threads run *)

Definition begin_merge (age_idx : nat) (ix : UtxoIndex) : option (list Arc * UtxoIndex) :=
  match ages ix !! age_idx ≫= take_for_merge with
  | None => None
  | Some (taken, a) =>
      Some (taken, mkIndex (<[age_idx := a]> (ages ix)) (cold ix) (contiguous_length ix) (next_ptr ix))
  end.

(** Where the merged run goes: an age, or the cold tier. *)
Definition destination (m : MergeSettings) (age_idx : nat) : option nat :=
  let emergency_floor := (eviction_age m <=? K_MUTABLE_AGES)%nat in
  let tip_hold := tip_resident m && negb emergency_floor in
  let oldest_acc := oldest_accumulate m && negb emergency_floor in
  let force_disk := negb tip_hold && size_cap m in
  let effective_eviction := if tip_hold && negb oldest_acc then K_AGES else eviction_age m in
  let would_leave_ram := (effective_eviction <=? S age_idx)%nat || force_disk in
  if oldest_acc && would_leave_ram && negb force_disk then Some (Nat.min (effective_eviction - 1) (K_AGES - 1))
  else if (S age_idx <? effective_eviction)%nat && negb force_disk then Some (S age_idx)
  else None.

(** The merged run is pushed while its inputs are still there; [disk_ok]: the
    segment could be written, and a failure is only logged. *)
Definition push_merged (m : MergeSettings) (disk_ok : bool) (fence : OutputKV → Z) (age_idx : nat) (taken : list Arc) (ix : UtxoIndex)
  : UtxoIndex :=
  let merged := run_merge limit fence (run <$> taken) in
  let '(ages1, cold1) :=
    match entries merged with
    | [] => (ages ix, cold ix)
    | _ => match destination m age_idx with
           | Some dest => (alter (push_frozen_run (mkArc (next_ptr ix) merged)) dest (ages ix), cold ix)
           | None => (ages ix, if disk_ok then cold ix ++ [merged] else cold ix)
           end
    end in
  mkIndex ages1 cold1 (contiguous_length ix) (next_ptr ix + 1).
Definition finish_merge (m : MergeSettings) (disk_ok : bool) (fence : OutputKV → Z) (age_idx : nat) (taken : list Arc) (ix : UtxoIndex)
  : UtxoIndex :=
  let max_h := foldl Z.max I32_MIN ((λ r, (height_range (run r)).2) <$> taken) in
  let ix1 := push_merged m disk_ok fence age_idx taken ix in
  mkIndex (alter (complete_merge max_h taken) age_idx (ages ix1)) (cold ix1) (contiguous_length ix1) (next_ptr ix1).

(** ** The query *)

(** [batch_query] of one age on its runs from the newest: keys still at [MAX]
    are looked up, and the loop ends when there are none. *)
Fixpoint query_runs (rs : list MemoryRun) (keys : list bytes) (ids : list Z) (before : Z) : result (list Z) :=
  match rs with
  | [] => Ok ids
  | r :: rs' =>
      if bool_decide (OUTPUT_ID_MAX ∈ ids)
      then let+ ids' := batch_lookup r keys ids 0 before in query_runs rs' keys ids' before
      else Ok ids
  end.
Fixpoint query_ages (ags : list MemoryAge) (keys : list bytes) (ids : list Z) (before : Z) : result (list Z) :=
  match ags with
  | [] => Ok ids
  | a :: ags' =>
      if bool_decide (OUTPUT_ID_MAX ∈ ids)
      then let+ ids' := query_runs (reverse (run <$> runs a)) keys ids before in query_ages ags' keys ids' before
      else Ok ids
  end.
(** The cold tier also turns the marker of a spent coin into [MAX]. *)
Definition query_cold (c : list MemoryRun) (keys : list bytes) (ids : list Z) (before : Z) : result (list Z) :=
  let+ ids' := query_runs (reverse c) keys ids before in
  Ok ((λ i, if i =? OUTPUT_ID_DELETED then OUTPUT_ID_MAX else i) <$> ids').
Definition index_batch_query (keys : list bytes) (ids : list Z) (before : Z) (ix : UtxoIndex) : result (list Z) :=
  let+ ids1 := query_ages (ages ix) keys ids before in
  if bool_decide (OUTPUT_ID_MAX ∈ ids1) then query_cold (cold ix) keys ids1 before else Ok ids1.
End Engine.
