(* ===== verification/IbdRefine.v ===== *)
(** * IbdRefine: the coin index refines the coins of the chain

    The proofs on [IbdIndex].  The abstract state is the list of appended
    blocks; the coin a reader below a height sees is decided by the newest event
    of its key there.  Every interleaving of appending, pinning, taking runs and
    finishing merges under the conditions of [in_order] keeps the tiers an
    implementation of it; the end of the file computes what happens without. *)

From S2P Require Import Prelude Bytes IbdRun IbdMerge IbdIndex.
From stdpp Require Import sorting.
Open Scope Z_scope.

(** ** What a query reads *)

Definition entry_ok (e : OutputKV) : Prop :=
  0 ≤ kv_height e ∧ (op e = 0 ∨ op e = -1) ∧ (is_add e = true → 0 ≤ id e < OUTPUT_ID_DELETED).
(** An id as the caller of a query takes it. *)
Definition seen (i : Z) : option Z := if (i =? OUTPUT_ID_MAX) || (i =? OUTPUT_ID_DELETED) then None else Some i.

Lemma newest_app before l1 l2 :
  newest before (l1 ++ l2) = match newest before l1 with Some e => Some e | None => newest before l2 end.
Proof.
  induction l1 as [|e l1 IH]; [done|]. cbn [app]. rewrite !newest_cons. by case_decide.
Qed.
Lemma newest_elem before l e : newest before l = Some e → e ∈ l ∧ kv_height e < before.
Proof.
  intros He. unfold newest in He. apply head_Some_elem_of in He. by apply list_elem_of_filter in He as [? ?].
Qed.
Lemma verdict_lt e : entry_ok e → verdict e ≠ OUTPUT_ID_MAX.
Proof.
  intros (_ & _ & Hid). unfold verdict, OUTPUT_ID_MAX, OUTPUT_ID_DELETED in *.
  destruct (is_add e); [specialize (Hid eq_refl)|]; unfold OUTPUT_ID_MAX in *; lia.
Qed.
Lemma history_app_l l1 l2 : history (l1 ++ l2) → history l1.
Proof.
  induction l1 as [|e l1 IH]; [by split; [constructor|]|]. cbn [app]. rewrite !history_cons.
  intros (Ho & Hx & Hh). split_and!; [done| |by apply IH]. intros x Hl. apply Hx. by destruct l1.
Qed.

(** In each run the events of the key alternate. *)
Abbreviation each_history k rs := (Forall (λ r, history (of_key k (entries r))) rs).
Lemma hist_each k rs : history (hist k rs) → each_history k rs.
Proof.
  induction rs as [|r rs IH]; [constructor|]. rewrite hist_cons. intros Hh. constructor; [by eapply history_app_l|].
  apply IH. by eapply history_app_r.
Qed.

Section Query.
Context {SO : SliceOps} `{!SliceLaws SO} (limit : Z) (Hlimit : 4 ≤ limit ≤ 28) (before : Z).

Definition level_ok (r : MemoryRun) : Prop := run_ok limit r ∧ Forall entry_ok (entries r).
(** One id after the runs [rs], from the newest, were searched for [k]. *)
Definition upd (rs : list MemoryRun) (k : bytes) (i : Z) : Z :=
  if i =? OUTPUT_ID_MAX then default i (verdict <$> newest before (hist k rs)) else i.

Lemma hist_entry_ok rs k e : Forall level_ok rs → e ∈ hist k rs → entry_ok e ∧ key e = k.
Proof.
  intros Hok [Hk He]%list_elem_of_filter. split; [|done].
  apply list_elem_of_join in He as (l & He & Hl). apply list_elem_of_fmap in Hl as (r & -> & Hr).
  rewrite Forall_forall in Hok. destruct (Hok r Hr) as [_ Hall]. rewrite Forall_forall in Hall. by apply Hall.
Qed.
Lemma upd_app rs1 rs2 k i : Forall level_ok rs1 → upd (rs1 ++ rs2) k i = upd rs2 k (upd rs1 k i).
Proof.
  intros Hok. unfold upd. rewrite hist_app, newest_app. destruct (Z.eqb_spec i OUTPUT_ID_MAX) as [->|Hi].
  2: { by rewrite (proj2 (Z.eqb_neq _ _) Hi). }
  destruct (newest before (hist k rs1)) as [e|] eqn:E; cbn [fmap option_fmap option_map from_option]; unfold Datatypes.id.
  - apply newest_elem in E as [He _]. apply hist_entry_ok in He as [He _]; [|done].
    by rewrite (proj2 (Z.eqb_neq _ _) (verdict_lt e He)).
  - by rewrite Z.eqb_refl.
Qed.
Lemma upd_compose rs1 rs2 keys ids :
  Forall level_ok rs1 → length keys = length ids →
  zip_with (upd rs2) keys (zip_with (upd rs1) keys ids) = zip_with (upd (rs1 ++ rs2)) keys ids.
Proof.
  intros Hok. revert ids. induction keys as [|k keys IH]; intros [|i ids] Hl; try done. cbn [zip_with]. injection Hl as Hl.
  rewrite IH by done. f_equal. symmetry. by apply upd_app.
Qed.
Lemma upd_done rs keys ids :
  length keys = length ids → OUTPUT_ID_MAX ∉ ids → zip_with (upd rs) keys ids = ids.
Proof.
  revert ids. induction keys as [|k keys IH]; intros [|i ids] Hl Hno; try done. cbn [zip_with]. injection Hl as Hl.
  apply not_elem_of_cons in Hno as [Hi Hno]. rewrite IH by done. f_equal. unfold upd.
  by rewrite (proj2 (Z.eqb_neq _ _) (not_eq_sym Hi)).
Qed.

Lemma batch_lookup_spec r keys ids :
  level_ok r → length keys = length ids → Forall (λ k, length k = 36%nat ∧ history (of_key k (entries r))) keys →
  batch_lookup r keys ids 0 before = Ok (zip_with (upd [r]) keys ids).
Proof.
  intros [Hok Hall]. revert ids. induction keys as [|k keys IH]; intros [|i ids] Hl Hk; try done. injection Hl as Hl.
  apply Forall_cons in Hk as [[Hk Hh] Hks]. cbn [batch_lookup zip_with]. rewrite IH by done.
  unfold upd at 2. replace (hist k [r]) with (of_key k (entries r)) by (by rewrite hist_cons; unfold hist; cbn; rewrite app_nil_r).
  destruct (i =? OUTPUT_ID_MAX); [|done].
  rewrite (lookup_key_reference limit Hlimit) by done. cbn [rbind]. unfold reference.
  rewrite scan_history; [done|done|apply Forall_forall; by intros e [He _]%list_elem_of_filter|].
  apply forall_filter. eapply Forall_impl; [exact Hall|]. by intros e [He _].
Qed.

Lemma query_runs_spec rs keys ids :
  Forall level_ok rs → length keys = length ids → Forall (λ k, length k = 36%nat ∧ each_history k rs) keys →
  query_runs rs keys ids before = Ok (zip_with (upd rs) keys ids).
Proof.
  revert ids. induction rs as [|r rs IH]; intros ids Hok Hl Hk; cbn [query_runs].
  { f_equal. clear Hk. revert ids Hl. induction keys as [|k keys IHk]; intros [|i ids] Hl; try done. cbn [zip_with]. injection Hl as Hl.
    rewrite <-IHk by done. f_equal. unfold upd. by destruct (_ =? _). }
  pose proof Hok as [Hr Hrs]%Forall_cons. case_bool_decide as Hmax; [|by rewrite upd_done].
  rewrite batch_lookup_spec; [|done|done|].
  2: { eapply Forall_impl; [exact Hk|]. by intros k [Hlen [Hh _]%Forall_cons]. }
  cbn [rbind]. rewrite IH; [|done|by rewrite length_zip_with, Hl, Nat.min_id|].
  2: { eapply Forall_impl; [exact Hk|]. by intros k [Hlen [_ Hh]%Forall_cons]. }
  f_equal. apply (upd_compose [r] rs); [by constructor|done].
Qed.
End Query.

(** ** Levels: all runs from the newest to the oldest *)

Definition age_levels (a : MemoryAge) : list MemoryRun := reverse (run <$> runs a).
Definition levels (ix : UtxoIndex) : list MemoryRun := mjoin (age_levels <$> ages ix) ++ reverse (cold ix).

(** The coin of [k] a reader of the levels below [before] sees. *)
Definition coin_of (before : Z) (l : list OutputKV) : option Z := visible (verdict <$> newest before l).

Section IndexQuery.
Context {SO : SliceOps} `{!SliceLaws SO} (limit : Z) (Hlimit : 4 ≤ limit ≤ 28) (before : Z).

Lemma query_ages_spec ags keys ids :
  let rs := mjoin (age_levels <$> ags) in
  Forall (level_ok limit) rs → length keys = length ids → Forall (λ k, length k = 36%nat ∧ each_history k rs) keys →
  query_ages ags keys ids before = Ok (zip_with (upd before rs) keys ids).
Proof.
  revert ids. induction ags as [|a ags IH]; intros ids rs Hok Hl Hk; cbn [query_ages].
  { by apply (query_runs_spec limit Hlimit before [] keys ids). }
  subst rs. cbn [fmap list_fmap mjoin list_join] in *. fold (age_levels a).
  set (rest := mjoin (age_levels <$> ags)) in *. apply Forall_app in Hok as [Hr Hrs].
  case_bool_decide as Hmax; [|by rewrite upd_done].
  rewrite (query_runs_spec limit Hlimit); [|done|done|].
  2: { eapply Forall_impl; [exact Hk|]. by intros k [Hlen [Hh _]%Forall_app]. }
  cbn [rbind]. rewrite IH; [|done|by rewrite length_zip_with, Hl, Nat.min_id|].
  2: { eapply Forall_impl; [exact Hk|]. by intros k [Hlen [_ Hh]%Forall_app]. }
  f_equal. by apply (upd_compose limit).
Qed.

Lemma seen_verdict e : entry_ok e → seen (verdict e) = visible (Some (verdict e)).
Proof. intros He%verdict_lt. unfold seen. by rewrite (proj2 (Z.eqb_neq _ _) He). Qed.
Lemma seen_add e : entry_ok e → seen (verdict e) = if is_add e then Some (id e) else None.
Proof.
  intros (_ & _ & Hid). unfold seen, verdict. destruct (is_add e); [|by rewrite Z.eqb_refl, orb_true_r].
  specialize (Hid eq_refl). assert (OUTPUT_ID_DELETED < OUTPUT_ID_MAX) by done.
  by rewrite (proj2 (Z.eqb_neq (id e) OUTPUT_ID_MAX)), (proj2 (Z.eqb_neq (id e) OUTPUT_ID_DELETED)) by lia.
Qed.
Lemma seen_upd rs k : Forall (level_ok limit) rs → seen (upd before rs k OUTPUT_ID_MAX) = coin_of before (hist k rs).
Proof.
  intros Hok. unfold upd, coin_of. rewrite Z.eqb_refl. destruct (newest before (hist k rs)) as [e|] eqn:E; [|done].
  apply newest_elem in E as [He _]. apply (hist_entry_ok limit) in He as [He _]; [|done]. by apply seen_verdict.
Qed.

(** A query of the index answers from the levels as one list. *)
Lemma index_query_spec keys ix :
  Forall (level_ok limit) (levels ix) → Forall (λ k, length k = 36%nat ∧ each_history k (levels ix)) keys →
  ∃ ids, index_batch_query keys (replicate (length keys) OUTPUT_ID_MAX) before ix = Ok ids ∧
         seen <$> ids = (λ k, coin_of before (hist k (levels ix))) <$> keys.
Proof.
  intros Hok Hk. unfold levels in *. apply Forall_app in Hok as [Hm Hc]. set (mem := mjoin (age_levels <$> ages ix)) in *.
  unfold index_batch_query.
  assert (∀ rs, Forall (level_ok limit) rs →
    seen <$> zip_with (upd before rs) keys (replicate (length keys) OUTPUT_ID_MAX) = (λ k, coin_of before (hist k rs)) <$> keys) as Hseen.
  { intros rs Hrs. clear -Hrs. induction keys as [|k keys IH]; [done|].
    cbn [length replicate zip_with fmap list_fmap]. by rewrite (seen_upd rs k Hrs), IH. }
  assert (length keys = length (replicate (length keys) OUTPUT_ID_MAX)) as Hlen by by rewrite length_replicate.
  rewrite query_ages_spec; [|done|done|]; cycle 1.
  { eapply Forall_impl; [exact Hk|]. by intros k [Hl [Hh _]%Forall_app]. }
  cbn [rbind]. fold mem. set (ids1 := zip_with _ _ _). case_bool_decide as Hmax.
  - unfold query_cold. rewrite (query_runs_spec limit Hlimit); [|done|by unfold ids1; rewrite length_zip_with, <-Hlen, Nat.min_id|].
    2: { eapply Forall_impl; [exact Hk|]. by intros k [Hl [_ Hh]%Forall_app]. }
    cbn [rbind]. eexists. split; [done|]. unfold ids1. rewrite (upd_compose limit) by done.
    rewrite <-(Hseen (mem ++ reverse (cold ix))) by by apply Forall_app. rewrite <-list_fmap_compose. apply list_fmap_ext.
    intros _ i _. unfold compose, seen. destruct (i =? OUTPUT_ID_DELETED) eqn:E; [|by rewrite E].
    apply Z.eqb_eq in E as ->. by vm_compute.
  - exists ids1. split; [done|]. rewrite <-(Hseen (mem ++ reverse (cold ix))) by by apply Forall_app.
    rewrite <-(upd_compose limit) by done. fold ids1.
    by rewrite upd_done by (done || (unfold ids1; by rewrite length_zip_with, <-Hlen, Nat.min_id)).
Qed.
End IndexQuery.

(** ** Runs of the engine *)

(** The events of a key in the appended blocks, from the newest. *)
Definition log_hist (k : bytes) (log : list (list OutputKV)) : list OutputKV := of_key k (mjoin log).

Record World := mkWorld {
  index : UtxoIndex;
  log : list (list OutputKV);     (* the appended blocks *)
  top : Z;                        (* the height of the newest *)
  inflight : list (nat * list Arc); (* the merges begun and not finished *)
}.
Definition pins_of (ix : UtxoIndex) : gset Z := from_option pins ∅ (ages ix !! 0%nat).

(** The entries of a block at height [h]: with what was there, the events of
    every key alternate. *)
Definition block_ok (w : World) (es : list OutputKV) (h : Z) : Prop :=
  es ≠ [] ∧ top w < h ∧ Z.of_nat (length es) < 2 ^ 32 ∧
  Forall (λ e, kv_height e = h ∧ entry_ok e ∧ length (key e) = 36%nat) es ∧
  ∀ k, history (of_key k es ++ log_hist k (log w)).

Section Steps.
Context {SO : SliceOps} (limit : Z) (max_entries : nat).

Definition world0 (spill : list nat) : World :=
  mkWorld (mkIndex ((λ n, mkAge [] 8 n ∅ I32_MIN false) <$> spill) [] (-1) 0) [] (-1) [].

(** What the engine is asked to do.  Unpinning, beginning a merge and finishing
    one come from other threads than the appends, so the labels interleave
    freely; a finished merge brings the settings of its time, whether its segment
    could be written, and the fence each cancelled deletion was compared with. *)
Inductive label :=
| Append (es : list OutputKV) (h : Z) (shared shared' : bool)
| Unpin (h : Z)
| Begin (i : nat) (taken : list Arc)
| Finish (m : MergeSettings) (disk_ok : bool) (fence : OutputKV → Z) (i : nat) (taken : list Arc).

(** What it then does, whatever the state. *)
Inductive engine_step : World → label → World → Prop :=
| engine_append w es h shared shared' :
    engine_step w (Append es h shared shared')
      (mkWorld (index_append limit max_entries shared shared' es h (index w)) (es :: log w) h (inflight w))
| engine_unpin w h : engine_step w (Unpin h) (mkWorld (unpin h (index w)) (log w) (top w) (inflight w))
| engine_begin w i taken ix :
    begin_merge i (index w) = Some (taken, ix) →
    engine_step w (Begin i taken) (mkWorld ix (log w) (top w) ((i, taken) :: inflight w))
| engine_finish w m disk_ok fence i taken before after :
    inflight w = before ++ (i, taken) :: after →
    engine_step w (Finish m disk_ok fence i taken)
      (mkWorld (finish_merge limit m disk_ok fence i taken (index w)) (log w) (top w) (before ++ after)).

(** A merged run goes to the next age, or to the cold tier when the ages between
    are empty, and has fewer than 2^32 entries. *)
Definition may_finish (w : World) (m : MergeSettings) (i : nat) (taken : list Arc) : Prop :=
  oldest_accumulate m = false ∧ (eviction_age m ≤ K_AGES)%nat ∧
  (destination m i = None → Forall (λ a, runs a = []) (drop (S i) (ages (index w)))) ∧
  Z.of_nat (length (mjoin (entries <$> (run <$> taken)))) < 2 ^ 32.

(** The conditions under which the engine is right: blocks come in order with
    events that alternate, the newest block is pinned when a merge of the first
    age begins, and a merge finishes as above with its segment written.  The code
    checks none of them; the end of the file shows what happens without. *)
Definition in_order (w : World) (l : label) : Prop :=
  match l with
  | Append es h _ _ => block_ok w es h
  | Unpin _ => True
  | Begin i _ => i = 0%nat → top w ∈ pins_of (index w)
  | Finish m disk_ok _ i taken => disk_ok = true ∧ may_finish w m i taken
  end.
Definition step (w w' : World) : Prop := ∃ l, engine_step w l w' ∧ in_order w l.

(** The indexes a reader can meet: also the one in which a merged run has been
    pushed and its inputs are not yet removed. *)
Inductive met (w : World) : UtxoIndex → Prop :=
| met_now : met w (index w)
| met_pushed m fence i taken :
    (i, taken) ∈ inflight w → may_finish w m i taken → met w (push_merged limit m true fence i taken (index w)).
End Steps.

(** ** The levels under each operation *)

Lemma alter_mid {A} (f : A → A) l1 x l2 : alter f (length l1) (l1 ++ x :: l2) = l1 ++ f x :: l2.
Proof. induction l1 as [|y l1 IH]; [done|]. cbn. f_equal. exact IH. Qed.
Lemma split_at {A} (l : list A) i x : l !! i = Some x → ∃ l1 l2, l = l1 ++ x :: l2 ∧ length l1 = i.
Proof. intros Hx. exists (take i l), (drop (S i) l). split; [by rewrite take_drop_middle|]. apply length_take_le. apply lookup_lt_Some in Hx. lia. Qed.
Lemma last_split {A} (l : list A) x : last l = Some x → l = take (length l - 1) l ++ [x].
Proof.
  intros Hx. apply last_Some in Hx as [l' ->]. rewrite length_app. cbn [length].
  replace (length l' + 1 - 1)%nat with (length l') by lia. by rewrite take_app_length.
Qed.

Section Levels.
Context {SO : SliceOps} `{!SliceLaws SO} (limit : Z) (max_entries : nat) (Hmax : Z.of_nat max_entries < 2 ^ 32).

Lemma sorted_of_key k l m : StronglySorted kv_le l → l ≡ₚ m → history (of_key k m) → of_key k l = of_key k m.
Proof.
  intros Hs Hp Hh. apply (StronglySorted_unique_strong kv_le).
  - intros a b Ha Hb Hab Hba. rewrite Hp in Ha. eapply (history_inj (of_key k m)); [done|done|done|].
    apply list_elem_of_filter in Ha as [Ha _], Hb as [Hb _].
    apply kv_le_spec in Hab, Hba. rewrite Ha, Hb, bytes_cmp_refl in Hab, Hba. naive_solver lia.
  - by apply sorted_filter.
  - eapply history_kv_sorted; [done|]. apply Forall_forall. by intros e [He _]%list_elem_of_filter.
  - by rewrite Hp.
Qed.

(** What appending does to the runs of an age. *)
Inductive appended (next : nat) (es : list OutputKV) : list Arc → list Arc → Prop :=
| appended_tip pre tip p :
    is_mutable (run tip) = true → (length (entries (run tip)) + length es ≤ max_entries)%nat → p = ptr tip ∨ p = next →
    appended next es (pre ++ [tip]) (pre ++ [mkArc p (append_and_rebuild es (run tip))])
| appended_full pre tip :
    appended next es (pre ++ [tip])
      (pre ++ [mkArc next (freeze limit (run tip)); mkArc (S next) (append_and_rebuild es (new_mutable limit))])
| appended_first rs :
    appended next es rs (rs ++ [mkArc next (append_and_rebuild es (new_mutable limit))]).

Lemma age_append_shape shared shared' next es a :
  ∃ rs, age_append limit max_entries shared shared' next es a = with_runs rs a ∧ appended next es (runs a) rs.
Proof.
  assert (∀ sh a', try_append_in_place max_entries sh es a = Some a' → ∃ rs, a' = with_runs rs a ∧ appended next es (runs a) rs) as Htry.
  { intros sh a'. unfold try_append_in_place. destruct (last (runs a)) as [tip|] eqn:E; [|done].
    destruct (_ || _) eqn:Ec; [done|]. intros [= <-]. eexists. split; [done|]. unfold set_tip.
    rewrite (last_split _ _ E) at 1. rewrite !orb_false_iff, negb_false_iff, Nat.ltb_ge in Ec. destruct Ec as [[_ Em] El].
    apply appended_tip; [done|lia|by left]. }
  unfold age_append. destruct (try_append_in_place max_entries shared es a) eqn:E1; [by eapply Htry|].
  destruct (try_append_in_place max_entries shared' es a) eqn:E2; [by eapply Htry|]. unfold append_slow_path.
  destruct (last (runs a)) as [tip|] eqn:E; [|eexists; split; [done|apply appended_first]].
  destruct (is_mutable (run tip)) eqn:Em; [|eexists; split; [done|apply appended_first]].
  unfold set_tip. destruct (Nat.leb_spec (length (entries (run tip)) + length es) max_entries).
  - eexists. split; [done|]. rewrite (last_split _ _ E) at 1. apply appended_tip; [done|lia|by right].
  - eexists. split; [done|]. rewrite (last_split _ _ E) at 1. rewrite <-(assoc_L (++)). apply appended_full.
Qed.

Abbreviation arcs_ok := (Forall (λ r, level_ok limit (run r))).
Abbreviation kvs_valid es := (Forall (λ e, entry_ok e ∧ length (key e) = 36%nat) es).

Lemma append_level es r :
  level_ok limit r → is_mutable r = true → kvs_valid es → Z.of_nat (length (entries r) + length es) < 2 ^ 32 →
  level_ok limit (append_and_rebuild es r).
Proof.
  intros [Hok Hall] Hm Hes Hl. destruct (append_entries limit es r Hok) as [_ Hp].
  split; [apply append_ok; [done|done| |done]|].
  - eapply Forall_impl; [exact Hes|]. by intros e [_ ?].
  - rewrite Hp. apply Forall_app. split; [done|]. eapply Forall_impl; [exact Hes|]. by intros e [? _].
Qed.
Lemma new_mutable_level : level_ok limit (new_mutable limit).
Proof. split; [apply new_mutable_ok|constructor]. Qed.
Lemma freeze_level r : level_ok limit r → level_ok limit (freeze limit r).
Proof. intros [Hok Hall]. by split; [apply freeze_ok|]. Qed.

Lemma appended_levels next es rs rs' :
  appended next es rs rs' → arcs_ok rs → kvs_valid es → Z.of_nat (length es) < 2 ^ 32 → arcs_ok rs'.
Proof.
  intros Ha Hrs Hes Hl. destruct Ha as [pre tip p Hm Hfit Hp|pre tip|rs]; [apply Forall_app in Hrs..|].
  - destruct Hrs as [Hpre [Htip _]%Forall_cons]. apply Forall_app. split; [done|]. apply Forall_singleton.
    apply append_level; [exact Htip|exact Hm|exact Hes|cbn [run] in *; lia].
  - destruct Hrs as [Hpre [Htip _]%Forall_cons]. apply Forall_app. split; [done|].
    apply Forall_cons. split; [by apply freeze_level|]. apply Forall_singleton. by apply append_level; [apply new_mutable_level|..].
  - apply Forall_app. split; [done|]. apply Forall_singleton. by apply append_level; [apply new_mutable_level|..].
Qed.

(** The levels of an age from its runs. *)
Definition lv (rs : list Arc) : list MemoryRun := reverse (run <$> rs).
Lemma lv_app rs1 rs2 : lv (rs1 ++ rs2) = lv rs2 ++ lv rs1.
Proof. unfold lv. by rewrite fmap_app, reverse_app. Qed.
Lemma lv_one r : lv [r] = [run r].
Proof. done. Qed.
Lemma hist_one k r : hist k [r] = of_key k (entries r).
Proof. unfold hist. cbn. by rewrite app_nil_r. Qed.
Lemma new_run_entries es : StronglySorted kv_le (entries (append_and_rebuild es (new_mutable limit))) ∧ entries (append_and_rebuild es (new_mutable limit)) ≡ₚ es.
Proof. apply (append_entries limit es (new_mutable limit) (new_mutable_ok limit)). Qed.

Lemma appended_hist next es rs rs' k :
  appended next es rs rs' → arcs_ok rs → history (of_key k es ++ hist k (lv rs)) → hist k (lv rs') = of_key k es ++ hist k (lv rs).
Proof.
  intros Ha Hrs Hh. destruct (new_run_entries es) as [Hns Hnp].
  assert (of_key k (entries (append_and_rebuild es (new_mutable limit))) = of_key k es) as Hnew.
  { apply sorted_of_key; [done|done|]. by eapply history_app_l. }
  destruct Ha as [pre tip p Hm Hfit Hp|pre tip|rs]; rewrite !lv_app in *; rewrite ?lv_one, ?hist_app, ?hist_one in *; cbn [run] in *.
  - rewrite (assoc_L (++)). f_equal. apply Forall_app in Hrs as [_ [[Hok _] _]%Forall_cons].
    destruct (append_entries limit es (run tip) Hok) as [Hs Hperm].
    rewrite (sorted_of_key k _ (es ++ entries (run tip))); [by rewrite filter_app|done|by rewrite Hperm, (comm (++))|].
    rewrite filter_app. rewrite (assoc_L (++)) in Hh. by eapply history_app_l.
  - change (lv [?a; ?b]) with [run b; run a]. rewrite hist_cons, hist_one. cbn [run]. rewrite Hnew, <-(assoc_L (++)). done.
  - by rewrite Hnew.
Qed.
Lemma appended_elems next es rs rs' e :
  appended next es rs rs' → arcs_ok rs →
  e ∈ mjoin (entries <$> lv rs') ↔ e ∈ es ∨ e ∈ mjoin (entries <$> lv rs).
Proof.
  intros Ha Hrs. destruct (new_run_entries es) as [_ Hnp].
  destruct Ha as [pre tip p Hm Hfit Hp|pre tip|rs]; rewrite !lv_app, !fmap_app, !join_app, !elem_of_app; cbn.
  - apply Forall_app in Hrs as [_ [[Hok _] _]%Forall_cons].
    destruct (append_entries limit es (run tip) Hok) as [_ Hperm]. rewrite !app_nil_r, Hperm, elem_of_app. tauto.
  - rewrite !app_nil_r, !elem_of_app, Hnp. tauto.
  - rewrite !app_nil_r, Hnp. tauto.
Qed.
Lemma appended_tip_holds next es rs rs' :
  appended next es rs rs' → arcs_ok rs → ∃ tip, last rs' = Some tip ∧ ∀ e, e ∈ es → e ∈ entries (run tip).
Proof.
  intros Ha Hrs. destruct (new_run_entries es) as [_ Hnp].
  destruct Ha as [pre tip p Hm Hfit Hp|pre tip|rs]; (eexists; split; [|]); [by rewrite last_snoc| |..].
  - apply Forall_app in Hrs as [_ [[Hok _] _]%Forall_cons]. destruct (append_entries limit es (run tip) Hok) as [_ Hperm].
    intros e He. cbn [run]. rewrite Hperm. apply elem_of_app. by right.
  - change [?a; ?b] with ([a] ++ [b]). by rewrite (assoc_L (++)), last_snoc.
  - intros e He. cbn [run]. by rewrite Hnp.
  - by rewrite last_snoc.
  - intros e He. cbn [run]. by rewrite Hnp.
Qed.
Lemma appended_prefix next es rs rs' taken rest :
  appended next es rs rs' → rs = taken ++ rest → rest ≠ [] → ∃ rest', rs' = taken ++ rest' ∧ rest' ≠ [].
Proof.
  intros Ha Hrs Hne. destruct (exists_last Hne) as (r1 & x & ->).
  destruct Ha as [pre tip p Hm Hfit Hp|pre tip|rs].
  - rewrite (assoc_L (++)) in Hrs. apply app_inj_tail in Hrs as [-> ->]. rewrite <-(assoc_L (++)).
    eexists. split; [done|]. by destruct r1.
  - rewrite (assoc_L (++)) in Hrs. apply app_inj_tail in Hrs as [-> ->]. rewrite <-(assoc_L (++)).
    eexists. split; [done|]. by destruct r1.
  - subst rs. rewrite <-(assoc_L (++)). eexists. split; [done|]. by destruct r1.
Qed.
Lemma appended_ptrs next es rs rs' :
  appended next es rs rs' → NoDup (ptr <$> rs) → Forall (λ r, (ptr r < next)%nat) rs →
  NoDup (ptr <$> rs') ∧ Forall (λ r, (ptr r < next + 2)%nat) rs'.
Proof.
  intros Ha Hn Hlt.
  assert (Forall (λ r, (ptr r < next + 2)%nat) rs) as Hlt2 by (eapply Forall_impl; [exact Hlt|]; cbn beta; lia).
  assert (∀ p l, Forall (λ r : Arc, (ptr r < next)%nat) l → (next ≤ p)%nat → p ∉ ptr <$> l) as Hno.
  { intros p l Hl Hp Hin. apply list_elem_of_fmap in Hin as (r & -> & Hr). rewrite Forall_forall in Hl. specialize (Hl r Hr). cbn beta in Hl. lia. }
  destruct Ha as [pre tip p Hm Hfit Hp|pre tip|rs].
  - rewrite fmap_app in Hn |- *. apply Forall_app in Hlt as [Hl1 Hl2], Hlt2 as [Hl3 Hl4]. cbn [fmap list_fmap ptr] in *.
    apply NoDup_app in Hn as (H1 & H2 & _). apply Forall_cons in Hl2 as [Hl2 _]. split.
    + apply NoDup_app. split_and!; [done| |apply NoDup_singleton]. intros x Hx Hxp%list_elem_of_singleton. subst x.
      destruct Hp as [->| ->]; [apply (H2 _ Hx); left|by apply (Hno next pre Hl1)].
    + apply Forall_app. split; [done|]. apply Forall_cons. split; [cbn [ptr]; lia|constructor].
  - rewrite fmap_app in Hn |- *. apply Forall_app in Hlt as [Hl1 Hl2], Hlt2 as [Hl3 Hl4]. cbn [fmap list_fmap ptr] in *.
    apply NoDup_app in Hn as (H1 & H2 & _). split.
    + apply NoDup_app. split_and!; [done| |].
      * intros x Hx Hxp. apply (Hno x pre Hl1); [|done]. apply elem_of_cons in Hxp as [->|Hxp%list_elem_of_singleton]; lia.
      * apply NoDup_cons. split; [|apply NoDup_singleton]. intros Hx%list_elem_of_singleton. lia.
    + apply Forall_app. split; [done|]. repeat (apply Forall_cons; split; [cbn [ptr]; lia|]). constructor.
  - rewrite fmap_app. cbn [fmap list_fmap ptr]. split.
    + apply NoDup_app. split_and!; [done| |apply NoDup_singleton]. intros x Hx Hxp%list_elem_of_singleton. subst x. by apply (Hno next rs Hlt).
    + apply Forall_app. split; [done|]. apply Forall_cons. split; [cbn [ptr]; lia|constructor].
Qed.
End Levels.

Section Finish.
Context {SO : SliceOps} `{!SliceLaws SO} (limit : Z).

Lemma destination_next m i :
  oldest_accumulate m = false → (eviction_age m ≤ K_AGES)%nat →
  destination m i = None ∨ destination m i = Some (S i) ∧ (S i < K_AGES)%nat.
Proof.
  intros Ho He. unfold destination. rewrite Ho. cbn [andb negb]. destruct (eviction_age m <=? K_MUTABLE_AGES)%nat, (tip_resident m), (size_cap m);
    cbn [andb negb orb]; rewrite ?andb_false_r, ?andb_true_r; try (by left);
    (destruct (_ <? _)%nat eqn:E; [right; split; [done|]; apply Nat.ltb_lt in E; unfold K_AGES in *; lia|by left]).
Qed.

Lemma complete_runs h taken rest a :
  runs a = taken ++ rest → NoDup (ptr <$> runs a) → runs (complete_merge h taken a) = rest.
Proof.
  intros Hr Hn. unfold complete_merge. cbn [runs]. rewrite Hr in *. rewrite fmap_app in Hn. apply NoDup_app in Hn as (_ & Hn & _).
  rewrite filter_app, filter_none, filter_all; [done|..]; apply Forall_forall; intros r Hin.
  - intros Hp. apply (Hn _ Hp). by apply list_elem_of_fmap_2.
  - intros Hp. apply Hp. by apply list_elem_of_fmap_2.
Qed.

(** The ages after the push: the merged run, if it has entries, is the newest of
    the next one or of the cold tier. *)
Lemma push_ages m fence taken pre a post ix :
  let merged := run_merge limit fence (run <$> taken) in
  let ix1 := push_merged limit m true fence (length pre) taken ix in
  ages ix = pre ++ a :: post → length (ages ix) = K_AGES →
  oldest_accumulate m = false → (eviction_age m ≤ K_AGES)%nat →
  (destination m (length pre) = None → Forall (λ a, runs a = []) post) →
  ∃ post', ages ix1 = pre ++ a :: post' ∧
    (entries merged = [] ∧ post' = post ∧ cold ix1 = cold ix ∨
     entries merged ≠ [] ∧
     ((∃ b q, post = b :: q ∧ post' = push_frozen_run (mkArc (next_ptr ix) merged) b :: q ∧ cold ix1 = cold ix) ∨
      post' = post ∧ Forall (λ a, runs a = []) post ∧ cold ix1 = cold ix ++ [merged])).
Proof.
  intros merged ix1 Ha Hlen Ho He Hdest. subst ix1. unfold push_merged. fold merged.
  destruct (entries merged) as [|e es] eqn:Em.
  { exists post. cbn [ages cold]. split; [done|]. by left. }
  destruct (destination_next m (length pre) Ho He) as [Hd|[Hd Hlt]]; rewrite Hd.
  - exists post. cbn [ages cold]. split; [done|]. right. split; [done|]. right. by split_and!; [|apply Hdest|].
  - rewrite Ha, length_app in Hlen. cbn [length] in Hlen. destruct post as [|b q]; [cbn [length] in Hlen; lia|].
    exists (push_frozen_run (mkArc (next_ptr ix) merged) b :: q). cbn [ages cold]. rewrite Ha.
    pose proof (alter_mid (push_frozen_run (mkArc (next_ptr ix) merged)) (pre ++ [a]) b q) as Hm.
    rewrite length_app, Nat.add_1_r, <-!(assoc_L (++)) in Hm.
    split; [exact Hm|]. right. split; [done|]. left. by exists b, q.
Qed.

Lemma levels_empty post : Forall (λ a, runs a = []) post → mjoin (age_levels <$> post) = [].
Proof. induction 1 as [|a post Ha _ IH]; [done|]. cbn [fmap list_fmap]. rewrite join_cons, IH. unfold age_levels. by rewrite Ha. Qed.

(** The levels while a merge ends: the merged run behind the taken runs, and then
    in their place. *)
Lemma finish_levels m fence taken rest pre a post ix :
  let merged := run_merge limit fence (run <$> taken) in
  ages ix = pre ++ a :: post → length (ages ix) = K_AGES → runs a = taken ++ rest → NoDup (ptr <$> runs a) →
  oldest_accumulate m = false → (eviction_age m ≤ K_AGES)%nat →
  (destination m (length pre) = None → Forall (λ a, runs a = []) post) →
  let newer := mjoin (age_levels <$> pre) ++ lv rest in
  let older := mjoin (age_levels <$> post) ++ reverse (cold ix) in
  levels ix = newer ++ lv taken ++ older ∧
  ∃ mid, levels (push_merged limit m true fence (length pre) taken ix) = newer ++ lv taken ++ mid ++ older ∧
         levels (finish_merge limit m true fence (length pre) taken ix) = newer ++ mid ++ older ∧
         (mid = [merged] ∨ mid = [] ∧ entries merged = []).
Proof.
  intros merged Ha Hlen Hr Hn Ho He Hdest newer older.
  assert (∀ p b rs q c, runs b = rs → mjoin (age_levels <$> (p ++ b :: q)) ++ c
    = mjoin (age_levels <$> p) ++ lv rs ++ mjoin (age_levels <$> q) ++ c) as Hsplit.
  { intros p b rs q c <-. rewrite fmap_app, join_app. cbn [fmap list_fmap]. by rewrite join_cons, <-!(assoc_L (++)). }
  destruct (push_ages m fence taken pre a post ix Ha Hlen Ho He Hdest) as (post' & Hages & Hcase). fold merged in Hcase.
  unfold finish_merge. set (h := foldl _ _ _). set (ix1 := push_merged _ _ _ _ _ _ _) in *.
  unfold levels. cbn [ages cold]. rewrite Hages, alter_mid, Ha.
  rewrite !(Hsplit _ a _ _ _ Hr), (Hsplit _ _ _ _ _ (complete_runs h taken rest a Hr Hn)), !lv_app.
  unfold newer, older. rewrite <-!(assoc_L (++)). split; [done|].
  destruct Hcase as [(Hm & -> & ->)|(Hm & [(b & q & -> & -> & ->)|(-> & Hemp & ->)])].
  - exists []. rewrite <-!(assoc_L (++)). split_and!; [done|done|]. by right.
  - exists [merged]. cbn [fmap list_fmap]. rewrite !join_cons.
    assert (age_levels (push_frozen_run (mkArc (next_ptr ix) merged) b) = [merged] ++ age_levels b) as ->.
    { unfold age_levels, push_frozen_run, with_runs. cbn [runs]. by rewrite fmap_app, reverse_app. }
    rewrite <-!(assoc_L (++)). split_and!; [done|done|]. by left.
  - exists [merged]. rewrite (levels_empty post Hemp), reverse_snoc, <-!(assoc_L (++)). split_and!; [done|done|]. by left.
Qed.

Lemma history_replace n m m' :
  history (n ++ m) → history m' →
  (∀ x, head m' = Some x → ∃ y, head m = Some y ∧ is_add x = is_add y ∧ kv_height x ≤ kv_height y) → history (n ++ m').
Proof.
  intros Hh Hm' Hx. induction n as [|e n IH]; [done|]. cbn [app] in *. apply history_cons in Hh as (Ho & Hd & Hh).
  apply history_cons. split_and!; [done| |by apply IH]. destruct n as [|e' n]; [|exact Hd]. cbn [app] in *.
  intros x (y & Hy & -> & Hle)%Hx. destruct (Hd y Hy). split; [lia|done].
Qed.

(** A merge below the readers keeps the history and what they see. *)
Lemma merge_hist fence taken newer older mid k :
  let merged := run_merge limit fence (run <$> taken) in
  Forall (λ r, run_ok limit (run r)) taken → (mid = [merged] ∨ mid = [] ∧ entries merged = []) →
  history (hist k (newer ++ lv taken ++ older)) →
  history (hist k (newer ++ mid ++ older)) ∧
  ∀ before, Forall (λ r, Forall (λ e, kv_height e < before) (entries (run r))) taken →
            coin_of before (hist k (newer ++ mid ++ older)) = coin_of before (hist k (newer ++ lv taken ++ older)).
Proof.
  intros merged Hok Hmid Hh. rewrite !hist_app in *.
  assert (hist k mid = gc_ref fence (hist k (lv taken))) as ->.
  { assert (hist k mid = of_key k (entries merged)) as ->.
    { destruct Hmid as [->|[-> ->]]; [apply hist_one|done]. }
    apply run_merge_hist; [by apply Forall_fmap|unfold lv; by rewrite reverse_Permutation|].
    apply history_app_r in Hh. by eapply history_app_l. }
  pose proof (history_app_r _ _ Hh) as Hh2. destruct (gc_ref_history fence _ _ Hh2) as [Hg Hhead].
  split; [by eapply history_replace|]. intros before Hb. unfold coin_of. rewrite !(newest_app before (hist k newer)).
  destruct (newest before (hist k newer)); [done|]. apply gc_ref_visible; [done|].
  apply Forall_forall. intros e [_ He]%list_elem_of_filter _. apply list_elem_of_join in He as (l & He & Hl).
  apply list_elem_of_fmap in Hl as (r & -> & Hr). unfold lv in Hr. rewrite elem_of_reverse in Hr.
  apply list_elem_of_fmap in Hr as (t & -> & Ht). rewrite Forall_forall in Hb. specialize (Hb t Ht).
  rewrite Forall_forall in Hb. by apply Hb.
Qed.
Lemma merge_elems fence taken newer older mid e :
  let merged := run_merge limit fence (run <$> taken) in
  Forall (λ r, run_ok limit (run r)) taken → (mid = [merged] ∨ mid = [] ∧ entries merged = []) →
  e ∈ mjoin (entries <$> (newer ++ mid ++ older)) → e ∈ mjoin (entries <$> (newer ++ lv taken ++ older)).
Proof.
  intros merged Hok Hmid. rewrite !fmap_app, !join_app, !elem_of_app. intros [He|[He|He]]; [by left| |by right; right].
  right; left. destruct Hmid as [->|[-> _]]; [|by apply elem_of_nil in He]. cbn in He. rewrite app_nil_r in He.
  destruct (run_merge_spec limit fence (run <$> taken)) as (mg & Hmg & Hp & _); [by apply Forall_fmap|].
  unfold merged in He. rewrite Hmg in He. eapply elem_of_sublist in He; [|apply gc_pass_sublist].
  unfold lv. by rewrite reverse_Permutation, <-Hp.
Qed.
End Finish.

(** ** The invariant *)

Definition runs0 (ix : UtxoIndex) : list Arc := from_option runs [] (ages ix !! 0%nat).
(** The levels behind the first age. *)
Definition deep_levels (ix : UtxoIndex) : list MemoryRun := mjoin (age_levels <$> tail (ages ix)) ++ reverse (cold ix).
Abbreviation elems rs := (mjoin (entries <$> rs)).
Abbreviation all_below b taken := (Forall (λ r, Forall (λ e, kv_height e < b) (entries (run r))) taken).

Section Invariant.
Context {SO : SliceOps} `{!SliceLaws SO} (limit : Z) (Hlimit : 4 ≤ limit ≤ 28).
Context (max_entries : nat) (Hmax : Z.of_nat max_entries < 2 ^ 32).

(** A merge in flight: its runs are the oldest of their age, the newest run of
    the first age is not among them, and no reader needs their heights. *)
Definition flying (ix : UtxoIndex) (f : nat * list Arc) : Prop :=
  ∃ a rest, ages ix !! f.1 = Some a ∧ runs a = f.2 ++ rest ∧ is_merging a = true ∧ (f.1 = 0%nat → rest ≠ []) ∧
            ∀ p, p ∈ pins_of ix → all_below p f.2.

Record inv (w : World) : Prop := mkInv {
  inv_len : length (ages (index w)) = K_AGES;
  inv_lv : Forall (level_ok limit) (levels (index w));
  inv_ptr : Forall (λ a, NoDup (ptr <$> runs a) ∧ Forall (λ r, (ptr r < next_ptr (index w))%nat) (runs a)) (ages (index w));
  inv_fly : Forall (flying (index w)) (inflight w);
  inv_once : NoDup (inflight w).*1;
  inv_log : Forall (λ e, entry_ok e ∧ kv_height e ≤ top w) (mjoin (log w));
  inv_log_hist : ∀ k, history (log_hist k (log w));
  inv_sub : ∀ e, e ∈ elems (levels (index w)) → e ∈ mjoin (log w);
  inv_tip : pins_of (index w) = ∅ ∨
            ∃ tip e, last (runs0 (index w)) = Some tip ∧ e ∈ entries (run tip) ∧ kv_height e = top w;
  inv_hist : ∀ k, history (hist k (levels (index w)));
  inv_coin : ∃ deep, deep ≤ top w ∧ (∀ p, p ∈ pins_of (index w) → deep < p) ∧
             (∀ e, e ∈ elems (deep_levels (index w)) → kv_height e ≤ deep) ∧
             ∀ k before, deep < before → coin_of before (hist k (levels (index w))) = coin_of before (log_hist k (log w));
}.

Lemma log_hist_cons k es l : log_hist k (es :: l) = of_key k es ++ log_hist k l.
Proof. unfold log_hist. by rewrite join_cons, filter_app. Qed.
Lemma ages_cons ix : length (ages ix) = K_AGES → ∃ a q, ages ix = a :: q ∧ pins_of ix = pins a ∧ runs0 ix = runs a ∧
  levels ix = age_levels a ++ deep_levels ix ∧ deep_levels ix = mjoin (age_levels <$> q) ++ reverse (cold ix).
Proof.
  unfold K_AGES. intros Hl. destruct (ages ix) as [|a q] eqn:E; [done|]. exists a, q.
  unfold pins_of, runs0, levels, deep_levels. rewrite E. cbn [lookup list_lookup from_option tail fmap list_fmap].
  by rewrite join_cons, (assoc_L (++)).
Qed.
Lemma levels_arcs ix a : Forall (level_ok limit) (levels ix) → a ∈ ages ix → Forall (λ r, level_ok limit (run r)) (runs a).
Proof.
  intros Hok Ha. apply Forall_forall. intros r Hr. rewrite Forall_forall in Hok. apply Hok. unfold levels.
  apply elem_of_app. left. apply list_elem_of_join. exists (age_levels a). split; [|by apply list_elem_of_fmap_2].
  unfold age_levels. apply elem_of_reverse. by apply list_elem_of_fmap_2.
Qed.
Lemma elem_of_elems e rs : e ∈ elems rs ↔ ∃ r, r ∈ rs ∧ e ∈ entries r.
Proof.
  rewrite list_elem_of_join. split.
  - intros (l & He & Hl). apply list_elem_of_fmap in Hl as (r & -> & Hr). by exists r.
  - intros (r & Hr & He). exists (entries r). split; [done|]. by apply list_elem_of_fmap_2.
Qed.

Lemma age_elems ix a r e : a ∈ ages ix → r ∈ runs a → e ∈ entries (run r) → e ∈ elems (levels ix).
Proof.
  intros Ha Hr He. apply elem_of_elems. exists (run r). split; [|done]. unfold levels. apply elem_of_app. left.
  apply list_elem_of_join. exists (age_levels a). split; [|by apply list_elem_of_fmap_2].
  unfold age_levels. apply elem_of_reverse. by apply list_elem_of_fmap_2.
Qed.

Lemma inv_init spill : length spill = K_AGES → inv (world0 spill).
Proof.
  intros Hl.
  assert (∀ s : list nat, mjoin (age_levels <$> ((λ n, mkAge [] 8 n ∅ I32_MIN false) <$> s)) = []) as Hemp.
  { intros s. apply levels_empty. apply Forall_fmap, Forall_true. done. }
  assert (levels (index (world0 spill)) = []) as Hlv by (unfold levels; cbn [world0 index ages cold]; by rewrite Hemp).
  assert (pins_of (index (world0 spill)) = ∅) as Hp. { unfold pins_of. cbn [world0 index ages]. by destruct spill. }
  split; cbn [world0 log top inflight]; rewrite ?Hlv, ?Hp.
  - cbn [world0 index ages]. by rewrite length_fmap.
  - constructor.
  - cbn [world0 index ages]. apply Forall_fmap, Forall_true. intros n. split; [apply NoDup_nil_2|constructor].
  - constructor.
  - apply NoDup_nil_2.
  - constructor.
  - intros k. split; [constructor|done].
  - done.
  - by left.
  - intros k. split; [constructor|done].
  - exists (-1). split_and!; [done|set_solver| |done]. unfold deep_levels. cbn [world0 index ages cold].
    intros e He. exfalso. destruct spill as [|n spill]; [done|]. cbn [fmap list_fmap tail] in He.
    rewrite Hemp in He. by apply elem_of_nil in He.
Qed.

(** *** Appending *)

(** The first event of a key in the levels and in the log agree on their kind,
    so a new event alternates with both. *)
Lemma new_event_history es h L H :
  Forall (λ e, kv_height e = h ∧ entry_ok e) es → history (es ++ H) → history L →
  (∀ e, e ∈ L → e ∈ H) → Forall (λ e, entry_ok e ∧ kv_height e < h) H →
  coin_of h L = coin_of h H → history (es ++ L).
Proof.
  intros Hes Hh HL Hsub HH Hcoin. destruct es as [|e es]; [done|].
  apply Forall_cons in Hes as [[He _] Hes]. cbn [app] in *. apply history_cons in Hh as (Ho & Hx & Hh).
  destruct es as [|e2 es].
  2: { apply Forall_cons in Hes as [[He2 _] _]. destruct (Hx e2 eq_refl). lia. }
  cbn [app] in *. apply history_cons. split_and!; [done| |done]. intros x Hxl.
  assert (x ∈ H) as HxH by (apply Hsub; by apply head_Some_elem_of).
  rewrite Forall_forall in HH. destruct (HH x HxH) as [Hxok Hxh]. split; [lia|].
  destruct H as [|y H]; [by apply elem_of_nil in HxH|]. destruct (Hx y eq_refl) as [Hy Hop].
  destruct L as [|x' L]; [done|]. injection Hxl as ->.
  destruct (HH y ltac:(left)) as [Hyok Hyh]. unfold coin_of in Hcoin. rewrite !newest_cons, !decide_True in Hcoin by done.
  cbn [fmap option_fmap option_map] in Hcoin. rewrite <-!seen_verdict, !seen_add in Hcoin by done.
  rewrite Hop. f_equal. by destruct (is_add x), (is_add y).
Qed.

(** What appending changes: the first age and its pins. *)
Lemma index_append_shape shared shared' es h ix :
  length (ages ix) = K_AGES →
  let ix' := index_append limit max_entries shared shared' es h ix in
  ∃ a q rs, ages ix = a :: q ∧ ages ix' = with_runs rs (with_pins ({[h]} ∪ pins a) a) :: q ∧
    appended limit max_entries (next_ptr ix) es (runs a) rs ∧
    levels ix = lv (runs a) ++ deep_levels ix ∧ levels ix' = lv rs ++ deep_levels ix ∧
    deep_levels ix' = deep_levels ix ∧ pins_of ix = pins a ∧ pins_of ix' = {[h]} ∪ pins_of ix ∧ runs0 ix' = rs.
Proof.
  intros Hlen ix'. destruct (ages_cons ix Hlen) as (a & q & Ha & Hpins & Hr0 & Hlev & Hdeep).
  set (a1 := with_pins ({[h]} ∪ pins a) a).
  destruct (age_append_shape limit max_entries shared shared' (next_ptr ix) es a1) as (rs & Happ & Hsh).
  assert (ages ix' = with_runs rs a1 :: q) as Ha'. { unfold ix', index_append. cbn [ages]. rewrite Ha. cbn. by rewrite <-Happ. }
  exists a, q, rs. split_and!; [done|done|exact Hsh|exact Hlev| | |exact Hpins| |].
  - rewrite Hdeep. unfold levels. rewrite Ha'. cbn [fmap list_fmap]. rewrite join_cons, <-(assoc_L (++)). done.
  - rewrite Hdeep. unfold deep_levels. by rewrite Ha'.
  - rewrite Hpins. unfold pins_of. by rewrite Ha'.
  - unfold runs0. by rewrite Ha'.
Qed.
Lemma append_hist w es h a rs :
  inv w → block_ok w es h → levels (index w) = lv (runs a) ++ deep_levels (index w) →
  Forall (λ r, level_ok limit (run r)) (runs a) → appended limit max_entries (next_ptr (index w)) es (runs a) rs →
  ∀ k, history (of_key k es ++ hist k (levels (index w))) ∧
       hist k (lv rs ++ deep_levels (index w)) = of_key k es ++ hist k (levels (index w)).
Proof.
  intros Hinv (Hne & Htop & Hel & Hes & Hblk) Hlev Hra Hsh k.
  assert (history (of_key k es ++ hist k (levels (index w)))) as Hh.
  { destruct (inv_coin w Hinv) as (deep & Hd1 & _ & _ & Hd2).
    eapply (new_event_history _ h); [|apply Hblk|by apply inv_hist|..|apply Hd2; lia].
    - apply forall_filter. eapply Forall_impl; [exact Hes|]. naive_solver.
    - intros e [Hk He]%list_elem_of_filter. apply list_elem_of_filter. split; [done|]. by apply (inv_sub w Hinv).
    - apply forall_filter. eapply Forall_impl; [apply (inv_log w Hinv)|]. cbn beta. intros e [? ?]. split; [done|lia]. }
  split; [done|]. rewrite Hlev, !hist_app in *. rewrite (assoc_L (++)) in Hh |- *. f_equal.
  eapply appended_hist; [done|done|]. by eapply history_app_l.
Qed.

Lemma inv_append w es h shared shared' :
  inv w → block_ok w es h →
  inv (mkWorld (index_append limit max_entries shared shared' es h (index w)) (es :: log w) h (inflight w)).
Proof.
  intros Hinv Hb. pose proof Hb as (Hne & Htop & Hel & Hes & Hblk).
  destruct (index_append_shape shared shared' es h (index w) (inv_len w Hinv))
    as (a & q & rs & Ha & Ha' & Hsh & Hlev & Hlev' & Hdeep & Hpins & Hpins' & Hr0).
  assert (Forall (λ r, level_ok limit (run r)) (runs a)) as Hra.
  { eapply levels_arcs; [apply (inv_lv w Hinv)|]. rewrite Ha. left. }
  pose proof (append_hist w es h a rs Hinv Hb Hlev Hra Hsh) as Hhist.
  assert (∀ e, e ∈ mjoin (log w) → entry_ok e ∧ kv_height e < h) as Hold.
  { intros e He. pose proof (inv_log w Hinv) as Hl. rewrite Forall_forall in Hl. destruct (Hl e He). split; [done|lia]. }
  assert (Forall (λ e, entry_ok e ∧ length (key e) = 36%nat) es) as Hes' by (eapply Forall_impl; [exact Hes|]; naive_solver).
  assert (∀ e, e ∈ elems (lv rs ++ deep_levels (index w)) → e ∈ es ∨ e ∈ elems (levels (index w))) as Hel'.
  { intros e. rewrite Hlev, !fmap_app, !join_app, !elem_of_app, (appended_elems limit max_entries _ es _ _ e Hsh Hra). tauto. }
  set (ix' := index_append _ _ _ _ _ _ _) in *. split; cbn [index log top inflight]; rewrite ?Hlev', ?Hpins', ?Hdeep, ?Hr0.
  - rewrite Ha'. pose proof (inv_len w Hinv) as Hl. by rewrite Ha in Hl.
  - pose proof (inv_lv w Hinv) as Hl. rewrite Hlev in Hl. apply Forall_app in Hl as [_ Hl]. apply Forall_app. split; [|done].
    pose proof (appended_levels limit max_entries Hmax _ es _ _ Hsh Hra Hes' Hel) as Hrs. unfold lv. apply Forall_reverse. by apply Forall_fmap.
  - pose proof (inv_ptr w Hinv) as Hp. rewrite Ha in Hp. apply Forall_cons in Hp as [[Hp1 Hp2] Hp].
    rewrite Ha'. apply Forall_cons. split; [by eapply appended_ptrs|]. eapply Forall_impl; [exact Hp|]. intros b [? Hb2].
    split; [done|]. eapply Forall_impl; [exact Hb2|]. intros r. cbn [ix' index_append next_ptr]. lia.
  - eapply Forall_impl; [apply (inv_fly w Hinv)|]. intros f (b & rest & Hlk & Hrb & Hm & Hrest & Hbelow).
    assert (∀ p, p ∈ pins_of ix' → all_below p f.2) as Hbelow'.
    { rewrite Hpins'. intros p [->%elem_of_singleton|Hp]%elem_of_union; [|by apply Hbelow].
      apply Forall_forall. intros r Hr. apply Forall_forall. intros e He. apply Hold, (inv_sub w Hinv).
      eapply age_elems; [by eapply list_elem_of_lookup_2| |exact He]. rewrite Hrb. apply elem_of_app. by left. }
    unfold flying. rewrite Ha'. rewrite Ha in Hlk. destruct f as [[|i] taken]; cbn [fst snd lookup list_lookup] in *.
    + injection Hlk as <-. destruct (appended_prefix limit max_entries _ es _ _ taken rest Hsh Hrb (Hrest eq_refl)) as (rest' & -> & Hne').
      exists (with_runs (taken ++ rest') (with_pins ({[h]} ∪ pins a) a)), rest'. by split_and!.
    + exists b, rest. by split_and!.
  - apply (inv_once w Hinv).
  - rewrite join_cons. apply Forall_app. split; [eapply Forall_impl; [exact Hes|]; cbn beta; naive_solver lia|].
    apply Forall_forall. intros e He. destruct (Hold e He). split; [done|lia].
  - intros k. rewrite log_hist_cons. apply Hblk.
  - intros e He%Hel'. rewrite join_cons, elem_of_app. destruct He as [He|He]; [by left|right]. by apply (inv_sub w Hinv).
  - right. destruct (appended_tip_holds limit max_entries _ es _ _ Hsh Hra) as (tip & Htip & Hin). destruct es as [|e es]; [done|].
    exists tip, e. apply Forall_cons in Hes as [[He _] _]. split_and!; [done|apply Hin; left|done].
  - intros k. destruct (Hhist k) as [Hh ->]. done.
  - destruct (inv_coin w Hinv) as (deep & Hd1 & Hd2 & Hd3 & Hd4). exists deep. split_and!; [lia| |done|].
    + intros p [->%elem_of_singleton|Hp]%elem_of_union; [lia|by apply Hd2].
    + intros k before Hbf. destruct (Hhist k) as [_ ->]. rewrite log_hist_cons.
      unfold coin_of. rewrite !newest_app. destruct (newest before (of_key k es)); [done|]. by apply Hd4.
Qed.

(** *** Pins and beginning a merge: the runs stay where they are *)

Definition same_runs (ix ix' : UtxoIndex) : Prop :=
  Forall2 (λ a a', runs a' = runs a ∧ (is_merging a = true → is_merging a' = true)) (ages ix) (ages ix') ∧
  cold ix' = cold ix ∧ next_ptr ix' = next_ptr ix ∧ pins_of ix' ⊆ pins_of ix.

Lemma same_levels (l l' : list MemoryAge) :
  Forall2 (λ a a', runs a' = runs a ∧ (is_merging a = true → is_merging a' = true)) l l' → age_levels <$> l' = age_levels <$> l.
Proof. induction 1 as [|a a' l l' [Hr _] _ IH]; [done|]. cbn [fmap list_fmap]. f_equal; [|done]. unfold age_levels. by rewrite Hr. Qed.

Lemma flying_same ix ix' f : same_runs ix ix' → flying ix f → flying ix' f.
Proof.
  intros (Hf & _ & _ & Hp) (a & rest & Ha & Hr & Hm & Hrest & Hb).
  destruct (Forall2_lookup_l _ _ _ _ _ Hf Ha) as (a' & Ha' & Hr' & Hm'). exists a', rest.
  split_and!; [done|by rewrite Hr'|by apply Hm'|done|]. intros p Hpin. apply Hb. by apply Hp.
Qed.
Lemma inv_same w ix' fl :
  inv w → same_runs (index w) ix' → Forall (flying ix') fl → NoDup fl.*1 → inv (mkWorld ix' (log w) (top w) fl).
Proof.
  intros Hinv Hs Hfl Hnd. pose proof Hs as (Hf & Hc & Hn & Hp).
  assert (levels ix' = levels (index w)) as Hl by (unfold levels; by rewrite (same_levels _ _ Hf), Hc).
  assert (deep_levels ix' = deep_levels (index w)) as Hd.
  { unfold deep_levels. rewrite Hc. f_equal. f_equal. apply same_levels.
    destruct (ages (index w)), (ages ix'); inversion Hf; subst; [constructor|assumption]. }
  assert (runs0 ix' = runs0 (index w)) as Hr. { unfold runs0. destruct (ages (index w)), (ages ix'); inversion Hf as [|? ? ? ? [Hra _]]; subst; [done|exact Hra]. }
  destruct Hinv as [H1 H2 H3 H4 H5 H6 H7 H8 H9 H10 H11].
  split; cbn [index log top inflight]; rewrite ?Hl, ?Hd, ?Hr; try done.
  - by rewrite <-(Forall2_length _ _ _ Hf).
  - rewrite Hn. clear -H3 Hf. induction Hf as [|a a' l l' [Hra _] _ IH]; [constructor|].
    apply Forall_cons in H3 as [H3 Hl]. apply Forall_cons. split; [by rewrite Hra|by apply IH].
  - destruct H9 as [H9|H9]; [left; set_solver|by right].
  - destruct H11 as (deep & D1 & D2 & D3 & D4). exists deep. split_and!; [done| |exact D3|exact D4]. intros p Hpin. by apply D2, Hp.
Qed.

Lemma inv_unpin w h : inv w → inv (mkWorld (unpin h (index w)) (log w) (top w) (inflight w)).
Proof.
  intros Hinv. assert (same_runs (index w) (unpin h (index w))) as Hs.
  { unfold same_runs, unpin, pins_of. cbn [ages cold next_ptr]. destruct (ages (index w)) as [|a q]; [by split_and!|].
    split_and!; [|done|done|cbn; set_solver]. constructor; [done|]. clear. by induction q; constructor. }
  apply inv_same; [done|done| |apply (inv_once w Hinv)].
  eapply Forall_impl; [apply (inv_fly w Hinv)|]. intros f. by apply flying_same.
Qed.

Lemma runs_below_spec pin rs n : (n ≤ runs_below pin rs)%nat → Forall (λ r, (height_range (run r)).2 < pin) (take n rs).
Proof.
  revert n. induction rs as [|r rs IH]; intros [|n] Hn; cbn [runs_below take] in *; [constructor..|].
  destruct (_ <? pin) eqn:E; [|lia]. constructor; [lia|]. apply IH. lia.
Qed.
Lemma runs_below_le pin rs : (runs_below pin rs ≤ length rs)%nat.
Proof. induction rs as [|r rs IH]; cbn [runs_below length]; [done|]. destruct (_ <? _); lia. Qed.
Lemma merge_take_count_le rc mg fi se n : merge_take_count rc mg fi se = Some n → (n ≤ mg)%nat.
Proof.
  unfold merge_take_count. repeat match goal with |- context [if ?b then _ else _] => destruct b eqn:? end; intros [= <-];
    rewrite ?andb_true_iff, ?Nat.leb_le in *; lia.
Qed.
Lemma min_pin_spec ps : min_pin_height ps = None ∧ ps = ∅ ∨ ∃ m, min_pin_height ps = Some m ∧ ∀ p, p ∈ ps → m ≤ p.
Proof.
  unfold min_pin_height. destruct (elements ps) as [|x l] eqn:E; [left; split; [done|]; apply leibniz_equiv; by apply elements_empty_inv|right].
  eexists. split; [done|]. intros p Hp. apply elem_of_elements in Hp. rewrite E in Hp.
  destruct (foldl_min_le x l) as [H1 H2]. apply elem_of_cons in Hp as [->|Hp]; [done|by apply H2].
Qed.

Lemma take_elem {A} n (l : list A) x : x ∈ take n l → x ∈ l.
Proof. intros Hx. rewrite <-(take_drop n l). apply elem_of_app. by left. Qed.
Lemma deep_elems ix i a r e : ages ix !! S i = Some a → r ∈ runs a → e ∈ entries (run r) → e ∈ elems (deep_levels ix).
Proof.
  intros Ha Hr He. apply elem_of_elems. exists (run r). split; [|done]. unfold deep_levels. apply elem_of_app. left.
  apply list_elem_of_join. exists (age_levels a). split.
  - unfold age_levels. apply elem_of_reverse. by apply list_elem_of_fmap_2.
  - apply list_elem_of_fmap_2. destruct (ages ix) as [|b q]; [done|]. by eapply list_elem_of_lookup_2.
Qed.
Lemma begin_shape i ix taken ix' :
  begin_merge i ix = Some (taken, ix') →
  ∃ a n, ages ix !! i = Some a ∧ is_merging a = false ∧ taken = take n (runs a) ∧
    (n ≤ mergeable_prefix_len (runs a) (min_pin_height (pins a)))%nat ∧
    (∃ a', ages ix' !! i = Some a' ∧ runs a' = runs a ∧ is_merging a' = true) ∧ pins_of ix' = pins_of ix ∧ same_runs ix ix'.
Proof.
  unfold begin_merge. destruct (ages ix !! i) as [a|] eqn:Ha; [|done]. cbn [mbind option_bind]. unfold take_for_merge.
  destruct (is_merging a) eqn:Em; [done|]. destruct (merge_take_count _ _ _ _) as [n|] eqn:En; [|done].
  intros [= <- <-]. set (a' := mkAge _ _ _ _ _ true). exists a, n.
  assert (pins_of (mkIndex (<[i:=a']> (ages ix)) (cold ix) (contiguous_length ix) (next_ptr ix)) = pins_of ix) as Hp.
  { unfold pins_of. cbn [ages]. destruct i as [|i]; destruct (ages ix) as [|b q]; [done|injection Ha as ->; done|done|done]. }
  split_and!; [done|done|done|by eapply merge_take_count_le| |done|].
  - exists a'. split; [|done]. cbn [ages]. apply list_lookup_insert_eq. by eapply lookup_lt_Some.
  - unfold same_runs. rewrite Hp. cbn [ages cold next_ptr]. split_and!; [|done..].
    rewrite <-(list_insert_id (ages ix) i a Ha) at 1. apply Forall2_insert; [|done]. clear. induction (ages ix); by constructor.
Qed.

(** With the newest block pinned, what is taken of the first age is below every
    pin, and its newest run is not taken. *)
Lemma taken_below_pins w a n :
  inv w → ages (index w) !! 0%nat = Some a → top w ∈ pins_of (index w) →
  (n ≤ mergeable_prefix_len (runs a) (min_pin_height (pins a)))%nat →
  (∀ p, p ∈ pins_of (index w) → all_below p (take n (runs a))) ∧ drop n (runs a) ≠ [].
Proof.
  intros Hinv Ha Htop Hn. assert (pins_of (index w) = pins a) as Hp by (unfold pins_of; by rewrite Ha).
  destruct (min_pin_spec (pins a)) as [[_ He]|(m & Hm & Hle)]; [exfalso; rewrite Hp, He in Htop; set_solver|].
  rewrite Hm in Hn. cbn [mergeable_prefix_len] in Hn. apply runs_below_spec in Hn. rewrite Forall_forall in Hn.
  assert (∀ r e, r ∈ runs a → e ∈ entries (run r) → kv_height e ≤ (height_range (run r)).2) as Hrange.
  { intros r e Hr He. pose proof (levels_arcs (index w) a (inv_lv w Hinv) (list_elem_of_lookup_2 _ _ _ Ha)) as Hok.
    rewrite Forall_forall in Hok. destruct (Hok r Hr) as [Hok' _]. rewrite (run_range _ _ Hok'). by apply height_range_bounds. }
  split.
  - intros p Hpin. apply Forall_forall. intros r Hr. apply Forall_forall. intros e He.
    specialize (Hn r Hr). cbn beta in Hn. rewrite Hp in Hpin. specialize (Hle p Hpin).
    specialize (Hrange r e (take_elem _ _ _ Hr) He). lia.
  - intros Hd. assert (take n (runs a) = runs a) as Ht by (rewrite <-(take_drop n (runs a)) at 2; by rewrite Hd, app_nil_r).
    destruct (inv_tip w Hinv) as [He|(tip & e & Htip & He & Hh)]; [rewrite He in Htop; set_solver|].
    unfold runs0 in Htip. rewrite Ha in Htip. cbn [from_option] in Htip. apply last_Some_elem_of in Htip.
    rewrite Ht in Hn. specialize (Hn tip Htip). cbn beta in Hn. specialize (Hrange tip e Htip He).
    rewrite Hp in Htop. specialize (Hle _ Htop). lia.
Qed.

Lemma inv_begin w i taken ix :
  inv w → begin_merge i (index w) = Some (taken, ix) → (i = 0%nat → top w ∈ pins_of (index w)) →
  inv (mkWorld ix (log w) (top w) ((i, taken) :: inflight w)).
Proof.
  intros Hinv Hb Hpin. destruct (begin_shape _ _ _ _ Hb) as (a & n & Ha & Em & -> & Hn & (a' & Ha' & Hr' & Hm') & Hp & Hs).
  apply inv_same; [done|done|apply Forall_cons; split|cbn [fmap list_fmap fst]; apply NoDup_cons; split; [|apply (inv_once w Hinv)]].
  - exists a', (drop n (runs a)). cbn [fst snd]. split_and!; [done|by rewrite take_drop|done|..].
    + intros ->. by apply (taken_below_pins w a n Hinv Ha (Hpin eq_refl) Hn).
    + rewrite Hp. destruct i as [|i]; [by apply (taken_below_pins w a n Hinv Ha (Hpin eq_refl) Hn)|].
      destruct (inv_coin w Hinv) as (deep & _ & D2 & D3 & _). intros p Hpp. apply Forall_forall. intros r Hr.
      apply Forall_forall. intros e He. specialize (D2 p Hpp).
      specialize (D3 e (deep_elems _ i a r e Ha (take_elem _ _ _ Hr) He)). lia.
  - eapply Forall_impl; [apply (inv_fly w Hinv)|]. intros f. by apply flying_same.
  - intros ([j t] & -> & Hf)%list_elem_of_fmap. pose proof (inv_fly w Hinv) as Hfl. rewrite Forall_forall in Hfl.
    destruct (Hfl _ Hf) as (b & rest & Hb' & _ & Hmb & _). cbn [fst] in *. congruence.
Qed.

(** *** Finishing a merge *)

Lemma finish_lookup m fence i taken ix j :
  oldest_accumulate m = false → (eviction_age m ≤ K_AGES)%nat →
  let merged := run_merge limit fence (run <$> taken) in
  ∃ f, ages (finish_merge limit m true fence i taken ix) !! j = f <$> (ages ix !! j) ∧
    (j = i ∧ (∃ h, f = complete_merge h taken) ∨
     j ≠ i ∧ (f = (λ b, b) ∨ j = S i ∧ destination m i = Some j ∧ f = push_frozen_run (mkArc (next_ptr ix) merged))).
Proof.
  intros Ho He merged. unfold finish_merge, push_merged. fold merged. set (h := foldl _ _ _).
  assert (∀ l : list MemoryAge, alter (complete_merge h taken) i l !! j
    = (if decide (j = i) then complete_merge h taken else λ b, b) <$> l !! j) as Hc.
  { intros l. case_decide as E; [by rewrite E, list_lookup_alter_eq|]. rewrite list_lookup_alter_ne by done. by rewrite option_fmap_id. }
  assert (∃ f, ages (mkIndex (alter (complete_merge h taken) i (ages ix)) (cold ix) 0 0) !! j = f <$> (ages ix !! j) ∧
    (j = i ∧ (∃ h, f = complete_merge h taken) ∨
     j ≠ i ∧ (f = (λ b, b) ∨ j = S i ∧ destination m i = Some j ∧ f = push_frozen_run (mkArc (next_ptr ix) merged)))) as Hsame.
  { cbn [ages]. rewrite Hc. eexists. split; [done|]. case_decide; [left; eauto|by right; split; [|left]]. }
  destruct (entries merged); [exact Hsame|].
  destruct (destination_next m i Ho He) as [Hd|[Hd _]]; rewrite Hd in *; [exact Hsame|]. cbn [ages]. rewrite Hc.
  destruct (decide (j = S i)) as [->|Hne].
  - rewrite decide_False, list_lookup_alter_eq, option_fmap_id by lia. eexists. split; [done|]. right. split; [lia|]. by right.
  - rewrite list_lookup_alter_ne by done. eexists. split; [done|]. case_decide; [left; eauto|by right; split; [|left]].
Qed.
Lemma finish_cold m fence i taken ix :
  let merged := run_merge limit fence (run <$> taken) in
  let ix' := finish_merge limit m true fence i taken ix in
  length (ages ix') = length (ages ix) ∧ next_ptr ix' = (next_ptr ix + 1)%nat ∧
  (cold ix' = cold ix ∨ cold ix' = cold ix ++ [merged]).
Proof.
  intros merged ix'. subst ix'. unfold finish_merge, push_merged. fold merged.
  destruct (entries merged); [|destruct (destination m i)]; cbn [ages cold next_ptr]; rewrite !length_alter; auto.
Qed.

Section FinishStep.
Context (w : World) (m : MergeSettings) (fence : OutputKV → Z) (i : nat) (taken : list Arc) (before after : list (nat * list Arc)).
Context (Hinv : inv w) (Hfl : inflight w = before ++ (i, taken) :: after).
Context (Ho : oldest_accumulate m = false) (He : (eviction_age m ≤ K_AGES)%nat).
Context (Hdest : destination m i = None → Forall (λ a, runs a = []) (drop (S i) (ages (index w)))).
Context (Hsize : Z.of_nat (length (mjoin (entries <$> (run <$> taken)))) < 2 ^ 32).
Abbreviation merged := (run_merge limit fence (run <$> taken)).
Abbreviation ix' := (finish_merge limit m true fence i taken (index w)).
Local Lemma the_flying :
  ∃ a rest, ages (index w) !! i = Some a ∧ runs a = taken ++ rest ∧ (i = 0%nat → rest ≠ []) ∧
    (∀ p, p ∈ pins_of (index w) → all_below p taken) ∧ NoDup (ptr <$> runs a).
Proof.
  pose proof (inv_fly w Hinv) as Hf. rewrite Hfl in Hf. apply Forall_app in Hf as [_ [Hf _]%Forall_cons].
  destruct Hf as (a & rest & Ha & Hr & _ & Hne & Hb). cbn [fst snd] in *. exists a, rest. split_and!; [done..|].
  pose proof (inv_ptr w Hinv) as Hp. rewrite Forall_forall in Hp. by apply (Hp a), (list_elem_of_lookup_2 _ i).
Qed.

(** What each age is after the merge, from what it was. *)
Local Lemma age_after j b' :
  ages ix' !! j = Some b' →
  ∃ b, ages (index w) !! j = Some b ∧ pins b' = pins b ∧
    (j = i ∧ runs b = taken ++ runs b' ∧ (j = 0%nat → runs b' ≠ []) ∨
     j ≠ i ∧ is_merging b' = is_merging b ∧
     (runs b' = runs b ∨ j ≠ 0%nat ∧ runs b' = runs b ++ [mkArc (next_ptr (index w)) merged])).
Proof.
  intros Hb'. destruct (finish_lookup m fence i taken (index w) j Ho He) as (f & Hf & Hcase). rewrite Hb' in Hf.
  destruct (ages (index w) !! j) as [b|] eqn:Hb; [|done]. injection Hf as ->. exists b. split; [done|].
  destruct Hcase as [[-> [h ->]]|[Hne [->|(-> & _ & ->)]]].
  - split; [done|]. left. destruct the_flying as (a & rest & Ha & Hr & Hrest & _ & Hnd). rewrite Hb in Ha. injection Ha as <-.
    by rewrite (complete_runs h taken rest b Hr Hnd).
  - split; [done|]. right. split_and!; [done|done|by left].
  - split; [done|]. right. split_and!; [done|done|]. right. by split.
Qed.
Local Lemma pins_after : pins_of ix' = pins_of (index w).
Proof.
  destruct (finish_cold m fence i taken (index w)) as (Hl & _ & _). unfold pins_of.
  destruct (ages ix' !! 0%nat) as [b'|] eqn:E.
  - apply age_after in E as (b & -> & Hp & _). exact Hp.
  - apply lookup_ge_None in E. rewrite Hl, (inv_len w Hinv) in E. unfold K_AGES in E. lia.
Qed.
Local Lemma taken_levels : Forall (λ r, level_ok limit (run r)) taken.
Proof.
  destruct the_flying as (a & rest & Ha & Hr & _).
  pose proof (levels_arcs (index w) a (inv_lv w Hinv) (list_elem_of_lookup_2 _ _ _ Ha)) as Hl.
  rewrite Hr in Hl. by apply Forall_app in Hl as [Hl _].
Qed.
Local Lemma taken_ok : Forall (λ r, run_ok limit (run r)) taken.
Proof. eapply Forall_impl; [apply taken_levels|]. by intros r [? _]. Qed.
Local Lemma merged_taken e : e ∈ entries merged → ∃ r, r ∈ taken ∧ e ∈ entries (run r).
Proof.
  intros Hin. destruct (run_merge_spec limit fence (run <$> taken)) as (mg & Hmg & Hp & _); [apply Forall_fmap, taken_ok|].
  rewrite Hmg in Hin. eapply elem_of_sublist in Hin; [|apply gc_pass_sublist]. rewrite Hp in Hin.
  apply elem_of_elems in Hin as (r & Hr & Hin). apply list_elem_of_fmap in Hr as (t & -> & Ht). eauto.
Qed.
Local Lemma merged_level : level_ok limit merged.
Proof.
  split; [apply run_merge_ok; [apply Forall_fmap, taken_ok|exact Hsize]|].
  apply Forall_forall. intros e (r & Hr & Hin)%merged_taken. pose proof taken_levels as Hl. rewrite Forall_forall in Hl.
  destruct (Hl r Hr) as [_ Hall]. rewrite Forall_forall in Hall. by apply Hall.
Qed.
Local Lemma taken_log r e : r ∈ taken → e ∈ entries (run r) → e ∈ mjoin (log w).
Proof.
  intros Hr Hin. destruct the_flying as (a & rest & Ha & Hra & _). apply (inv_sub w Hinv).
  eapply age_elems; [by eapply list_elem_of_lookup_2| |done]. rewrite Hra. apply elem_of_app. by left.
Qed.
(** The levels before, between and after. *)
Local Lemma levels_after :
  ∃ newer mid older, levels (index w) = newer ++ lv taken ++ older ∧
    levels (push_merged limit m true fence i taken (index w)) = newer ++ lv taken ++ mid ++ older ∧
    levels ix' = newer ++ mid ++ older ∧ (mid = [merged] ∨ mid = [] ∧ entries merged = []).
Proof.
  destruct the_flying as (a & rest & Ha & Hr & _ & _ & Hnd). destruct (split_at _ _ _ Ha) as (pre & post & Hs & <-).
  assert (drop (S (length pre)) (ages (index w)) = post) as Hdrop.
  { rewrite Hs. change (S (length pre)) with (1 + length pre)%nat. rewrite Nat.add_comm, <-drop_drop, drop_app_length. done. }
  rewrite Hdrop in Hdest.
  destruct (finish_levels limit m fence taken rest pre a post (index w) Hs (inv_len w Hinv) Hr Hnd Ho He Hdest)
    as (Hl & mid & Hp & Hl' & Hm).
  eexists _, mid, _. by split_and!.
Qed.
Local Lemma fly_after f : f ∈ before ++ after → flying ix' f.
Proof.
  intros Hf. destruct f as [j t].
  assert (flying (index w) (j, t)) as (b & rest & Hb & Hr & Hm & Hrest & Hbelow).
  { pose proof (inv_fly w Hinv) as Hall. rewrite Hfl, Forall_forall in Hall. apply Hall.
    apply elem_of_app in Hf. apply elem_of_app. destruct Hf; [by left|right; by right]. }
  assert (j ≠ i) as Hne.
  { intros ->. pose proof (inv_once w Hinv) as Hnd. rewrite Hfl, fmap_app, fmap_cons in Hnd. cbn [fst] in Hnd.
    rewrite <-Permutation_middle in Hnd. apply NoDup_cons in Hnd as [Hnd _]. apply Hnd. rewrite <-fmap_app.
    apply (list_elem_of_fmap_2 fst _ (i, t)). exact Hf. }
  cbn [fst snd] in *. destruct (finish_cold m fence i taken (index w)) as (Hl & _ & _).
  destruct (lookup_lt_is_Some_2 (ages ix') j) as [b' Hb']; [rewrite Hl; by eapply lookup_lt_Some|].
  destruct (age_after j b' Hb') as (b2 & Hb2 & _ & Hcase). rewrite Hb in Hb2. injection Hb2 as <-.
  destruct Hcase as [[? _]|(_ & Hmg & Hruns)]; [done|]. exists b'. cbn [fst snd]. rewrite pins_after, Hmg.
  destruct Hruns as [->|[Hj ->]]; [by exists rest|]. exists (rest ++ [mkArc (next_ptr (index w)) merged]).
  rewrite Hr, (assoc_L (++)). by split_and!.
Qed.
Local Lemma ptr_after : Forall (λ a, NoDup (ptr <$> runs a) ∧ Forall (λ r, (ptr r < next_ptr ix')%nat) (runs a)) (ages ix').
Proof.
  destruct (finish_cold m fence i taken (index w)) as (_ & -> & _). apply Forall_forall. intros b' [j Hb']%list_elem_of_lookup.
  destruct (age_after j b' Hb') as (b & Hb & _ & Hcase). pose proof (inv_ptr w Hinv) as Hp. rewrite Forall_forall in Hp.
  destruct (Hp b (list_elem_of_lookup_2 _ _ _ Hb)) as [Hnd Hlt].
  assert (Forall (λ r, (ptr r < next_ptr (index w) + 1)%nat) (runs b)) as Hlt' by (eapply Forall_impl; [exact Hlt|]; cbn beta; lia).
  destruct Hcase as [(_ & Hr & _)|(_ & _ & [->|[_ ->]])]; [|done|].
  - rewrite Hr in Hnd, Hlt'. rewrite fmap_app in Hnd. apply NoDup_app in Hnd as (_ & _ & Hnd). by apply Forall_app in Hlt' as [_ Hlt'].
  - split; [|apply Forall_app; split; [done|]; apply Forall_singleton; cbn [ptr]; lia].
    rewrite fmap_app. cbn [fmap list_fmap ptr]. apply NoDup_app. split_and!; [done| |apply NoDup_singleton].
    intros x (r & -> & Hr)%list_elem_of_fmap Hx%list_elem_of_singleton. rewrite Forall_forall in Hlt. specialize (Hlt r Hr). cbn beta in Hlt. lia.
Qed.
Local Lemma tip_after : last (runs0 ix') = last (runs0 (index w)).
Proof.
  unfold runs0. destruct (ages ix' !! 0%nat) as [b'|] eqn:E.
  - apply age_after in E as (b & -> & _ & Hcase). cbn [from_option].
    destruct Hcase as [(_ & -> & Hne)|(_ & _ & [->|[? _]])]; [|done|done]. specialize (Hne eq_refl).
    destruct (exists_last Hne) as (l & x & ->). by rewrite (assoc_L (++)), !last_snoc.
  - apply lookup_ge_None in E. destruct (finish_cold m fence i taken (index w)) as (Hl & _ & _).
    rewrite Hl, (inv_len w Hinv) in E. unfold K_AGES in E. lia.
Qed.
Local Lemma deep_after e :
  e ∈ elems (deep_levels ix') → e ∈ elems (deep_levels (index w)) ∨ ∃ r, r ∈ taken ∧ e ∈ entries (run r).
Proof.
  intros (r & Hr & Hin)%elem_of_elems. unfold deep_levels in Hr. apply elem_of_app in Hr as [Hr|Hr].
  - apply list_elem_of_join in Hr as (lvls & Hr & Hl). apply list_elem_of_fmap in Hl as (b' & -> & Hb').
    apply list_elem_of_lookup in Hb' as [j Hb'].
    assert (ages ix' !! S j = Some b') as Hj by (destruct (ages ix'); [done|exact Hb']).
    unfold age_levels in Hr. rewrite elem_of_reverse in Hr. apply list_elem_of_fmap in Hr as (arc & -> & Harc).
    destruct (age_after (S j) b' Hj) as (b & Hb & _ & [(_ & Hrb & _)|(_ & _ & [Hrb|[_ Hrb]])]).
    + left. eapply deep_elems; [exact Hb| |exact Hin]. rewrite Hrb. apply elem_of_app. by right.
    + left. eapply deep_elems; [exact Hb| |exact Hin]. by rewrite <-Hrb.
    + rewrite Hrb in Harc. apply elem_of_app in Harc as [Harc|Harc%list_elem_of_singleton].
      * left. by eapply deep_elems.
      * right. subst arc. by apply merged_taken.
  - rewrite elem_of_reverse in Hr. destruct (finish_cold m fence i taken (index w)) as (_ & _ & [Hc|Hc]); rewrite Hc in Hr.
    + left. apply elem_of_elems. exists r. split; [|done]. unfold deep_levels. apply elem_of_app. right. by apply elem_of_reverse.
    + apply elem_of_app in Hr as [Hr|Hr%list_elem_of_singleton].
      * left. apply elem_of_elems. exists r. split; [|done]. unfold deep_levels. apply elem_of_app. right. by apply elem_of_reverse.
      * right. subst r. by apply merged_taken.
Qed.
(** The greatest height behind the first age, once the taken runs are there. *)
Local Lemma deep_bound (deep : Z) :
  ∃ d, deep ≤ d ∧ (∀ r e, r ∈ taken → e ∈ entries (run r) → kv_height e ≤ d) ∧ ∀ p, deep < p → all_below p taken → d < p.
Proof.
  clear -taken. induction taken as [|r l (d & H1 & H2 & H3)].
  { exists deep. split_and!; [done| |done]. by intros r e ?%elem_of_nil. }
  destruct (foldl_max_ge d (kv_height <$> entries (run r))) as [Hd Hge]. exists (foldl Z.max d (kv_height <$> entries (run r))). split_and!; [lia|..].
  - intros t e [->|Ht]%elem_of_cons Hin; [apply Hge; by apply list_elem_of_fmap_2|]. specialize (H2 t e Ht Hin). lia.
  - intros p Hp [Hr Hl]%Forall_cons. specialize (H3 p Hp Hl). clear -H3 Hr. revert d H3.
    induction (entries (run r)) as [|e es IH]; intros d Hd; [done|]. apply Forall_cons in Hr as [He Hr]. cbn [fmap list_fmap foldl].
    apply IH; [done|]. cbn beta in He. lia.
Qed.
Lemma inv_finish : inv (mkWorld ix' (log w) (top w) (before ++ after)).
Proof.
  destruct levels_after as (newer & mid & older & Hl & _ & Hl' & Hmid).
  pose proof (λ k, merge_hist limit fence taken newer older mid k taken_ok Hmid) as Hmh. rewrite <-Hl, <-Hl' in Hmh.
  destruct the_flying as (_ & _ & _ & _ & _ & Hbelow & _).
  split; cbn [index log top inflight]; rewrite ?pins_after, ?tip_after.
  - destruct (finish_cold m fence i taken (index w)) as (-> & _). apply (inv_len w Hinv).
  - pose proof (inv_lv w Hinv) as Hlv. rewrite Hl in Hlv. rewrite Hl'. apply Forall_app in Hlv as [H1 [_ H2]%Forall_app].
    apply Forall_app. split; [done|]. apply Forall_app. split; [|done].
    destruct Hmid as [->|[-> _]]; [apply Forall_singleton, merged_level|constructor].
  - apply ptr_after.
  - apply Forall_forall. apply fly_after.
  - pose proof (inv_once w Hinv) as Hnd. rewrite Hfl, fmap_app, fmap_cons in Hnd. rewrite <-Permutation_middle in Hnd.
    apply NoDup_cons in Hnd as [_ Hnd]. by rewrite fmap_app.
  - apply (inv_log w Hinv).
  - apply (inv_log_hist w Hinv).
  - intros e Hin. apply (inv_sub w Hinv). rewrite Hl. rewrite Hl' in Hin. by eapply (merge_elems limit); [apply taken_ok|..].
  - apply (inv_tip w Hinv).
  - intros k. apply Hmh. apply (inv_hist w Hinv).
  - destruct (inv_coin w Hinv) as (deep & D1 & D2 & D3 & D4). destruct (deep_bound deep) as (d & Hd & Hge & Hlt). exists d. split_and!.
    + enough (d < top w + 1) by lia. apply Hlt; [lia|]. apply Forall_forall. intros r Hr. apply Forall_forall. intros e Hin.
      pose proof (inv_log w Hinv) as Hlog. rewrite Forall_forall in Hlog. destruct (Hlog e (taken_log r e Hr Hin)). lia.
    + intros p Hp. apply Hlt; [by apply D2|by apply Hbelow].
    + intros e [Hin|(r & Hr & Hin)]%deep_after; [specialize (D3 e Hin); lia|by eapply Hge].
    + intros k b Hb. rewrite <-D4 by lia. apply Hmh; [apply (inv_hist w Hinv)|]. apply Forall_forall. intros r Hr.
      apply Forall_forall. intros e Hin. specialize (Hge r e Hr Hin). lia.
Qed.
(** With the merged run behind its inputs, a query sees what it sees without it. *)
Local Lemma query_pushed before' keys :
  Forall (λ k, length k = 36%nat) keys →
  ∃ ids, index_batch_query keys (replicate (length keys) OUTPUT_ID_MAX) before' (push_merged limit m true fence i taken (index w)) = Ok ids ∧
         seen <$> ids = (λ k, coin_of before' (hist k (levels (index w)))) <$> keys.
Proof.
  intros Hk. destruct levels_after as (newer & mid & older & Hl & Hp & _ & Hmid).
  pose proof (inv_lv w Hinv) as Hlv. rewrite Hl in Hlv. apply Forall_app in Hlv as [H1 [H2 H3]%Forall_app].
  assert (Forall (level_ok limit) mid) as H4 by (destruct Hmid as [->|[-> _]]; [apply Forall_singleton, merged_level|constructor]).
  assert (∀ k e, e ∈ hist k mid → e ∈ hist k (lv taken)) as Hsub.
  { intros k e [Hke Hin]%list_elem_of_filter. apply list_elem_of_filter. split; [done|].
    destruct Hmid as [->|[-> _]]; [|by apply elem_of_nil in Hin]. cbn in Hin. rewrite app_nil_r in Hin.
    apply merged_taken in Hin as (r & Hr & Hin). apply elem_of_elems. exists (run r). split; [|done].
    unfold lv. apply elem_of_reverse. by apply list_elem_of_fmap_2. }
  assert (∀ k, each_history k mid) as Hmh.
  { intros k. apply hist_each. destruct (merge_hist limit fence taken newer older mid k taken_ok Hmid) as [Hh _].
    { rewrite <-Hl. apply (inv_hist w Hinv). }
    rewrite !hist_app in Hh. apply history_app_r in Hh. by eapply history_app_l. }
  destruct (index_query_spec limit Hlimit before' keys (push_merged limit m true fence i taken (index w))) as (ids & Hq & Hs); rewrite ?Hp in *.
  - by repeat (apply Forall_app; split).
  - eapply Forall_impl; [exact Hk|]. intros k Hlen. split; [done|]. pose proof (inv_hist w Hinv k) as Hh%hist_each.
    rewrite Hl in Hh. apply Forall_app in Hh as [? [? ?]%Forall_app]. by repeat (apply Forall_app; split).
  - exists ids. split; [done|]. rewrite Hs, Hl. apply list_fmap_ext. intros _ k _. unfold coin_of. rewrite !hist_app, !newest_app.
    destruct (newest before' (hist k newer)); [done|]. destruct (newest before' (hist k (lv taken))) eqn:En; [done|].
    destruct (newest before' (hist k mid)) as [e|] eqn:Em; [|done]. exfalso. apply newest_elem in Em as [Hin Hlt]. apply Hsub in Hin.
    unfold newest in En. apply head_None in En. apply (filter_nil_not_elem_of _ _ _ En Hlt Hin).
Qed.
End FinishStep.

Lemma inv_step w w' : step limit max_entries w w' → inv w → inv w'.
Proof.
  intros (l & [w0 es h shared shared'|w0 h|w0 i taken ix Hb|w0 m disk_ok fence i taken before after Hfl] & Hc) Hinv; cbn [in_order] in Hc.
  - by apply inv_append.
  - by apply inv_unpin.
  - by eapply inv_begin.
  - destruct Hc as (-> & Ho & He & Hd & Hs). by apply inv_finish.
Qed.
Lemma inv_reachable spill w : length spill = K_AGES → rtc (step limit max_entries) (world0 spill) w → inv w.
Proof.
  intros Hl%inv_init Hr. induction Hr as [w0|w0 w1 w2 Hs _ IH]; [done|]. apply IH. by eapply inv_step.
Qed.

(** [C1] Whatever order blocks are appended, pins dropped, and merges begun and
    finished in, and also while a merged run and its inputs are both there, a
    reader at a pinned height is given, for every coin it asks for, what the
    newest event of the coin below that height says in the list of appended
    blocks: the output of an Add, nothing after a Delete.  The conditions are
    those of [in_order]: blocks of rising height whose events alternate for every
    coin; the newest block pinned when a merge of the first age begins; merges
    that finish without folding the oldest age, without spilling past an older
    run, with their segment written and with fewer than 2^32 entries. *)
Theorem index_refines_coins spill w ix p keys :
  length spill = K_AGES → rtc (step limit max_entries) (world0 spill) w → met limit w ix →
  p ∈ pins_of (index w) → Forall (λ k, length k = 36%nat) keys →
  ∃ ids, index_batch_query keys (replicate (length keys) OUTPUT_ID_MAX) p ix = Ok ids ∧
         seen <$> ids = (λ k, coin_of p (log_hist k (log w))) <$> keys.
Proof.
  intros Hl Hr Hmet Hp Hk. pose proof (inv_reachable spill w Hl Hr) as Hinv.
  assert (∃ ids, index_batch_query keys (replicate (length keys) OUTPUT_ID_MAX) p ix = Ok ids ∧
            seen <$> ids = (λ k, coin_of p (hist k (levels (index w)))) <$> keys) as (ids & Hq & Hs).
  { destruct Hmet as [|m fence i taken (before & after & Hfl)%list_elem_of_split (Ho & He & Hd & Hsz)]; [|by eapply query_pushed].
    apply (index_query_spec limit Hlimit); [apply (inv_lv w Hinv)|].
    eapply Forall_impl; [exact Hk|]. intros k Hlen. split; [done|]. apply hist_each, (inv_hist w Hinv). }
  exists ids. split; [done|]. rewrite Hs. apply list_fmap_ext. intros _ k _.
  destruct (inv_coin w Hinv) as (deep & _ & D2 & _ & D4). by apply D4, D2.
Qed.

(** *** Settings that do not change *)

(** With one setting for the whole download, without a size cap, no age from
    the eviction age on ever holds a run, so a run is never spilled past an
    older one. *)
Definition effective_eviction (m : MergeSettings) : nat :=
  if tip_resident m && negb (eviction_age m <=? K_MUTABLE_AGES)%nat then K_AGES else eviction_age m.
Definition tail_empty (m : MergeSettings) (ix : UtxoIndex) : Prop :=
  ∀ j a, (effective_eviction m ≤ j)%nat → ages ix !! j = Some a → runs a = [].

Context (m : MergeSettings) (Hacc : oldest_accumulate m = false) (Hcap : size_cap m = false).
Context (Hevict : (1 ≤ eviction_age m ≤ K_AGES)%nat).

Definition calm (w : World) (l : label) : Prop :=
  match l with
  | Finish m' disk_ok _ _ taken =>
      m' = m ∧ disk_ok = true ∧ Z.of_nat (length (mjoin (entries <$> (run <$> taken)))) < 2 ^ 32
  | _ => in_order w l
  end.
Definition calm_step (w w' : World) : Prop := ∃ l, engine_step limit max_entries w l w' ∧ calm w l.

Lemma effective_pos : (1 ≤ effective_eviction m ≤ K_AGES)%nat.
Proof. unfold effective_eviction. destruct (_ && _); unfold K_AGES in *; lia. Qed.
Lemma destination_calm i : destination m i = if (S i <? effective_eviction m)%nat then Some (S i) else None.
Proof.
  unfold destination, effective_eviction. rewrite Hacc, Hcap. cbn [andb negb]. rewrite !andb_false_r, !andb_true_r. cbn [negb].
  by rewrite ?andb_true_r.
Qed.
Lemma tail_empty_guard i ix :
  tail_empty m ix → destination m i = None → Forall (λ a, runs a = []) (drop (S i) (ages ix)).
Proof.
  rewrite destination_calm. destruct (Nat.ltb_spec (S i) (effective_eviction m)); [done|]. intros Ht _.
  apply Forall_forall. intros a [j Hj]%list_elem_of_lookup. rewrite lookup_drop in Hj. eapply Ht; [|exact Hj]. lia.
Qed.
Lemma tail_empty_step w w' : calm_step w w' → tail_empty m (index w) → tail_empty m (index w').
Proof.
  pose proof effective_pos as Hpos.
  intros (l & [w0 es h shared shared'|w0 h|w0 i taken ix Hb|w0 m' disk_ok fence i taken before after Hfl] & Hc) Ht j a Hj Ha; cbn [index calm] in *.
  - unfold index_append in Ha. cbn [ages] in Ha. rewrite list_lookup_alter_ne in Ha by lia. by eapply Ht.
  - unfold unpin in Ha. cbn [ages] in Ha. rewrite list_lookup_alter_ne in Ha by lia. by eapply Ht.
  - destruct (begin_shape _ _ _ _ Hb) as (_ & _ & _ & _ & _ & _ & _ & _ & (Hf & _)).
    destruct (Forall2_lookup_r _ _ _ _ _ Hf Ha) as (b & Hb' & -> & _). by eapply Ht.
  - destruct Hc as (-> & -> & Hs). destruct (finish_lookup m fence i taken (index w0) j Hacc (proj2 Hevict)) as (f & Hf & Hcase). rewrite Ha in Hf.
    destruct (ages (index w0) !! j) as [b|] eqn:Hb; [|done]. injection Hf as ->. specialize (Ht j b Hj Hb).
    destruct Hcase as [[_ [h ->]]|[_ [->|(_ & Hd & _)]]]; [|done|].
    + unfold complete_merge. cbn [runs]. by rewrite Ht.
    + rewrite destination_calm in Hd. destruct (Nat.ltb_spec (S i) (effective_eviction m)); [|done]. injection Hd as <-. lia.
Qed.
Lemma calm_steps spill w :
  length spill = K_AGES → rtc calm_step (world0 spill) w → rtc (step limit max_entries) (world0 spill) w.
Proof.
  intros Hl Hr. assert (tail_empty m (index (world0 spill))) as Ht.
  { intros j a _ Ha. cbn [world0 index ages] in Ha. rewrite list_lookup_fmap in Ha.
    destruct (spill !! j); [|done]. by injection Ha as <-. }
  revert Ht. induction Hr as [w0|w0 w1 w2 Hs _ IH]; intros Ht; [done|].
  eapply rtc_l; [|apply IH; by eapply tail_empty_step]. destruct Hs as (l & He & Hc). exists l. split; [done|].
  destruct He; try exact Hc. destruct Hc as (-> & -> & Hs).
  split; [done|]. split_and!; [done|apply Hevict|by apply tail_empty_guard|done].
Qed.
End Invariant.

(** ** Concrete runs of the engine *)

Module IndexWitness.
Import RunWitness.

Fixpoint historyb (l : list OutputKV) : bool :=
  match l with
  | [] => true
  | e1 :: r =>
      ((op e1 =? 0) || (op e1 =? -1)) &&
      match r with e2 :: _ => (kv_height e2 <? kv_height e1) && eqb (is_add e1) (negb (is_add e2)) | [] => true end &&
      historyb r
  end.
Lemma historyb_history l : historyb l = true → history l.
Proof.
  induction l as [|e1 r IH]; [by split; [constructor|]|]. cbn [historyb]. intros [[Ho Hx]%andb_true_iff Hr]%andb_true_iff.
  apply history_cons. split_and!; [|destruct r as [|e2 r]; [done|]|by apply IH].
  - apply orb_true_iff in Ho. lia.
  - intros x [= <-]. apply andb_true_iff in Hx as [Hh Ha]. apply eqb_prop in Ha. split; [lia|done].
Qed.
Definition block_okb (w : World) (es : list OutputKV) (h : Z) : bool :=
  (top w <? h) && (0 <? length es)%nat && (Z.of_nat (length es) <? 2 ^ 32) &&
  forallb (λ e, (kv_height e =? h) && (0 <=? h) && ((op e =? 0) || (op e =? -1)) && (0 <=? id e) && (id e <? OUTPUT_ID_DELETED) &&
                (length (key e) =? 36)%nat) es &&
  forallb (λ k, historyb (of_key k (es ++ mjoin (log w)))) (key <$> (es ++ mjoin (log w))).
Lemma block_okb_ok w es h : block_okb w es h = true → block_ok w es h.
Proof.
  unfold block_okb. rewrite !andb_true_iff, !forallb_forall. intros [[[[Ht Hl] Hs] He] Hh]. split_and!; [|lia|lia|..].
  - destruct es; [done|discriminate].
  - apply Forall_forall. intros e Hin%list_elem_of_In. specialize (He e Hin). rewrite !andb_true_iff, orb_true_iff, Nat.eqb_eq in He.
    unfold entry_ok. naive_solver lia.
  - intros k. unfold log_hist. rewrite <-filter_app. destruct (decide (k ∈ key <$> (es ++ mjoin (log w)))) as [Hk|Hk].
    + apply historyb_history, Hh. by apply list_elem_of_In.
    + rewrite filter_none; [by split; [constructor|]|]. apply Forall_forall. intros e Hin <-. apply Hk. by apply list_elem_of_fmap_2.
Qed.

Definition append1 (es : list OutputKV) (h : Z) (w : World) : World :=
  mkWorld (index_append 20 2 false false es h (index w)) (es :: log w) h (inflight w).
Definition unpin1 (h : Z) (w : World) : World := mkWorld (unpin h (index w)) (log w) (top w) (inflight w).
Definition begin1 (i : nat) (w : World) : World :=
  match begin_merge i (index w) with Some (taken, ix) => mkWorld ix (log w) (top w) ((i, taken) :: inflight w) | None => w end.
Definition finish1 (m : MergeSettings) (fence : OutputKV → Z) (w : World) : World :=
  match inflight w with
  | (i, taken) :: fl => mkWorld (finish_merge 20 m true fence i taken (index w)) (log w) (top w) fl
  | [] => w
  end.
Definition ask (h : Z) (ks : list Z) (w : World) : option (list (option Z)) :=
  match index_batch_query (coin <$> ks) (replicate (length ks) OUTPUT_ID_MAX) h (index w) with Ok ids => Some (seen <$> ids) | Err _ => None end.
Definition start : World := world0 (replicate K_AGES 1%nat).
Definition plain : MergeSettings := mkSettings 7 false false false.

Abbreviation steps := (rtc (step 20 2)).
Lemma steps_append w0 w es h : steps w0 w → block_okb w es h = true → steps w0 (append1 es h w).
Proof. intros Hr Hb. eapply rtc_r; [exact Hr|]. exact (ex_intro _ _ (conj (engine_append 20 2 w es h false false) (block_okb_ok w es h Hb))). Qed.
Lemma steps_unpin w0 w h : steps w0 w → steps w0 (unpin1 h w).
Proof. intros Hr. eapply rtc_r; [exact Hr|]. exact (ex_intro _ _ (conj (engine_unpin 20 2 w h) I)). Qed.
Lemma steps_begin w0 w i : steps w0 w → bool_decide (top w ∈ pins_of (index w)) = true → steps w0 (begin1 i w).
Proof.
  intros Hr Hp%bool_decide_eq_true. unfold begin1. destruct (begin_merge i (index w)) as [[taken ix]|] eqn:E; [|done].
  eapply rtc_r; [exact Hr|]. exists (Begin i taken). split; [by apply engine_begin|]. intros _. exact Hp.
Qed.
Lemma steps_finish w0 w m fence :
  steps w0 w → oldest_accumulate m = false → (eviction_age m ≤ K_AGES)%nat →
  from_option (λ f, bool_decide (destination m f.1 ≠ None) && (Z.of_nat (length (mjoin (entries <$> (run <$> f.2)))) <? 2 ^ 32)) true (head (inflight w)) = true →
  steps w0 (finish1 m fence w).
Proof.
  intros Hr Ho He Hf. unfold finish1. destruct (inflight w) as [|[i taken] fl] eqn:E; [done|]. cbn [head from_option fst snd] in Hf.
  apply andb_true_iff in Hf as [Hd%bool_decide_eq_true Hs]. eapply rtc_r; [exact Hr|].
  exists (Finish m true fence i taken). split; [by apply (engine_finish _ _ w m true fence i taken [] fl)|]. split; [done|]. split_and!; [done..|lia].
Qed.

(** Two coins; in the next block one is spent and a third appears; while the run
    of the first block is merged into the next age, a fourth appears. *)
Definition w_merging : World :=
  append1 [add 4 3] 3 (begin1 0 (unpin1 1 (append1 [del 1 2; add 3 2] 2 (append1 [add 1 1; add 2 1] 1 start)))).
Definition w_merged : World := finish1 plain (λ _, 0) w_merging.
Lemma w_merging_reached : steps start w_merging.
Proof.
  apply steps_append; [|by vm_compute]. apply steps_begin; [|by vm_compute]. apply steps_unpin.
  apply steps_append; [|by vm_compute]. by apply steps_append; [|by vm_compute].
Qed.
Lemma w_merged_reached : steps start w_merged.
Proof. apply steps_finish; [exact w_merging_reached|done|unfold K_AGES; cbn; lia|by vm_compute]. Qed.
Lemma index_refines_coins_witness :
  length (runs0 (index w_merged)) = 2%nat ∧
  ∃ ids, index_batch_query (coin <$> [1; 2; 3; 4]) (replicate 4 OUTPUT_ID_MAX) 3 (index w_merged) = Ok ids ∧
         seen <$> ids = [None; Some 2001; Some 3002; None].
Proof.
  split; [by vm_compute|].
  destruct (index_refines_coins 20 ltac:(lia) 2 ltac:(lia) (replicate K_AGES 1%nat) w_merged (index w_merged) 3 (coin <$> [1; 2; 3; 4]))
    as (ids & Hq & Hs).
  - done.
  - exact w_merged_reached.
  - apply met_now.
  - apply (bool_decide_unpack _). by vm_compute.
  - by repeat constructor.
  - exists ids. split; [exact Hq|]. rewrite Hs. by vm_compute.
Defined.

(** When memory answers every key, the marker of a spent coin is returned. *)
Lemma deleted_marker_returned :
  index_batch_query [coin 1] [OUTPUT_ID_MAX] 3 (index w_merged) = Ok [OUTPUT_ID_DELETED].
Proof. by vm_compute. Qed.

(** *** Where the conditions matter *)

(** The size cap sends the deletion to the cold tier while the next age holds
    the older addition, which is asked first: a spent coin is live. *)
Definition w_aged : World :=
  finish1 plain (λ _, 0) (begin1 0 (unpin1 1 (append1 [add 5 2; add 7 2] 2 (append1 [add 1 1; add 6 1] 1 start)))).
Lemma spill_past_older_run :
  let w3 := finish1 plain (λ _, 0) (begin1 0 (unpin1 3 (unpin1 2 (append1 [add 3 4; add 4 4] 4 (append1 [del 1 3; add 2 3] 3 w_aged))))) in
  let w := finish1 (mkSettings 7 false false true) (λ _, 0) (begin1 0 w3) in
  ask 4 [1] w3 = Some [None] ∧ ask 4 [1] w = Some [Some 1001] ∧ coin_of 4 (log_hist (coin 1) (log w)) = None.
Proof. by vm_compute. Qed.

(** Nothing pinned, the run that blocks are still appended to is taken.  The
    append during the merge puts a new run with the same entries in its place,
    which is not among the removed ones: the addition is there twice, and once
    the later merge has cancelled one of them with its deletion, the coin is live. *)
Lemma tip_taken_and_replaced :
  let w0 := begin1 0 (unpin1 1 (append1 [add 1 1] 1 start)) in
  let w := finish1 plain (λ _, 0) (mkWorld (index_append 20 2 true true [del 1 2] 2 (index w0)) ([del 1 2] :: log w0) 2 (inflight w0)) in
  let w' := append1 [add 2 3] 3 (finish1 plain (λ _, 2) (begin1 0 (unpin1 2 w))) in
  ask 3 [1] w = Some [None] ∧ ask 3 [1] w' = Some [Some 1001] ∧ coin_of 3 (log_hist (coin 1) (log w')) = None.
Proof. by vm_compute. Qed.

(** Folded into the age it comes from, the oldest run is its newest: an addition
    of before is asked for before its deletion. *)
Lemma fold_oldest_reorders :
  let w3 := append1 [add 3 4; add 4 4] 4 (append1 [del 1 3; add 2 3] 3 (append1 [add 5 2; add 7 2] 2 (append1 [add 1 1; add 6 1] 1 start))) in
  let into i w := finish1 plain (λ _, 0) (begin1 i w) in
  let sink w := into 2%nat (into 1%nat (into 0%nat w)) in
  let w := sink (sink (sink (unpin1 3 (unpin1 2 (unpin1 1 w3))))) in
  let w' := finish1 (mkSettings 4 false true false) (λ _, 0) (begin1 3 w) in
  ask 4 [1] w = Some [None] ∧ ask 4 [1] w' = Some [Some 1001] ∧ coin_of 4 (log_hist (coin 1) (log w')) = None.
Proof. by vm_compute. Qed.

(** A merge that leaves memory and whose segment cannot be written drops its
    inputs all the same: a coin that was never spent is gone. *)
Lemma unwritten_segment_loses_coins :
  let w := begin1 0 (unpin1 1 (append1 [add 3 2; add 4 2] 2 (append1 [add 1 1; add 2 1] 1 start))) in
  match inflight w with
  | (i, taken) :: _ =>
      let ix := finish_merge 20 (mkSettings 1 false false false) false (λ _, 0) i taken (index w) in
      index_batch_query [coin 1] [OUTPUT_ID_MAX] 2 ix = Ok [OUTPUT_ID_MAX] ∧
      coin_of 2 (log_hist (coin 1) (log w)) = Some 1001
  | [] => False
  end.
Proof. by vm_compute. Qed.
End IndexWitness.
