(* ===== verification/Graph.v ===== *)
(** * Graph: stack-driven reachability

    The loops of the mempool that follow parent and child sets with an explicit
    stack ([replacement_package], [descendant_closure], the ancestor walk and the
    cluster count of [src/node/mempool.rs]) have two shapes: a node is marked when
    it is taken off the stack, or when it is put on it.  Both are defined here
    over a successor function, with the bound on the number of rounds that the
    edges give, and both compute the reachable nodes. *)

From S2P Require Import Prelude Bytes.

Lemma size_list_to_set_le (l : list bytes) : size (list_to_set l : gset bytes) ≤ length l.
Proof.
  induction l as [|x l IH]; [done|]. cbn [list_to_set length]. rewrite size_union_alt, size_singleton.
  assert (size (list_to_set l ∖ {[x]} : gset bytes) ≤ size (list_to_set l : gset bytes))
    by (apply subseteq_size; set_solver).
  lia.
Qed.

Section Search.
Variable next : bytes → list bytes.

(** Marked when popped: [if !seen.insert(current) { continue }]. *)
Fixpoint mark_on_pop (fuel : nat) (stack : list bytes) (seen : gset bytes) : gset bytes :=
  match fuel, stack with
  | O, _ | _, [] => seen
  | S fuel', cur :: rest =>
      if bool_decide (cur ∈ seen) then mark_on_pop fuel' rest seen
      else mark_on_pop fuel' (next cur ++ rest) ({[cur]} ∪ seen)
  end.

(** Marked when pushed: [if out.insert(child) { stack.push(child) }]. *)
Fixpoint push_new (nodes stack : list bytes) (out : gset bytes) : list bytes * gset bytes :=
  match nodes with
  | [] => (stack, out)
  | n :: rest =>
      if bool_decide (n ∈ out) then push_new rest stack out
      else push_new rest (n :: stack) ({[n]} ∪ out)
  end.
Fixpoint mark_on_push (fuel : nat) (stack : list bytes) (out : gset bytes) : gset bytes :=
  match fuel, stack with
  | O, _ | _, [] => out
  | S fuel', cur :: rest =>
      let '(stack', out') := push_new (next cur) rest out in
      mark_on_push fuel' stack' out'
  end.

(** ** Reachability *)

Definition edge (x y : bytes) : Prop := y ∈ next x.
Definition closed (X : gset bytes) : Prop := ∀ x y, x ∈ X → edge x y → y ∈ X.
(** Reachable in at least one step from [x]. *)
Definition below (x y : bytes) : Prop := tc edge x y.

Lemma closed_reach X x y : closed X → x ∈ X → rtc edge x y → y ∈ X.
Proof. intros Hc Hx Hr. induction Hr as [|a b c Hab _ IH]; [done|]. apply IH. by apply (Hc a). Qed.

(** The number of edges that leave a finite set of nodes. *)
Definition edges (D : gset bytes) : nat := sum_list_with (λ x, length (next x)) (elements D).

Lemma edges_remove D x :
  x ∈ D → edges D = length (next x) + edges (D ∖ {[x]}).
Proof.
  intros Hx. unfold edges. rewrite (union_difference_singleton_L x D Hx) at 1.
  rewrite elements_disj_union by set_solver. rewrite elements_singleton. done.
Qed.
Lemma edges_difference D X x :
  edges (D ∖ ({[x]} ∪ X)) + (if bool_decide (x ∈ D ∖ X) then length (next x) else 0) = edges (D ∖ X).
Proof.
  case_bool_decide as Hx.
  - rewrite (edges_remove (D ∖ X) x Hx). replace (D ∖ ({[x]} ∪ X)) with (D ∖ X ∖ {[x]}) by set_solver. lia.
  - replace (D ∖ ({[x]} ∪ X)) with (D ∖ X) by set_solver. lia.
Qed.

(** Every node with a successor is in [D]. *)
Variable D : gset bytes.
Hypothesis next_dom : ∀ x, x ∉ D → next x = [].

(** The first loop: enough rounds for the stack and the unmarked edges give the
    marked nodes and everything reachable from the stack. *)
Lemma mark_on_pop_spec fuel stack seen :
  length stack + edges (D ∖ seen) ≤ fuel →
  (∀ x y, x ∈ seen → edge x y → y ∈ seen ∨ y ∈ stack) →
  ∀ y, y ∈ mark_on_pop fuel stack seen ↔ y ∈ seen ∨ ∃ x, x ∈ stack ∧ rtc edge x y.
Proof.
  revert stack seen. induction fuel as [|fuel IH]; intros stack seen Hf Hinv y.
  { destruct stack; [|cbn in Hf; lia]. cbn. split; [by left|]. intros [?|(x & Hx & _)]; [done|]. by apply elem_of_nil in Hx. }
  destruct stack as [|cur rest]; cbn [mark_on_pop].
  { split; [by left|]. intros [?|(x & Hx & _)]; [done|]. by apply elem_of_nil in Hx. }
  cbn [length] in Hf. case_bool_decide as Hcur.
  - rewrite IH; [|lia|intros a b Ha Hab; destruct (Hinv a b Ha Hab) as [?|[->|?]%elem_of_cons]; auto].
    split; [intros [?|(x & Hx & Hr)]; [by left|right; exists x; split; [by right|done]]|].
    intros [?|(x & [->|Hx]%elem_of_cons & Hr)]; [by left| |by right; exists x].
    (* everything reachable from a marked node is marked or reachable from the rest *)
    assert (∀ a, a ∈ seen → rtc edge a y → y ∈ seen ∨ ∃ x, x ∈ rest ∧ rtc edge x y) as Hgo.
    { intros a Ha Hay. induction Hay as [|a b c Hab Hbc IHr]; [by left|].
      destruct (Hinv a b Ha Hab) as [Hb|[->|Hb]%elem_of_cons]; [by apply IHr|by apply IHr|].
      right. by exists b. }
    by apply (Hgo cur).
  - rewrite IH.
    + rewrite elem_of_union, elem_of_singleton. setoid_rewrite elem_of_app. split.
      * intros [[->|?]|(x & [Hx|Hx] & Hr)].
        -- right. exists cur. split; [by left|done].
        -- by left.
        -- right. exists cur. split; [by left|]. by apply (rtc_l _ _ x).
        -- right. exists x. split; [by right|done].
      * intros [?|(x & [->|Hx]%elem_of_cons & Hr)]; [by left; right| |right; exists x; auto].
        apply rtc_inv in Hr as [->|(z & Hz & Hr)]; [by left; left|]. right. exists z. auto.
    + rewrite length_app. pose proof (edges_difference D seen cur) as He. case_bool_decide as Hd; [lia|].
      assert (next cur = []) as -> by (apply next_dom; set_solver). cbn. lia.
    + intros a b Ha Hab. rewrite elem_of_union, elem_of_singleton in Ha. rewrite elem_of_union, elem_of_app.
      destruct Ha as [->|Ha]; [by right; left|].
      destruct (Hinv a b Ha Hab) as [?|[->|?]%elem_of_cons]; [by left; right| |by right; right].
      left; left. by apply elem_of_singleton.
Qed.

(** From one root: the root and everything below it. *)
Corollary mark_on_pop_root fuel root :
  1 + edges D ≤ fuel → ∀ y, y ∈ mark_on_pop fuel [root] ∅ ↔ rtc edge root y.
Proof.
  intros Hf y. rewrite mark_on_pop_spec.
  - split; [intros [?|(x & ->%list_elem_of_singleton & ?)]; [set_solver|done]|].
    intros Hr. right. exists root. split; [by apply list_elem_of_singleton|done].
  - replace (D ∖ ∅) with D by set_solver. cbn. lia.
  - set_solver.
Qed.

(** ** The second loop *)

(** All successors. *)
Definition range : gset bytes := list_to_set (mjoin (next <$> elements D)).
Lemma edge_range x y : edge x y → y ∈ range.
Proof.
  intros Hxy. unfold range. apply elem_of_list_to_set, list_elem_of_join. exists (next x). split; [done|].
  apply list_elem_of_fmap. exists x. split; [done|]. apply elem_of_elements.
  destruct (decide (x ∈ D)) as [|Hx]; [done|]. unfold edge in Hxy. rewrite next_dom in Hxy by done. by apply elem_of_nil in Hxy.
Qed.
Lemma size_range : size range ≤ edges D.
Proof.
  unfold range, edges. etrans; [apply size_list_to_set_le|]. induction (elements D) as [|x l IH]; [done|].
  change (mjoin (next <$> (x :: l))) with (next x ++ mjoin (next <$> l)). rewrite length_app.
  cbn [sum_list_with]. apply Nat.add_le_mono_l, IH.
Qed.

Lemma push_new_spec nodes stack out stack' out' :
  push_new nodes stack out = (stack', out') →
  (∀ y, y ∈ nodes → y ∈ range) →
  out' = list_to_set nodes ∪ out ∧ (∀ y, y ∈ stack' ↔ y ∈ stack ∨ (y ∈ nodes ∧ y ∉ out)) ∧
  length stack' + size (range ∖ out') = length stack + size (range ∖ out).
Proof.
  revert stack out. induction nodes as [|n nodes IH]; intros stack out Hp Hr.
  { injection Hp as <- <-. split_and!; [set_solver|set_solver|done]. }
  cbn [push_new] in Hp. case_bool_decide as Hn.
  - destruct (IH stack out Hp) as (-> & Hs & Hl); [set_solver|]. split_and!; [set_solver| |].
    + intros y. rewrite Hs. set_solver.
    + replace (list_to_set (n :: nodes) ∪ out) with (list_to_set nodes ∪ out) by set_solver. done.
  - destruct (IH _ _ Hp) as (-> & Hs & Hl); [set_solver|]. split_and!; [set_solver| |].
    + intros y. rewrite Hs. destruct (decide (y = n)) as [->|]; set_solver.
    + cbn [length] in Hl. assert (size (range ∖ out) = S (size (range ∖ ({[n]} ∪ out)))) as ->.
      { replace (range ∖ out) with ({[n]} ∪ range ∖ ({[n]} ∪ out)).
        - rewrite size_union by set_solver. by rewrite size_singleton.
        - apply set_eq. intros y. assert (n ∈ range) by (apply Hr; by left).
          destruct (decide (y = n)) as [->|]; set_solver. }
      replace (list_to_set (n :: nodes) ∪ out) with (list_to_set nodes ∪ ({[n]} ∪ out)) by set_solver. lia.
Qed.

Lemma mark_on_push_spec fuel stack out :
  length stack + size (range ∖ out) ≤ fuel →
  (∀ x y, x ∈ out → edge x y → x ∈ stack ∨ y ∈ out) →
  ∀ y, y ∈ mark_on_push fuel stack out ↔ y ∈ out ∨ ∃ x, x ∈ stack ∧ tc edge x y.
Proof.
  revert stack out. induction fuel as [|fuel IH]; intros stack out Hf Hinv y.
  { destruct stack; [|cbn in Hf; lia]. cbn. split; [by left|]. intros [?|(x & Hx & _)]; [done|]. by apply elem_of_nil in Hx. }
  destruct stack as [|cur rest]; cbn [mark_on_push].
  { split; [by left|]. intros [?|(x & Hx & _)]; [done|]. by apply elem_of_nil in Hx. }
  destruct (push_new (next cur) rest out) as [stack' out'] eqn:Hp.
  destruct (push_new_spec _ _ _ _ _ Hp) as (-> & Hs & Hl); [intros z Hz; by apply (edge_range cur)|].
  cbn [length] in Hf.
  set (out' := list_to_set (next cur) ∪ out) in *.
  assert (∀ x z, x ∈ out' → edge x z → x ∈ stack' ∨ z ∈ out') as Hinv'.
  { intros x z Hx Hxz. rewrite Hs. destruct (decide (x ∈ out)) as [Ho|Ho]; [|set_solver].
    destruct (Hinv x z Ho Hxz) as [[->|?]%elem_of_cons|?]; [right|by left; left|right]; set_solver. }
  rewrite IH by (done || lia). split.
  - intros [[Hy|Hy]%elem_of_union|(x & [Hx|[Hx _]]%Hs & Hr)].
    + right. exists cur. split; [by left|]. apply tc_once. by apply elem_of_list_to_set in Hy.
    + by left.
    + right. exists x. split; [by right|done].
    + right. exists cur. split; [by left|]. by apply (tc_l _ _ x).
  - assert (∀ a, tc edge a y → a ∈ out' → y ∈ out' ∨ ∃ x, x ∈ stack' ∧ tc edge x y) as Hgo.
    { intros a Hay. induction Hay as [a b Hab|a b c Hab Hbc IHr]; intros Ha.
      - destruct (Hinv' a b Ha Hab); [|by left]. right. exists a. split; [done|by apply tc_once].
      - destruct (Hinv' a b Ha Hab); [|by apply IHr]. right. exists a. split; [done|by apply (tc_l _ _ b)]. }
    intros [Hy|(x & [->|Hx]%elem_of_cons & Hr)].
    + left. set_solver.
    + assert (∀ z, edge cur z → z ∈ out') as Hz by (intros z Hz; unfold edge in Hz; set_solver).
      inversion Hr as [? ? Hcy|? b ? Hcb Hby]; subst; [left; by apply Hz|]. by apply (Hgo b), Hz.
    + right. exists x. split; [apply Hs; by left|done].
Qed.

(** From one root: everything strictly below it. *)
Corollary mark_on_push_root fuel root :
  1 + edges D ≤ fuel → ∀ y, y ∈ mark_on_push fuel [root] ∅ ↔ below root y.
Proof.
  intros Hf y. rewrite mark_on_push_spec.
  - split; [intros [?|(x & ->%list_elem_of_singleton & ?)]; [set_solver|done]|].
    intros Hr. right. exists root. split; [by apply list_elem_of_singleton|done].
  - replace (range ∖ ∅) with range by set_solver. pose proof size_range. cbn. lia.
  - set_solver.
Qed.
End Search.
