(* ===== verification/TxPolicy.v ===== *)
(** * TxPolicy: transactions and the relay policy on scripts

    The stateless checks of [src/node/mempool.rs]: push parsing, standard
    output and spent scripts, dust, signature operations of redeem scripts,
    witness limits, the consensus script checks and the transaction weight;
    and [src/network/txhash.rs].  What [blvm-protocol] computes of a transaction
    or a script is the class [TxOps]. *)

From S2P Require Import Prelude Bytes Interfaces UtxoSnapshot.
Open Scope Z_scope.

(** ** Transactions ([blvm_protocol::Transaction]) *)

Record TxIn := mkTxIn { ti_prevout : OutPoint; script_sig : bytes; sequence : Z }.
Record TxOut := mkTxOut { out_value : Z; out_script : bytes }.
Record Tx := mkTx {
  tx_version : Z;
  tx_ins : list TxIn;
  tx_outputs : list TxOut;
  lock_time : Z;
}.
Definition tx_inputs (tx : Tx) : list OutPoint := ti_prevout <$> tx_ins tx.
(** One input's witness stack. *)
Abbreviation Witness := (list bytes).
Record Block := mkBlock { blk_header : BlockHeader; block_txs : list Tx }.

(** Value and script of one spent output. *)
Record InputPrevout := mkPrevout { pr_value : Z; pr_script : bytes }.

(** Limits of the relay policy. *)
Abbreviation MAX_STANDARD_TX_WEIGHT := 400000%Z (only parsing).
Abbreviation MIN_STANDARD_TX_NONWITNESS_SIZE := 65%Z (only parsing).
Abbreviation MAX_STANDARD_SCRIPTSIG_SIZE := 1650%nat (only parsing).
Abbreviation MAX_STANDARD_OP_RETURN_SIZE := (MAX_STANDARD_TX_WEIGHT / 4)%Z (only parsing).
Abbreviation MAX_STANDARD_P2SH_SIGOPS := 15%Z (only parsing).
Abbreviation MAX_STANDARD_P2WSH_STACK_ITEM_SIZE := 80%nat (only parsing).
Abbreviation MAX_STANDARD_P2WSH_SCRIPT_SIZE := 3600%nat (only parsing).
Abbreviation MAX_STANDARD_P2WSH_STACK_ITEMS := 100%nat (only parsing).
Abbreviation MAX_STANDARD_TAPSCRIPT_STACK_ITEM_SIZE := 80%nat (only parsing).
Abbreviation TAPROOT_ANNEX_TAG := 80%Z (only parsing).
Abbreviation TAPROOT_LEAF_MASK := 254%Z (only parsing).
Abbreviation TAPROOT_LEAF_TAPSCRIPT := 192%Z (only parsing).
Abbreviation MEMPOOL_POLICY_HEIGHT := 1000000%Z (only parsing).
Abbreviation SCRIPT_VERIFY_MINIMALDATA := 64%Z (only parsing).

(** What the pool calls of [blvm-protocol]. *)
Class TxOps := {
  Network : Type;
  SpamFilterConfig : Type;
  calculate_tx_id : Tx → bytes;
  (** [serialize_transaction(tx).len()], [wire::serialize_tx(tx)] and
      [serialize_transaction_with_witness]. *)
  serialized_len : Tx → Z;
  wire_len : Tx → option Z;
  serialize_with_witness : Tx → list Witness → option bytes;
  transaction_weight_from_stacks : Tx → list Witness → option Z;
  is_coinbase : Tx → bool;
  (** [transaction::check_transaction] returns [Valid]. *)
  check_transaction : Tx → bool;
  check_coinbase_maturity : Z → Z → bool → bool;
  is_final_tx : Tx → Z → Z → bool;
  version_enforces_relative_lock : Z → bool;
  is_sequence_disabled : Z → bool;
  extract_sequence_type_flag : Z → bool;
  extract_sequence_locktime_value : Z → Z;
  relative_lock_unsatisfied : Tx → coin_map → Z → Z → list Z → Network → option bool;
  is_any_witness_program : bytes → bool;
  is_invalid_v0_witness_program : bytes → bool;
  is_upgradable_witness_program : bytes → bool;
  is_pay_to_anchor : bytes → bool;
  p2sh_push_only_check : bytes → bool;
  count_sigops_in_script : bytes → Z;
  get_legacy_sigop_count : Tx → Z;
  transaction_sigop_cost : Tx → list (option UTXO) → option (list Witness) → option Z;
  sigop_adjusted_vsize : Z → Z → Z → Z;
  DEFAULT_BYTES_PER_SIGOP : Z;
  MAX_STANDARD_TX_SIGOPS_COST : Z;
  (** [calculate_script_flags_for_block_network] on mainnet, the flags
      standardness adds, and [verify_script_with_context_full] at one input. *)
  script_flags : Tx → bool → Z → Z;
  STANDARD_SCRIPT_FLAGS : Z;
  verify_script : TxIn → bytes → option Witness → Z → Tx → nat → list Z → list bytes → Z → option bool;
  (** [blvm_protocol::mempool]. *)
  signals_rbf : Tx → bool;
  has_conflict_with_tx : Tx → Tx → bool;
  replacement_checks : Tx → Tx → coin_map → gset bytes → option (list Witness) → result bool;
  (** [blvm_protocol::spam_filter]: the default filter or a configured one. *)
  is_spam : option SpamFilterConfig → Tx → option (list Witness) → bool;
}.

(** ** Pushes *)

Definition OP_PUSHDATA1 : Z := 76.
Definition OP_PUSHDATA2 : Z := 77.
Definition OP_PUSHDATA4 : Z := 78.
Definition OP_1NEGATE : Z := 79.
Definition OP_1 : Z := 81.
Definition OP_16 : Z := 96.
Definition OP_CHECKMULTISIG : Z := 174.

(** [len] bytes of data, or a length of [n] little-endian bytes and its data;
    [None] when the script is too short. *)
Definition split_data (len : Z) (rest : bytes) : option (bytes * bytes) :=
  if bool_decide (len ≤ Z.of_nat (length rest))
  then Some (take (Z.to_nat len) rest, drop (Z.to_nat len) rest) else None.
Definition push_data (n : nat) (rest : bytes) : option (bytes * bytes) :=
  if bool_decide (n ≤ length rest)%nat then split_data (of_le (take n rest)) (drop n rest) else None.

(** The loop over opcodes: one push per round, [None] on anything else.  A round
    consumes its opcode, so the length of the script bounds the rounds. *)
Section Walk.
Context (step : Z → bytes → option (bytes * bytes)).
Fixpoint walk_pushes (fuel : nat) (script : bytes) (last : option bytes) : option (option bytes) :=
  match fuel, script with
  | _, [] => Some last
  | 0%nat, _ :: _ => None
  | S fuel', op :: rest =>
      match step (b2z op) rest with
      | None => None
      | Some (data, rest') => walk_pushes fuel' rest' (Some data)
      end
  end.
End Walk.

Definition script_push (op : Z) (rest : bytes) : option (bytes * bytes) :=
  if bool_decide (op = 0) then Some ([], rest)
  else if bool_decide (0 < op < OP_PUSHDATA1) then split_data op rest
  else if bool_decide (op = OP_PUSHDATA1) then push_data 1 rest
  else if bool_decide (op = OP_PUSHDATA2) then push_data 2 rest
  else if bool_decide (op = OP_PUSHDATA4) then push_data 4 rest
  else if bool_decide (op = OP_1NEGATE ∨ OP_1 ≤ op ≤ OP_16) then Some ([], rest)
  else None.
Definition last_script_push (script : bytes) : option bytes :=
  mjoin (walk_pushes script_push (length script) script None).

Definition payload_push (op : Z) (rest : bytes) : option (bytes * bytes) :=
  if bool_decide (96 < op) then None
  else if bool_decide (op ≤ 75) then split_data op rest
  else if bool_decide (op = 76) then push_data 1 rest
  else if bool_decide (op = 77) then push_data 2 rest
  else if bool_decide (op = 78) then push_data 4 rest
  else Some ([], rest).
Definition last_push_payload (script : bytes) : option bytes :=
  mjoin (walk_pushes payload_push (length script) script None).
Definition op_return_payload_is_push_only (script : bytes) : bool :=
  bool_decide (is_Some (walk_pushes payload_push (length script) (drop 1 script) None)).

(** ** Standard scripts *)

(** [script[i] == v]; the callers check the length first. *)
Definition byte_at (script : bytes) (i : nat) (v : Z) : bool :=
  match script !! i with Some b => bool_decide (b2z b = v) | None => false end.
Definition has_length (script : bytes) (n : nat) : bool := bool_decide (length script = n).

Definition is_p2sh_script (script : bytes) : bool :=
  has_length script 23 && byte_at script 0 169 && byte_at script 1 20 && byte_at script 22 135.
Definition is_p2wsh_script (script : bytes) : bool :=
  has_length script 34 && byte_at script 0 0 && byte_at script 1 32.
Definition is_taproot_output (script : bytes) : bool :=
  has_length script 34 && byte_at script 0 81 && byte_at script 1 32.

(** Length of the key a push opcode announces, when its header byte fits. *)
Definition key_length (script : bytes) (i : nat) : option nat :=
  if byte_at script i 33 then
    if byte_at script (S i) 2 || byte_at script (S i) 3 then Some 33%nat else None
  else if byte_at script i 65 then
    if byte_at script (S i) 4 then Some 65%nat else None
  else None.
(** [n] keys from [i] on, ending two bytes before the end. *)
Fixpoint multisig_keys (script : bytes) (n i : nat) : bool :=
  match n with
  | 0%nat => bool_decide (i = length script - 2)%nat
  | S n' =>
      if bool_decide (length script - 2 ≤ i)%nat then false
      else match key_length script i with
           | None => false
           | Some pk_len =>
               if bool_decide (length script - 2 < i + 1 + pk_len)%nat then false
               else multisig_keys script n' (i + 1 + pk_len)
           end
  end.
Definition bare_multisig_within (script : bytes) (max_keys : Z) : bool :=
  if bool_decide (length script < 4)%nat || negb (byte_at script (length script - 1) OP_CHECKMULTISIG) then false
  else
    let n_op := default 0 (b2z <$> script !! (length script - 2)%nat) in
    if bool_decide (n_op < OP_1) || bool_decide (OP_1 + sat_sub max_keys 1 < n_op) then false
    else
      let m_op := default 0 (b2z <$> script !! 0%nat) in
      if negb (bool_decide (OP_1 ≤ m_op ≤ OP_16)) then false
      else if bool_decide (n_op < m_op) then false
      else multisig_keys script (Z.to_nat (n_op - OP_1 + 1)) 1.
Definition bare_multisig_is_standard (script : bytes) : bool := bare_multisig_within script 3.

Section Policy.
Context {T : TxOps}.

Definition script_needs_witness_verification (script : bytes) : bool := is_any_witness_program script.
Definition p2sh_redeem_is_witness_program (script_pubkey sig : bytes) : bool :=
  is_p2sh_script script_pubkey &&
  match last_script_push sig with
  | Some redeem => script_needs_witness_verification redeem
  | None => false
  end.

Definition output_script_is_standard (script : bytes) : bool :=
  if bool_decide (script = []) then false
  else if byte_at script 0 106
  then bool_decide (Z.of_nat (length script) ≤ MAX_STANDARD_OP_RETURN_SIZE) && op_return_payload_is_push_only script
  else if is_any_witness_program script && negb (is_invalid_v0_witness_program script) then true
  else if has_length script 25 && byte_at script 0 118 && byte_at script 1 169 && byte_at script 2 20
          && byte_at script 23 136 && byte_at script 24 172 then true
  else if has_length script 23 && byte_at script 0 169 && byte_at script 1 20 && byte_at script 22 135 then true
  else if has_length script 35 && byte_at script 0 33 && (byte_at script 1 2 || byte_at script 1 3)
          && byte_at script 34 172 then true
  else (has_length script 67 && byte_at script 0 65 && byte_at script 1 4 && byte_at script 66 172)
       || bare_multisig_is_standard script.
Definition spent_script_is_standard (script : bytes) : bool :=
  output_script_is_standard script || bare_multisig_within script 16.

(** Below three satoshis per byte of the output and of a spend of it. *)
Definition dust_threshold (script : bytes) : Z :=
  let script_len := Z.of_nat (length script) in
  let compact := if bool_decide (script_len < 253) then 1 else if bool_decide (script_len ≤ 65535) then 3 else 5 in
  let spend := if is_any_witness_program script then 32 + 4 + 1 + 107 / 4 + 4 else 32 + 4 + 1 + 107 + 4 in
  Z.min ((8 + compact + script_len + spend) * 3000) u64_max / 1000.
Definition output_is_dust (output : TxOut) : bool :=
  if byte_at (out_script output) 0 106 then false
  else bool_decide (out_value output < dust_threshold (out_script output)).

(** ** Limits on redeem scripts and witnesses *)

(** Some spent output passes the test, with its position and scriptSig. *)
Definition any_prevout (ins : list TxIn) (prevouts : list (option InputPrevout))
    (f : nat → bytes → bytes → bool) : bool :=
  existsb (λ p : nat * option InputPrevout,
    match p.2 with
    | Some pr => f p.1 (default [] (script_sig <$> ins !! p.1)) (pr_script pr)
    | None => false
    end) (imap pair prevouts).
(** The same for the spent outputs with a witness stack. *)
Definition any_stack (ins : list TxIn) (prevouts : list (option InputPrevout)) (witnesses : option (list Witness))
    (f : bytes → bytes → Witness → bool) : bool :=
  match witnesses with
  | None => false
  | Some stacks => any_prevout ins prevouts (λ i sig script,
      match stacks !! i with Some stack => f sig script stack | None => false end)
  end.

Definition p2sh_redeem_sigops_exceed (tx : Tx) (prevouts : list (option InputPrevout)) : bool :=
  any_prevout (tx_ins tx) prevouts (λ _ sig script,
    is_p2sh_script script &&
    match last_push_payload sig with
    | Some redeem => bool_decide (MAX_STANDARD_P2SH_SIGOPS < count_sigops_in_script redeem)
    | None => false
    end).
Definition pay_to_anchor_witness_present (prevouts : list (option InputPrevout)) (witnesses : option (list Witness)) : bool :=
  any_stack [] prevouts witnesses (λ _ script stack, is_pay_to_anchor script && negb (bool_decide (stack = []))).

Definition spends_p2wsh (sig script : bytes) : bool :=
  is_p2wsh_script script ||
  (is_p2sh_script script &&
   match last_script_push sig with Some redeem => is_p2wsh_script redeem | None => false end).
Definition longer_than (n : nat) (item : bytes) : bool := bool_decide (n < length item)%nat.
Definition p2wsh_data_item_exceeds (tx : Tx) (prevouts : list (option InputPrevout)) (witnesses : option (list Witness)) : bool :=
  any_stack (tx_ins tx) prevouts witnesses (λ sig script stack,
    spends_p2wsh sig script &&
    existsb (longer_than MAX_STANDARD_P2WSH_STACK_ITEM_SIZE) (take (length stack - 1)%nat stack)).
Definition p2wsh_script_exceeds (tx : Tx) (prevouts : list (option InputPrevout)) (witnesses : option (list Witness)) : bool :=
  any_stack (tx_ins tx) prevouts witnesses (λ sig script stack,
    spends_p2wsh sig script &&
    match last stack with Some s => longer_than MAX_STANDARD_P2WSH_SCRIPT_SIZE s | None => false end).
Definition p2wsh_stack_count_exceeds (tx : Tx) (prevouts : list (option InputPrevout)) (witnesses : option (list Witness)) : bool :=
  any_stack (tx_ins tx) prevouts witnesses (λ sig script stack,
    spends_p2wsh sig script && bool_decide (MAX_STANDARD_P2WSH_STACK_ITEMS < length stack - 1)%nat).

Definition first_byte (bs : bytes) : option Z := b2z <$> head bs.
Definition taproot_annex_present (prevouts : list (option InputPrevout)) (witnesses : option (list Witness)) : bool :=
  any_stack [] prevouts witnesses (λ _ script stack,
    is_taproot_output script && bool_decide (2 ≤ length stack)%nat &&
    match last stack with Some annex => bool_decide (first_byte annex = Some TAPROOT_ANNEX_TAG) | None => false end).
Definition is_tapscript_control (control : bytes) : bool :=
  match first_byte control with
  | Some header => bool_decide (Z.land header TAPROOT_LEAF_MASK = TAPROOT_LEAF_TAPSCRIPT)
  | None => false
  end.
Definition tapscript_data_item_exceeds (prevouts : list (option InputPrevout)) (witnesses : option (list Witness)) : bool :=
  any_stack [] prevouts witnesses (λ _ script stack,
    is_taproot_output script && bool_decide (2 ≤ length stack)%nat &&
    match last stack with Some control => is_tapscript_control control | None => false end &&
    existsb (longer_than MAX_STANDARD_TAPSCRIPT_STACK_ITEM_SIZE) (take (length stack - 2)%nat stack)).

(** ** Consensus checks *)

Definition needs_witness_flags (tx : Tx) (prevouts : list (option InputPrevout)) : bool :=
  any_prevout (tx_ins tx) prevouts (λ _ sig script,
    script_needs_witness_verification script || p2sh_redeem_is_witness_program script sig).
Definition policy_flags (tx : Tx) (witnesses : option (list Witness)) (prevouts : list (option InputPrevout))
    (require_standard : bool) : Z :=
  let has_witness := needs_witness_flags tx prevouts ||
    match witnesses with Some stacks => negb (bool_decide (stacks = [])) | None => false end in
  let flags := Z.lor (script_flags tx has_witness MEMPOOL_POLICY_HEIGHT) SCRIPT_VERIFY_MINIMALDATA in
  if require_standard then Z.lor flags STANDARD_SCRIPT_FLAGS else flags.
Definition consensus_checks_reject (tx : Tx) (witnesses : option (list Witness))
    (prevouts : list (option InputPrevout)) (require_standard : bool) : bool :=
  if is_coinbase tx then true
  else if negb (check_transaction tx) then true
  else if match witnesses with
          | Some wits => negb (bool_decide (length wits = length (tx_ins tx)))
          | None => false
          end then true
  else
    let flags := policy_flags tx witnesses prevouts require_standard in
    let values := (λ p : option InputPrevout, default 0 (pr_value <$> p)) <$> prevouts in
    let scripts := (λ p : option InputPrevout, default [] (pr_script <$> p)) <$> prevouts in
    existsb (λ p : nat * TxIn,
      match mjoin (prevouts !! p.1) with
      | None => false
      | Some pr =>
          negb (bool_decide (verify_script p.2 (pr_script pr) (stacks ← witnesses; stacks !! p.1) flags tx p.1
                               values scripts MEMPOOL_POLICY_HEIGHT = Some true))
      end) (imap pair (tx_ins tx)).

(** ** Sizes *)

(** Serialised bytes plus witness items; the sum saturates. *)
Definition accounted_tx_bytes (tx : Tx) (wits : option (list Witness)) : Z :=
  foldl (λ n stack, foldl (λ n' (item : bytes), sat_add n' (Z.of_nat (length item))) n stack)
        (serialized_len tx) (default [] wits).

(** The guess used without witness stacks: an input with an empty scriptSig
    counts as a segwit input. *)
Definition base_size (tx : Tx) : Z :=
  10 + foldr Z.add 0 ((λ i, 41 + Z.of_nat (length (script_sig i))) <$> tx_ins tx) +
  foldr Z.add 0 ((λ o, 9 + Z.of_nat (length (out_script o))) <$> tx_outputs tx).
Definition segwit_inputs (tx : Tx) : Z := Z.of_nat (length (filter (λ i, script_sig i = []) (tx_ins tx))).
Definition estimate_transaction_weight (tx : Tx) : Z :=
  if bool_decide (0 < segwit_inputs tx) then base_size tx * 4 + (segwit_inputs tx * 107 + 2)
  else Z.min (base_size tx * 4) u64_max.
Definition transaction_weight (tx : Tx) (witnesses : option (list Witness)) : Z :=
  match (wits ← witnesses; transaction_weight_from_stacks tx wits) with
  | Some weight => weight
  | None => estimate_transaction_weight tx
  end.

(** [network/txhash.rs]: the witness id, the txid without witness data. *)
Definition calculate_wtxid {U : U256Ops} {K : Consensus} (tx : Tx) (witnesses : option (list Witness)) : bytes :=
  match witnesses with
  | Some wits =>
      if existsb (λ stack, negb (bool_decide (stack = []))) wits then
        match serialize_with_witness tx wits with
        | Some serialized => hash256 serialized
        | None => calculate_tx_id tx
        end
      else calculate_tx_id tx
  | None => calculate_tx_id tx
  end.
End Policy.

(** ** Bare multisig *)

(** A public key as a script holds it: its length and header byte. *)
Definition valid_key (k : bytes) : Prop :=
  (length k = 33%nat ∧ (byte_at k 0 2 = true ∨ byte_at k 0 3 = true)) ∨ (length k = 65%nat ∧ byte_at k 0 4 = true).
Definition push_key (k : bytes) : bytes := z2b (Z.of_nat (length k)) :: k.
(** [OP_m <keys> OP_n OP_CHECKMULTISIG]. *)
Definition multisig_script (m : Z) (keys : list bytes) : bytes :=
  z2b (80 + m) :: mjoin (push_key <$> keys) ++ [z2b (80 + Z.of_nat (length keys)); z2b OP_CHECKMULTISIG].

Lemma byte_at_spec script i v : byte_at script i v = true ↔ ∃ b, script !! i = Some b ∧ b2z b = v.
Proof.
  unfold byte_at. destruct (script !! i) as [b|]; [|naive_solver]. rewrite bool_decide_eq_true. naive_solver.
Qed.
Lemma byte_at_app (pre body post : bytes) (i : nat) v :
  (i < length body)%nat → byte_at (pre ++ body ++ post) (length pre + i)%nat v = byte_at body i v.
Proof. intros Hi. unfold byte_at. rewrite lookup_app_r by lia. rewrite Nat.add_sub_swap, Nat.sub_diag by lia. by rewrite lookup_app_l by done. Qed.

(** The key at the front of [k ++ rest] is read with its length. *)
Lemma key_length_push (pre k post : bytes) :
  valid_key k → key_length (pre ++ push_key k ++ post) (length pre) = Some (length k).
Proof.
  intros Hk. unfold key_length.
  assert (0 < length k)%nat as Hlen by (destruct Hk as [[-> _]|[-> _]]; lia).
  assert (∀ v, byte_at (pre ++ push_key k ++ post) (length pre) v = byte_at (push_key k) 0 v) as E0.
  { intros v. rewrite <-(byte_at_app pre (push_key k) post 0 v) by (cbn; lia). by rewrite Nat.add_0_r. }
  assert (∀ v, byte_at (pre ++ push_key k ++ post) (S (length pre)) v = byte_at k 0 v) as E1.
  { intros v. rewrite <-Nat.add_1_r. rewrite byte_at_app by (cbn; lia). done. }
  rewrite !E0, !E1. destruct Hk as [[Hl Hh]|[Hl Hh]]; unfold push_key; rewrite Hl; cbn.
  - by destruct Hh as [->| ->]; rewrite ?orb_true_r.
  - by rewrite Hh.
Qed.
Lemma key_length_inv script i pk :
  key_length script i = Some pk → (i + 1 + pk ≤ length script)%nat →
  let k := slice (i + 1) pk script in
  valid_key k ∧ length k = pk ∧ drop i script = push_key k ++ drop (i + 1 + pk) script.
Proof.
  intros Hk Hle k. assert (length k = pk) as Hlk by (apply length_slice; lia).
  assert ((0 < pk)%nat → ∀ v, byte_at k 0 v = byte_at script (S i) v) as Hb.
  { intros Hpos v. unfold k, byte_at, slice. rewrite lookup_take_lt by done. rewrite lookup_drop.
    by replace (i + 1 + 0)%nat with (S i) by lia. }
  assert (∀ b, script !! i = Some b → b = z2b (Z.of_nat pk) → drop i script = push_key k ++ drop (i + 1 + pk) script) as Hd.
  { intros b Hbyte ->. rewrite (drop_S _ _ _ Hbyte). unfold push_key. rewrite Hlk. cbn. f_equal. unfold k, slice.
    rewrite <-(take_drop pk (drop (S i) script)) at 1. rewrite drop_drop.
    by replace (i + 1)%nat with (S i) by lia. }
  assert (∀ b v, b2z b = v → b = z2b v) as Hz by (intros b v <-; by rewrite z2b_b2z).
  unfold key_length in Hk. destruct (byte_at script i 33) eqn:E33.
  - destruct (byte_at script (S i) 2 || byte_at script (S i) 3) eqn:Eh; [|done]. injection Hk as <-.
    apply byte_at_spec in E33 as (b & Hbyte & Hv). split; [|split; [done|by eapply Hd, Hz]].
    left. split; [done|]. rewrite !Hb by lia. by apply orb_true_iff in Eh.
  - destruct (byte_at script i 65) eqn:E65; [|done]. destruct (byte_at script (S i) 4) eqn:Eh; [|done].
    injection Hk as <-. apply byte_at_spec in E65 as (b & Hbyte & Hv). split; [|split; [done|by eapply Hd, Hz]].
    right. split; [done|]. by rewrite Hb by lia.
Qed.

Lemma multisig_keys_complete keys pre (post : bytes) :
  length post = 2%nat → Forall valid_key keys →
  multisig_keys (pre ++ mjoin (push_key <$> keys) ++ post) (length keys) (length pre) = true.
Proof.
  intros Hpost Hkeys. revert pre. induction Hkeys as [|k keys Hk Hkeys IH]; intros pre.
  { cbn. apply bool_decide_eq_true. rewrite length_app. lia. }
  change (mjoin (push_key <$> (k :: keys))) with (push_key k ++ mjoin (push_key <$> keys)). rewrite <-(assoc_L (++)).
  cbn [length multisig_keys]. rewrite !length_app, Hpost. rewrite bool_decide_eq_false_2 by (cbn; lia).
  rewrite key_length_push by done. rewrite bool_decide_eq_false_2 by (cbn; lia).
  replace (length pre + 1 + length k)%nat with (length (pre ++ push_key k)) by (rewrite length_app; cbn; lia).
  rewrite (assoc_L (++)). apply IH.
Qed.
Lemma multisig_keys_sound script n i :
  (2 ≤ length script)%nat → multisig_keys script n i = true →
  ∃ keys, length keys = n ∧ Forall valid_key keys ∧
    drop i script = mjoin (push_key <$> keys) ++ drop (length script - 2) script.
Proof.
  intros Hlen. revert i. induction n as [|n IH]; intros i; cbn.
  { intros ->%bool_decide_eq_true. by exists []. }
  case_bool_decide as Hi; [done|]. destruct (key_length script i) as [pk|] eqn:Ek; [|done].
  case_bool_decide as Hn; [done|]. intros (keys & Hl & Hv & Hd)%IH.
  destruct (key_length_inv _ _ _ Ek) as (Hk & _ & Hdk); [lia|].
  exists (slice (i + 1) pk script :: keys). split; [cbn; by rewrite Hl|]. split; [by constructor|].
  rewrite Hdk, Hd. cbn. by rewrite (assoc_L (++)).
Qed.

Lemma drop_last_two (script : bytes) (x y : Byte.byte) :
  script !! (length script - 2)%nat = Some x → script !! (length script - 1)%nat = Some y →
  (2 ≤ length script)%nat → drop (length script - 2) script = [x; y].
Proof.
  intros Hx Hy Hlen. rewrite (drop_S _ _ _ Hx). replace (S (length script - 2)) with (length script - 1)%nat by lia.
  rewrite (drop_S _ _ _ Hy). rewrite drop_ge by lia. done.
Qed.
Lemma lookup_last_two (pre : bytes) (x y : Byte.byte) :
  let s := pre ++ [x; y] in
  s !! (length s - 2)%nat = Some x ∧ s !! (length s - 1)%nat = Some y ∧ length s = (length pre + 2)%nat.
Proof.
  cbn. rewrite length_app. cbn. split_and!; [| |done].
  - rewrite lookup_app_r by lia. by replace (length pre + 2 - 2 - length pre)%nat with 0%nat by lia.
  - rewrite lookup_app_r by lia. by replace (length pre + 2 - 1 - length pre)%nat with 1%nat by lia.
Qed.

Lemma multisig_body_length keys : Forall valid_key keys → (1 ≤ length keys)%nat →
  (2 ≤ length (mjoin (push_key <$> keys)))%nat.
Proof.
  intros [|k keys' Hk _]; cbn; [lia|]. intros _. rewrite length_app.
  destruct Hk as [[-> _]|[-> _]]; lia.
Qed.

(** The recogniser of bare multisig accepts exactly the scripts
    [OP_m <keys> OP_n OP_CHECKMULTISIG] with [1 <= m <= n], at most [max_keys]
    keys, and every key a 33-byte compressed or a 65-byte uncompressed push. *)
Theorem bare_multisig_exact (script : bytes) (max_keys : Z) :
  1 ≤ max_keys ≤ 16 →
  bare_multisig_within script max_keys = true ↔
  ∃ m keys, script = multisig_script m keys ∧ 1 ≤ m ≤ Z.of_nat (length keys) ∧
    Z.of_nat (length keys) ≤ max_keys ∧ Forall valid_key keys.
Proof.
  intros Hmax. unfold bare_multisig_within. split.
  - destruct (bool_decide (length script < 4)%nat || _) eqn:E1; [done|].
    apply orb_false_iff in E1 as [Hlen%bool_decide_eq_false Hlast%negb_false_iff].
    apply byte_at_spec in Hlast as (y & Hy & Hyv).
    destruct (lookup_lt_is_Some_2 script (length script - 2)) as [x Hx]; [lia|]. rewrite Hx. cbn [fmap option_fmap option_map default].
    destruct (_ || _) eqn:E2; [done|]. apply orb_false_iff in E2 as [Hn1%bool_decide_eq_false Hn2%bool_decide_eq_false].
    destruct script as [|b0 rest]; [cbn in Hlen; lia|]. cbn [lookup list_lookup fmap option_fmap option_map default].
    destruct (negb _) eqn:E3; [done|]. apply negb_false_iff, bool_decide_eq_true in E3.
    case_bool_decide as Hmn; [done|]. intros (keys & Hl & Hv & Hd)%multisig_keys_sound; [|lia].
    rewrite (drop_last_two _ _ _ Hx Hy) in Hd by lia. cbn in Hd. rewrite skipn_O in Hd.
    unfold OP_1, OP_16, sat_sub, id in *. exists (b2z b0 - 80), keys.
    assert (Z.of_nat (length keys) = b2z x - 80) as Hk by lia.
    split; [|split; [lia|split; [lia|done]]]. unfold multisig_script. rewrite Hk.
    replace (80 + (b2z b0 - 80)) with (b2z b0) by lia. replace (80 + (b2z x - 80)) with (b2z x) by lia.
    rewrite <-Hyv, !z2b_b2z. by rewrite <-Hd.
  - intros (m & keys & -> & Hm & Hk & Hv). unfold multisig_script.
    set (n_byte := z2b (80 + Z.of_nat (length keys))). set (body := mjoin (push_key <$> keys)).
    assert (2 ≤ length body)%nat as Hbody by (apply multisig_body_length; [done|lia]).
    assert (multisig_keys (z2b (80 + m) :: body ++ [n_byte; z2b OP_CHECKMULTISIG]) (length keys) 1 = true) as Hkeys
      by (apply (multisig_keys_complete keys [z2b (80 + m)]); done).
    rewrite app_comm_cons in *. destruct (lookup_last_two (z2b (80 + m) :: body) n_byte (z2b OP_CHECKMULTISIG)) as (Hx & Hy & Hl).
    set (script := (z2b (80 + m) :: body) ++ [n_byte; z2b OP_CHECKMULTISIG]) in *.
    assert (byte_at script (length script - 1) OP_CHECKMULTISIG = true) as Hlast.
    { apply byte_at_spec. eexists. split; [exact Hy|]. by apply b2z_z2b. }
    assert (script !! 0%nat = Some (z2b (80 + m))) as H0 by done. clearbody script.
    rewrite bool_decide_eq_false_2 by (rewrite Hl; cbn; lia). rewrite Hlast, Hx, H0. cbn [negb orb fmap option_fmap option_map default].
    unfold n_byte, id. rewrite !b2z_z2b by lia. unfold OP_1, OP_16, sat_sub.
    rewrite (bool_decide_eq_false_2 (80 + Z.of_nat (length keys) < 81)) by lia.
    rewrite bool_decide_eq_false_2 by lia. rewrite bool_decide_eq_true_2 by lia. rewrite bool_decide_eq_false_2 by lia.
    cbn [negb orb]. by replace (Z.to_nat (80 + Z.of_nat (length keys) - 81 + 1)) with (length keys) by lia.
Qed.

(** A one-of-one script with a compressed key. *)
Lemma bare_multisig_exact_witness :
  let key := Byte.x02 :: replicate 32 Byte.x11 in
  bare_multisig_within (multisig_script 1 [key]) 3 = true ∧
  ∃ m keys, multisig_script 1 [key] = multisig_script m keys ∧ 1 ≤ m ≤ Z.of_nat (length keys) ∧
    Z.of_nat (length keys) ≤ 3 ∧ Forall valid_key keys.
Proof.
  assert (bare_multisig_within (multisig_script 1 [Byte.x02 :: replicate 32 Byte.x11]) 3 = true) as E by (by vm_compute).
  split; [exact E|]. apply (bare_multisig_exact (multisig_script 1 [Byte.x02 :: replicate 32 Byte.x11]) 3); [lia|exact E].
Defined.
