(* ===== verification/Mempool.v ===== *)
(** * Mempool: the transaction pool

    [src/node/mempool.rs] and its configuration in [src/config/mempool.rs]: the
    pool tables, the dependency graph, admission with replacement, limits,
    packages, eviction, block connection and reorganisation.

    Locks, logging and events are left out; what admission reads from outside
    the pool is the record [Env].  A [HashMap] is iterated in the order of
    [map_to_list], which stands for an arbitrary order: the theorems do not
    depend on it. *)

From stdpp Require Import sorting.
From S2P Require Import Prelude Bytes Interfaces UtxoSnapshot Graph TxPolicy.
Open Scope Z_scope.

(** ** Configuration *)

Inductive RbfMode := Disabled | Conservative | Standard | Aggressive.
#[export] Instance rbf_mode_eq_dec : EqDecision RbfMode.
Proof. solve_decision. Defined.

(** The fee-rate multiplier in millionths, rounded; [None] is a multiplier that
    is not finite or is negative. *)
Record RbfConfig := mkRbf {
  rbf_mode : RbfMode;
  min_fee_rate_millis : option Z;
  min_confirmations : Z;
  allow_package_replacements : bool;
  max_replacements_per_tx : Z;
  cooldown_seconds : Z;
}.
Definition rbf_with_mode (m : RbfMode) : RbfConfig :=
  match m with
  | Disabled => mkRbf Disabled None u32_max false 0 u64_max
  | Conservative => mkRbf Conservative (Some 2000000) 1 false 3 300
  | Standard => mkRbf Standard (Some 1000000) 0 true 10 0
  | Aggressive => mkRbf Aggressive (Some 1050000) 0 true 10 60
  end.
Definition default_rbf : RbfConfig := rbf_with_mode Standard.

Inductive EvictionStrategy :=
  LowestFeeRate | OldestFirst | LargestFirst | NoDescendantsFirst | Hybrid | SpamFirst.

Record MempoolPolicyConfig {T : TxOps} := mkPolicy {
  max_mempool_mb : Z;
  max_mempool_txs : Z;
  min_relay_fee_rate : Z;
  bytes_per_sigop : Z;
  count_sigops : bool;
  min_tx_fee : Z;
  incremental_relay_fee : Z;
  max_ancestor_count : Z;
  max_ancestor_size : Z;
  max_descendant_count : Z;
  max_descendant_size : Z;
  eviction_strategy : EvictionStrategy;
  mempool_expiry_hours : Z;
  require_standard : bool;
  reject_spam_in_mempool : bool;
  spam_filter : option SpamFilterConfig;
}.
Definition default_policy {T : TxOps} : MempoolPolicyConfig :=
  mkPolicy T 300 100000 100 20 true 0 100 25 101000 25 101000 LowestFeeRate 336 true false None.

Record RbfTracking := mkTracking {
  replacement_count : Z;
  last_replacement_time : Z;
  original_tx_hash : bytes;
}.

(** [sort_by_key]: ascending by an integer key. *)
Definition key_le {A} (key : A → Z) (a b : A) : Prop := key a ≤ key b.
#[export] Instance key_le_dec {A} (key : A → Z) : RelDecision (key_le key).
Proof. intros a b. unfold key_le. apply _. Defined.
Definition sort_by_key {A} (key : A → Z) (l : list A) : list A := merge_sort (key_le key) l.

(** ** Money *)

Definition as_i64 (z : Z) : Z := (z + 2 ^ 63) mod 2 ^ 64 - 2 ^ 63.

Section Money.
Context {U : U256Ops} {K : Consensus}.

Definition money_sats (value : Z) : option Z :=
  if bool_decide (0 ≤ value ≤ MAX_MONEY) then Some value else None.
Definition add_money (total sats : Z) : option Z :=
  if bool_decide (total + sats ≤ u64_max) && bool_decide (total + sats ≤ MAX_MONEY)
  then Some (total + sats) else None.
Fixpoint output_sum_from (total : Z) (outs : list TxOut) : option Z :=
  match outs with
  | [] => Some total
  | o :: rest =>
      sats ← money_sats (out_value o);
      total' ← add_money total sats;
      output_sum_from total' rest
  end.
Definition output_sum_sats (tx : Tx) : option Z := output_sum_from 0 (tx_outputs tx).
End Money.

Definition next_replacement_count (counts : list Z) : Z :=
  Z.min (foldr Z.max 0 counts + 1) u32_max.

Definition u128_max : Z := 2 ^ 128 - 1.
Definition replacement_clears_fee_rate (new_fee_scaled existing_fee_scaled : Z) (millis : option Z)
    : result bool :=
  match millis with
  | None => Ok false
  | Some m =>
      if bool_decide (existing_fee_scaled * m ≤ u128_max)
      then Ok (bool_decide (existing_fee_scaled * m / 1000000 < new_fee_scaled))
      else Err "Fee rate calculation overflow"
  end.

(** ** State *)

Section Pool.
Context {U : U256Ops} {K : Consensus} {T : TxOps}.

Record MempoolPool := mkPool {
  transactions : gmap bytes Tx;
  wtxids : gmap bytes bytes;
  tx_witnesses : gmap bytes (list Witness);
  adjusted_vsize : gmap bytes Z;
  spent_outputs : gset OutPoint;
  spenders : gmap OutPoint bytes;
}.

(** Adjusted virtual size and visible parents of the transactions already
    previewed in a package, their direct children, and the two waiver sets. *)
Record PackagePreview := mkPreview {
  pv_txs : gmap bytes (Z * list bytes);
  pv_descendants : gmap bytes (gset bytes);
  relay_floor_waivers : gset bytes;
  ephemeral_dust_waivers : gset bytes;
}.

(** Fee tables: the index by rate, the rate, and the fee with its size. *)
Record FeeTables := mkFees {
  fee_index : gmap Z (list bytes);
  fee_cache : gmap bytes Z;
  fee_basis : gmap bytes (Z * Z);
  fee_deltas : gmap bytes Z;
  utxo_set_hash : option Z;
}.

Record Mempool := mkMempool {
  pool : MempoolPool;
  mempool : gset bytes;
  fees : FeeTables;
  rbf_tracking : gmap bytes RbfTracking;
  tx_timestamps : gmap bytes Z;
  tx_heights : gmap bytes Z;
  tx_dependencies : gmap bytes (gset bytes);
  tx_descendants : gmap bytes (gset bytes);
  package_preview : PackagePreview;
}.

Definition empty_pool : MempoolPool := mkPool ∅ ∅ ∅ ∅ ∅ ∅.
Definition mempool_new : Mempool :=
  mkMempool empty_pool ∅ (mkFees ∅ ∅ ∅ ∅ None) ∅ ∅ ∅ ∅ ∅ (mkPreview ∅ ∅ ∅ ∅).

Definition txs (s : Mempool) : gmap bytes Tx := transactions (pool s).
Definition in_pool (h : bytes) (s : Mempool) : bool := bool_decide (is_Some (txs s !! h)).

(** ** Adding and removing one transaction *)

(** The rows of the fee tables a removed hash had. *)
Definition drop_index_row (rate : Z) (h : bytes) (idx : gmap Z (list bytes)) : gmap Z (list bytes) :=
  match idx !! rate with
  | Some l => match filter (λ x, x ≠ h) l with
              | [] => delete rate idx
              | l' => <[rate := l']> idx
              end
  | None => idx
  end.
Definition fees_remove (h : bytes) (f : FeeTables) : FeeTables :=
  match fee_cache f !! h with
  | Some rate => mkFees (drop_index_row rate h (fee_index f)) (delete h (fee_cache f))
                        (delete h (fee_basis f)) (delete h (fee_deltas f)) None
  | None => mkFees (fee_index f) (fee_cache f) (fee_basis f) (delete h (fee_deltas f)) None
  end.

Definition drop_members (hs : gset bytes) (x : bytes) (m : gmap bytes (gset bytes)) : gmap bytes (gset bytes) :=
  set_fold (λ h m', alter (λ s, s ∖ {[x]}) h m') m hs.
(** Children lose the parent, then parents lose the child. *)
Definition graph_remove (h : bytes) (deps desc : gmap bytes (gset bytes))
    : gmap bytes (gset bytes) * gmap bytes (gset bytes) :=
  let deps1 := match desc !! h with Some children => drop_members children h deps | None => deps end in
  let desc1 := delete h desc in
  let desc2 := match deps1 !! h with Some parents => drop_members parents h desc1 | None => desc1 end in
  (delete h deps1, desc2).

Definition pool_remove (h : bytes) (tx : Tx) (p : MempoolPool) : MempoolPool :=
  mkPool (delete h (transactions p)) (delete h (wtxids p)) (delete h (tx_witnesses p))
         (delete h (adjusted_vsize p)) (spent_outputs p ∖ list_to_set (tx_inputs tx))
         (foldl (λ m o, delete o m) (spenders p) (tx_inputs tx)).

Definition remove_transaction (h : bytes) (s : Mempool) : Mempool * bool :=
  match txs s !! h with
  | None => (s, false)
  | Some tx =>
      let '(deps, desc) := graph_remove h (tx_dependencies s) (tx_descendants s) in
      (mkMempool (pool_remove h tx (pool s)) (mempool s ∖ {[h]}) (fees_remove h (fees s))
                 (delete h (rbf_tracking s)) (delete h (tx_timestamps s)) (delete h (tx_heights s))
                 deps desc (package_preview s), true)
  end.

Definition remove_all (ids : list bytes) (s : Mempool) : Mempool :=
  foldl (λ s' id, (remove_transaction id s').1) s ids.

(** One input: link the pair when the parent is in the pool. *)
Definition link_input (pooled : gmap bytes Tx) (h : bytes)
    (g : gmap bytes (gset bytes) * gmap bytes (gset bytes)) (o : OutPoint)
    : gmap bytes (gset bytes) * gmap bytes (gset bytes) :=
  if bool_decide (is_Some (pooled !! op_hash o)) then
    (<[h := {[op_hash o]} ∪ default ∅ (g.1 !! h)]> g.1,
     <[op_hash o := {[h]} ∪ default ∅ (g.2 !! op_hash o)]> g.2)
  else g.
Definition update_dependency_graph (tx : Tx) (h : bytes) (s : Mempool) : Mempool :=
  let deps := <[h := default ∅ (tx_dependencies s !! h)]> (tx_dependencies s) in
  let desc := <[h := default ∅ (tx_descendants s !! h)]> (tx_descendants s) in
  let '(deps', desc') := foldl (link_input (txs s) h) (deps, desc) (tx_inputs tx) in
  mkMempool (pool s) (mempool s) (fees s) (rbf_tracking s) (tx_timestamps s) (tx_heights s)
            deps' desc' (package_preview s).

Definition pool_insert (h : bytes) (tx : Tx) (wits : option (list Witness)) (vsize : Z) (p : MempoolPool)
    : MempoolPool :=
  mkPool (<[h := tx]> (transactions p)) (<[h := calculate_wtxid tx wits]> (wtxids p))
         (match wits with Some w => <[h := w]> (tx_witnesses p) | None => tx_witnesses p end)
         (<[h := vsize]> (adjusted_vsize p)) (list_to_set (tx_inputs tx) ∪ spent_outputs p)
         (foldl (λ m o, <[o := h]> m) (spenders p) (tx_inputs tx)).

(** The writes of an accepted admission: tables, graph, time, height, fees. *)
Definition insert_accepted (tx : Tx) (wits : option (list Witness)) (vsize fee rate now height : Z) (s : Mempool)
    : Mempool :=
  let h := calculate_tx_id tx in
  let s1 := update_dependency_graph tx h
              (mkMempool (pool_insert h tx wits vsize (pool s)) ({[h]} ∪ mempool s) (fees s) (rbf_tracking s)
                 (tx_timestamps s) (tx_heights s) (tx_dependencies s) (tx_descendants s) (package_preview s)) in
  mkMempool (pool s1) (mempool s1)
    (mkFees (<[rate := default [] (fee_index (fees s1) !! rate) ++ [h]]> (fee_index (fees s1)))
            (<[h := rate]> (fee_cache (fees s1))) (<[h := (fee, vsize)]> (fee_basis (fees s1)))
            (fee_deltas (fees s1)) None)
    (rbf_tracking s1) (<[h := now]> (tx_timestamps s1)) (<[h := height]> (tx_heights s1))
    (tx_dependencies s1) (tx_descendants s1) (package_preview s1).

Definition clear (s : Mempool) : Mempool :=
  mkMempool (mkPool ∅ (wtxids (pool s)) (tx_witnesses (pool s)) (adjusted_vsize (pool s)) ∅ ∅)
            ∅ (mkFees ∅ ∅ ∅ ∅ None) ∅ ∅ ∅ (tx_dependencies s) (tx_descendants s) (package_preview s).

Definition set_entry_time (h : bytes) (time : Z) (s : Mempool) : Mempool :=
  mkMempool (pool s) (mempool s) (fees s) (rbf_tracking s) (<[h := time]> (tx_timestamps s)) (tx_heights s)
            (tx_dependencies s) (tx_descendants s) (package_preview s).

(** [i64::saturating_add]. *)
Definition sat_add_i64 (a b : Z) : Z := Z.max (- 2 ^ 63) (Z.min (a + b) i64_max).
Definition prioritise_transaction (h : bytes) (delta : Z) (s : Mempool) : Mempool * bool :=
  if in_pool h s then
    let f := fees s in
    (mkMempool (pool s) (mempool s)
       (mkFees (fee_index f) (fee_cache f) (fee_basis f)
               (<[h := sat_add_i64 (default 0 (fee_deltas f !! h)) delta]> (fee_deltas f)) None)
       (rbf_tracking s) (tx_timestamps s) (tx_heights s) (tx_dependencies s) (tx_descendants s) (package_preview s),
     true)
  else (s, false).

(** ** Packages *)

Definition children (m : gmap bytes (gset bytes)) (h : bytes) : list bytes := elements (default ∅ (m !! h)).
Definition pooled_children (s : Mempool) (h : bytes) : list bytes :=
  filter (λ c, in_pool c s = true) (children (tx_descendants s) h).

(** A root and its transitive pooled children; the number of edges bounds the rounds. *)
Definition replacement_package (root : bytes) (s : Mempool) : gset bytes :=
  mark_on_pop (pooled_children s) (S (edges (pooled_children s) (dom (tx_descendants s)))) [root] ∅.

Definition descendant_closure (m : gmap bytes (gset bytes)) (root : bytes) : gset bytes :=
  mark_on_push (children m) (S (edges (children m) (dom m))) [root] ∅.

Definition direct_conflicts (tx : Tx) (s : Mempool) : list bytes :=
  foldl (λ acc o, match spenders (pool s) !! o with
                  | Some h => if bool_decide (h ∈ acc) then acc else acc ++ [h]
                  | None => acc
                  end) [] (tx_inputs tx).
Definition txs_this_replacement_removes (tx : Tx) (s : Mempool) : gset bytes :=
  foldl (λ acc h, acc ∪ replacement_package h s) ∅ (direct_conflicts tx s).

(** Neighbours of a pooled transaction: pooled children and pooled parents. *)
Definition cluster_next (s : Mempool) (h : bytes) : list bytes :=
  pooled_children s h ++
  match txs s !! h with
  | Some tx => filter (λ p, in_pool p s = true) (op_hash <$> tx_inputs tx)
  | None => []
  end.
Definition conflicting_cluster_count (direct : list bytes) (s : Mempool) : nat :=
  let D := dom (tx_descendants s) ∪ dom (txs s) in
  (foldl (λ (acc : gset bytes * nat) start,
     if negb (in_pool start s) || bool_decide (start ∈ acc.1) then acc
     else (mark_on_pop (cluster_next s) (S (edges (cluster_next s) D)) [start] acc.1, S acc.2))
   (∅, 0%nat) direct).2.
End Pool.

(** ** Fees and sizes *)

Definition mempool_size_bytes {T : TxOps} (s : Mempool) : Z :=
  foldr Z.add 0 ((λ p : bytes * Tx, accounted_tx_bytes p.2 (tx_witnesses (pool s) !! p.1)) <$> map_to_list (txs s)).

Section Fees.
Context {U : U256Ops} {K : Consensus} {T : TxOps}.
(** The configured policy, [None] before one is set. *)
Context (policy_config : option MempoolPolicyConfig).

Definition pooled_output (o : OutPoint) (s : Mempool) : option TxOut :=
  tx ← txs s !! op_hash o; tx_outputs tx !! Z.to_nat (op_index o).
Definition mempool_input_value (o : OutPoint) (s : Mempool) : option Z :=
  out ← pooled_output o s; money_sats (out_value out).
Definition mempool_creates (o : OutPoint) (s : Mempool) : bool := bool_decide (is_Some (pooled_output o s)).

(** The value of an input: a chain coin first, then a pooled parent. *)
Definition input_sats (utxos : coin_map) (s : Mempool) (o : OutPoint) : option Z :=
  match utxos !! o with
  | Some u => money_sats (ut_value u)
  | None => mempool_input_value o s
  end.

(** Inputs without a known value count as nothing; an overflow gives fee 0. *)
Fixpoint fee_inputs (utxos : coin_map) (s : Mempool) (ins : list OutPoint) (total : Z) : option Z :=
  match ins with
  | [] => Some total
  | o :: rest =>
      match input_sats utxos s o with
      | Some sats => total' ← add_money total sats; fee_inputs utxos s rest total'
      | None => fee_inputs utxos s rest total
      end
  end.
Definition calculate_transaction_fee (tx : Tx) (utxos : coin_map) (s : Mempool) : Z :=
  match fee_inputs utxos s (tx_inputs tx) 0 with
  | None => 0
  | Some input_total =>
      match output_sum_sats tx with
      | None => 0
      | Some output_total => sat_sub input_total output_total
      end
  end.

(** The spent coins: chain coins first, then outputs of pooled parents. *)
Definition known_coin (utxos : coin_map) (s : Mempool) (o : OutPoint) : option UTXO :=
  match utxos !! o with
  | Some u => Some u
  | None => (λ out, mkUtxo (out_value out) (out_script out) 0 false) <$> pooled_output o s
  end.
(** Virtual size adjusted for signature operations, and their cost. *)
Definition admit_vsize (tx : Tx) (witnesses : option (list Witness)) (utxos : coin_map) (s : Mempool) : Z * Z :=
  let per_sigop := match policy_config with Some p => bytes_per_sigop p | None => DEFAULT_BYTES_PER_SIGOP end in
  let counted := match policy_config with Some p => count_sigops p | None => true end in
  let cost := if counted
              then default (get_legacy_sigop_count tx * 4)
                     (transaction_sigop_cost tx (known_coin utxos s <$> tx_inputs tx) witnesses)
              else 0 in
  (sigop_adjusted_vsize (transaction_weight tx witnesses) cost per_sigop, cost).

Definition pooled_vsize (h : bytes) (tx : Tx) (utxos : coin_map) (s : Mempool) : Z :=
  match adjusted_vsize (pool s) !! h with
  | Some v => v
  | None => (admit_vsize tx (tx_witnesses (pool s) !! h) utxos s).1
  end.
Definition package_fee_and_vsize (package : gset bytes) (utxos : coin_map) (s : Mempool) : Z * Z :=
  foldl (λ acc h, match txs s !! h with
                  | Some tx => (as_i64 (acc.1 + as_i64 (calculate_transaction_fee tx utxos s)),
                              as_u64 (acc.2 + pooled_vsize h tx utxos s))
                  | None => acc
                  end) (0, 0) (elements package).

(** Prevout checks of admission. *)
Definition prevout_value_out_of_range (tx : Tx) (utxos : coin_map) : bool :=
  existsb (λ o, match utxos !! o with
                | Some u => bool_decide (money_sats (ut_value u) = None)
                | None => false
                end) (tx_inputs tx).
Fixpoint prevout_sum_exceeds (utxos : coin_map) (s : Mempool) (ins : list OutPoint) (total : Z) : bool :=
  match ins with
  | [] => false
  | o :: rest =>
      match utxos !! o with
      | Some u => match money_sats (ut_value u) with
                  | None => true
                  | Some sats => match add_money total sats with
                                 | None => true
                                 | Some total' => prevout_sum_exceeds utxos s rest total'
                                 end
                  end
      | None => match mempool_input_value o s with
                | None => prevout_sum_exceeds utxos s rest total
                | Some sats => match add_money total sats with
                               | None => true
                               | Some total' => prevout_sum_exceeds utxos s rest total'
                               end
                end
      end
  end.
Definition prevout_sum_exceeds_money (tx : Tx) (utxos : coin_map) (s : Mempool) : bool :=
  prevout_sum_exceeds utxos s (tx_inputs tx) 0.
Fixpoint sum_inputs (utxos : coin_map) (s : Mempool) (ins : list OutPoint) (total : Z) : option Z :=
  match ins with
  | [] => Some total
  | o :: rest => sats ← input_sats utxos s o; total' ← add_money total sats; sum_inputs utxos s rest total'
  end.
Definition outputs_exceed_inputs (tx : Tx) (utxos : coin_map) (s : Mempool) : bool :=
  match output_sum_sats tx, sum_inputs utxos s (tx_inputs tx) 0 with
  | Some output_total, Some input_total => bool_decide (input_total < output_total)
  | _, _ => false
  end.
Definition fill_snapshot_misses (snapshot_prevout : OutPoint → option UTXO) (tx : Tx) (s : Mempool)
    (utxos : coin_map) : coin_map :=
  foldl (λ m o, if bool_decide (is_Some (m !! o)) || mempool_creates o s then m
                else match snapshot_prevout o with Some u => <[o := u]> m | None => m end)
        utxos (tx_inputs tx).
Definition unknown_prevout (tx : Tx) (utxos : coin_map) (s : Mempool) (wired : bool) : bool :=
  wired && existsb (λ o, bool_decide (utxos !! o = None) && negb (mempool_creates o s)) (tx_inputs tx).

(** ** The fee index *)

(** Fee of a pooled transaction when every input value is known. *)
Fixpoint ranked_inputs (utxos : coin_map) (s : Mempool) (ins : list OutPoint) (total : Z) : option (option Z) :=
  match ins with
  | [] => Some (Some total)
  | o :: rest =>
      match input_sats utxos s o with
      | None => None
      | Some v => match add_money total v with
                  | None => Some None
                  | Some total' => ranked_inputs utxos s rest total'
                  end
      end
  end.
(** [fee as i64 + delta] wraps; the size is never negative. *)
Definition effective_fee (fee delta : Z) : Z := Z.max 0 (as_i64 (fee + delta)).
Definition rank_tx (utxos : coin_map) (s : Mempool) (f : FeeTables) (p : bytes * Tx) : FeeTables :=
  match ranked_inputs utxos s (tx_inputs p.2) 0 with
  | None => f
  | Some input_total =>
      let fee := match input_total with
                 | None => 0
                 | Some t => match output_sum_sats p.2 with Some out => sat_sub t out | None => 0 end
                 end in
      let size := pooled_vsize p.1 p.2 utxos s in
      let eff := effective_fee fee (default 0 (fee_deltas f !! p.1)) in
      let rate := if bool_decide (0 < size) then eff / size else 0 in
      mkFees (<[rate := default [] (fee_index f !! rate) ++ [p.1]]> (fee_index f))
             (<[p.1 := rate]> (fee_cache f)) (<[p.1 := (eff, size)]> (fee_basis f)) (fee_deltas f) (utxo_set_hash f)
  end.
(** [hash] is the change-detection hash of the coin set. *)
Definition update_fee_index (hash : coin_map → Z) (utxos : coin_map) (s : Mempool) : Mempool :=
  if bool_decide (Some (hash utxos) = utxo_set_hash (fees s)) then s
  else
    let f0 := mkFees ∅ ∅ ∅ (fee_deltas (fees s)) (Some (hash utxos)) in
    mkMempool (pool s) (mempool s) (foldl (rank_tx utxos s) f0 (map_to_list (txs s))) (rbf_tracking s)
              (tx_timestamps s) (tx_heights s) (tx_dependencies s) (tx_descendants s) (package_preview s).

(** Rates in descending order, hashes of one rate in insertion order. *)
Definition rate_rows (f : FeeTables) : list (Z * list bytes) :=
  sort_by_key (λ r : Z * list bytes, - r.1) (map_to_list (fee_index f)).
Definition get_prioritized_transactions (hash : coin_map → Z) (limit : nat) (utxos : coin_map) (s : Mempool)
    : Mempool * list Tx :=
  let s' := update_fee_index hash utxos s in
  let ordered := mjoin ((λ r : Z * list bytes, r.2) <$> rate_rows (fees s')) in
  (s', omap (λ h, txs s' !! h) (take (Nat.max limit 1) ordered)).
End Fees.

(** ** Ancestor and descendant limits *)

Section Limits.
Context {T : TxOps}.

(** Parents a walk sees: in the pool or in the package preview, and not about
    to be removed. *)
Definition visible (s : Mempool) (removed : gset bytes) (p : bytes) : bool :=
  negb (bool_decide (p ∈ removed)) &&
  (in_pool p s || bool_decide (is_Some (pv_txs (package_preview s) !! p))).
Definition visible_parents (s : Mempool) (removed : gset bytes) (h : bytes) : list bytes :=
  match txs s !! h with
  | Some tx => filter (λ p, visible s removed p = true) (op_hash <$> tx_inputs tx)
  | None => match pv_txs (package_preview s) !! h with
            | Some (_, parents) => filter (λ p, p ∉ removed) parents
            | None => []
            end
  end.

(** The walk: seeded with the candidate's own parents, each ancestor is added
    once.  Repeated seeds are skipped when they are popped, so a set is the same. *)
Definition ancestors_of (tx : Tx) (s : Mempool) (removed : gset bytes) : gset bytes :=
  let seeds := filter (λ p, visible s removed p = true) (op_hash <$> tx_inputs tx) in
  let next := visible_parents s removed in
  let D := dom (txs s) ∪ dom (pv_txs (package_preview s)) in
  mark_on_push next (length seeds + edges next D)%nat (elements (list_to_set seeds : gset bytes)) (list_to_set seeds).

Definition vsize_of (s : Mempool) (h : bytes) : Z :=
  match adjusted_vsize (pool s) !! h with
  | Some v => v
  | None => match pv_txs (package_preview s) !! h with Some (v, _) => v | None => 0 end
  end.
Definition total_vsize (s : Mempool) (hs : gset bytes) : Z := foldr Z.add 0 (vsize_of s <$> elements hs).

Definition existing_descendants (s : Mempool) (removed : gset bytes) (a : bytes) : gset bytes :=
  (descendant_closure (tx_descendants s) a ∪ descendant_closure (pv_descendants (package_preview s)) a) ∖ removed.

Definition descendant_limits_ok (policy : MempoolPolicyConfig) (s : Mempool) (removed : gset bytes)
    (candidate_vsize : Z) (a : bytes) : bool :=
  let existing := existing_descendants s removed a in
  bool_decide (Z.of_nat (size existing) + 1 + 1 ≤ max_descendant_count policy) &&
  bool_decide (vsize_of s a + total_vsize s existing + candidate_vsize ≤ max_descendant_size policy).

Definition check_ancestor_descendant_limits (tx : Tx) (policy : MempoolPolicyConfig) (candidate_vsize : Z)
    (s : Mempool) : bool :=
  let removed := txs_this_replacement_removes tx s in
  let ancestors := ancestors_of tx s removed in
  bool_decide (Z.of_nat (size ancestors) + 1 ≤ max_ancestor_count policy) &&
  bool_decide (total_vsize s ancestors + candidate_vsize ≤ max_ancestor_size policy) &&
  forallb (descendant_limits_ok policy s removed candidate_vsize) (elements ancestors).
End Limits.

(** ** Eviction *)

Section Eviction.
Context {T : TxOps}.

(** Remove a list of hashes; the bytes and the number of those that were there. *)
Fixpoint evict_list (ids : list bytes) (s : Mempool) : Mempool * Z * nat :=
  match ids with
  | [] => (s, 0, 0%nat)
  | id :: rest =>
      match txs s !! id with
      | None => evict_list rest s
      | Some tx =>
          let bytes := accounted_tx_bytes tx (tx_witnesses (pool s) !! id) in
          let '(s1, removed) := remove_transaction id s in
          let '(s2, b, n) := evict_list rest s1 in
          (s2, bytes + b, if removed then S n else n)
      end
  end.
Definition evict_with_descendants (h : bytes) (s : Mempool) : Mempool * Z * nat :=
  if in_pool h s then evict_list (elements (replacement_package h s)) s else (s, 0, 0%nat).

Fixpoint evict_loop (order : list bytes) (target_bytes target_txs cur_bytes cur_txs : Z) (s : Mempool) : Mempool :=
  match order with
  | [] => s
  | h :: rest =>
      if bool_decide (cur_bytes ≤ target_bytes) && bool_decide (cur_txs ≤ target_txs) then s
      else
        let '(s1, b, n) := evict_with_descendants h s in
        evict_loop rest target_bytes target_txs (sat_sub cur_bytes b) (sat_sub cur_txs (Z.of_nat n)) s1
  end.
Definition evict_ordered (order : list bytes) (target_bytes target_txs : Z) (s : Mempool) : Mempool :=
  evict_loop order target_bytes target_txs (mempool_size_bytes s) (Z.of_nat (size (txs s))) s.

Definition pool_hashes (s : Mempool) : list bytes := (map_to_list (txs s)).*1.
Definition rate_of (s : Mempool) (h : bytes) : Z := default 0 (fee_cache (fees s) !! h).
Definition hashes_by_ascending_fee (s : Mempool) : list bytes := sort_by_key (rate_of s) (pool_hashes s).

Definition evict_lowest_fee_rate (tb tt : Z) (s : Mempool) : Mempool :=
  evict_ordered (hashes_by_ascending_fee s) tb tt s.
Definition evict_oldest_first (tb tt : Z) (s : Mempool) : Mempool :=
  evict_ordered (sort_by_key (λ h, default 0 (tx_timestamps s !! h))
                   (filter (λ h, is_Some (tx_timestamps s !! h)) (pool_hashes s))) tb tt s.
Definition evict_largest_first (tb tt : Z) (s : Mempool) : Mempool :=
  evict_ordered (sort_by_key (λ p : bytes * Tx, - serialized_len p.2) (map_to_list (txs s))).*1 tb tt s.
Definition childless (s : Mempool) (h : bytes) : bool :=
  bool_decide (default ∅ (tx_descendants s !! h) = ∅).
Definition evict_no_descendants_first (tb tt : Z) (s : Mempool) : Mempool :=
  let s1 := evict_ordered (sort_by_key (rate_of s) (filter (λ h, childless s h = true) (pool_hashes s))) tb tt s in
  if bool_decide (tb < mempool_size_bytes s1) || bool_decide (tt < Z.of_nat (size (txs s1)))
  then evict_ordered (hashes_by_ascending_fee s1) tb tt s1 else s1.
Definition hybrid_score (now : Z) (s : Mempool) (h : bytes) : Z :=
  let rate := rate_of s h in
  let age := match tx_timestamps s !! h with Some t => sat_sub now t | None => 0 end in
  (if bool_decide (0 < rate) then 1000000 / (rate + 1) else 1000000) + age / 3600.
Definition evict_hybrid (now tb tt : Z) (s : Mempool) : Mempool :=
  evict_ordered (sort_by_key (λ h, - hybrid_score now s h) (pool_hashes s)) tb tt s.
Definition spam_row (s : Mempool) (p : bytes * Tx) : bool := is_spam None p.2 (tx_witnesses (pool s) !! p.1).
Definition evict_spam_first (tb tt : Z) (s : Mempool) : Mempool :=
  let rows := map_to_list (txs s) in
  evict_ordered (sort_by_key (rate_of s) (filter (λ p, spam_row s p = true) rows).*1 ++
                 sort_by_key (rate_of s) (filter (λ p, spam_row s p = false) rows).*1) tb tt s.

(** [u64::saturating_mul]. *)
Definition sat_mul (a b : Z) : Z := Z.min (a * b) u64_max.
Definition enforce_mempool_limits (policy : MempoolPolicyConfig) (now : Z) (s : Mempool) : Mempool :=
  let cap := sat_mul (max_mempool_mb policy) 1048576 in
  let count := max_mempool_txs policy in
  if bool_decide (cap < mempool_size_bytes s) || bool_decide (count < Z.of_nat (size (txs s))) then
    match eviction_strategy policy with
    | LowestFeeRate => evict_lowest_fee_rate cap count s
    | OldestFirst => evict_oldest_first cap count s
    | LargestFirst => evict_largest_first cap count s
    | NoDescendantsFirst => evict_no_descendants_first cap count s
    | Hybrid => evict_hybrid now cap count s
    | SpamFirst => evict_spam_first cap count s
    end
  else s.

(** Expired hashes go with their descendants; an expiry that overflows is none. *)
Definition expired (policy : MempoolPolicyConfig) (now : Z) (s : Mempool) : list bytes :=
  (filter (λ p : bytes * Z, mempool_expiry_hours policy * 3600 < sat_sub now p.2)
     (map_to_list (tx_timestamps s))).*1.
Definition cleanup_old_transactions (policy : MempoolPolicyConfig) (now : Z) (s : Mempool) : Mempool :=
  let s1 := if bool_decide (mempool_expiry_hours policy * 3600 ≤ u64_max)
            then foldl (λ s' h, (evict_with_descendants h s').1.1) s (expired policy now s)
            else s in
  enforce_mempool_limits policy now s1.

(** ** Blocks *)

Definition block_txids (block : list Tx) : gset bytes :=
  list_to_set (calculate_tx_id <$> filter (λ tx, is_coinbase tx = false) block).
Definition block_spent (block : list Tx) : gset OutPoint :=
  list_to_set (mjoin (tx_inputs <$> filter (λ tx, is_coinbase tx = false) block)).
Definition remove_for_connected_block (block : list Tx) (s : Mempool) : Mempool :=
  let confirmed := block_txids block in
  let spent := block_spent block in
  let conflicting : gset bytes :=
    list_to_set (calculate_tx_id <$> filter (λ tx, Exists (.∈ spent) (tx_inputs tx)) (map_to_list (txs s)).*2) in
  let remove_ids := foldl (λ acc id, acc ∪ replacement_package id s) (confirmed ∪ conflicting)
                      (elements (conflicting ∖ confirmed)) in
  remove_all (elements remove_ids) s.
End Eviction.

(** ** What admission reads from outside the pool *)

Inductive UtxoSlot := Unwired | Busy | Wired (coins : coin_map).

Record Env {T : TxOps} := mkEnv {
  policy_config : option MempoolPolicyConfig;
  rbf_config : option RbfConfig;
  utxo_set_arc : UtxoSlot;
  snapshot_prevout : OutPoint → option UTXO;
  (** Next block height and its median time past. *)
  finality_context : option (Z * Z);
  prior_median_time : Z → option Z;
  chain_network : option Network;
  current_timestamp : Z;
}.

(** A package member with its witness stacks. *)
Abbreviation PackageTx := (Tx * option (list Witness))%type.

Section Admission.
Context {U : U256Ops} {K : Consensus} {T : TxOps}.
Context (env : Env).

Definition effective_policy : MempoolPolicyConfig := default default_policy (policy_config env).
Definition effective_rbf : RbfConfig := default default_rbf (rbf_config env).
Definition vsize_and_cost := admit_vsize (policy_config env).
Definition tip_height : Z := match finality_context env with Some (h, _) => h | None => 0 end.

(** *** Checks against the spent coins *)

Definition script_prevouts (tx : Tx) (utxos : coin_map) (s : Mempool) : list (option InputPrevout) :=
  (λ o, match utxos !! o with
        | Some u => Some (mkPrevout (ut_value u) (ut_script u))
        | None => (λ out, mkPrevout (out_value out) (out_script out)) <$> pooled_output o s
        end) <$> tx_inputs tx.
Definition any_spent (f : bytes → bool) (prevouts : list (option InputPrevout)) : bool :=
  existsb (λ p, match p with Some pr => f (pr_script pr) | None => false end) prevouts.

(** The median time each time-based relative lock counts from; [None] rejects. *)
Definition lock_median (utxos : coin_map) (s : Mempool) (block_mtp_i : Z) (input : TxIn) : option Z :=
  let seq := as_u32 (sequence input) in
  if is_sequence_disabled seq || negb (extract_sequence_type_flag seq) then Some (-1)
  else match utxos !! ti_prevout input with
       | Some u =>
           match prior_median_time env (ut_height u) with
           | Some mtp => Some mtp
           | None => if bool_decide (extract_sequence_locktime_value seq = 0) && bool_decide (0 ≤ block_mtp_i)
                     then Some block_mtp_i else None
           end
       | None => if mempool_creates (ti_prevout input) s && bool_decide (0 ≤ block_mtp_i)
                 then Some block_mtp_i else None
       end.
Definition relative_lock_rejects (tx : Tx) (utxos : coin_map) (s : Mempool) : bool :=
  match finality_context env with
  | None =>
      version_enforces_relative_lock (tx_version tx) &&
      existsb (λ input, let seq := as_u32 (sequence input) in
                 negb (is_sequence_disabled seq) && negb (bool_decide (extract_sequence_locktime_value seq = 0)))
              (tx_ins tx)
  | Some (block_height, block_mtp) =>
      let block_mtp_i := if bool_decide (block_mtp ≤ i64_max) then block_mtp else -1 in
      match mapM (lock_median utxos s block_mtp_i) (tx_ins tx) with
      | None => true
      | Some prev_mtps =>
          match chain_network env with
          | None => true
          | Some network => default true (relative_lock_unsatisfied tx utxos block_height block_mtp prev_mtps network)
          end
      end
  end.
Definition immature_coinbase_spend (tx : Tx) (utxos : coin_map) : bool :=
  existsb (λ o, match utxos !! o with
                | Some u => negb (check_coinbase_maturity tip_height (ut_height u) (ut_coinbase u))
                | None => false
                end) (tx_inputs tx).
Definition is_final (tx : Tx) : bool :=
  match finality_context env with Some (h, mtp) => is_final_tx tx h mtp | None => is_final_tx tx 0 0 end.

Definition ephemeral_dust_allowed (tx : Tx) (s : Mempool) : bool :=
  bool_decide (length (filter (λ o, output_is_dust o = true) (tx_outputs tx)) = 1%nat) &&
  bool_decide (calculate_tx_id tx ∈ ephemeral_dust_waivers (package_preview s)).
Definition dust_rejects (tx : Tx) (s : Mempool) : bool :=
  existsb output_is_dust (tx_outputs tx) && negb (ephemeral_dust_allowed tx s).

(** *** Standardness, in the order of admission *)

Definition nonstandard_shape (tx : Tx) (witnesses : option (list Witness)) : bool :=
  negb (bool_decide (1 ≤ tx_version tx ≤ 2)) ||
  bool_decide (MAX_STANDARD_TX_WEIGHT < transaction_weight tx witnesses) ||
  bool_decide (default 0 (wire_len tx) < MIN_STANDARD_TX_NONWITNESS_SIZE) ||
  existsb (λ o, negb (output_script_is_standard (out_script o))) (tx_outputs tx) ||
  existsb (λ i, negb (p2sh_push_only_check (script_sig i))) (tx_ins tx) ||
  existsb (λ i, longer_than MAX_STANDARD_SCRIPTSIG_SIZE (script_sig i)) (tx_ins tx).
Definition witness_limits_reject (tx : Tx) (witnesses : option (list Witness)) (prevouts : list (option InputPrevout))
    : bool :=
  p2wsh_data_item_exceeds tx prevouts witnesses ||
  p2wsh_script_exceeds tx prevouts witnesses ||
  p2wsh_stack_count_exceeds tx prevouts witnesses ||
  pay_to_anchor_witness_present prevouts witnesses ||
  taproot_annex_present prevouts witnesses ||
  tapscript_data_item_exceeds prevouts witnesses.
Definition nonstandard_spend (tx : Tx) (prevouts : list (option InputPrevout)) : bool :=
  p2sh_redeem_sigops_exceed tx prevouts ||
  any_spent (λ script, negb (spent_script_is_standard script)) prevouts.
Definition undefined_witness_program (prevouts : list (option InputPrevout)) : bool :=
  any_spent (λ script, is_upgradable_witness_program script && negb (is_pay_to_anchor script)) prevouts.

(** [(rate * vsize).div_ceil(1000)]. *)
Definition relay_fee (rate vsize : Z) : Z := (Z.min (rate * vsize) u128_max + 999) / 1000.
Definition relay_floor_waived (tx : Tx) (s : Mempool) : bool :=
  bool_decide (calculate_tx_id tx ∈ relay_floor_waivers (package_preview s)).
Definition below_fee_floor (tx : Tx) (fee vsize : Z) (s : Mempool) : bool :=
  (negb (relay_floor_waived tx s) && bool_decide (fee < relay_fee (min_relay_fee_rate effective_policy) vsize)) ||
  bool_decide (fee < min_tx_fee effective_policy).

(** *** Replacement *)

Definition view_insert (view : coin_map) (o : OutPoint) (s : Mempool) : coin_map :=
  match pooled_output o s with
  | Some out => <[o := mkUtxo (out_value out) (out_script out) 0 false]> view
  | None => view
  end.
(** Coins [replacement_checks] may price: an output of a displaced transaction
    stays absent. *)
Definition replacement_input_view (new_tx existing_tx : Tx) (utxos : coin_map) (s : Mempool) : coin_map :=
  let displaced := replacement_package (calculate_tx_id existing_tx) s in
  foldl (λ view o, match utxos !! o with
                   | Some u => <[o := u]> view
                   | None => if bool_decide (op_hash o ∈ displaced) then view else view_insert view o s
                   end) ∅ (tx_inputs new_tx ++ tx_inputs existing_tx).

(** Count and cooldown limits recorded for a transaction that replaced another. *)
Definition tracking_allows (h : bytes) (s : Mempool) : bool :=
  match rbf_tracking s !! h with
  | None => true
  | Some t =>
      bool_decide (replacement_count t < max_replacements_per_tx effective_rbf) &&
      bool_decide (cooldown_seconds effective_rbf ≤ sat_sub (current_timestamp env) (last_replacement_time t))
  end.
(** Fee and size of what is replaced; [None] is a package that is not allowed. *)
Definition replaced_totals (existing_tx : Tx) (utxos : coin_map) (s : Mempool) : option (Z * Z) :=
  let h := calculate_tx_id existing_tx in
  let package := replacement_package h s in
  let alone := (calculate_transaction_fee existing_tx utxos s, pooled_vsize (policy_config env) h existing_tx utxos s) in
  if in_pool h s then
    if allow_package_replacements effective_rbf then Some (package_fee_and_vsize (policy_config env) package utxos s)
    else if bool_decide (1 < size package)%nat then None else Some alone
  else Some alone.
Definition checked_mul_u128 (a b : Z) : result Z :=
  if bool_decide (a * b ≤ u128_max) then Ok (a * b) else Err "Fee rate calculation overflow".

(** [confirmations] is what storage records of the replaced transaction, when
    it has it in a block. *)
Definition too_few_confirmations (confirmations : option Z) : bool :=
  bool_decide (rbf_mode effective_rbf = Conservative) && bool_decide (0 < min_confirmations effective_rbf) &&
  match confirmations with
  | Some n => bool_decide (n < min_confirmations effective_rbf)
  | None => false
  end.

Definition check_rbf_replacement_with_witness (new_tx existing_tx : Tx) (utxos : coin_map)
    (confirmations : option Z) (new_witnesses : option (list Witness)) (s : Mempool) : result bool :=
  if bool_decide (rbf_mode effective_rbf = Disabled) then Ok false
  else if bool_decide (rbf_mode effective_rbf = Conservative) && negb (signals_rbf existing_tx) then Ok false
  else if negb (tracking_allows (calculate_tx_id existing_tx) s) then Ok false
  else match replaced_totals existing_tx utxos s with
  | None => Ok false
  | Some (existing_fee, existing_size) =>
      let new_fee := calculate_transaction_fee new_tx utxos s in
      let new_size := (vsize_and_cost new_tx new_witnesses utxos s).1 in
      if bool_decide (new_size = 0) || bool_decide (existing_size = 0) then Ok false
      else
        let+ new_scaled := checked_mul_u128 new_fee existing_size in
        let+ existing_scaled := checked_mul_u128 existing_fee new_size in
        let+ clears := replacement_clears_fee_rate new_scaled existing_scaled (min_fee_rate_millis effective_rbf) in
        if negb clears then Ok false
        else if bool_decide (new_fee < existing_fee + relay_fee (incremental_relay_fee effective_policy) new_size)
        then Ok false
        else if too_few_confirmations confirmations then Ok false
        else if negb (has_conflict_with_tx new_tx existing_tx) then Ok false
        else replacement_checks new_tx existing_tx (replacement_input_view new_tx existing_tx utxos s) (mempool s)
               new_witnesses
  end.

(** Every direct conflict must be replaceable; an error stops the loop. *)
Fixpoint replaceable (tx : Tx) (witnesses : option (list Witness)) (utxos : coin_map) (direct : list bytes)
    (s : Mempool) : result bool :=
  match direct with
  | [] => Ok true
  | h :: rest =>
      match txs s !! h with
      | None => replaceable tx witnesses utxos rest s
      | Some existing =>
          let+ ok := check_rbf_replacement_with_witness tx existing utxos None witnesses s in
          if ok then replaceable tx witnesses utxos rest s else Ok false
      end
  end.

(** The transactions a replacement deletes; [None] when one of them has
    descendants and packages are not allowed. *)
Definition displacement_set (direct : list bytes) (s : Mempool) : option (gset bytes) :=
  if allow_package_replacements effective_rbf
  then Some (foldl (λ acc h, acc ∪ replacement_package h s) ∅ direct)
  else if existsb (λ h, bool_decide (1 < size (replacement_package h s))%nat) direct then None
  else Some (list_to_set direct).
Definition pays_for_displaced (tx : Tx) (utxos : coin_map) (displaced : gset bytes) (vsize : Z) (s : Mempool) : bool :=
  bool_decide ((package_fee_and_vsize (policy_config env) displaced utxos s).1 +
               relay_fee (incremental_relay_fee effective_policy) vsize ≤ calculate_transaction_fee tx utxos s).
Definition replacement_verdict (tx : Tx) (witnesses : option (list Witness)) (utxos : coin_map)
    (direct : list bytes) (displaced : gset bytes) (vsize : Z) (s : Mempool) : result bool :=
  if bool_decide (100 < conflicting_cluster_count direct s)%nat then Ok false
  else if negb (pays_for_displaced tx utxos displaced vsize s) then Ok false
  else replaceable tx witnesses utxos direct s.

(** The dry-run form of the same test. *)
Definition replacement_rejects (tx : Tx) (witnesses : option (list Witness)) (utxos : coin_map) (vsize : Z)
    (s : Mempool) : bool :=
  let direct := direct_conflicts tx s in
  if bool_decide (direct = []) then false
  else match replacement_verdict tx witnesses utxos direct (txs_this_replacement_removes tx s) vsize s with
       | Ok true => false
       | _ => true
       end.

(** The tracking row of the new transaction, read after the displaced ones are gone. *)
Definition record_replacement (h : bytes) (direct : list bytes) (displaced : gset bytes) (s : Mempool) : Mempool :=
  let primary := default [] (head direct) in
  let original := match rbf_tracking s !! primary with Some t => original_tx_hash t | None => primary end in
  let counts := (λ d, match rbf_tracking s !! d with Some t => replacement_count t | None => 0 end) <$> direct in
  let row := mkTracking (next_replacement_count counts) (current_timestamp env) original in
  mkMempool (pool s) (mempool s) (fees s)
    (foldl (λ m d, delete d m) (<[h := row]> (rbf_tracking s)) (elements displaced))
    (tx_timestamps s) (tx_heights s) (tx_dependencies s) (tx_descendants s) (package_preview s).

(** *** Admission *)

Definition precheck_rejects (tx : Tx) (witnesses : option (list Witness)) (s : Mempool) : bool :=
  in_pool (calculate_tx_id tx) s ||
  negb (bool_decide (NoDup (tx_inputs tx))) ||
  bool_decide (tx_ins tx = []) || bool_decide (length (tx_outputs tx) = 0%nat) ||
  bool_decide (sat_mul (max_mempool_mb effective_policy) 1048576 < accounted_tx_bytes tx witnesses) ||
  (require_standard effective_policy && nonstandard_shape tx witnesses) ||
  (reject_spam_in_mempool effective_policy && is_spam (spam_filter effective_policy) tx witnesses).

(** The coins admission sees: those of the wired set, then of the lookup. *)
Definition coins_of_inputs (coins : coin_map) (ins : list OutPoint) (m : coin_map) : coin_map :=
  foldl (λ m' o, match coins !! o with Some u => <[o := u]> m' | None => m' end) m ins.
Definition admission_coins (tx : Tx) (s : Mempool) : option (coin_map * bool) :=
  match utxo_set_arc env with
  | Busy => None
  | Unwired => Some (∅, false)
  | Wired coins => Some (fill_snapshot_misses (snapshot_prevout env) tx s (coins_of_inputs coins (tx_inputs tx) ∅), true)
  end.

Definition spend_rejects (tx : Tx) (witnesses : option (list Witness)) (utxos : coin_map) (wired : bool) (s : Mempool)
    : bool :=
  let prevouts := script_prevouts tx utxos s in
  negb (is_final tx) || relative_lock_rejects tx utxos s || dust_rejects tx s || immature_coinbase_spend tx utxos ||
  unknown_prevout tx utxos s wired || prevout_value_out_of_range tx utxos ||
  prevout_sum_exceeds_money tx utxos s || outputs_exceed_inputs tx utxos s ||
  (require_standard effective_policy &&
   (nonstandard_spend tx prevouts || undefined_witness_program prevouts ||
    witness_limits_reject tx witnesses prevouts)) ||
  consensus_checks_reject tx witnesses prevouts (require_standard effective_policy) ||
  bool_decide (MAX_STANDARD_TX_SIGOPS_COST < (vsize_and_cost tx witnesses utxos s).2).

(** The last steps: limits, witness count, the writes. *)
Definition finish_admission (tx : Tx) (witnesses : option (list Witness)) (vsize fee rate : Z) (s : Mempool)
    : Mempool * result bool :=
  if negb (check_ancestor_descendant_limits tx effective_policy vsize s) then (s, Ok false)
  else if match witnesses with
          | Some wits => negb (bool_decide (length wits = length (tx_ins tx)))
          | None => false
          end then (s, Ok false)
  else (insert_accepted tx witnesses vsize fee rate (current_timestamp env) (sat_sub tip_height 1) s, Ok true).

Definition add_transaction_with_witness (tx : Tx) (witnesses : option (list Witness)) (s : Mempool)
    : Mempool * result bool :=
  if precheck_rejects tx witnesses s then (s, Ok false)
  else match admission_coins tx s with
  | None => (s, Ok false)
  | Some (utxos, wired) =>
      if spend_rejects tx witnesses utxos wired s then (s, Ok false)
      else
        let vsize := (vsize_and_cost tx witnesses utxos s).1 in
        let fee := if wired then calculate_transaction_fee tx utxos s else 0 in
        let rate := if bool_decide (0 < vsize) then fee / vsize else 0 in
        if wired && below_fee_floor tx fee vsize s then (s, Ok false)
        else
          let direct := direct_conflicts tx s in
          if bool_decide (direct = []) then
            if existsb (λ o, bool_decide (o ∈ spent_outputs (pool s))) (tx_inputs tx) then (s, Ok false)
            else finish_admission tx witnesses vsize fee rate s
          else match displacement_set direct s with
          | None => (s, Ok false)
          | Some displaced =>
              match replacement_verdict tx witnesses utxos direct displaced vsize s with
              | Err e => (s, Err e)
              | Ok false => (s, Ok false)
              | Ok true =>
                  finish_admission tx witnesses vsize fee rate
                    (record_replacement (calculate_tx_id tx) direct displaced (remove_all (elements displaced) s))
              end
          end
  end.
Definition add_transaction (tx : Tx) (s : Mempool) : Mempool * result bool := add_transaction_with_witness tx None s.

(** *** Dry run *)

Definition preview_accept (tx : Tx) (witnesses : option (list Witness)) (utxos : coin_map) (s : Mempool) : result Z :=
  let std := require_standard effective_policy in
  let prevouts := script_prevouts tx utxos s in
  if bool_decide (tx_ins tx = []) || bool_decide (length (tx_outputs tx) = 0%nat) then Err "bad-txns-vin-empty"
  else if dust_rejects tx s then Err "dust"
  else if std && negb (bool_decide (1 ≤ tx_version tx ≤ 2)) then Err "version"
  else if std && bool_decide (MAX_STANDARD_TX_WEIGHT < transaction_weight tx witnesses) then Err "tx-size"
  else if std && existsb (λ o, negb (output_script_is_standard (out_script o))) (tx_outputs tx)
  then Err "scriptpubkey"
  else if std && existsb (λ i, longer_than MAX_STANDARD_SCRIPTSIG_SIZE (script_sig i)) (tx_ins tx)
  then Err "scriptsig-size"
  else if std && existsb (λ i, negb (p2sh_push_only_check (script_sig i))) (tx_ins tx)
  then Err "scriptsig-not-pushonly"
  else if std && bool_decide (default 0 (wire_len tx) < MIN_STANDARD_TX_NONWITNESS_SIZE) then Err "tx-size-small"
  else if negb (is_final tx) then Err "non-final"
  else if relative_lock_rejects tx utxos s then Err "non-BIP68-final"
  else if immature_coinbase_spend tx utxos then Err "bad-txns-premature-spend-of-coinbase"
  else if unknown_prevout tx utxos s true then Err "missing-inputs"
  else if std && any_spent (λ script, negb (spent_script_is_standard script)) prevouts
  then Err "bad-txns-nonstandard-inputs"
  else if std && p2sh_redeem_sigops_exceed tx prevouts then Err "bad-txns-nonstandard-inputs"
  else if prevout_sum_exceeds_money tx utxos s then Err "bad-txns-in-belowout"
  else if outputs_exceed_inputs tx utxos s then Err "bad-txns-in-belowout"
  else
    let fee := calculate_transaction_fee tx utxos s in
    let vsize := (vsize_and_cost tx witnesses utxos s).1 in
    if below_fee_floor tx fee vsize s then Err "min relay fee not met"
    else if negb (check_ancestor_descendant_limits tx effective_policy vsize s) then Err "too-long-mempool-chain"
    else if replacement_rejects tx witnesses utxos vsize s then Err "insufficient fee"
    else Ok fee.
Definition script_rejects (tx : Tx) (witnesses : option (list Witness)) (utxos : coin_map) (s : Mempool) : bool :=
  let prevouts := script_prevouts tx utxos s in
  (require_standard effective_policy && witness_limits_reject tx witnesses prevouts) ||
  consensus_checks_reject tx witnesses prevouts (require_standard effective_policy) ||
  bool_decide (MAX_STANDARD_TX_SIGOPS_COST < (vsize_and_cost tx witnesses utxos s).2).

(** *** Packages *)

Definition set_preview (pv : PackagePreview) (s : Mempool) : Mempool :=
  mkMempool (pool s) (mempool s) (fees s) (rbf_tracking s) (tx_timestamps s) (tx_heights s)
            (tx_dependencies s) (tx_descendants s) pv.
Definition set_waivers (relay dust : gset bytes) (s : Mempool) : Mempool :=
  let pv := package_preview s in set_preview (mkPreview (pv_txs pv) (pv_descendants pv) relay dust) s.

(** The outputs of the package as coins. *)
Definition package_outputs (package : list PackageTx) (coins : coin_map) : coin_map :=
  foldl (λ m (p : PackageTx),
    foldl (λ m' (q : nat * TxOut),
      <[mkOut (calculate_tx_id p.1) (as_u32 (Z.of_nat q.1)) :=
          mkUtxo (out_value q.2) (out_script q.2) 0 false]> m') m (imap pair (tx_outputs p.1))) coins package.

Definition package_relay_waivers (package : list PackageTx) (utxos : coin_map) (rate : Z) (s : Mempool) : gset bytes :=
  let spent_by_last : list bytes := match last package with Some p => op_hash <$> tx_inputs p.1 | None => [] end in
  let counted := (λ q : nat * PackageTx, q.2) <$>
    filter (λ q, (S q.1 = length package)%nat ∨ calculate_tx_id q.2.1 ∈ spent_by_last) (imap pair package) in
  let fee_of := λ p : PackageTx, calculate_transaction_fee p.1 utxos s in
  let size_of := λ p : PackageTx, (vsize_and_cost p.1 p.2 utxos s).1 in
  let fee := foldl sat_add 0 (fee_of <$> counted) in
  let vsize := foldl sat_add 0 (size_of <$> counted) in
  if bool_decide (vsize = 0) || bool_decide (fee < relay_fee rate vsize) then ∅
  else list_to_set ((λ p : PackageTx, calculate_tx_id p.1) <$>
                    filter (λ p, fee_of p < relay_fee rate (size_of p)) counted).

(** Positions of the dust outputs of a transaction. *)
Definition dust_indices (tx : Tx) : list nat :=
  (λ q : nat * TxOut, q.1) <$> filter (λ q, output_is_dust q.2 = true) (imap pair (tx_outputs tx)).
Definition is_ephemeral_parent (utxos : coin_map) (s : Mempool) (tx : Tx) (later : list PackageTx) : bool :=
  bool_decide (calculate_transaction_fee tx utxos s = 0) &&
  match dust_indices tx with
  | [i] => existsb (λ p : PackageTx, bool_decide (mkOut (calculate_tx_id tx) (as_u32 (Z.of_nat i)) ∈ tx_inputs p.1)) later
  | _ => false
  end.
Fixpoint ephemeral_dust_parents (package : list PackageTx) (utxos : coin_map) (s : Mempool) : gset bytes :=
  match package with
  | [] => ∅
  | p :: later => (if is_ephemeral_parent utxos s p.1 later then {[calculate_tx_id p.1]} else ∅)
                  ∪ ephemeral_dust_parents later utxos s
  end.

Definition arm_package_preview (package : list PackageTx) (chain_coins : coin_map) (s : Mempool) : Mempool :=
  let coins := package_outputs package chain_coins in
  set_waivers (package_relay_waivers package coins (min_relay_fee_rate effective_policy) s)
              (ephemeral_dust_parents package coins s) s.
Definition clear_package_preview (s : Mempool) : Mempool := set_preview (mkPreview ∅ ∅ ∅ ∅) s.
Definition note_package_preview (tx : Tx) (witnesses : option (list Witness)) (utxos : coin_map) (s : Mempool) : Mempool :=
  let txid := calculate_tx_id tx in
  let pv := package_preview s in
  let parents := filter (λ p, in_pool p s = true ∨ is_Some (pv_txs pv !! p)) (op_hash <$> tx_inputs tx) in
  set_preview
    (mkPreview (<[txid := ((vsize_and_cost tx witnesses utxos s).1, parents)]> (pv_txs pv))
       (foldl (λ m p, <[p := {[txid]} ∪ default ∅ (m !! p)]> m) (pv_descendants pv) parents)
       (relay_floor_waivers pv) (ephemeral_dust_waivers pv)) s.

(** A transaction and the later ones that spend it: a round adds the spenders of
    the members so far, and the rounds stop when none is added. *)
Definition spends_member (members : gset bytes) (tx : Tx) : bool :=
  existsb (λ o, bool_decide (op_hash o ∈ members)) (tx_inputs tx).
Definition descendants_round (package : list PackageTx) (members : gset bytes) : gset bytes :=
  foldl (λ m (p : PackageTx), if spends_member m p.1 then {[calculate_tx_id p.1]} ∪ m else m) members package.
Fixpoint descendants_loop (package : list PackageTx) (fuel : nat) (members : gset bytes) : gset bytes :=
  let members' := descendants_round package members in
  match fuel with
  | 0%nat => members'
  | S fuel' => if bool_decide (size members' = size members) then members' else descendants_loop package fuel' members'
  end.
Definition package_descendants (package : list PackageTx) (start : nat) : gset bytes :=
  match package !! start with
  | None => ∅
  | Some p => descendants_loop package (length package) {[calculate_tx_id p.1]}
  end.

(** Admit in order; an error ends the loop. *)
Fixpoint admit_each (package : list PackageTx) (s : Mempool) : Mempool * list bool * result unit :=
  match package with
  | [] => (s, [], Ok tt)
  | p :: rest =>
      match add_transaction_with_witness p.1 p.2 s with
      | (s1, Err e) => (s1, [], Err e)
      | (s1, Ok ok) => let '(s2, flags, r) := admit_each rest s1 in (s2, ok :: flags, r)
      end
  end.

(** Position of the first transaction of the package with an id. *)
Definition position (ids : list bytes) (id : bytes) : option nat := fst <$> list_find (id =.) ids.
Definition clear_flag (ids : list bytes) (id : bytes) (flags : list bool) : list bool :=
  match position ids id with Some i => <[i := false]> flags | None => flags end.

(** A waived transaction whose package descendants were not all admitted goes
    out with those that were. *)
Definition drop_waived (admitted : gset bytes) (ids : list bytes) (acc : Mempool * list bool)
    (q : bytes * gset bytes) : Mempool * list bool :=
  let '(id, closure) := q in
  if bool_decide (id ∈ admitted) && negb (bool_decide (closure ⊆ admitted)) then
    foldl (λ acc member, ((remove_transaction member acc.1).1, clear_flag ids member acc.2)) acc
          (elements (closure ∩ admitted))
  else acc.

(** One pass over the package: a transaction whose package parent is out goes out. *)
Definition parent_missing (ids : list bytes) (flags : list bool) (tx : Tx) : bool :=
  existsb (λ o, match position ids (op_hash o) with
                | Some i => bool_decide (default false (flags !! i) = false)
                | None => false
                end) (tx_inputs tx).
Definition drop_orphans_pass (package : list PackageTx) (ids : list bytes) (acc : Mempool * list bool)
    : Mempool * list bool :=
  foldl (λ acc (q : nat * PackageTx),
    if default false (acc.2 !! q.1) && parent_missing ids acc.2 q.2.1
    then ((remove_transaction (calculate_tx_id q.2.1) acc.1).1, <[q.1 := false]> acc.2) else acc)
    acc (imap pair package).
(** Until a pass removes nothing; a pass that removes clears a flag. *)
Fixpoint drop_orphans (package : list PackageTx) (ids : list bytes) (fuel : nat) (acc : Mempool * list bool)
    : Mempool * list bool :=
  match fuel with
  | 0%nat => acc
  | S fuel' =>
      let acc' := drop_orphans_pass package ids acc in
      if bool_decide (acc'.2 = acc.2) then acc' else drop_orphans package ids fuel' acc'
  end.

Definition package_after_admission (package : list PackageTx) (waived : gset bytes) (s : Mempool) (flags : list bool)
    : Mempool * list bool :=
  let ids := (λ p : PackageTx, calculate_tx_id p.1) <$> package in
  let admitted : gset bytes := list_to_set ((zip ids flags) ≫= λ q, if q.2 : bool then [q.1] else []) in
  let rows := filter (λ q : bytes * gset bytes, q.1 ∈ waived)
                (imap (λ i id, (id, package_descendants package i)) ids) in
  drop_orphans package ids (S (length flags)) (foldl (drop_waived admitted ids) (s, flags) rows).

Definition add_package_with_witnesses (package : list PackageTx) (s : Mempool) : Mempool * result (list bool) :=
  if bool_decide (length package = 0%nat) then (s, Ok [])
  else
    match utxo_set_arc env with
    | Busy => (s, Ok (replicate (length package) false))
    | slot =>
        let s0 := match slot with
                  | Wired coins =>
                      arm_package_preview package
                        (foldl (λ m (p : PackageTx), coins_of_inputs coins (tx_inputs p.1) m) ∅ package) s
                  | _ => s
                  end in
        let waived := relay_floor_waivers (package_preview s0) ∪ ephemeral_dust_waivers (package_preview s0) in
        let '(s1, flags, outcome) := admit_each package s0 in
        let '(s2, flags') := package_after_admission package waived (set_waivers ∅ ∅ s1) flags in
        match outcome with Ok _ => (s2, Ok flags') | Err e => (s2, Err e) end
    end.
Definition add_package (package : list Tx) (s : Mempool) : Mempool * result bool :=
  let '(s', r) := add_package_with_witnesses ((λ tx, (tx, None)) <$> package) s in
  (s', let+ flags := r in Ok (negb (bool_decide (flags = [])) && forallb id flags)).
End Admission.

(** ** Reorganisation *)

Section ReorgPool.
Context {U : U256Ops} {K : Consensus} {T : TxOps}.

Definition install_utxo_snapshot (utxos : coin_map) (slot : UtxoSlot) : UtxoSlot :=
  match slot with Unwired => Unwired | _ => Wired utxos end.
Definition with_slot (slot : UtxoSlot) (e : Env) : Env :=
  mkEnv T (policy_config e) (rbf_config e) slot (snapshot_prevout e) (finality_context e)
    (prior_median_time e) (chain_network e) (current_timestamp e).

(** Admit the transactions of one disconnected block; results are ignored. *)
Definition restore_block (e : Env) (s : Mempool) (q : list Tx * option (list (list Witness))) : Mempool :=
  foldl (λ s' (p : nat * Tx),
    if is_coinbase p.2 then s'
    else (add_transaction_with_witness e p.2 (stacks ← q.2; stacks !! p.1) s').1) s (imap pair q.1).
Definition apply_reorg (disconnected : list (list Tx)) (witnesses : list (list (list Witness)))
    (connected : list (list Tx)) (utxos : coin_map) (e : Env) (s : Mempool) : Mempool :=
  let e' := with_slot (install_utxo_snapshot utxos (utxo_set_arc e)) e in
  let s1 := foldl (λ s' block, remove_for_connected_block block s') s connected in
  foldl (restore_block e') s1 (imap (λ i block, (block, witnesses !! i)) disconnected).
End ReorgPool.
