(* ===== verification/MempoolInv.v ===== *)
(** * MempoolInv: the invariant of the transaction pool

    What the tables of [Mempool] agree on: spenders and spent outputs are the
    inputs of the pooled transactions, so no two of them spend the same output;
    the dependency graph is symmetric and every edge is a real spend; the fee
    index lists exactly the cached rates.  Every operation but [clear] keeps it. *)

From S2P Require Import Prelude Bytes Interfaces UtxoSnapshot Graph TxPolicy Mempool.
Open Scope Z_scope.

(** ** Maps of sets *)

Definition members {A} `{Countable A} (m : gmap A (gset bytes)) (k : A) : gset bytes := default ∅ (m !! k).

Lemma lookup_drop_members (hs : gset bytes) (x : bytes) (m : gmap bytes (gset bytes)) (k : bytes) :
  drop_members hs x m !! k = if bool_decide (k ∈ hs) then (λ s, s ∖ {[x]}) <$> m !! k else m !! k.
Proof.
  unfold drop_members. set (f := λ h m', alter (λ s : gset bytes, s ∖ {[x]}) h m').
  set (P := λ (r : gmap bytes (gset bytes)) (X : gset bytes),
    r !! k = if bool_decide (k ∈ X) then (λ s, s ∖ {[x]}) <$> m !! k else m !! k).
  change (P (set_fold f m hs) hs).
  apply set_fold_ind_L; unfold P, f; [by rewrite bool_decide_eq_false_2 by set_solver|].
  intros h X r Hh IH. destruct (decide (k = h)) as [->|Hne].
  - rewrite lookup_alter_eq, IH, bool_decide_eq_false_2 by done. by rewrite bool_decide_eq_true_2 by set_solver.
  - rewrite lookup_alter_ne, IH by done. by rewrite (bool_decide_ext (k ∈ {[h]} ∪ X) (k ∈ X)) by set_solver.
Qed.
Lemma members_drop (hs : gset bytes) (x : bytes) (m : gmap bytes (gset bytes)) (k : bytes) :
  (k ∉ hs → x ∉ members m k) → members (drop_members hs x m) k = members m k ∖ {[x]}.
Proof.
  intros Hk. unfold members in *. rewrite lookup_drop_members. case_bool_decide as Hin.
  - destruct (m !! k); cbn; set_solver.
  - specialize (Hk Hin). set_solver.
Qed.
Lemma dom_drop_members (hs : gset bytes) (x : bytes) (m : gmap bytes (gset bytes)) : dom (drop_members hs x m) = dom m.
Proof.
  apply set_eq. intros k. rewrite !elem_of_dom, lookup_drop_members. case_bool_decide; [|done].
  by rewrite fmap_is_Some.
Qed.
Lemma members_delete (m : gmap bytes (gset bytes)) h k :
  members (delete h m) k = if bool_decide (k = h) then ∅ else members m k.
Proof.
  unfold members. case_bool_decide as E; [subst; by rewrite lookup_delete_eq|by rewrite lookup_delete_ne by done].
Qed.
Lemma members_insert (m : gmap bytes (gset bytes)) h s k :
  members (<[h := s]> m) k = if bool_decide (k = h) then s else members m k.
Proof.
  unfold members. case_bool_decide as E; [subst; by rewrite lookup_insert_eq|by rewrite lookup_insert_ne by done].
Qed.
Lemma members_dom (m : gmap bytes (gset bytes)) k x : x ∈ members m k → k ∈ dom m.
Proof. unfold members. destruct (m !! k) eqn:E; [intros _; by apply elem_of_dom|set_solver]. Qed.

(** ** The dependency graph *)

Abbreviation graph := (gmap bytes (gset bytes)).

Record graph_ok (pooled : gmap bytes Tx) (deps desc : graph) : Prop := {
  deps_dom : dom deps = dom pooled;
  desc_dom : dom desc = dom pooled;
  graph_sym : ∀ p c, c ∈ members desc p ↔ p ∈ members deps c;
  graph_spends : ∀ p c, c ∈ members desc p → ∃ tx, pooled !! c = Some tx ∧ p ∈ op_hash <$> tx_inputs tx;
}.

Lemma graph_remove_members (h : bytes) (deps desc deps' desc' : graph) :
  (∀ p c, c ∈ members desc p ↔ p ∈ members deps c) →
  graph_remove h deps desc = (deps', desc') →
  dom deps' = dom deps ∖ {[h]} ∧ dom desc' = dom desc ∖ {[h]} ∧
  (∀ c, members deps' c = if bool_decide (c = h) then ∅ else members deps c ∖ {[h]}) ∧
  (∀ p, members desc' p = if bool_decide (p = h) then ∅ else members desc p ∖ {[h]}).
Proof.
  intros Hsym E. unfold graph_remove in E.
  set (deps1 := match desc !! h with Some children => drop_members children h deps | None => deps end) in *.
  assert (dom deps1 = dom deps) as Hd1.
  { subst deps1. destruct (desc !! h); [apply dom_drop_members|done]. }
  assert (∀ c, members deps1 c = members deps c ∖ {[h]}) as H1.
  { intros c. subst deps1. pose proof (Hsym h c) as Hc. unfold members at 1 in Hc.
    destruct (desc !! h) as [ch|] eqn:Eh; cbn in Hc.
    - apply members_drop. set_solver.
    - set_solver. }
  injection E as <- <-. set (desc1 := delete h desc).
  assert (∀ p, members desc1 p = if bool_decide (p = h) then ∅ else members desc p) as Hm by apply members_delete.
  split_and!.
  - rewrite dom_delete_L. by rewrite Hd1.
  - destruct (deps1 !! h); [rewrite dom_drop_members|]; apply dom_delete_L.
  - intros c. rewrite members_delete, H1. done.
  - intros p. pose proof (H1 h) as Hh. unfold members at 1 in Hh. pose proof (Hsym p h) as Hp.
    destruct (deps1 !! h) as [ps|]; cbn in Hh.
    + rewrite members_drop; rewrite Hm; case_bool_decide; set_solver.
    + rewrite Hm. case_bool_decide; set_solver.
Qed.

Lemma graph_remove_ok (h : bytes) (pooled : gmap bytes Tx) (deps desc deps' desc' : graph) :
  graph_ok pooled deps desc → graph_remove h deps desc = (deps', desc') → graph_ok (delete h pooled) deps' desc'.
Proof.
  intros [Hd1 Hd2 Hsym Hsp] E.
  destruct (graph_remove_members _ _ _ _ _ Hsym E) as (Hx1 & Hx2 & Hm1 & Hm2). split.
  - by rewrite Hx1, dom_delete_L, Hd1.
  - by rewrite Hx2, dom_delete_L, Hd2.
  - intros p c. rewrite Hm1, Hm2. specialize (Hsym p c). repeat case_bool_decide; set_solver.
  - intros p c. rewrite Hm2. case_bool_decide; [set_solver|]. intros [Hc Hch]%elem_of_difference.
    rewrite lookup_delete_ne by set_solver. by apply Hsp.
Qed.

(** Linking the inputs of [h]. *)
Lemma link_inputs_members (pooled : gmap bytes Tx) (h : bytes) (ins : list OutPoint) (g g' : graph * graph) :
  foldl (link_input pooled h) g ins = g' →
  (∀ p c, c ∈ members g'.2 p ↔ c ∈ members g.2 p ∨ (c = h ∧ p ∈ op_hash <$> ins ∧ p ∈ dom pooled)) ∧
  (∀ p c, p ∈ members g'.1 c ↔ p ∈ members g.1 c ∨ (c = h ∧ p ∈ op_hash <$> ins ∧ p ∈ dom pooled)) ∧
  (h ∈ dom g.1 → dom g'.1 = dom g.1) ∧ (dom pooled ⊆ dom g.2 → dom g'.2 = dom g.2).
Proof.
  revert g. induction ins as [|o ins IH]; intros g E; cbn in E.
  { subst. split_and!; set_solver. }
  destruct (IH _ E) as (I1 & I2 & I3 & I4). clear IH E. unfold link_input in *.
  rewrite fmap_cons. setoid_rewrite elem_of_cons. case_bool_decide as Hp; cbn [fst snd] in *; last first.
  { rewrite <-elem_of_dom in Hp. split_and!; [intros; rewrite I1; naive_solver|intros; rewrite I2; naive_solver|done|done]. }
  rewrite <-elem_of_dom in Hp. split_and!.
  - intros p c. rewrite I1, members_insert. fold (members g.2 (op_hash o)). clear - Hp.
    case_bool_decide; [subst; rewrite elem_of_union, elem_of_singleton|]; naive_solver.
  - intros p c. rewrite I2, members_insert. fold (members g.1 h). clear - Hp.
    case_bool_decide; [subst; rewrite elem_of_union, elem_of_singleton|]; naive_solver.
  - intros Hh. rewrite I3; rewrite dom_insert_L; set_solver.
  - intros Hd. rewrite I4; rewrite dom_insert_L; set_solver.
Qed.

Lemma graph_insert_ok (h : bytes) (tx : Tx) (pooled : gmap bytes Tx) (deps desc : graph) :
  graph_ok pooled deps desc → h ∉ dom pooled →
  let pooled' := <[h := tx]> pooled in
  let g := foldl (link_input pooled' h) (<[h := members deps h]> deps, <[h := members desc h]> desc) (tx_inputs tx) in
  graph_ok pooled' g.1 g.2.
Proof.
  intros [Hd1 Hd2 Hsym Hsp] Hh pooled' g.
  destruct (link_inputs_members pooled' h (tx_inputs tx) _ g eq_refl) as (I1 & I2 & I3 & I4).
  clearbody g. cbn [fst snd] in *.
  assert (∀ k, members (<[h := members desc h]> desc) k = members desc k) as E1.
  { intros k. rewrite members_insert. case_bool_decide; by subst. }
  assert (∀ k, members (<[h := members deps h]> deps) k = members deps k) as E2.
  { intros k. rewrite members_insert. case_bool_decide; by subst. }
  split.
  - rewrite I3 by set_solver. subst pooled'. rewrite !dom_insert_L. by rewrite Hd1.
  - rewrite I4 by (subst pooled'; set_solver). subst pooled'. rewrite !dom_insert_L. by rewrite Hd2.
  - intros p c. rewrite I1, I2, E1, E2. by rewrite Hsym.
  - intros p c [Hc|(-> & Hp & _)]%I1.
    + rewrite E1 in Hc. apply Hsp in Hc as (t & Hc & Hs). exists t. split; [|done]. subst pooled'.
      rewrite lookup_insert_ne; [done|]. intros ->. apply Hh. by apply elem_of_dom.
    + exists tx. subst pooled'. by rewrite lookup_insert_eq.
Qed.

(** ** The fee tables *)

Abbreviation index_row f rate := (default [] (fee_index f !! rate)).

Record fees_ok (f : FeeTables) (D : gset bytes) : Prop := {
  index_cache : ∀ rate h, h ∈ index_row f rate ↔ fee_cache f !! h = Some rate;
  index_nodup : ∀ rate, NoDup (index_row f rate);
  cache_dom : dom (fee_cache f) ⊆ D;
  basis_dom : dom (fee_basis f) = dom (fee_cache f);
  deltas_dom : dom (fee_deltas f) ⊆ D;
}.

Lemma row_drop (rate r : Z) (h : bytes) (idx : gmap Z (list bytes)) :
  default [] (drop_index_row rate h idx !! r) =
    if bool_decide (r = rate) then filter (λ x, x ≠ h) (default [] (idx !! r)) else default [] (idx !! r).
Proof.
  unfold drop_index_row. destruct (idx !! rate) as [l|] eqn:E.
  - destruct (filter (λ x, x ≠ h) l) as [|y l'] eqn:F; case_bool_decide; subst.
    + by rewrite lookup_delete_eq, E.
    + by rewrite lookup_delete_ne by done.
    + by rewrite lookup_insert_eq, E.
    + by rewrite lookup_insert_ne by done.
  - case_bool_decide; [|done]. subst. by rewrite E.
Qed.

Lemma fees_remove_ok f D h : fees_ok f D → fees_ok (fees_remove h f) (D ∖ {[h]}).
Proof.
  intros [Hi Hn Hc Hb Hd]. unfold fees_remove. destruct (fee_cache f !! h) as [rate|] eqn:E.
  - split; cbn.
    + intros r k. rewrite row_drop, lookup_delete_Some. rewrite <-Hi. case_bool_decide as Hr; subst.
      * rewrite list_elem_of_filter. naive_solver.
      * split; [|naive_solver]. intros Hk. split; [|done]. intros <-. apply Hi in Hk. congruence.
    + intros r. rewrite row_drop. case_bool_decide; [by apply NoDup_filter|done].
    + rewrite dom_delete_L. set_solver.
    + rewrite !dom_delete_L. by rewrite Hb.
    + rewrite dom_delete_L. set_solver.
  - apply not_elem_of_dom in E. split; cbn; try done; [set_solver|]. rewrite dom_delete_L. set_solver.
Qed.

Lemma fees_insert_ok f D h rate fee vsize hash :
  fees_ok f D → h ∉ dom (fee_cache f) → h ∈ D →
  fees_ok (mkFees (<[rate := index_row f rate ++ [h]]> (fee_index f)) (<[h := rate]> (fee_cache f))
             (<[h := (fee, vsize)]> (fee_basis f)) (fee_deltas f) hash) D.
Proof.
  intros [Hi Hn Hc Hb Hd] Hh HD.
  assert (∀ r, h ∉ index_row f r) as Hrow.
  { intros r Hr%Hi. apply Hh. by apply elem_of_dom. }
  split; cbn.
  - intros r k. destruct (decide (r = rate)) as [->|Hr]; destruct (decide (k = h)) as [->|Hk];
      rewrite ?lookup_insert_eq, ?lookup_insert_ne by done; cbn.
    + split; [done|]. intros _. apply elem_of_app. right. by left.
    + rewrite elem_of_app, list_elem_of_singleton. rewrite Hi. naive_solver.
    + split; [intros Hx; by destruct (Hrow r)|congruence].
    + apply Hi.
  - intros r. destruct (decide (r = rate)) as [->|Hr]; [rewrite lookup_insert_eq|rewrite lookup_insert_ne by done; apply Hn].
    cbn. apply NoDup_app. split_and!; [apply Hn| |apply NoDup_singleton].
    intros x Hx ->%list_elem_of_singleton. by destruct (Hrow rate).
  - rewrite dom_insert_L. set_solver.
  - rewrite !dom_insert_L. by rewrite Hb.
  - done.
Qed.
Lemma fees_ok_mono f D D' : D ⊆ D' → fees_ok f D → fees_ok f D'.
Proof. intros Hs [Hi Hn Hc Hb Hd]. split; try done; set_solver. Qed.
Lemma fees_ok_hash f D hash :
  fees_ok f D → fees_ok (mkFees (fee_index f) (fee_cache f) (fee_basis f) (fee_deltas f) hash) D.
Proof. by intros []. Qed.

(** ** The pool *)

Section Tables.
Context {U : U256Ops} {K : Consensus} {T : TxOps}.

Record tables_ok (s : Mempool) : Prop := {
  txid_key : ∀ h tx, txs s !! h = Some tx → calculate_tx_id tx = h;
  inputs_nodup : ∀ h tx, txs s !! h = Some tx → NoDup (tx_inputs tx);
  spenders_spec : ∀ o h, spenders (pool s) !! o = Some h ↔ ∃ tx, txs s !! h = Some tx ∧ o ∈ tx_inputs tx;
  spent_spec : spent_outputs (pool s) = dom (spenders (pool s));
  mempool_spec : mempool s = dom (txs s);
  wtxids_dom : dom (wtxids (pool s)) = dom (txs s);
  vsize_dom : dom (adjusted_vsize (pool s)) = dom (txs s);
  witnesses_dom : dom (tx_witnesses (pool s)) ⊆ dom (txs s);
  times_dom : dom (txs s) ⊆ dom (tx_timestamps s);
}.
(** A row of the replacement table never counts more than one replacement. *)
Definition tracking_ok (s : Mempool) : Prop :=
  ∀ h t, rbf_tracking s !! h = Some t → replacement_count t ≤ 1.

Record pool_ok (s : Mempool) : Prop := {
  pool_tables : tables_ok s;
  pool_graph : graph_ok (txs s) (tx_dependencies s) (tx_descendants s);
  pool_fees : fees_ok (fees s) (dom (txs s));
  pool_tracking : tracking_ok s;
}.

Lemma pool_new_ok : pool_ok mempool_new.
Proof.
  split.
  - split; cbn; try (set_solver || done).
  - split; cbn; try done; intros p c; unfold members; rewrite !lookup_empty; cbn; set_solver.
  - split; cbn; try done.
    + intros rate h. rewrite !lookup_empty. split; [by intros H%elem_of_nil|done].
    + intros rate. rewrite lookup_empty. apply NoDup_nil_2.
  - intros h t. cbn. by rewrite lookup_empty.
Qed.

(** Two pooled transactions never spend the same output. *)
Lemma pool_no_double_spend s h1 h2 tx1 tx2 o :
  tables_ok s → txs s !! h1 = Some tx1 → txs s !! h2 = Some tx2 →
  o ∈ tx_inputs tx1 → o ∈ tx_inputs tx2 → h1 = h2.
Proof.
  intros Ht E1 E2 H1 H2. assert (spenders (pool s) !! o = Some h1) as S1 by (apply spenders_spec; eauto).
  assert (spenders (pool s) !! o = Some h2) as S2 by (apply spenders_spec; eauto). congruence.
Qed.

Lemma lookup_delete_all {A} (ks : list OutPoint) (m : gmap OutPoint A) k :
  foldl (λ m o, delete o m) m ks !! k = if bool_decide (k ∈ ks) then None else m !! k.
Proof.
  revert m. induction ks as [|x ks IH]; intros m; cbn; [done|]. rewrite IH.
  destruct (decide (k = x)) as [->|Hne].
  - rewrite lookup_delete_eq. rewrite (bool_decide_eq_true_2 (x ∈ x :: ks)) by (by left). by case_bool_decide.
  - rewrite lookup_delete_ne by done. by rewrite (bool_decide_ext (k ∈ x :: ks) (k ∈ ks)) by set_solver.
Qed.
Lemma lookup_insert_all (ks : list OutPoint) (h : bytes) (m : gmap OutPoint bytes) k :
  foldl (λ m o, <[o := h]> m) m ks !! k = if bool_decide (k ∈ ks) then Some h else m !! k.
Proof.
  revert m. induction ks as [|x ks IH]; intros m; cbn; [done|]. rewrite IH.
  destruct (decide (k = x)) as [->|Hne].
  - rewrite lookup_insert_eq. rewrite (bool_decide_eq_true_2 (x ∈ x :: ks)) by (by left). by case_bool_decide.
  - rewrite lookup_insert_ne by done. by rewrite (bool_decide_ext (k ∈ x :: ks) (k ∈ ks)) by set_solver.
Qed.

(** *** Removing a transaction *)

Lemma txs_remove h s : txs (remove_transaction h s).1 = delete h (txs s).
Proof.
  unfold remove_transaction. destruct (txs s !! h) as [tx|] eqn:E.
  - by destruct (graph_remove _ _ _).
  - cbn. by rewrite delete_id.
Qed.

Lemma tables_remove h tx s deps desc :
  tables_ok s → txs s !! h = Some tx →
  tables_ok (mkMempool (pool_remove h tx (pool s)) (mempool s ∖ {[h]}) (fees_remove h (fees s))
               (delete h (rbf_tracking s)) (delete h (tx_timestamps s)) (delete h (tx_heights s)) deps desc
               (package_preview s)).
Proof.
  intros Ht E. pose proof Ht as [Hk Hn Hs Hsp Hm Hw Hv Hwi Hti]. split; cbn; unfold txs; cbn; fold (txs s).
  - intros k t (_ & Hk')%lookup_delete_Some. by apply Hk.
  - intros k t (_ & Hk')%lookup_delete_Some. by eapply Hn.
  - intros o k. rewrite lookup_delete_all. case_bool_decide as Ho.
    + split; [done|]. intros (t & (Hne & Et)%lookup_delete_Some & Hin).
      destruct Hne. by apply (pool_no_double_spend s h k tx t o).
    + rewrite Hs. split; intros (t & Et & Hin); exists t.
      * rewrite lookup_delete_ne; [done|]. intros <-. by simplify_eq.
      * by apply lookup_delete_Some in Et as [_ ?].
  - rewrite Hsp. apply set_eq. intros o. rewrite elem_of_difference, !elem_of_dom, elem_of_list_to_set.
    rewrite lookup_delete_all. case_bool_decide; [|naive_solver]. split; [naive_solver|by intros []].
  - by rewrite dom_delete_L, Hm.
  - by rewrite !dom_delete_L, Hw.
  - by rewrite !dom_delete_L, Hv.
  - rewrite !dom_delete_L. set_solver.
  - rewrite !dom_delete_L. set_solver.
Qed.

Lemma remove_ok h s : pool_ok s → pool_ok (remove_transaction h s).1.
Proof.
  intros [Ht Hg Hf Hr]. unfold remove_transaction. destruct (txs s !! h) as [tx|] eqn:E; [|done].
  destruct (graph_remove h _ _) as [deps desc] eqn:G. cbn. split.
  - by apply tables_remove.
  - cbn. unfold txs. cbn. by eapply graph_remove_ok.
  - cbn. unfold txs. cbn. rewrite dom_delete_L. by apply fees_remove_ok.
  - intros k t Hk. cbn in Hk. apply lookup_delete_Some in Hk as [_ Hk]. by eapply Hr.
Qed.

Lemma txs_remove_all ids s h :
  txs (remove_all ids s) !! h = if bool_decide (h ∈ ids) then None else txs s !! h.
Proof.
  revert s. induction ids as [|x ids IH]; intros s; cbn; [done|]. change (foldl _ ?a ids) with (remove_all ids a).
  rewrite IH, txs_remove. destruct (decide (h = x)) as [->|Hne].
  - rewrite lookup_delete_eq. rewrite (bool_decide_eq_true_2 (x ∈ x :: ids)) by (by left). by case_bool_decide.
  - rewrite lookup_delete_ne by done. by rewrite (bool_decide_ext (h ∈ x :: ids) (h ∈ ids)) by set_solver.
Qed.
Lemma remove_all_ok ids s : pool_ok s → pool_ok (remove_all ids s).
Proof. revert s. induction ids as [|x ids IH]; intros s Hs; cbn; [done|]. apply IH, remove_ok, Hs. Qed.
Lemma dom_remove_all ids s : dom (txs (remove_all ids s)) = dom (txs s) ∖ list_to_set ids.
Proof.
  apply set_eq. intros h. rewrite elem_of_difference, !elem_of_dom, elem_of_list_to_set, txs_remove_all.
  case_bool_decide; [|naive_solver]. split; [by intros []|naive_solver].
Qed.

(** *** Adding a transaction *)

Definition fresh_tx (tx : Tx) (s : Mempool) : Prop :=
  (calculate_tx_id tx ∉ dom (txs s)) ∧ NoDup (tx_inputs tx) ∧
  (∀ o, o ∈ tx_inputs tx → spenders (pool s) !! o = None).

Lemma txs_insert tx wits vsize fee rate now height s :
  txs (insert_accepted tx wits vsize fee rate now height s) = <[calculate_tx_id tx := tx]> (txs s).
Proof. unfold insert_accepted, update_dependency_graph. by destruct (foldl _ _ _). Qed.

Lemma tables_insert tx wits vsize fee rate now height s :
  tables_ok s → fresh_tx tx s → tables_ok (insert_accepted tx wits vsize fee rate now height s).
Proof.
  intros [Hk Hn Hs Hsp Hm Hw Hv Hwi Hti] (Hh & Hnd & Hfree).
  pose proof (txs_insert tx wits vsize fee rate now height s) as E.
  unfold insert_accepted, update_dependency_graph in *. set (h := calculate_tx_id tx) in *.
  destruct (foldl _ _ _) as [deps desc]. unfold txs in E. cbn in E. unfold txs in *.
  split; cbn; unfold txs; cbn; rewrite ?E.
  - intros k t [(<- & <-)|(_ & Hk')]%lookup_insert_Some; [done|by apply Hk].
  - intros k t [(<- & <-)|(_ & Hk')]%lookup_insert_Some; [done|by eapply Hn].
  - intros o k. rewrite lookup_insert_all. case_bool_decide as Ho.
    + split; [intros [= <-]; exists tx; by rewrite lookup_insert_eq|].
      intros (t & [(<- & <-)|(_ & Et)]%lookup_insert_Some & Hin); [done|].
      exfalso. assert (spenders (pool s) !! o = Some k) by (apply Hs; eauto). rewrite Hfree in *; done.
    + rewrite Hs. split; intros (t & Et & Hin); exists t.
      * rewrite lookup_insert_ne; [done|]. intros <-. apply Hh. by apply elem_of_dom.
      * apply lookup_insert_Some in Et as [(<- & <-)|(_ & Et)]; done.
  - rewrite Hsp. apply set_eq. intros o. rewrite elem_of_union, !elem_of_dom, elem_of_list_to_set.
    rewrite lookup_insert_all. case_bool_decide; naive_solver.
  - by rewrite dom_insert_L, Hm.
  - by rewrite !dom_insert_L, Hw.
  - by rewrite !dom_insert_L, Hv.
  - destruct wits; rewrite ?dom_insert_L; set_solver.
  - rewrite !dom_insert_L. set_solver.
Qed.

Lemma insert_ok tx wits vsize fee rate now height s :
  pool_ok s → fresh_tx tx s → pool_ok (insert_accepted tx wits vsize fee rate now height s).
Proof.
  intros [Ht Hg Hf Hr] Hfr. split.
  - by apply tables_insert.
  - rewrite txs_insert. destruct Hfr as (Hh & _ & _). pose proof (graph_insert_ok _ tx _ _ _ Hg Hh) as G.
    unfold insert_accepted, update_dependency_graph. cbn [pool txs transactions pool_insert tx_dependencies tx_descendants].
    unfold txs at 1. cbn [pool transactions pool_insert]. unfold members in G. fold (txs s).
    by destruct (foldl _ _ _) as [deps desc].
  - rewrite txs_insert, dom_insert_L. destruct Hfr as (Hh & _ & _).
    unfold insert_accepted, update_dependency_graph. destruct (foldl _ _ _) as [deps desc]. cbn [fees pool mempool].
    apply fees_insert_ok; [|pose proof (cache_dom _ _ Hf); set_solver|set_solver].
    eapply fees_ok_mono; [|done]. set_solver.
  - unfold insert_accepted, update_dependency_graph. by destruct (foldl _ _ _).
Qed.

(** *** Conflicts and packages *)

Lemma elem_of_direct_conflicts tx s h :
  h ∈ direct_conflicts tx s ↔ ∃ o, o ∈ tx_inputs tx ∧ spenders (pool s) !! o = Some h.
Proof.
  unfold direct_conflicts. generalize (tx_inputs tx) as ins. intros ins.
  assert (∀ acc, h ∈ foldl (λ acc o, match spenders (pool s) !! o with
            | Some k => if bool_decide (k ∈ acc) then acc else acc ++ [k] | None => acc end) acc ins ↔
          h ∈ acc ∨ ∃ o, o ∈ ins ∧ spenders (pool s) !! o = Some h) as Hgo.
  { induction ins as [|x ins IH]; intros acc; cbn; [set_solver|]. rewrite IH. clear IH.
    setoid_rewrite elem_of_cons. destruct (spenders (pool s) !! x) as [k|] eqn:E; [|naive_solver].
    case_bool_decide; [|rewrite elem_of_app, list_elem_of_singleton]; naive_solver. }
  rewrite Hgo. set_solver.
Qed.
Lemma no_direct_conflicts tx s :
  direct_conflicts tx s = [] → ∀ o, o ∈ tx_inputs tx → spenders (pool s) !! o = None.
Proof.
  intros E o Ho. destruct (spenders (pool s) !! o) as [h|] eqn:Es; [|done].
  assert (h ∈ direct_conflicts tx s) as Hh by (apply elem_of_direct_conflicts; eauto).
  rewrite E in Hh. by apply elem_of_nil in Hh.
Qed.
Lemma direct_conflict_pooled tx s h : tables_ok s → h ∈ direct_conflicts tx s → h ∈ dom (txs s).
Proof.
  intros Ht (o & _ & Hs)%elem_of_direct_conflicts. apply (spenders_spec s Ht) in Hs as (t & Et & _). by apply elem_of_dom.
Qed.

(** A child in the graph, restricted to the pool. *)
Definition child_of (s : Mempool) : bytes → bytes → Prop := edge (pooled_children s).
Lemma child_of_spec s p c : child_of s p c ↔ c ∈ dom (txs s) ∧ c ∈ members (tx_descendants s) p.
Proof.
  unfold child_of, edge, pooled_children, children, members, in_pool.
  rewrite list_elem_of_filter, bool_decide_eq_true, elem_of_elements, elem_of_dom. done.
Qed.
Lemma replacement_package_spec s root h : h ∈ replacement_package root s ↔ rtc (child_of s) root h.
Proof.
  unfold replacement_package, child_of. apply (mark_on_pop_root _ (dom (tx_descendants s))); [|lia].
  intros x Hx. unfold pooled_children, children. apply not_elem_of_dom in Hx. rewrite Hx. cbn. by rewrite elements_empty.
Qed.
Lemma replacement_package_root s root : root ∈ replacement_package root s.
Proof. apply replacement_package_spec. done. Qed.

Lemma elem_of_union_of (f : bytes → gset bytes) (l : list bytes) (acc : gset bytes) h :
  h ∈ foldl (λ acc x, acc ∪ f x) acc l ↔ h ∈ acc ∨ ∃ x, x ∈ l ∧ h ∈ f x.
Proof.
  revert acc. induction l as [|x l IH]; intros acc; cbn; [set_solver|]. rewrite IH. set_solver.
Qed.

(** Once every direct conflict is out, no input is spent in the pool. *)
Lemma fresh_after_displacement tx s displaced :
  pool_ok s → calculate_tx_id tx ∉ dom (txs s) → NoDup (tx_inputs tx) →
  (∀ h, h ∈ direct_conflicts tx s → h ∈ displaced) → fresh_tx tx (remove_all displaced s).
Proof.
  intros Hok Hh Hnd Hd. pose proof (remove_all_ok displaced s Hok) as Hok'. split_and!; [|done|].
  - rewrite dom_remove_all. set_solver.
  - intros o Ho. destruct (spenders (pool (remove_all displaced s)) !! o) as [k|] eqn:Es; [|done]. exfalso.
    apply (spenders_spec _ (pool_tables _ Hok')) in Es as (t & Et & Hin). rewrite txs_remove_all in Et.
    case_bool_decide as Hk; [done|]. apply Hk, Hd, elem_of_direct_conflicts. exists o. split; [done|].
    apply (spenders_spec _ (pool_tables _ Hok)). eauto.
Qed.
End Tables.

(** ** Admission *)

Section AdmissionInv.
Context {U : U256Ops} {K : Consensus} {T : TxOps}.
Context (env : Env).

(** The pool the last steps of admission run on: nothing conflicts, or the
    replacement passed its checks and the displaced transactions are out. *)
Inductive displaces (tx : Tx) (wits : option (list Witness)) (utxos : coin_map) (vsize : Z) (s : Mempool)
    : gset bytes → Mempool → Prop :=
| displaces_none : direct_conflicts tx s = [] → displaces tx wits utxos vsize s ∅ s
| displaces_some displaced :
    direct_conflicts tx s ≠ [] →
    displacement_set env (direct_conflicts tx s) s = Some displaced →
    replacement_verdict env tx wits utxos (direct_conflicts tx s) displaced vsize s = Ok true →
    displaces tx wits utxos vsize s displaced
      (record_replacement env (calculate_tx_id tx) (direct_conflicts tx s) displaced
         (remove_all (elements displaced) s)).

(** What holds when admission reaches its last steps. *)
Record admissible (tx : Tx) (wits : option (list Witness)) (utxos : coin_map) (wired : bool) (s : Mempool) : Prop := {
  adm_precheck : precheck_rejects env tx wits s = false;
  adm_coins : admission_coins env tx s = Some (utxos, wired);
  adm_spend : spend_rejects env tx wits utxos wired s = false;
  adm_fee : wired = true →
    below_fee_floor env tx (calculate_transaction_fee tx utxos s) (vsize_and_cost env tx wits utxos s).1 s = false;
}.

Lemma admission_inv tx wits s s' r :
  add_transaction_with_witness env tx wits s = (s', r) →
  (s' = s ∧ r ≠ Ok true) ∨
  ∃ utxos (wired : bool) displaced s0,
    let vsize := (vsize_and_cost env tx wits utxos s).1 in
    let fee := if wired then calculate_transaction_fee tx utxos s else 0 in
    admissible tx wits utxos wired s ∧ displaces tx wits utxos vsize s displaced s0 ∧
    (s', r) = finish_admission env tx wits vsize fee (if bool_decide (0 < vsize) then fee / vsize else 0) s0.
Proof.
  unfold add_transaction_with_witness.
  destruct (precheck_rejects env tx wits s) eqn:Ep; [intros [= <- <-]; by left|].
  destruct (admission_coins env tx s) as [[utxos wired]|] eqn:Ec; [|intros [= <- <-]; by left].
  destruct (spend_rejects env tx wits utxos wired s) eqn:Es; [intros [= <- <-]; by left|].
  set (vsize := (vsize_and_cost env tx wits utxos s).1). set (fee := if wired then calculate_transaction_fee tx utxos s else 0).
  destruct (wired && below_fee_floor env tx fee vsize s) eqn:Ef; [intros [= <- <-]; by left|].
  assert (admissible tx wits utxos wired s) as Ha.
  { split; [done|done|done|]. intros ->. done. }
  case_bool_decide as Hd.
  - destruct (existsb _ _) eqn:Ex; [intros [= <- <-]; by left|]. intros E. right.
    exists utxos, wired, ∅, s. split; [done|]. split; [by constructor|done].
  - destruct (displacement_set env _ s) as [displaced|] eqn:Ed; [|intros [= <- <-]; by left].
    destruct (replacement_verdict _ _ _ _ _ _ _ _) as [[]|e] eqn:Ev; [|intros [= <- <-]; by left..].
    intros E. right. eexists utxos, wired, displaced, _. split; [done|]. split; [by constructor|done].
Qed.

(** The parts of the precheck the invariant needs. *)
Lemma precheck_fresh tx wits s :
  precheck_rejects env tx wits s = false → (calculate_tx_id tx ∉ dom (txs s)) ∧ NoDup (tx_inputs tx).
Proof.
  unfold precheck_rejects, in_pool. rewrite !orb_false_iff, negb_false_iff, !bool_decide_eq_false, bool_decide_eq_true.
  rewrite elem_of_dom. naive_solver.
Qed.

(** The displaced transactions are the direct conflicts with their descendants. *)
Lemma displacement_set_spec tx s displaced :
  displacement_set env (direct_conflicts tx s) s = Some displaced →
  ∀ h, h ∈ displaced ↔ ∃ c, c ∈ direct_conflicts tx s ∧ rtc (child_of s) c h.
Proof.
  unfold displacement_set. destruct (allow_package_replacements _).
  - intros [= <-] h. rewrite elem_of_union_of. setoid_rewrite replacement_package_spec. set_solver.
  - destruct (existsb _ _) eqn:Ex; [done|]. intros [= <-] h. rewrite elem_of_list_to_set.
    split; [intros Hh; by exists h|]. intros (c & Hc & Hr).
    assert (size (replacement_package c s) ≤ 1)%nat as Hsz.
    { apply not_true_iff_false in Ex. apply Nat.nlt_ge. intros Hlt. apply Ex, existsb_exists. exists c.
      split; [by apply list_elem_of_In|]. by apply bool_decide_eq_true. }
    apply replacement_package_spec in Hr. pose proof (replacement_package_root s c) as Hroot.
    assert (size (replacement_package c s) ≠ 0%nat) as Hne by (intros E%size_empty_inv; set_solver).
    assert (h = c) as ->; [|done]. by apply (size_singleton_inv (replacement_package c s)); [lia|..].
Qed.

Lemma tracking_remove_all_sub ids s h t :
  rbf_tracking (remove_all ids s) !! h = Some t → rbf_tracking s !! h = Some t.
Proof.
  revert s. induction ids as [|x ids IH]; intros s; cbn; [done|]. change (foldl _ ?a ids) with (remove_all ids a).
  intros E%IH. revert E. unfold remove_transaction. destruct (txs s !! x); [|done].
  destruct (graph_remove _ _ _). cbn. intros [_ E]%lookup_delete_Some. done.
Qed.
Lemma tracking_remove_all ids s h :
  h ∈ ids → h ∈ dom (txs s) → rbf_tracking (remove_all ids s) !! h = None.
Proof.
  revert s. induction ids as [|x ids IH]; intros s Hh Hp; [by apply elem_of_nil in Hh|].
  cbn. change (foldl _ ?a ids) with (remove_all ids a). destruct (decide (h = x)) as [->|Hne].
  - destruct (rbf_tracking (remove_all ids _) !! x) eqn:E; [|done]. apply tracking_remove_all_sub in E.
    apply elem_of_dom in Hp as [tx Etx]. unfold remove_transaction in E. rewrite Etx in E.
    destruct (graph_remove _ _ _). cbn in E. by rewrite lookup_delete_eq in E.
  - apply IH; [by apply elem_of_cons in Hh as [?|?]|]. rewrite txs_remove, dom_delete_L. set_solver.
Qed.

(** The counter of a replacement starts over: the rows it would add to are gone. *)
Lemma next_count_zeros (l : list bytes) (f : bytes → Z) :
  (∀ h, h ∈ l → f h = 0) → next_replacement_count (f <$> l) = 1.
Proof.
  intros H. unfold next_replacement_count. enough (foldr Z.max 0 (f <$> l) = 0) as -> by done.
  induction l as [|x l IH]; [done|]. rewrite fmap_cons. cbn. rewrite IH, H; set_solver.
Qed.
Lemma lookup_delete_keys {A} (ks : list bytes) (m : gmap bytes A) k a :
  foldl (λ m d, delete d m) m ks !! k = Some a → m !! k = Some a.
Proof.
  revert m. induction ks as [|x ks IH]; intros m; cbn; [done|]. intros [_ E]%IH%lookup_delete_Some. done.
Qed.

(** A replacement records one replacement, of the first conflict itself. *)
Lemma record_replacement_row h direct displaced s k t :
  let s' := record_replacement env h direct displaced (remove_all (elements displaced) s) in
  (∀ c, c ∈ direct → c ∈ displaced ∧ c ∈ dom (txs s)) → direct ≠ [] →
  rbf_tracking s' !! k = Some t →
  (k = h ∧ replacement_count t = 1 ∧ original_tx_hash t = default [] (head direct)) ∨
  rbf_tracking s !! k = Some t.
Proof.
  intros s' Hd Hne. subst s'. set (s0 := remove_all (elements displaced) s).
  assert (∀ c, c ∈ direct → rbf_tracking s0 !! c = None) as Hnone.
  { intros c Hc. apply tracking_remove_all; [apply elem_of_elements|]; by apply Hd. }
  unfold record_replacement. cbn [rbf_tracking]. intros E%lookup_delete_keys.
  apply lookup_insert_Some in E as [(<- & <-)|(_ & E)]; [|right; by eapply tracking_remove_all_sub].
  left. split; [done|]. cbn. split.
  - apply next_count_zeros. intros c Hc. by rewrite Hnone.
  - destruct direct as [|d rest]; [done|]. cbn. rewrite Hnone; [done|by left].
Qed.

Lemma displaced_pool_ok tx wits utxos vsize s displaced s0 :
  pool_ok s → displaces tx wits utxos vsize s displaced s0 → precheck_rejects env tx wits s = false →
  pool_ok s0 ∧ fresh_tx tx s0 ∧ (∀ h, txs s0 !! h = if bool_decide (h ∈ displaced) then None else txs s !! h).
Proof.
  intros Hok Hdis (Hh & Hnd)%precheck_fresh. destruct Hdis as [Hd|displaced Hd Hset Hv].
  { split_and!; [done|split_and!; [done|done|by apply no_direct_conflicts]|].
    intros h. by rewrite bool_decide_eq_false_2 by set_solver. }
  assert (∀ c, c ∈ direct_conflicts tx s → c ∈ displaced ∧ c ∈ dom (txs s)) as Hdir.
  { intros c Hc. split; [|by apply (direct_conflict_pooled tx s c (pool_tables _ Hok))].
    apply (displacement_set_spec tx s displaced Hset). by exists c. }
  pose proof (remove_all_ok (elements displaced) s Hok) as [Ht Hg Hf Hr]. split_and!.
  - split; [by destruct Ht|done|done|]. intros k t Hk.
    apply record_replacement_row in Hk as [(_ & -> & _)|Hk]; [done| |done|done]. by apply (pool_tracking _ Hok k).
  - pose proof (fresh_after_displacement tx s (elements displaced) Hok Hh Hnd) as Hfr.
    apply Hfr. intros c Hc. apply elem_of_elements. by apply Hdir.
  - intros h. unfold record_replacement, txs at 1. cbn [pool]. fold (txs (remove_all (elements displaced) s)).
    rewrite txs_remove_all. by rewrite (bool_decide_ext (h ∈ elements displaced) (h ∈ displaced)) by apply elem_of_elements.
Qed.

Lemma admission_ok tx wits s : pool_ok s → pool_ok (add_transaction_with_witness env tx wits s).1.
Proof.
  intros Hok. destruct (add_transaction_with_witness env tx wits s) as [s' r] eqn:E. cbn.
  apply admission_inv in E as [[-> _]|(utxos & wired & displaced & s0 & Ha & Hdis & Hfin)]; [done|].
  destruct (displaced_pool_ok _ _ _ _ _ _ _ Hok Hdis (adm_precheck _ _ _ _ _ Ha)) as (Hok0 & Hfr & _).
  unfold finish_admission in Hfin. destruct (negb _); [by injection Hfin as -> _|].
  destruct (match wits with Some _ => _ | None => _ end); injection Hfin as -> _; [done|]. by apply insert_ok.
Qed.

(** The last steps insert the transaction or change nothing. *)
Lemma finish_cases tx wits vsize fee rate s s' r :
  (s', r) = finish_admission env tx wits vsize fee rate s →
  (s' = s ∧ r = Ok false) ∨
  (s' = insert_accepted tx wits vsize fee rate (current_timestamp env) (sat_sub (tip_height env) 1) s ∧ r = Ok true ∧
   check_ancestor_descendant_limits tx (effective_policy env) vsize s = true).
Proof.
  unfold finish_admission. destruct (check_ancestor_descendant_limits _ _ _ _) eqn:E; cbn.
  - destruct (match wits with Some _ => _ | None => _ end); intros [= -> ->]; [by left|by right].
  - intros [= -> ->]. by left.
Qed.
(** Admission puts in no transaction but its own. *)
Lemma admission_dom tx wits s s' r :
  add_transaction_with_witness env tx wits s = (s', r) →
  dom (txs s') ⊆ match r with Ok true => {[calculate_tx_id tx]} ∪ dom (txs s) | _ => dom (txs s) end.
Proof.
  intros E. apply admission_inv in E as [[-> _]|(utxos & wired & displaced & s0 & _ & Hdis & Hfin)]; [destruct r as [[]|]; set_solver|].
  assert (dom (txs s0) ⊆ dom (txs s)) as Hsub.
  { destruct Hdis as [|displaced _ _ _]; [done|]. unfold record_replacement, txs at 1. cbn [pool].
    fold (txs (remove_all (elements displaced) s)). rewrite dom_remove_all. set_solver. }
  apply finish_cases in Hfin as [[-> ->]|(-> & -> & _)]; [done|]. rewrite txs_insert, dom_insert_L. set_solver.
Qed.
End AdmissionInv.

(** ** The other operations *)

Section OperationsInv.
Context {U : U256Ops} {K : Consensus} {T : TxOps}.

Lemma evict_list_ok ids s : pool_ok s → pool_ok (evict_list ids s).1.1.
Proof.
  revert s. induction ids as [|id ids IH]; intros s Hok; cbn; [done|].
  destruct (txs s !! id) as [tx|] eqn:E; [|by apply IH].
  pose proof (remove_ok id s Hok) as Hok1. destruct (remove_transaction id s) as [s1 b]. cbn in Hok1.
  specialize (IH s1 Hok1). by destruct (evict_list ids s1) as [[s2 n] k].
Qed.
Lemma evict_ok h s : pool_ok s → pool_ok (evict_with_descendants h s).1.1.
Proof. unfold evict_with_descendants. destruct (in_pool h s); [apply evict_list_ok|done]. Qed.
Lemma evict_loop_ok order tb tt cb ct s : pool_ok s → pool_ok (evict_loop order tb tt cb ct s).
Proof.
  revert cb ct s. induction order as [|h order IH]; intros cb ct s Hok; cbn; [done|].
  destruct (_ && _); [done|]. pose proof (evict_ok h s Hok) as H1.
  destruct (evict_with_descendants h s) as [[s1 b] n]. by apply IH.
Qed.
Lemma evict_ordered_ok order tb tt s : pool_ok s → pool_ok (evict_ordered order tb tt s).
Proof. apply evict_loop_ok. Qed.
Hint Resolve evict_ordered_ok evict_ok remove_all_ok : core.

Lemma enforce_ok policy now s : pool_ok s → pool_ok (enforce_mempool_limits policy now s).
Proof.
  intros Hok. unfold enforce_mempool_limits. destruct (_ || _); [|done].
  destruct (eviction_strategy policy); try (by apply evict_ordered_ok).
  unfold evict_no_descendants_first. destruct (_ || _); auto.
Qed.
Lemma cleanup_ok policy now s : pool_ok s → pool_ok (cleanup_old_transactions policy now s).
Proof.
  intros Hok. unfold cleanup_old_transactions. apply enforce_ok. case_bool_decide; [|done].
  generalize (expired policy now s) as l. intros l. revert s Hok.
  induction l as [|h l IH]; intros s Hok; cbn; [done|]. by apply IH, evict_ok.
Qed.

Lemma prioritise_ok h delta s : pool_ok s → pool_ok (prioritise_transaction h delta s).1.
Proof.
  intros [Ht Hg Hf Hr]. unfold prioritise_transaction, in_pool. case_bool_decide as Hin; [|done]. cbn.
  split; [by destruct Ht|done| |done]. destruct Hf as [Hi Hn Hc Hb Hd]. split; try done. cbn.
  rewrite dom_insert_L. apply elem_of_dom in Hin. unfold txs in *. cbn. set_solver.
Qed.
Lemma set_entry_time_ok h time s : pool_ok s → pool_ok (set_entry_time h time s).
Proof.
  intros [[] Hg Hf Hr]. split; [split|..]; try done. cbn. rewrite dom_insert_L. unfold txs in *. cbn. set_solver.
Qed.
Lemma set_preview_ok pv s : pool_ok s → pool_ok (set_preview pv s).
Proof. intros [[] Hg Hf Hr]. by split. Qed.

(** Ranking the pooled transactions rebuilds the fee tables. *)
Lemma rank_all_ok cfg utxos s (rows : list (bytes * Tx)) f D :
  fees_ok f D → NoDup rows.*1 → (∀ p, p ∈ rows → p.1 ∈ D ∧ p.1 ∉ dom (fee_cache f)) →
  fees_ok (foldl (rank_tx cfg utxos s) f rows) D.
Proof.
  revert f. induction rows as [|p rows IH]; intros f Hf Hnd Hrows; cbn; [done|].
  rewrite fmap_cons in Hnd. apply NoDup_cons in Hnd as [Hp Hnd].
  assert (dom (fee_cache (rank_tx cfg utxos s f p)) ⊆ {[p.1]} ∪ dom (fee_cache f)) as Hdom.
  { unfold rank_tx. destruct (ranked_inputs _ _ _ _); cbn; [rewrite dom_insert_L|]; set_solver. }
  apply IH; [|done|].
  - unfold rank_tx. destruct (ranked_inputs _ _ _ _); [|done]. apply fees_insert_ok; [done|apply Hrows; by left..].
  - intros q Hq. split; [apply Hrows; by right|]. intros [E%elem_of_singleton|Hin]%Hdom%elem_of_union.
    + apply Hp. rewrite <-E. apply list_elem_of_fmap. eauto.
    + destruct (Hrows q) as [_ Hx]; [by right|done].
Qed.
Lemma update_fee_index_ok cfg hash utxos s : pool_ok s → pool_ok (update_fee_index cfg hash utxos s).
Proof.
  intros [Ht Hg Hf Hr]. unfold update_fee_index. case_bool_decide; [done|].
  split; [by destruct Ht|done| |done]. cbn [fees]. apply rank_all_ok.
  - split; cbn; try done.
    + intros rate h. rewrite !lookup_empty. split; [by intros Hx%elem_of_nil|done].
    + intros rate. rewrite lookup_empty. apply NoDup_nil_2.
    + apply (deltas_dom _ _ Hf).
  - apply NoDup_fst_map_to_list.
  - intros [h tx] Hp%elem_of_map_to_list. cbn. split; [by apply elem_of_dom|]. rewrite dom_empty_L. set_solver.
Qed.

(** *** Packages and reorganisations *)

Lemma admit_each_ok env package s : pool_ok s → pool_ok (admit_each env package s).1.1.
Proof.
  revert s. induction package as [|p package IH]; intros s Hok; cbn; [done|].
  pose proof (admission_ok env p.1 p.2 s Hok) as H1.
  destruct (add_transaction_with_witness env p.1 p.2 s) as [s1 [ok|e]]; [|done]. cbn in H1.
  specialize (IH s1 H1). by destruct (admit_each env package s1) as [[s2 flags] r].
Qed.
Lemma drop_waived_ok admitted ids acc q : pool_ok acc.1 → pool_ok (drop_waived admitted ids acc q).1.
Proof.
  intros Hok. unfold drop_waived. destruct q as [id closure]. destruct (_ && _); [|done].
  generalize (elements (closure ∩ admitted)) as l. intros l. revert acc Hok.
  induction l as [|m l IH]; intros acc Hok; cbn; [done|]. apply IH. cbn. by apply remove_ok.
Qed.
Lemma drop_all_waived_ok admitted ids rows acc :
  pool_ok acc.1 → pool_ok (foldl (drop_waived admitted ids) acc rows).1.
Proof.
  revert acc. induction rows as [|q rows IH]; intros acc Hacc; cbn; [done|]. by apply IH, drop_waived_ok.
Qed.
Lemma drop_orphans_ok package ids fuel acc : pool_ok acc.1 → pool_ok (drop_orphans package ids fuel acc).1.
Proof.
  assert (∀ acc, pool_ok acc.1 → pool_ok (drop_orphans_pass package ids acc).1) as Hpass.
  { unfold drop_orphans_pass. generalize (imap pair package) as l. intros l.
    induction l as [|q l IH]; intros a Ha; cbn; [done|]. apply IH. destruct (_ && _); [by apply remove_ok|done]. }
  revert acc. induction fuel as [|fuel IH]; intros acc Hok; cbn; [done|]. case_bool_decide; auto.
Qed.
Lemma package_after_admission_ok package waived s flags :
  pool_ok s → pool_ok (package_after_admission package waived s flags).1.
Proof.
  intros Hok. unfold package_after_admission. apply drop_orphans_ok. by apply drop_all_waived_ok.
Qed.
Lemma add_package_ok env package s : pool_ok s → pool_ok (add_package_with_witnesses env package s).1.
Proof.
  intros Hok. unfold add_package_with_witnesses. case_bool_decide; [done|].
  assert (∀ s0 waived, pool_ok s0 →
    pool_ok (let '(s1, flags, outcome) := admit_each env package s0 in
             let '(s2, flags') := package_after_admission package waived (set_waivers ∅ ∅ s1) flags in
             match outcome with Ok _ => (s2, Ok flags') | Err e => (s2, Err e) end).1) as Hgo.
  { intros s0 waived H0. pose proof (admit_each_ok env package s0 H0) as H1.
    destruct (admit_each env package s0) as [[s1 flags] r].
    pose proof (package_after_admission_ok package waived (set_waivers ∅ ∅ s1) flags (set_preview_ok _ _ H1)) as H2.
    destruct (package_after_admission _ _ _ _) as [s2 flags']. by destruct r. }
  destruct (utxo_set_arc env) as [| |coins]; [by apply Hgo|done|]. by apply Hgo, set_preview_ok.
Qed.
Lemma apply_reorg_ok disconnected witnesses connected utxos e s :
  pool_ok s → pool_ok (apply_reorg disconnected witnesses connected utxos e s).
Proof.
  intros Hok. unfold apply_reorg. set (e' := with_slot _ e). clearbody e'.
  assert (pool_ok (foldl (λ s' block, remove_for_connected_block block s') s connected)) as H1.
  { revert s Hok. induction connected as [|b l IH]; intros s Hok; cbn; [done|]. apply IH. by apply remove_all_ok. }
  revert H1. generalize (foldl (λ s' block, remove_for_connected_block block s') s connected) as s1.
  induction (imap _ disconnected) as [|q l IH]; intros s1 H1; cbn; [done|]. apply IH.
  unfold restore_block. revert s1 H1. induction (imap pair q.1) as [|p l' IH']; intros s1 H1; cbn; [done|].
  apply IH'. destruct (is_coinbase p.2); [done|]. by apply admission_ok.
Qed.
End OperationsInv.
