(* ===== verification/MempoolEvict.v ===== *)
(** * MempoolEvict: eviction keeps its accounts and meets the caps

    The bytes and the count an eviction reports are exactly what left the pool,
    what leaves is a transaction with its recorded descendants, and when the
    limits are enforced the byte cap and the count cap hold, whatever strategy
    orders the evictions. *)

From stdpp Require Import sorting.
From S2P Require Import Prelude Bytes Interfaces UtxoSnapshot Graph TxPolicy Mempool MempoolInv.
Open Scope Z_scope.

(** ** Accounting *)

Section Accounting.
Context {U : U256Ops} {K : Consensus} {T : TxOps}.

(** The length of a serialisation. *)
Class TxSizeLaw : Prop := serialized_len_nonneg : ∀ tx, 0 ≤ serialized_len tx.

Definition row_bytes (s : Mempool) (p : bytes * Tx) : Z :=
  accounted_tx_bytes p.2 (tx_witnesses (pool s) !! p.1).

Lemma size_bytes_remove h tx s :
  txs s !! h = Some tx →
  mempool_size_bytes s = row_bytes s (h, tx) + mempool_size_bytes (remove_transaction h s).1 ∧
  size (txs s) = S (size (txs (remove_transaction h s).1)).
Proof.
  intros E. rewrite txs_remove. split.
  - unfold mempool_size_bytes. rewrite txs_remove.
    transitivity (sum_z (row_bytes s <$> (h, tx) :: map_to_list (delete h (txs s)))).
    { apply sum_z_perm, fmap_Permutation. symmetry. by apply map_to_list_delete. }
    rewrite fmap_cons. cbn [sum_z foldr]. f_equal. apply (f_equal (foldr Z.add 0)), list_fmap_ext.
    intros i [k t] Hk%list_elem_of_lookup_2%elem_of_map_to_list. apply lookup_delete_Some in Hk as [Hne _].
    unfold row_bytes, remove_transaction. rewrite E. destruct (graph_remove _ _ _). cbn.
    by rewrite lookup_delete_ne by done.
  - rewrite map_size_delete, E. apply elem_of_dom_2 in E. pose proof (size_dom (txs s)) as Hs.
    assert (size (dom (txs s)) ≠ 0%nat) by (intros ?%size_empty_inv; set_solver). lia.
Qed.

Lemma evict_list_spec ids s s' b n :
  evict_list ids s = (s', b, n) →
  s' = remove_all ids s ∧ mempool_size_bytes s = b + mempool_size_bytes s' ∧
  size (txs s) = (n + size (txs s'))%nat.
Proof.
  revert s s' b n. induction ids as [|id ids IH]; intros s s' b n; cbn [evict_list].
  { intros [= <- <- <-]. done. }
  destruct (txs s !! id) as [tx|] eqn:E.
  - destruct (size_bytes_remove id tx s E) as [Hb Hn].
    assert ((remove_transaction id s).2 = true) as Hr.
    { unfold remove_transaction. rewrite E. by destruct (graph_remove _ _ _). }
    destruct (remove_transaction id s) as [s1 r] eqn:Er. cbn in Hr, Hb, Hn. subst r.
    destruct (evict_list ids s1) as [[s2 b2] n2] eqn:E2. intros [= <- <- <-].
    destruct (IH _ _ _ _ E2) as (-> & Hb2 & Hn2). split_and!.
    + cbn. by rewrite Er.
    + rewrite Hb. unfold row_bytes in *. cbn in *. lia.
    + lia.
  - intros E2. destruct (IH _ _ _ _ E2) as (-> & Hb2 & Hn2). split_and!; [|done|done].
    cbn. unfold remove_transaction. by rewrite E.
Qed.

Lemma accounted_nonneg `{!TxSizeLaw} tx wits : 0 ≤ accounted_tx_bytes tx wits.
Proof.
  unfold accounted_tx_bytes. generalize (default [] wits) as stacks. intros stacks.
  pose proof (serialized_len_nonneg tx) as Hlen. revert Hlen. generalize (serialized_len tx) as n.
  induction stacks as [|st stacks IH]; intros n Hn; cbn; [done|]. apply IH.
  revert n Hn. induction st as [|item st IHs]; intros n Hn; cbn; [done|]. apply IHs.
  unfold sat_add, u64_max. lia.
Qed.
Lemma size_bytes_nonneg `{!TxSizeLaw} s : 0 ≤ mempool_size_bytes s.
Proof.
  unfold mempool_size_bytes. induction (map_to_list (txs s)) as [|p l IH]; [done|].
  rewrite fmap_cons. cbn [foldr]. pose proof (accounted_nonneg p.2 (tx_witnesses (pool s) !! p.1)). lia.
Qed.
Lemma size_bytes_empty s : dom (txs s) = ∅ → mempool_size_bytes s = 0 ∧ size (txs s) = 0%nat.
Proof. intros E%dom_empty_inv_L. unfold mempool_size_bytes. by rewrite E. Qed.

(** An eviction removes the transaction with its recorded descendants. *)
Lemma evict_spec h s s' b n :
  evict_with_descendants h s = (s', b, n) →
  mempool_size_bytes s = b + mempool_size_bytes s' ∧ size (txs s) = (n + size (txs s'))%nat ∧
  txs s' !! h = None ∧
  (∀ x, txs s' !! x = if bool_decide (h ∈ dom (txs s) ∧ x ∈ replacement_package h s) then None else txs s !! x).
Proof.
  unfold evict_with_descendants, in_pool. case_bool_decide as Hin.
  - intros E. destruct (evict_list_spec _ _ _ _ _ E) as (-> & Hb & Hn). split_and!; [done|done| |].
    + rewrite txs_remove_all. rewrite bool_decide_eq_true_2; [done|]. apply elem_of_elements, replacement_package_root.
    + intros x. rewrite txs_remove_all. apply elem_of_dom in Hin.
      by rewrite (bool_decide_ext (x ∈ elements (replacement_package h s)) (h ∈ dom (txs s) ∧ x ∈ replacement_package h s))
        by (rewrite elem_of_elements; naive_solver).
  - intros [= <- <- <-]. apply eq_None_not_Some in Hin. split_and!; [done|done|done|]. intros x.
    rewrite bool_decide_eq_false_2; [done|]. intros [Hx _]. apply elem_of_dom in Hx as [? ?]. congruence.
Qed.

(** ** The caps *)

Definition within (tb tt : Z) (s : Mempool) : Prop := mempool_size_bytes s ≤ tb ∧ Z.of_nat (size (txs s)) ≤ tt.

Lemma evict_loop_spec `{!TxSizeLaw} order tb tt s :
  let s' := evict_loop order tb tt (mempool_size_bytes s) (Z.of_nat (size (txs s))) s in
  dom (txs s') ⊆ dom (txs s) ∧ (within tb tt s' ∨ ∀ h, h ∈ order → h ∉ dom (txs s')).
Proof.
  cbn. revert s. induction order as [|h order IH]; intros s; cbn.
  { split; [done|]. right. intros h Hh. by apply elem_of_nil in Hh. }
  destruct (_ && _) eqn:Hstop.
  { apply andb_true_iff in Hstop as [H1%bool_decide_eq_true H2%bool_decide_eq_true]. split; [done|by left]. }
  destruct (evict_with_descendants h s) as [[s1 b] n] eqn:E.
  destruct (evict_spec _ _ _ _ _ E) as (Hb & Hn & Hh & Hx).
  assert (sat_sub (mempool_size_bytes s) b = mempool_size_bytes s1) as ->
    by (pose proof (size_bytes_nonneg s1); unfold sat_sub; lia).
  assert (sat_sub (Z.of_nat (size (txs s))) (Z.of_nat n) = Z.of_nat (size (txs s1))) as -> by (unfold sat_sub; lia).
  destruct (IH s1) as [Hd Hres].
  assert (dom (txs s1) ⊆ dom (txs s)) as Hd1.
  { intros x Hd1. apply elem_of_dom in Hd1 as [t Ht]. rewrite Hx in Ht. case_bool_decide; [done|]. by apply elem_of_dom. }
  split; [set_solver|]. destruct Hres as [?|Hres]; [by left|]. right. intros x [->|Hin]%elem_of_cons; [|by apply Hres].
  intros Hc%Hd. by apply elem_of_dom in Hc as [? ?]; congruence.
Qed.

(** An order that covers the pool is enough to meet both caps. *)
Lemma evict_ordered_within `{!TxSizeLaw} order tb tt s :
  0 ≤ tb → 0 ≤ tt → (∀ h, h ∈ dom (txs s) → h ∈ order) → within tb tt (evict_ordered order tb tt s).
Proof.
  intros Hb Ht Hcov. unfold evict_ordered. destruct (evict_loop_spec order tb tt s) as [Hd [?|Hres]]; [done|].
  set (s' := evict_loop _ _ _ _ _ _) in *. assert (dom (txs s') = ∅) as He.
  { apply elem_of_equiv_empty_L. intros x Hx. apply (Hres x); [apply Hcov, Hd, Hx|done]. }
  destruct (size_bytes_empty s' He) as [E1 E2]. unfold within. rewrite E1, E2. done.
Qed.

Lemma elem_of_sort {A} (key : A → Z) (l : list A) x : x ∈ sort_by_key key l ↔ x ∈ l.
Proof. unfold sort_by_key. by rewrite (merge_sort_Permutation (key_le key) l). Qed.
Lemma elem_of_pool_hashes s h : h ∈ pool_hashes s ↔ h ∈ dom (txs s).
Proof.
  unfold pool_hashes. rewrite elem_of_dom. split.
  - intros ([k t] & -> & Hk%elem_of_map_to_list)%list_elem_of_fmap. eauto.
  - intros [t Ht]. apply list_elem_of_fmap. exists (h, t). split; [done|]. by apply elem_of_map_to_list.
Qed.
Lemma hashes_by_fee_cover s h : h ∈ dom (txs s) → h ∈ hashes_by_ascending_fee s.
Proof. intros. unfold hashes_by_ascending_fee. by rewrite elem_of_sort, elem_of_pool_hashes. Qed.
Lemma spam_order_cover s h :
  h ∈ dom (txs s) →
  h ∈ sort_by_key (rate_of s) (filter (λ p, spam_row s p = true) (map_to_list (txs s))).*1 ++
      sort_by_key (rate_of s) (filter (λ p, spam_row s p = false) (map_to_list (txs s))).*1.
Proof.
  intros [t Ht]%elem_of_dom. apply elem_of_map_to_list in Ht. rewrite elem_of_app, !elem_of_sort, !list_elem_of_fmap.
  destruct (spam_row s (h, t)) eqn:E; [left|right]; exists (h, t); (split; [done|]); by apply list_elem_of_filter.
Qed.

Lemma enforce_within `{!TxSizeLaw} policy now s :
  pool_ok s → 0 ≤ max_mempool_mb policy → 0 ≤ max_mempool_txs policy →
  within (sat_mul (max_mempool_mb policy) 1048576) (max_mempool_txs policy) (enforce_mempool_limits policy now s).
Proof.
  intros Hok Hmb Htx. unfold enforce_mempool_limits. set (cap := sat_mul _ _).
  assert (0 ≤ cap) as Hcap by (subst cap; unfold sat_mul, u64_max; lia).
  destruct (_ || _) eqn:Hover; last first.
  { apply orb_false_iff in Hover as [H1%bool_decide_eq_false H2%bool_decide_eq_false]. split; lia. }
  clear Hover. destruct (eviction_strategy policy); try (apply evict_ordered_within; [done|done|]).
  - apply hashes_by_fee_cover.
  - intros h Hh. rewrite elem_of_sort, list_elem_of_filter, elem_of_pool_hashes. split; [|done].
    apply elem_of_dom. by apply (times_dom _ (pool_tables _ Hok)).
  - intros h Hh. apply elem_of_dom in Hh as [t Ht]. apply list_elem_of_fmap. exists (h, t). split; [done|].
    by apply elem_of_sort, elem_of_map_to_list.
  - unfold evict_no_descendants_first. set (s1 := evict_ordered _ _ _ _).
    destruct (_ || _) eqn:H1; [by apply evict_ordered_within, hashes_by_fee_cover|].
    apply orb_false_iff in H1 as [H1%bool_decide_eq_false H2%bool_decide_eq_false]. split; lia.
  - intros h Hh. by rewrite elem_of_sort, elem_of_pool_hashes.
  - apply spam_order_cover.
Qed.
End Accounting.
