(* ===== verification/MempoolLimits.v ===== *)
(** * MempoolLimits: the ancestor and descendant check

    The walk of the check collects exactly the transitive visible parents of a
    candidate, and the check gives the same answer before a replacement removes
    what it displaces, where a dry run makes it, and after, where admission does. *)

From S2P Require Import Prelude Bytes Interfaces UtxoSnapshot Graph TxPolicy Mempool MempoolInv MempoolEvict.
Open Scope Z_scope.

Lemma forallb_ext_elem {A} (f g : A → bool) (l : list A) :
  (∀ x, x ∈ l → f x = g x) → forallb f l = forallb g l.
Proof. induction l as [|x l IH]; intros H; cbn; [done|]. rewrite H, IH; set_solver. Qed.

Section LimitWalk.
Context {U : U256Ops} {K : Consensus} {T : TxOps}.

(** One step up: a visible parent. *)
Definition parent_of (s : Mempool) (removed : gset bytes) : bytes → bytes → Prop := edge (visible_parents s removed).
Definition seeds (tx : Tx) (s : Mempool) (removed : gset bytes) : list bytes :=
  filter (λ p, visible s removed p = true) (op_hash <$> tx_inputs tx).

Lemma ancestors_of_spec tx s removed y :
  y ∈ ancestors_of tx s removed ↔ ∃ p, p ∈ seeds tx s removed ∧ rtc (parent_of s removed) p y.
Proof.
  unfold ancestors_of. fold (seeds tx s removed). set (S0 := list_to_set (seeds tx s removed) : gset bytes).
  set (D := dom (txs s) ∪ dom (pv_txs (package_preview s))).
  assert (∀ x, x ∉ D → visible_parents s removed x = []) as HD.
  { intros x Hx. unfold visible_parents. unfold D in Hx. rewrite not_elem_of_union, !not_elem_of_dom in Hx.
    destruct Hx as [E1 E2]. unfold txs in *. by rewrite E1, E2. }
  rewrite (mark_on_push_spec _ D HD).
  - split.
    + intros [Hy|(x & Hx & Hr)].
      * exists y. split; [|done]. by apply elem_of_list_to_set in Hy.
      * exists x. apply elem_of_elements, elem_of_list_to_set in Hx. split; [done|]. by apply tc_rtc.
    + intros (p & Hp & Hr). apply rtc_tc in Hr as [->|Hr]; [left; by apply elem_of_list_to_set|].
      right. exists p. split; [|done]. by apply elem_of_elements, elem_of_list_to_set.
  - pose proof (size_range (visible_parents s removed) D) as Hrange. pose proof (size_list_to_set_le (seeds tx s removed)) as Hs.
    fold S0 in Hs. change (length (elements S0)) with (size S0).
    assert (size (range (visible_parents s removed) D ∖ S0) ≤ size (range (visible_parents s removed) D))%nat
      by (apply subseteq_size; set_solver). lia.
  - intros x z Hx _. left. by apply elem_of_elements.
Qed.

(** Recorded children, as the closure of the check walks them. *)
Definition recorded (m : graph) : bytes → bytes → Prop := edge (children m).
Lemma recorded_spec m p c : recorded m p c ↔ c ∈ members m p.
Proof. unfold recorded, edge, children, members. apply elem_of_elements. Qed.
Lemma descendant_closure_spec m root y : y ∈ descendant_closure m root ↔ tc (recorded m) root y.
Proof.
  unfold descendant_closure. apply (mark_on_push_root _ (dom m)); [|lia].
  intros x Hx. unfold children. apply not_elem_of_dom in Hx. rewrite Hx. cbn. by rewrite elements_empty.
Qed.

(** ** The check before and after a replacement removes its conflicts *)

Lemma members_remove x s p :
  pool_ok s →
  members (tx_descendants (remove_transaction x s).1) p =
    if bool_decide (p = x) then ∅ else members (tx_descendants s) p ∖ {[x]}.
Proof.
  intros [_ [Hd1 Hd2 Hsym Hsp] _ _]. unfold remove_transaction. destruct (txs s !! x) as [tx|] eqn:E.
  - destruct (graph_remove x _ _) as [deps desc] eqn:G. cbn.
    by destruct (graph_remove_members _ _ _ _ _ Hsym G) as (_ & _ & _ & ->).
  - cbn. apply not_elem_of_dom in E. case_bool_decide as Hp.
    + subst. unfold members. rewrite (proj1 (not_elem_of_dom _ _)); [done|]. by rewrite Hd2.
    + assert (x ∉ members (tx_descendants s) p); [|set_solver].
      intros (t & Ht & _)%Hsp. apply E. by apply elem_of_dom.
Qed.
Lemma members_remove_all ids s p :
  pool_ok s →
  members (tx_descendants (remove_all ids s)) p =
    if bool_decide (p ∈ ids) then ∅ else members (tx_descendants s) p ∖ list_to_set ids.
Proof.
  revert s. induction ids as [|x ids IH]; intros s Hok; cbn [remove_all foldl].
  { rewrite bool_decide_eq_false_2 by apply not_elem_of_nil. set_solver. }
  change (foldl _ ?a ids) with (remove_all ids a). rewrite IH, members_remove by (done || by apply remove_ok).
  repeat case_bool_decide; set_solver.
Qed.
Lemma vsize_remove_all ids s h :
  h ∉ ids → adjusted_vsize (pool (remove_all ids s)) !! h = adjusted_vsize (pool s) !! h.
Proof.
  revert s. induction ids as [|x ids IH]; intros s Hh; cbn [remove_all foldl]; [done|].
  change (foldl _ ?a ids) with (remove_all ids a). rewrite IH by set_solver.
  unfold remove_transaction. destruct (txs s !! x); [|done]. destruct (graph_remove _ _ _). cbn.
  rewrite lookup_delete_ne; [done|]. set_solver.
Qed.

Lemma preview_remove_all ids s : package_preview (remove_all ids s) = package_preview s.
Proof.
  revert s. induction ids as [|x ids IH]; intros s; cbn [remove_all foldl]; [done|].
  change (foldl _ ?a ids) with (remove_all ids a). rewrite IH. unfold remove_transaction.
  destruct (txs s !! x); [|done]. by destruct (graph_remove _ _ _).
Qed.

(** No package is being previewed. *)
Definition no_preview (s : Mempool) : Prop :=
  pv_txs (package_preview s) = ∅ ∧ pv_descendants (package_preview s) = ∅.

Section Displaced.
Context (tx : Tx) (s s0 : Mempool) (displaced : gset bytes).
Hypothesis s_ok : pool_ok s.
Hypothesis s_preview : no_preview s.
Hypothesis is_displaced : ∀ h, h ∈ displaced ↔ ∃ c, c ∈ direct_conflicts tx s ∧ rtc (child_of s) c h.
(** [s0] is [s] without the displaced transactions, whatever its other tables. *)
Hypothesis s0_pool : pool s0 = pool (remove_all (elements displaced) s).
Hypothesis s0_desc : tx_descendants s0 = tx_descendants (remove_all (elements displaced) s).
Hypothesis s0_preview : package_preview s0 = package_preview s.

Lemma displaced_removes : txs_this_replacement_removes tx s = displaced.
Proof.
  apply set_eq. intros h. unfold txs_this_replacement_removes. rewrite elem_of_union_of, is_displaced.
  setoid_rewrite replacement_package_spec. set_solver.
Qed.
Lemma s0_txs h : txs s0 !! h = if bool_decide (h ∈ displaced) then None else txs s !! h.
Proof.
  unfold txs at 1. rewrite s0_pool. fold (txs (remove_all (elements displaced) s)). rewrite txs_remove_all.
  by rewrite (bool_decide_ext (h ∈ elements displaced) (h ∈ displaced)) by apply elem_of_elements.
Qed.
Lemma s0_no_conflict : direct_conflicts tx s0 = [].
Proof.
  pose proof (remove_all_ok (elements displaced) s s_ok) as Hok.
  destruct (direct_conflicts tx s0) as [|h l] eqn:E; [done|]. exfalso.
  assert (h ∈ direct_conflicts tx s0) as Hh by (rewrite E; by left).
  apply elem_of_direct_conflicts in Hh as (o & Ho & Hs). rewrite s0_pool in Hs.
  apply (spenders_spec _ (pool_tables _ Hok)) in Hs as (t & Ht & Hin). rewrite txs_remove_all in Ht.
  case_bool_decide as Hd; [done|]. apply Hd, elem_of_elements, is_displaced. exists h. split; [|done].
  apply elem_of_direct_conflicts. exists o. split; [done|]. apply (spenders_spec _ (pool_tables _ s_ok)). eauto.
Qed.

Lemma visible_same p : visible s displaced p = visible s0 ∅ p.
Proof.
  unfold visible, in_pool. rewrite s0_preview. destruct s_preview as [-> _]. rewrite s0_txs.
  rewrite (bool_decide_eq_false_2 (p ∈ ∅)) by set_solver. case_bool_decide; cbn; [|done].
  rewrite !bool_decide_eq_false_2; [done|..]; rewrite ?lookup_empty; by intros [? ?].
Qed.
Lemma parents_same x : x ∉ displaced → visible_parents s displaced x = visible_parents s0 ∅ x.
Proof.
  intros Hx. unfold visible_parents. rewrite s0_txs, bool_decide_eq_false_2 by done. rewrite s0_preview.
  destruct (txs s !! x) as [t|]; [|destruct s_preview as [-> _]; done].
  apply list_filter_iff. intros p. by rewrite visible_same.
Qed.
Lemma parents_visible x p : p ∈ visible_parents s displaced x → p ∉ displaced.
Proof.
  unfold visible_parents. destruct (txs s !! x).
  - intros [Hv _]%list_elem_of_filter. unfold visible in Hv. apply andb_true_iff in Hv as [Hv _].
    by apply negb_true_iff, bool_decide_eq_false in Hv.
  - destruct s_preview as [E _]. rewrite E, lookup_empty. by intros ?%elem_of_nil.
Qed.

Lemma ancestors_same : ancestors_of tx s displaced = ancestors_of tx s0 ∅.
Proof.
  assert (seeds tx s displaced = seeds tx s0 ∅) as Hseeds.
  { unfold seeds. apply list_filter_iff. intros p. by rewrite visible_same. }
  assert (∀ p, p ∈ seeds tx s displaced → p ∉ displaced) as Hout.
  { intros p [Hv _]%list_elem_of_filter. unfold visible in Hv. apply andb_true_iff in Hv as [Hv _].
    by apply negb_true_iff, bool_decide_eq_false in Hv. }
  apply set_eq. intros y. rewrite !ancestors_of_spec. rewrite <-Hseeds.
  split; intros (p & Hp & Hr); exists p; (split; [done|]); pose proof (Hout p Hp) as Hd; clear Hp;
    induction Hr as [|a b c Hab Hbc IH]; [done| |done|].
  - pose proof (parents_visible a b Hab) as Hb. apply (rtc_l _ _ b); [|by apply IH].
    unfold parent_of, edge in *. by rewrite <-parents_same.
  - unfold parent_of, edge in Hab. rewrite <-parents_same in Hab by done.
    pose proof (parents_visible a b Hab) as Hb. apply (rtc_l _ _ b); [done|by apply IH].
Qed.
Lemma ancestors_stay a : a ∈ ancestors_of tx s displaced → a ∉ displaced.
Proof.
  rewrite ancestors_of_spec. intros (p & Hp & Hr).
  assert (p ∉ displaced) as Hd.
  { apply list_elem_of_filter in Hp as [Hv _]. unfold visible in Hv. apply andb_true_iff in Hv as [Hv _].
    by apply negb_true_iff, bool_decide_eq_false in Hv. }
  apply rtc_inv_r in Hr as [->|(b & _ & Hb)]; [done|]. by eapply parents_visible.
Qed.

Lemma displaced_closed p c : p ∈ displaced → recorded (tx_descendants s) p c → c ∈ displaced.
Proof.
  rewrite recorded_spec. intros (d & Hd & Hr)%is_displaced Hc. apply is_displaced. exists d. split; [done|].
  eapply rtc_r; [done|]. apply child_of_spec. split; [|done].
  apply (graph_spends _ _ _ (pool_graph _ s_ok)) in Hc as (t & Ht & _). by apply elem_of_dom.
Qed.
Lemma recorded_s0 p c :
  recorded (tx_descendants s0) p c ↔ recorded (tx_descendants s) p c ∧ (p ∉ displaced) ∧ (c ∉ displaced).
Proof.
  rewrite !recorded_spec, s0_desc, members_remove_all by done. rewrite list_to_set_elements_L.
  rewrite (bool_decide_ext (p ∈ elements displaced) (p ∈ displaced)) by apply elem_of_elements.
  case_bool_decide; set_solver.
Qed.
Lemma closure_s0 a y :
  a ∉ displaced → tc (recorded (tx_descendants s0)) a y ↔ tc (recorded (tx_descendants s)) a y ∧ (y ∉ displaced).
Proof.
  assert (∀ x z, tc (recorded (tx_descendants s)) x z → x ∈ displaced → z ∈ displaced) as Hclosed.
  { intros x z Hxz. induction Hxz; eauto using displaced_closed. }
  intros Ha. split.
  - intros Hr. induction Hr as [x z Hxz|x z w Hxz Hzw IH]; apply recorded_s0 in Hxz as (Hx & _ & Hz).
    + split; [by apply tc_once|done].
    + destruct (IH Hz) as [Hzw' Hw]. split; [by apply (tc_l _ _ z)|done].
  - intros [Hr Hy]. induction Hr as [x z Hxz|x z w Hxz Hzw IH]; [by apply tc_once, recorded_s0|].
    assert (z ∉ displaced) as Hz by (intros ?; by apply Hy, (Hclosed z)).
    apply (tc_l _ _ z); [by apply recorded_s0|by apply IH].
Qed.

Lemma existing_same a : a ∉ displaced → existing_descendants s displaced a = existing_descendants s0 ∅ a.
Proof.
  intros Ha. apply set_eq. intros y. unfold existing_descendants. rewrite s0_preview. destruct s_preview as [_ E]. rewrite E.
  rewrite !elem_of_difference, !elem_of_union, !descendant_closure_spec, closure_s0 by done.
  assert (¬ tc (recorded (∅ : graph)) a y) as Hno.
  { intros Hr. inversion Hr as [? ? Hx|? ? ? Hx]; subst; apply recorded_spec in Hx; unfold members in Hx;
      rewrite lookup_empty in Hx; cbn in Hx; set_solver. }
  set_solver.
Qed.
Lemma vsize_same h : h ∉ displaced → vsize_of s h = vsize_of s0 h.
Proof.
  intros Hh. unfold vsize_of. rewrite s0_pool, vsize_remove_all, s0_preview; [done|]. by rewrite elem_of_elements.
Qed.
Lemma total_vsize_same (X : gset bytes) : (∀ h, h ∈ X → h ∉ displaced) → total_vsize s X = total_vsize s0 X.
Proof.
  intros HX. unfold total_vsize. f_equal. apply list_fmap_ext. intros i h Hh%list_elem_of_lookup_2.
  by apply vsize_same, HX, elem_of_elements.
Qed.

Lemma limits_same policy vsize :
  check_ancestor_descendant_limits tx policy vsize s = check_ancestor_descendant_limits tx policy vsize s0.
Proof.
  unfold check_ancestor_descendant_limits. rewrite displaced_removes.
  assert (txs_this_replacement_removes tx s0 = ∅) as ->.
  { unfold txs_this_replacement_removes. by rewrite s0_no_conflict. }
  pose proof ancestors_stay as Hstay. rewrite <-ancestors_same.
  rewrite (total_vsize_same (ancestors_of tx s displaced)) by exact Hstay.
  f_equal. apply forallb_ext_elem. intros a Ha. apply elem_of_elements, Hstay in Ha.
  unfold descendant_limits_ok. rewrite <-existing_same, <-vsize_same by done.
  rewrite (total_vsize_same (existing_descendants s displaced a)); [done|].
  unfold existing_descendants. set_solver.
Qed.
End Displaced.
End LimitWalk.
