(* ===== verification/MempoolFile.v ===== *)
(** * MempoolFile: the pool on disk

    [src/node/core_mempool_dat.rs], the [mempool.dat] layout, and saving and
    loading in [src/node/mempool.rs].  The transaction encoding of
    [blvm-protocol] is the class [TxWire]; the sizes in memory of a
    [CoreMempoolTx] and of a decoded entry of the older layout, which bound what
    [Vec::with_capacity] accepts, are part of it. *)

From S2P Require Import Prelude Bytes Interfaces UtxoSnapshot Wire TxPolicy Mempool MempoolInv.
Open Scope Z_scope.

(** [serialize_transaction] and [deserialize_transaction_with_witness]: the
    transaction, a stack per input and the bytes read. *)
Class TxWire := {
  serialize_transaction : Tx → bytes;
  deserialize_with_witness : bytes → result (Tx * list Witness * nat);
  core_tx_size : Z;
  persisted_tx_size : Z;
}.
Definition some_stack (wits : list Witness) : bool := existsb (λ w, negb (bool_decide (w = []))) wits.
(** On the transactions [ok] describes both encodings read back, whatever
    follows: with a stack per input, as the pool keeps them, the stacks come
    back, and where none holds an item all come back empty. *)
Class TxWireLaws {T : TxOps} (W : TxWire) (ok : Tx → Prop) : Prop := {
  wire_legacy : ∀ tx, ok tx → ∃ wits, some_stack wits = false ∧
    ∀ rest, deserialize_with_witness (serialize_transaction tx ++ rest) = Ok (tx, wits, length (serialize_transaction tx));
  wire_witness : ∀ tx wits, ok tx → length wits = length (tx_ins tx) →
    ∃ bs wits', serialize_with_witness tx wits = Some bs ∧
      some_stack wits' = some_stack wits ∧ (some_stack wits = true → wits' = wits) ∧
      ∀ rest, deserialize_with_witness (bs ++ rest) = Ok (tx, wits', length bs);
}.

Record CoreMempoolTx := mkCoreTx { ct_tx : Tx; ct_witnesses : option (list Witness); ct_time : Z; ct_fee_delta : Z }.
Record CoreMempoolDat := mkDat { dat_txs : list CoreMempoolTx; dat_deltas : list (bytes * Z); dat_unbroadcast : list bytes }.

(** [i64::to_le_bytes] and [i64::from_le_bytes]. *)
Definition i64_le (z : Z) : bytes := to_le 8 (as_u64 z).
Definition i64_of (bs : bytes) : Z := as_i64 (of_le bs).

Section Dat.
Context {T : TxOps} {W : TxWire}.

(** ** Encoding *)

Definition encode_tx (tx : Tx) (wits : option (list Witness)) : result bytes :=
  match wits with
  | Some w => of_option "serialize" (serialize_with_witness tx w)
  | None => Ok (serialize_transaction tx)
  end.
Fixpoint encode_txs (l : list CoreMempoolTx) : result bytes :=
  match l with
  | [] => Ok []
  | e :: l' =>
      let+ bs := encode_tx (ct_tx e) (ct_witnesses e) in
      let+ rest := encode_txs l' in
      Ok (bs ++ i64_le (ct_time e) ++ i64_le (ct_fee_delta e) ++ rest)
  end.
Definition encode_deltas (l : list (bytes * Z)) : bytes := mjoin ((λ q : bytes * Z, q.1 ++ i64_le q.2) <$> l).
Definition encode (dump : CoreMempoolDat) : result bytes :=
  let+ body := encode_txs (dat_txs dump) in
  Ok (to_le 8 1 ++ to_le 8 (Z.of_nat (length (dat_txs dump))) ++ body ++
      push_compact (Z.of_nat (length (dat_deltas dump))) ++ encode_deltas (dat_deltas dump) ++
      push_compact (Z.of_nat (length (dat_unbroadcast dump))) ++ mjoin (dat_unbroadcast dump)).

(** ** Decoding *)

Definition normal_witnesses (wits : list Witness) : option (list Witness) := if some_stack wits then Some wits else None.
Fixpoint read_txs (count : nat) (data : bytes) : result (list CoreMempoolTx * bytes) :=
  match count with
  | 0%nat => Ok ([], data)
  | S count' =>
      let+ r := deserialize_with_witness data in
      let '(tx, wits, used) := r in
      if bool_decide (length data < used + 16)%nat then Err "mempool.dat transaction trailer is truncated"
      else
        let e := mkCoreTx tx (normal_witnesses wits) (i64_of (slice used 8 data)) (i64_of (slice (used + 8) 8 data)) in
        let+ r' := read_txs count' (drop (used + 16) data) in
        Ok (e :: r'.1, r'.2)
  end.
Fixpoint read_deltas (count : nat) (data : bytes) : result (list (bytes * Z) * bytes) :=
  match count with
  | 0%nat => Ok ([], data)
  | S count' =>
      if bool_decide (length data < 40)%nat then Err "mempool.dat fee delta is truncated"
      else
        let+ r := read_deltas count' (drop 40 data) in
        Ok ((take 32 data, i64_of (slice 32 8 data)) :: r.1, r.2)
  end.
Fixpoint read_txids (count : nat) (data : bytes) : result (list bytes * bytes) :=
  match count with
  | 0%nat => Ok ([], data)
  | S count' =>
      if bool_decide (length data < 32)%nat then Err "mempool.dat unbroadcast set is truncated"
      else
        let+ r := read_txids count' (drop 32 data) in
        Ok (take 32 data :: r.1, r.2)
  end.

Definition parse_body (data : bytes) : result CoreMempoolDat :=
  if bool_decide (length data < 8)%nat then Err "mempool.dat transaction count is truncated"
  else
    let count := of_le (take 8 data) in
    let+ _ := with_capacity count core_tx_size in
    let+ r := read_txs (Z.to_nat count) (drop 8 data) in
    let '(txs, data1) := r in
    let+ c := of_option "compact size is truncated" (read_compact data1) in
    let '(delta_count, used) := c in
    let+ _ := with_capacity delta_count 40 in
    let+ r1 := read_deltas (Z.to_nat delta_count) (drop used data1) in
    let '(deltas, data2) := r1 in
    let+ c' := of_option "compact size is truncated" (read_compact data2) in
    let '(unbroadcast_count, used') := c' in
    let+ _ := with_capacity unbroadcast_count 32 in
    let+ r2 := read_txids (Z.to_nat unbroadcast_count) (drop used' data2) in
    let '(unbroadcast, data3) := r2 in
    if negb (bool_decide (data3 = [])) then Err "mempool.dat has trailing bytes"
    else Ok (mkDat txs deltas unbroadcast).

(** [byte ^ key[offset % 8]] from file offset [start] on. *)
Definition xor_key (key : bytes) (offset : nat) (b : Byte.byte) : Byte.byte :=
  z2b (Z.lxor (b2z b) (b2z (default Byte.x00 (key !! (offset mod 8)%nat)))).
Definition xor_body (key : bytes) (start : nat) (body : bytes) : bytes := imap (λ i, xor_key key (start + i)) body.

Definition decode (bs : bytes) : result CoreMempoolDat :=
  if bool_decide (length bs < 8)%nat then Err "mempool.dat is shorter than a version"
  else
    let version := of_le (take 8 bs) in
    if bool_decide (version = 2) then
      let+ c := of_option "compact size is truncated" (read_compact (drop 8 bs)) in
      let '(key_len, used) := c in
      if negb (bool_decide (key_len = 8)) then Err "mempool.dat version 2 key is not 8 bytes"
      else
        let key_at := (8 + used)%nat in
        if bool_decide (length bs < key_at + 8)%nat then Err "mempool.dat version 2 key is truncated"
        else parse_body (xor_body (slice key_at 8 bs) (key_at + 8) (drop (key_at + 8) bs))
    else if bool_decide (version = 1) then parse_body (drop 8 bs)
    else Err "mempool.dat version is not 1 or 2".
End Dat.

(** ** Loading and saving *)

Section Load.
Context {U : U256Ops} {K : Consensus} {T : TxOps} {W : TxWire}.
Context (env : Env).

Section Admit.
Context (refusal : string).
(** A refusal takes back what this load added, newest first. *)
Fixpoint admit_entries (entries : list CoreMempoolTx) (added : list bytes) (s : Mempool) : Mempool * result unit :=
  match entries with
  | [] => (s, Ok tt)
  | e :: rest =>
      let hash := calculate_tx_id (ct_tx e) in
      match add_transaction_with_witness env (ct_tx e) (ct_witnesses e) s with
      | (s1, Ok true) =>
          let s2 := if bool_decide (ct_fee_delta e = 0) then s1 else (prioritise_transaction hash (ct_fee_delta e) s1).1 in
          admit_entries rest (added ++ [hash]) s2
      | (s1, Ok false) => (remove_all (reverse added) s1, Err refusal)
      | (s1, Err e') => (remove_all (reverse added) s1, Err e')
      end
  end.
End Admit.
Definition apply_delta (s : Mempool) (q : bytes * Z) : Mempool :=
  if bool_decide (q.2 = 0) then s else (prioritise_transaction q.1 q.2 s).1.
Definition admit_core_dump (dump : CoreMempoolDat) (s : Mempool) : Mempool * result unit :=
  match admit_entries "mempool.dat transaction was refused by policy" (dat_txs dump) [] s with
  | (s1, Ok _) => (foldl apply_delta s1 (dat_deltas dump), Ok tt)
  | (s1, Err e) => (s1, Err e)
  end.

(** *** The older length-prefixed layout *)

Definition decode_persisted_tx (bs : bytes) : result (Tx * option (list Witness)) :=
  let+ r := deserialize_with_witness bs in
  let '(tx, wits, _) := r in
  Ok (tx, normal_witnesses wits).
Fixpoint read_legacy (count : nat) (data : bytes) : result (list (Tx * option (list Witness))) :=
  match count with
  | 0%nat => Ok []
  | S count' =>
      if bool_decide (length data < 4)%nat then Err "mempool file transaction length is truncated"
      else
        let len := Z.to_nat (of_le (take 4 data)) in
        let data1 := drop 4 data in
        if bool_decide (length data1 < len)%nat then Err "mempool file transaction is truncated"
        else
          let+ e := decode_persisted_tx (take len data1) in
          let+ rest := read_legacy count' (drop len data1) in
          Ok (e :: rest)
  end.
Definition legacy_entry (q : Tx * option (list Witness)) : CoreMempoolTx := mkCoreTx q.1 q.2 0 0.
Definition load_legacy_bytes (data : bytes) (s : Mempool) : Mempool * result unit :=
  if bool_decide (length data < 4)%nat then (s, Err "mempool file is shorter than a count")
  else
    let count := of_le (take 4 data) in
    match (let+ _ := with_capacity count persisted_tx_size in read_legacy (Z.to_nat count) (drop 4 data)) with
    | Err e => (s, Err e)
    | Ok decoded => admit_entries "mempool load refused a transaction" (legacy_entry <$> decoded) [] s
    end.

Definition load_from_disk (bs : bytes) (s : Mempool) : Mempool * result unit :=
  let version := of_le (take 8 bs) in
  if bool_decide (8 ≤ length bs)%nat && bool_decide (version = 1 ∨ version = 2) then
    match decode bs with
    | Err e => (s, Err e)
    | Ok dump => admit_core_dump dump s
    end
  else load_legacy_bytes bs s.

(** *** Saving: a temporary file renamed over the path *)

(** [order] lists the pool's transactions as the hash map yields them. *)
Definition dump_entry (s : Mempool) (tx : Tx) : CoreMempoolTx :=
  let hash := calculate_tx_id tx in
  mkCoreTx tx (tx_witnesses (pool s) !! hash) 0 (default 0 (fee_deltas (fees s) !! hash)).
Definition pool_dump (order : list Tx) (s : Mempool) : CoreMempoolDat := mkDat (dump_entry s <$> order) [] [].
End Load.

(** The directory, and which of the calls on it succeed: [written] is the
    number of bytes that reach the file when [write_all] fails.  The result of
    [remove_file] is discarded by the code, so it may fail silently. *)
Abbreviation FileSystem := (gmap string bytes).
Record Disk := mkDisk { create : bool; written : nat; write_all : bool; sync_all : bool; rename : bool; remove_file : bool }.

Section Save.
Context {U : U256Ops} {K : Consensus} {T : TxOps} {W : TxWire}.
Context (disk : Disk) (path tmp_path : string).

(** The calls of the closure, the first failure ending it. *)
Definition write_dump (order : list Tx) (s : Mempool) (fs : FileSystem) : FileSystem * result unit :=
  match encode (pool_dump order s) with
  | Err e => (fs, Err e)
  | Ok bs =>
      if negb (create disk) then (fs, Err "create")
      else if negb (write_all disk) then (<[tmp_path := take (written disk) bs]> fs, Err "write")
      else if negb (sync_all disk) then (<[tmp_path := bs]> fs, Err "sync")
      else if negb (rename disk) then (<[tmp_path := bs]> fs, Err "rename")
      else (<[path := bs]> (delete tmp_path fs), Ok tt)
  end.
Definition save_to_disk (order : list Tx) (s : Mempool) (fs : FileSystem) : FileSystem * result unit :=
  match write_dump order s fs with
  | (fs', Ok _) => (fs', Ok tt)
  | (fs', Err e) => (if remove_file disk then delete tmp_path fs' else fs', Err e)
  end.
End Save.

(** ** The file reads back *)

Section DatRoundtrip.
Context {U : U256Ops} {K : Consensus} {T : TxOps} {W : TxWire} (ok : Tx → Prop) `{!TxWireLaws W ok}.

Definition is_i64 (z : Z) : Prop := - 2 ^ 63 ≤ z < 2 ^ 63.
(** What a dump holds: encodable transactions, a stack per input where there are
    witnesses, 32-byte ids, 64-bit numbers, and lists that fit in memory. *)
Definition entry_ok (e : CoreMempoolTx) : Prop :=
  ok (ct_tx e) ∧ is_i64 (ct_time e) ∧ is_i64 (ct_fee_delta e) ∧
  match ct_witnesses e with Some w => length w = length (tx_ins (ct_tx e)) | None => True end.
Definition delta_ok (q : bytes * Z) : Prop := is_hash q.1 ∧ is_i64 q.2.
Definition dat_ok (d : CoreMempoolDat) : Prop :=
  Forall entry_ok (dat_txs d) ∧ Forall delta_ok (dat_deltas d) ∧ Forall is_hash (dat_unbroadcast d) ∧
  Z.of_nat (length (dat_txs d)) * core_tx_size < 2 ^ 63 ∧ Z.of_nat (length (dat_txs d)) < 2 ^ 64 ∧
  Z.of_nat (length (dat_deltas d)) * 40 < 2 ^ 63 ∧ Z.of_nat (length (dat_unbroadcast d)) * 32 < 2 ^ 63.

(** Witnesses without a single item are read back as none. *)
Definition normal_entry (e : CoreMempoolTx) : CoreMempoolTx :=
  mkCoreTx (ct_tx e) (ct_witnesses e ≫= normal_witnesses) (ct_time e) (ct_fee_delta e).
Definition normal_dump (d : CoreMempoolDat) : CoreMempoolDat :=
  mkDat (normal_entry <$> dat_txs d) (dat_deltas d) (dat_unbroadcast d).
Definition normal (d : CoreMempoolDat) : Prop :=
  Forall (λ e, match ct_witnesses e with Some w => some_stack w = true | None => True end) (dat_txs d).
Lemma normal_dump_id d : normal d → normal_dump d = d.
Proof.
  destruct d as [l ds us]. unfold normal, normal_dump. cbn. intros Hn. f_equal.
  induction Hn as [|[tx w t f] l He _ IH]; [done|]. cbn. rewrite IH. f_equal. unfold normal_entry. cbn in *. f_equal.
  destruct w as [w|]; [|done]. cbn. unfold normal_witnesses. by rewrite He.
Qed.

Lemma length_i64_le z : length (i64_le z) = 8%nat.
Proof. apply length_to_le. Qed.
Lemma i64_roundtrip z : is_i64 z → i64_of (i64_le z) = z.
Proof.
  unfold is_i64, i64_of, i64_le, as_u64, as_i64. intros Hz. pose proof (Z.mod_pos_bound z (2 ^ 64)).
  rewrite of_to_le by (cbn; lia). rewrite Zplus_mod_idemp_l, Z.mod_small by lia. lia.
Qed.
Lemma byte_xor a b : 0 ≤ Z.lxor (b2z a) (b2z b) < 256.
Proof.
  pose proof (b2z_range a). pose proof (b2z_range b). assert (0 ≤ Z.lxor (b2z a) (b2z b)) by (apply Z.lxor_nonneg; lia).
  split; [done|]. apply (Z.bounded_iff_bits_nonneg 8); [lia..|]. intros l Hl. rewrite Z.lxor_spec.
  assert (∀ c, Z.testbit (b2z c) l = false) as Hc; [|by rewrite !Hc].
  intros c. pose proof (b2z_range c). by apply (Z.bounded_iff_bits_nonneg 8); try lia.
Qed.

(** One entry: its bytes, its trailer, and what follows. *)
Lemma encode_tx_reads e :
  entry_ok e → ∃ bs wits, encode_tx (ct_tx e) (ct_witnesses e) = Ok bs ∧ normal_witnesses wits = ct_witnesses e ≫= normal_witnesses ∧
    ∀ rest, deserialize_with_witness (bs ++ rest) = Ok (ct_tx e, wits, length bs).
Proof.
  intros (Hok & _ & _ & Hw). unfold encode_tx, normal_witnesses. destruct (ct_witnesses e) as [w|].
  - destruct (wire_witness _ _ Hok Hw) as (bs & w' & -> & Hs & Heq & Hr). exists bs, w'. cbn [mbind option_bind].
    rewrite Hs. split_and!; [done| |done]. destruct (some_stack w); [|done]. by rewrite Heq.
  - destruct (wire_legacy _ Hok) as (w & Hs & Hr). exists (serialize_transaction (ct_tx e)), w. by rewrite Hs.
Qed.
Lemma encode_txs_reads l :
  Forall entry_ok l → ∃ bs, encode_txs l = Ok bs ∧ ∀ rest, read_txs (length l) (bs ++ rest) = Ok (normal_entry <$> l, rest).
Proof.
  induction 1 as [|e l He _ (body & Hb & IH)]; [by exists []|].
  destruct (encode_tx_reads e He) as (bs & wits & Hbs & Hw & Hr). destruct He as (_ & Ht & Hd & _).
  eexists. cbn [encode_txs length read_txs]. rewrite Hbs, Hb. split; [done|]. intros rest. rewrite <-!app_assoc, Hr. cbn [rbind].
  rewrite bool_decide_eq_false_2 by (rewrite !length_app, !length_i64_le; lia).
  rewrite (slice_app_r _ _ bs _ (length bs)), Nat.sub_diag, (slice_app_l 8) by (done || apply length_i64_le).
  rewrite (slice_app_r (length bs + 8) _ bs _ (length bs)) by lia.
  replace (length bs + 8 - length bs)%nat with 8%nat by lia.
  rewrite (slice_app_r 8 _ _ _ 8), Nat.sub_diag, (slice_app_l 8) by (done || apply length_i64_le).
  rewrite !i64_roundtrip, Hw by done.
  replace (bs ++ i64_le (ct_time e) ++ i64_le (ct_fee_delta e) ++ body ++ rest)
    with ((bs ++ i64_le (ct_time e) ++ i64_le (ct_fee_delta e)) ++ body ++ rest) by (by rewrite <-!app_assoc).
  rewrite drop_app_l by (rewrite !length_app, !length_i64_le; lia). by rewrite IH.
Qed.
Lemma encode_deltas_read l rest :
  Forall delta_ok l → read_deltas (length l) (encode_deltas l ++ rest) = Ok (l, rest).
Proof.
  induction 1 as [|[h d] l [Hh Hd] _ IH]; [done|]. cbn [fst snd] in *.
  assert (encode_deltas ((h, d) :: l) ++ rest = h ++ i64_le d ++ encode_deltas l ++ rest) as ->.
  { change (encode_deltas ((h, d) :: l)) with ((h ++ i64_le d) ++ encode_deltas l). by rewrite <-!app_assoc. }
  cbn [length read_deltas]. rewrite bool_decide_eq_false_2 by (rewrite !length_app, Hh, length_i64_le; lia).
  rewrite (slice_app_r 32 _ _ _ 32), Nat.sub_diag, (slice_app_l 8), take_app_length', i64_roundtrip by (done || apply length_i64_le).
  rewrite (app_assoc h), drop_app_l by (rewrite length_app, Hh, length_i64_le; done). by rewrite IH.
Qed.
Lemma txids_read l rest : Forall is_hash l → read_txids (length l) (mjoin l ++ rest) = Ok (l, rest).
Proof.
  induction 1 as [|h l Hh _ IH]; [done|]. change (mjoin (h :: l)) with (h ++ mjoin l). rewrite <-app_assoc. cbn [length read_txids].
  rewrite bool_decide_eq_false_2 by (rewrite length_app, Hh; lia). rewrite drop_app_l, take_app_length' by done. by rewrite IH.
Qed.
Lemma with_capacity_ok c sz : c * sz < 2 ^ 63 → with_capacity c sz = Ok tt.
Proof. intros Hc. unfold with_capacity. by rewrite bool_decide_eq_true_2. Qed.
Lemma read_compact_push n rest : is_u64 n → read_compact (push_compact n ++ rest) = Some (n, length (push_compact n)).
Proof. apply (@decode_encode_varint compact_varint _). Qed.

Lemma body_reads d :
  dat_ok d → ∃ bs, encode d = Ok (to_le 8 1 ++ bs) ∧ parse_body bs = Ok (normal_dump d).
Proof.
  intros (He & Hd & Hu & Hn & Hn' & Hdn & Hun). destruct (encode_txs_reads _ He) as (body & Hb & Hr).
  unfold encode. rewrite Hb. cbn [rbind]. eexists. split; [done|]. unfold parse_body.
  rewrite bool_decide_eq_false_2 by (rewrite length_app, length_to_le; lia).
  rewrite take_app_length', drop_app_l by (by rewrite length_to_le). rewrite of_to_le by (cbn; lia).
  rewrite with_capacity_ok by done. cbn [rbind]. rewrite Nat2Z.id, Hr. cbn [rbind].
  rewrite read_compact_push by (unfold is_u64; lia). cbn [of_option rbind].
  rewrite with_capacity_ok, drop_app_l, Nat2Z.id by done. cbn [rbind]. rewrite encode_deltas_read by done. cbn [rbind].
  rewrite read_compact_push by (unfold is_u64; lia). cbn [of_option rbind].
  rewrite with_capacity_ok, drop_app_l, Nat2Z.id by done. cbn [rbind].
  rewrite <-(app_nil_r (mjoin _)), txids_read by done. done.
Qed.

Lemma decode_version_1 bs : decode (to_le 8 1 ++ bs) = parse_body bs.
Proof.
  unfold decode. rewrite bool_decide_eq_false_2 by (rewrite length_app, length_to_le; lia).
  rewrite take_app_length', drop_app_l by (by rewrite length_to_le). rewrite of_to_le by (cbn; lia).
  by rewrite bool_decide_eq_false_2, bool_decide_eq_true_2 by done.
Qed.
Lemma xor_body_involutive key start body : xor_body key start (xor_body key start body) = body.
Proof.
  unfold xor_body. apply list_eq. intros i. rewrite !list_lookup_imap. destruct (body !! i) as [b|]; [|done]. cbn. f_equal.
  unfold xor_key. set (k := default _ _).
  rewrite b2z_z2b, Z.lxor_assoc, Z.lxor_nilpotent, Z.lxor_0_r by apply byte_xor. apply z2b_b2z.
Qed.
(** Version 2 of the same dump: the key, and the body under it. *)
Definition obfuscate (key bs : bytes) : bytes := to_le 8 2 ++ push_compact 8 ++ key ++ xor_body key 17 (drop 8 bs).
Lemma decode_obfuscated key bs : length key = 8%nat → decode (obfuscate key bs) = parse_body (drop 8 bs).
Proof.
  intros Hk. unfold decode, obfuscate. rewrite bool_decide_eq_false_2 by (rewrite length_app, length_to_le; lia).
  rewrite take_app_length', drop_app_l by (by rewrite length_to_le). rewrite of_to_le by (cbn; lia).
  rewrite bool_decide_eq_true_2 by done. rewrite read_compact_push by (unfold is_u64; lia). cbn [of_option rbind].
  rewrite bool_decide_eq_true_2 by done. cbn [negb]. change (length (push_compact 8)) with 1%nat.
  rewrite bool_decide_eq_false_2
    by (rewrite !length_app, length_to_le, Hk; change (length (push_compact 8)) with 1%nat; lia).
  rewrite !(app_assoc (to_le 8 2)). rewrite (slice_app_r _ _ _ _ 9), (slice_app_l 8) by done.
  rewrite app_assoc, drop_app_l by (rewrite length_app, Hk; done). by rewrite xor_body_involutive.
Qed.

Lemma file_reads d :
  dat_ok d → ∃ bs, encode d = Ok bs ∧ decode bs = Ok (normal_dump d) ∧ parse_body (drop 8 bs) = Ok (normal_dump d).
Proof.
  intros (bs & He & Hp)%body_reads. exists (to_le 8 1 ++ bs). rewrite decode_version_1.
  by rewrite drop_app_l by apply length_to_le.
Qed.

(** [C34] The mempool file reads back.  Every dump of encodable transactions with
    a stack per input, 64-bit numbers and lists that fit in memory is encoded;
    decoding the bytes returns the dump, with witnesses that hold no item read
    as none, so the dump itself when it has no such witnesses.  The same goes
    for its version-2 form, the body XORed with any 8-byte key by file offset. *)
Theorem mempool_file_roundtrip d :
  dat_ok d → ∃ bs, encode d = Ok bs ∧ decode bs = Ok (normal_dump d) ∧ (normal d → decode bs = Ok d) ∧
    ∀ key, length key = 8%nat → decode (obfuscate key bs) = Ok (normal_dump d).
Proof.
  intros (bs & He & Hd & Hp)%file_reads. exists bs. split_and!; [done..| |].
  - intros Hn. by rewrite Hd, normal_dump_id.
  - intros key Hk. by rewrite decode_obfuscated.
Qed.

(** [C35] Saving is all or nothing: on success the path holds the encoded dump of
    the pool, on any failure it holds what it held before.  The temporary file
    is gone after a success, and after a failure where it could be removed.  For
    a dump of encodable transactions ([dat_ok]) the saved file decodes to it, and
    saving fails only when a call on the disk does. *)
Theorem save_to_disk_atomic disk path tmp_path order (s : Mempool) (fs fs' : FileSystem) (r : result unit) :
  path ≠ tmp_path → save_to_disk disk path tmp_path order s fs = (fs', r) →
  (is_ok r || remove_file disk = true → fs' !! tmp_path = None) ∧
  match r with
  | Ok _ => ∃ bs, encode (pool_dump order s) = Ok bs ∧ fs' !! path = Some bs ∧
              (dat_ok (pool_dump order s) → decode bs = Ok (normal_dump (pool_dump order s)))
  | Err _ => fs' !! path = fs !! path ∧
             (dat_ok (pool_dump order s) → create disk && write_all disk && sync_all disk && rename disk = false)
  end.
Proof.
  intros Hne. unfold save_to_disk, write_dump.
  assert (dat_ok (pool_dump order s) → ∃ bs, encode (pool_dump order s) = Ok bs ∧ decode bs = Ok (normal_dump (pool_dump order s))) as Hok
    by (intros (bs & He & Hd & _)%file_reads; by exists bs).
  destruct (encode (pool_dump order s)) as [bs|e].
  - destruct (create disk), (write_all disk), (sync_all disk), (rename disk), (remove_file disk); cbn [negb]; intros [= <- <-];
      simplify_map_eq; try done; (split; [done|]; exists bs; split_and!; [done..|]; intros (x & [= <-] & Hd)%Hok; exact Hd).
  - intros [= <- <-]. split; [cbn; intros ->; by rewrite lookup_delete_eq|]. split; [|by intros (x & Hx & _)%Hok].
    destruct (remove_file disk); by simplify_map_eq.
Qed.
End DatRoundtrip.

(** ** Loading *)

Section LoadInv.
Context {U : U256Ops} {K : Consensus} {T : TxOps} {W : TxWire}.
Context (env : Env).

Lemma txs_prioritise h d s : txs (prioritise_transaction h d s).1 = txs s.
Proof. unfold prioritise_transaction. by destruct (in_pool h s). Qed.
Lemma txs_apply_deltas l s : txs (foldl apply_delta s l) = txs s.
Proof.
  revert s. induction l as [|q l IH]; intros s; [done|]. cbn. rewrite IH. unfold apply_delta.
  case_bool_decide; [done|]. apply txs_prioritise.
Qed.
Lemma apply_deltas_ok l s : pool_ok s → pool_ok (foldl apply_delta s l).
Proof.
  revert s. induction l as [|q l IH]; intros s Hs; [done|]. cbn. apply IH. unfold apply_delta.
  case_bool_decide; [done|]. by apply prioritise_ok.
Qed.

Definition entry_ids (entries : list CoreMempoolTx) : gset bytes := list_to_set ((calculate_tx_id ∘ ct_tx) <$> entries).
(** Entries are admitted one by one; a failure leaves nothing of them. *)
Lemma admit_entries_spec (refusal : string) (entries : list CoreMempoolTx) (added : list bytes) (D : gset bytes) (s s' : Mempool) (r : result unit) :
  pool_ok s → dom (txs s) ⊆ D ∪ list_to_set added → admit_entries env refusal entries added s = (s', r) →
  pool_ok s' ∧
  match r with
  | Ok _ => dom (txs s') ⊆ D ∪ list_to_set added ∪ entry_ids entries
  | Err _ => dom (txs s') ⊆ D
  end.
Proof.
  revert added s. induction entries as [|e entries IH]; intros added s Hok Hdom; cbn [admit_entries].
  { intros [= <- <-]. split; [done|]. set_solver. }
  pose proof (admission_ok env (ct_tx e) (ct_witnesses e) s Hok) as Hok1.
  destruct (add_transaction_with_witness env (ct_tx e) (ct_witnesses e) s) as [s1 r1] eqn:E. cbn [fst] in Hok1.
  apply admission_dom in E.
  assert (dom (txs s1) ⊆ D ∪ list_to_set added → dom (txs (remove_all (reverse added) s1)) ⊆ D) as Hback.
  { intros Hs. rewrite dom_remove_all. intros h [Hh Hn]%elem_of_difference.
    rewrite elem_of_list_to_set, elem_of_reverse in Hn. set_solver. }
  destruct r1 as [[]|e'].
  - intros Hrest. apply IH in Hrest as [Hok' Hr].
    + split; [done|]. destruct r; [|done]. revert Hr. unfold entry_ids. rewrite list_to_set_app_L. set_solver.
    + case_bool_decide; [done|]. by apply prioritise_ok.
    + rewrite list_to_set_app_L. case_bool_decide; rewrite ?txs_prioritise; set_solver.
  - intros [= <- <-]. split; [by apply remove_all_ok|]. apply Hback. set_solver.
  - intros [= <- <-]. split; [by apply remove_all_ok|]. apply Hback. set_solver.
Qed.
Lemma load_ok bs s : pool_ok s → pool_ok (load_from_disk env bs s).1.
Proof.
  intros Hok. unfold load_from_disk, load_legacy_bytes, admit_core_dump.
  destruct (_ && _); [destruct (decode bs) as [d|e]; [|done]|case_bool_decide; [done|]; destruct (rbind (with_capacity _ _) _) as [l|e]; [|done]].
  - destruct (admit_entries _ _ _ _ _) as [s1 r1] eqn:E. apply (admit_entries_spec _ _ _ (dom (txs s))) in E as [Hok1 _]; [|done|set_solver].
    destruct r1; cbn; [by apply apply_deltas_ok|done].
  - destruct (admit_entries _ _ _ _ _) as [s1 r1] eqn:E. by apply (admit_entries_spec _ _ _ (dom (txs s))) in E as [Hok1 _]; [|done|set_solver].
Qed.

(** What a file holds, in either layout. *)
Definition file_entries (bs : bytes) : result (list CoreMempoolTx) :=
  if bool_decide (8 ≤ length bs)%nat && bool_decide (of_le (take 8 bs) = 1 ∨ of_le (take 8 bs) = 2)
  then let+ d := decode bs in Ok (dat_txs d)
  else let+ _ := with_capacity (of_le (take 4 bs)) persisted_tx_size in
       let+ l := read_legacy (Z.to_nat (of_le (take 4 bs))) (drop 4 bs) in Ok (legacy_entry <$> l).

(** [C38] Loading keeps the pool consistent and is all or nothing for the file:
    after a failure, whatever its cause, no transaction is in the pool that was
    not there before; a file that does not decode changes nothing; after a
    success every new transaction is one of the file. *)
Theorem load_from_disk_spec (bs : bytes) (s s' : Mempool) (r : result unit) :
  pool_ok s → load_from_disk env bs s = (s', r) →
  pool_ok s' ∧
  match r with
  | Err _ => dom (txs s') ⊆ dom (txs s) ∧ (is_ok (file_entries bs) = false → s' = s)
  | Ok _ => ∃ entries, file_entries bs = Ok entries ∧ dom (txs s') ⊆ dom (txs s) ∪ entry_ids entries
  end.
Proof.
  intros Hok. unfold load_from_disk, load_legacy_bytes, admit_core_dump, file_entries.
  destruct (_ && _); [destruct (decode bs) as [d|e]; cbn [rbind]|case_bool_decide as Hl;
    [|destruct (with_capacity _ _) as [?|e]; cbn [rbind]; [destruct (read_legacy _ _) as [l|e]; cbn [rbind]|]]]; try (intros [= <- <-]; by split_and!).
  - destruct (admit_entries _ _ _ _ _) as [s1 r1] eqn:E.
    apply (admit_entries_spec _ _ _ (dom (txs s))) in E as [Hok1 Hr]; [|done|set_solver].
    destruct r1; intros [= <- <-]; [|by split_and!]. split; [by apply apply_deltas_ok|]. eexists. split; [done|].
    rewrite txs_apply_deltas. by rewrite list_to_set_nil, (right_id_L ∅ (∪)) in Hr.
  - intros E. apply (admit_entries_spec _ _ _ (dom (txs s))) in E as [Hok1 Hr]; [|done|set_solver].
    split; [done|]. destruct r; [|by split_and!]. eexists. split; [done|].
    by rewrite list_to_set_nil, (right_id_L ∅ (∪)) in Hr.
Qed.
End LoadInv.

(** ** A self-delimiting encoding, to instantiate [TxWire] *)

Module BitWire.
(** A positive as one byte per binary digit and an end mark. *)
Fixpoint pos_bytes (p : positive) : bytes :=
  match p with
  | xH => [Byte.x02]
  | xO p' => Byte.x00 :: pos_bytes p'
  | xI p' => Byte.x01 :: pos_bytes p'
  end.
Fixpoint read_pos (bs : bytes) : option (positive * nat) :=
  match bs with
  | Byte.x02 :: _ => Some (xH, 1%nat)
  | Byte.x00 :: bs' => (λ q : positive * nat, (xO q.1, S q.2)) <$> read_pos bs'
  | Byte.x01 :: bs' => (λ q : positive * nat, (xI q.1, S q.2)) <$> read_pos bs'
  | _ => None
  end.
Lemma read_pos_bytes p rest : read_pos (pos_bytes p ++ rest) = Some (p, length (pos_bytes p)).
Proof. induction p as [p IH|p IH|]; cbn; rewrite ?IH; done. Qed.

#[global] Instance txin_eq_dec : EqDecision TxIn.
Proof. solve_decision. Defined.
#[global] Instance txout_eq_dec : EqDecision TxOut.
Proof. solve_decision. Defined.
#[global] Instance tx_eq_dec : EqDecision Tx.
Proof. solve_decision. Defined.
#[global] Program Instance txin_countable : Countable TxIn :=
  inj_countable' (λ i, (ti_prevout i, script_sig i, sequence i)) (λ q, mkTxIn q.1.1 q.1.2 q.2) _.
Next Obligation. by intros []. Qed.
#[global] Program Instance txout_countable : Countable TxOut :=
  inj_countable' (λ o, (out_value o, out_script o)) (λ q, mkTxOut q.1 q.2) _.
Next Obligation. by intros []. Qed.
#[global] Program Instance tx_countable : Countable Tx :=
  inj_countable' (λ t, (tx_version t, tx_ins t, tx_outputs t, lock_time t)) (λ q, mkTx q.1.1.1 q.1.1.2 q.1.2 q.2) _.
Next Obligation. by intros []. Qed.

Definition frame (tx : Tx) (wits : list Witness) : bytes := pos_bytes (countable.encode (tx, wits)).
#[global] Instance wire : TxWire := {|
  serialize_transaction tx := frame tx [];
  deserialize_with_witness bs :=
    match read_pos bs with
    | Some (p, used) => match countable.decode p with Some (tx, wits) => Ok (tx, wits, used) | None => Err "transaction" end
    | None => Err "transaction"
    end;
  core_tx_size := 128;
  persisted_tx_size := 112;
|}.
Lemma read_frame tx wits rest :
  deserialize_with_witness (frame tx wits ++ rest) = Ok (tx, wits, length (frame tx wits)).
Proof. cbn. unfold frame. by rewrite read_pos_bytes, decode_encode. Qed.
End BitWire.
