(* ===== verification/MempoolProps.v ===== *)
(** * MempoolProps: what the pool guarantees, and where it does not

    The theorems on [src/node/mempool.rs]: the invariant of every pool its
    operations reach, eviction, the caps, admission and its dry run, the limit
    check; and three defects, each proved of the code as it is written. *)

From S2P Require Import Prelude Bytes Interfaces UtxoSnapshot Graph TxPolicy Mempool MempoolInv MempoolEvict MempoolLimits MempoolFile.
Open Scope Z_scope.

Section PoolProps.
Context {U : U256Ops} {K : Consensus} {T : TxOps}.

(** ** Runs of the pool *)

(** Every operation that changes the pool, but [clear]; each may run in its own
    environment. *)
Inductive pool_step : Mempool → Mempool → Prop :=
| step_add env tx wits s : pool_step s (add_transaction_with_witness env tx wits s).1
| step_package env package s : pool_step s (add_package_with_witnesses env package s).1
| step_remove h s : pool_step s (remove_transaction h s).1
| step_cleanup policy now s : pool_step s (cleanup_old_transactions policy now s)
| step_enforce policy now s : pool_step s (enforce_mempool_limits policy now s)
| step_block block s : pool_step s (remove_for_connected_block block s)
| step_reorg disconnected witnesses connected utxos env s :
    pool_step s (apply_reorg disconnected witnesses connected utxos env s)
| step_prioritise h delta s : pool_step s (prioritise_transaction h delta s).1
| step_rank cfg hash utxos s : pool_step s (update_fee_index cfg hash utxos s)
| step_time h time s : pool_step s (set_entry_time h time s)
| step_arm env package coins s : pool_step s (arm_package_preview env package coins s)
| step_note env tx wits utxos s : pool_step s (note_package_preview env tx wits utxos s)
| step_disarm s : pool_step s (clear_package_preview s)
| step_load {W : TxWire} env bs s : pool_step s (load_from_disk env bs s).1.

Lemma pool_step_ok s s' : pool_ok s → pool_step s s' → pool_ok s'.
Proof.
  intros Hok Hstep. destruct Hstep.
  - by apply admission_ok.
  - by apply add_package_ok.
  - by apply remove_ok.
  - by apply cleanup_ok.
  - by apply enforce_ok.
  - by apply remove_all_ok.
  - by apply apply_reorg_ok.
  - by apply prioritise_ok.
  - by apply update_fee_index_ok.
  - by apply set_entry_time_ok.
  - by apply set_preview_ok.
  - by apply set_preview_ok.
  - by apply set_preview_ok.
  - by apply load_ok.
Qed.
Definition reachable (s : Mempool) : Prop := rtc pool_step mempool_new s.
Lemma reachable_ok s : reachable s → pool_ok s.
Proof. intros Hr. eapply rtc_invariant; [exact pool_step_ok|exact pool_new_ok|exact Hr]. Qed.

(** [C5] In every pool the operations reach, short of [clear], no two pooled
    transactions spend the same output, the spender and spent-output tables
    are exactly the inputs of the pooled transactions, the dependency graph is
    symmetric with every edge a real spend between pooled transactions, and the
    fee index lists each cached transaction once, at its rate. *)
Theorem pool_invariant (s : Mempool) :
  reachable s →
  pool_ok s ∧
  (∀ h1 h2 tx1 tx2 o, txs s !! h1 = Some tx1 → txs s !! h2 = Some tx2 →
     o ∈ tx_inputs tx1 → o ∈ tx_inputs tx2 → h1 = h2).
Proof.
  intros Hr%reachable_ok. split; [done|]. intros h1 h2 tx1 tx2 o. by apply (pool_no_double_spend s), pool_tables.
Qed.

(** [C36] Evicting a pooled transaction removes exactly it and its recorded
    in-pool descendants; the bytes and the count it reports are exactly what
    the pool lost; and no transaction that stays has a recorded parent that left. *)
Theorem evict_with_descendants_exact (h : bytes) (s s' : Mempool) (b : Z) (n : nat) :
  pool_ok s → in_pool h s = true → evict_with_descendants h s = (s', b, n) →
  (∀ x, x ∈ dom (txs s') ↔ x ∈ dom (txs s) ∧ ¬ rtc (child_of s) h x) ∧
  mempool_size_bytes s' = mempool_size_bytes s - b ∧ (size (txs s') = size (txs s) - n)%nat ∧
  (∀ p c, c ∈ members (tx_descendants s) p → c ∈ dom (txs s') → p ∈ dom (txs s')).
Proof.
  intros Hok Hin E. unfold in_pool in Hin. apply bool_decide_eq_true, elem_of_dom in Hin.
  destruct (evict_spec _ _ _ _ _ E) as (Hb & Hn & _ & Hx).
  assert (∀ x, x ∈ dom (txs s') ↔ x ∈ dom (txs s) ∧ ¬ rtc (child_of s) h x) as Hdom.
  { intros x. rewrite !elem_of_dom, Hx, <-replacement_package_spec. case_bool_decide; [|naive_solver].
    split; [by intros []|naive_solver]. }
  split_and!; [done|lia|lia|]. intros p c Hc [Hcs Hcr]%Hdom. apply Hdom. split.
  - rewrite <-(desc_dom _ _ _ (pool_graph _ Hok)). by eapply members_dom.
  - intros Hp. apply Hcr. eapply rtc_r; [exact Hp|]. by apply child_of_spec.
Qed.

(** [C37] After the limits are enforced the pool is within the byte cap and the
    transaction cap, under every eviction strategy. *)
Theorem enforced_caps_hold `{!TxSizeLaw} (policy : MempoolPolicyConfig) (now : Z) (s : Mempool) :
  reachable s → 0 ≤ max_mempool_mb policy → 0 ≤ max_mempool_txs policy →
  let s' := enforce_mempool_limits policy now s in
  mempool_size_bytes s' ≤ sat_mul (max_mempool_mb policy) 1048576 ∧ Z.of_nat (size (txs s')) ≤ max_mempool_txs policy.
Proof. intros Hr%reachable_ok Hmb Htx. by apply enforce_within. Qed.

(** ** Admission *)

(** [C6] An admission that succeeds adds the transaction, removes exactly the
    transactions it conflicts with and their descendants, and was paid for: its
    fee covers the fees of everything removed plus its own relay.  One that fails
    with an error, or without a conflict, leaves the pool as it was. *)
Theorem admission_outcome (env : Env) (tx : Tx) (wits : option (list Witness)) (s s' : Mempool) (r : result bool) :
  pool_ok s → add_transaction_with_witness env tx wits s = (s', r) →
  match r with
  | Ok true =>
      ∃ utxos wired displaced,
        admission_coins env tx s = Some (utxos, wired) ∧
        (∀ h, h ∈ displaced ↔ ∃ c, c ∈ direct_conflicts tx s ∧ rtc (child_of s) c h) ∧
        (∀ h, txs s' !! h = if bool_decide (h = calculate_tx_id tx) then Some tx
                            else if bool_decide (h ∈ displaced) then None else txs s !! h) ∧
        (direct_conflicts tx s ≠ [] →
           (package_fee_and_vsize (policy_config env) displaced utxos s).1 +
             relay_fee (incremental_relay_fee (effective_policy env)) (vsize_and_cost env tx wits utxos s).1
           ≤ calculate_transaction_fee tx utxos s)
  | Ok false => direct_conflicts tx s = [] → s' = s
  | Err _ => s' = s
  end.
Proof.
  intros Hok E. apply admission_inv in E as [[-> Hr]|(utxos & wired & displaced & s0 & Ha & Hdis & Hfin)].
  { destruct r as [[]|]; done. }
  destruct (displaced_pool_ok _ _ _ _ _ _ _ _ Hok Hdis (adm_precheck _ _ _ _ _ _ Ha)) as (Hok0 & Hfr & Htxs).
  apply finish_cases in Hfin as [[-> ->]|(-> & -> & Hlim)].
  { intros Hnil. by destruct Hdis. }
  exists utxos, wired, displaced. split; [apply Ha|]. split_and!.
  - destruct Hdis as [Hnil|displaced Hne Hset Hv]; [|by apply (displacement_set_spec env)].
    intros h. rewrite Hnil. set_solver.
  - intros h. rewrite txs_insert. case_bool_decide as Hh; [subst; by rewrite lookup_insert_eq|].
    by rewrite lookup_insert_ne, Htxs by done.
  - intros Hne. destruct Hdis as [Hnil|displaced _ Hset Hv]; [done|]. revert Hv. unfold replacement_verdict.
    case_bool_decide; [done|]. destruct (pays_for_displaced _ _ _ _ _ _) eqn:Hp; [|done]. intros _.
    unfold pays_for_displaced in Hp. by apply bool_decide_eq_true in Hp.
Qed.

(** The pool after the displaced transactions left, for [limits_same]. *)
Lemma limits_after_displacement env tx s displaced policy vsize :
  pool_ok s → no_preview s → displacement_set env (direct_conflicts tx s) s = Some displaced →
  check_ancestor_descendant_limits tx policy vsize
    (record_replacement env (calculate_tx_id tx) (direct_conflicts tx s) displaced (remove_all (elements displaced) s)) =
  check_ancestor_descendant_limits tx policy vsize s.
Proof.
  intros Hok Hpv Hset. symmetry. apply (limits_same tx s _ displaced Hok Hpv); [|done|done|].
  - by apply (displacement_set_spec env).
  - cbn. apply preview_remove_all.
Qed.

Lemma displacing_admission (env : Env) tx wits s utxos (wired : bool) displaced :
  let vsize := (vsize_and_cost env tx wits utxos s).1 in
  let fee := if wired then calculate_transaction_fee tx utxos s else 0 in
  admissible env tx wits utxos wired s → direct_conflicts tx s ≠ [] →
  displacement_set env (direct_conflicts tx s) s = Some displaced →
  replacement_verdict env tx wits utxos (direct_conflicts tx s) displaced vsize s = Ok true →
  add_transaction_with_witness env tx wits s =
    finish_admission env tx wits vsize fee (if bool_decide (0 < vsize) then fee / vsize else 0)
      (record_replacement env (calculate_tx_id tx) (direct_conflicts tx s) displaced (remove_all (elements displaced) s)).
Proof.
  intros vsize fee [Hp Hc Hs Hf] Hd Hset Hv. unfold add_transaction_with_witness. rewrite Hp, Hc, Hs.
  fold vsize fee. assert (wired && below_fee_floor env tx fee vsize s = false) as ->.
  { subst fee. destruct wired; [|done]. by apply Hf. }
  rewrite bool_decide_eq_false_2 by done. by rewrite Hset, Hv.
Qed.

(** A replacement that passes every fee and policy check but breaks the
    ancestor or descendant limit is refused only after the transactions it
    conflicts with were removed: the pool ends up with neither.  The limit
    could have been checked first, its answer is the same. *)
Theorem rejected_replacement_evicts (env : Env) (tx : Tx) (wits : option (list Witness)) (s : Mempool)
    (utxos : coin_map) (wired : bool) (displaced : gset bytes) :
  let vsize := (vsize_and_cost env tx wits utxos s).1 in
  pool_ok s → no_preview s → admissible env tx wits utxos wired s → direct_conflicts tx s ≠ [] →
  displacement_set env (direct_conflicts tx s) s = Some displaced →
  replacement_verdict env tx wits utxos (direct_conflicts tx s) displaced vsize s = Ok true →
  check_ancestor_descendant_limits tx (effective_policy env) vsize s = false →
  ∃ s', add_transaction_with_witness env tx wits s = (s', Ok false) ∧
    txs s' !! calculate_tx_id tx = None ∧
    ∀ h, h ∈ direct_conflicts tx s → h ∈ dom (txs s) ∧ txs s' !! h = None.
Proof.
  intros vsize Hok Hpv Ha Hd Hset Hv Hlim. rewrite (displacing_admission _ _ _ _ _ _ _ Ha Hd Hset Hv).
  fold vsize. unfold finish_admission. rewrite (limits_after_displacement env tx s displaced) by done.
  rewrite Hlim. cbn. eexists. split; [done|].
  pose proof (precheck_fresh _ _ _ _ (adm_precheck _ _ _ _ _ _ Ha)) as [Hfresh _].
  assert (∀ h, txs (record_replacement env (calculate_tx_id tx) (direct_conflicts tx s) displaced
                      (remove_all (elements displaced) s)) !! h = txs (remove_all (elements displaced) s) !! h) as E by done.
  split.
  - rewrite E, txs_remove_all. case_bool_decide; [done|]. by apply not_elem_of_dom.
  - intros h Hh. split; [by apply (direct_conflict_pooled tx s h (pool_tables _ Hok))|].
    rewrite E, txs_remove_all, bool_decide_eq_true_2; [done|]. apply elem_of_elements.
    apply (displacement_set_spec env tx s displaced Hset). by exists h.
Qed.

(** The replacement counter never passes one: the rows of the replaced
    transactions are dropped before they are read.  So a limit of two or more
    replacements per transaction never refuses any. *)
Theorem replacement_limit_never_binds (env : Env) (s : Mempool) (h : bytes) :
  reachable s → 2 ≤ max_replacements_per_tx (effective_rbf env) →
  tracking_allows env h s =
    match rbf_tracking s !! h with
    | Some t => bool_decide (cooldown_seconds (effective_rbf env) ≤ sat_sub (current_timestamp env) (last_replacement_time t))
    | None => true
    end.
Proof.
  intros Hr%reachable_ok Hmax. unfold tracking_allows. destruct (rbf_tracking s !! h) as [t|] eqn:E; [|done].
  pose proof (pool_tracking _ Hr h t E). rewrite bool_decide_eq_true_2 by lia. done.
Qed.

(** The recorded children of a transaction just admitted are at most itself. *)
Lemma insert_children tx wits vsize fee rate now height s x :
  pool_ok s → calculate_tx_id tx ∉ dom (txs s) →
  x ∈ members (tx_descendants (insert_accepted tx wits vsize fee rate now height s)) (calculate_tx_id tx) →
  x = calculate_tx_id tx.
Proof.
  intros Hok Hh. unfold insert_accepted, update_dependency_graph.
  destruct (foldl _ _ _) as [deps desc] eqn:E. cbn [tx_descendants].
  destruct (link_inputs_members _ _ _ _ _ E) as (Hm & _). cbn [fst snd tx_descendants] in Hm.
  intros [Hx|(-> & _)]%Hm; [|done]. rewrite members_insert, bool_decide_eq_true_2 in Hx by done.
  exfalso. apply Hh. rewrite <-(desc_dom _ _ _ (pool_graph _ Hok)). by eapply members_dom.
Qed.
Lemma insert_alone tx wits vsize fee rate now height s x :
  pool_ok s → calculate_tx_id tx ∉ dom (txs s) →
  rtc (child_of (insert_accepted tx wits vsize fee rate now height s)) (calculate_tx_id tx) x → x = calculate_tx_id tx.
Proof.
  intros Hok Hh Hr. remember (calculate_tx_id tx) as h0 eqn:Eh. induction Hr as [|u v w Huv Hvw IH]; [done|]. subst u.
  apply child_of_spec in Huv as [_ Huv]. apply insert_children in Huv; [|done|done]. subst v. by apply IH.
Qed.

(** Admission records a transaction as a child only of parents already in
    the pool, never a child already there: after a parent comes back, as a
    reorganisation does, evicting it leaves in the pool a child that spends the
    evicted transaction's outputs. *)
Theorem readmitted_parent_orphans_child (env : Env) (p c : Tx) (wits : option (list Witness)) (s s' : Mempool) (h : bytes) :
  pool_ok s → add_transaction_with_witness env p wits s = (s', Ok true) →
  txs s !! h = Some c → calculate_tx_id p ∈ op_hash <$> tx_inputs c → txs s' !! h = Some c →
  let s'' := (evict_with_descendants (calculate_tx_id p) s').1.1 in
  txs s'' !! calculate_tx_id p = None ∧ txs s'' !! h = Some c.
Proof.
  intros Hok E Hc _ Hc'. destruct (evict_with_descendants (calculate_tx_id p) s') as [[s'' b] n] eqn:Ev. cbn.
  destruct (evict_spec _ _ _ _ _ Ev) as (_ & _ & Hp & Hx). split; [done|]. rewrite Hx.
  rewrite bool_decide_eq_false_2; [done|]. intros [_ Hr%replacement_package_spec].
  apply admission_inv in E as [[_ E]|(utxos & wired & displaced & s0 & Ha & Hdis & Hfin)]; [by destruct E|].
  destruct (displaced_pool_ok _ _ _ _ _ _ _ _ Hok Hdis (adm_precheck _ _ _ _ _ _ Ha)) as (Hok0 & (Hfresh & _) & _).
  apply finish_cases in Hfin as [[_ ?]|(-> & _ & _)]; [done|].
  apply insert_alone in Hr; [|done|done]. subst h. pose proof (precheck_fresh _ _ _ _ (adm_precheck _ _ _ _ _ _ Ha)) as [Hn _].
  apply Hn. by apply elem_of_dom.
Qed.

(** [C40] The limit check accepts exactly when the candidate with its ancestors,
    the transitive visible parents, is within the ancestor limits, and every
    ancestor with its recorded descendants and the candidate is within the
    descendant limits; what the replacement removes does not count. *)
Theorem limits_exact (tx : Tx) (policy : MempoolPolicyConfig) (vsize : Z) (s : Mempool) :
  let removed := txs_this_replacement_removes tx s in
  check_ancestor_descendant_limits tx policy vsize s = true ↔
  ∃ ancestors : gset bytes,
    (∀ y, y ∈ ancestors ↔ ∃ p, p ∈ seeds tx s removed ∧ rtc (parent_of s removed) p y) ∧
    Z.of_nat (size ancestors) + 1 ≤ max_ancestor_count policy ∧
    total_vsize s ancestors + vsize ≤ max_ancestor_size policy ∧
    ∀ a, a ∈ ancestors → ∃ below_a : gset bytes,
      (∀ y, y ∈ below_a ↔ (tc (recorded (tx_descendants s)) a y ∨
                            tc (recorded (pv_descendants (package_preview s))) a y) ∧ (y ∉ removed)) ∧
      Z.of_nat (size below_a) + 1 + 1 ≤ max_descendant_count policy ∧
      vsize_of s a + total_vsize s below_a + vsize ≤ max_descendant_size policy.
Proof.
  intros removed. unfold check_ancestor_descendant_limits. fold removed.
  assert (∀ a y, y ∈ existing_descendants s removed a ↔ (tc (recorded (tx_descendants s)) a y ∨
            tc (recorded (pv_descendants (package_preview s))) a y) ∧ (y ∉ removed)) as Hex.
  { intros a y. unfold existing_descendants. by rewrite elem_of_difference, elem_of_union, !descendant_closure_spec. }
  rewrite !andb_true_iff, !bool_decide_eq_true, forallb_forall. split.
  - intros [[Hc Hz] Hall]. exists (ancestors_of tx s removed). split; [apply ancestors_of_spec|]. split_and!; [done|done|].
    intros a Ha. exists (existing_descendants s removed a). split; [apply Hex|].
    apply elem_of_elements, list_elem_of_In, Hall in Ha. unfold descendant_limits_ok in Ha.
    by apply andb_true_iff in Ha as [?%bool_decide_eq_true ?%bool_decide_eq_true].
  - intros (A & HA & Hc & Hz & Hall).
    assert (A = ancestors_of tx s removed) as -> by (apply set_eq; intros y; by rewrite HA, ancestors_of_spec).
    split; [done|]. intros a Ha%list_elem_of_In%elem_of_elements. destruct (Hall a Ha) as (B & HB & Hb1 & Hb2).
    assert (B = existing_descendants s removed a) as -> by (apply set_eq; intros y; by rewrite HB, Hex).
    unfold descendant_limits_ok. by rewrite !bool_decide_eq_true_2.
Qed.

(** ** The dry run *)

(** The checks of admission that neither [preview_accept] nor [script_rejects]
    makes. *)
Definition only_admission_rejects (env : Env) (tx : Tx) (wits : option (list Witness)) (utxos : coin_map) (s : Mempool)
    : bool :=
  in_pool (calculate_tx_id tx) s || negb (bool_decide (NoDup (tx_inputs tx))) ||
  bool_decide (sat_mul (max_mempool_mb (effective_policy env)) 1048576 < accounted_tx_bytes tx wits) ||
  (reject_spam_in_mempool (effective_policy env) && is_spam (spam_filter (effective_policy env)) tx wits) ||
  prevout_value_out_of_range tx utxos ||
  (require_standard (effective_policy env) && undefined_witness_program (script_prevouts tx utxos s)).

Ltac peel H :=
  repeat match type of H with
  | (if ?b then Err _ else _) = Ok _ => let E := fresh "E" in destruct b eqn:E; [discriminate H|]
  end.

(** A passed dry run, with the remaining checks, is an admissible transaction. *)
Lemma preview_admissible env tx wits s utxos fee :
  admission_coins env tx s = Some (utxos, true) →
  preview_accept env tx wits utxos s = Ok fee → script_rejects env tx wits utxos s = false →
  only_admission_rejects env tx wits utxos s = false →
  admissible env tx wits utxos true s ∧ fee = calculate_transaction_fee tx utxos s ∧
  check_ancestor_descendant_limits tx (effective_policy env) (vsize_and_cost env tx wits utxos s).1 s = true ∧
  replacement_rejects env tx wits utxos (vsize_and_cost env tx wits utxos s).1 s = false.
Proof.
  intros Hc Hp Hs Ho. unfold preview_accept in Hp. cbv zeta in Hp. peel Hp. injection Hp as <-.
  unfold script_rejects in Hs. unfold only_admission_rejects in Ho.
  repeat match goal with
  | H : _ || _ = false |- _ => apply orb_false_iff in H as [??]
  | H : negb _ = false |- _ => apply negb_false_iff in H
  end.
  split_and!; [split|done|done|done].
  - unfold precheck_rejects, nonstandard_shape.
    destruct (require_standard (effective_policy env)); cbn [andb] in *;
      repeat match goal with H : ?b = _ |- context [?b] => rewrite H; clear H end; done.
  - done.
  - unfold spend_rejects, nonstandard_spend. cbv zeta.
    destruct (require_standard (effective_policy env)); cbn [andb] in *;
      repeat match goal with H : ?b = _ |- context [?b] => rewrite H; clear H end; done.
  - intros _. done.
Qed.

Lemma replaceable_each env tx wits utxos direct s h existing :
  replaceable env tx wits utxos direct s = Ok true → h ∈ direct → txs s !! h = Some existing →
  check_rbf_replacement_with_witness env tx existing utxos None wits s = Ok true.
Proof.
  intros Hr Hh E. induction direct as [|d direct IH]; [by apply elem_of_nil in Hh|]. cbn in Hr.
  apply elem_of_cons in Hh as [->|Hh].
  - rewrite E in Hr. unfold rbind in Hr.
    destruct (check_rbf_replacement_with_witness _ _ _ _ _ _ _) as [[]|]; [reflexivity|discriminate Hr..].
  - apply IH; [|exact Hh]. destruct (txs s !! d); [|exact Hr]. unfold rbind in Hr.
    destruct (check_rbf_replacement_with_witness _ _ _ _ _ _ _) as [[]|]; [exact Hr|discriminate Hr..].
Qed.
(** Without package replacement, a replaceable transaction has no descendants. *)
Lemma replaceable_alone env tx existing wits utxos s :
  check_rbf_replacement_with_witness env tx existing utxos None wits s = Ok true →
  allow_package_replacements (effective_rbf env) = false → in_pool (calculate_tx_id existing) s = true →
  (size (replacement_package (calculate_tx_id existing) s) ≤ 1)%nat.
Proof.
  unfold check_rbf_replacement_with_witness. case_bool_decide; [done|]. destruct (_ && _); [done|].
  destruct (negb _); [done|]. unfold replaced_totals. intros Hc Ha Hin. rewrite Ha, Hin in Hc.
  case_bool_decide as Hs; [done|lia].
Qed.
Lemma replaceable_displacement env tx wits utxos s :
  pool_ok s → replaceable env tx wits utxos (direct_conflicts tx s) s = Ok true →
  displacement_set env (direct_conflicts tx s) s = Some (txs_this_replacement_removes tx s).
Proof.
  intros Hok Hr. unfold displacement_set. destruct (allow_package_replacements _) eqn:Ha; [done|].
  assert (∀ h, h ∈ direct_conflicts tx s → (size (replacement_package h s) ≤ 1)%nat) as Hone.
  { intros h Hh. pose proof (direct_conflict_pooled tx s h (pool_tables _ Hok) Hh) as [ex Eex]%elem_of_dom.
    pose proof (txid_key _ (pool_tables _ Hok) h ex Eex) as Hid.
    pose proof (replaceable_each _ _ _ _ _ _ _ _ Hr Hh Eex) as Hck. rewrite <-Hid.
    apply (replaceable_alone _ _ _ _ _ _ Hck Ha). rewrite Hid. by apply bool_decide_eq_true. }
  destruct (existsb _ _) eqn:Ex.
  { apply existsb_exists in Ex as (h & Hh%list_elem_of_In & Hs%bool_decide_eq_true). apply Hone in Hh. lia. }
  f_equal. apply set_eq. intros h. unfold txs_this_replacement_removes. rewrite elem_of_list_to_set, elem_of_union_of.
  split; [intros Hh; right; exists h; split; [done|apply replacement_package_root]|].
  intros [?|(c & Hc & Hp)]; [set_solver|]. pose proof (Hone c Hc) as Hs. pose proof (replacement_package_root s c) as Hroot.
  assert (size (replacement_package c s) ≠ 0%nat) as Hne by (intros E%size_empty_inv; set_solver).
  assert (h = c) as ->; [|done]. by apply (size_singleton_inv (replacement_package c s)); [lia|..].
Qed.

Lemma finish_accepts env tx wits utxos prevouts vsize fee rate s :
  check_ancestor_descendant_limits tx (effective_policy env) vsize s = true →
  spend_rejects env tx wits utxos true prevouts = false →
  ∃ s', finish_admission env tx wits vsize fee rate s = (s', Ok true) ∧
    fee_basis (fees s') !! calculate_tx_id tx = Some (fee, vsize) ∧ txs s' !! calculate_tx_id tx = Some tx.
Proof.
  intros Hlim Hs. unfold finish_admission. rewrite Hlim. cbn [negb].
  assert (match wits with Some w => negb (bool_decide (length w = length (tx_ins tx))) | None => false end = false) as ->.
  { unfold spend_rejects in Hs. cbv zeta in Hs. rewrite !orb_false_iff in Hs. destruct Hs as [[_ Hc] _].
    unfold consensus_checks_reject in Hc. destruct (is_coinbase tx); [done|]. destruct (negb (check_transaction tx)); [done|].
    destruct wits; [|done]. by destruct (negb _). }
  eexists. split; [done|]. split; [|rewrite txs_insert; apply lookup_insert_eq].
  unfold insert_accepted, update_dependency_graph. destruct (foldl _ _ _). cbn. apply lookup_insert_eq.
Qed.

(** [C39] The dry run is sound: when [preview_accept] and [script_rejects] pass
    and none of the checks that only admission makes rejects, admission accepts
    the transaction and records the fee the dry run reported, also when the
    transaction replaces others. *)
Theorem preview_accept_sound (env : Env) (tx : Tx) (wits : option (list Witness)) (s : Mempool) (utxos : coin_map)
    (fee : Z) :
  pool_ok s → no_preview s → admission_coins env tx s = Some (utxos, true) →
  preview_accept env tx wits utxos s = Ok fee → script_rejects env tx wits utxos s = false →
  only_admission_rejects env tx wits utxos s = false →
  ∃ s', add_transaction_with_witness env tx wits s = (s', Ok true) ∧ txs s' !! calculate_tx_id tx = Some tx ∧
    fee_basis (fees s') !! calculate_tx_id tx = Some (fee, (vsize_and_cost env tx wits utxos s).1).
Proof.
  intros Hok Hpv Hc Hp Hs Ho.
  destruct (preview_admissible _ _ _ _ _ _ Hc Hp Hs Ho) as (Ha & -> & Hlim & Hrep). clear Hp Hs Ho.
  set (vsize := (vsize_and_cost env tx wits utxos s).1) in *.
  pose proof (adm_spend _ _ _ _ _ _ Ha) as Hsp. unfold replacement_rejects in Hrep. case_bool_decide as Hd.
  - pose proof Ha as [Hpre _ _ Hf]. unfold add_transaction_with_witness. rewrite Hpre, Hc, Hsp. cbn [andb].
    rewrite (Hf eq_refl). rewrite bool_decide_eq_true_2 by done.
    assert (existsb (λ o, bool_decide (o ∈ spent_outputs (pool s))) (tx_inputs tx) = false) as ->.
    { apply not_true_iff_false. intros (o & Hin%list_elem_of_In & Hx%bool_decide_eq_true)%existsb_exists.
      rewrite (spent_spec _ (pool_tables _ Hok)) in Hx. apply elem_of_dom in Hx as [? Hx].
      by rewrite (no_direct_conflicts tx s Hd o Hin) in Hx. }
    destruct (finish_accepts env tx wits utxos s vsize (calculate_transaction_fee tx utxos s)
      (if bool_decide (0 < vsize) then calculate_transaction_fee tx utxos s / vsize else 0) s Hlim Hsp) as (s' & E & H1 & H2).
    by exists s'.
  - destruct (replacement_verdict _ _ _ _ _ _ _ _) as [[]|] eqn:Hv; [|done|done].
    assert (replaceable env tx wits utxos (direct_conflicts tx s) s = Ok true) as Hr.
    { revert Hv. unfold replacement_verdict. case_bool_decide; [done|]. by destruct (negb _). }
    pose proof (replaceable_displacement _ _ _ _ _ Hok Hr) as Hset.
    rewrite (displacing_admission _ _ _ _ _ _ _ Ha Hd Hset Hv). fold vsize.
    destruct (finish_accepts env tx wits utxos s vsize (calculate_transaction_fee tx utxos s)
      (if bool_decide (0 < vsize) then calculate_transaction_fee tx utxos s / vsize else 0) _
      (eq_trans (limits_after_displacement env tx s _ _ vsize Hok Hpv Hset) Hlim) Hsp) as (s' & E & H1 & H2).
    by exists s'.
Qed.
End PoolProps.

(** ** A concrete pool *)

Module PoolWitness.
Import IntegerU256 ToyConsensus.

(** Ids come from the locktime, sizes from the estimate, and scripts always pass. *)
#[global] Instance toy : TxOps := {|
  Network := unit;
  SpamFilterConfig := unit;
  calculate_tx_id tx := [z2b (lock_time tx)];
  serialized_len _ := 100;
  wire_len _ := Some 100;
  serialize_with_witness tx wits := Some (BitWire.frame tx wits);
  transaction_weight_from_stacks _ _ := None;
  is_coinbase _ := false;
  check_transaction _ := true;
  check_coinbase_maturity _ _ _ := true;
  is_final_tx _ _ _ := true;
  version_enforces_relative_lock _ := false;
  is_sequence_disabled _ := true;
  extract_sequence_type_flag _ := false;
  extract_sequence_locktime_value _ := 0;
  relative_lock_unsatisfied _ _ _ _ _ _ := Some false;
  is_any_witness_program _ := true;
  is_invalid_v0_witness_program _ := false;
  is_upgradable_witness_program _ := false;
  is_pay_to_anchor _ := false;
  p2sh_push_only_check _ := true;
  count_sigops_in_script _ := 0;
  get_legacy_sigop_count _ := 0;
  transaction_sigop_cost _ _ _ := Some 0;
  sigop_adjusted_vsize weight _ _ := (weight + 3) / 4;
  DEFAULT_BYTES_PER_SIGOP := 20;
  MAX_STANDARD_TX_SIGOPS_COST := 16000;
  script_flags _ _ _ := 0;
  STANDARD_SCRIPT_FLAGS := 0;
  verify_script _ _ _ _ _ _ _ _ _ := Some true;
  signals_rbf _ := true;
  has_conflict_with_tx a b := existsb (λ o, bool_decide (o ∈ tx_inputs b)) (tx_inputs a);
  replacement_checks _ _ _ _ _ := Ok true;
  is_spam _ _ _ := false;
|}.
#[global] Instance toy_size : TxSizeLaw.
Proof. intros tx. cbn. lia. Defined.

Definition tid (n : Z) : bytes := [z2b n].
Definition spend (n : Z) (ins : list OutPoint) (value : Z) : Tx :=
  mkTx 2 ((λ o, mkTxIn o [] 0) <$> ins) [mkTxOut value [Byte.x51]] n.
Definition coin (k : Z) : OutPoint := mkOut (tid 0) k.
Definition coins : coin_map :=
  <[coin 0 := mkUtxo 100000 [Byte.x51] 1 false]> {[coin 1 := mkUtxo 100000 [Byte.x51] 1 false]}.

(** [a] and [p] spend a coin each, [c] spends [p]; [r] spends the coin of [a]
    and the output of [p]. *)
Definition a : Tx := spend 1 [coin 0] 90000.
Definition p : Tx := spend 2 [coin 1] 90000.
Definition c : Tx := spend 3 [mkOut (tid 2) 0] 80000.
Definition r : Tx := spend 4 [coin 0; mkOut (tid 2) 0] 100000.

Definition env_with (policy : option MempoolPolicyConfig) (slot : UtxoSlot) : Env :=
  mkEnv toy policy None slot (λ _, None) (Some (101, 0)) (λ _, None) (Some tt) 1000.
Definition env : Env := env_with None (Wired coins).
(** At most one ancestor, the transaction itself. *)
Definition strict : MempoolPolicyConfig :=
  mkPolicy toy 300 100000 100 20 true 0 100 1 101000 25 101000 LowestFeeRate 336 true false None.
Definition strict_env : Env := env_with (Some strict) (Wired coins).
(** Room for one transaction. *)
Definition small : MempoolPolicyConfig :=
  mkPolicy toy 300 1 100 20 true 0 100 25 101000 25 101000 Hybrid 336 true false None.

Definition add (tx : Tx) (s : Mempool) : Mempool := (add_transaction_with_witness env tx None s).1.
Definition pool_ap : Mempool := add p (add a mempool_new).
Definition pool_pc : Mempool := add c (add p mempool_new).

Lemma reach_add tx s : reachable s → reachable (add tx s).
Proof. intros Hr. eapply rtc_r; [exact Hr|]. apply step_add. Qed.
Lemma reach_ap : reachable pool_ap.
Proof. apply reach_add, reach_add, rtc_refl. Qed.
Lemma reach_pc : reachable pool_pc.
Proof. apply reach_add, reach_add, rtc_refl. Qed.

(** [r] in place of [a]; [r2] in place of [r]. *)
Definition r2 : Tx := spend 5 [coin 0; mkOut (tid 2) 0] 50000.
Definition pool_r2 : Mempool := add r2 (add r pool_ap).
Lemma reach_r2 : reachable pool_r2.
Proof. apply reach_add, reach_add, reach_ap. Qed.
(** The parent is mined, its block is disconnected, and it comes back. *)
Definition pool_c : Mempool := remove_for_connected_block [p] pool_pc.
Definition pool_back : Mempool := apply_reorg [[p]] [] [] coins env pool_c.
Lemma reach_c : reachable pool_c.
Proof. eapply rtc_r; [exact reach_pc|]. apply step_block. Qed.

(** The only block to restore has one transaction: the parent is admitted. *)
Lemma back_readmits : pool_back = (add_transaction_with_witness env p None pool_c).1.
Proof. unfold pool_back, apply_reorg, restore_block. cbn -[add_transaction_with_witness pool_c]. reflexivity. Qed.

Definition coins_of (e : Env) (tx : Tx) (s : Mempool) : coin_map :=
  match admission_coins e tx s with Some (u, _) => u | None => ∅ end.

Lemma coins_of_wired e tx s :
  snd <$> admission_coins e tx s = Some true → admission_coins e tx s = Some (coins_of e tx s, true).
Proof. unfold coins_of. destruct (admission_coins e tx s) as [[u w]|]; [|done]. cbn. by intros [= ->]. Qed.
Lemma preview_ap : no_preview pool_ap.
Proof. split; apply (bool_decide_eq_true (_ = _)); by vm_compute. Qed.

Lemma pool_invariant_witness : reachable pool_ap ∧ pool_ok pool_ap.
Proof. split; [exact reach_ap|]. exact (proj1 (pool_invariant pool_ap reach_ap)). Defined.

Lemma triple_eta {A B C} (x : A * B * C) : x = (x.1.1, x.1.2, x.2).
Proof. by destruct x as [[]]. Qed.
Lemma evict_with_descendants_exact_witness :
  let e := evict_with_descendants (tid 2) pool_pc in
  in_pool (tid 2) pool_pc = true ∧ e.2 = 2%nat ∧ mempool_size_bytes e.1.1 = mempool_size_bytes pool_pc - e.1.2.
Proof.
  assert (in_pool (tid 2) pool_pc = true) as Hin by (by vm_compute).
  split; [exact Hin|]. split; [by vm_compute|].
  exact (proj1 (proj2 (evict_with_descendants_exact (tid 2) pool_pc _ _ _ (reachable_ok _ reach_pc) Hin
                         (triple_eta (evict_with_descendants (tid 2) pool_pc))))).
Defined.

Lemma enforced_caps_hold_witness :
  let s' := enforce_mempool_limits small 1000 pool_ap in
  size (txs pool_ap) = 2%nat ∧ Z.of_nat (size (txs s')) ≤ max_mempool_txs small.
Proof.
  split; [by vm_compute|]. apply (enforced_caps_hold small 1000 pool_ap reach_ap); cbn; lia.
Defined.

Lemma admission_outcome_witness :
  (add_transaction_with_witness env r None pool_ap).2 = Ok true ∧
  ∃ utxos wired displaced,
    admission_coins env r pool_ap = Some (utxos, wired) ∧
    (package_fee_and_vsize (policy_config env) displaced utxos pool_ap).1 +
      relay_fee (incremental_relay_fee (effective_policy env)) (vsize_and_cost env r None utxos pool_ap).1
    ≤ calculate_transaction_fee r utxos pool_ap.
Proof.
  assert ((add_transaction_with_witness env r None pool_ap).2 = Ok true) as E by (by vm_compute).
  split; [exact E|]. pose proof (run_eta (add_transaction_with_witness env r None) pool_ap _ E) as Er.
  destruct (admission_outcome env r None pool_ap _ _ (reachable_ok _ reach_ap) Er) as (u & w & d & Hc & _ & _ & Hpay).
  exists u, w, d. split; [exact Hc|]. apply Hpay. by vm_compute.
Defined.

(** The coins a strict pool sees for [r] and what it would displace. *)
Lemma r_admissible : admissible strict_env r None (coins_of strict_env r pool_ap) true pool_ap.
Proof. split; [by vm_compute|apply coins_of_wired; by vm_compute|by vm_compute|intros _; by vm_compute]. Qed.
Lemma rejected_replacement_evicts_witness :
  ∃ s', add_transaction_with_witness strict_env r None pool_ap = (s', Ok false) ∧
    txs s' !! tid 4 = None ∧ ∀ h, h ∈ direct_conflicts r pool_ap → h ∈ dom (txs pool_ap) ∧ txs s' !! h = None.
Proof.
  apply (rejected_replacement_evicts strict_env r None pool_ap (coins_of strict_env r pool_ap) true {[tid 1]}
           (reachable_ok _ reach_ap) preview_ap r_admissible).
  - by vm_compute.
  - apply (bool_decide_eq_true (_ = _)). by vm_compute.
  - by vm_compute.
  - by vm_compute.
Defined.

Lemma replacement_limit_never_binds_witness :
  replacement_count <$> rbf_tracking pool_r2 !! tid 5 = Some 1 ∧
  tracking_allows env (tid 5) pool_r2 =
    match rbf_tracking pool_r2 !! tid 5 with
    | Some t => bool_decide (cooldown_seconds (effective_rbf env) ≤ sat_sub (current_timestamp env) (last_replacement_time t))
    | None => true
    end.
Proof.
  split; [by vm_compute|]. apply (replacement_limit_never_binds env pool_r2 (tid 5) reach_r2). cbn. lia.
Defined.

(** The child is still there, and what it spends is nowhere. *)
Lemma readmitted_parent_orphans_child_witness :
  let s'' := (evict_with_descendants (tid 2) pool_back).1.1 in
  txs s'' !! tid 2 = None ∧ txs s'' !! tid 3 = Some c ∧ unknown_prevout c coins s'' true = true.
Proof.
  assert ((add_transaction_with_witness env p None pool_c).2 = Ok true) as E by (by vm_compute).
  pose proof (run_eta (add_transaction_with_witness env p None) pool_c _ E) as Er.
  rewrite back_readmits. destruct (readmitted_parent_orphans_child env p c None pool_c _ (tid 3) (reachable_ok _ reach_c) Er)
    as [H1 H2]; [by vm_compute|by left|by vm_compute|].
  split; [exact H1|]. split; [exact H2|]. by vm_compute.
Defined.

Lemma preview_accept_sound_witness :
  let utxos := coins_of env r pool_ap in
  preview_accept env r None utxos pool_ap = Ok 90000 ∧
  ∃ s', add_transaction_with_witness env r None pool_ap = (s', Ok true) ∧ txs s' !! tid 4 = Some r ∧
    fee_basis (fees s') !! tid 4 = Some (90000, (vsize_and_cost env r None utxos pool_ap).1).
Proof.
  split; [by vm_compute|].
  apply (preview_accept_sound env r None pool_ap (coins_of env r pool_ap) 90000 (reachable_ok _ reach_ap) preview_ap);
    [apply coins_of_wired|..]; by vm_compute.
Defined.

(** *** The pool on disk *)

#[local] Instance bit_laws : TxWireLaws BitWire.wire (λ _, True).
Proof.
  split.
  - intros tx _. exists []. split; [reflexivity|]. exact (BitWire.read_frame tx []).
  - intros tx wits _ _. exists (BitWire.frame tx wits), wits. split_and!; [reflexivity..|done|]. exact (BitWire.read_frame tx wits).
Qed.
Definition dump : CoreMempoolDat :=
  mkDat [mkCoreTx p None 0 25; mkCoreTx c (Some [[[Byte.x07]]]) 1700000000 (-4); mkCoreTx c (Some [[]]) 0 0]
    [(zero_hash, 5)] [zero_hash].
Lemma entry_plain_ok tx d : is_i64 d → entry_ok (λ _, True) (mkCoreTx tx None 0 d).
Proof. intros Hd. split_and!; cbn; unfold is_i64 in *; done || lia. Qed.
Lemma dump_ok : dat_ok (λ _, True) dump.
Proof.
  split_and!; cbn; try lia.
  - apply Forall_cons; split; [apply entry_plain_ok; unfold is_i64; lia|]. apply Forall_cons; split; [|apply Forall_singleton];
    split_and!; cbn; unfold is_i64; done || lia.
  - apply Forall_singleton. split; [apply is_hash_zero|]. cbn. unfold is_i64. lia.
  - apply Forall_singleton, is_hash_zero.
Qed.
Lemma mempool_file_roundtrip_witness :
  ct_witnesses <$> dat_txs (normal_dump dump) = [None; Some [[[Byte.x07]]]; None] ∧
  ∃ bs, encode dump = Ok bs ∧ decode bs = Ok (normal_dump dump) ∧
        decode (obfuscate (replicate 8 Byte.x5a) bs) = Ok (normal_dump dump).
Proof.
  split; [reflexivity|].
  destruct (mempool_file_roundtrip (λ _, True) dump dump_ok) as (bs & H1 & H2 & _ & H3). exists bs. split_and!; [done..|].
  by apply H3.
Defined.

(** The parent first, or the child first. *)
Lemma pool_dump_pc_ok : dat_ok (λ _, True) (pool_dump [p; c] pool_pc).
Proof.
  assert (dump_entry pool_pc p = mkCoreTx p None 0 0) as Ep by (by vm_compute).
  assert (dump_entry pool_pc c = mkCoreTx c None 0 0) as Ec by (by vm_compute).
  unfold pool_dump. rewrite !fmap_cons, Ep, Ec. split_and!; cbn; try lia; try done.
  apply Forall_cons; split; [|apply Forall_singleton]; apply entry_plain_ok; unfold is_i64; lia.
Qed.
Definition good_disk : Disk := mkDisk true 0 true true true true.
Lemma save_to_disk_atomic_witness :
  let fs : FileSystem := {[ "mempool.dat" := [Byte.x01] ]} in
  ∃ bs, (save_to_disk good_disk "mempool.dat" "mempool.dat.tmp" [p; c] pool_pc fs).1 !! "mempool.dat" = Some bs ∧
        decode bs = Ok (normal_dump (pool_dump [p; c] pool_pc)).
Proof.
  intros fs. destruct (save_to_disk good_disk "mempool.dat" "mempool.dat.tmp" [p; c] pool_pc fs) as [fs' r] eqn:E.
  destruct (save_to_disk_atomic (λ _, True) good_disk "mempool.dat" "mempool.dat.tmp" [p; c] pool_pc fs fs' r ltac:(done) E)
    as [_ Hr].
  destruct r as [u|e].
  - destruct Hr as (bs & _ & Hp & Hd). exists bs. split; [exact Hp|exact (Hd pool_dump_pc_ok)].
  - destruct Hr as [_ Hr]. discriminate (Hr pool_dump_pc_ok).
Defined.
Lemma load_from_disk_spec_witness :
  let l := load_from_disk env [] pool_pc in is_ok l.2 = false ∧ pool_ok l.1 ∧ dom (txs l.1) ⊆ dom (txs pool_pc).
Proof.
  intros l. assert (is_ok l.2 = false) as Hl by (by vm_compute). split; [exact Hl|].
  destruct (load_from_disk_spec env [] pool_pc _ _ (reachable_ok _ reach_pc) (surjective_pairing l)) as [Hok Hr].
  split; [exact Hok|]. destruct l.2; [done|]. by destruct Hr.
Defined.

(** The order of the file decides whether it loads.  A pool with a parent and
    its child is written in the order of a hash map; with the child first the
    load is refused as a whole, with the parent first both come back. *)
Theorem child_first_dump_refused :
  [c; p] ≡ₚ (map_to_list (txs pool_pc)).*2 ∧
  is_ok (admit_core_dump env (pool_dump [c; p] pool_pc) mempool_new).2 = false ∧
  is_ok (admit_core_dump env (pool_dump [p; c] pool_pc) mempool_new).2 = true.
Proof.
  split; [|split; by vm_compute]. apply (bool_decide_eq_true (_ ≡ₚ _)). by vm_compute.
Qed.
End PoolWitness.
