(* ===== verification/CompactBlock.v ===== *)
(** * CompactBlock: compact block relay

    [src/network/compact_blocks.rs] and its handlers in
    [src/network/wire_dispatch.rs]: short ids, the match of a compact block
    against the pool, the table of blocks that wait for transactions, and the
    answers to [cmpctblock], [getblocktxn] and [blocktxn]. *)

From S2P Require Import Prelude Bytes Interfaces ChainState MerkleBlock UtxoSnapshot TxPolicy Mempool MempoolProps.
Open Scope Z_scope.

(** ** Data *)

Abbreviation MAX_COMPACT_BLOCK_TXS := 100000 (only parsing).
Abbreviation MAX_COMPACT_MISSING := 128 (only parsing).
Abbreviation MAX_PENDING_COMPACT := 4 (only parsing).
Abbreviation MAX_PENDING_COMPACT_BYTES := (8 * 1024 * 1024) (only parsing).
(** 60 seconds, in nanoseconds. *)
Abbreviation COMPACT_ASSEMBLY_DEADLINE := 60000000000 (only parsing).

Abbreviation Slot := (Tx * option (list Witness))%type.
(** [blvm_protocol::bip152::CompactBlock]. *)
Record CompactBlock := mkCompact {
  cb_header : BlockHeader;
  cb_nonce : Z;
  short_ids : list bytes;
  prefilled_txs : list (nat * Slot);
}.
Record CompactAssembly := mkAssembly {
  as_header : BlockHeader;
  as_nonce : Z;
  slots : list (option Slot);
  missing : list nat;
  started : Z;
  short_id_bytes : Z;
}.
Record CompactBudget := mkBudget { assemblies : nat; retained_bytes : Z; same_hash : bool }.
Inductive CompactDecision := Hold (a : CompactAssembly) | FullBlock | KeepCurrent.
Inductive StagedCompact :=
| Fetch (hashes : list bytes)
| Complete (a : CompactAssembly) (expired : list bytes)
| Holes (indices : list nat) (expired : list bytes).
Record BlockTxn := mkBlockTxn { bt_hash : bytes; bt_txs : list Tx; bt_witnesses : option (list (list Witness)) }.
(** What a handler sends or queues. *)
Inductive Effect :=
| SendGetData (hash : bytes)
| SendGetBlockTxn (hash : bytes) (indices : list nat)
| SendBlockTxn (reply : BlockTxn)
| QueueBlock (data : bytes).
Abbreviation table := (gmap bytes CompactAssembly).

(** Called code: SHA-256, SipHash-2-4, the wire form of a block, the size of a
    slot, and the capacity of a vector made with [n] slots. *)
Class CompactOps := {
  sha256 : bytes → bytes;
  siphash24 : Z → Z → bytes → Z;
  serialize_block_with_witnesses : Block → list (list Witness) → bytes;
  slot_size : Z;
  capacity : nat → Z;
}.

Section Compact.
Context {U : U256Ops} {K : Consensus} {T : TxOps} {HW : HeaderWire} {CO : CompactOps}.

(** ** Short ids *)

Definition short_id_keys (h : BlockHeader) (nonce : Z) : Z * Z :=
  let hash := sha256 (serialize_block_header h ++ to_le 8 nonce) in
  (of_le (take 8 hash), of_le (take 8 (drop 8 hash))).
Definition calculate_short_tx_id (h : BlockHeader) (wtxid : bytes) (nonce : Z) : bytes :=
  let '(k0, k1) := short_id_keys h nonce in take 6 (to_le 8 (siphash24 k0 k1 wtxid)).

Definition conflicts (tx1 tx2 : Tx) : bool :=
  existsb (λ o1, existsb (λ o2, bool_decide (o1 = o2)) (tx_inputs tx2)) (tx_inputs tx1).

(** ** Matching *)

(** The next position of the block that is not prefilled. *)
Fixpoint skip_prefilled (fuel : nat) (prefilled : gset nat) (next : nat) : nat :=
  match fuel with
  | O => next
  | S fuel' => if bool_decide (next ∈ prefilled) then skip_prefilled fuel' prefilled (S next) else next
  end.
(** Short ids with their positions, in block order. *)
Fixpoint numbered (prefilled : gset nat) (next : nat) (ids : list bytes) : list (nat * bytes) :=
  match ids with
  | [] => []
  | id :: rest =>
      let block_index := skip_prefilled (size prefilled) prefilled next in
      (block_index, id) :: numbered prefilled (S block_index) rest
  end.
Definition prefilled_set (cb : CompactBlock) : gset nat := list_to_set (prefilled_txs cb).*1.
Definition positions (cb : CompactBlock) : list (nat * bytes) := numbered (prefilled_set cb) 0 (short_ids cb).

(** The pool rows, keyed by witness id, that have this short id. *)
Definition by_short {A} (cb : CompactBlock) (pool : gmap bytes A) (id : bytes) : list A :=
  (filter (λ p : bytes * A, calculate_short_tx_id (cb_header cb) p.1 (cb_nonce cb) = id) (map_to_list pool)).*2.

(** Exactly one match, which spends nothing a chosen transaction spends. *)
Definition match_step (cb : CompactBlock) (pool : gmap bytes Tx) (acc : list (nat * Tx) * list nat) (p : nat * bytes)
    : list (nat * Tx) * list nat :=
  let '(matched, missing) := acc in
  match by_short cb pool p.2 with
  | [tx] =>
      if existsb (λ q : nat * Tx, conflicts tx q.2) matched || existsb (λ q : nat * Slot, conflicts tx q.2.1) (prefilled_txs cb)
      then (matched, missing ++ [p.1]) else (matched ++ [(p.1, tx)], missing)
  | _ => (matched, missing ++ [p.1])
  end.
Definition reconstruct_block (cb : CompactBlock) (pool : gmap bytes Tx) : list nat :=
  (foldl (match_step cb pool) ([], []) (positions cb)).2.

(** ** Assemblies *)

Fixpoint place_prefilled (n : nat) (rows : list (nat * Slot)) (l : list (option Slot)) : result (list (option Slot)) :=
  match rows with
  | [] => Ok l
  | (i, s) :: rest =>
      if (n <=? i)%nat then Err "prefilled compact-block index is past the block"
      else place_prefilled n rest (<[i := Some s]> l)
  end.
Definition place_match (cb : CompactBlock) (pool : gmap bytes Slot) (miss : gset nat) (l : list (option Slot)) (p : nat * bytes)
    : list (option Slot) :=
  if bool_decide (p.1 ∈ miss) then l
  else match by_short cb pool p.2 with
       | found :: _ => if (p.1 <? length l)%nat then <[p.1 := Some found]> l else l
       | [] => l
       end.
Definition begin_compact_assembly (now : Z) (cb : CompactBlock) (pool : gmap bytes Slot) : result CompactAssembly :=
  let miss := reconstruct_block cb (fst <$> pool) in
  let n := (length (short_ids cb) + length (prefilled_txs cb))%nat in
  let+ filled := place_prefilled n (prefilled_txs cb) (replicate n None) in
  Ok (mkAssembly (cb_header cb) (cb_nonce cb)
        (foldl (place_match cb pool (list_to_set miss)) filled (positions cb)) miss now
        (6 * Z.of_nat (length (short_ids cb)))).

Definition expired_at (a : CompactAssembly) (now : Z) : bool := COMPACT_ASSEMBLY_DEADLINE <=? sat_sub now (started a).

Definition serialized_slot_bytes (s : Slot) : Z :=
  sat_add (serialized_len s.1)
    (match s.2 with
     | Some stacks => as_u64 (sum_z ((λ stack, as_u64 (sum_z ((λ item, Z.of_nat (length item)) <$> stack))) <$> stacks))
     | None => 0
     end).
Definition assembly_retained_bytes (a : CompactAssembly) : Z :=
  let tx_bytes := as_u64 (sum_z (serialized_slot_bytes <$> omap id (slots a))) in
  let slot_bytes := Z.min (capacity (length (slots a)) * slot_size) u64_max in
  sat_add (sat_add tx_bytes slot_bytes) (short_id_bytes a).

Definition decide_compact_block (now : Z) (cb : CompactBlock) (pool : gmap bytes Slot) (b : CompactBudget) : result CompactDecision :=
  if MAX_COMPACT_BLOCK_TXS <? Z.of_nat (length (short_ids cb) + length (prefilled_txs cb)) then Ok FullBlock
  else
    let+ a := begin_compact_assembly now cb pool in
    if (MAX_COMPACT_MISSING <? Z.of_nat (length (missing a))) || existsb (λ i, 65535 <? Z.of_nat i) (missing a) then Ok FullBlock
    else if MAX_PENDING_COMPACT <? Z.of_nat (assemblies b) + (if same_hash b then 0 else 1) then Ok FullBlock
    else if MAX_PENDING_COMPACT_BYTES <? sat_add (retained_bytes b) (assembly_retained_bytes a) then
      Ok (if same_hash b then KeepCurrent else FullBlock)
    else Ok (Hold a).

Fixpoint fill_slots (idx : list nat) (txs : list Tx) (wits : option (list (list Witness))) (i : nat) (l : list (option Slot))
    : result (list (option Slot)) :=
  match idx, txs with
  | index :: idx', tx :: txs' =>
      if (length l <=? index)%nat then Err "blocktxn index is past the compact block"
      else fill_slots idx' txs' wits (S i) (<[index := Some (tx, all ← wits; all !! i)]> l)
  | _, _ => Ok l
  end.
Definition apply_blocktxn (a : CompactAssembly) (txs : list Tx) (wits : option (list (list Witness))) : result CompactAssembly :=
  if negb (length txs =? length (missing a))%nat then Err "blocktxn count does not match the missing positions"
  else
    let+ filled := fill_slots (missing a) txs wits 0 (slots a) in
    Ok (mkAssembly (as_header a) (as_nonce a) filled [] (started a) (short_id_bytes a)).

(** A transaction without stacks has an empty one for each input. *)
Definition stacks_of (s : Slot) : list Witness := default ((λ _, []) <$> tx_ins s.1) s.2.
Fixpoint completed_slots (l : list (option Slot)) : result (list Slot) :=
  match l with
  | [] => Ok []
  | None :: _ => Err "compact block position is still missing"
  | Some s :: rest => let+ done := completed_slots rest in Ok (s :: done)
  end.
Definition completed_compact_block (a : CompactAssembly) : result (Block * list (list Witness)) :=
  let+ done := completed_slots (slots a) in Ok (mkBlock (as_header a) done.*1, stacks_of <$> done).

(** ** The sender *)

Fixpoint compact_rows (h : BlockHeader) (nonce : Z) (prefilled : gset nat) (witnesses : list (option (list Witness)))
    (i : nat) (txs : list Tx) : list bytes * list (nat * Slot) :=
  match txs with
  | [] => ([], [])
  | tx :: rest =>
      let '(ids, rows) := compact_rows h nonce prefilled witnesses (S i) rest in
      let stacks : option (list Witness) := default None (witnesses !! i) in
      if bool_decide (i ∈ prefilled) then
        (ids, (i, (tx, if existsb (λ stack, negb (bool_decide (stack = []))) (default [] stacks) then stacks else None)) :: rows)
      else (calculate_short_tx_id h (calculate_wtxid tx stacks) nonce :: ids, rows)
  end.
Definition create_compact_block_with_witnesses (b : Block) (nonce : Z) (prefilled : gset nat)
    (witnesses : list (option (list Witness))) : CompactBlock :=
  let '(ids, rows) := compact_rows (blk_header b) nonce prefilled witnesses 0 (block_txs b) in
  mkCompact (blk_header b) nonce ids rows.

(** [MempoolManager::transactions_for_short_ids]; where two pooled
    transactions share a witness id, one of them is kept. *)
Definition transactions_for_short_ids (h : BlockHeader) (nonce : Z) (ids : list bytes) (s : Mempool) : gmap bytes Slot :=
  list_to_map (omap (λ p : bytes * Tx,
    let wits := tx_witnesses (pool s) !! p.1 in
    let wtxid := default (calculate_wtxid p.2 wits) (wtxids (pool s) !! p.1) in
    if bool_decide (calculate_short_tx_id h wtxid nonce ∈ ids) then Some (wtxid, (p.2, wits)) else None)
    (map_to_list (txs s))).

(** ** Handlers *)

Definition block_hash_from_header (h : BlockHeader) : bytes := hash256 (header_bytes h).

Definition queue_completed_compact (a : CompactAssembly) : result (list Effect) :=
  let+ done := completed_compact_block a in Ok [QueueBlock (serialize_block_with_witnesses done.1 done.2)].

(** The table without the expired assemblies, their hashes, and the decision.
    [now] is the clock of the expiry, [now'] the one of the new assembly. *)
Definition stage_compact_block (now now' : Z) (hash : bytes) (cb : CompactBlock) (pool : gmap bytes Slot) (pending : table)
    : table * result StagedCompact :=
  let expired := (filter (λ p : bytes * CompactAssembly, expired_at p.2 now = true) (map_to_list pending)).*1 in
  let live := filter (λ p : bytes * CompactAssembly, expired_at p.2 now = false) pending in
  let same := bool_decide (is_Some (live !! hash)) in
  let budget := mkBudget (size live - (if same then 1 else 0))
    (as_u64 (sum_z (assembly_retained_bytes <$> (map_to_list (delete hash live)).*2))) same in
  match decide_compact_block now' cb pool budget with
  | Err e => (live, Err e)
  | Ok FullBlock => (live, Ok (Fetch (expired ++ [hash])))
  | Ok KeepCurrent => (live, Ok (Fetch expired))
  | Ok (Hold a) =>
      let a := mkAssembly (as_header a) (as_nonce a) (slots a) (missing a)
                 (match live !! hash with Some previous => started previous | None => started a end) (short_id_bytes a) in
      match missing a with
      | [] => (live, Ok (Complete a expired))
      | idx => (<[hash := a]> live, Ok (Holes idx expired))
      end
  end.

Definition handle_cmpctblock (now now' : Z) (mm : option Mempool) (cb : CompactBlock) (pending : table)
    : table * list Effect * result unit :=
  let hash := block_hash_from_header (cb_header cb) in
  if MAX_COMPACT_BLOCK_TXS <? Z.of_nat (length (short_ids cb) + length (prefilled_txs cb))
  then (pending, [SendGetData hash], Ok ())
  else
    let matches := default ∅ (transactions_for_short_ids (cb_header cb) (cb_nonce cb) (short_ids cb) <$> mm) in
    match stage_compact_block now now' hash cb matches pending with
    | (pending', Err e) => (pending', [], Err e)
    | (pending', Ok (Fetch hashes)) => (pending', SendGetData <$> hashes, Ok ())
    | (pending', Ok (Complete a expired)) =>
        match queue_completed_compact a with
        | Ok queued => (pending', (SendGetData <$> expired) ++ queued, Ok ())
        | Err e => (pending', SendGetData <$> expired, Err e)
        end
    | (pending', Ok (Holes indices expired)) =>
        (pending', (SendGetData <$> expired) ++ [SendGetBlockTxn hash indices], Ok ())
    end.

Definition handle_blocktxn_fill (msg : BlockTxn) (pending : table) : table * list Effect * result unit :=
  match pending !! bt_hash msg with
  | None => (pending, [], Ok ())
  | Some a =>
      let pending' := delete (bt_hash msg) pending in
      match (let+ a' := apply_blocktxn a (bt_txs msg) (bt_witnesses msg) in queue_completed_compact a') with
      | Ok queued => (pending', queued, Ok ())
      | Err e => (pending', [], Err e)
      end
  end.

(** [block] and [witness] are what the store has under the hash. *)
Definition handle_getblocktxn (block : option Block) (witness : option (list (list Witness))) (hash : bytes) (indices : list nat)
    : list Effect * result unit :=
  match block with
  | None => ([], Ok ())
  | Some b =>
      if existsb (λ i, (length (block_txs b) <=? i)%nat) indices then ([], Err "getblocktxn index past end of block")
      else ([SendBlockTxn (mkBlockTxn hash (omap (λ i, block_txs b !! i) indices)
               ((λ all : list (list Witness), (λ i, default [] (all !! i)) <$> indices) <$> witness))], Ok ())
  end.

(** ** Positions *)

Lemma skip_spec fuel pf next :
  let i := skip_prefilled fuel pf next in
  (next ≤ i)%nat ∧ (∀ j, (next ≤ j < i)%nat → j ∈ pf) ∧ (i ∈ pf → i = next + fuel)%nat.
Proof.
  revert next. induction fuel as [|fuel IH]; intros next; cbn [skip_prefilled]; [split_and!; lia|].
  case_bool_decide as Hin; [|split_and!; [lia|lia|done]]. destruct (IH (S next)) as (H1 & H2 & H3).
  split_and!; [lia| |intros; lia || (rewrite H3 by done; lia)].
  intros j Hj. destruct (decide (j = next)) as [->|]; [done|]. apply H2. lia.
Qed.
(** Skipping as many positions as are prefilled reaches a free one. *)
Lemma skip_free pf next :
  let i := skip_prefilled (size pf) pf next in (next ≤ i)%nat ∧ (∀ j, (next ≤ j < i)%nat → j ∈ pf) ∧ i ∉ pf.
Proof.
  destruct (skip_spec (size pf) pf next) as (H1 & H2 & H3). split_and!; [done|done|]. intros Hin. specialize (H3 Hin).
  assert (set_seq next (S (size pf)) ⊆ pf) as Hsub.
  { intros j Hj%elem_of_set_seq. destruct (decide (j = skip_prefilled (size pf) pf next)) as [->|]; [done|]. apply H2. lia. }
  apply subseteq_size in Hsub. rewrite size_set_seq in Hsub. lia.
Qed.
Lemma skip_unique pf next i :
  (next ≤ i)%nat → (∀ j, (next ≤ j < i)%nat → j ∈ pf) → i ∉ pf → skip_prefilled (size pf) pf next = i.
Proof.
  intros Hle Hin Hi. destruct (skip_free pf next) as (H1 & H2 & H3).
  destruct (Nat.lt_trichotomy (skip_prefilled (size pf) pf next) i) as [Hlt|[?|Hlt]]; [|done|].
  - destruct H3. apply Hin. lia.
  - destruct Hi. apply H2. lia.
Qed.
Lemma skip_step pf next : next ∈ pf → skip_prefilled (size pf) pf next = skip_prefilled (size pf) pf (S next).
Proof.
  intros Hn. destruct (skip_free pf (S next)) as (H1 & H2 & H3). apply skip_unique; [lia| |done].
  intros j Hj. destruct (decide (j = next)) as [->|]; [done|]. apply H2. lia.
Qed.
Lemma skip_here pf next : next ∉ pf → skip_prefilled (size pf) pf next = next.
Proof. intros. apply skip_unique; [lia|lia|done]. Qed.

Lemma numbered_step pf next ids : next ∈ pf → numbered pf next ids = numbered pf (S next) ids.
Proof. intros Hn. destruct ids as [|id ids]; [done|]. cbn [numbered]. by rewrite skip_step. Qed.

Definition free (pf : gset nat) (start n : nat) : list nat := filter (λ i, i ∉ pf) (seq start n).
Lemma free_cons pf start n :
  free pf start (S n) = if bool_decide (start ∈ pf) then free pf (S start) n else start :: free pf (S start) n.
Proof.
  unfold free. cbn [seq]. case_bool_decide; [by rewrite filter_cons_False by tauto|by rewrite filter_cons_True].
Qed.
Lemma numbered_free pf start n ids :
  length ids = length (free pf start n) → (numbered pf start ids).*1 = free pf start n.
Proof.
  revert start ids. induction n as [|n IH]; intros start ids Hl; [by destruct ids|].
  rewrite free_cons in *. case_bool_decide as Hin; [rewrite numbered_step by done; by apply IH|].
  destruct ids as [|id ids]; [done|]. cbn [numbered fmap list_fmap fst]. rewrite skip_here by done. f_equal. apply IH. by injection Hl.
Qed.
Lemma elem_of_free pf start n i : i ∈ free pf start n ↔ (i ∉ pf) ∧ (start ≤ i < start + n)%nat.
Proof. unfold free. by rewrite list_elem_of_filter, elem_of_seq. Qed.
Lemma length_free pf n : pf ⊆ set_seq 0 n → length (free pf 0 n) = (n - size pf)%nat.
Proof.
  intros Hsub. transitivity (size (set_seq 0 n ∖ pf : gset nat)); [|by rewrite size_difference, size_set_seq].
  rewrite <-(size_list_to_set (C := gset nat) (free pf 0 n)) by apply NoDup_filter, NoDup_seq.
  f_equal. apply set_eq. intros i. rewrite elem_of_list_to_set, elem_of_free, elem_of_difference, elem_of_set_seq. naive_solver.
Qed.

(** ** Slots *)

Definition filled (l : list (option Slot)) (i : nat) : Prop := ∃ s, l !! i = Some (Some s).
Definition sound (P : nat → Slot → Prop) (l : list (option Slot)) : Prop := ∀ i s, l !! i = Some (Some s) → P i s.

Lemma sound_insert P l i s : sound P l → P i s → sound P (<[i := Some s]> l).
Proof. intros Hl Hs j t Hj. apply list_lookup_insert_Some in Hj as [(-> & [= ->] & _)|[_ Hj]]; [done|by apply Hl]. Qed.
Lemma filled_insert l i j s : (i < length l)%nat → j = i ∨ filled l j → filled (<[i := Some s]> l) j.
Proof.
  intros Hi Hj. destruct (decide (j = i)) as [->|Hne]; [exists s; by rewrite list_lookup_insert_eq|].
  destruct Hj as [?|[t Ht]]; [done|]. exists t. by rewrite list_lookup_insert_ne.
Qed.

Lemma place_prefilled_spec P n rows l l' :
  length l = n → Forall (λ p, P p.1 p.2) rows → sound P l → place_prefilled n rows l = Ok l' →
  length l' = n ∧ Forall (λ p, p.1 < n)%nat rows ∧ sound P l' ∧ ∀ j, j ∈ rows.*1 ∨ filled l j → filled l' j.
Proof.
  revert l. induction rows as [|[i s] rows IH]; intros l Hn HP Hl; cbn [place_prefilled].
  { intros [= <-]. split_and!; [done|done|done|]. intros j [Hj|?]; [by apply elem_of_nil in Hj|done]. }
  apply Forall_cons in HP as [Hs HP]. destruct (Nat.leb_spec n i); [done|].
  intros (H1 & H2 & H3 & H4)%IH; [|by rewrite length_insert|done|by apply sound_insert].
  split_and!; [done|by constructor|done|]. intros j Hj. apply H4. cbn in Hj. rewrite elem_of_cons in Hj.
  destruct Hj as [[->|?]|?]; [|by left|]; right; (apply filled_insert; [lia|]); tauto.
Qed.

Lemma match_fold cb pool ps matched miss :
  ∃ new, (foldl (match_step cb pool) (matched, miss) ps).2 = miss ++ new ∧ new `sublist_of` ps.*1 ∧
    ∀ p, p ∈ ps → p.1 ∉ new → ∃ tx, by_short cb pool p.2 = [tx].
Proof.
  revert matched miss. induction ps as [|p ps IH]; intros matched miss; cbn [foldl].
  { exists []. rewrite app_nil_r. split_and!; [done|done|]. by intros p Hp%elem_of_nil. }
  assert ((∃ m', match_step cb pool (matched, miss) p = (m', miss ++ [p.1])) ∨
          (∃ m' tx, match_step cb pool (matched, miss) p = (m', miss) ∧ by_short cb pool p.2 = [tx])) as [[m' ->]|(m' & tx & -> & Htx)].
  { unfold match_step. destruct (by_short cb pool p.2) as [|tx [|]]; [by left; eauto| |by left; eauto]. destruct (_ || _); [left|right]; eauto. }
  - destruct (IH m' (miss ++ [p.1])) as (new & -> & Hs & Hall). exists (p.1 :: new). rewrite <-(assoc_L (++)).
    split_and!; [done|cbn; by constructor|]. intros q Hq Hn. apply elem_of_cons in Hq as [->|Hq]; [set_solver|]. apply Hall; set_solver.
  - destruct (IH m' miss) as (new & -> & Hs & Hall). exists new. split_and!; [done|cbn; by constructor|].
    intros q Hq Hn. apply elem_of_cons in Hq as [->|Hq]; [eauto|]. by apply Hall.
Qed.
Lemma by_short_fst (cb : CompactBlock) (pool : gmap bytes Slot) (id : bytes) (tx : Tx) :
  by_short cb (fst <$> pool) id = [tx] → ∃ w, by_short cb pool id = [(tx, w)].
Proof.
  intros Hs. assert (by_short cb (fst <$> pool) id ≡ₚ (by_short cb pool id).*1) as Hp.
  { unfold by_short. rewrite map_to_list_fmap. induction (map_to_list pool) as [|[k [t w]] l IH]; [done|]. cbn [fmap list_fmap prod_map].
    rewrite !filter_cons. cbn [fst prod_map Datatypes.id]. case_decide; [by apply perm_skip|exact IH]. }
  rewrite Hs in Hp. apply Permutation_singleton_l in Hp. destruct (by_short cb pool id) as [|[t w] [|]]; naive_solver.
Qed.
Lemma place_matches_spec P cb pool miss ps l :
  Forall (λ p, (p.1 < length l)%nat ∧ (p.1 ∉ miss → Forall (P p.1) (by_short cb pool p.2) ∧ by_short cb pool p.2 ≠ [])) ps →
  sound P l →
  let l' := foldl (place_match cb pool miss) l ps in
  length l' = length l ∧ sound P l' ∧ ∀ j, (j ∈ ps.*1 ∧ j ∉ miss) ∨ filled l j → filled l' j.
Proof.
  revert l. induction ps as [|p ps IH]; intros l Hps Hl; cbn [foldl].
  { split_and!; [done|done|]. intros j [[Hj _]|?]; [by apply elem_of_nil in Hj|done]. }
  apply Forall_cons in Hps as [[Hlt Hp] Hps]. unfold place_match at 2 4 6. case_bool_decide as Hm.
  { destruct (IH l Hps Hl) as (H1 & H2 & H3). split_and!; [done|done|]. intros j Hj. apply H3. cbn in Hj. set_solver. }
  destruct (Hp Hm) as [Hall Hne]. destruct (by_short cb pool p.2) as [|s rest]; [done|]. apply Forall_cons in Hall as [Hs _].
  destruct (Nat.ltb_spec p.1 (length l)); [|lia].
  destruct (IH (<[p.1 := Some s]> l)) as (H1 & H2 & H3); [by rewrite length_insert|by apply sound_insert|].
  rewrite length_insert in H1. split_and!; [done|done|]. intros j Hj. apply H3. cbn in Hj. rewrite elem_of_cons in Hj.
  destruct Hj as [[[->|?] ?]|?]; [right; apply filled_insert; [done|by left]|by left|right; apply filled_insert; [done|by right]].
Qed.

(** ** New assemblies *)

(** Well-formed compact blocks: the positions of the prefilled transactions
    differ.  The BIP152 message codes them by their differences, so every parsed
    message has this form. *)
Definition compact_ok (cb : CompactBlock) : Prop := NoDup (prefilled_txs cb).*1.

Lemma positions_free cb n :
  compact_ok cb → n = (length (short_ids cb) + length (prefilled_txs cb))%nat → Forall (λ p, p.1 < n)%nat (prefilled_txs cb) →
  (positions cb).*1 = free (prefilled_set cb) 0 n.
Proof.
  intros Hok Hn Hlt. apply numbered_free. rewrite length_free.
  - unfold prefilled_set. rewrite size_list_to_set by done. rewrite length_fmap. lia.
  - intros i. unfold prefilled_set. rewrite elem_of_list_to_set, list_elem_of_fmap, elem_of_set_seq.
    intros (p & -> & Hp). rewrite Forall_forall in Hlt. specialize (Hlt p Hp). lia.
Qed.

(** A slot is empty exactly when its position is missing. *)
Definition holes_ok (a : CompactAssembly) : Prop :=
  NoDup (missing a) ∧ Forall (λ i, i < length (slots a))%nat (missing a) ∧
  ∀ i, (i < length (slots a))%nat → filled (slots a) i ↔ i ∉ missing a.

Lemma begin_spec P now cb pool a :
  compact_ok cb → begin_compact_assembly now cb pool = Ok a →
  Forall (λ p, P p.1 p.2) (prefilled_txs cb) →
  (∀ i id s, (i, id) ∈ positions cb → s ∈ by_short cb pool id → P i s) →
  holes_ok a ∧ sound P (slots a) ∧ as_header a = cb_header cb ∧
  length (slots a) = (length (short_ids cb) + length (prefilled_txs cb))%nat ∧ started a = now ∧
  0 ≤ short_id_bytes a.
Proof.
  intros Hok. unfold begin_compact_assembly. set (n := (_ + _)%nat). intros (l & Hl & [= <-])%rbind_inv_ok HP Hm.
  destruct (match_fold cb (fst <$> pool) (positions cb) [] []) as (new & Hnew & Hsub & Hone). fold (reconstruct_block cb (fst <$> pool)) in Hnew.
  cbn [app] in Hnew. rewrite Hnew. set (Q i s := P i s ∧ i ∉ new).
  assert (∀ j : nat, replicate n (@None Slot) !! j = Some None ∨ replicate n (@None Slot) !! j = None) as Hrep.
  { intros j. destruct (replicate n None !! j) as [o|] eqn:E; [|by right]. apply lookup_replicate in E as [-> _]. by left. }
  assert (Forall (λ p, p.1 < n)%nat (prefilled_txs cb)) as Hlt.
  { eapply (place_prefilled_spec (λ _ _, True)) in Hl as (_ & H & _); [done|by rewrite length_replicate|by apply Forall_true|]. by intros i s. }
  pose proof (positions_free cb n Hok eq_refl Hlt) as Hpos. rewrite Hpos in Hsub.
  assert (∀ i, i ∈ new → (i ∉ prefilled_set cb) ∧ (i < n)%nat) as Hrange.
  { intros i Hi. eapply elem_of_sublist in Hi; [|exact Hsub]. apply elem_of_free in Hi. naive_solver lia. }
  apply (place_prefilled_spec Q) in Hl as (Hlen & _ & Hs & Hfill).
  2: { by rewrite length_replicate. }
  2: { apply Forall_forall. intros [i s] Hi. rewrite Forall_forall in HP. split; [by apply (HP _ Hi)|]. intros [Hn _]%Hrange.
       apply Hn. unfold prefilled_set. rewrite elem_of_list_to_set. by apply (list_elem_of_fmap_2 fst _ _ Hi). }
  2: { intros i s Hi. destruct (Hrep i); congruence. }
  destruct (place_matches_spec Q cb pool (list_to_set new) (positions cb) l) as (Hlen' & Hs' & Hfill').
  { apply Forall_forall. intros [i id] Hi. cbn [fst snd]. split.
    - rewrite Hlen. apply (list_elem_of_fmap_2 fst) in Hi. rewrite Hpos in Hi. apply elem_of_free in Hi as [_ Hi]. cbn [fst] in Hi. lia.
    - rewrite elem_of_list_to_set. intros Hn. destruct (Hone _ Hi Hn) as (tx & [w Hw]%by_short_fst). cbn [snd] in Hw. split; [|by rewrite Hw].
      apply Forall_forall. intros s Hin. split; [by eapply Hm|done]. }
  { done. }
  cbn [missing slots as_header started short_id_bytes]. split; [|split_and!; [by intros i s [? _]%Hs'|done|by rewrite Hlen'|done|lia]].
  unfold holes_ok. cbn [missing slots]. split_and!.
  - eapply sublist_NoDup; [|exact Hsub]. apply NoDup_filter, NoDup_seq.
  - apply Forall_forall. intros i [_ Hi]%Hrange. by rewrite Hlen', Hlen.
  - intros i Hi. rewrite Hlen', Hlen in Hi. split; [by intros (s & [_ ?]%Hs')|]. intros Hn. apply Hfill'.
    destruct (decide (i ∈ prefilled_set cb)) as [Hin|Hin].
    + right. apply Hfill. left. unfold prefilled_set in Hin. by rewrite elem_of_list_to_set in Hin.
    + left. split; [|by rewrite elem_of_list_to_set]. rewrite Hpos. apply elem_of_free. split; [done|lia].
Qed.

(** ** Completion *)

Lemma completed_ok l : (∀ i, (i < length l)%nat → filled l i) → ∃ done, completed_slots l = Ok done ∧ l = Some <$> done.
Proof.
  induction l as [|o l IH]; intros Hall; [by exists []|]. destruct (Hall 0%nat) as [s Hs]; [cbn; lia|]. cbn in Hs. injection Hs as ->.
  destruct IH as (done & Hd & ->); [intros i Hi; apply (Hall (S i)); cbn; lia|]. exists (s :: done). cbn [completed_slots]. by rewrite Hd.
Qed.
(** The block and the stacks of a list of slots. *)
Definition queued (h : BlockHeader) (l : list Slot) : Effect :=
  QueueBlock (serialize_block_with_witnesses (mkBlock h l.*1) (stacks_of <$> l)).
Lemma queue_ok P a :
  (∀ i, (i < length (slots a))%nat → filled (slots a) i) → sound P (slots a) →
  ∃ done, queue_completed_compact a = Ok [queued (as_header a) done] ∧ length done = length (slots a) ∧
          ∀ i s, done !! i = Some s → P i s.
Proof.
  intros Hall Hs. destruct (completed_ok _ Hall) as (done & Hd & El). exists done.
  unfold queue_completed_compact, completed_compact_block. rewrite Hd. split; [done|]. rewrite El, length_fmap. split; [done|].
  intros i s Hi. apply Hs. by rewrite El, list_lookup_fmap, Hi.
Qed.

Lemma fill_slots_spec P idx txs wits k l :
  Forall (λ i, i < length l)%nat idx → length txs = length idx → sound P l →
  (∀ m i tx, idx !! m = Some i → txs !! m = Some tx → P i (tx, all ← wits; all !! (k + m)%nat)) →
  ∃ l', fill_slots idx txs wits k l = Ok l' ∧ length l' = length l ∧ sound P l' ∧ ∀ j, j ∈ idx ∨ filled l j → filled l' j.
Proof.
  revert txs k l. induction idx as [|i idx IH]; intros [|tx txs] k l Hlt Hlen Hs HP; try done; cbn [fill_slots].
  { exists l. split_and!; [done..|]. intros j [Hj|?]; [by apply elem_of_nil in Hj|done]. }
  apply Forall_cons in Hlt as [Hi Hlt]. destruct (Nat.leb_spec (length l) i); [lia|].
  destruct (IH txs (S k) (<[i := Some (tx, all ← wits; all !! k)]> l)) as (l' & H1 & H2 & H3 & H4).
  - by rewrite length_insert.
  - by injection Hlen.
  - apply sound_insert; [done|]. specialize (HP 0%nat i tx eq_refl eq_refl). by rewrite Nat.add_0_r in HP.
  - intros m j t Hm Ht. specialize (HP (S m) j t Hm Ht). by rewrite <-plus_n_Sm in HP.
  - rewrite length_insert in H2. exists l'. split_and!; [done..|]. intros j Hj. apply H4. rewrite elem_of_cons in Hj.
    destruct Hj as [[->|?]|?]; [|by left|]; right; (apply filled_insert; [done|]); tauto.
Qed.

(** A [blocktxn] with as many transactions as are missing completes the block. *)
Lemma fill_completes P a txs wits :
  holes_ok a → length txs = length (missing a) → sound P (slots a) →
  (∀ m i tx, missing a !! m = Some i → txs !! m = Some tx → P i (tx, all ← wits; all !! m)) →
  ∃ done, (let+ a' := apply_blocktxn a txs wits in queue_completed_compact a') = Ok [queued (as_header a) done] ∧
          length done = length (slots a) ∧ ∀ i s, done !! i = Some s → P i s.
Proof.
  intros (_ & Hlt & Hholes) Hlen Hs HP. unfold apply_blocktxn. rewrite (proj2 (Nat.eqb_eq _ _) Hlen). cbn [negb].
  destruct (fill_slots_spec P (missing a) txs wits 0 (slots a) Hlt Hlen Hs HP) as (l & -> & Hl & Hs' & Hf). cbn [rbind].
  rewrite <-Hl. apply (queue_ok P (mkAssembly _ _ l _ _ _)); [|done]. cbn [slots]. intros i Hi. apply Hf.
  destruct (decide (i ∈ missing a)); [by left|]. right. apply Hholes; [lia|done].
Qed.

(** ** Decisions *)

Lemma decide_hold now cb pool bud a :
  decide_compact_block now cb pool bud = Ok (Hold a) →
  begin_compact_assembly now cb pool = Ok a ∧ (length (missing a) ≤ 128)%nat ∧ Forall (λ i, Z.of_nat i < 2 ^ 16) (missing a) ∧
  Z.of_nat (assemblies bud) + (if same_hash bud then 0 else 1) ≤ 4 ∧ retained_bytes bud + assembly_retained_bytes a ≤ 8 * 1024 * 1024.
Proof.
  unfold decide_compact_block. destruct (_ <? _); [done|]. intros (a0 & Ha & Hd)%rbind_inv_ok.
  destruct (_ || _) eqn:E1; [done|]. apply orb_false_iff in E1 as [E1 E2]. apply Z.ltb_ge in E1.
  destruct (Z.ltb_spec 4 (Z.of_nat (assemblies bud) + if same_hash bud then 0 else 1)); [done|].
  destruct (Z.ltb_spec (8 * 1024 * 1024) (sat_add (retained_bytes bud) (assembly_retained_bytes a0))) as [|Hb]; [by destruct (same_hash bud)|].
  injection Hd as <-. split_and!; [done|lia| |done|unfold sat_add, u64_max in Hb; lia].
  apply Forall_forall. intros i Hi. destruct (Z.ltb_spec 65535 (Z.of_nat i)) as [Hlt|]; [|lia].
  exfalso. assert (existsb (λ i, 65535 <? Z.of_nat i) (missing a0) = true) as Ht; [|congruence].
  apply existsb_exists. exists i. split; [by apply list_elem_of_In|by apply Z.ltb_lt].
Qed.

Lemma decide_keep now cb pool bud : decide_compact_block now cb pool bud = Ok KeepCurrent → same_hash bud = true.
Proof.
  unfold decide_compact_block. destruct (_ <? _); [done|]. destruct (begin_compact_assembly now cb pool); [|done]. cbn [rbind].
  destruct (_ || _); [done|]. destruct (_ <? _); [done|]. destruct (_ <? _); [|done]. by destruct (same_hash bud).
Qed.
Lemma decide_err now cb pool bud e : decide_compact_block now cb pool bud = Err e → begin_compact_assembly now cb pool = Err e.
Proof.
  unfold decide_compact_block. destruct (_ <? _); [done|]. destruct (begin_compact_assembly now cb pool); cbn [rbind]; [|by intros [= <-]].
  destruct (_ || _); [done|]. destruct (_ <? _); [done|]. by destruct (_ <? _).
Qed.

(** ** What the sender makes *)

Lemma compact_rows_spec h nonce pf wits i pre txs ids rows :
  length pre = i → compact_rows h nonce pf wits i txs = (ids, rows) →
  (length ids + length rows = length txs)%nat ∧ NoDup rows.*1 ∧
  (∀ j s, (j, s) ∈ rows → (i ≤ j < i + length txs)%nat ∧ j ∈ pf ∧ (pre ++ txs) !! j = Some s.1 ∧
     s.2 = let w := default None (wits !! j) in if existsb (λ stack, negb (bool_decide (stack = []))) (default [] w) then w else None) ∧
  (∀ k, (i ≤ k < i + length txs)%nat → k ∈ pf → k ∈ rows.*1) ∧
  (∀ pf' j id, (∀ k, (i ≤ k < i + length txs)%nat → k ∈ pf' ↔ k ∈ pf) → (j, id) ∈ numbered pf' i ids →
     (j ∉ pf) ∧ ∃ tx, (pre ++ txs) !! j = Some tx ∧ id = calculate_short_tx_id h (calculate_wtxid tx (default None (wits !! j))) nonce).
Proof.
  revert i pre ids rows. induction txs as [|tx txs IH]; intros i pre ids rows Hi; cbn [compact_rows].
  { intros [= <- <-]. split_and!; [done|apply NoDup_nil_2|by intros j s ?%elem_of_nil|cbn; lia|by intros pf' j id _ ?%elem_of_nil]. }
  destruct (compact_rows _ _ _ _ _ txs) as [ids' rows'] eqn:E. apply (IH _ (pre ++ [tx])) in E; [|rewrite length_app; cbn; lia].
  rewrite <-(assoc_L (++)) in E. cbn [app] in E. destruct E as (Hlen & Hnd & Hrows & Hall & Hids).
  assert ((pre ++ tx :: txs) !! i = Some tx) as Hat by (apply list_lookup_middle; lia).
  case_bool_decide as Hin; intros [= <- <-]; cbn [length].
  - split_and!; [lia| | | |].
    + cbn. apply NoDup_cons. split; [|done]. intros ([j s] & -> & Hj)%list_elem_of_fmap. apply Hrows in Hj. cbn in Hj. lia.
    + intros j s [[= -> ->]|Hj]%elem_of_cons; [split_and!; [lia|lia|done|done|done]|]. apply Hrows in Hj as (? & ? & ? & ?). split_and!; [lia|lia|done..].
    + intros k Hk Hkp. cbn. apply elem_of_cons. destruct (decide (k = i)); [by left|]. right. apply Hall; [lia|done].
    + intros pf' j id Hpf. rewrite numbered_step by (apply Hpf; [lia|done]). apply Hids. intros k Hk. apply Hpf. lia.
  - split_and!; [cbn; lia|done| | |].
    + intros j s Hj. apply Hrows in Hj as (? & ? & ? & ?). split_and!; [lia|lia|done..].
    + intros k Hk Hkp. apply Hall; [|done]. destruct (decide (k = i)) as [->|]; [done|lia].
    + intros pf' j id Hpf. cbn [numbered]. rewrite skip_here by (rewrite Hpf by lia; done).
      intros [[= -> ->]|Hj]%elem_of_cons; [by eauto|]. apply (Hids pf'); [|done]. intros k Hk. apply Hpf. lia.
Qed.

Lemma empty_stacks (ins : list TxIn) (w : list Witness) :
  length w = length ins → existsb (λ stack, negb (bool_decide (stack = []))) w = false → (λ _, []) <$> ins = w.
Proof.
  revert w. induction ins as [|i ins IH]; intros [|st w] Hl Hw; try done. cbn [existsb] in Hw. apply orb_false_iff in Hw as [Hst Hw].
  apply negb_false_iff, bool_decide_eq_true in Hst as ->. cbn. f_equal. apply IH; [by injection Hl|done].
Qed.

(** A pooled transaction that shortens to the id of a transaction of the block
    is that transaction, with the same stacks. *)
Definition no_false_match (b : Block) (W : list (list Witness)) (nonce : Z) (prefilled : gset nat) (pool : gmap bytes Slot) : Prop :=
  ∀ wtxid s i tx w, pool !! wtxid = Some s → block_txs b !! i = Some tx → W !! i = Some w → i ∉ prefilled →
    calculate_short_tx_id (blk_header b) wtxid nonce = calculate_short_tx_id (blk_header b) (calculate_wtxid tx (Some w)) nonce →
    s.1 = tx ∧ stacks_of s = w.
Definition is_slot_of (b : Block) (W : list (list Witness)) (i : nat) (s : Slot) : Prop :=
  block_txs b !! i = Some s.1 ∧ W !! i = Some (stacks_of s).

Lemma slots_are_block b W done :
  length done = length (block_txs b) → length W = length (block_txs b) →
  (∀ i s, done !! i = Some s → is_slot_of b W i s) → queued (blk_header b) done = QueueBlock (serialize_block_with_witnesses b W).
Proof.
  intros Hd Hlw Hall. assert (done.*1 = block_txs b ∧ stacks_of <$> done = W) as [E1 E2].
  { split; (eapply list_eq_same_length; [reflexivity|by rewrite length_fmap; lia|]); intros i x y _ Hx Hy;
      rewrite list_lookup_fmap in Hx; apply fmap_Some in Hx as (s & Hs & ->); apply Hall in Hs as [H1 H2]; congruence. }
  unfold queued. rewrite E1, E2. by destruct b.
Qed.

Section Exchange.
Context (b : Block) (W : list (list Witness)) (nonce : Z) (prefilled : gset nat) (pool : gmap bytes Slot).
Context (Hlens : Forall2 (λ tx w, length w = length (tx_ins tx)) (block_txs b) W) (Hmatch : no_false_match b W nonce prefilled pool).
Let cb := create_compact_block_with_witnesses b nonce prefilled (Some <$> W).

Lemma created_header : cb_header cb = blk_header b ∧ cb_nonce cb = nonce.
Proof. unfold cb, create_compact_block_with_witnesses. by destruct (compact_rows _ _ _ _ _ _). Qed.
Lemma created_spec :
  (length (short_ids cb) + length (prefilled_txs cb) = length (block_txs b))%nat ∧ compact_ok cb ∧
  Forall (λ p, (p.1 < length (block_txs b))%nat ∧ is_slot_of b W p.1 p.2) (prefilled_txs cb) ∧
  (∀ i id s, (i, id) ∈ positions cb → s ∈ by_short cb pool id → is_slot_of b W i s).
Proof.
  unfold compact_ok, positions, by_short. destruct created_header as [-> ->]. unfold cb, create_compact_block_with_witnesses, prefilled_set.
  destruct (compact_rows _ _ _ _ _ _) as [ids rows] eqn:E. apply (compact_rows_spec _ _ _ _ _ []) in E as (Hlen & Hnd & Hrows & Hall & Hids); [|done].
  cbn [short_ids prefilled_txs app] in *.
  assert (∀ i tx, block_txs b !! i = Some tx → ∃ w, W !! i = Some w ∧ length w = length (tx_ins tx)) as HWi
    by (intros i tx Hi; destruct (Forall2_lookup_l _ _ _ _ _ Hlens Hi) as (w & ? & ?); eauto).
  split_and!; [done|done| |].
  - apply Forall_forall. intros [j [tx w]] Hj. apply Hrows in Hj as (Hr & _ & Htx & Hw). cbn [fst snd] in *. split; [lia|].
    destruct (HWi _ _ Htx) as (wj & HWj & Hl). split; [done|]. cbn [fst]. rewrite HWj. f_equal.
    rewrite list_lookup_fmap, HWj in Hw. cbn in Hw. unfold stacks_of. cbn [fst snd]. rewrite Hw.
    destruct (existsb _ wj) eqn:Ee; [done|]. cbn. symmetry. by apply empty_stacks.
  - intros i id s Hi ([wtxid s'] & -> & [Hid Hp%elem_of_map_to_list]%list_elem_of_filter)%list_elem_of_fmap. cbn [fst snd] in *.
    apply (Hids (list_to_set rows.*1)) in Hi as (Hnp & tx & Htx & ->).
    + destruct (HWi _ _ Htx) as (w & HWi' & _). rewrite list_lookup_fmap, HWi' in Hid. cbn in Hid.
      destruct (Hmatch wtxid s' i tx w Hp Htx HWi' Hnp Hid) as [H1 H2]. split; [by rewrite H1|by rewrite H2].
    + intros k Hk. rewrite elem_of_list_to_set. split; [|by apply Hall].
      intros ([j s0] & -> & Hj)%list_elem_of_fmap. by apply Hrows in Hj as (_ & ? & _).
Qed.

Lemma place_prefilled_ok n rows l : Forall (λ p, p.1 < n)%nat rows → ∃ l', place_prefilled n rows l = Ok l'.
Proof.
  intros Hr. revert l. induction Hr as [|[i s] rows Hi _ IH]; intros l; cbn [place_prefilled]; [eauto|]. cbn in Hi.
  destruct (Nat.leb_spec n i); [lia|apply IH].
Qed.
Lemma created_begin now : ∃ a, begin_compact_assembly now cb pool = Ok a ∧ holes_ok a ∧ sound (is_slot_of b W) (slots a) ∧
  as_header a = blk_header b ∧ length (slots a) = length (block_txs b).
Proof.
  destruct created_spec as (Hlen & Hok & Hrows & Hpos).
  assert (∃ a, begin_compact_assembly now cb pool = Ok a) as [a Ha].
  { unfold begin_compact_assembly. rewrite Hlen. destruct (place_prefilled_ok (length (block_txs b)) (prefilled_txs cb) (replicate (length (block_txs b)) None)) as [l ->].
    - eapply Forall_impl; [exact Hrows|]. by intros p [? _].
    - by eexists. }
  exists a. split; [done|]. destruct (begin_spec (is_slot_of b W) now cb pool a Hok Ha) as (Hh & Hs & Hhd & Hl & _).
  - eapply Forall_impl; [exact Hrows|]. by intros p [_ ?].
  - exact Hpos.
  - rewrite Hhd, Hl, Hlen. by destruct created_header as [-> _].
Qed.

Lemma requested_rows idx :
  Forall (λ i, i < length (block_txs b))%nat idx →
  length (omap (λ i, block_txs b !! i) idx) = length idx ∧
  ∀ m i, idx !! m = Some i → omap (λ i, block_txs b !! i) idx !! m = block_txs b !! i.
Proof.
  induction 1 as [|i idx Hi _ [IH1 IH2]]; [done|]. apply lookup_lt_is_Some in Hi as [tx Htx]. cbn. rewrite Htx. cbn. split; [lia|].
  intros [|m] j; cbn; [intros [= <-]; done|apply IH2].
Qed.
(** The answer to the request for the holes completes the block. *)
Lemma holes_answered a pending hash :
  holes_ok a → sound (is_slot_of b W) (slots a) → as_header a = blk_header b → length (slots a) = length (block_txs b) →
  pending !! hash = Some a →
  ∃ reply, handle_getblocktxn (Some b) (Some W) hash (missing a) = ([SendBlockTxn reply], Ok ()) ∧
    handle_blocktxn_fill reply pending = (delete hash pending, [QueueBlock (serialize_block_with_witnesses b W)], Ok ()).
Proof.
  intros Hh Hs Hhd Hl Hp. pose proof Hh as (_ & Hlt & _). rewrite Hl in Hlt. destruct (requested_rows _ Hlt) as [Hn Hrow].
  eexists. split.
  { unfold handle_getblocktxn. destruct (existsb _ (missing a)) eqn:E; [|reflexivity]. apply existsb_exists in E as (i & Hi%list_elem_of_In & Hge).
    rewrite Forall_forall in Hlt. apply Hlt in Hi. apply Nat.leb_le in Hge. lia. }
  unfold handle_blocktxn_fill. cbn [bt_hash bt_txs bt_witnesses]. rewrite Hp. cbn [fmap option_fmap option_map].
  set (wits := (λ i, default [] (W !! i)) <$> missing a).
  destruct (fill_completes (is_slot_of b W) a (omap (λ i, block_txs b !! i) (missing a)) (Some wits) Hh Hn Hs) as (done & Hq & Hd & Hall).
  - intros m i tx Hm Htx. rewrite (Hrow _ _ Hm) in Htx. split; [done|]. cbn. unfold wits. rewrite list_lookup_fmap, Hm. cbn.
    destruct (Forall2_lookup_l _ _ _ _ _ Hlens Htx) as (w & -> & _). done.
  - rewrite Hq, Hhd. rewrite (slots_are_block b W done); [done|lia|by symmetry; eapply Forall2_length|done].
Qed.

(** What staging a relayed block decides. *)
Lemma relay_staged now now' hash m :
  match stage_compact_block now now' hash cb pool m with
  | (m', Ok (Fetch hashes)) => hash ∈ hashes ∨ ∃ a, m !! hash = Some a ∧ m' !! hash = Some a
  | (m', Ok (Complete a _)) => queue_completed_compact a = Ok [QueueBlock (serialize_block_with_witnesses b W)]
  | (m', Ok (Holes indices _)) =>
      ∃ reply, handle_getblocktxn (Some b) (Some W) hash indices = ([SendBlockTxn reply], Ok ()) ∧
        handle_blocktxn_fill reply m' = (delete hash m', [QueueBlock (serialize_block_with_witnesses b W)], Ok ())
  | (_, Err _) => False
  end.
Proof.
  destruct (created_begin now') as (a & Ha & Hh & Hs & Hhd & Hl). unfold stage_compact_block.
  set (live := filter (λ p : bytes * CompactAssembly, expired_at p.2 now = false) m). set (bud := mkBudget _ _ _).
  destruct (decide_compact_block now' cb pool bud) as [[a'| |]|e] eqn:Ed.
  - apply decide_hold in Ed as [Ha' _]. rewrite Ha in Ha'. injection Ha' as <-. set (a' := mkAssembly _ _ _ _ _ _).
    change (missing a) with (missing a'). destruct (missing a') as [|i idx] eqn:Em.
    + destruct (queue_ok (is_slot_of b W) a') as (full & Hq & Hd & Hall); [|done|].
      * intros j Hj. apply Hh; [done|]. change (missing a) with (missing a'). rewrite Em. apply not_elem_of_nil.
      * rewrite Hq. change (as_header a') with (as_header a). rewrite Hhd, (slots_are_block b W full); [done| |by symmetry; eapply Forall2_length|done].
        by rewrite Hd.
    + destruct (holes_answered a' (<[hash := a']> live) hash) as (reply & Hg & Hf); [done..|by rewrite lookup_insert_eq|].
      rewrite Em in Hg. by exists reply.
  - left. apply elem_of_app. right. by apply list_elem_of_singleton.
  - right. apply decide_keep in Ed. cbn in Ed. apply bool_decide_eq_true in Ed as [a' Ha']. exists a'. split; [|done].
    by apply map_lookup_filter_Some in Ha' as [? _].
  - apply decide_err in Ed. congruence.
Qed.
End Exchange.

(** ** The table *)

Definition retained (m : table) : Z := sum_z (assembly_retained_bytes <$> (map_to_list m).*2).
(** Sizes are not negative. *)
Class CompactLaws : Prop := {
  slot_size_nonneg : 0 ≤ slot_size;
  capacity_nonneg : ∀ n, 0 ≤ capacity n;
}.

Record assembly_ok (a : CompactAssembly) : Prop := {
  ao_holes : holes_ok a;
  ao_missing : missing a ≠ [] ∧ (length (missing a) ≤ 128)%nat ∧ Forall (λ i, Z.of_nat i < 2 ^ 16) (missing a);
  ao_bytes : 0 ≤ short_id_bytes a;
}.
Record table_ok (m : table) : Prop := {
  tb_size : (size m ≤ 4)%nat;
  tb_bytes : retained m ≤ 8 * 1024 * 1024;
  tb_rows : map_Forall (λ _ a, assembly_ok a) m;
}.

Lemma retained_insert m h a : m !! h = None → retained (<[h := a]> m) = assembly_retained_bytes a + retained m.
Proof. intros Hn. unfold retained. rewrite (sum_z_perm _ _ (fmap_Permutation _ _ _ (fmap_Permutation snd _ _ (map_to_list_insert _ _ _ Hn)))). done. Qed.

Section Table.
Context {CL : CompactLaws}.

Lemma retained_bytes_nonneg a : 0 ≤ short_id_bytes a → 0 ≤ assembly_retained_bytes a.
Proof.
  intros Ha. unfold assembly_retained_bytes, sat_add. pose proof slot_size_nonneg. pose proof (capacity_nonneg (length (slots a))).
  assert (0 ≤ as_u64 (sum_z (serialized_slot_bytes <$> omap Datatypes.id (slots a)))) by (apply Z.mod_pos_bound; lia).
  assert (0 ≤ u64_max) by done. assert (0 ≤ capacity (length (slots a)) * slot_size) by nia. lia.
Qed.
Lemma table_nonneg m : map_Forall (λ _ a, assembly_ok a) m → 0 ≤ retained m.
Proof.
  intros Hm. apply sum_z_nonneg, Forall_fmap, Forall_fmap, Forall_forall. intros [h a] Ha%elem_of_map_to_list. cbn.
  apply retained_bytes_nonneg, (Hm h a Ha).
Qed.
(** Rows that leave the table keep it within its bounds. *)
Lemma table_filter (P : bytes * CompactAssembly → Prop) `{∀ x, Decision (P x)} m :
  map_Forall (λ _ a, assembly_ok a) m →
  map_Forall (λ _ a, assembly_ok a) (filter P m) ∧ (size (filter P m) ≤ size m)%nat ∧ retained (filter P m) ≤ retained m.
Proof.
  induction m as [|h a m Hn IH] using map_ind; intros Hm; [by rewrite map_filter_empty|].
  apply map_Forall_insert in Hm as [Ha Hm]; [|done]. destruct (IH Hm) as (H1 & H2 & H3).
  pose proof (retained_bytes_nonneg a (ao_bytes a Ha)). rewrite (retained_insert m) by done. rewrite map_size_insert_None by done.
  assert (filter P m !! h = None) as Hf by (apply map_lookup_filter_None; by left).
  destruct (decide (P (h, a))) as [HP|HP].
  - rewrite map_filter_insert_True by done. rewrite (retained_insert (filter P m)), map_size_insert_None by done.
    split_and!; [by apply map_Forall_insert_2|lia|lia].
  - rewrite map_filter_insert_False, delete_id by done. split_and!; [done|lia|lia].
Qed.
Lemma table_delete m h :
  map_Forall (λ _ a, assembly_ok a) m →
  map_Forall (λ _ a, assembly_ok a) (delete h m) ∧ retained (delete h m) ≤ retained m ∧
  size m = (size (delete h m) + if bool_decide (is_Some (m !! h)) then 1 else 0)%nat.
Proof.
  intros Hm. destruct (m !! h) as [a|] eqn:E.
  - assert (delete h m !! h = None) as Hd by by rewrite lookup_delete_eq.
    assert (retained m = assembly_retained_bytes a + retained (delete h m)) by (rewrite <-(retained_insert _ h) by done; by rewrite insert_delete_id).
    assert (size m = S (size (delete h m))) by (rewrite <-(map_size_insert_None h a (delete h m)) by done; by rewrite insert_delete_id).
    pose proof (retained_bytes_nonneg a (ao_bytes a (Hm h a E))). rewrite bool_decide_eq_true_2 by eauto.
    split_and!; [by apply map_Forall_delete|lia|lia].
  - rewrite delete_id by done. rewrite bool_decide_eq_false_2 by by intros [? ?]. split_and!; [done|lia|lia].
Qed.

Lemma begin_ok now cb pool a :
  compact_ok cb → begin_compact_assembly now cb pool = Ok a → holes_ok a ∧ 0 ≤ short_id_bytes a.
Proof.
  intros Hok Ha. destruct (begin_spec (λ _ _, True) now cb pool a Hok Ha) as (? & _ & _ & _ & _ & ?); [by apply Forall_true|done|done].
Qed.

Lemma stage_ok now now' hash cb pool pending :
  table_ok pending → compact_ok cb → table_ok (stage_compact_block now now' hash cb pool pending).1.
Proof.
  intros [Hsz Hb Hrows] Hok. unfold stage_compact_block.
  set (live := filter (λ p : bytes * CompactAssembly, expired_at p.2 now = false) pending).
  destruct (table_filter (λ p : bytes * CompactAssembly, expired_at p.2 now = false) pending Hrows) as (Hlive & Hls & Hlb).
  fold live in Hlive, Hls, Hlb. assert (table_ok live) as Hl by (split; [lia|lia|done]).
  destruct (decide_compact_block _ _ _ _) as [[a| |]|e] eqn:Ed; [|done..]. apply decide_hold in Ed as (Ha & Hm1 & Hm2 & Hn & Hbytes).
  cbn [assemblies same_hash retained_bytes missing] in *. destruct (missing a) as [|i idx] eqn:Em; [done|]. cbn [fst].
  destruct (table_delete live hash Hlive) as (Hrd & Hbd & Hsd). rewrite <-insert_delete_eq.
  assert (delete hash live !! hash = None) as Hd by by rewrite lookup_delete_eq.
  pose proof (table_nonneg _ Hrd) as Hnn. fold (retained (delete hash live)) in Hbytes. rewrite as_u64_small in Hbytes by (unfold is_u64; lia).
  destruct (begin_ok _ _ _ _ Hok Ha) as [(Hh1 & Hh2 & Hh3) Hsb]. rewrite Em in *. split.
  - rewrite map_size_insert_None by done. case_bool_decide; lia.
  - rewrite retained_insert by done. unfold assembly_retained_bytes in *. cbn [slots short_id_bytes]. lia.
  - apply map_Forall_insert_2; [|done]. split; cbn [missing slots short_id_bytes]; [by split_and!|by split_and!|done].
Qed.
Lemma cmpctblock_ok now now' mm cb pending :
  table_ok pending → compact_ok cb → table_ok (handle_cmpctblock now now' mm cb pending).1.1.
Proof.
  intros Ht Hok. unfold handle_cmpctblock. destruct (_ <? _); [done|]. set (hash := block_hash_from_header _). set (matches := default ∅ _).
  pose proof (stage_ok now now' hash cb matches pending Ht Hok) as Hs. destruct (stage_compact_block _ _ _ _ _ _) as [p [[l|a e|i e]|e]]; cbn in *; try done.
  by destruct (queue_completed_compact a).
Qed.
Lemma blocktxn_ok msg pending : table_ok pending → table_ok (handle_blocktxn_fill msg pending).1.1.
Proof.
  intros [Hs Hb Hr]. unfold handle_blocktxn_fill. destruct (pending !! bt_hash msg); [|done].
  destruct (table_delete pending (bt_hash msg) Hr) as (H1 & H2 & H3). assert (table_ok (delete (bt_hash msg) pending)) by (split; [lia|lia|done]).
  by destruct (rbind _ _).
Qed.
End Table.

(** The messages that change the table; each may find its own pool and clock. *)
Inductive table_step : table → table → Prop :=
| step_cmpct now now' mm cb m : compact_ok cb → table_step m (handle_cmpctblock now now' mm cb m).1.1
| step_blocktxn msg m : table_step m (handle_blocktxn_fill msg m).1.1.

(** [C22] Whatever compact blocks, as the BIP152 parser delivers them with distinct
    prefilled positions, and other messages arrive, at most 4 blocks wait, they retain at
    most 8 MiB, each waits for at most 128 transactions at positions that fit
    16 bits, and its empty slots are exactly these positions; so a [blocktxn]
    with as many transactions as are missing queues a block with that header
    and with its transactions at the missing positions, and ends the wait. *)
Theorem pending_table_bounded {CL : CompactLaws} (m : table) :
  rtc table_step ∅ m →
  table_ok m ∧
  ∀ msg a, m !! bt_hash msg = Some a → length (bt_txs msg) = length (missing a) →
    ∃ done, handle_blocktxn_fill msg m = (delete (bt_hash msg) m, [queued (as_header a) done], Ok ()) ∧
      length done = length (slots a) ∧ ∀ k i, missing a !! k = Some i → done.*1 !! i = bt_txs msg !! k.
Proof.
  intros Hr. assert (table_ok m) as Hm.
  { eapply rtc_invariant; [| |exact Hr].
    - intros x y Hx Hst. destruct Hst; [by apply cmpctblock_ok|by apply blocktxn_ok].
    - split; [rewrite map_size_empty; lia|unfold retained; rewrite map_to_list_empty; cbn; lia|apply map_Forall_empty]. }
  split; [done|]. intros msg a Ha Hlen. pose proof (ao_holes _ (tb_rows _ Hm _ _ Ha)) as Hh. pose proof Hh as (Hnd & Hlt & Hholes).
  destruct (fill_completes (λ i s, ∀ k, missing a !! k = Some i → bt_txs msg !! k = Some s.1) a (bt_txs msg) (bt_witnesses msg) Hh Hlen)
    as (done & Hq & Hd & Hall).
  - intros i s Hi k Hk. exfalso. apply (Hholes i); [by apply lookup_lt_Some in Hi|by exists s|by apply list_elem_of_lookup_2 in Hk].
  - intros k i tx Hk Htx k' Hk'. by rewrite (NoDup_lookup _ _ _ _ Hnd Hk' Hk).
  - exists done. unfold handle_blocktxn_fill. rewrite Ha, Hq. split_and!; [done|done|]. intros k i Hk.
    rewrite Forall_forall in Hlt. pose proof (Hlt i (list_elem_of_lookup_2 _ _ _ Hk)) as Hi. rewrite <-Hd in Hi.
    apply lookup_lt_is_Some in Hi as [s Hs]. by rewrite list_lookup_fmap, Hs, (Hall _ _ Hs _ Hk).
Qed.

(** [C8] A block relayed as a compact block arrives: if no pooled
    transaction falsely matches a short id and every transaction has a stack
    for each input, the receiver either queues exactly the block and its
    witnesses, or asks for transactions such that the sender's answer makes it
    queue them, or asks for the whole block, or keeps an assembly of that block
    it already holds.  It never fails on such a block. *)
Theorem compact_relay_delivers (b : Block) (W : list (list Witness)) (nonce : Z) (prefilled : gset nat)
    (mm : option Mempool) (now now' : Z) (m : table) :
  let cb := create_compact_block_with_witnesses b nonce prefilled (Some <$> W) in
  let hash := block_hash_from_header (blk_header b) in
  let block := QueueBlock (serialize_block_with_witnesses b W) in
  Forall2 (λ tx w, length w = length (tx_ins tx)) (block_txs b) W →
  no_false_match b W nonce prefilled (default ∅ (transactions_for_short_ids (cb_header cb) (cb_nonce cb) (short_ids cb) <$> mm)) →
  let '(m', out, r) := handle_cmpctblock now now' mm cb m in
  r = Ok () ∧
  (block ∈ out ∨
   (∃ indices reply, SendGetBlockTxn hash indices ∈ out ∧
      handle_getblocktxn (Some b) (Some W) hash indices = ([SendBlockTxn reply], Ok ()) ∧
      handle_blocktxn_fill reply m' = (delete hash m', [block], Ok ())) ∨
   SendGetData hash ∈ out ∨
   (∃ a, m !! hash = Some a ∧ m' !! hash = Some a)).
Proof.
  intros cb hash block Hlens Hmatch. unfold handle_cmpctblock. replace (block_hash_from_header (cb_header cb)) with hash
    by (unfold hash; f_equal; symmetry; apply created_header).
  set (pool := default ∅ _) in *. destruct (_ <? _); [split; [done|]; right; right; left; by apply list_elem_of_singleton|].
  pose proof (relay_staged b W nonce prefilled pool Hlens Hmatch now now' hash m) as Hs. fold cb in Hs.
  destruct (stage_compact_block now now' hash cb pool m) as [m' [[hashes|a expired|indices expired]|e]]; [| | |done].
  - split; [done|]. right; right. destruct Hs as [Hin|Hs]; [left; by apply list_elem_of_fmap_2|by right].
  - rewrite Hs. split; [done|]. left. apply elem_of_app. right. by apply list_elem_of_singleton.
  - split; [done|]. right; left. destruct Hs as (reply & Hg & Hf). exists indices, reply. split_and!; [|done|done].
    apply elem_of_app. right. by apply list_elem_of_singleton.
Qed.

(** ** Blocks that are lost *)

(** A [blocktxn] of any peer with the wrong number of transactions ends the
    wait: the assembly is gone, and nothing asks for the block. *)
Lemma wrong_count_drops_block msg m a :
  m !! bt_hash msg = Some a → length (bt_txs msg) ≠ length (missing a) →
  handle_blocktxn_fill msg m = (delete (bt_hash msg) m, [], Err "blocktxn count does not match the missing positions").
Proof.
  intros Ha Hn. unfold handle_blocktxn_fill, apply_blocktxn. rewrite Ha. by rewrite (proj2 (Nat.eqb_neq _ _) Hn).
Qed.
(** A compact block with a prefilled position past its end removes the expired
    assemblies too, and then fails before their blocks are asked for. *)
Lemma malformed_drops_expired now now' mm cb m h a e :
  Z.of_nat (length (short_ids cb) + length (prefilled_txs cb)) ≤ 100000 → (∀ pool, begin_compact_assembly now' cb pool = Err e) →
  m !! h = Some a → expired_at a now = true →
  ∃ m', handle_cmpctblock now now' mm cb m = (m', [], Err e) ∧ m' !! h = None.
Proof.
  intros Hlen Hb Ha He. eexists. split.
  - unfold handle_cmpctblock, stage_compact_block, decide_compact_block.
    destruct (Z.ltb_spec 100000 (Z.of_nat (length (short_ids cb) + length (prefilled_txs cb)))); [lia|]. rewrite Hb. reflexivity.
  - apply map_lookup_filter_None. right. intros x Hx. rewrite Ha in Hx. injection Hx as <-. cbn. by rewrite He.
Qed.
End Compact.

(** ** Concrete relays *)

Module CompactWitness.
Import IntegerU256 ToyConsensus PoolWitness.

#[global] Instance toy_wire : HeaderWire := {|
  serialize_block_header := header_bytes;
  deserialize_block_header _ := None;
|}.
(** A keyed hash that adds the keys, and a block as the lock times of its
    transactions. *)
#[global] Instance toy_compact : CompactOps := {|
  sha256 bs := take 32 (bs ++ replicate 32 Byte.x00);
  siphash24 k0 k1 bs := (k0 + k1 + of_le bs) mod 2 ^ 64;
  serialize_block_with_witnesses b _ := (λ tx, z2b (lock_time tx)) <$> block_txs b;
  slot_size := 100;
  capacity n := Z.of_nat n;
|}.
#[global] Instance toy_laws : CompactLaws.
Proof. split; cbn; lia. Defined.

(** [a] is prefilled; [p] is pooled, [c] is not. *)
Definition block : Block := mkBlock (mkHeader 1 zero_hash zero_hash 0 0 0) [a; p; c].
Definition stacks : list (list Witness) := [[[]]; [[]]; [[]]].
Definition compact : CompactBlock := create_compact_block_with_witnesses block 7 {[0%nat]} (Some <$> stacks).
Definition after : table := (handle_cmpctblock 0 0 (Some pool_ap) compact ∅).1.1.

Lemma relay_requests : (handle_cmpctblock 0 0 (Some pool_ap) compact ∅).1.2 = [SendGetBlockTxn (block_hash_from_header (blk_header block)) [2%nat]].
Proof. by vm_compute. Qed.

Lemma rows_ap ids :
  ids = short_ids compact →
  omap (λ q : bytes * Tx,
    let wits := tx_witnesses (pool pool_ap) !! q.1 in
    let wtxid := default (calculate_wtxid q.2 wits) (wtxids (pool pool_ap) !! q.1) in
    if bool_decide (calculate_short_tx_id (blk_header block) wtxid 7 ∈ ids) then Some (wtxid, (q.2, wits)) else None)
    (map_to_list (txs pool_ap)) = [(tid 2, (p, None))].
Proof. intros ->. by vm_compute. Qed.
Lemma no_false_ap :
  no_false_match block stacks 7 {[0%nat]}
    (default ∅ (transactions_for_short_ids (cb_header compact) (cb_nonce compact) (short_ids compact) <$> Some pool_ap)).
Proof.
  intros wtxid s i tx w Hs. cbn [fmap option_fmap option_map default] in Hs. apply elem_of_list_to_map_2 in Hs.
  change (cb_header compact) with (blk_header block) in Hs. change (cb_nonce compact) with 7 in Hs.
  rewrite (rows_ap _ eq_refl) in Hs. apply list_elem_of_singleton in Hs as [= -> ->].
  destruct i as [|[|[|i]]]; intros Htx Hw Hn Hid.
  - destruct Hn. by apply elem_of_singleton.
  - clear Hid. injection Htx as <-. injection Hw as <-. split; reflexivity.
  - injection Htx as <-. injection Hw as <-. vm_compute in Hid. discriminate Hid.
  - discriminate Htx.
Qed.

Lemma compact_relay_delivers_witness :
  Forall2 (λ tx w, length w = length (tx_ins tx)) (block_txs block) stacks ∧ (handle_cmpctblock 0 0 (Some pool_ap) compact ∅).2 = Ok ().
Proof.
  assert (Forall2 (λ tx w, length w = length (tx_ins tx)) (block_txs block) stacks) as Hl by (repeat constructor).
  split; [exact Hl|]. pose proof (compact_relay_delivers block stacks 7 {[0%nat]} (Some pool_ap) 0 0 ∅ Hl no_false_ap) as H.
  fold compact in H. destruct (handle_cmpctblock 0 0 (Some pool_ap) compact ∅) as [[m' out] r]. exact (proj1 H).
Defined.

Lemma reach_after : rtc table_step ∅ after.
Proof.
  eapply rtc_l; [|apply rtc_refl]. apply step_cmpct. unfold compact_ok.
  assert ((prefilled_txs compact).*1 = [0%nat]) as -> by by vm_compute. apply NoDup_singleton.
Qed.
Lemma pending_table_bounded_witness : rtc table_step ∅ after ∧ (size after ≤ 4)%nat.
Proof. split; [exact reach_after|]. exact (tb_size _ (proj1 (pending_table_bounded after reach_after))). Defined.
End CompactWitness.
