(* ===== verification/Pruning.v ===== *)
(** * Pruning: dropping old block bodies

    [src/storage/pruning.rs] over the trees of the block store, with
    [src/storage/commitment_store.rs] and the reads of
    [src/storage/blockstore.rs] it depends on: the refusals, the three modes, the
    coin commitments made before a body goes, and automatic pruning of
    [src/node/run_loop.rs]. *)

From S2P Require Import Prelude Bytes Database Interfaces ChainState BlockStore UtxoSnapshot TxPolicy Mempool MempoolProps.
Open Scope Z_scope.

(** ** Configuration and state *)

Inductive PruningMode :=
| Disabled
| Normal (keep_from_height min_recent_blocks : Z)
| Aggressive (keep_from_height : Z) (keep_commitments keep_filtered_blocks : bool) (min_blocks : Z)
| Custom (keep_headers : bool) (keep_bodies_from_height : Z)
    (keep_commitments keep_filters keep_filtered_blocks keep_witnesses keep_tx_index : bool).
Record PruningConfig := mkPruning {
  mode : PruningMode;
  auto_prune : bool;
  auto_prune_interval : Z;
  min_blocks_to_keep : Z;
  ibd_prune : bool;
  prune_window_size : Z;
  min_blocks_for_incremental_prune : Z;
}.
Record PruningStats := mkStats {
  blocks_pruned : Z;
  headers_kept : Z;
  blocks_kept : Z;
  storage_freed : Z;
  last_prune_height : option Z;
}.
Abbreviation no_stats := (mkStats 0 0 0 0 None) (only parsing).
(** The manager: its configuration and which optional parts are attached. *)
Record PruningManager := mkManager {
  config : PruningConfig;
  commitment_store : bool;
  utxostore : bool;
  filter_service : bool;
  tx_index : bool;
}.
(** What it changes: the trees, the cached block filters and its statistics. *)
Record Pruner := mkPruner { db : database; filters : gset bytes; stats : PruningStats }.

Record TxMetadata := mkMetadata {
  md_tx_hash : bytes; md_block_hash : bytes; md_block_height : Z; md_tx_index : Z; md_size : Z; md_weight : Z }.

Abbreviation undo_t := "block_undo"%string (only parsing).
Abbreviation tx_by_hash_t := "tx_by_hash"%string (only parsing).
Abbreviation tx_by_block_t := "tx_by_block"%string (only parsing).
Abbreviation tx_metadata_t := "tx_metadata"%string (only parsing).
Abbreviation commitments_t := "utxo_commitments"%string (only parsing).
Abbreviation commitment_height_t := "commitment_height_index"%string (only parsing).

(** Called code: the wire form of a block, its connection under the rules of the
    network (which read headers from the store; [None] is an error, [Some None]
    an invalid block), whether witnesses are required at a height, and the
    serialised commitment to a set of coins. *)
Class PruneOps {T : TxOps} := {
  UndoLog : Type;
  deserialize_block_with_witnesses : bytes → option (Block * list (list Witness));
  connect_block : database → Block → list (list Witness) → coin_map → Z → option (option coin_map);
  segwit_active : Z → bool;
  utxo_commitment : coin_map → bytes → Z → option bytes;
}.

(** The totals after a prune to [to]. *)
Abbreviation add_stats g st to :=
  (mkStats (as_u64 (blocks_pruned g + blocks_pruned st)) (as_u64 (headers_kept g + headers_kept st))
     (as_u64 (blocks_kept g + blocks_kept st)) (as_u64 (storage_freed g + storage_freed st)) (Some to)) (only parsing).

Section Pruning.
Context {U : U256Ops} {K : Consensus} {T : TxOps} {P : PruneOps}.
Context {BC : Codec Block} {WC : Codec (list (list Witness))} {UC : Codec UndoLog} {MC : Codec TxMetadata}.

(** ** Reads of the block store *)

(** A tagged wire body: [BLVW], the length, the payload. *)
Definition decode_wire_body_blob (data : bytes) : option bytes :=
  if bool_decide (8 ≤ length data)%nat && bool_decide (take 4 data = [Byte.x42; Byte.x4c; Byte.x56; Byte.x57]) then
    let len := Z.to_nat (of_le (take 4 (drop 4 data))) in
    if (length data <? 8 + len)%nat then None else Some (take len (drop 8 data))
  else None.
Definition decode_block_blob (data : bytes) : result Block :=
  match decode_wire_body_blob data with
  | Some payload => of_option "wire body deserialize" (fst <$> deserialize_block_with_witnesses payload)
  | None => of_option "bincode" (decode_row data)
  end.
Definition load_block_blob (hash : bytes) (d : database) : result (option bytes) :=
  let+ h := get_height_by_hash hash d in
  match (h' ← h; tree_get blocks_t (block_height_row_key h' hash) d) with
  | Some data => Ok (Some data)
  | None => Ok (tree_get blocks_t hash d)
  end.
Definition get_block (hash : bytes) (d : database) : result (option Block) :=
  let+ blob := load_block_blob hash d in
  match blob with
  | Some data => let+ b := decode_block_blob data in Ok (Some b)
  | None => Ok None
  end.
Definition get_undo_log (hash : bytes) (d : database) : result (option UndoLog) :=
  match tree_get undo_t hash d with
  | Some data => let+ u := of_option "bincode" (decode_row data) in Ok (Some u)
  | None => Ok None
  end.
(** Stacks from the witness tree, else from a wire body. *)
Definition get_witness (hash : bytes) (d : database) : result (option (list (list Witness))) :=
  let+ h := get_height_by_hash hash d in
  let row := λ data, let+ w := of_option "bincode" (decode_row data) in Ok (Some w) in
  let by_hash := match tree_get witnesses_t hash d with Some data => row data | None => Ok None end in
  match h with
  | Some hgt =>
      let k := block_height_row_key hgt hash in
      match tree_get witnesses_t k d with
      | Some data => row data
      | None =>
          match (body ← tree_get blocks_t k d; decode_wire_body_blob body) with
          | Some payload => let+ r := of_option "wire witness deserialize" (deserialize_block_with_witnesses payload) in Ok (Some r.2)
          | None => by_hash
          end
      end
  | None => by_hash
  end.
Definition load_witnesses_from_store (b : Block) (hgt : Z) (d : database) : result (list (list Witness)) :=
  let+ r := get_witness (calculate_hash (blk_header b)) d in
  match r with
  | Some w => if (length w =? length (block_txs b))%nat then Ok w else Err "witness count != transaction count"
  | None => if segwit_active hgt then Err "missing witness data for block" else Ok ((λ tx, (λ _, []) <$> tx_ins tx) <$> block_txs b)
  end.

(** ** Commitments *)

Definition store_commitment (hash : bytes) (hgt : Z) (row : bytes) : database → database :=
  commit_keyed [(commitments_t, hash, Some row); (commitment_height_t, to_be 8 hgt, Some hash)].

(** The coins after the blocks at heights [from .. from + n - 1]. *)
Fixpoint replay (n : nat) (from : Z) (coins : coin_map) (d : database) : result coin_map :=
  match n with
  | O => Ok coins
  | S n' =>
      let+ r := get_hash_by_height from d in
      match r with
      | None => Err "height not found in chain during UTXO reconstruction"
      | Some hash =>
          let+ r' := get_block hash d in
          match r' with
          | None => Err "block not found during UTXO reconstruction"
          | Some b =>
              let+ w := load_witnesses_from_store b from d in
              match connect_block d b w coins from with
              | None => Err "connect_block"
              | Some None => Err "block failed validation during UTXO reconstruction"
              | Some (Some coins') => replay n' (from + 1) coins' d
              end
          end
      end
  end.
Definition reconstruct_utxo_set_at_height (target : Z) (d : database) : result coin_map := replay (Z.to_nat target) 0 ∅ d.

Definition on_db (f : database → result database) : M Pruner unit :=
  λ s, match f (db s) with Ok d => (mkPruner d (filters s) (stats s), Ok ()) | Err e => (s, Err e) end.
Definition generate_commitment_from_current_state (hash : bytes) (hgt : Z) (coins : coin_map) : M Pruner unit :=
  on_db (λ d, let+ row := of_option "UTXO Merkle tree" (utxo_commitment coins hash hgt) in Ok (store_commitment hash hgt row d)).
Definition generate_commitment_for_block (hash : bytes) (hgt : Z) : M Pruner unit :=
  let* coins := reads (λ s, reconstruct_utxo_set_at_height hgt (db s)) in
  generate_commitment_from_current_state hash hgt coins.

(** A run on the trees. *)
Definition on_store (m : M database unit) : M Pruner unit :=
  λ s, let r := m (db s) in (mkPruner r.1 (filters s) (stats s), r.2).

(** ** One block *)

Definition body_is_prunable (has_body has_undo : bool) : bool := has_body && has_undo.
Definition remove_body_if_undo_is_durable (hash : bytes) (st : PruningStats) : M Pruner PruningStats :=
  let* body := reads (λ s, get_block hash (db s)) in
  let* undo := reads (λ s, get_undo_log hash (db s)) in
  if negb (body_is_prunable (bool_decide (is_Some body)) (bool_decide (is_Some undo))) then ret st
  else
    on_store (remove_block_body hash) ;;
    ret (mkStats (as_u64 (blocks_pruned st + 1)) (headers_kept st) (blocks_kept st) (as_u64 (storage_freed st + 1024))
           (last_prune_height st)).

(** [TxIndex::remove_transaction]. *)
Definition remove_tx (txid : bytes) (d : database) : result database :=
  let+ md := match tree_get tx_metadata_t txid d with
             | Some data => let+ m := of_option "bincode" (decode_row data) in Ok (Some m)
             | None => Ok None
             end in
  let d1 := match md with
            | Some m => tree_remove tx_by_block_t (md_block_hash m ++ to_be 4 (md_tx_index m)) d
            | None => d
            end in
  Ok (tree_remove tx_metadata_t txid (tree_remove tx_by_hash_t txid d1)).
Fixpoint remove_txs (l : list Tx) : M Pruner unit :=
  match l with
  | [] => ret ()
  | tx :: rest => on_db (remove_tx (calculate_tx_id tx)) ;; remove_txs rest
  end.
Definition drop_tx_index_for_block (m : PruningManager) (hash : bytes) : M Pruner unit :=
  if negb (tx_index m) then ret ()
  else
    let* r := reads (λ s, get_block hash (db s)) in
    match r with Some b => remove_txs (block_txs b) | None => ret () end.
(** [has_filter] and [remove_filter_for_pruned_block]. *)
Definition drop_filter (m : PruningManager) (hash : bytes) : M Pruner unit :=
  if filter_service m then modify (λ s, mkPruner (db s) (filters s ∖ {[hash]}) (stats s)) else ret ().

(** ** The modes *)

(** [for height in from .. from + n], with the hash of the height where there is one. *)
Fixpoint for_heights {A} (n : nat) (from : Z) (body : Z → bytes → A → M Pruner A) (a : A) : M Pruner A :=
  match n with
  | O => ret a
  | S n' =>
      let* r := reads (λ s, get_hash_by_height from (db s)) in
      let* a' := match r with Some hash => body from hash a | None => ret a end in
      for_heights n' (from + 1) body a'
  end.
Abbreviation kept st blocks headers :=
  (mkStats (blocks_pruned st) headers blocks (storage_freed st) (last_prune_height st)) (only parsing).

Definition prune_normal (to current keep_from_height min_recent_blocks : Z) : M Pruner PruningStats :=
  let effective_keep_height := Z.max keep_from_height (sat_sub current min_recent_blocks) in
  let actual := Z.min to effective_keep_height in
  let* st := for_heights (Z.to_nat actual) 0 (λ _ hash st, remove_body_if_undo_is_durable hash st) no_stats in
  ret (kept st (sat_sub current actual) current).

(** Every 144th height below [to], unless it has a commitment. *)
Fixpoint commit_checkpoints (n : nat) (hgt to : Z) : M Pruner unit :=
  match n with
  | O => ret ()
  | S n' =>
      if to <=? hgt then ret ()
      else
        let* r := reads (λ s, get_hash_by_height hgt (db s)) in
        match r with
        | Some hash =>
            let* done := gets (λ s, tree_contains_key commitments_t hash (db s)) in
            if done then ret () else generate_commitment_for_block hash hgt
        | None => ret ()
        end ;;
        commit_checkpoints n' (hgt + 144) to
  end.
Definition generate_commitments_before_prune (to : Z) : M Pruner unit := commit_checkpoints (Z.to_nat to) 0 to.

Definition prune_aggressive (m : PruningManager) (to current keep_from_height : Z) (keep_commitments keep_filtered_blocks : bool)
    (min_blocks : Z) : M Pruner PruningStats :=
  let effective_keep_height := Z.max keep_from_height (sat_sub current min_blocks) in
  let actual := Z.min to effective_keep_height in
  (if keep_commitments && (commitment_store m && utxostore m) then generate_commitments_before_prune actual else ret ()) ;;
  let* st := for_heights (Z.to_nat actual) 0 (λ _ hash st,
    let* st' := remove_body_if_undo_is_durable hash st in
    (if keep_filtered_blocks then ret () else on_store (remove_witness hash)) ;;
    drop_filter m hash ;;
    ret st') no_stats in
  ret (kept st (sat_sub current actual) current).

Definition prune_custom (m : PruningManager) (to current : Z) (keep_headers : bool) (keep_bodies_from_height : Z)
    (keep_commitments keep_filters keep_witnesses keep_tx_index : bool) : M Pruner PruningStats :=
  let actual := Z.min to keep_bodies_from_height in
  let* st := for_heights (Z.to_nat actual) 0 (λ hgt hash st,
    (if keep_tx_index then ret () else drop_tx_index_for_block m hash) ;;
    let* st' := if hgt <? keep_bodies_from_height then remove_body_if_undo_is_durable hash st else ret st in
    (if keep_witnesses then ret () else on_store (remove_witness hash)) ;;
    (if keep_commitments && (commitment_store m && utxostore m) then
       let* done := gets (λ s, tree_contains_key commitments_t hash (db s)) in
       if done then ret () else generate_commitment_for_block hash hgt
     else ret ()) ;;
    (if keep_filters then drop_filter m hash else ret ()) ;;
    ret st') no_stats in
  ret (kept st (sat_sub current actual) (if keep_headers then current else 0)).

(** ** The entry points *)

Definition is_enabled (m : PruningManager) : bool := match mode (config m) with Disabled => false | _ => true end.
Definition should_auto_prune (m : PruningManager) (current : Z) (last : option Z) : bool :=
  auto_prune (config m) &&
  match last with
  | Some h => as_u64 (h + auto_prune_interval (config m)) <=? current
  | None => auto_prune_interval (config m) <=? current
  end.
Definition can_incremental_prune_during_ibd (m : PruningManager) : bool :=
  commitment_store m && utxostore m &&
  match mode (config m) with Aggressive _ _ _ _ => true | Custom _ _ keep_commitments _ _ _ _ => keep_commitments | _ => false end.

Definition prune_mode (m : PruningManager) (to current : Z) : M Pruner PruningStats :=
  match mode (config m) with
  | Disabled => throw "Pruning is disabled"
  | Normal kf recent => prune_normal to current kf recent
  | Aggressive kf kc kfb mb => prune_aggressive m to current kf kc kfb mb
  | Custom kh kb kc kfi kfb kw kt => prune_custom m to current kh kb kc kfi kw kt
  end.
Definition prune_to_height (m : PruningManager) (to current : Z) (is_ibd : bool) : M Pruner PruningStats :=
  if negb (is_enabled m) then throw "Pruning is disabled"
  else if is_ibd && negb (ibd_prune (config m) && can_incremental_prune_during_ibd m) then throw "Cannot prune during initial block download"
  else if is_ibd && (current <? min_blocks_for_incremental_prune (config m)) then throw "Cannot prune during IBD until enough blocks are synced"
  else if current <=? to then throw "Cannot prune to height >= current height"
  else if sat_sub current to <? min_blocks_to_keep (config m) then throw "Pruning would leave too few blocks"
  else
    let* st := prune_mode m to current in
    modify (λ s, mkPruner (db s) (filters s) (add_stats (stats s) st to)) ;;
    ret st.
Definition incremental_prune_during_ibd (m : PruningManager) (current : Z) (is_ibd : bool) : M Pruner (option PruningStats) :=
  if negb is_ibd || negb (ibd_prune (config m)) then ret None
  else if negb (can_incremental_prune_during_ibd m) then ret None
  else if current <? min_blocks_for_incremental_prune (config m) then ret None
  else
    let to := sat_sub current (prune_window_size (config m)) in
    if (to =? 0) || (current <=? to) then ret None
    else let* st := prune_to_height m to current is_ibd in ret (Some st).

(** The step of the run loop after a block: the height by mode, and a prune that
    is told the download is over. *)
Definition auto_prune_height (m : PruningManager) (current : Z) : option Z :=
  let c := config m in
  match mode c with
  | Disabled => None
  | Normal kf _ => Some (Z.max kf (sat_sub current (min_blocks_to_keep c)))
  | Aggressive kf _ _ mb => Some (Z.max kf (sat_sub current mb))
  | Custom _ kb _ _ _ _ _ => Some (Z.max kb (sat_sub current (min_blocks_to_keep c)))
  end.
Definition auto_prune_step (m : PruningManager) (current : Z) (s : Pruner) : Pruner :=
  if should_auto_prune m current (last_prune_height (stats s)) then
    match auto_prune_height m current with
    | Some to => if to <? current then (prune_to_height m to current false s).1 else s
    | None => s
    end
  else s.

(** ** What a prune may change *)

Definition tx_trees : list string := [tx_by_hash_t; tx_by_block_t; tx_metadata_t].
Definition commitment_trees : list string := [commitments_t; commitment_height_t].
Definition touched : list string := blocks_t :: witnesses_t :: tx_trees ++ commitment_trees.
(** The trees the settings of the manager let a prune write. *)
Definition prune_trees (m : PruningManager) : list string :=
  let commitments keep := if keep && (commitment_store m && utxostore m) then commitment_trees else [] in
  blocks_t ::
  match mode (config m) with
  | Aggressive _ kc kfb _ => (if kfb then [] else [witnesses_t]) ++ commitments kc
  | Custom _ _ kc _ _ kw kt =>
      (if kw then [] else [witnesses_t]) ++ (if kt || negb (tx_index m) then [] else tx_trees) ++ commitments kc
  | _ => []
  end.
Lemma prune_trees_touched m : prune_trees m ⊆ touched.
Proof.
  unfold prune_trees, touched. destruct (mode (config m)) as [| |? kc kfb ?|? ? kc ? ? kw kt];
    repeat match goal with |- context [if ?b then _ else _] => destruct b end; set_solver.
Qed.

Section Trees.
(** The trees that may be written. *)
Context (ts : list string) (Hblocks : blocks_t ∈ ts) (Hsub : ts ⊆ touched).

(** A row of the body of [hash]. *)
Definition body_key (d : database) (hash k : bytes) : Prop :=
  k = hash ∨ ∃ h, get_height_by_hash hash d = Ok (Some h) ∧ k = block_height_row_key h hash.
(** Rows outside these trees stay; bodies stay or go, and go only for the
    hashes of [may]. *)
Definition pruned (may : bytes → Prop) (d d' : database) : Prop :=
  (∀ t k, t ∉ ts → tree_get t k d' = tree_get t k d) ∧
  (∀ k, tree_get blocks_t k d' = tree_get blocks_t k d ∨ tree_get blocks_t k d' = None ∧ ∃ hash, may hash ∧ body_key d hash k).

Lemma pruned_refl may d : pruned may d d.
Proof. split; [done|]. by left. Qed.
Lemma untouched_reads may d d' :
  pruned may d d' →
  (∀ g, get_hash_by_height g d' = get_hash_by_height g d) ∧ (∀ hash, get_height_by_hash hash d' = get_height_by_hash hash d) ∧
  (∀ hash, get_undo_log hash d' = get_undo_log hash d).
Proof.
  intros [Ht _]. unfold get_hash_by_height, get_height_by_hash, get_undo_log.
  split_and!; intros; rewrite Ht; try done; intros Hin%Hsub; revert Hin; unfold touched, tx_trees, commitment_trees;
    cbn [app]; rewrite !elem_of_cons, elem_of_nil; intros Hin; intuition discriminate.
Qed.
Lemma pruned_trans may d1 d2 d3 : pruned may d1 d2 → pruned may d2 d3 → pruned may d1 d3.
Proof.
  intros H12 H23. destruct (untouched_reads _ _ _ H12) as (_ & Hh & _). destruct H12 as [Ht1 Hb1], H23 as [Ht2 Hb2]. split.
  - intros t k Ht. by rewrite Ht2, Ht1.
  - intros k. destruct (Hb2 k) as [E2|(E2 & hash & Hm & Hk)].
    + rewrite E2. apply Hb1.
    + right. split; [done|]. exists hash. split; [done|]. unfold body_key in *. by rewrite <-Hh.
Qed.

(** A body that is gone stays gone. *)
Definition gone (hash : bytes) (d : database) : Prop := load_block_blob hash d = Ok None.
Lemma gone_spec hash d : gone hash d ↔ (∃ h, get_height_by_hash hash d = Ok h) ∧ ∀ k, body_key d hash k → tree_get blocks_t k d = None.
Proof.
  unfold gone, load_block_blob, body_key. destruct (get_height_by_hash hash d) as [[h|]|e]; cbn.
  - destruct (tree_get blocks_t (block_height_row_key h hash) d) eqn:E1.
    + split; [done|]. intros [_ Hk]. rewrite Hk in E1; [done|]. right. eauto.
    + split.
      * intros [= E2]. split; [eauto|]. intros k [->|(h' & [= <-] & ->)]; done.
      * intros [_ Hk]. by rewrite Hk by (by left).
  - split; [intros [= E2]|intros [_ Hk]; by rewrite Hk by (by left)]. split; [eauto|]. intros k [->|(h & [=] & _)]. done.
  - split; [done|]. by intros [[h ?] _].
Qed.
Lemma gone_mono may hash d d' : pruned may d d' → gone hash d → gone hash d'.
Proof.
  intros Hp. destruct (untouched_reads _ _ _ Hp) as (_ & Hh & _). rewrite !gone_spec, Hh. intros [He Hk]. split; [done|]. intros k Hbk.
  destruct Hp as [_ Hb]. unfold body_key in *. rewrite Hh in Hbk. specialize (Hk k Hbk). by destruct (Hb k) as [->|[? _]].
Qed.

(** ** Operations that only prune *)

Definition keeps {A : Type} (may : bytes → Prop) (m : M Pruner A) : Prop := ∀ s, pruned may (db s) (db (m s).1).

Lemma keeps_ret {A : Type} may (a : A) : keeps may (ret a).
Proof. intros s. apply pruned_refl. Qed.
Lemma keeps_reads {A : Type} may (f : Pruner → result A) : keeps may (reads f).
Proof. intros s. apply pruned_refl. Qed.
Lemma keeps_bind {A B : Type} may (m : M Pruner A) (k : A → M Pruner B) : keeps may m → (∀ a, keeps may (k a)) → keeps may (bind m k).
Proof.
  intros Hm Hk s. unfold bind. specialize (Hm s). destruct (m s) as [s1 [a|e]]; [|done]. eapply pruned_trans; [done|]. apply Hk.
Qed.
Lemma keeps_gets {A : Type} may (f : Pruner → A) : keeps may (gets f).
Proof. intros s. apply pruned_refl. Qed.
Lemma keeps_if {A : Type} may (b : bool) (m1 m2 : M Pruner A) :
  (b = true → keeps may m1) → (b = false → keeps may m2) → keeps may (if b then m1 else m2).
Proof. destruct b; auto. Qed.
Lemma keeps_on_db may f : (∀ d d', f d = Ok d' → pruned may d d') → keeps may (on_db f).
Proof. intros Hf s. unfold on_db. destruct (f (db s)) eqn:E; [by apply Hf|apply pruned_refl]. Qed.

(** A write to a touched tree other than the bodies. *)
Lemma pruned_remove may t k d : t ∈ ts → t ≠ blocks_t → pruned may d (tree_remove t k d).
Proof.
  intros Ht Hne. split.
  - intros t' k' Ht'. rewrite tree_get_remove_ne; [done|]. by intros [= -> ->].
  - intros k'. left. rewrite tree_get_remove_ne; [done|]. by intros [= -> ->].
Qed.
Lemma pruned_insert may t k v d : t ∈ ts → t ≠ blocks_t → pruned may d (tree_insert t k v d).
Proof.
  intros Ht Hne. split.
  - intros t' k' Ht'. rewrite tree_get_insert_ne; [done|]. by intros [= -> ->].
  - intros k'. left. rewrite tree_get_insert_ne; [done|]. by intros [= -> ->].
Qed.

Section Commitments.
Context (Hc : commitment_trees ⊆ ts).
Lemma keeps_commitment may hash hgt coins : keeps may (generate_commitment_from_current_state hash hgt coins).
Proof.
  apply keeps_on_db. intros d d' (row & _ & [= <-])%rbind_inv_ok. unfold store_commitment. cbn. unfold commitment_trees in Hc.
  eapply pruned_trans; apply pruned_insert; (set_solver || done).
Qed.
Lemma keeps_for_block may hash hgt : keeps may (generate_commitment_for_block hash hgt).
Proof. apply keeps_bind; [apply keeps_reads|]. intros coins. apply keeps_commitment. Qed.
Lemma keeps_checkpoints may n hgt to : keeps may (commit_checkpoints n hgt to).
Proof.
  revert hgt. induction n as [|n IH]; intros hgt; cbn [commit_checkpoints]; [apply keeps_ret|].
  apply keeps_if; intros _; [apply keeps_ret|].
  apply keeps_bind; [apply keeps_reads|]. intros r. apply keeps_bind; [|intros; apply IH]. destruct r as [hash|]; [|apply keeps_ret].
  apply keeps_bind; [apply keeps_gets|]. intros []; [apply keeps_ret|apply keeps_for_block].
Qed.
End Commitments.
Section TxTrees.
Context (Htx : tx_trees ⊆ ts).
Lemma keeps_remove_txs may l : keeps may (remove_txs l).
Proof.
  unfold tx_trees in Htx.
  induction l as [|tx l IH]; cbn [remove_txs]; [apply keeps_ret|]. apply keeps_bind; [|done]. apply keeps_on_db.
  intros d d' (md & _ & [= <-])%rbind_inv_ok. eapply pruned_trans; [|apply pruned_remove; (set_solver || done)].
  eapply pruned_trans; [|apply pruned_remove; (set_solver || done)].
  destruct md; [apply pruned_remove; (set_solver || done)|apply pruned_refl].
Qed.
End TxTrees.
Lemma keeps_drop_index may m hash : (tx_index m = true → tx_trees ⊆ ts) → keeps may (drop_tx_index_for_block m hash).
Proof.
  intros Htx. unfold drop_tx_index_for_block. apply keeps_if; [intros _; apply keeps_ret|]. intros Hm%negb_false_iff.
  apply keeps_bind; [apply keeps_reads|]. intros [b|]; [by apply keeps_remove_txs, Htx|apply keeps_ret].
Qed.
Lemma keeps_drop_filter may m hash : keeps may (drop_filter m hash).
Proof. unfold drop_filter. apply keeps_if; intros _; [|apply keeps_ret]. intros s. apply pruned_refl. Qed.
Lemma keeps_drop_witness may hash : witnesses_t ∈ ts → keeps may (on_store (remove_witness hash)).
Proof.
  intros Hw s. unfold on_store, remove_witness, remove_row_at, bind, reads, modify. cbn.
  destruct (get_height_by_hash hash (db s)) as [[h|]|e]; cbn; [| |apply pruned_refl].
  - eapply pruned_trans; by apply pruned_remove.
  - by apply pruned_remove.
Qed.

(** ** The bodies a prune removes *)

Lemma pruned_body (may : bytes → Prop) hash k d : may hash → body_key d hash k → pruned may d (tree_remove blocks_t k d).
Proof.
  intros Hm Hk. split.
  - intros t k' Ht. rewrite tree_get_remove_ne; [done|]. intros [= <- _]. by apply Ht.
  - intros k'. destruct (decide (k = k')) as [<-|]; [right|left; by rewrite tree_get_remove_ne by congruence].
    rewrite tree_get_remove_eq. split; [done|]. by exists hash.
Qed.
Lemma remove_block_body_spec (may : bytes → Prop) hash d h :
  may hash → get_height_by_hash hash d = Ok h →
  ∃ d', remove_block_body hash d = (d', Ok ()) ∧ pruned may d d' ∧ gone hash d'.
Proof.
  intros Hm Eh. set (d1 := match h with Some hgt => tree_remove blocks_t (block_height_row_key hgt hash) d | None => d end).
  exists (tree_remove blocks_t hash d1). split.
  { unfold remove_block_body, remove_row_at, bind, reads, modify. rewrite Eh. by destruct h. }
  assert (pruned may d d1) as H1 by (unfold d1; destruct h; [apply (pruned_body may hash); [done|right; eauto]|apply pruned_refl]).
  assert (pruned may d1 (tree_remove blocks_t hash d1)) as H2 by (apply (pruned_body may hash); [done|by left]).
  pose proof (pruned_trans _ _ _ _ H1 H2) as H12. split; [done|].
  apply gone_spec. destruct (untouched_reads _ _ _ H12) as (_ & Hh & _). rewrite Hh, Eh. split; [eauto|]. unfold body_key. rewrite Hh, Eh.
  intros k [->|(h' & [= ->] & ->)]; [apply tree_get_remove_eq|]. rewrite tree_get_remove. case_decide; [done|]. apply tree_get_remove_eq.
Qed.
Lemma remove_body_spec (may : bytes → Prop) hash st s s' r :
  (∀ u, get_undo_log hash (db s) = Ok (Some u) → may hash) →
  remove_body_if_undo_is_durable hash st s = (s', r) →
  pruned may (db s) (db s') ∧ ∀ st' u, r = Ok st' → get_undo_log hash (db s) = Ok (Some u) → gone hash (db s').
Proof.
  intros Hmay. unfold remove_body_if_undo_is_durable, bind, reads. destruct (get_block hash (db s)) as [body|e] eqn:Eb.
  2: { intros [= <- <-]. split; [apply pruned_refl|done]. }
  destruct (get_undo_log hash (db s)) as [undo|e] eqn:Eu; [|intros [= <- <-]; split; [apply pruned_refl|done]].
  unfold get_block in Eb. apply rbind_inv_ok in Eb as (blob & El & Eb). destruct (negb _) eqn:Ep.
  - intros [= <- <-]. split; [apply pruned_refl|]. intros st' u _ [= ->]. unfold body_is_prunable in Ep.
    rewrite (bool_decide_eq_true_2 (is_Some (Some u))) in Ep by done. rewrite andb_true_r in Ep. apply negb_true_iff, bool_decide_eq_false in Ep.
    unfold gone. rewrite El. destruct blob as [data|]; [|done]. apply rbind_inv_ok in Eb as (b & _ & [= <-]). by destruct Ep.
  - apply negb_false_iff, andb_true_iff in Ep as [_ [u ->]%bool_decide_eq_true]. specialize (Hmay u eq_refl).
    unfold load_block_blob in El. apply rbind_inv_ok in El as (h & Eh & _).
    destruct (remove_block_body_spec may hash (db s) h Hmay Eh) as (d' & Ed & Hp & Hg). unfold on_store. rewrite Ed. cbn. intros [= <- <-]. by split.
Qed.

(** What a loop body must do for one active hash. *)
Definition takes_body {A : Type} (may : bytes → Prop) (d : database) (hash : bytes) (m : M Pruner A) : Prop :=
  ∀ s s' r, pruned may d (db s) → m s = (s', r) →
    pruned may (db s) (db s') ∧ ∀ a u, r = Ok a → get_undo_log hash d = Ok (Some u) → gone hash (db s').

Lemma takes_remove may d hash st :
  (∀ u, get_undo_log hash d = Ok (Some u) → may hash) → takes_body may d hash (remove_body_if_undo_is_durable hash st).
Proof.
  intros Hmay s s' r Hp Hrun. destruct (untouched_reads _ _ _ Hp) as (_ & _ & Hu).
  apply (remove_body_spec may) in Hrun as [H1 H2]; [|intros u; rewrite Hu; apply Hmay]. split; [done|].
  intros st' u Hr Hundo. apply (H2 st' u Hr). by rewrite Hu.
Qed.
Lemma takes_then {A B : Type} may d hash (m : M Pruner A) (k : A → M Pruner B) :
  takes_body may d hash m → (∀ a, keeps may (k a)) → takes_body may d hash (bind m k).
Proof.
  intros Hm Hk s s' r Hp. unfold bind. destruct (m s) as [s1 [a|e]] eqn:Em; destruct (Hm _ _ _ Hp Em) as [H1 H2].
  - intros Er. specialize (Hk a s1). rewrite Er in Hk. split; [by eapply pruned_trans|]. intros b u _ Hu.
    eapply gone_mono; [exact Hk|]. by eapply H2.
  - intros [= <- <-]. by split.
Qed.
Lemma takes_after {A B : Type} may d hash (m : M Pruner A) (k : A → M Pruner B) :
  keeps may m → (∀ a, takes_body may d hash (k a)) → takes_body may d hash (bind m k).
Proof.
  intros Hm Hk s s' r Hp. unfold bind. specialize (Hm s). destruct (m s) as [s1 [a|e]] eqn:Em; cbn in Hm.
  - intros Er. apply Hk in Er as [H1 H2]; [|by eapply pruned_trans]. split; [by eapply pruned_trans|done].
  - intros [= <- <-]. by split.
Qed.

Lemma for_heights_spec {A : Type} may d bound (body : Z → bytes → A → M Pruner A) n from a s s' r :
  (∀ hgt hash a, 0 ≤ hgt < bound → get_hash_by_height hgt d = Ok (Some hash) → takes_body may d hash (body hgt hash a)) →
  0 ≤ from → from + Z.of_nat n ≤ bound → pruned may d (db s) → for_heights n from body a s = (s', r) →
  pruned may (db s) (db s') ∧
  ∀ a' g hash u, r = Ok a' → from ≤ g < from + Z.of_nat n → get_hash_by_height g d = Ok (Some hash) →
    get_undo_log hash d = Ok (Some u) → gone hash (db s').
Proof.
  intros Hbody. revert from a s. induction n as [|n IH]; intros from a s Hf Hn Hp; cbn [for_heights].
  { intros [= <- <-]. split; [apply pruned_refl|]. lia. }
  unfold bind at 1, reads. destruct (untouched_reads _ _ _ Hp) as (Hg & _). rewrite Hg.
  destruct (get_hash_by_height from d) as [o|e] eqn:Eg; [|intros [= <- <-]; split; [apply pruned_refl|done]]. unfold bind at 1.
  set (m := match o with Some hash => body from hash a | None => ret a end).
  assert (∀ s1 r1, m s = (s1, r1) → pruned may (db s) (db s1) ∧
            ∀ a1 hash u, r1 = Ok a1 → o = Some hash → get_undo_log hash d = Ok (Some u) → gone hash (db s1)) as Hm.
  { intros s1 r1 Em. destruct o as [hash|]; [|injection Em as <- <-; split; [apply pruned_refl|done]].
    destruct (Hbody from hash a ltac:(lia) Eg s s1 _ Hp Em) as [H1 H2]. split; [done|]. intros a1 ? u Hr [= <-]. by eapply H2. }
  destruct (m s) as [s1 [a1|e]]; destruct (Hm _ _ eq_refl) as [Hp1 Hg1]; [|intros [= <- <-]; done].
  intros Hrun. apply IH in Hrun as [H3 H4]; [|lia|lia|by eapply pruned_trans]. split; [by eapply pruned_trans|]. intros a' g hash u Hr Hgr Hact Hu.
  destruct (decide (g = from)) as [->|]; [|apply (H4 a' g hash u); (done || lia)]. rewrite Eg in Hact. injection Hact as ->.
  eapply gone_mono; [exact H3|]. by eapply Hg1.
Qed.

(** ** The modes *)

(** The height below which a prune to [to] takes bodies. *)
Definition prune_bound (m : PruningManager) (to current : Z) : Z :=
  match mode (config m) with
  | Disabled => 0
  | Normal kf recent => Z.min to (Z.max kf (sat_sub current recent))
  | Aggressive kf _ _ mb => Z.min to (Z.max kf (sat_sub current mb))
  | Custom _ kb _ _ _ _ _ => Z.min to kb
  end.
(** The hashes a prune below [bound] may take: active below it, with undo data. *)
Definition takes (d : database) (bound : Z) (hash : bytes) : Prop :=
  ∃ g u, 0 ≤ g < bound ∧ get_hash_by_height g d = Ok (Some hash) ∧ get_undo_log hash d = Ok (Some u).
Definition all_gone (d d' : database) (bound : Z) : Prop := ∀ hash, takes d bound hash → gone hash d'.

(** A mode is a run that only prunes, a loop below the bound, and a count. *)
Lemma mode_loop (pre : M Pruner unit) (body : Z → bytes → PruningStats → M Pruner PruningStats) (post : PruningStats → PruningStats) bound s s' r :
  keeps (takes (db s) bound) pre →
  (∀ hgt hash st, 0 ≤ hgt < bound → get_hash_by_height hgt (db s) = Ok (Some hash) → takes_body (takes (db s) bound) (db s) hash (body hgt hash st)) →
  (pre ;; let* st := for_heights (Z.to_nat bound) 0 body no_stats in ret (post st)) s = (s', r) →
  pruned (takes (db s) bound) (db s) (db s') ∧ ∀ st, r = Ok st → all_gone (db s) (db s') bound.
Proof.
  intros Hpre Hbody. unfold bind at 1. specialize (Hpre s). destruct (pre s) as [s1 [[]|e]]; cbn in Hpre; [|intros [= <- <-]; done].
  unfold bind. destruct (for_heights _ _ _ _ s1) as [s2 r2] eqn:Ef. destruct (Z.le_gt_cases bound 0) as [Hneg|Hpos].
  - replace (Z.to_nat bound) with 0%nat in Ef by lia. injection Ef as <- <-. intros [= <- <-]. split; [done|]. intros _ _ hash (g & u & ? & _). lia.
  - destruct (for_heights_spec _ (db s) bound body (Z.to_nat bound) 0 no_stats s1 s2 r2 Hbody ltac:(lia) ltac:(lia) Hpre Ef) as [H1 H2].
    assert (pruned (takes (db s) bound) (db s) (db s2)) as H12 by by eapply pruned_trans.
    destruct r2 as [st|e]; intros [= <- <-]; (split; [done|]); [|done]. intros _ _ hash (g & u & Hg & Ha & Hu). apply (H2 st g hash u eq_refl); [lia|done|done].
Qed.
End Trees.

Lemma prune_mode_spec m to current s s' r :
  prune_mode m to current s = (s', r) →
  let bound := prune_bound m to current in
  pruned (prune_trees m) (takes (db s) bound) (db s) (db s') ∧ ∀ st, r = Ok st → all_gone (db s) (db s') bound.
Proof.
  pose proof (prune_trees_touched m) as Hsub. assert (blocks_t ∈ prune_trees m) as Hblocks by by left. revert Hsub Hblocks.
  unfold prune_mode, prune_bound, prune_trees.
  destruct (mode (config m)) as [|kf recent|kf kc kfb mb|kh kb kc kfi kfb kw kt]; cbv zeta; set (ts := blocks_t :: _); intros Hsub Hblocks.
  - intros [= <- <-]. split; [by apply pruned_refl|done].
  - intros Hrun. set (bound := Z.min to (Z.max kf (sat_sub current recent))) in *.
    apply (mode_loop ts Hsub (ret ()) (λ _ hash st, remove_body_if_undo_is_durable hash st) (λ st, kept st (sat_sub current bound) current));
      [by apply keeps_ret| |exact Hrun].
    intros hgt hash st Hh Ha. apply takes_remove; [done..|]. intros u Hu. by exists hgt, u.
  - intros Hrun. set (bound := Z.min to (Z.max kf (sat_sub current mb))) in *. eapply (mode_loop ts Hsub); [| |exact Hrun].
    + apply keeps_if; intros Hb; [apply keeps_checkpoints; [done..|]|by apply keeps_ret]. unfold ts. rewrite Hb. set_solver.
    + intros hgt hash st Hh Ha. cbv beta. apply takes_then; [done|apply takes_remove; [done..|]; intros u Hu; by exists hgt, u|]. intros st'.
      apply keeps_bind; [done|apply keeps_if; intros Hb; [by apply keeps_ret|apply keeps_drop_witness; [done|]; unfold ts; rewrite Hb; set_solver]|]. intros _.
      apply keeps_bind; [done|by apply keeps_drop_filter|]. intros _. by apply keeps_ret.
  - intros Hrun. set (bound := Z.min to kb) in *. eapply (mode_loop ts Hsub (ret ())); [by apply keeps_ret| |exact Hrun].
    intros hgt hash st Hh Ha. cbv beta. apply takes_after; [done| |].
    { apply keeps_if; intros Hb; [by apply keeps_ret|]. apply keeps_drop_index; [done..|]. intros Hm. unfold ts. rewrite Hb, Hm. cbn [orb negb]. set_solver. }
    intros _. destruct (Z.ltb_spec hgt kb); [|lia]. apply takes_then; [done|apply takes_remove; [done..|]; intros u Hu; by exists hgt, u|]. intros st'.
    apply keeps_bind; [done|apply keeps_if; intros Hb; [by apply keeps_ret|apply keeps_drop_witness; [done|]; unfold ts; rewrite Hb; set_solver]|]. intros _.
    apply keeps_bind; [done| |].
    + apply keeps_if; intros Hb; [|by apply keeps_ret]. apply keeps_bind; [done|by apply keeps_gets|].
      intros []; [by apply keeps_ret|]. apply keeps_for_block; [done..|]. unfold ts. rewrite Hb. set_solver.
    + intros _. apply keeps_bind; [done|apply keeps_if; intros _; [by apply keeps_drop_filter|by apply keeps_ret]|]. intros _. by apply keeps_ret.
Qed.

(** When a prune is not refused. *)
Definition prune_allowed (m : PruningManager) (to current : Z) (is_ibd : bool) : bool :=
  is_enabled m &&
  (negb is_ibd || ibd_prune (config m) && can_incremental_prune_during_ibd m && (min_blocks_for_incremental_prune (config m) <=? current)) &&
  (to <? current) && (min_blocks_to_keep (config m) <=? sat_sub current to).
Lemma prune_to_height_cases m to current is_ibd s :
  if prune_allowed m to current is_ibd
  then prune_to_height m to current is_ibd s
       = (let* st := prune_mode m to current in
          modify (λ s, mkPruner (db s) (filters s) (add_stats (stats s) st to)) ;; ret st) s
  else ∃ e, prune_to_height m to current is_ibd s = (s, Err e).
Proof.
  unfold prune_allowed, prune_to_height. destruct (is_enabled m); cbn [negb andb]; [|by eexists].
  rewrite (Z.leb_antisym to current), (Z.leb_antisym (sat_sub current to)), (Z.leb_antisym current (min_blocks_for_incremental_prune (config m))).
  destruct is_ibd, (ibd_prune (config m)), (can_incremental_prune_during_ibd m), (current <? min_blocks_for_incremental_prune (config m)),
    (to <? current), (sat_sub current to <? min_blocks_to_keep (config m)); cbn [negb andb orb]; first [done|by eexists].
Qed.

(** [C9] Whatever the mode and however it ends, a prune writes only the trees its
    settings name: always the bodies, witnesses where they are not kept, the
    transaction index only in a custom prune that does not keep it, commitments
    only where they are kept.  Headers, the height index and undo data stay.  It
    takes a body only of a block of the active chain below its bound, which is at
    most the requested height, and only if the block has undo data; one that
    succeeds has taken the body of every such block, and the requested height was
    at least [min_blocks_to_keep] below the tip. *)
Theorem prune_takes_exactly (m : PruningManager) (to current : Z) (is_ibd : bool) (s s' : Pruner) (r : result PruningStats) :
  prune_to_height m to current is_ibd s = (s', r) →
  let bound := prune_bound m to current in
  prune_trees m ⊆ touched ∧
  (∀ t k, t ∉ prune_trees m → tree_get t k (db s') = tree_get t k (db s)) ∧
  (∀ k, tree_get blocks_t k (db s') = tree_get blocks_t k (db s) ∨
        tree_get blocks_t k (db s') = None ∧ ∃ hash, takes (db s) bound hash ∧ body_key (db s) hash k) ∧
  (∀ st, r = Ok st → bound ≤ to < current ∧ min_blocks_to_keep (config m) ≤ current - to ∧
     ∀ hash, takes (db s) bound hash → load_block_blob hash (db s') = Ok None).
Proof.
  intros Hrun bound. pose proof (prune_to_height_cases m to current is_ibd s) as Hcase.
  destruct (prune_allowed m to current is_ibd) eqn:Ea; [|destruct Hcase as [e He]; rewrite Hrun in He; injection He as -> ->; split_and!; [apply prune_trees_touched|done|by left|done]].
  rewrite Hrun in Hcase. unfold bind in Hcase. destruct (prune_mode m to current s) as [s1 r1] eqn:Em.
  destruct (prune_mode_spec _ _ _ _ _ _ Em) as [[H1 H2] H3]. fold bound in H2, H3.
  assert (db s' = db s1) as -> by (destruct r1; by injection Hcase as -> _). split_and!; [apply prune_trees_touched|done|done|].
  intros st ->. destruct r1 as [st1|e]; [|done].
  unfold prune_allowed in Ea. rewrite !andb_true_iff in Ea. destruct Ea as [[[Hen _] Hlt%Z.ltb_lt] Hk%Z.leb_le].
  split_and!; [|done|unfold sat_sub in Hk; lia|by apply (H3 st1)].
  unfold bound, prune_bound. unfold is_enabled in Hen. destruct (mode (config m)); [done|lia..].
Qed.

(** A prune is refused, and then leaves the trees, the filters and the
    statistics as they are, exactly when pruning is disabled, or the download is
    running without incremental pruning, commitments or enough blocks, or the
    height is not below the tip, or fewer than the configured number of blocks
    would remain; otherwise it runs its mode and adds to the statistics on success. *)
Theorem prune_refusals (m : PruningManager) (to current : Z) (is_ibd : bool) (s : Pruner) :
  if prune_allowed m to current is_ibd then
    let '(s1, r1) := prune_mode m to current s in
    prune_to_height m to current is_ibd s
    = (match r1 with Ok st => mkPruner (db s1) (filters s1) (add_stats (stats s1) st to) | Err _ => s1 end, r1)
  else ∃ e, prune_to_height m to current is_ibd s = (s, Err e).
Proof.
  pose proof (prune_to_height_cases m to current is_ibd s) as Hcase. destruct (prune_allowed _ _ _ _); [|done]. rewrite Hcase.
  unfold bind. by destruct (prune_mode m to current s) as [s1 [st|e]].
Qed.

(** ** What a commitment is of *)

Lemma replay_app n k from coins d :
  replay (n + k) from coins d = (let+ c := replay n from coins d in replay k (from + Z.of_nat n) c d).
Proof.
  revert from coins. induction n as [|n IH]; intros from coins; cbn [replay Nat.add]; [cbn [rbind]; by rewrite Z.add_0_r|].
  destruct (get_hash_by_height from d) as [[hash|]|]; cbn [rbind]; try done. destruct (get_block hash d) as [[b|]|]; cbn [rbind]; try done.
  destruct (load_witnesses_from_store b from d); cbn [rbind]; [|done]. destruct (connect_block d b _ coins from) as [[c|]|]; [|done..].
  rewrite IH. by replace (from + 1 + Z.of_nat n) with (from + Z.of_nat (S n)) by lia.
Qed.
(** The set a commitment of the block at [h] is made of is the one before that
    block: the block itself is first connected for the set of [h + 1]. *)
Lemma reconstructed_set_precedes_block h d :
  0 ≤ h →
  reconstruct_utxo_set_at_height (h + 1) d = (let+ coins := reconstruct_utxo_set_at_height h d in replay 1 h coins d).
Proof.
  intros Hh. unfold reconstruct_utxo_set_at_height. rewrite Z2Nat.inj_add by lia. rewrite replay_app. by rewrite Z2Nat.id by lia.
Qed.
End Pruning.

(** ** Concrete prunes *)

Module PruneWitness.
Import IntegerU256 ToyConsensus PoolWitness.

(** Every row decodes, every block connects and leaves the coins alone. *)
#[global] Instance toy_prune : PruneOps := {|
  UndoLog := unit;
  deserialize_block_with_witnesses _ := None;
  connect_block _ _ _ coins _ := Some (Some coins);
  segwit_active _ := false;
  utxo_commitment _ hash _ := Some hash;
|}.
#[global] Instance toy_block_codec : Codec Block := {|
  encode_row b := [z2b (nonce (blk_header b))];
  decode_row bs := Some (mkBlock (mkHeader 1 zero_hash zero_hash 0 0 (of_le bs)) []);
|}.
#[global] Instance toy_witness_codec : Codec (list (list Witness)) := {| encode_row _ := []; decode_row _ := Some [] |}.
#[global] Instance toy_undo_codec : Codec unit := {| encode_row _ := []; decode_row _ := Some () |}.
#[global] Instance toy_metadata_codec : Codec TxMetadata := {| encode_row _ := []; decode_row _ := None |}.

(** Three blocks with bodies; the last has no undo data. *)
Definition block_hash (n : Z) : bytes := replicate 32 (z2b n).
Definition block_rows (n : Z) (undo : bool) (d : database) : database :=
  let d1 := tree_insert blocks_t (block_hash n) [z2b n]
              (tree_insert hash_height_t (block_hash n) (to_be 8 n) (tree_insert height_t (to_be 8 n) (block_hash n) d)) in
  if undo then tree_insert undo_t (block_hash n) [z2b n] d1 else d1.
Definition chain : database := block_rows 2 false (block_rows 1 true (block_rows 0 true ∅)).
Definition pruner : Pruner := mkPruner chain ∅ no_stats.
Definition manager (md : PruningMode) : PruningManager := mkManager (mkPruning md true 144 288 false 144 288) true true false false.
Definition bodies (s : Pruner) : list bool := (λ n, bool_decide (is_Some (tree_get blocks_t (block_hash n) (db s)))) <$> [0; 1; 2].

Definition normal : Pruner * result PruningStats := prune_to_height (manager (Normal 0 1)) 10 300 false pruner.
(** Two bodies go, the one without undo data stays. *)
Lemma normal_prune : bodies normal.1 = [false; false; true] ∧ is_ok normal.2 = true.
Proof. by vm_compute. Qed.

Lemma prune_takes_exactly_witness :
  normal = (normal.1, normal.2) ∧ ∀ k, tree_get tx_by_hash_t k (db normal.1) = tree_get tx_by_hash_t k (db pruner).
Proof.
  split; [apply surjective_pairing|]. intros k.
  exact (proj1 (proj2 (prune_takes_exactly (manager (Normal 0 1)) 10 300 false pruner normal.1 normal.2 (surjective_pairing _))) tx_by_hash_t k
    ltac:(apply (bool_decide_unpack (_ ∉ _)); vm_compute; exact I)).
Defined.

(** A custom prune that keeps commitments removes the body of a height before it
    makes the commitment of the height, which replays the bodies below: at the
    second height it fails, and the first two bodies are lost. *)
Lemma custom_prune_fails_midway :
  let '(s, r) := prune_to_height (manager (Custom true 3 true false false true true)) 10 300 false pruner in
  r = Err "block not found during UTXO reconstruction" ∧ bodies s = [false; false; true].
Proof. by vm_compute. Qed.

(** [min_recent_blocks] does not keep recent bodies when [keep_from_height] is
    higher: of 300 blocks all within the last 1000, the first two go. *)
Lemma recent_bodies_pruned :
  let '(s, r) := prune_to_height (manager (Normal 8 1000)) 10 300 false pruner in
  is_ok r = true ∧ bodies s = [false; false; true].
Proof. by vm_compute. Qed.

(** During the download a prune is refused; the automatic prune runs all the same. *)
Definition in_download : PruningManager := mkManager (mkPruning (Normal 0 288) true 144 288 false 144 288) true true false false.
Lemma auto_prune_ignores_download :
  is_ok (prune_to_height in_download 12 300 true pruner).2 = false ∧
  bodies (auto_prune_step in_download 300 pruner) = [false; false; true].
Proof. by vm_compute. Qed.
End PruneWitness.
