(* ===== verification/Miner.v ===== *)
(** * Miner: the choice of transactions for a block template

    [TransactionSelector] of [src/node/miner.rs] over the [MempoolProvider] trait:
    transactions are taken in fee order, a spend of a pooled parent waits for the
    parent, and a parent below the fee floor is taken with a descendant that pays
    for it.  The proofs are in [MinerProps]. *)

From S2P Require Import Prelude Bytes Interfaces UtxoSnapshot TxPolicy Mempool.
Open Scope Z_scope.

(** What the selector reads of the pool.  [prioritized] is
    [get_prioritized_transactions] with the size of the pool as its limit. *)
Record MempoolProvider := mkProvider {
  pooled : gmap bytes Tx;
  pooled_witnesses : gmap bytes (list Witness);
  prioritized : coin_map → list Tx;
}.

(** What it calls of [blvm-consensus] and [blvm-protocol]; the signature
    operations are counted under the flags of a block. *)
Class MiningOps := {
  calculate_transaction_size : Tx → Z;
  weight_from_stacks : Tx → option (list Witness) → option Z;
  weight_to_vsize : Z → Z;
  block_sigop_cost : Tx → coin_map → option (list Witness) → option Z;
  MAX_BLOCK_SIGOPS_COST : Z;
}.

Inductive BlockSelect := Added | Skip | Full.
#[export] Instance block_select_eq_dec : EqDecision BlockSelect.
Proof. solve_decision. Defined.

Record TransactionSelector := mkSelector {
  max_block_size : Z;
  max_block_weight : Z;
  min_fee_rate : Z;
}.

(** The running state of the selection. *)
Record Template := mkTemplate {
  selected : list Tx;
  selected_ids : gset bytes;
  current_size : Z;
  current_weight : Z;
  current_sigops : Z;
}.

(** Room for the header, the transaction count and the coinbase. *)
Abbreviation TEMPLATE_RESERVE_WEIGHT := 4000 (only parsing).
Abbreviation TEMPLATE_RESERVE_BYTES := 1000 (only parsing).

(** [rate] in satoshis per 1,000 virtual bytes, rounded up, in 128 bits. *)
Definition fee_meets_block_floor (fee vsize rate : Z) : bool :=
  (0 <? vsize) && ((Z.min (rate * vsize) u128_max + 999) / 1000 <=? fee).

Section Select.
Context {U : U256Ops} {K : Consensus} {T : TxOps} {MO : MiningOps}.
Context (sel : TransactionSelector) (mp : MempoolProvider) (utxos : coin_map).

(** ** Sizes and fees *)

Definition bip141_weight (tx : Tx) : Z := default u64_max (weight_from_stacks tx (pooled_witnesses mp !! calculate_tx_id tx)).
Definition tx_vsize (tx : Tx) : Z := weight_to_vsize (bip141_weight tx).

(** The coins with the outputs of the chosen transactions. *)
Definition overlay_tx (coins : coin_map) (parent : Tx) : coin_map :=
  foldl (λ m p, <[mkOut (calculate_tx_id parent) (as_u32 (Z.of_nat p.1)) := mkUtxo (out_value p.2) (out_script p.2) 0 false]> m)
    coins (imap pair (tx_outputs parent)).
Definition tx_sigop_cost (tx : Tx) (chosen : list Tx) : Z :=
  default u64_max (block_sigop_cost tx (foldl overlay_tx utxos chosen) (pooled_witnesses mp !! calculate_tx_id tx)).

(** A chain coin first, then the output of a pooled parent. *)
Definition prevout_sats (o : OutPoint) : option Z :=
  match utxos !! o with
  | Some u => money_sats (ut_value u)
  | None =>
      parent ← pooled mp !! op_hash o;
      out ← tx_outputs parent !! Z.to_nat (op_index o);
      money_sats (out_value out)
  end.
(** Inputs without a known value count as nothing. *)
Fixpoint input_total (ins : list OutPoint) (total : Z) : option Z :=
  match ins with
  | [] => Some total
  | o :: rest =>
      match prevout_sats o with
      | Some sats => total' ← add_money total sats; input_total rest total'
      | None => input_total rest total
      end
  end.
Definition transaction_fee (tx : Tx) : Z :=
  match input_total (tx_inputs tx) 0 with
  | None => 0
  | Some total => match output_sum_sats tx with None => 0 | Some out => sat_sub total out end
  end.

(** ** One transaction *)

(** An input spends a pooled transaction that is not in the template. *)
Definition parent_still_unselected (ids : gset bytes) (tx : Tx) : bool :=
  existsb (λ o, bool_decide (utxos !! o = None) && bool_decide (is_Some (pooled mp !! op_hash o))
                && bool_decide (op_hash o ∉ ids)) (tx_inputs tx).

(** The additions of sizes and weights are the unchecked ones of the machine. *)
Definition try_add_to_block (enforce_fee : bool) (tx : Tx) (t : Template) : BlockSelect * Template :=
  let txid := calculate_tx_id tx in
  let size' := as_u64 (current_size t + calculate_transaction_size tx) in
  let weight' := as_u64 (current_weight t + bip141_weight tx) in
  let sigops' := sat_add (current_sigops t) (tx_sigop_cost tx (selected t)) in
  if (max_block_size sel <? size') || (max_block_weight sel <? weight') || (MAX_BLOCK_SIGOPS_COST <? sigops') then (Full, t)
  else if enforce_fee && negb (fee_meets_block_floor (transaction_fee tx) (tx_vsize tx) (min_fee_rate sel)) then (Skip, t)
  else (Added, mkTemplate (selected t ++ [tx]) ({[txid]} ∪ selected_ids t) size' weight' sigops').

(** ** Packages *)

(** The loop of [unselected_ancestors] over the inputs of a transaction, with
    the walk on a parent as an argument; [None] is the early [false]. *)
Record Walk := mkWalk { visiting : gset bytes; done_ids : gset bytes; ordered : list Tx }.
Fixpoint walk_inputs (walk : Tx → Walk → option Walk) (ids : gset bytes) (ins : list OutPoint) (w : Walk) : option Walk :=
  match ins with
  | [] => Some w
  | o :: rest =>
      let h := op_hash o in
      if bool_decide (is_Some (utxos !! o)) || bool_decide (h ∈ ids) || bool_decide (h ∈ done_ids w)
      then walk_inputs walk ids rest w
      else if bool_decide (h ∈ visiting w) then None
      else
        match pooled mp !! h with
        | None => None
        | Some parent =>
            if bool_decide (tx_outputs parent !! Z.to_nat (op_index o) = None) then None
            else
              w' ← walk parent (mkWalk ({[h]} ∪ visiting w) (done_ids w) (ordered w));
              walk_inputs walk ids rest
                (mkWalk (visiting w' ∖ {[h]}) ({[h]} ∪ done_ids w') (ordered w' ++ [parent]))
        end
  end.
Fixpoint walk (fuel : nat) (ids : gset bytes) (tx : Tx) (w : Walk) : option Walk :=
  match fuel with
  | O => None
  | S fuel' => walk_inputs (walk fuel' ids) ids (tx_inputs tx) w
  end.
(** The pooled ancestors that are not chosen, each before its children. *)
Definition unselected_ancestors (ids : gset bytes) (tx : Tx) : option (list Tx) :=
  ordered <$> walk (S (size (pooled mp))) ids tx (mkWalk ∅ ∅ []).

Definition package_fee (parents : list Tx) (child : Tx) : Z :=
  foldl (λ fee p, sat_add fee (transaction_fee p)) (transaction_fee child) parents.
Definition package_vsize (parents : list Tx) (child : Tx) : Z :=
  foldl (λ v p, sat_add v (tx_vsize p)) (tx_vsize child) parents.
Definition package_pays (parents : list Tx) (child : Tx) : bool :=
  fee_meets_block_floor (package_fee parents child) (package_vsize parents child) (min_fee_rate sel).

Fixpoint fits_from (package chosen : list Tx) (size weight sigops : Z) : bool :=
  match package with
  | [] => true
  | tx :: rest =>
      let size' := sat_add size (calculate_transaction_size tx) in
      let weight' := sat_add weight (bip141_weight tx) in
      let sigops' := sat_add sigops (tx_sigop_cost tx chosen) in
      if (max_block_size sel <? size') || (max_block_weight sel <? weight') || (MAX_BLOCK_SIGOPS_COST <? sigops') then false
      else fits_from rest (chosen ++ [tx]) size' weight' sigops'
  end.
Definition package_fits (package : list Tx) (t : Template) : bool :=
  fits_from package (selected t) (current_size t) (current_weight t) (current_sigops t).

(** The parents of a package up to the first that does not fit, with the ids
    that were added. *)
Fixpoint add_parents (parents : list Tx) (t : Template) (added : list bytes) : bool * Template * list bytes :=
  match parents with
  | [] => (true, t, added)
  | p :: rest =>
      let id := calculate_tx_id p in
      if bool_decide (id ∈ selected_ids t) then add_parents rest t added
      else match try_add_to_block false p t with
           | (Added, t') => add_parents rest t' (added ++ [id])
           | (_, t') => (false, t', added)
           end
  end.
(** When the package does not fit as a whole its parents are taken back. *)
Definition add_paying_package (parents : list Tx) (child : Tx) (t : Template) : bool * Template :=
  let '(parents_ok, t1, added) := add_parents parents t [] in
  let '(child_added, t2) :=
    if negb parents_ok then (false, t1)
    else if bool_decide (calculate_tx_id child ∈ selected_ids t1) then (true, t1)
    else match try_add_to_block false child t1 with (Added, t') => (true, t') | (_, t') => (false, t') end in
  if child_added then (true, t2)
  else (false, mkTemplate (take (length (selected t)) (selected t2)) (selected_ids t2 ∖ list_to_set added)
                 (current_size t) (current_weight t) (current_sigops t)).

(** The first waiting descendant that pays for itself and for [anchor]. *)
Fixpoint paying_package (anchor : Tx) (waiting : list Tx) (ids : gset bytes) : option (list Tx * Tx) :=
  match waiting with
  | [] => None
  | child :: rest =>
      if (tx_vsize child =? 0) || negb (fee_meets_block_floor (transaction_fee child) (tx_vsize child) (min_fee_rate sel))
      then paying_package anchor rest ids
      else
        match unselected_ancestors ids child with
        | None => paying_package anchor rest ids
        | Some parents =>
            if bool_decide (calculate_tx_id anchor ∈ calculate_tx_id <$> parents) && package_pays parents child
            then Some (parents, child) else paying_package anchor rest ids
        end
  end.

(** ** The selection *)

(** One pass over the waiting transactions: what still waits, and whether one
    was added. *)
Fixpoint ready_pass (waiting : list Tx) (t : Template) : Template * list Tx * bool :=
  match waiting with
  | [] => (t, [], false)
  | tx :: rest =>
      if bool_decide (calculate_tx_id tx ∈ selected_ids t) then ready_pass rest t
      else if parent_still_unselected (selected_ids t) tx then
        let '(t', still, added) := ready_pass rest t in (t', tx :: still, added)
      else
        let '(r, t1) := try_add_to_block true tx t in
        let '(t', still, added) := ready_pass rest t1 in (t', still, bool_decide (r = Added) || added)
  end.
Fixpoint ready_loop (fuel : nat) (waiting : list Tx) (t : Template) : Template * list Tx :=
  match fuel with
  | O => (t, waiting)
  | S fuel' =>
      let '(t', still, added) := ready_pass waiting t in
      if added then ready_loop fuel' still t' else (t', still)
  end.
Definition take_ready_dependents (waiting : list Tx) (t : Template) : Template * list Tx :=
  ready_loop (S (length waiting)) waiting t.

(** One candidate, in fee order. *)
Definition offer (st : Template * list Tx) (tx : Tx) : Template * list Tx :=
  let '(t, waiting) := st in
  if bool_decide (calculate_tx_id tx ∈ selected_ids t) then st
  else if parent_still_unselected (selected_ids t) tx then (t, waiting ++ [tx])
  else
    match try_add_to_block true tx t with
    | (Added, t') => take_ready_dependents waiting t'
    | (Skip, t') =>
        match paying_package tx waiting (selected_ids t') with
        | None => (t', waiting)
        | Some (parents, child) =>
            if package_fits (parents ++ [child]) t' then
              let '(ok, t'') := add_paying_package parents child t' in
              if ok then take_ready_dependents waiting t'' else (t'', waiting)
            else (t', waiting)
        end
    | (Full, t') => (t', waiting)
    end.
(** A transaction that still waits at the end, with all it needs. *)
Definition offer_waiting (t : Template) (child : Tx) : Template :=
  if bool_decide (calculate_tx_id child ∈ selected_ids t) then t
  else
    match unselected_ancestors (selected_ids t) child with
    | None | Some [] => t
    | Some parents => if package_pays parents child then (add_paying_package parents child t).2 else t
    end.

Definition empty_template : Template :=
  mkTemplate [] ∅ (if TEMPLATE_RESERVE_BYTES <? max_block_size sel then TEMPLATE_RESERVE_BYTES else 0)
    (Z.min TEMPLATE_RESERVE_WEIGHT (max_block_weight sel)) 0.
Definition select_transactions : list Tx :=
  let '(t, waiting) := foldl offer (empty_template, []) (prioritized mp utxos) in
  selected (foldl offer_waiting t waiting).
End Select.

(** The pool as a provider: [get_mempool_size] is the number of its
    transactions, and asking for all of them in fee order refreshes the ranking. *)
Definition mempool_provider `{U256Ops, Consensus, TxOps} (cfg : option MempoolPolicyConfig) (hash : coin_map → Z) (s : Mempool)
    : MempoolProvider :=
  mkProvider (txs s) (tx_witnesses (pool s)) (λ utxos, (get_prioritized_transactions cfg hash (size (txs s)) utxos s).2).
