(* ===== verification/MinerProps.v ===== *)
(** * MinerProps: block templates are valid, fit and pay

    A template of [TransactionSelector::select_transactions] is a sequence of
    groups, each a list of ancestors and a transaction that pays for them.  From
    this: parents come first and nothing is spent twice, the size, weight and
    signature-operation limits hold, and the fees reach the floor.  A
    transaction that fits and pays can still be left out. *)

From S2P Require Import Prelude Bytes Interfaces UtxoSnapshot TxPolicy Mempool MempoolInv MempoolEvict MempoolProps Miner.
Open Scope Z_scope.

(** ** Templates as sequences of paid groups *)

(** What the selector relies on: the pool is keyed by transaction id, hands out
    its own transactions, and has no two spends of one output. *)
Record provider_ok `{TxOps} (mp : MempoolProvider) : Prop := {
  pooled_key : ∀ h tx, pooled mp !! h = Some tx → calculate_tx_id tx = h;
  prioritized_pooled : ∀ utxos tx, tx ∈ prioritized mp utxos → pooled mp !! calculate_tx_id tx = Some tx;
  pooled_nodup : ∀ h tx, pooled mp !! h = Some tx → NoDup (tx_inputs tx);
  pooled_disjoint : ∀ h1 h2 tx1 tx2 o, pooled mp !! h1 = Some tx1 → pooled mp !! h2 = Some tx2 →
    o ∈ tx_inputs tx1 → o ∈ tx_inputs tx2 → h1 = h2;
}.

Section Built.
Context {U : U256Ops} {K : Consensus} {T : TxOps} {MO : MiningOps}.
Context (sel : TransactionSelector) (mp : MempoolProvider) (utxos : coin_map).

Definition member (tx : Tx) : Prop := pooled mp !! calculate_tx_id tx = Some tx.

Definition ids_of (l : list Tx) : gset bytes := list_to_set (calculate_tx_id <$> l).
(** Every input of [tx] is a coin, spends nothing pooled, or spends one of [ids]. *)
Definition ready (ids : gset bytes) (tx : Tx) : Prop :=
  Forall (λ o, is_Some (utxos !! o) ∨ pooled mp !! op_hash o = None ∨ op_hash o ∈ ids) (tx_inputs tx).

Lemma ids_snoc l tx : ids_of (l ++ [tx]) = ids_of l ∪ {[calculate_tx_id tx]}.
Proof. unfold ids_of. rewrite fmap_app, list_to_set_app_L. cbn. set_solver. Qed.
Lemma ids_app l k : ids_of (l ++ k) = ids_of l ∪ ids_of k.
Proof. unfold ids_of. by rewrite fmap_app, list_to_set_app_L. Qed.
Lemma ids_elem l h : h ∈ ids_of l ↔ ∃ tx, tx ∈ l ∧ calculate_tx_id tx = h.
Proof. unfold ids_of. rewrite elem_of_list_to_set, list_elem_of_fmap. naive_solver. Qed.

Lemma ready_spec ids tx : parent_still_unselected mp utxos ids tx = false ↔ ready ids tx.
Proof.
  unfold parent_still_unselected, ready. induction (tx_inputs tx) as [|o l IH]; [done|]. cbn [existsb].
  rewrite orb_false_iff, IH, Forall_cons, !andb_false_iff, !bool_decide_eq_false.
  rewrite <-eq_None_not_Some. apply and_iff_compat_r. rewrite not_eq_None_Some.
  destruct (decide (op_hash o ∈ ids)); tauto.
Qed.
Lemma ready_mono ids ids' tx : ids ⊆ ids' → ready ids tx → ready ids' tx.
Proof. intros Hs Hr. eapply Forall_impl; [exact Hr|]. cbn. set_solver. Qed.

(** A duplicate-free sequence of pooled transactions, parents first. *)
Inductive chosen : list Tx → Prop :=
| chosen_nil : chosen []
| chosen_snoc l tx : chosen l → member tx → calculate_tx_id tx ∉ ids_of l → ready (ids_of l) tx → chosen (l ++ [tx]).

Lemma chosen_inv l tx : chosen (l ++ [tx]) →
  chosen l ∧ member tx ∧ (calculate_tx_id tx ∉ ids_of l) ∧ ready (ids_of l) tx.
Proof. inversion 1 as [H0|k t ? ? ? ? Heq]; [by destruct l|]. by apply app_inj_tail in Heq as [-> ->]. Qed.
Lemma chosen_app_l l k : chosen (l ++ k) → chosen l.
Proof.
  induction k as [|tx k IH] using rev_ind; [by rewrite app_nil_r|]. rewrite (assoc_L (++)).
  intros [H _]%chosen_inv. by apply IH.
Qed.
Lemma chosen_split l tx k : chosen (l ++ tx :: k) → member tx ∧ (calculate_tx_id tx ∉ ids_of l) ∧ ready (ids_of l) tx.
Proof. rewrite cons_middle, (assoc_L (++)). by intros (_ & ? & ? & ?)%chosen_app_l%chosen_inv. Qed.
Lemma chosen_member l : chosen l → Forall member l.
Proof. induction 1; [done|]. by apply Forall_app_2; [|apply Forall_singleton]. Qed.

(** ** The walk over the ancestors *)

Context (Hmp : provider_ok mp).

Record walk_ok (s : list Tx) (w : Walk) : Prop := {
  wk_chosen : chosen (s ++ ordered w);
  wk_done : done_ids w = ids_of (ordered w);
  wk_apart : visiting w ## done_ids w;
}.
(** The input needs no transaction beyond the chosen ones and [ids]. *)
Definition settled (s : list Tx) (ids : gset bytes) (o : OutPoint) : Prop :=
  is_Some (utxos !! o) ∨ op_hash o ∈ ids_of s ∨ op_hash o ∈ ids.
(** The input does not spend a transaction on the path of the walk. *)
Definition off_path (s : list Tx) (path : gset bytes) (o : OutPoint) : Prop :=
  is_Some (utxos !! o) ∨ op_hash o ∈ ids_of s ∨ op_hash o ∉ path.

(** [x] spends an unconfirmed output of [y]; the transactions [x] depends on. *)
Definition spends (x y : Tx) : Prop := ∃ o, o ∈ tx_inputs x ∧ utxos !! o = None ∧ op_hash o = calculate_tx_id y.
Definition ancestor (child x : Tx) : Prop := tc spends child x.

(** What a walk over the inputs [ins] of [tx] adds. *)
Record walked (s : list Tx) (ins : list OutPoint) (tx : Tx) (w w' : Walk) : Prop := {
  wd_ok : walk_ok s w';
  wd_visiting : visiting w' = visiting w;
  wd_done : done_ids w ⊆ done_ids w';
  wd_settled : Forall (settled s (done_ids w')) ins;
  wd_new : ∃ new, ordered w' = ordered w ++ new ∧ (tx ∉ new) ∧ Forall (ancestor tx) new ∧
             Forall (λ x, Forall (off_path s (visiting w)) (tx_inputs x)) new;
}.

Lemma settled_mono s ids ids' o : ids ⊆ ids' → settled s ids o → settled s ids' o.
Proof. unfold settled. set_solver. Qed.
Lemma settled_off_path s ids path o : path ## ids → settled s ids o → off_path s path o.
Proof. unfold settled, off_path. set_solver. Qed.
Lemma off_path_mono s path path' o : path' ⊆ path → off_path s path o → off_path s path' o.
Proof. unfold off_path. set_solver. Qed.
Lemma settled_ready s l tx : Forall (settled s (ids_of l)) (tx_inputs tx) → ready (ids_of (s ++ l)) tx.
Proof. intros H. eapply Forall_impl; [exact H|]. unfold settled. rewrite ids_app. set_solver. Qed.

(** The step of the loop for one parent. *)
Lemma walk_parent s tx o parent w w2 :
  walk_ok s w → o ∈ tx_inputs tx → utxos !! o = None → op_hash o ∉ ids_of s → op_hash o ∉ done_ids w →
  op_hash o ∉ visiting w → pooled mp !! op_hash o = Some parent →
  walked s (tx_inputs parent) parent (mkWalk ({[op_hash o]} ∪ visiting w) (done_ids w) (ordered w)) w2 →
  walked s [o] tx w (mkWalk (visiting w2 ∖ {[op_hash o]}) ({[op_hash o]} ∪ done_ids w2) (ordered w2 ++ [parent])).
Proof.
  intros Hw Ho Hu Hs Hd Hv Hp [[Hc Hdone Hap] Hvis Hsub Hset (new & Hord & Hpn & Hanc & Hnew)]. cbn [visiting done_ids ordered] in *.
  pose proof (pooled_key _ Hmp _ _ Hp) as Hid. set (h := op_hash o) in *.
  assert (h ∉ done_ids w2) as Hh by set_solver.
  assert (¬ off_path s ({[h]} ∪ visiting w) o) as Hon.
  { unfold off_path. fold h. rewrite Hu. intros [[? ?]|[?|?]]; [done|done|set_solver]. }
  assert (Forall (off_path s ({[h]} ∪ visiting w)) (tx_inputs parent)) as Hpo.
  { eapply Forall_impl; [exact Hset|]. intros o'. apply settled_off_path. by rewrite <-Hvis. }
  split; cbn [visiting done_ids ordered].
  - split; cbn [visiting done_ids ordered].
    + rewrite (assoc_L (++)). apply chosen_snoc; [done|unfold member; by rewrite Hid| |].
      * rewrite Hid, ids_app, <-Hdone. set_solver.
      * apply settled_ready. by rewrite <-Hdone.
    + rewrite ids_snoc, Hid, <-Hdone. set_solver.
    + set_solver.
  - rewrite Hvis. set_solver.
  - set_solver.
  - apply Forall_singleton. right; right. fold h. set_solver.
  - exists (new ++ [parent]). rewrite Hord, (assoc_L (++)). split_and!; [done| | |].
    + rewrite elem_of_app, list_elem_of_singleton. rewrite Forall_forall in Hnew. rewrite Forall_forall in Hpo. intros [Hin| ->].
      * specialize (Hnew _ Hin). rewrite Forall_forall in Hnew. by apply Hon, Hnew.
      * by apply Hon, Hpo.
    + assert (spends tx parent) as Hsp by (exists o; by rewrite Hid).
      apply Forall_app; split; [|apply Forall_singleton; by apply tc_once].
      eapply Forall_impl; [exact Hanc|]. intros x Hx. by eapply tc_l.
    + apply Forall_app; split; [|apply Forall_singleton].
      * eapply Forall_impl; [exact Hnew|]. intros x Hx. eapply Forall_impl; [exact Hx|]. intros o'. apply off_path_mono. set_solver.
      * eapply Forall_impl; [exact Hpo|]. intros o'. apply off_path_mono. set_solver.
Qed.

Lemma walked_trans s o ins tx w w1 w2 :
  walked s [o] tx w w1 → walked s ins tx w1 w2 → walked s (o :: ins) tx w w2.
Proof.
  intros [_ Hv1 Hd1 [Hs1 _]%Forall_cons (n1 & Ho1 & Ht1 & Ha1 & Hn1)] [Hok Hv2 Hd2 Hs2 (n2 & Ho2 & Ht2 & Ha2 & Hn2)]. split; [done|congruence|set_solver| |].
  - apply Forall_cons. split; [by eapply settled_mono|done].
  - exists (n1 ++ n2). rewrite Ho2, Ho1, (assoc_L (++)). split_and!; [done|by rewrite elem_of_app; intros []|by apply Forall_app|].
    apply Forall_app. by rewrite Hv1 in Hn2.
Qed.
Lemma walked_skip s o tx w : walk_ok s w → settled s (done_ids w) o → walked s [o] tx w w.
Proof. intros Hw Ho. split; [done..| |]; [by apply Forall_singleton|]. exists []. rewrite app_nil_r. by split_and!; [|apply not_elem_of_nil|constructor|]. Qed.

Lemma walk_inputs_spec s rec tx ins w w' :
  (∀ p w1 w2, walk_ok s w1 → rec p w1 = Some w2 → walked s (tx_inputs p) p w1 w2) →
  ins ⊆ tx_inputs tx → walk_ok s w →
  walk_inputs mp utxos rec (ids_of s) ins w = Some w' → walked s ins tx w w'.
Proof.
  intros Hrec. revert w. induction ins as [|o ins IH]; intros w Hsub Hw; cbn [walk_inputs].
  { intros [= <-]. split; [done..|constructor|]. exists []. rewrite app_nil_r. by split_and!; [|apply not_elem_of_nil|constructor|]. }
  assert (o ∈ tx_inputs tx ∧ ins ⊆ tx_inputs tx) as [Ho Hsub'] by set_solver.
  destruct (_ || _ || _) eqn:Eskip.
  { intros Hrun. eapply walked_trans; [|by apply IH]. apply walked_skip; [done|].
    rewrite !orb_true_iff, !bool_decide_eq_true in Eskip. unfold settled. tauto. }
  rewrite !orb_false_iff, !bool_decide_eq_false, <-eq_None_not_Some in Eskip. destruct Eskip as [[Hu Hs] Hd].
  case_bool_decide as Hv; [done|]. destruct (pooled mp !! op_hash o) as [parent|] eqn:Ep; [|done].
  case_bool_decide; [done|]. intros (w2 & Hw2 & Hrun)%bind_Some.
  apply Hrec in Hw2; [|destruct Hw as [? ? ?]; split; cbn [visiting done_ids ordered] in *; set_solver].
  pose proof (walk_parent s tx o parent w w2 Hw Ho Hu Hs Hd Hv Ep Hw2) as Hstep.
  eapply walked_trans; [exact Hstep|]. apply IH; [done|apply Hstep|done].
Qed.
Lemma walk_spec s fuel tx w w' :
  walk_ok s w → walk mp utxos fuel (ids_of s) tx w = Some w' → walked s (tx_inputs tx) tx w w'.
Proof.
  revert tx w w'. induction fuel as [|fuel IH]; intros tx w w' Hw Hrun; [done|]. cbn [walk] in Hrun.
  eapply walk_inputs_spec; [|done|exact Hw|exact Hrun]. intros p w1 w2. apply IH.
Qed.

(** The ancestors a package takes: pooled, not chosen yet, parents first, and
    all the package needs. *)
Lemma unselected_ancestors_spec s tx parents :
  chosen s → unselected_ancestors mp utxos (ids_of s) tx = Some parents →
  chosen (s ++ parents) ∧ (tx ∉ parents) ∧ Forall (ancestor tx) parents ∧ Forall (settled s (ids_of parents)) (tx_inputs tx).
Proof.
  intros Hs (w & Hw & ->)%fmap_Some. apply walk_spec in Hw.
  - destruct Hw as [[Hc Hd _] _ _ Hset (new & Ho & Ht & Ha & _)]. cbn in Ho. subst new. by rewrite Hd in Hset.
  - split; cbn; [by rewrite app_nil_r|done|set_solver].
Qed.

(** ** Groups *)

(** Adding a list of transactions one by one, each within the limits. *)
Inductive adds : Template → list Tx → Template → Prop :=
| adds_nil t : adds t [] t
| adds_cons t tx t1 l t2 :
    try_add_to_block sel mp utxos false tx t = (Added, t1) → adds t1 l t2 → adds t (tx :: l) t2.

(** Templates grow by groups: ancestors and a transaction that pays for all. *)
Inductive built : Template → Prop :=
| built_empty : built (empty_template sel)
| built_group t parents child t' :
    built t → chosen (selected t ++ parents ++ [child]) → Forall (ancestor child) parents → package_pays sel mp utxos parents child = true →
    adds t (parents ++ [child]) t' → built t'.

Lemma try_add_false tx t r t' :
  try_add_to_block sel mp utxos false tx t = (r, t') →
  r = Added ∧ selected t' = selected t ++ [tx] ∧ selected_ids t' = {[calculate_tx_id tx]} ∪ selected_ids t ∨ r ≠ Added ∧ t' = t.
Proof. unfold try_add_to_block. destruct (_ || _); intros [= <- <-]; [by right|by left]. Qed.
Lemma try_add_true tx t r t' :
  try_add_to_block sel mp utxos true tx t = (r, t') →
  r = Added ∧ try_add_to_block sel mp utxos false tx t = (Added, t') ∧ package_pays sel mp utxos [] tx = true ∨ r ≠ Added ∧ t' = t.
Proof.
  unfold try_add_to_block, package_pays, package_fee, package_vsize. cbn [foldl andb].
  destruct (_ || _); [intros [= <- <-]; by right|]. destruct (fee_meets_block_floor _ _ _); intros [= <- <-]; [by left|by right].
Qed.

Lemma adds_selected t l t' :
  adds t l t' → selected t' = selected t ++ l ∧ selected_ids t' = ids_of l ∪ selected_ids t.
Proof.
  induction 1 as [t|t tx t1 l t2 Ht _ [IH1 IH2]]; [rewrite app_nil_r; unfold ids_of; cbn; set_solver|].
  apply try_add_false in Ht as [(_ & H1 & H2)|[? _]]; [|done]. rewrite IH1, IH2, H1, H2, <-(assoc_L (++)).
  unfold ids_of. cbn. set_solver.
Qed.
Lemma adds_app t l t1 k t2 : adds t l t1 → adds t1 k t2 → adds t (l ++ k) t2.
Proof. induction 1; [done|]. intros. cbn. econstructor; eauto. Qed.
Lemma adds_one t tx t' : try_add_to_block sel mp utxos false tx t = (Added, t') → adds t [tx] t'.
Proof. intros. econstructor; [done|constructor]. Qed.

Lemma built_chosen t : built t → chosen (selected t) ∧ selected_ids t = ids_of (selected t).
Proof.
  induction 1 as [|t parents child t' _ [_ IH] Hc _ _ [H1 H2]%adds_selected]; [by split; [constructor|]|].
  rewrite H1, H2, IH, ids_app. split; [done|set_solver].
Qed.

(** What [add_parents] adds is an initial part of the parents. *)
Lemma add_parents_spec parents t added b t' added' :
  selected_ids t = ids_of (selected t) → chosen (selected t ++ parents) →
  add_parents sel mp utxos parents t added = (b, t', added') →
  ∃ l k, parents = l ++ k ∧ adds t l t' ∧ added' = added ++ (calculate_tx_id <$> l) ∧ (b = true → k = []).
Proof.
  revert t added. induction parents as [|p parents IH]; intros t added Hids Hc; cbn [add_parents].
  { intros [= <- <- <-]. exists [], []. cbn. rewrite app_nil_r. split_and!; [done|constructor|done|done]. }
  destruct (chosen_split _ _ _ Hc) as (_ & Hnew & _). rewrite bool_decide_eq_false_2 by by rewrite Hids.
  destruct (try_add_to_block _ _ _ _ _ _) as [r t1] eqn:Et.
  destruct (try_add_false _ _ _ _ Et) as [(-> & H1 & H2)|[Hr ->]].
  - intros Hrun. apply IH in Hrun as (l & k & -> & Ha & -> & Hb).
    + exists (p :: l), k. split_and!; [done|by econstructor|by rewrite fmap_cons, <-(assoc_L (++))|done].
    + by rewrite H1, H2, Hids, ids_snoc, (comm_L (∪)).
    + by rewrite H1, <-(assoc_L (++)).
  - intros Hrun. assert ((b, t', added') = (false, t, added)) as [= -> -> ->] by (by destruct r).
    exists [], (p :: parents). cbn. rewrite app_nil_r. split_and!; [done|constructor|done|done].
Qed.

Lemma rolled_back t l t' :
  selected_ids t = ids_of (selected t) → ids_of l ## ids_of (selected t) → adds t l t' →
  mkTemplate (take (length (selected t)) (selected t')) (selected_ids t' ∖ ids_of l)
    (current_size t) (current_weight t) (current_sigops t) = t.
Proof.
  intros Hids Hd [-> ->]%adds_selected. rewrite take_app_length. destruct t as [s i a b c]. cbn in *. f_equal. set_solver.
Qed.
Lemma chosen_fresh s l : chosen (s ++ l) → ids_of l ## ids_of s.
Proof.
  induction l as [|tx l IH] using rev_ind; [by unfold ids_of; set_solver|]. rewrite (assoc_L (++)).
  intros (Hc & _ & Hn & _)%chosen_inv. rewrite ids_snoc. rewrite ids_app in Hn. specialize (IH Hc). set_solver.
Qed.

(** A package is added whole or not at all. *)
Lemma add_paying_package_spec parents child t ok t' :
  selected_ids t = ids_of (selected t) → chosen (selected t ++ parents ++ [child]) →
  add_paying_package sel mp utxos parents child t = (ok, t') →
  ok = true ∧ adds t (parents ++ [child]) t' ∨ ok = false ∧ t' = t.
Proof.
  intros Hids Hc. unfold add_paying_package. destruct (add_parents _ _ _ _ _ _) as [[b t1] added] eqn:Ea.
  pose proof Hc as Hp. rewrite (assoc_L (++)) in Hp. destruct (chosen_inv _ _ Hp) as (Hcp & _ & Hn & _).
  destruct (add_parents_spec _ _ _ _ _ _ Hids Hcp Ea) as (l & k & -> & Hadd & -> & Hb). cbn [app].
  assert (ids_of l ## ids_of (selected t)) as Hfresh.
  { apply chosen_fresh. rewrite (assoc_L (++)) in Hcp. by apply chosen_app_l in Hcp. }
  pose proof (rolled_back _ _ _ Hids Hfresh Hadd) as Hback. fold (ids_of l).
  destruct b; cbn [negb]; [|intros [= <- <-]; by right].
  rewrite (Hb eq_refl), app_nil_r in *. destruct (adds_selected _ _ _ Hadd) as [Hs Hi].
  rewrite bool_decide_eq_false_2 by (rewrite Hi, Hids; rewrite ids_app in Hn; set_solver).
  destruct (try_add_to_block _ _ _ _ _ _) as [r t2] eqn:Et. destruct (try_add_false _ _ _ _ Et) as [(-> & _)|[Hr ->]].
  - intros [= <- <-]. left. split; [done|]. eapply adds_app; [done|]. by apply adds_one.
  - destruct r; [done|..]; intros [= <- <-]; right; by split.
Qed.

(** ** The loops *)

Lemma built_one tx t t' :
  built t → member tx → (calculate_tx_id tx ∉ selected_ids t) → parent_still_unselected mp utxos (selected_ids t) tx = false →
  try_add_to_block sel mp utxos true tx t = (Added, t') → built t'.
Proof.
  intros Hb Hm Hn Hr Ht. apply try_add_true in Ht as [(_ & Ht & Hp)|[? _]]; [|done].
  destruct (built_chosen _ Hb) as [Hc Hi]. rewrite Hi in *. apply ready_spec in Hr.
  eapply (built_group t [] tx); [done|by apply chosen_snoc|constructor|done|by apply adds_one].
Qed.

Lemma ready_pass_spec waiting t t' still added :
  built t → Forall member waiting → ready_pass sel mp utxos waiting t = (t', still, added) →
  built t' ∧ Forall member still ∧ (length still + (if added then 1 else 0) ≤ length waiting)%nat.
Proof.
  revert t t' still added. induction waiting as [|tx waiting IH]; intros t t' still added Hb; cbn [ready_pass].
  { intros _ [= <- <- <-]. by split_and!; [|constructor|cbn; lia]. }
  intros [Hm Hw]%Forall_cons. cbn [length]. case_bool_decide as Hin.
  { intros (? & ? & ?)%IH; [|done|done]. split_and!; [done|done|lia]. }
  destruct (parent_still_unselected _ _ _ _) eqn:Er.
  - destruct (ready_pass _ _ _ waiting t) as [[t1 st] ad] eqn:E. intros [= <- <- <-].
    apply IH in E as (? & ? & ?); [|done|done]. cbn [length]. split_and!; [done|by constructor|lia].
  - destruct (try_add_to_block _ _ _ _ _ _) as [r t1] eqn:Et.
    assert (built t1) as Hb1.
    { destruct r; [by eapply built_one|..]; apply try_add_true in Et as [[? _]|[_ ->]]; done. }
    destruct (ready_pass _ _ _ waiting t1) as [[t2 st] ad] eqn:E. intros [= <- <- <-].
    apply IH in E as (? & ? & ?); [|done|done]. split_and!; [done|done|]. destruct (bool_decide _), ad; cbn [orb] in *; lia.
Qed.
Lemma ready_loop_spec fuel waiting t t' still :
  built t → Forall member waiting → ready_loop sel mp utxos fuel waiting t = (t', still) → built t' ∧ Forall member still.
Proof.
  revert waiting t. induction fuel as [|fuel IH]; intros waiting t Hb Hw; cbn [ready_loop]; [by intros [= <- <-]|].
  destruct (ready_pass _ _ _ waiting t) as [[t1 st] ad] eqn:E. apply ready_pass_spec in E as (? & ? & _); [|done|done].
  destruct ad; [by apply IH|by intros [= <- <-]].
Qed.

Lemma paying_package_spec anchor waiting s parents child :
  chosen s → Forall member waiting → paying_package sel mp utxos anchor waiting (ids_of s) = Some (parents, child) →
  member child ∧ unselected_ancestors mp utxos (ids_of s) child = Some parents ∧ parents ≠ [] ∧
  package_pays sel mp utxos parents child = true.
Proof.
  intros Hs. induction 1 as [|c waiting Hc _ IH]; cbn [paying_package]; [done|]. destruct (_ || _); [done|].
  destruct (unselected_ancestors _ _ _ c) as [ps|] eqn:Eu; [|done]. destruct (_ && _) eqn:E; [|done].
  apply andb_true_iff in E as [Ha%bool_decide_eq_true Hp]. intros [= -> ->]. split_and!; [done|done| |done].
  intros ->. by apply elem_of_nil in Ha.
Qed.

(** Ancestors and the child form a sequence the template can take.  The child is
    not chosen yet: a chosen one has no ancestor left to take. *)
Lemma package_chosen s parents child :
  chosen s → member child → unselected_ancestors mp utxos (ids_of s) child = Some parents →
  (calculate_tx_id child ∉ ids_of s) → chosen (s ++ parents ++ [child]).
Proof.
  intros Hs Hm Hu Hn. destruct (unselected_ancestors_spec s child parents Hs Hu) as (Hc & Hnot & _ & Hset).
  rewrite (assoc_L (++)). apply chosen_snoc; [done|done| |by apply settled_ready].
  rewrite ids_app. intros [?|Hin]%elem_of_union; [done|]. apply ids_elem in Hin as (x & Hx & Hid).
  apply chosen_member, Forall_app in Hc as [_ Hc]. rewrite Forall_forall in Hc. specialize (Hc x Hx).
  unfold member in Hm, Hc. rewrite Hid in Hc. naive_solver.
Qed.
Lemma selected_child_walk fuel s ins w :
  Forall (λ o, is_Some (utxos !! o) ∨ op_hash o ∈ ids_of s ∨ pooled mp !! op_hash o = None) ins → ordered w = [] →
  ∀ w', walk_inputs mp utxos (walk mp utxos fuel (ids_of s)) (ids_of s) ins w = Some w' → ordered w' = [].
Proof.
  intros Hins. revert w. induction Hins as [|o ins Ho _ IH]; intros w Hw w'; cbn [walk_inputs]; [by intros [= <-]|].
  destruct (_ || _ || _) eqn:E; [by apply IH|]. rewrite !orb_false_iff, !bool_decide_eq_false in E.
  case_bool_decide; [done|]. destruct (pooled mp !! op_hash o) eqn:Ep; [|done]. destruct Ho as [?|[?|?]]; [tauto|tauto|done].
Qed.
Lemma selected_child_alone s child parents :
  chosen s → child ∈ s → unselected_ancestors mp utxos (ids_of s) child = Some parents → parents = [].
Proof.
  intros Hs (l & k & ->)%list_elem_of_split (w & Hw & ->)%fmap_Some. apply chosen_split in Hs as (_ & _ & Hr).
  eapply selected_child_walk; [| |exact Hw]; [|done]. eapply Forall_impl; [exact Hr|]. cbn. rewrite ids_app. set_solver.
Qed.

Lemma take_package t parents child ok t' :
  built t → member child → unselected_ancestors mp utxos (selected_ids t) child = Some parents →
  parents ≠ [] → package_pays sel mp utxos parents child = true →
  add_paying_package sel mp utxos parents child t = (ok, t') → built t'.
Proof.
  intros Hb Hm Hu Hne Hp Hadd. destruct (built_chosen _ Hb) as [Hc Hi]. rewrite Hi in Hu.
  assert (calculate_tx_id child ∉ ids_of (selected t)) as Hn.
  { intros (x & Hx & Hid)%ids_elem. apply Hne. eapply selected_child_alone; [exact Hc| |exact Hu].
    pose proof (chosen_member _ Hc) as Hall. rewrite Forall_forall in Hall. specialize (Hall x Hx).
    unfold member in Hm, Hall. rewrite Hid in Hall. naive_solver. }
  pose proof (package_chosen _ _ _ Hc Hm Hu Hn) as Hcp.
  destruct (unselected_ancestors_spec _ _ _ Hc Hu) as (_ & _ & Hanc & _).
  apply add_paying_package_spec in Hadd as [[_ Ha]|[_ ->]]; [by eapply built_group|done|done|done].
Qed.

Lemma offer_spec t waiting tx t' waiting' :
  built t → Forall member waiting → member tx → offer sel mp utxos (t, waiting) tx = (t', waiting') →
  built t' ∧ Forall member waiting'.
Proof.
  intros Hb Hw Hm. unfold offer. case_bool_decide as Hin; [by intros [= <- <-]|].
  destruct (parent_still_unselected _ _ _ _) eqn:Er.
  { intros [= <- <-]. split; [done|]. by apply Forall_app_2; [|apply Forall_singleton]. }
  destruct (try_add_to_block _ _ _ _ _ _) as [r t1] eqn:Et. destruct r.
  - apply ready_loop_spec; [by eapply built_one|done].
  - apply try_add_true in Et as [[? _]|[_ ->]]; [done|]. destruct (built_chosen _ Hb) as [Hc Hi].
    destruct (paying_package _ _ _ _ _ _) as [[parents child]|] eqn:Ep; [|by intros [= <- <-]].
    rewrite Hi in Ep. apply paying_package_spec in Ep as (Hmc & Hu & Hne & Hp); [|done|done].
    destruct (package_fits _ _ _ _ _); [|by intros [= <- <-]]. destruct (add_paying_package _ _ _ _ _ _) as [ok t2] eqn:Ea.
    rewrite <-Hi in Hu. pose proof (take_package _ _ _ _ _ Hb Hmc Hu Hne Hp Ea).
    destruct ok; [by apply ready_loop_spec|by intros [= <- <-]].
  - apply try_add_true in Et as [[? _]|[_ ->]]; [done|]. by intros [= <- <-].
Qed.
Lemma offer_waiting_spec t child : built t → member child → built (offer_waiting sel mp utxos t child).
Proof.
  intros Hb Hm. unfold offer_waiting. case_bool_decide; [done|].
  destruct (unselected_ancestors _ _ _ _) as [[|p ps]|] eqn:Eu; [done| |done].
  destruct (package_pays _ _ _ _ _) eqn:Ep; [|done]. destruct (add_paying_package _ _ _ _ _ _) as [ok t'] eqn:Ea. cbn [snd].
  by eapply take_package.
Qed.

(** Every template is a sequence of paid groups. *)
Lemma select_built : ∃ t, built t ∧ select_transactions sel mp utxos = selected t.
Proof.
  unfold select_transactions. destruct (foldl _ _ _) as [t waiting] eqn:E. eexists. split; [|done].
  assert (built t ∧ Forall member waiting) as [Hb Hw].
  { assert (Forall member (prioritized mp utxos)) as Hall by (apply Forall_forall; apply (prioritized_pooled _ Hmp)).
    assert (built (empty_template sel)) as Hb by constructor. assert (Forall member []) as Hw by constructor.
    revert E Hb Hw. generalize (empty_template sel), (@nil Tx). induction Hall as [|tx l Hm _ IH]; cbn [foldl].
    - by intros t0 w0 [= <- <-].
    - intros t0 w0 E Hb Hw. destruct (offer _ _ _ (t0, w0) tx) as [t1 w1] eqn:Eo.
      apply offer_spec in Eo as [? ?]; [|done..]. by apply (IH t1 w1). }
  clear E. revert t Hb. induction Hw as [|c l Hc _ IH]; intros t Hb; [done|]. cbn [foldl]. apply IH. by apply offer_waiting_spec.
Qed.

(** ** Enough fuel *)

Definition unvisited (w : Walk) : nat := size (dom (pooled mp) ∖ visiting w).

Lemma unvisited_step w h : h ∈ dom (pooled mp) → h ∉ visiting w →
  (unvisited (mkWalk ({[h]} ∪ visiting w) (done_ids w) (ordered w)) < unvisited w)%nat.
Proof. intros Hd Hv. unfold unvisited. cbn [visiting]. apply subset_size. set_solver. Qed.

Lemma walk_inputs_fuel s tx ins w n m :
  (∀ p w1, walk_ok s w1 → (unvisited w1 < unvisited w)%nat →
     walk mp utxos n (ids_of s) p w1 = walk mp utxos m (ids_of s) p w1) →
  ins ⊆ tx_inputs tx → walk_ok s w →
  walk_inputs mp utxos (walk mp utxos n (ids_of s)) (ids_of s) ins w
  = walk_inputs mp utxos (walk mp utxos m (ids_of s)) (ids_of s) ins w.
Proof.
  revert w. induction ins as [|o ins IH]; intros w Hrec Hsub Hw; cbn [walk_inputs]; [done|].
  assert (o ∈ tx_inputs tx ∧ ins ⊆ tx_inputs tx) as [Ho Hsub'] by set_solver.
  destruct (_ || _ || _) eqn:Eskip; [by apply IH|].
  rewrite !orb_false_iff, !bool_decide_eq_false, <-eq_None_not_Some in Eskip. destruct Eskip as [[Hu Hs] Hd].
  case_bool_decide as Hv; [done|]. destruct (pooled mp !! op_hash o) as [parent|] eqn:Ep; [|done].
  case_bool_decide; [done|]. set (w1 := mkWalk _ _ _).
  assert (walk_ok s w1) as Hw1 by (destruct Hw as [? ? ?]; split; unfold w1; cbn [visiting done_ids ordered] in *; set_solver).
  assert (unvisited w1 < unvisited w)%nat by (apply unvisited_step; [by apply elem_of_dom_2 in Ep|done]).
  rewrite Hrec by done. destruct (walk mp utxos m (ids_of s) parent w1) as [w2|] eqn:E; [|done]. cbn [mbind option_bind].
  apply walk_spec in E; [|done]. pose proof (walk_parent s tx o parent w w2 Hw Ho Hu Hs Hd Hv Ep E) as Hstep.
  apply IH; [|done|apply Hstep]. intros p w3 Hw3. pose proof (wd_visiting _ _ _ _ _ Hstep) as Hvis.
  unfold unvisited at 2. rewrite Hvis. by apply Hrec.
Qed.
(** The walk goes down one pooled transaction it does not visit yet per level:
    beyond the size of the pool, more fuel changes nothing. *)
Lemma walk_fuel s n m tx w :
  walk_ok s w → (unvisited w < n)%nat → (unvisited w < m)%nat → walk mp utxos n (ids_of s) tx w = walk mp utxos m (ids_of s) tx w.
Proof.
  revert m tx w. induction n as [|n IH]; intros m tx w Hw Hn Hm; [lia|]. destruct m as [|m]; [lia|]. cbn [walk].
  eapply walk_inputs_fuel; [|done|done]. intros p w1 Hw1 Hlt. apply IH; [done|lia..].
Qed.
Lemma unselected_ancestors_fuel s n tx :
  chosen s → (size (pooled mp) < n)%nat →
  unselected_ancestors mp utxos (ids_of s) tx = ordered <$> walk mp utxos n (ids_of s) tx (mkWalk ∅ ∅ []).
Proof.
  intros Hs Hn. unfold unselected_ancestors. f_equal. apply walk_fuel.
  - split; cbn; [by rewrite app_nil_r|done|set_solver].
  - unfold unvisited. cbn. rewrite difference_empty_L, size_dom. lia.
  - unfold unvisited. cbn. rewrite difference_empty_L, size_dom. lia.
Qed.
Lemma ready_loop_fuel n m waiting t :
  built t → Forall member waiting → (length waiting < n)%nat → (length waiting < m)%nat →
  ready_loop sel mp utxos n waiting t = ready_loop sel mp utxos m waiting t.
Proof.
  revert m waiting t. induction n as [|n IH]; intros m waiting t Hb Hw Hn Hm; [lia|]. destruct m as [|m]; [lia|]. cbn [ready_loop].
  destruct (ready_pass _ _ _ waiting t) as [[t1 st] ad] eqn:E. apply ready_pass_spec in E as (? & ? & ?); [|done|done].
  destruct ad; [|done]. apply IH; [done|done|lia..].
Qed.

(** ** Limits *)

(** The signature operations of [l] in a block where [before] comes first. *)
Fixpoint sigops_of (before l : list Tx) : Z :=
  match l with
  | [] => 0
  | tx :: rest => tx_sigop_cost mp utxos tx before + sigops_of (before ++ [tx]) rest
  end.
Lemma sigops_app before l k : sigops_of before (l ++ k) = sigops_of before l + sigops_of (before ++ l) k.
Proof.
  revert before. induction l as [|tx l IH]; intros before; cbn [sigops_of app]; [by rewrite app_nil_r|].
  rewrite IH, <-(assoc_L (++)). cbn [app]. lia.
Qed.

(** Sizes and weights of pooled transactions are known and far from the width. *)
Definition measured : Prop :=
  ∀ h tx, pooled mp !! h = Some tx →
    0 ≤ calculate_transaction_size tx < 2 ^ 63 ∧
    (∃ w, weight_from_stacks tx (pooled_witnesses mp !! calculate_tx_id tx) = Some w ∧ 0 ≤ w < 2 ^ 63).
Definition sizes_of (l : list Tx) : Z := sum_z (calculate_transaction_size <$> l).
Definition weights_of (l : list Tx) : Z := sum_z (bip141_weight mp <$> l).

Record counted (t : Template) : Prop := {
  ct_size : current_size t = current_size (empty_template sel) + sizes_of (selected t) ∧ 0 ≤ current_size t ≤ max_block_size sel;
  ct_weight : current_weight t = current_weight (empty_template sel) + weights_of (selected t) ∧ 0 ≤ current_weight t ≤ max_block_weight sel;
  ct_sigops : current_sigops t = sigops_of [] (selected t) ∧ current_sigops t ≤ MAX_BLOCK_SIGOPS_COST;
}.


Lemma try_add_counted tx t t' :
  measured → 0 ≤ max_block_size sel ≤ 2 ^ 63 → 0 ≤ max_block_weight sel ≤ 2 ^ 63 → MAX_BLOCK_SIGOPS_COST < u64_max →
  member tx → counted t → try_add_to_block sel mp utxos false tx t = (Added, t') → counted t'.
Proof.
  intros Hms Hs Hw Hso Hm [[Hz Hz'] [Hwt Hwt'] [Hsg Hsg']]. unfold try_add_to_block.
  destruct (Hms _ _ Hm) as (Hsz & w & Ew & Hwr). assert (bip141_weight mp tx = w) as Hbw by (unfold bip141_weight; by rewrite Ew).
  rewrite Hbw, !as_u64_small by (unfold is_u64; lia).
  destruct (_ || _) eqn:E; cbn [andb]; intros [= <-]. rewrite !orb_false_iff, !Z.ltb_ge in E. destruct E as [[E1 E2] E3].
  split; cbn [current_size current_weight current_sigops selected].
  - unfold sizes_of in *. rewrite sum_z_snoc. lia.
  - unfold weights_of in *. rewrite sum_z_snoc, Hbw. lia.
  - rewrite sigops_app. cbn [sigops_of app]. unfold sat_add in *. lia.
Qed.
Lemma built_counted t :
  measured → 0 ≤ max_block_size sel ≤ 2 ^ 63 → 0 ≤ max_block_weight sel ≤ 2 ^ 63 → 0 ≤ MAX_BLOCK_SIGOPS_COST < u64_max →
  built t → counted t.
Proof.
  intros Hms Hs Hw Hso. induction 1 as [|t parents child t' _ IH Hc _ _ Hadd].
  - split; cbn [empty_template selected current_size current_weight current_sigops sigops_of]; (split; [cbn; lia|]).
    + destruct (Z.ltb_spec 1000 (max_block_size sel)); lia.
    + lia.
    + lia.
  - apply chosen_member, Forall_app in Hc as [_ Hc]. clear - IH Hc Hadd Hms Hs Hw Hso.
    induction Hadd as [|t tx t1 l t2 Ht _ IHa]; [done|]. apply Forall_cons in Hc as [Htx Hc].
    apply IHa; [done|]. eapply try_add_counted; try done; lia.
Qed.

(** ** Fees *)


Lemma fee_range tx : 0 ≤ transaction_fee mp utxos tx.
Proof. unfold transaction_fee. destruct (input_total _ _ _ _); [|done]. destruct (output_sum_sats tx); [|done]. unfold sat_sub. lia. Qed.
Lemma chosen_nodup l : chosen l → NoDup (calculate_tx_id <$> l).
Proof.
  induction 1 as [|l tx _ IH _ Hn _]; [apply NoDup_nil_2|]. rewrite fmap_app. apply NoDup_app. split_and!; [done| |apply NoDup_singleton].
  intros x Hx ->%list_elem_of_singleton. apply Hn. unfold ids_of. by rewrite elem_of_list_to_set.
Qed.
Lemma chosen_no_double_spend l : chosen l → NoDup (l ≫= tx_inputs).
Proof.
  induction 1 as [|l tx Hl IH Hm Hn _]; [apply NoDup_nil_2|]. rewrite bind_app. cbn. rewrite app_nil_r. apply NoDup_app.
  split_and!; [done| |by eapply (pooled_nodup _ Hmp)]. intros o (x & Ho & Hx)%list_elem_of_bind Ho'. apply Hn, ids_elem. exists x. split; [done|].
  apply chosen_member in Hl. rewrite Forall_forall in Hl. exact (pooled_disjoint _ Hmp _ _ _ _ _ (Hl x Hx) Hm Ho Ho').
Qed.
End Built.

(** ** Templates from the pool *)

Section PoolTemplates.
Context {U : U256Ops} {K : Consensus} {T : TxOps} {MO : MiningOps}.
Context (sel : TransactionSelector) (cfg : option MempoolPolicyConfig) (hash : coin_map → Z) (utxos : coin_map).

Lemma mempool_provider_ok s : pool_ok s → provider_ok (mempool_provider cfg hash s).
Proof.
  intros [Ht _ _ _]. split; cbn [pooled prioritized mempool_provider].
  - apply (txid_key _ Ht).
  - intros us tx. unfold get_prioritized_transactions. cbn [snd]. intros (h & _ & Hh)%list_elem_of_omap.
    assert (txs (update_fee_index cfg hash us s) = txs s) as E by (unfold update_fee_index; by case_bool_decide).
    rewrite E in Hh. by rewrite (txid_key _ Ht _ _ Hh).
  - apply (inputs_nodup _ Ht).
  - intros h1 h2 tx1 tx2 o E1 E2. by apply (pool_no_double_spend s).
Qed.


(** [C7] A block template from any pool the operations reach lists pooled
    transactions, none twice; no output is spent twice; and an input that is
    not a coin of the chain and spends a pooled transaction has that
    transaction earlier in the template. *)
Theorem template_valid (s : Mempool) :
  reachable s →
  let l := select_transactions sel (mempool_provider cfg hash s) utxos in
  Forall (λ tx, txs s !! calculate_tx_id tx = Some tx) l ∧ NoDup (calculate_tx_id <$> l) ∧ NoDup (l ≫= tx_inputs) ∧
  ∀ i tx o, l !! i = Some tx → o ∈ tx_inputs tx → utxos !! o = None → is_Some (txs s !! op_hash o) →
    ∃ j parent, (j < i)%nat ∧ l !! j = Some parent ∧ calculate_tx_id parent = op_hash o.
Proof.
  intros Hr%reachable_ok. pose proof (mempool_provider_ok s Hr) as Hmp. intros l.
  destruct (select_built sel _ utxos Hmp) as (t & [Hc _]%(built_chosen _ _ _ Hmp) & Hl). subst l. rewrite Hl. split_and!.
  - by apply chosen_member in Hc.
  - by eapply chosen_nodup.
  - by eapply chosen_no_double_spend.
  - intros i tx o (a & b & Hab & Hi)%list_elem_of_split_length Ho Hu [p Hp]. rewrite Hab in Hc |- *.
    apply chosen_split in Hc as (_ & _ & Hrdy). unfold ready in Hrdy. rewrite Forall_forall in Hrdy.
    destruct (Hrdy o Ho) as [[? ?]|[?|Hin]]; [congruence|cbn in *; congruence|]. apply ids_elem in Hin as (x & Hx & Hid).
    apply list_elem_of_lookup in Hx as [j Hj]. exists j, x. pose proof (lookup_lt_Some _ _ _ Hj).
    split_and!; [lia|by rewrite lookup_app_l|done].
Qed.

(** [C23] With the room kept for the header and the coinbase, the transactions
    of a template stay within the size, the weight and the signature-operation
    limits, where each transaction is costed against the ones before it; given
    that the pooled transactions can be weighed and are not of machine width. *)
Theorem template_within_limits (s : Mempool) :
  reachable s → measured (mempool_provider cfg hash s) →
  0 ≤ max_block_size sel ≤ 2 ^ 63 → 0 ≤ max_block_weight sel ≤ 2 ^ 63 → 0 ≤ MAX_BLOCK_SIGOPS_COST < u64_max →
  let l := select_transactions sel (mempool_provider cfg hash s) utxos in
  (if 1000 <? max_block_size sel then 1000 else 0) + sizes_of l ≤ max_block_size sel ∧
  Z.min 4000 (max_block_weight sel) + weights_of (mempool_provider cfg hash s) l ≤ max_block_weight sel ∧
  sigops_of (mempool_provider cfg hash s) utxos [] l ≤ MAX_BLOCK_SIGOPS_COST.
Proof.
  intros Hr%reachable_ok Hms Hs Hw Hso l. pose proof (mempool_provider_ok s Hr) as Hmp.
  destruct (select_built sel _ utxos Hmp) as (t & Hb & Hl). subst l. rewrite Hl.
  destruct (built_counted sel _ utxos t Hms Hs Hw Hso Hb) as [[Hz ?] [Hwt ?] [Hsg ?]].
  cbn [empty_template current_size current_weight] in Hz, Hwt. rewrite <-Hz, <-Hwt, <-Hsg. lia.
Qed.

End PoolTemplates.

(** ** Concrete templates *)

Module MinerWitness.
Import IntegerU256 ToyConsensus PoolWitness.

(** 100 bytes an output, without witnesses. *)
#[global] Instance toy_mining : MiningOps := {|
  calculate_transaction_size tx := Z.min (100 * Z.of_nat (length (tx_outputs tx))) 100000;
  weight_from_stacks tx _ := Some (4 * Z.min (100 * Z.of_nat (length (tx_outputs tx))) 100000);
  weight_to_vsize w := Z.max 0 ((w + 3) / 4);
  block_sigop_cost _ _ _ := Some 4;
  MAX_BLOCK_SIGOPS_COST := 80000;
|}.
Definition selector : TransactionSelector := mkSelector 1000000 4000000 1.
Definition provider (s : Mempool) : MempoolProvider := mempool_provider None (λ _, 0) s.

(** Both pooled transactions, the parent first. *)
Lemma template_pc : lock_time <$> select_transactions selector (provider pool_pc) coins = [2; 3].
Proof. by vm_compute. Qed.

Lemma toy_measured s : measured (provider s).
Proof. intros h tx _. cbn. split; [lia|]. eexists. split; [done|lia]. Qed.

Lemma template_valid_witness :
  reachable pool_pc ∧ NoDup (select_transactions selector (provider pool_pc) coins ≫= tx_inputs).
Proof. split; [exact reach_pc|]. exact (proj1 (proj2 (proj2 (template_valid selector None (λ _, 0) coins pool_pc reach_pc)))). Defined.

Lemma template_within_limits_witness :
  reachable pool_pc ∧ 1000 + sizes_of (select_transactions selector (provider pool_pc) coins) ≤ 1000000.
Proof.
  split; [exact reach_pc|].
  exact (proj1 (template_within_limits selector None (λ _, 0) coins pool_pc reach_pc (toy_measured pool_pc)
    ltac:(by vm_compute) ltac:(by vm_compute) ltac:(by vm_compute))).
Defined.


(** ** A child that is left out *)

(** A parent with no fee and three children that pay, in the order of their fee
    rates; the first does not fit. *)
Definition parent : Tx := mkTx 2 [mkTxIn (coin 0) [] 0] [mkTxOut 95000 []; mkTxOut 3000 []; mkTxOut 2000 []] 1.
Definition large : Tx := mkTx 2 [mkTxIn (mkOut (tid 1) 0) [] 0] (replicate 10 (mkTxOut 1 [])) 2.
Definition second : Tx := mkTx 2 [mkTxIn (mkOut (tid 1) 1) [] 0] [mkTxOut 1000 []] 3.
Definition third : Tx := mkTx 2 [mkTxIn (mkOut (tid 1) 2) [] 0] [mkTxOut 1000 []] 4.
Definition family : MempoolProvider :=
  mkProvider (list_to_map ((λ tx, (calculate_tx_id tx, tx)) <$> [parent; large; second; third])) ∅ (λ _, [large; second; third; parent]).
Definition tight : TransactionSelector := mkSelector 1700 4000000 1000.

Lemma family_ok : provider_ok family.
Proof.
  assert (∀ h tx, pooled family !! h = Some tx → (h, tx) ∈ (λ tx, (calculate_tx_id tx, tx)) <$> [parent; large; second; third]) as Hin
    by (intros h tx; apply elem_of_list_to_map_2).
  split.
  - intros h tx (x & [= -> ->] & _)%Hin%list_elem_of_fmap. done.
  - intros u tx Htx. cbn in Htx. rewrite !elem_of_cons, elem_of_nil in Htx. destruct Htx as [->|[->|[->|[->|[]]]]]; by vm_compute.
  - intros h tx (x & [= -> ->] & Hx)%Hin%list_elem_of_fmap. rewrite !elem_of_cons, elem_of_nil in Hx.
    destruct Hx as [->|[->|[->|[->|[]]]]]; apply NoDup_singleton.
  - intros h1 h2 tx1 tx2 o (x & [= -> ->] & Hx)%Hin%list_elem_of_fmap (y & [= -> ->] & Hy)%Hin%list_elem_of_fmap.
    rewrite !elem_of_cons, elem_of_nil in Hx, Hy.
    destruct Hx as [->|[->|[->|[->|[]]]]], Hy as [->|[->|[->|[->|[]]]]]; intros Ho1 Ho2; (reflexivity || (exfalso; apply list_elem_of_singleton in Ho1 as ->; apply list_elem_of_singleton in Ho2; vm_compute in Ho2; discriminate Ho2)).
Qed.

(** The package of [parent] and [large] pays and does not fit, and no other
    package of [parent] is tried then.  The last loop takes [parent] with
    [second]; [third] then has no ancestor to bring and is passed over, though
    it fits the template and reaches the floor on its own. *)
Lemma payer_left_out :
  let l := select_transactions tight family coins in
  (λ tx, (transaction_fee family coins tx, tx_vsize family tx)) <$> prioritized family coins
    = [(94990, 1000); (2000, 100); (1000, 100); (0, 300)] ∧
  lock_time <$> l = [1; 3] ∧
  fee_meets_block_floor (transaction_fee family coins third) (tx_vsize family third) (min_fee_rate tight) = true ∧
  1000 + sizes_of (l ++ [third]) ≤ max_block_size tight ∧ 4000 + weights_of family (l ++ [third]) ≤ max_block_weight tight.
Proof. by vm_compute. Qed.
End MinerWitness.
